(* ===== verification/_CoqProject ===== *)
-Q . S2P
Prelude.v
Conc.v
Fifo.v
Progress.v
Cas2.v
Cas2Mutex.v
Ring.v
TicketRing.v
TicketLeave.v
Ncq.v
NcqProofs.v
NcqLin.v
NcqProgress.v
Scq.v
ScqSeq.v
ScqConc.v
RingSeq.v
Scqp.v
ScqpSeq.v
ScqpConc.v
Pool.v
PoolProofs.v
BoundedQueue.v
Lscq.v
LscqSeq.v
LscqConc.v
LscqConcProofs.v
MsQueue.v
MsLin.v
MsProgress.v
Ebr.v
EbrProofs.v
PoolMap.v
PoolMapProofs.v
Tls.v
TlsProofs.v
TlsPool.v
TlsPoolV2.v
TlsPoolV2Proofs.v
Numa.v
Args.v
Client.v
ClientQueues.v
Workers.v
WorkersProofs.v
TaskQueue.v
ProducerConsumer.v
TaskQueueLscq.v
Bench.v
BenchProofs.v
BenchQueues.v
Simple.v
