(* ===== verification/Prelude.v ===== *)
(** * Verification of the lscq library: concurrent queues, pools and reclamation

    This library models the C++ code of [include/lscq], [src] and [examples] and
    proves what makes it correct.  This first file documents the development; below the
    documentation it holds what all files share (machine integers, list lemmas,
    hints and tactics).

    ** The program

    - [NCQ<T>], the naive circular queue: a ring of (cycle, value) entries changed
      with a 16-byte compare-and-swap ([cas2]).
    - [SCQ<T>], the scalable circular queue of indices: tickets drawn with
      [fetch_add], entries with a cycle, a safe flag and a value, a threshold
      that makes an empty [dequeue] cheap.
    - [SCQP<T>], the same for pointers, in two modes: pointers in the entries, or
      a fallback with indices into an array of pointers.
    - [LSCQ<T>], an unbounded queue: a linked list of [SCQP] rings, whose nodes
      are recycled by an [ObjectPool].
    - [MSQueue<T>] and [MutexQueue<T>], the two reference queues.
    - [EBRManager], epoch-based reclamation, with the guard [EpochGuard].
    - [ObjectPool<T>]: shards under mutexes ([ObjectPoolShard], [ObjectPoolCore]);
      [ObjectPoolMap<T>] adds a map of caches and a closing gate;
      [ObjectPoolTLS<T>] and [ObjectPoolTLSv2<T>] add thread-local caches, whose
      memory [detail::numa] places.
    - The example programs, which use the queues: [task_queue] and
      [producer_consumer] pass the ownership of objects from producers to
      consumers, [benchmark_demo] and [benchmark_custom] measure the throughput,
      [simple_queue] and [simple_usage] use the queues in one thread.

    ** The model

    An operation is a program whose nodes are single accesses to the shared
    state ([Conc]): one load, store, [fetch_add], compare-and-swap or critical
    section each.  A loop of the source is a label of the program; a label that
    is reached again is an iteration.  The same text is executed

    - by one thread to completion ([run], [exec], with fuel): theorems on solo
      runs give a bound on the fuel that is enough for every state they speak of,
      and the result;
    - by any number of threads, one access at a time, in any order ([reach]):
      theorems on interleavings quantify over all reachable configurations and
      are proved with the rely-guarantee logic at the end of [Conc].

    Interleavings are sequentially consistent, an access takes effect at once and
    in program order, with one exception: the gates that store [closing_] and then
    load [active_ops_] ([Clear] of [ObjectPoolMap], the destructors of [LSCQ],
    [ObjectPoolTLS] and [ObjectPoolTLSv2]).  The code writes a release store and an
    acquire load there, which keep no order.  Their models take a parameter
    [store_order] ([Conc]): [SeqCst] keeps the order, with [RelAcq], what the code
    says, the store may wait in the store buffer while the loads go on.  Theorems
    on the gates say which of the two they need.  Other weak orders are not
    distinguished (see the end of this comment).  Unsigned words are integers
    reduced modulo their width where the code lets them wrap, [nullptr] is [0],
    a weak compare-and-swap and a [try_to_lock] may fail at any time (an open
    choice of the scheduler, or a list of booleans in solo runs).  Events attached
    to accesses record the history that the theorems speak of; programs never
    read it.

    ** The files, the sources they model, and what is shown

    - [Conc]: the language of programs, its runs, the logic and its adequacy (also
      for what an operation leaves behind when it returns).  [Fifo]: the abstract
      queue that the queues refine.  [Progress]: how many steps an execution can
      take, from a version of the shared state that grows with every success and
      a bound on the steps of a thread while it stays.
    - [Cas2]: [cas2.hpp], [config.hpp] and the headers of [detail] for atomic and
      bit operations.  The 16-byte instructions fault where the processor does;
      whatever the preprocessor and the CPU test select for [cas2] does not fault
      and has the effect of the reference, with the critical section of the mutex
      as one step.  [Cas2Mutex]: this critical section access by access; it is one
      step when all writers take the mutex, and it loses the lock-free writes of
      [SCQ::dequeue] and [SCQP::dequeue].
    - [Ring]: the functions on indices, cycles and packed words that the rings
      share ([ncq_impl.hpp], parts of [scq.cpp] and [scqp.cpp]); the packing of
      a cycle with its flag is a bijection.  [TicketRing]: the protocol of tickets
      and slots that [SCQ] and [SCQP] share, on abstract cells, and its invariant;
      [TicketLeave]: when a dequeuer may give its ticket up; [RingSeq]: the
      protocol between operations.
    - [Ncq], [NcqProofs], [NcqLin], [NcqProgress]: [ncq.hpp], [ncq.cpp].
      Linearizability and lock-freedom of all interleavings within the capacity,
      termination of solo runs, the constructor, and what an overfull ring does.
    - [Scq], [ScqSeq], [ScqConc]: [scq.hpp], [scq.cpp].  Operations of one thread are
      those of a FIFO queue of [scqsize] values, except that [enqueue] on a full ring
      never returns; the constructor for every size; every interleaving uses each ticket and value
      at most once, and a dequeuer passes a ticket only when it has its value or
      no value can be stored with it any more, so that nothing is lost or
      overtaken; a schedule that leaves a dequeuer spinning for ever.
    - [Scqp], [ScqpSeq]: [scqp.hpp], [scqp.cpp].  Both modes refine [RingSeq];
      solo operations end within a bound with the result of a bounded FIFO queue;
      construction and reset.  [ScqpConc]: every interleaving of both modes uses
      each ticket, pointer and array slot at most once; the element that a
      [dequeue] abandons when it reaches its limit of retries.
    - [BoundedQueue]: the interface (a class) of a ring as [LSCQ] uses it, with
      [SCQP] as its instance.  [Lscq], [LscqSeq]: [lscq.hpp], [lscq.cpp], one
      thread at a time, proved against the interface: an unbounded FIFO queue that
      grows, recycles its nodes and whose destructor gives each node to [delete]
      once.  [LscqConc], [LscqConcProofs]: the same code access by access, with any
      number of threads.  If the gate of the destructor keeps its order, no node is
      accessed after its deletion and none is deleted before the destructor.  What
      fails, each with an execution: the gate with the orders of the code, the ring
      of a node that is destroyed under an operation, a destructor that deletes
      nodes twice, the element that an [enqueue] with a stale tail loses, and the
      element that two [dequeue] return when the node was recycled under one of
      them.
    - [MsQueue], [MsLin], [MsProgress]: [msqueue.hpp], [msqueue.cpp],
      [mutex_queue.hpp].  Linearizability and lock-freedom; the destructor deletes
      every node once.
    - [Ebr], [EbrProofs]: [ebr.hpp], [ebr.cpp].  No deleter runs under a critical
      section that could still see the node when one [try_reclaim] runs at a time;
      nothing is lost; two quiet calls reclaim everything; the races that two
      [try_reclaim], two managers in a thread, and the destruction of a manager
      have.
    - [Pool], [PoolProofs]: [object_pool_shard.hpp], [object_pool_core.hpp],
      [object_pool.hpp].  Objects are neither lost nor duplicated.
    - [PoolMap], [PoolMapProofs]: [object_pool_map.hpp].  Ownership, with any memory
      order; if the store of [closing_] keeps its order, the gate keeps the other
      operations out of [Clear]; with the orders of the code it does not, and two
      concurrent [Clear] open it too early.
    - [Tls]: what [object_pool_tls.hpp] and [object_pool_tls_v2.hpp] have in
      common, over a class of operations on a cache ([CacheOps]); [TlsProofs]: its
      invariant, over the laws of these operations ([CacheLaws]).  [TlsPool]:
      [object_pool_tls.hpp]; [TlsPoolV2], [TlsPoolV2Proofs]:
      [object_pool_tls_v2.hpp].  Both are instances: ownership and the shape of the
      batched cache with any memory order; what the destructor keeps out when its
      wait succeeded after its store, and what it does not: an operation that it
      missed because of the memory order, an exiting thread, another pool.
    - [Numa]: [numa_utils.hpp] and the holder of a cache.  What is allocated is
      freed by the allocator that made it.
    - [Args]: the command lines of the four examples that have options; what is
      valid is read back, everything else is refused.
    - [Client]: a program whose threads use a queue, for any queue, with the
      accesses of the program and those inside the queue interleaved.  An execution
      of the program contains one of the queue, so that what is proved of the queue
      holds inside ([Serves], the class of what a queue promises); a logic for the
      code of the program.  [ClientQueues]: [MutexQueue], [MSQueue] and [SCQP] keep
      such a promise, by their theorems above.
    - [Workers], [WorkersProofs], [TaskQueue], [ProducerConsumer]: [main] of
      [task_queue.cpp] and of [producer_consumer.cpp], from the creation of the
      threads to the exit code.  On a queue that keeps the order: no object is used
      after its deletion or deleted twice, and at the end every task was processed
      once and everything was deleted.  [TaskQueueLscq]: an execution on [LSCQ], the
      queue the program is written for, that deletes a task twice.
    - [Bench], [BenchProofs], [BenchQueues]: [run_mpmc_benchmark] and [bench_lscq].
      On a queue that invents and duplicates nothing, such as [SCQP], they return
      when every element went through the queue exactly once; on [LSCQ] they can
      return before.
    - [Simple]: [simple_queue.cpp] and [simple_usage.cpp] with their output.

    ** Bounds

    The theorems on the rings assume that the 64-bit positions have not
    overflowed (they stay below [2^64]; each statement says which position) and,
    for [NCQ], that the clients keep within the capacity, as its documentation
    demands.  Fuel only occurs in solo runs, with a bound that is proved to be
    enough; that a loop does not end is stated for every fuel.  The bounds of the theorems on progress count steps:
    with [n] threads, [c] operations completed and [f] spurious failures an
    execution has at most [16 * ((4n + 1) * (c + n) + f)] steps for [MSQueue] and
    [12 * ((3n + 1) * (c + n) + f)] for [NCQ]; [SCQ] has no such bound, since its
    operations can spin.  The theorems on the example programs speak of all
    executions; what they say of the end holds when [main] has returned, which it
    need not do under an unfair scheduler; the witnesses are complete executions.

    ** Not modelled

    - Weak memory, beyond the gates above.
    - The mutex of [cas2] inside the rings: their models take a [cas2] as one step,
      which is what the native instructions do; [Cas2Mutex] shows what the mutex
      adds.
    - The pointers [entries_p_], [entries_i_] and [ptr_array_] of a ring: reading
      the pointer and accessing the array are one step.
    - Conditions under which interleavings of [SCQP] and [LSCQ] are linearizable:
      without conditions they are not ([ScqpConc], [LscqConcProofs]).
    - [likely.hpp] and [PrefetchPointer]: hints to the compiler and the processor
      without effect on a result.
    - The clock, the banners and the computation of the throughput in the examples;
      the programs under [benchmarks] and [tests]. *)

From stdpp Require Import base list numbers option.
From Stdlib Require Import ZArith Lia.

Declare Scope lscq_scope.
Delimit Scope lscq_scope with lscq.

Create HintDb lscq.
Create Rewrite HintDb lscq.

(** ** Machine integers

    Unsigned 64-bit words are integers reduced modulo [2^64]; a signed 64-bit
    word is the two's complement reading of such a residue. *)

Definition two64 : Z := 18446744073709551616.

Definition two63 : Z := 9223372036854775808.

Definition two32 : Z := 4294967296.

(** [static_cast<std::uint64_t>]. *)
Definition u64 (x : Z) : Z := x mod two64.

(** [static_cast<std::int64_t>]. *)
Definition i64 (x : Z) : Z :=
  let y := u64 x in if (y <? two63)%Z then y else (y - two64)%Z.

(** [int]: two's complement in 32 bits. *)
Definition i32 (x : Z) : Z :=
  let y := (x mod two32)%Z in if (y <? 2147483648)%Z then y else (y - two32)%Z.

Definition add64 (a b : Z) : Z := u64 (a + b).

Definition sub64 (a b : Z) : Z := u64 (a - b).

Definition shl64 (a n : Z) : Z := u64 (Z.shiftl a n).

Notation "a +u b" := (add64 a b) (at level 50, left associativity) : lscq_scope.
Notation "a -u b" := (sub64 a b) (at level 50, left associativity) : lscq_scope.

(** The range of a word. *)
Definition is_u64 (x : Z) : Prop := (0 <= x < two64)%Z.

#[global] Instance is_u64_dec x : Decision (is_u64 x).
Proof. unfold is_u64. apply _. Defined.

(** ** Tactics of the development *)

(** Turn the boolean tests of the code into propositions, in the context. *)
Ltac bool_hyps :=
  repeat match goal with
  | H : andb _ _ = true |- _ => apply andb_true_iff in H; destruct H
  | H : orb _ _ = false |- _ => apply orb_false_iff in H; destruct H
  | H : negb _ = true |- _ => apply negb_true_iff in H
  | H : negb _ = false |- _ => apply negb_false_iff in H
  | H : (_ =? _)%Z = true |- _ => apply Z.eqb_eq in H
  | H : (_ =? _)%Z = false |- _ => apply Z.eqb_neq in H
  | H : (_ <? _)%Z = true |- _ => apply Z.ltb_lt in H
  | H : (_ <? _)%Z = false |- _ => apply Z.ltb_ge in H
  | H : (_ <=? _)%Z = true |- _ => apply Z.leb_le in H
  | H : (_ <=? _)%Z = false |- _ => apply Z.leb_gt in H
  end.

(** Split on every boolean test on which the goal branches. *)
Ltac split_ifs :=
  repeat match goal with
  | |- context [if ?b then _ else _] =>
      let E := fresh "Eif" in destruct b eqn:E; bool_hyps
  end.

(** Unfold word arithmetic and finish with linear arithmetic. *)
Ltac word :=
  unfold is_u64, add64, sub64, u64, two64, two63, two32 in *; lia.

(** ** Words *)

Section words.
Local Open Scope Z_scope.

Lemma u64_small x : is_u64 x -> u64 x = x.
Proof. intros H. unfold u64. apply Z.mod_small. exact H. Qed.

Lemma u64_range x : is_u64 (u64 x).
Proof. unfold is_u64, u64. apply Z.mod_pos_bound. reflexivity. Qed.

Lemma add64_small a b : is_u64 (a + b) -> add64 a b = a + b.
Proof. apply u64_small. Qed.

Lemma sub64_small a b : is_u64 (a - b) -> sub64 a b = a - b.
Proof. apply u64_small. Qed.

Lemma i64_small x : 0 <= x < two63 -> i64 x = x.
Proof.
  intros H. unfold i64. rewrite u64_small by (unfold is_u64, two64, two63 in *; lia).
  destruct (Z.ltb_spec x two63); lia.
Qed.

Lemma i32_small x : -2147483648 <= x < 2147483648 -> i32 x = x.
Proof.
  intros H. unfold i32, two32. destruct (Z.le_gt_cases 0 x).
  - rewrite Z.mod_small by lia. destruct (Z.ltb_spec x 2147483648); lia.
  - replace (x mod 4294967296) with (x + 4294967296) by (apply Z.mod_unique with (q := -1); lia).
    destruct (Z.ltb_spec (x + 4294967296) 2147483648); lia.
Qed.

(** The signed difference of two words less than [2^63] apart is negative
    exactly when the first is the smaller one. *)
Lemma i64_diff a b :
  - two63 <= a - b < two63 -> i64 (sub64 a b) = a - b.
Proof.
  intros H. unfold i64, sub64.
  rewrite (u64_small (u64 _)) by apply u64_range.
  unfold u64, two64, two63 in *.
  destruct (Z.le_gt_cases 0 (a - b)) as [Hp|Hn].
  - rewrite Z.mod_small by lia. destruct (Z.ltb_spec (a - b) 9223372036854775808); lia.
  - replace ((a - b) mod 18446744073709551616) with (a - b + 18446744073709551616).
    + destruct (Z.ltb_spec (a - b + 18446744073709551616) 9223372036854775808); lia.
    + apply Z.mod_unique with (q := -1); lia.
Qed.

End words.

#[export] Hint Resolve u64_range : lscq.

(** ** Euclidean division, as the rings use it *)

Section division.
Local Open Scope Z_scope.

(** Two positions in the same slot and in the same cycle are equal. *)
Lemma div_mod_inj n a b : n <> 0 -> a / n = b / n -> a mod n = b mod n -> a = b.
Proof.
  intros Hn Hd Hm. rewrite (Z.div_mod a n Hn), (Z.div_mod b n Hn). congruence.
Qed.

(** Among [n] consecutive positions each slot occurs exactly once. *)
Lemma mod_window_unique n lo a b :
  0 < n -> lo <= a < lo + n -> lo <= b < lo + n -> a mod n = b mod n -> a = b.
Proof.
  intros Hn Ha Hb Hm.
  pose proof (Z.div_mod a n ltac:(lia)). pose proof (Z.div_mod b n ltac:(lia)).
  assert (Hd : n * (a / n - b / n) = a - b) by lia.
  assert (a / n - b / n = 0) by nia. lia.
Qed.

(** The position of slot [j] in the window of length [n] that starts at [lo]. *)
Definition window_pos (n lo j : Z) : Z := lo + (j - lo) mod n.

Lemma window_pos_range n lo j : 0 < n -> lo <= window_pos n lo j < lo + n.
Proof. intros Hn. unfold window_pos. pose proof (Z.mod_pos_bound (j - lo) n Hn). lia. Qed.

Lemma window_pos_mod n lo j : 0 < n -> window_pos n lo j mod n = j mod n.
Proof.
  intros Hn. unfold window_pos. rewrite Zplus_mod_idemp_r. f_equal. lia.
Qed.

(** A position at least one lap later in the same slot is in a later cycle. *)
Lemma div_lap n a b :
  0 < n -> a mod n = b mod n -> a < b -> a / n + 1 <= b / n /\ a + n <= b.
Proof.
  intros Hn Hm Hlt.
  pose proof (Z.div_mod a n ltac:(lia)). pose proof (Z.div_mod b n ltac:(lia)).
  assert (Hd : n * (b / n - a / n) = b - a) by lia.
  assert (0 < b / n - a / n) by nia. split; nia.
Qed.

Lemma div_add_lap n a : n <> 0 -> (a + n) / n = a / n + 1.
Proof. intros Hn. rewrite <- (Z.mul_1_l n) at 1. rewrite Z.div_add by assumption. lia. Qed.

Lemma mod_add_lap n a : (a + n) mod n = a mod n.
Proof. rewrite <- (Z.mul_1_l n) at 1. apply Z_mod_plus_full. Qed.

End division.
