(* ===== verification/Conc.v ===== *)
(** * Conc: programs of atomic accesses, their runs and their interleavings

    The queues are written as programs whose nodes are single atomic accesses
    to a shared state (one [load], [store], [fetch_add], [compare_exchange] or
    16-byte [cas2] of the C++ code per node).  The same program text gets

    - a sequential run ([run], [exec]): one thread executes to completion;
    - an interleaved run ([sched], [reach]): any number of threads execute,
      one atomic access at a time, in an order a scheduler picks.

    A [while (true)] loop is a [body] indexed by the heads of its loops: a body
    returns [inl l] to jump to the loop head [l] and [inr r] to return [r] from
    the C++ function.  The file ends with a rely-guarantee logic ([wp]) and its
    adequacy theorem, which the components use for their concurrent theorems. *)

From stdpp Require Import base list numbers option relations.
From Stdlib Require Import ZArith Lia.
From S2P Require Import Prelude.

(** ** Programs *)

Section prog.
Context {S E : Type}.

(** [Act f ev k]: the atomic access [f], the linearization events [ev] it is
    annotated with (a function of what the access returned; the events have no
    effect on the run) and the continuation.  [Choose k]: a choice the C++
    standard leaves open, such as the spurious failure of a
    [compare_exchange_weak] or of a [try_lock]. *)
Inductive prog (R : Type) : Type :=
| Ret (r : R)
| Act (X : Set) (f : S -> S * X) (ev : X -> list E) (k : X -> prog R)
| Choose (k : bool -> prog R).

Arguments Ret {R} r.
Arguments Act {R} X f ev k.
Arguments Choose {R} k.

Fixpoint bind {A B} (p : prog A) (q : A -> prog B) : prog B :=
  match p with
  | Ret r => q r
  | Act X f ev k => Act X f ev (fun x => bind (k x) q)
  | Choose k => Choose (fun b => bind (k b) q)
  end.

(** One access without annotation, and one with annotation. *)
Definition atomic {X : Set} (f : S -> S * X) : prog X :=
  Act X f (fun _ => []) Ret.

Definition atomic_lin {X : Set} (f : S -> S * X) (ev : X -> list E) : prog X :=
  Act X f ev Ret.

Definition choose : prog bool := Choose Ret.

(** ** One thread alone

    [w] resolves the choices, in order; when it is used up every further choice
    is [false], so only finitely many operations fail spuriously. *)
Fixpoint run {R} (p : prog R) (w : list bool) (s : S) : S * list bool * R :=
  match p with
  | Ret r => (s, w, r)
  | Act X f ev k => let '(s', x) := f s in run (k x) w s'
  | Choose k => run (k (hd false w)) (tl w) s
  end.

Lemma run_bind {A B} (p : prog A) (q : A -> prog B) w s :
  run (bind p q) w s = let '(s', w', a) := run p w s in run (q a) w' s'.
Proof.
  revert w s. induction p as [r|X f ev k IH|k IH]; intros w s; simpl; [done| |done].
  destruct (f s) as [s' x]. apply IH.
Qed.

(** Loops: [exec body fuel l w s] runs the blocks from the loop head [l]. *)
Section exec.
Context {L R : Type} (body : L -> prog (L + R)).

Fixpoint exec (fuel : nat) (l : L) (w : list bool) (s : S) : option (S * list bool * R) :=
  match fuel with
  | O => None
  | Datatypes.S fuel =>
      let '(s', w', r) := run (body l) w s in
      match r with
      | inl l' => exec fuel l' w' s'
      | inr r => Some (s', w', r)
      end
  end.

Lemma exec_mono fuel fuel' l w s out :
  exec fuel l w s = Some out -> (fuel <= fuel')%nat -> exec fuel' l w s = Some out.
Proof.
  revert fuel' l w s. induction fuel as [|fuel IH]; intros fuel' l w s He Hle; [done|].
  destruct fuel' as [|fuel']; [lia|]. simpl in *.
  destruct (run (body l) w s) as [[s' w'] [l'|r]]; [|done].
  apply IH; [done|lia].
Qed.

(** One block that jumps, and one block that returns. *)
Lemma exec_jump fuel l w s s' w' l' :
  run (body l) w s = (s', w', inl l') ->
  exec (Datatypes.S fuel) l w s = exec fuel l' w' s'.
Proof. intros H. simpl. by rewrite H. Qed.

Lemma exec_ret fuel l w s s' w' r :
  run (body l) w s = (s', w', inr r) ->
  exec (Datatypes.S fuel) l w s = Some (s', w', r).
Proof. intros H. simpl. by rewrite H. Qed.

End exec.
End prog.

(** Execute the next block, whose run is [H]. *)
Ltac exec_jump H := etransitivity; [eapply exec_jump; exact H|].
Ltac exec_ret H := eapply exec_ret; exact H.

Arguments prog S E R : clear implicits.
Arguments Ret {S E R} r.
Arguments Act {S E R} X f ev k.
Arguments Choose {S E R} k.

Declare Scope prog_scope.
Delimit Scope prog_scope with prog.
Notation "'let!' x := p 'in' q" := (bind p (fun x => q))
  (at level 10, x name, p at level 100, q at level 200,
   format "'[v' 'let!'  x  :=  p  'in' '/' q ']'") : prog_scope.
Notation "'do!' p ; q" := (bind p (fun _ => q))
  (at level 10, p at level 100, q at level 200,
   format "'[v' 'do!'  p ; '/' q ']'") : prog_scope.

(** ** Memory orders

    Accesses take effect in program order, with one exception that is explicit
    in the programs: the gates of the library ([ObjectPoolMap::Clear], the
    destructors of [LSCQ] and of the pools with thread-local caches) store to
    one variable and then load another.  With [SeqCst] the store takes effect
    first.  With [RelAcq], which is what the code asks for, it may stay in the
    store buffer of its thread and take effect any time later, until the thread
    takes a mutex; this is what an x86 processor does. *)
Inductive store_order : Set := SeqCst | RelAcq.

(** ** Programs of a part of the state

    A component that is a part of a larger one runs the same program on the
    larger state; [get] and [put] select the part and [emb] embeds its events. *)
Section lift.
Context {S S' E E' : Type} (get : S' -> S) (put : S -> S' -> S') (emb : E -> E').

Fixpoint lift {A} (p : prog S E A) : prog S' E' A :=
  match p with
  | Ret r => Ret r
  | Act X f ev k =>
      Act X (fun s' => let '(s, x) := f (get s') in (put s s', x)) (fun x => emb <$> ev x)
        (fun x => lift (k x))
  | Choose k => Choose (fun b => lift (k b))
  end.

End lift.

(** *** Postconditions that need no knowledge of the state

    [posts p Q es]: when every access of [p] starts in a well-formed state, it
    is a [step] of the component, and [p] ends with a result and a list of
    events (after [es]) that satisfy [Q], whatever happens between its
    accesses. *)
Section posts.
Context {S E : Type} (wf : S -> Prop) (step : S -> S -> list E -> Prop).

Fixpoint posts {A} (p : prog S E A) (Q : list E -> A -> Prop) (es : list E) : Prop :=
  match p with
  | Ret r => Q es r
  | Act X f ev k =>
      forall s, wf s -> step s (f s).1 (ev (f s).2) /\ posts (k (f s).2) Q (es ++ ev (f s).2)
  | Choose k => forall b, posts (k b) Q es
  end.

Lemma posts_mono {A} (p : prog S E A) (Q Q' : list E -> A -> Prop) es :
  (forall es r, Q es r -> Q' es r) -> posts p Q es -> posts p Q' es.
Proof.
  intros HQ. revert es. induction p as [r|X f ev k IH|k IH]; intros es; simpl; [auto| |auto].
  intros H s Hs. destruct (H s Hs). auto.
Qed.

Lemma posts_bind {A B} (p : prog S E A) (q : A -> prog S E B) Q es :
  posts p (fun es r => posts (q r) Q es) es -> posts (bind p q) Q es.
Proof.
  revert es. induction p as [r|X f ev k IH|k IH]; intros es; simpl; [done| |auto].
  intros H s Hs. destruct (H s Hs). auto.
Qed.

Lemma posts_ret {A} (r : A) (Q : list E -> A -> Prop) es : Q es r -> posts (Ret r) Q es.
Proof. done. Qed.

Lemma posts_act {A} (X : Set) f ev (k : X -> prog S E A) Q es :
  (forall s s' x, wf s -> f s = (s', x) -> step s s' (ev x)) ->
  (forall s s' x, wf s -> f s = (s', x) -> posts (k x) Q (es ++ ev x)) -> posts (Act X f ev k) Q es.
Proof.
  intros H1 H2 s Hs. destruct (f s) as [s' x] eqn:E1. simpl. eauto.
Qed.

End posts.

Arguments posts : simpl never.

(** ** Interleavings *)

Section conc.
Context {S E Op L R : Type}.
Context (entry : Op -> L) (body : L -> prog S E (L + R)).

(** The history of an execution: calls, linearization events and returns, in
    the order in which they happened, each with the thread it belongs to. *)
Inductive hev : Type :=
| HCall (i : nat) (o : Op)
| HLin (i : nat) (e : E)
| HRet (i : nat) (r : R).

Inductive thread : Type :=
| Idle
| Busy (p : prog S E (L + R)).

Record config := Config {
  shared : S;
  hist : list hev;
  pool : list thread
}.

(** What the scheduler lets a thread do: start an operation when it is idle, or
    take its next step, with the outcome of an open choice. *)
Inductive move : Type :=
| Call (o : Op)
| Go (b : bool).

Definition sched (i : nat) (m : move) (c : config) : option config :=
  let '(Config s h tp) := c in
  match tp !! i, m with
  | Some Idle, Call o =>
      Some (Config s (h ++ [HCall i o]) (<[i := Busy (body (entry o))]> tp))
  | Some (Busy (Act X f ev k)), Go _ =>
      let '(s', x) := f s in
      Some (Config s' (h ++ (HLin i <$> ev x)) (<[i := Busy (k x)]> tp))
  | Some (Busy (Choose k)), Go b => Some (Config s h (<[i := Busy (k b)]> tp))
  | Some (Busy (Ret (inl l))), Go _ => Some (Config s h (<[i := Busy (body l)]> tp))
  | Some (Busy (Ret (inr r))), Go _ =>
      Some (Config s (h ++ [HRet i r]) (<[i := Idle]> tp))
  | _, _ => None
  end.

Fixpoint scheds (ms : list (nat * move)) (c : config) : option config :=
  match ms with
  | [] => Some c
  | (i, m) :: ms => match sched i m c with Some c' => scheds ms c' | None => None end
  end.

Lemma scheds_app ms1 ms2 c :
  scheds (ms1 ++ ms2) c = match scheds ms1 c with Some c' => scheds ms2 c' | None => None end.
Proof.
  revert c. induction ms1 as [|[i m] ms1 IH]; intros c; simpl; [done|].
  by destruct (sched i m c).
Qed.

(** A start configuration: [n] idle threads and an empty history. *)
Definition start (s : S) (n : nat) : config := Config s [] (replicate n Idle).

(** Configurations reachable while the environment assumption [ok] holds. *)
Inductive reach (ok : S -> list hev -> Prop) (s0 : S) (n : nat) : config -> Prop :=
| reach_start : reach ok s0 n (start s0 n)
| reach_step i m c c' :
    reach ok s0 n c -> sched i m c = Some c' -> ok (shared c') (hist c') ->
    reach ok s0 n c'.

(** The executable scheduler produces reachable configurations, provided that
    the assumption holds of every configuration it visits. *)
Fixpoint visits (okb : S -> list hev -> bool) (ms : list (nat * move)) (c : config) : bool :=
  match ms with
  | [] => true
  | (i, m) :: ms =>
      match sched i m c with
      | Some c' => okb (shared c') (hist c') && visits okb ms c'
      | None => false
      end
  end.

(** [k] steps of thread [i] without spurious failure. *)
Definition go (i k : nat) : list (nat * move) := replicate k (i, Go false).

Lemma scheds_reach (ok : S -> list hev -> Prop) okb s0 n ms c c' :
  (forall s h, okb s h = true -> ok s h) ->
  reach ok s0 n c -> scheds ms c = Some c' -> visits okb ms c = true ->
  reach ok s0 n c'.
Proof.
  intros Hok. revert c. induction ms as [|[i m] ms IH]; intros c Hr Hs Hv; simpl in *.
  - by simplify_eq.
  - destruct (sched i m c) as [c1|] eqn:E1; [|done].
    apply andb_prop in Hv as [Hv1 Hv2].
    apply (IH c1); [|done|done]. eapply reach_step; eauto.
Qed.

(** The configuration a schedule ends in. *)
Definition outcome (s0 : S) (n : nat) (ms : list (nat * move)) : config :=
  default (start s0 n) (scheds ms (start s0 n)).

Lemma visits_scheds okb ms c : visits okb ms c = true -> is_Some (scheds ms c).
Proof.
  revert c. induction ms as [|[i m] ms IH]; intros c Hv; simpl in *; [by eexists|].
  destruct (sched i m c) as [c1|]; [|done]. apply andb_prop in Hv as [_ Hv]. by apply IH.
Qed.

Lemma outcome_reach (ok : S -> list hev -> Prop) okb s0 n ms :
  (forall s h, okb s h = true -> ok s h) -> visits okb ms (start s0 n) = true ->
  reach ok s0 n (outcome s0 n ms).
Proof.
  intros Hok Hv. unfold outcome. destruct (visits_scheds _ _ _ Hv) as [c Hc]. rewrite Hc. simpl.
  apply (scheds_reach ok okb s0 n ms (start s0 n)); [done|constructor|done|done].
Qed.

(** *** The history of a thread *)

Definition events (h : list hev) : list E :=
  omap (fun x => match x with HLin _ e => Some e | _ => None end) h.

(** The operation a thread is executing with the events it has emitted, and
    the list of the completed operations, each with its events and its result. *)
Definition pending := nat -> option (Op * list E).

Definition replay1 (st : pending * list (Op * list E * R)) (x : hev) :
    pending * list (Op * list E * R) :=
  let '(pd, done) := st in
  match x with
  | HCall i o => (fun j => if decide (j = i) then Some (o, []) else pd j, done)
  | HLin i e =>
      (fun j => if decide (j = i)
                then match pd i with Some (o, es) => Some (o, es ++ [e]) | None => None end
                else pd j, done)
  | HRet i r =>
      (fun j => if decide (j = i) then None else pd j,
       match pd i with Some (o, es) => done ++ [(o, es, r)] | None => done end)
  end.

Definition replay (h : list hev) : pending * list (Op * list E * R) :=
  foldl replay1 (fun _ => None, []) h.

Definition opview (i : nat) (h : list hev) : option (Op * list E) := fst (replay h) i.

Definition completed (h : list hev) : list (Op * list E * R) := snd (replay h).

Lemma events_app h1 h2 : events (h1 ++ h2) = events h1 ++ events h2.
Proof. apply omap_app. Qed.

Lemma events_lin i es : events (HLin i <$> es) = es.
Proof. unfold events. induction es as [|e es IH]; [done|]. simpl. by f_equal. Qed.

Lemma elem_events h e : e ∈ events h <-> exists i, HLin i e ∈ h.
Proof.
  unfold events. rewrite list_elem_of_omap. split.
  - intros ([] & Hin & Heq); simplify_eq. eauto.
  - intros [i Hin]. eauto.
Qed.

Lemma events_snoc h i e : events (h ++ [HLin i e]) = events h ++ [e].
Proof. by rewrite events_app. Qed.

Lemma elem_lin_snoc h i j e e' :
  HLin j e ∈ h ++ [HLin i e'] <-> HLin j e ∈ h \/ (j = i /\ e = e').
Proof. rewrite elem_of_app, list_elem_of_singleton. naive_solver. Qed.

Lemma elem_ev_snoc (es : list E) e e' : e ∈ es ++ [e'] <-> e ∈ es \/ e = e'.
Proof. by rewrite elem_of_app, list_elem_of_singleton. Qed.

Lemma replay_snoc h x : replay (h ++ [x]) = replay1 (replay h) x.
Proof. unfold replay. by rewrite foldl_app. Qed.

Lemma opview_call i o h j :
  opview j (h ++ [HCall i o]) = if decide (j = i) then Some (o, []) else opview j h.
Proof. unfold opview. rewrite replay_snoc. destruct (replay h) as [pd dn]. done. Qed.

Lemma opview_ret i r h j :
  opview j (h ++ [HRet i r]) = if decide (j = i) then None else opview j h.
Proof. unfold opview. rewrite replay_snoc. destruct (replay h) as [pd dn]. done. Qed.

Lemma opview_lin i es h j :
  opview j (h ++ (HLin i <$> es)) =
  if decide (j = i)
  then match opview i h with Some (o, es0) => Some (o, es0 ++ es) | None => None end
  else opview j h.
Proof.
  revert h. induction es as [|e es IH]; intros h; simpl.
  - rewrite app_nil_r. case_decide; subst; [|done].
    destruct (opview i h) as [[o es0]|]; [by rewrite app_nil_r|done].
  - rewrite (cons_middle (HLin i e)), app_assoc, IH.
    unfold opview. rewrite replay_snoc. destruct (replay h) as [pd dn]; simpl.
    repeat case_decide; subst; try done. destruct (pd i) as [[o es0]|]; [|done].
    by rewrite <- app_assoc.
Qed.

(** Events do not change which operation a thread runs. *)
Lemma opview_lin_op i es h j o fs :
  opview j (h ++ (HLin i <$> es)) = Some (o, fs) -> exists fs', opview j h = Some (o, fs').
Proof.
  rewrite opview_lin. case_decide; [|eauto]. subst. destruct (opview i h) as [[o' es0]|]; [|done].
  intros [= -> _]. eauto.
Qed.

Lemma opview_snoc i e h j :
  opview j (h ++ [HLin i e]) =
  if decide (j = i)
  then match opview i h with Some (o, es0) => Some (o, es0 ++ [e]) | None => None end
  else opview j h.
Proof. apply (opview_lin i [e]). Qed.

Lemma completed_call i o h : completed (h ++ [HCall i o]) = completed h.
Proof. unfold completed. rewrite replay_snoc. by destruct (replay h). Qed.

Lemma completed_lin i es h : completed (h ++ (HLin i <$> es)) = completed h.
Proof.
  revert h. induction es as [|e es IH]; intros h; simpl; [by rewrite app_nil_r|].
  rewrite (cons_middle (HLin i e)), app_assoc, IH.
  unfold completed. rewrite replay_snoc. by destruct (replay h).
Qed.

Lemma completed_ret i r h :
  completed (h ++ [HRet i r]) =
  match opview i h with Some (o, es) => completed h ++ [(o, es, r)] | None => completed h end.
Proof.
  unfold completed, opview. rewrite replay_snoc. destruct (replay h) as [pd dn]. done.
Qed.

(** The items of the history that belong to an operation. *)
Ltac snoc_solve := repeat setoid_rewrite elem_of_app; repeat setoid_rewrite list_elem_of_singleton; naive_solver.

Lemma opview_items i o es h : opview i h = Some (o, es) -> HCall i o ∈ h /\ forall e, e ∈ es -> HLin i e ∈ h.
Proof using Type.
  clear entry body.
  revert o es. induction h as [|x h IH] using rev_ind; intros o es Hv; [done|].
  destruct x as [j o'|j e'|j r'].
  - rewrite opview_call in Hv. case_decide as Hj; [|destruct (IH _ _ Hv); snoc_solve].
    injection Hv as <- <-. subst. split; [snoc_solve|by intros e ?%elem_of_nil].
  - rewrite opview_snoc in Hv. case_decide as Hj; [|destruct (IH _ _ Hv); snoc_solve].
    subst j. destruct (opview i h) as [[o1 es1]|]; [|done]. injection Hv as <- <-.
    destruct (IH _ _ eq_refl). snoc_solve.
  - rewrite opview_ret in Hv. case_decide as Hj; [done|]. destruct (IH _ _ Hv). snoc_solve.
Qed.

Lemma completed_items o es r h :
  (o, es, r) ∈ completed h -> exists i, HCall i o ∈ h /\ forall e, e ∈ es -> HLin i e ∈ h.
Proof using Type.
  clear entry body.
  induction h as [|x h IH] using rev_ind; intros Hin; [by apply elem_of_nil in Hin|].
  destruct x as [j o'|j e'|j r'].
  - rewrite completed_call in Hin. destruct (IH Hin) as (i & ? & ?). exists i. snoc_solve.
  - rewrite (completed_lin j [e']) in Hin. destruct (IH Hin) as (i & ? & ?). exists i. snoc_solve.
  - rewrite completed_ret in Hin. destruct (opview j h) as [[o1 es1]|] eqn:Ev.
    + apply elem_of_app in Hin as [Hin|[= -> -> ->]%list_elem_of_singleton].
      * destruct (IH Hin) as (i & ? & ?). exists i. snoc_solve.
      * destruct (opview_items _ _ _ _ Ev). exists j. snoc_solve.
    + destruct (IH Hin) as (i & ? & ?). exists i. snoc_solve.
Qed.

(** What one thread can do to a history: append items of its own. *)
Definition tid_of (x : hev) : nat :=
  match x with HCall i _ => i | HLin i _ => i | HRet i _ => i end.

Definition hist_step (i : nat) (h h' : list hev) : Prop :=
  exists l, h' = h ++ l /\ Forall (fun x => tid_of x = i) l.

Lemma hist_step_refl i h : hist_step i h h.
Proof. exists []. by rewrite app_nil_r. Qed.

Lemma lin_nil i (h : list hev) : h ++ (HLin i <$> []) = h.
Proof. apply app_nil_r. Qed.

Lemma hist_step_lin i h es : hist_step i h (h ++ (HLin i <$> es)).
Proof. eexists. split; [done|]. apply Forall_fmap. by apply Forall_true. Qed.

Lemma hist_step_one i h x : tid_of x = i -> hist_step i h (h ++ [x]).
Proof. intros H. eexists. split; [done|]. by constructor. Qed.

Lemma hist_step_view i j h h' : hist_step i h h' -> j <> i -> opview j h' = opview j h.
Proof.
  intros (l & -> & Hl) Hj. revert h. induction Hl as [|x l Hx _ IH]; intros h.
  - by rewrite app_nil_r.
  - rewrite (cons_middle x), app_assoc, IH.
    unfold opview. rewrite replay_snoc. destruct (replay h) as [pd dn].
    destruct x; simpl in *; subst; by rewrite decide_False.
Qed.

Lemma opview_absent i h : Forall (fun x => tid_of x <> i) h -> opview i h = None.
Proof.
  induction h as [|x h IH] using rev_ind; [done|]. intros [Hh Hx]%Forall_app.
  rewrite Forall_singleton in Hx. unfold opview. rewrite replay_snoc. unfold opview in IH.
  destruct (replay h) as [pd dn]. specialize (IH Hh). simpl in IH.
  destruct x; simpl in *; by rewrite decide_False.
Qed.

(** What a thread that was idle has emitted since. *)
Lemma opview_since i h l o es e :
  opview i h = None -> opview i (h ++ l) = Some (o, es) -> e ∈ es -> HLin i e ∈ l.
Proof.
  intros Hn. revert o es. induction l as [|x l IH] using rev_ind; intros o es.
  - by rewrite app_nil_r, Hn.
  - rewrite app_assoc, elem_of_app, list_elem_of_singleton. destruct x as [j o'|j e'|j r].
    + rewrite opview_call. case_decide; [|by left; eauto]. intros [= <- <-] Hin. by apply elem_of_nil in Hin.
    + rewrite opview_snoc. case_decide as Hj; [subst|by left; eauto].
      destruct (opview j (h ++ l)) as [[o' es']|] eqn:Ev; [|done]. intros [= <- <-].
      rewrite elem_of_app, list_elem_of_singleton. intros [Hin| ->]; [left; eauto|by right].
    + rewrite opview_ret. case_decide; [done|]. by left; eauto.
Qed.

(** A test that, among the threads below [n], at most one runs an operation of
    the kind [P]. *)
Definition aloneb (P : Op -> bool) (n : nat) (h : list hev) : bool :=
  forallb (fun x => (tid_of x <? n)%nat) h &&
  (length (filter (fun i => match opview i h with Some (o, _) => P o | None => false end = true)
             (seq 0 n)) <=? 1)%nat.

Lemma aloneb_ok P n h i j o o' es es' :
  aloneb P n h = true -> opview i h = Some (o, es) -> opview j h = Some (o', es') ->
  P o = true -> P o' = true -> i = j.
Proof.
  unfold aloneb. intros [Hf Hl%Nat.leb_le]%andb_true_iff Hi Hj Ho Ho'.
  assert (forall k o fs, opview k h = Some (o, fs) -> P o = true ->
    k ∈ filter (fun i => match opview i h with Some (o, _) => P o | None => false end = true) (seq 0 n)) as Hk.
  { intros k o1 fs Hv Hp. apply list_elem_of_filter. split; [by rewrite Hv|]. apply elem_of_seq.
    destruct (decide (k < n)%nat) as [|Hge]; [lia|]. rewrite opview_absent in Hv; [done|].
    apply list.Forall_forall. intros x Hin%list_elem_of_In.
    apply (proj1 (forallb_forall _ _) Hf), Nat.ltb_lt in Hin. lia. }
  pose proof (Hk i o es Hi Ho) as H1. pose proof (Hk j o' es' Hj Ho') as H2.
  destruct (filter _ _) as [|k [|]]; [by apply elem_of_nil in H1| |simpl in Hl; lia].
  apply list_elem_of_singleton in H1, H2. congruence.
Qed.

(** The events of a thread are its own. *)
Lemma hist_step_own i j h h' e : hist_step i h h' -> j <> i -> HLin j e ∈ h' <-> HLin j e ∈ h.
Proof.
  intros (l & -> & Hl) Hj. rewrite elem_of_app. split; [intros [?|Hin]; [done|]|by left].
  pose proof (proj1 (list.Forall_forall _ _) Hl _ Hin) as Htid. by simpl in Htid.
Qed.

Lemma hist_step_events i h h' : hist_step i h h' -> exists k, events h' = events h ++ k.
Proof. intros (l & -> & _). rewrite events_app. by eexists. Qed.

(** A step appends to the history of the thread that moves, which exists. *)
Lemma sched_hist i m c c' :
  sched i m c = Some c' ->
  hist_step i (hist c) (hist c') /\ (i < length (pool c))%nat /\ length (pool c') = length (pool c).
Proof.
  destruct c as [s h tp]. simpl. destruct (tp !! i) as [[|p]|] eqn:Ei; [| |done].
  all: apply lookup_lt_Some in Ei.
  - destruct m; [|done]. intros [= <-]. simpl. rewrite length_insert. eauto using hist_step_one.
  - destruct p as [[l|r]|X f ev k|k], m; try done; simpl.
    + intros [= <-]. simpl. rewrite length_insert. eauto using hist_step_refl.
    + intros [= <-]. simpl. rewrite length_insert. eauto using hist_step_one.
    + destruct (f s) as [s' x]. intros [= <-]. simpl. rewrite length_insert. eauto using hist_step_lin.
    + intros [= <-]. simpl. rewrite length_insert. eauto using hist_step_refl.
Qed.

Lemma scheds_hist ms c c' : scheds ms c = Some c' -> exists l, hist c' = hist c ++ l.
Proof.
  revert c. induction ms as [|[i m] ms IH]; intros c; simpl.
  - intros [= ->]. exists []. by rewrite app_nil_r.
  - destruct (sched i m c) as [c1|] eqn:Es; [|done]. intros H. apply IH in H as [l ->].
    apply sched_hist in Es as [(l' & -> & _) _]. rewrite <- app_assoc. by eexists.
Qed.

Lemma opview_range ok s0 n c i :
  reach ok s0 n c -> (n <= i)%nat -> opview i (hist c) = None /\ length (pool c) = n.
Proof.
  intros Hr Hi. induction Hr as [|j m c c' _ [IH Hl] Hs _]; simpl.
  - by rewrite length_replicate.
  - apply sched_hist in Hs as (Hh & Hj & ->). split; [|done].
    rewrite (hist_step_view j i _ _ Hh); [done|lia].
Qed.

(** *** A rely-guarantee logic

    [Inv] is the invariant of the shared state and its history; [G i] is what
    thread [i] promises about each of its steps; [ok] is the assumption on the
    environment under which the execution is considered (no counter overflow,
    a client discipline). *)
Section rg.
Context (Inv : S -> list hev -> Prop).
Context (G : nat -> S * list hev -> S * list hev -> Prop).
Context (ok : S -> list hev -> Prop).

Definition rely (i : nat) (c c' : S * list hev) : Prop :=
  exists j, j <> i /\ hist_step j c.2 c'.2 /\ G j c c' /\ Inv c.1 c.2 /\ Inv c'.1 c'.2.

Definition stable (i : nat) (P : S -> list hev -> Prop) : Prop :=
  forall c c', rely i c c' -> P c.1 c.2 -> P c'.1 c'.2.

Lemma stable_pure i (P : Prop) : stable i (fun _ _ => P).
Proof. by intros c c' _ H. Qed.

Lemma stable_and i P1 P2 :
  stable i P1 -> stable i P2 -> stable i (fun s h => P1 s h /\ P2 s h).
Proof. intros H1 H2 c c' Hr [HP1 HP2]. eauto. Qed.

(** What a thread knows about its own operation is stable. *)
Lemma stable_view i (P : option (Op * list E) -> Prop) : stable i (fun _ h => P (opview i h)).
Proof.
  intros c c' (j & Hj & Hh & _) H. simpl in *. by rewrite (hist_step_view j i c.2 c'.2).
Qed.

Lemma stable_op i o es : stable i (fun _ h => opview i h = Some (o, es)).
Proof. apply (stable_view i (fun v => v = Some (o, es))). Qed.

(** Events are never taken back. *)
Lemma stable_events i (P : list E -> Prop) :
  (forall es k, P es -> P (es ++ k)) -> stable i (fun _ h => P (events h)).
Proof.
  intros HP c c' (j & _ & Hh & _) H. simpl in *.
  destruct (hist_step_events j c.2 c'.2 Hh) as [k ->]. auto.
Qed.

Lemma stable_rtc i P c c' :
  stable i P -> rtc (rely i) c c' -> P c.1 c.2 -> P c'.1 c'.2.
Proof. intros Hst. induction 1 as [|c1 c2 c3 H12 _ IH]; [done|]. intros HP. eauto. Qed.

Fixpoint wp {A} (i : nat) (p : prog S E A) (Q : A -> S -> list hev -> Prop)
    (c : S * list hev) : Prop :=
  match p with
  | Ret r => forall c', rtc (rely i) c c' -> Inv c'.1 c'.2 -> Q r c'.1 c'.2
  | Act X f ev k =>
      forall c', rtc (rely i) c c' -> Inv c'.1 c'.2 ->
      let '(s2, x) := f c'.1 in
      let h2 := c'.2 ++ (HLin i <$> ev x) in
      ok s2 h2 -> G i c' (s2, h2) /\ Inv s2 h2 /\ wp i (k x) Q (s2, h2)
  | Choose k => forall b, wp i (k b) Q c
  end.

Lemma wp_rely {A} i (p : prog S E A) Q c c' :
  rtc (rely i) c c' -> wp i p Q c -> wp i p Q c'.
Proof.
  revert c c'. induction p as [r|X f ev k IH|k IH]; intros c c' Hr; simpl.
  - intros H c2 Hc2. apply H. by transitivity c'.
  - intros H c2 Hc2. apply H. by transitivity c'.
  - intros H b. eauto.
Qed.

(** The rules used by the components: a stable assertion is enough to take the
    next step. *)
Lemma wp_ret {A} i (r : A) (Q : A -> S -> list hev -> Prop) s h :
  stable i (Q r) -> Q r s h -> wp i (Ret r) Q (s, h).
Proof. intros Hst HQ c' Hr _. by apply (stable_rtc i (Q r) (s, h) c'). Qed.

Lemma wp_act {A} i (P : S -> list hev -> Prop) (X : Set) f ev (k : X -> prog S E A) Q s h :
  stable i P -> P s h ->
  (forall s1 h1 s2 x, P s1 h1 -> Inv s1 h1 -> f s1 = (s2, x) ->
     ok s2 (h1 ++ (HLin i <$> ev x)) ->
     G i (s1, h1) (s2, h1 ++ (HLin i <$> ev x)) /\ Inv s2 (h1 ++ (HLin i <$> ev x)) /\
     wp i (k x) Q (s2, h1 ++ (HLin i <$> ev x))) ->
  wp i (Act X f ev k) Q (s, h).
Proof.
  intros Hst HP Hk [s1 h1] Hr HI. simpl in *.
  destruct (f s1) as [s2 x] eqn:Ef. intros Hok.
  apply (Hk s1 h1 s2 x); [|done..].
  by apply (stable_rtc i P (s, h) (s1, h1)).
Qed.

(** An access without annotation leaves the history as it is. *)
Lemma wp_silent {A} i (P : S -> list hev -> Prop) (X : Set) f (k : X -> prog S E A) Q s h :
  stable i P -> P s h ->
  (forall s1 h1 s2 x, P s1 h1 -> Inv s1 h1 -> f s1 = (s2, x) -> ok s2 h1 ->
     G i (s1, h1) (s2, h1) /\ Inv s2 h1 /\ wp i (k x) Q (s2, h1)) ->
  wp i (Act X f (fun _ => []) k) Q (s, h).
Proof.
  intros Hst HP Hk. apply (wp_act i P); [done|done|]. intros s1 h1 s2 x HP1 HI Hf. simpl.
  rewrite app_nil_r. by apply Hk.
Qed.

(** Sequential composition, and a weaker postcondition. *)
Lemma wp_bind {A B} i (p : prog S E A) (q : A -> prog S E B) Q c :
  Inv c.1 c.2 -> wp i p (fun x s h => wp i (q x) Q (s, h)) c -> wp i (bind p q) Q c.
Proof.
  revert c. induction p as [r|X f ev k IH|k IH]; intros c HI; simpl.
  - intros H. destruct c as [s h]. exact (H (s, h) (rtc_refl _ _) HI).
  - intros H c' Hr HI'. specialize (H c' Hr HI'). simpl in *. destruct (f c'.1) as [s2 x].
    intros Hok. destruct (H Hok) as (HG & HI2 & Hw). split_and!; auto.
  - intros H b. auto.
Qed.

Lemma wp_bind_ret {A} i (p : prog S E A) (f : A -> prog S E A) Q c :
  (forall x, f x = Ret x) -> wp i (bind p f) Q c -> wp i p Q c.
Proof.
  intros Hf. revert c. induction p as [r|X g ev k IH|k IH]; intros c; simpl.
  - by rewrite Hf.
  - intros H c' Hr HI'. specialize (H c' Hr HI'). simpl in *. destruct (g c'.1) as [s2 x].
    intros Hok. destruct (H Hok) as (HG & HI2 & Hw). split_and!; auto.
  - intros H b. apply IH, H.
Qed.

Lemma wp_mono {A} i (p : prog S E A) (Q Q' : A -> S -> list hev -> Prop) c :
  (forall x s h, Inv s h -> Q x s h -> Q' x s h) -> wp i p Q c -> wp i p Q' c.
Proof.
  intros HQ. revert c. induction p as [r|X f ev k IH|k IH]; intros c; simpl.
  - intros H c' Hr HI. eauto.
  - intros H c' Hr HI'. specialize (H c' Hr HI'). simpl in *. destruct (f c'.1) as [s2 x].
    intros Hok. destruct (H Hok) as (HG & HI2 & Hw). split_and!; auto.
  - intros H b. auto.
Qed.

(** What an extension of the history cannot make false holds to the end. *)
Lemma rtc_rely_hist i (P : list hev -> Prop) c c' :
  (forall h l, P h -> P (h ++ l)) -> rtc (rely i) c c' -> P c.2 -> P c'.2.
Proof.
  intros HP. induction 1 as [|c1 c2 c3 (j & _ & (l & Hl & _) & _) _ IH]; [done|]. intros H1.
  apply IH. rewrite Hl. auto.
Qed.

Lemma wp_frame {A} i (p : prog S E A) Q (P : list hev -> Prop) c :
  (forall h l, P h -> P (h ++ l)) -> P c.2 -> wp i p Q c ->
  wp i p (fun x s h => Q x s h /\ P h) c.
Proof.
  intros HP. revert c. induction p as [r|X f ev k IH|k IH]; intros c Hc; simpl.
  - intros H c' Hr HI. split; [auto|]. by apply (rtc_rely_hist i P c).
  - intros H c' Hr HI'. pose proof (rtc_rely_hist i P c c' HP Hr Hc) as Hc'.
    specialize (H c' Hr HI'). simpl in *. destruct (f c'.1) as [s2 x].
    intros Hok. destruct (H Hok) as (HG & HI2 & Hw). split_and!; [done|done|]. apply IH; [by apply HP|done].
  - intros H b. auto.
Qed.

(** A program of the whole state, and one of a part of it, all of whose accesses
    are steps of the component; [P es] is what the thread knows after [es]. *)
Lemma wp_posts {A} i wf step (P : list E -> S -> list hev -> Prop) (p : prog S E A) Q es s h :
  (forall s h, Inv s h -> wf s) -> (forall es, stable i (P es)) ->
  (forall es s h s' es', P es s h -> Inv s h -> step s s' es' -> ok s' (h ++ (HLin i <$> es')) ->
     G i (s, h) (s', h ++ (HLin i <$> es')) /\ Inv s' (h ++ (HLin i <$> es')) /\
     P (es ++ es') s' (h ++ (HLin i <$> es'))) ->
  P es s h -> posts wf step p Q es -> wp i p (fun x s h => exists es', Q es' x /\ P es' s h) (s, h).
Proof.
  intros Hwf HP Hstep. revert es s h. induction p as [r|X f ev k IH|k IH]; intros es s h HPs Hp.
  - apply wp_ret; [|by exists es]. intros c c' Hr (es' & HQ & HPc). exists es'. split; [done|]. by apply (HP es' c).
  - apply (wp_act i (P es)); [done|done|]. intros s1 h1 s2 x HP1 HI Hf Hok.
    destruct (Hp s1 (Hwf s1 h1 HI)) as [Hst Hk]. rewrite Hf in Hst, Hk.
    destruct (Hstep es s1 h1 s2 (ev x) HP1 HI Hst Hok) as (HG & HI2 & HP2). split_and!; [done|done|].
    by apply (IH x (es ++ ev x)).
  - intros b. by apply (IH b es).
Qed.

Lemma wp_lift {A S0 E0} i (get : S -> S0) (put : S0 -> S -> S) (emb : E0 -> E) wf step
    (P : list E0 -> S -> list hev -> Prop) (p : prog S0 E0 A) Q es s h :
  (forall s h, Inv s h -> wf (get s)) -> (forall es, stable i (P es)) ->
  (forall es s h p' es', P es s h -> Inv s h -> step (get s) p' es' ->
     ok (put p' s) (h ++ (HLin i <$> (emb <$> es'))) ->
     G i (s, h) (put p' s, h ++ (HLin i <$> (emb <$> es'))) /\ Inv (put p' s) (h ++ (HLin i <$> (emb <$> es'))) /\
     P (es ++ es') (put p' s) (h ++ (HLin i <$> (emb <$> es')))) ->
  P es s h -> posts wf step p Q es ->
  wp i (lift get put emb p) (fun x s h => exists es', Q es' x /\ P es' s h) (s, h).
Proof.
  intros Hwf HP Hstep. revert es s h. induction p as [r|X f ev k IH|k IH]; intros es s h HPs Hp.
  - apply wp_ret; [|by exists es]. intros c c' Hr (es' & HQ & HPc). exists es'. split; [done|]. by apply (HP es' c).
  - apply (wp_act i (P es)); [done|done|]. intros s1 h1 s2 x HP1 HI Hf Hok.
    destruct (Hp (get s1) (Hwf s1 h1 HI)) as [Hst Hk]. destruct (f (get s1)) as [p' y] eqn:Ef.
    injection Hf as <- <-. simpl in Hst, Hk.
    destruct (Hstep es s1 h1 p' (ev y) HP1 HI Hst Hok) as (HG & HI2 & HP2). split_and!; [done|done|].
    by apply (IH y (es ++ ev y)).
  - intros b. by apply (IH b es).
Qed.

Lemma wp_choose {A} i (k : bool -> prog S E A) Q c :
  (forall b, wp i (k b) Q c) -> wp i (Choose k) Q c.
Proof. done. Qed.

(** *** Adequacy

    [LI i l] is the invariant of the loop head [l] run by thread [i], [LR i r]
    what thread [i] knows when it returns [r], and [Good o es r] says what a
    completed operation may have emitted and returned. *)
Context (LI : nat -> L -> S -> list hev -> Prop).

Section adequacy.
Context (LR : nat -> R -> S -> list hev -> Prop).
Context (Good : Op -> list E -> R -> Prop).

Definition Post (i : nat) (r : R) (s : S) (h : list hev) : Prop :=
  exists o es, opview i h = Some (o, es) /\ Good o es r.

Lemma stable_post i r : stable i (Post i r).
Proof. apply (stable_view i (fun v => exists o es, v = Some (o, es) /\ Good o es r)). Qed.

Definition Qend (i : nat) (x : L + R) : S -> list hev -> Prop :=
  match x with inl l => LI i l | inr r => LR i r end.

Record return_outline : Prop := {
  ro_call i o s h :
    Inv s h -> opview i h = None -> ok s (h ++ [HCall i o]) ->
    G i (s, h) (s, h ++ [HCall i o]) /\ Inv s (h ++ [HCall i o]) /\
    LI i (entry o) s (h ++ [HCall i o]);
  ro_ret i r s h :
    Inv s h -> LR i r s h ->
    G i (s, h) (s, h ++ [HRet i r]) /\ Inv s (h ++ [HRet i r]) /\ Post i r s h;
  ro_body i l s h : LI i l s h -> Inv s h -> wp i (body l) (Qend i) (s, h)
}.

Definition runs_ok (s : S) (h : list hev) (i : nat) (t : thread) : Prop :=
  match t with Idle => opview i h = None | Busy p => wp i p (Qend i) (s, h) end.

Definition config_ok (c : config) : Prop :=
  Inv (shared c) (hist c) /\
  (forall i t, pool c !! i = Some t -> runs_ok (shared c) (hist c) i t) /\
  Forall (fun '(o, es, r) => Good o es r) (completed (hist c)).

Lemma runs_ok_rely s h s' h' i t :
  rely i (s, h) (s', h') -> runs_ok s h i t -> runs_ok s' h' i t.
Proof.
  intros Hr. destruct t as [|p]; simpl.
  - destruct Hr as (j & Hj & Hh & _). simpl in Hh. by rewrite (hist_step_view j i h h').
  - apply wp_rely. by apply rtc_once.
Qed.

(** The threads that did not move keep their assertion. *)
Lemma runs_ok_frame s h s' h' (tp : list thread) i t' j t :
  Inv s h -> Inv s' h' -> hist_step i h h' -> G i (s, h) (s', h') ->
  (forall i t, tp !! i = Some t -> runs_ok s h i t) ->
  runs_ok s' h' i t' ->
  <[i := t']> tp !! j = Some t -> runs_ok s' h' j t.
Proof.
  intros HI HI' Hh HG Htp Ht Hj.
  destruct (decide (i = j)) as [<-|Hne].
  - apply list_lookup_insert_Some in Hj as [(_ & <- & _)|[Hne _]]; done.
  - rewrite list_lookup_insert_ne in Hj by done.
    apply (runs_ok_rely s h); [|eauto]. exists i. by split_and!.
Qed.

Lemma sched_config_ok (Hro : return_outline) i m c c' :
  (forall i c, G i c c) ->
  config_ok c -> sched i m c = Some c' -> ok (shared c') (hist c') -> config_ok c'.
Proof.
  intros HGrefl (HI & Htp & Hdone) Hs Hok. destruct c as [s h tp]. simpl in *.
  destruct (tp !! i) as [[|p]|] eqn:Ei; [| |done].
  - destruct m as [o|]; [|done]. simplify_eq/=.
    destruct (ro_call Hro i o s h HI (Htp i _ Ei) Hok) as (HG & HI' & HL).
    split_and!; simpl; [done| |by rewrite completed_call].
    intros j t. apply (runs_ok_frame s h); eauto using hist_step_one, hist_step_refl.
      simpl. by apply (ro_body Hro).
  - pose proof (Htp i _ Ei) as Hp. simpl in Hp.
    destruct p as [[l|r]|X f ev k|k], m as [o|b]; simplify_eq/=.
    + pose proof (Hp (s, h) (rtc_refl _ _) HI) as HL.
      split_and!; simpl; [done| |done].
      intros j t. apply (runs_ok_frame s h); eauto using hist_step_one, hist_step_refl.
      simpl. by apply (ro_body Hro).
    + pose proof (Hp (s, h) (rtc_refl _ _) HI) as HP. simpl in HP.
      destruct (ro_ret Hro i r s h HI HP) as (HG & HI' & Hpost).
      split_and!; simpl; [done| |].
      * intros j t. apply (runs_ok_frame s h); eauto using hist_step_one.
        simpl. by rewrite opview_ret, decide_True.
      * rewrite completed_ret. destruct Hpost as (o & es & -> & Hg).
        apply Forall_app. split; [done|]. by constructor.
    + specialize (Hp (s, h) (rtc_refl _ _) HI). simpl in Hp.
      destruct (f s) as [s2 x]. simplify_eq/=.
      destruct (Hp Hok) as (HG & HI' & Hk).
      split_and!; simpl; [done| |by rewrite completed_lin].
      intros j t. by apply (runs_ok_frame s h); eauto using hist_step_lin.
    + split_and!; simpl; [done| |done].
      intros j t. apply (runs_ok_frame s h); eauto using hist_step_refl. apply Hp.
Qed.

Lemma return_adequacy (Hro : return_outline) s0 n c :
  (forall i c, G i c c) -> Inv s0 [] -> reach ok s0 n c -> config_ok c.
Proof.
  intros HG HI. induction 1 as [|i m c c' _ IH Hs Hok].
  - split_and!; simpl; [done| |constructor].
    intros i t Hi. apply lookup_replicate in Hi as [-> _]. done.
  - by apply (sched_config_ok Hro i m c).
Qed.

End adequacy.

(** Most components know of a return only that the operation was [Good]. *)
Context (Good : Op -> list E -> R -> Prop).

Definition Qloop (i : nat) (x : L + R) : S -> list hev -> Prop :=
  match x with inl l => LI i l | inr r => Post Good i r end.

Record proof_outline : Prop := {
  po_call i o s h :
    Inv s h -> opview i h = None -> ok s (h ++ [HCall i o]) ->
    G i (s, h) (s, h ++ [HCall i o]) /\ Inv s (h ++ [HCall i o]) /\
    LI i (entry o) s (h ++ [HCall i o]);
  po_ret i r s h :
    Inv s h -> Post Good i r s h ->
    G i (s, h) (s, h ++ [HRet i r]) /\ Inv s (h ++ [HRet i r]);
  po_body i l s h : LI i l s h -> Inv s h -> wp i (body l) (Qloop i) (s, h)
}.

Lemma outline_return (Hpo : proof_outline) : return_outline (Post Good) Good.
Proof.
  destruct Hpo as [Hcall Hret Hbody]. split; [done| |done].
  intros i r s h HI HP. destruct (Hret i r s h HI HP). by split_and!.
Qed.

Definition pool_ok : config -> Prop := config_ok (Post Good) Good.

Lemma sched_pool_ok (Hpo : proof_outline) i m c c' :
  (forall i c, G i c c) ->
  pool_ok c -> sched i m c = Some c' -> ok (shared c') (hist c') -> pool_ok c'.
Proof. apply (sched_config_ok (Post Good) Good (outline_return Hpo)). Qed.

(** Every reachable configuration satisfies the invariant, and every completed
    operation is [Good]. *)
Theorem rg_adequacy (Hpo : proof_outline) s0 n c :
  (forall i c, G i c c) -> Inv s0 [] -> reach ok s0 n c -> pool_ok c.
Proof. apply (return_adequacy (Post Good) Good (outline_return Hpo)). Qed.

End rg.
End conc.

Arguments hev E Op R : clear implicits.
Arguments Config {S E Op L R} shared hist pool.
Arguments move Op : clear implicits.
Arguments go {Op} i k.

(** ** What the text of a program says about its events

    [emits p M Q es]: whatever the accesses of [p] return, the events that it has
    emitted after [es] satisfy [M] at any time, and [Q] with the result at the end. *)
Section emits.
Context {S E Op L R : Type} (entry : Op -> L) (body : L -> prog S E (L + R)).

Fixpoint emits {A} (p : prog S E A) (M : list E -> Prop) (Q : list E -> A -> Prop) (es : list E) : Prop :=
  match p with
  | Ret r => Q es r
  | Act X f ev k => forall x, M (es ++ ev x) /\ emits (k x) M Q (es ++ ev x)
  | Choose k => forall b, emits (k b) M Q es
  end.

Lemma emits_mono {A} (p : prog S E A) (M : list E -> Prop) (Q Q' : list E -> A -> Prop) es :
  (forall es r, Q es r -> Q' es r) -> emits p M Q es -> emits p M Q' es.
Proof.
  intros HQ. revert es. induction p as [r|X f ev k IH|k IH]; intros es; simpl; [auto| |auto].
  intros H x. destruct (H x). auto.
Qed.

Lemma emits_bind {A B} (p : prog S E A) (q : A -> prog S E B) M Q es :
  emits p M (fun es r => emits (q r) M Q es) es -> emits (bind p q) M Q es.
Proof.
  revert es. induction p as [r|X f ev k IH|k IH]; intros es; simpl; [done| |auto].
  intros H x. destruct (H x). auto.
Qed.

(** A program none of whose accesses is annotated. *)
Fixpoint silent {A} (p : prog S E A) : Prop :=
  match p with
  | Ret _ => True
  | Act X f ev k => forall x, ev x = [] /\ silent (k x)
  | Choose k => forall b, silent (k b)
  end.

Lemma emits_silent {A} (p : prog S E A) (M : list E -> Prop) (Q : list E -> A -> Prop) es :
  silent p -> M es -> (forall r, Q es r) -> emits p M Q es.
Proof.
  intros Hp HM HQ. induction p as [r|X f ev k IH|k IH]; simpl in *; [done| |auto].
  intros x. destruct (Hp x) as [-> Hk]. rewrite app_nil_r. auto.
Qed.

Context (M : Op -> list E -> Prop) (LM : Op -> L -> list E -> Prop).
Hypothesis M_nil : forall o, M o [].
Hypothesis LM_entry : forall o, LM o (entry o) [].
Hypothesis LM_body : forall o l es, LM o l es ->
  emits (body l) (M o) (fun es x => match x with inl l => LM o l es | inr _ => True end) es.

(** The events of the operations that are running. *)
Lemma reach_emits ok s0 n c i o es :
  reach entry body ok s0 n c -> opview i (hist c) = Some (o, es) -> M o es.
Proof.
  set (Inv := fun (_ : S) (h : list (hev E Op R)) => forall i o es, opview i h = Some (o, es) -> M o es).
  set (LI := fun i l (_ : S) (h : list (hev E Op R)) => exists o es, opview i h = Some (o, es) /\ LM o l es).
  assert (forall i l, stable Inv (fun _ _ _ => True) i (LI i l)) as Hst.
  { intros j l. apply (stable_view _ _ j (fun v => exists o es, v = Some (o, es) /\ LM o l es)). }
  assert (proof_outline entry body Inv (fun _ _ _ => True) ok LI (fun _ _ _ => True)) as Hpo.
  { split.
    - intros j o' s h HI Hv _. split_and!; [done| |].
      + intros i' o1 es1. rewrite opview_call. case_decide; [intros [= <- <-]; apply M_nil|eauto].
      + exists o', []. by rewrite opview_call, decide_True.
    - intros j r s h HI _. split; [done|]. intros i' o1 es1. rewrite opview_ret. case_decide; [done|eauto].
    - intros j l s h (o' & es' & Hv & HL) HI. specialize (LM_body o' l es' HL). clear HL. revert es' s h Hv LM_body HI.
      generalize (body l) as p. intros p. induction p as [x|X f ev k IH|k IH]; intros es' s h Hv Hp HI.
      + destruct x as [l'|r].
        * apply (wp_ret _ _ _ j (inl l')); [apply Hst|]. by exists o', es'.
        * apply (wp_ret _ _ _ j (inr r)); [apply stable_post|]. by exists o', es'.
      + apply (wp_act _ _ _ j (fun _ h => opview j h = Some (o', es'))); [apply stable_op|done|].
        clear s h Hv HI. intros s h s2 x Hv HI _ _. destruct (Hp x) as [HM Hk].
        assert (Inv s2 (h ++ (HLin j <$> ev x))) as HI2.
        { intros i' o1 es1. rewrite opview_lin. case_decide; [|eauto]. subst. rewrite Hv. by intros [= <- <-]. }
        split_and!; [done|done|]. apply (IH x (es' ++ ev x)); [by rewrite opview_lin, decide_True, Hv|done|done].
      + intros b. by apply (IH b es'). }
  intros Hr. destruct (rg_adequacy _ _ _ _ _ _ _ Hpo s0 n c (fun _ _ => I)) as (HI & _); [by intros ??|done|].
  apply HI.
Qed.

End emits.

(** ** Regions of an execution

    The threads inside a region: an event that [opening] accepts begins it, one
    that [closing] accepts ends it. *)
Section region.
Context {E Op R : Type} (opening closing : E -> bool).

Definition region1 (l : list nat) (x : hev E Op R) : list nat :=
  match x with
  | HLin i e => if opening e then i :: l else if closing e then filter (fun j => j <> i) l else l
  | _ => l
  end.

Definition region (h : list (hev E Op R)) : list nat := foldl region1 [] h.

Lemma region_snoc h x : region (h ++ [x]) = region1 (region h) x.
Proof. unfold region. by rewrite foldl_app. Qed.

Lemma region_other h l i :
  Forall (fun x => tid_of x <> i) l -> i ∈ region (h ++ l) <-> i ∈ region h.
Proof.
  intros Hl. induction l as [|x l IH] using rev_ind; [by rewrite app_nil_r|].
  apply Forall_app in Hl as [Hl Hx]. rewrite Forall_singleton in Hx.
  rewrite app_assoc, region_snoc, <- (IH Hl). destruct x as [j o|j e|j r]; simpl in *; try done.
  destruct (opening e); [rewrite elem_of_cons; naive_solver|]. destruct (closing e); [|done].
  rewrite list_elem_of_filter. naive_solver.
Qed.

Lemma hist_step_region i j (h h' : list (hev E Op R)) :
  hist_step i h h' -> j <> i -> j ∈ region h' <-> j ∈ region h.
Proof.
  intros (l & -> & Hl) Hj. apply region_other. eapply list.Forall_impl; [exact Hl|]. intros x ->. done.
Qed.

(** Events that neither begin nor end it. *)
Lemma region_quiet h i es :
  Forall (fun e => opening e = false /\ closing e = false) es -> region (h ++ (HLin i <$> es)) = region h.
Proof.
  intros He. revert h. induction He as [|e es [Ho Hc] _ IH]; intros h; [by rewrite app_nil_r|]. csimpl.
  rewrite (cons_middle (HLin i e)), app_assoc, IH, region_snoc. simpl. by rewrite Ho, Hc.
Qed.

Lemma region_item h x : (forall i e, x <> HLin i e) -> region (h ++ [x]) = region h.
Proof. intros Hx. rewrite region_snoc. destruct x; simpl; try done. by destruct (Hx i e). Qed.

End region.

Lemma NoDup_remove_length i (l : list nat) :
  NoDup l -> i ∈ l -> Z.of_nat (length (filter (fun j => j <> i) l)) = (Z.of_nat (length l) - 1)%Z.
Proof.
  intros Hnd Hi. induction Hnd as [|x l Hx Hnd IH]; [by apply elem_of_nil in Hi|].
  rewrite filter_cons. apply elem_of_cons in Hi as [->|Hi].
  - rewrite decide_False by tauto. assert (filter (fun j => j <> x) l = l) as ->; [|simpl; lia].
    clear IH Hnd. induction l as [|y l IH]; [done|]. rewrite not_elem_of_cons in Hx. destruct Hx as [Hy Hx].
    rewrite filter_cons, decide_True by done. by rewrite IH.
  - rewrite decide_True by (intros ->; done). simpl. rewrite Nat2Z.inj_succ, IH by done. lia.
Qed.

Lemma filter_not_self i (l : list nat) : i ∉ filter (fun j => j <> i) l.
Proof. intros [? _]%list_elem_of_filter. done. Qed.

(** Proofs take the steps of a program one by one, with the rules above. *)
Arguments wp : simpl never.
