(* ===== verification/Fifo.v ===== *)
(** * Fifo: the abstract queue

    What every queue of the library promises: a first-in first-out queue of
    values.  [qev] are the effects an operation can have on it, [fifo_run]
    replays a sequence of effects and fails on the first one that a FIFO queue
    does not allow. *)

From stdpp Require Import base list numbers option.
From S2P Require Import Prelude Conc.

Section fifo.
Context {V : Type} `{EqDecision V}.

Inductive qev : Type :=
| EvEnq (v : V)
| EvDeq (v : V)
| EvEmpty.

(** [EvDeq v] needs [v] at the front; [EvEmpty], an observation of emptiness,
    needs the empty queue. *)
Definition fifo_step (q : list V) (e : qev) : option (list V) :=
  match e, q with
  | EvEnq v, _ => Some (q ++ [v])
  | EvDeq v, x :: q' => if decide (x = v) then Some q' else None
  | EvDeq _, [] => None
  | EvEmpty, [] => Some []
  | EvEmpty, _ :: _ => None
  end.

Fixpoint fifo_run (q : list V) (es : list qev) : option (list V) :=
  match es with
  | [] => Some q
  | e :: es => match fifo_step q e with Some q' => fifo_run q' es | None => None end
  end.

Definition enqs (es : list qev) : list V :=
  omap (fun e => match e with EvEnq v => Some v | _ => None end) es.

Definition deqs (es : list qev) : list V :=
  omap (fun e => match e with EvDeq v => Some v | _ => None end) es.

Lemma fifo_run_app q es1 es2 :
  fifo_run q (es1 ++ es2) =
  match fifo_run q es1 with Some q' => fifo_run q' es2 | None => None end.
Proof.
  revert q. induction es1 as [|e es1 IH]; intros q; simpl; [done|].
  destruct (fifo_step q e); [apply IH|done].
Qed.

Lemma fifo_run_snoc q es e q1 :
  fifo_run q es = Some q1 -> fifo_run q (es ++ [e]) = fifo_step q1 e.
Proof.
  intros H. rewrite fifo_run_app, H. simpl. by destruct (fifo_step q1 e).
Qed.

Lemma enqs_app es1 es2 : enqs (es1 ++ es2) = enqs es1 ++ enqs es2.
Proof. apply omap_app. Qed.

Lemma deqs_app es1 es2 : deqs (es1 ++ es2) = deqs es1 ++ deqs es2.
Proof. apply omap_app. Qed.

(** First in, first out: what was put in is what was taken out followed by what
    is still there, in order. *)
Lemma fifo_run_split q es q' :
  fifo_run q es = Some q' -> q ++ enqs es = deqs es ++ q'.
Proof.
  revert q. induction es as [|e es IH]; intros q H; simpl in *.
  - simplify_eq. by rewrite app_nil_r.
  - destruct (fifo_step q e) as [q1|] eqn:E1; [|done].
    apply IH in H. destruct e as [v|v|]; simpl in *.
    + simplify_eq. by rewrite <- H, <- app_assoc.
    + destruct q as [|x q]; [done|]. case_decide; simplify_eq. simpl. by rewrite H.
    + destruct q; [|done]. simplify_eq. done.
Qed.

Lemma fifo_run_fifo es q : fifo_run [] es = Some q -> enqs es = deqs es ++ q.
Proof. intros H. by apply fifo_run_split in H. Qed.

End fifo.

Arguments qev V : clear implicits.

#[global] Instance qev_eq_dec {V} `{EqDecision V} : EqDecision (qev V).
Proof. solve_decision. Defined.

(** The interface of a queue operation, for the interleaved executions: the
    calls, their results, and what a completed call may have done.  [empty] is
    the value [dequeue] returns for an empty queue and [valid] are the values
    [enqueue] accepts. *)
Section queue_ops.
Context {V : Type}.

Inductive qop : Type :=
| OpEnq (v : V)
| OpDeq.

Inductive qres : Type :=
| RBool (b : bool)
| RVal (v : V).

Context (empty : V) (valid : V -> Prop).

(** Exactly one effect, the one that the result reports; a rejected value has
    no effect. *)
Definition qgood (o : qop) (es : list (qev V)) (r : qres) : Prop :=
  match o with
  | OpEnq v => (valid v /\ es = [EvEnq v] /\ r = RBool true) \/
               (~ valid v /\ es = [] /\ r = RBool false)
  | OpDeq => (exists v, valid v /\ es = [EvDeq v] /\ r = RVal v) \/
             (es = [EvEmpty] /\ r = RVal empty)
  end.

End queue_ops.

Arguments qop V : clear implicits.
Arguments qres V : clear implicits.
