(* ===== verification/Progress.v ===== *)
(** * Progress: how many steps the loops of an interleaved execution take

    A block of a program is finite, so that an operation runs for ever only by
    jumping back to a loop head again and again.  The rule of this file bounds
    the number of the jumps: a component gives a counter [ver] of the changes of
    its state that matter and a [rank] of its loop heads, and shows that a block
    during which the counter stays the same and no weak exchange fails
    spuriously ends by a return or at a loop head of a smaller rank.  Then every
    step of every interleaving is paid for by a call, a spurious failure or a
    change ([progress_bound]), and when the changes are bounded by the completed
    operations the component is lock-free: whatever the scheduler does, the
    number of the completed operations grows with the number of the steps. *)

From stdpp Require Import base list list_numbers numbers option relations.
From Stdlib Require Import Lia.
From S2P Require Import Prelude Conc.

(** ** Sums over the threads *)

Lemma sum_list_insert (l : list nat) i x y :
  l !! i = Some x -> sum_list (<[i := y]> l) + x = sum_list l + y.
Proof.
  revert i. induction l as [|z l IH]; intros [|i] Hi; simplify_eq/=; [lia|].
  specialize (IH i Hi). lia.
Qed.

Lemma sum_list_shift (l : list nat) d :
  sum_list ((fun x => x + d) <$> l) = sum_list l + length l * d.
Proof. induction l as [|z l IH]; csimpl; [done|]. rewrite IH. lia. Qed.

(** Functions that differ on one thread. *)
Lemma sum_list_seq_update (f g : nat -> nat) n i :
  i < n -> (forall j, j <> i -> g j = f j) ->
  sum_list (g <$> seq 0 n) + f i = sum_list (f <$> seq 0 n) + g i.
Proof.
  intros Hi Hfg.
  assert (g <$> seq 0 n = <[i := g i]> (f <$> seq 0 n)) as ->.
  { apply list_eq. intros j. destruct (decide (j = i)) as [->|Hj].
    - rewrite list_lookup_insert_eq by by rewrite length_fmap, length_seq.
      rewrite list_lookup_fmap, lookup_seq_lt by done. done.
    - rewrite list_lookup_insert_ne by done. rewrite !list_lookup_fmap.
      destruct (seq 0 n !! j) as [k|] eqn:Hk; [|done]. apply lookup_seq in Hk as [-> _].
      simpl. by rewrite Hfg. }
  apply sum_list_insert. by rewrite list_lookup_fmap, lookup_seq_lt.
Qed.

Lemma sum_list_le (l : list nat) b : Forall (fun x => x <= b) l -> sum_list l <= length l * b.
Proof. induction 1; simpl; lia. Qed.

Section progress.
Context {S E Op L R : Type} (entry : Op -> L) (body : L -> prog S E (L + R)).

(** ** Executions with their moves *)

(** An execution by the moves [ms], all of whose configurations satisfy the
    assumption on the environment. *)
Fixpoint trace (ok : S -> list (hev E Op R) -> Prop) (ms : list (nat * move Op))
    (c c' : config (S := S) (E := E) (Op := Op) (L := L) (R := R)) : Prop :=
  match ms with
  | [] => c = c'
  | (i, m) :: ms =>
      exists c1, sched entry body i m c = Some c1 /\ ok (shared c1) (hist c1) /\ trace ok ms c1 c'
  end.

Lemma trace_reach ok s0 n ms c c' :
  reach entry body ok s0 n c -> trace ok ms c c' -> reach entry body ok s0 n c'.
Proof.
  revert c. induction ms as [|[i m] ms IH]; intros c Hr; simpl; [by intros <-|].
  intros (c1 & Hs & Hok & Ht). apply (IH c1); [|done]. eapply reach_step; eauto.
Qed.

Lemma trace_scheds ok ms c c' :
  (forall s h, ok s h) -> scheds entry body ms c = Some c' -> trace ok ms c c'.
Proof.
  intros Hok. revert c. induction ms as [|[i m] ms IH]; intros c; simpl; [by intros [= <-]|].
  destruct (sched entry body i m c) as [c1|]; [|done]. eauto.
Qed.

Lemma trace_visits ok okb ms c c' :
  (forall s h, okb s h = true -> ok s h) ->
  scheds entry body ms c = Some c' -> visits entry body okb ms c = true -> trace ok ms c c'.
Proof.
  intros Hok. revert c. induction ms as [|[i m] ms IH]; intros c; simpl; [by intros [= <-]|].
  destruct (sched entry body i m c) as [c1|]; [|done].
  intros Hs [Hv1 Hv2]%andb_prop. exists c1. split_and!; auto.
Qed.

(** The steps of the threads, the calls and the spurious failures among the
    moves.  The last ones are counted where a program makes an open choice. *)
Definition is_go (m : move Op) : nat := match m with Go _ => 1 | Call _ => 0 end.

Definition is_call (m : move Op) : nat := match m with Go _ => 0 | Call _ => 1 end.

Definition is_spurious (m : move Op) : nat := match m with Go true => 1 | _ => 0 end.

Definition steps (ms : list (nat * move Op)) : nat := sum_list ((fun x => is_go x.2) <$> ms).

Definition calls (ms : list (nat * move Op)) : nat := sum_list ((fun x => is_call x.2) <$> ms).

Definition spurious (ms : list (nat * move Op)) : nat :=
  sum_list ((fun x => is_spurious x.2) <$> ms).

(** ** What the operations of a history have done

    [weigh g n h] adds up [g] over the completed operations and over those that
    run. *)
Definition weigh_pending (g : list E -> nat) (h : list (hev E Op R)) (i : nat) : nat :=
  match opview i h with Some (_, es) => g es | None => 0 end.

Definition weigh_done (g : list E -> nat) (h : list (hev E Op R)) : nat :=
  sum_list ((fun '(_, es, _) => g es) <$> completed h).

Definition weigh (g : list E -> nat) (n : nat) (h : list (hev E Op R)) : nat :=
  weigh_done g h + sum_list (weigh_pending g h <$> seq 0 n).

(** A thread is idle exactly between its operations. *)
Definition views (c : config (S := S) (E := E) (Op := Op) (L := L) (R := R)) : Prop :=
  forall i t, pool c !! i = Some t ->
    match t with Idle => opview i (hist c) = None | Busy _ => is_Some (opview i (hist c)) end.

Lemma views_frame s h h' s' (tp : list thread) i t :
  views (Config s h tp) -> hist_step i h h' ->
  match t with Idle => opview i h' = None | Busy _ => is_Some (opview i h') end ->
  views (Config s' h' (<[i := t]> tp)).
Proof.
  intros Hv Hh Ht j t' Hj. simpl in *. destruct (decide (i = j)) as [<-|Hne].
  - apply list_lookup_insert_Some in Hj as [(_ & <- & _)|[? _]]; done.
  - rewrite list_lookup_insert_ne in Hj by done.
    rewrite (hist_step_view i j h h') by done. by apply (Hv j t').
Qed.

Lemma sched_views i m c c' : sched entry body i m c = Some c' -> views c -> views c'.
Proof.
  intros Hs Hv. destruct c as [s h tp]. simpl in Hs.
  destruct (tp !! i) as [[|p]|] eqn:Ei; [| |done]; pose proof (Hv i _ Ei) as Hi; simpl in Hi.
  - destruct m as [o|]; [|done]. simplify_eq/=.
    eapply views_frame; [done|by apply hist_step_one|]. rewrite opview_call, decide_True by done. by eexists.
  - destruct p as [[l|r]|X f ev k|k], m as [o|b]; simplify_eq/=.
    + eapply views_frame; [done|apply hist_step_refl|done].
    + eapply views_frame; [done|by apply hist_step_one|]. by rewrite opview_ret, decide_True.
    + destruct (f s) as [s2 x]. simplify_eq/=. eapply views_frame; [done|apply hist_step_lin|].
      rewrite opview_lin, decide_True by done. destruct Hi as [[o es] ->]. by eexists.
    + eapply views_frame; [done|apply hist_step_refl|done].
Qed.

Lemma views_start s0 n : views (start s0 n).
Proof. intros i t Hi. by apply lookup_replicate in Hi as [-> _]. Qed.

(** How one item of the history changes the weight: by what it changes for its
    thread. *)
Lemma weigh_thread g n h h' i :
  i < n -> hist_step i h h' ->
  weigh g n h' + weigh_done g h + weigh_pending g h i =
  weigh g n h + weigh_done g h' + weigh_pending g h' i.
Proof.
  intros Hi Hh. unfold weigh.
  pose proof (sum_list_seq_update (weigh_pending g h) (weigh_pending g h') n i Hi) as Hs.
  enough (forall j, j <> i -> weigh_pending g h' j = weigh_pending g h j) as Ho by (specialize (Hs Ho); lia).
  intros j Hj. unfold weigh_pending. by rewrite (hist_step_view i j h h').
Qed.

Lemma weigh_call g n h i o :
  i < n -> opview i h = None -> weigh g n (h ++ [HCall i o]) = weigh g n h + g [].
Proof.
  intros Hi Hn. pose proof (weigh_thread g n h (h ++ [HCall i o]) i Hi ltac:(by apply hist_step_one)) as Hw.
  unfold weigh_pending, weigh_done in Hw.
  rewrite completed_call, opview_call, decide_True, Hn in Hw by done. lia.
Qed.

Lemma weigh_lin g n h i o fs es :
  i < n -> opview i h = Some (o, fs) ->
  weigh g n (h ++ (HLin i <$> es)) + g fs = weigh g n h + g (fs ++ es).
Proof.
  intros Hi Hv. pose proof (weigh_thread g n h (h ++ (HLin i <$> es)) i Hi ltac:(apply hist_step_lin)) as Hw.
  unfold weigh_pending, weigh_done in Hw.
  rewrite completed_lin, opview_lin, decide_True, Hv in Hw by done. lia.
Qed.

Lemma weigh_ret g n h i r :
  i < n -> is_Some (opview i h) -> weigh g n (h ++ [HRet i r]) = weigh g n h.
Proof.
  intros Hi [[o fs] Hv].
  pose proof (weigh_thread g n h (h ++ [HRet i r]) i Hi ltac:(by apply hist_step_one)) as Hw.
  unfold weigh_pending, weigh_done in Hw.
  rewrite completed_ret, opview_ret, decide_True, Hv, fmap_app, sum_list_with_app in Hw by done.
  simpl in Hw. lia.
Qed.

(** Every call is a completed operation or one that runs. *)
Lemma sched_calls i m c c' n :
  sched entry body i m c = Some c' -> views c -> length (pool c) = n ->
  weigh (fun _ => 1) n (hist c') = weigh (fun _ => 1) n (hist c) + is_call m.
Proof.
  intros Hs Hv Hl. pose proof (sched_hist _ _ i m c c' Hs) as (_ & Hi & _). rewrite Hl in Hi.
  clear Hl. destruct c as [s h tp]. simpl in *.
  destruct (tp !! i) as [[|p]|] eqn:Ei; [| |done]; pose proof (Hv i _ Ei) as Hvi; simpl in Hvi.
  - destruct m as [o|]; [|done]. simplify_eq/=. by rewrite weigh_call.
  - destruct p as [[l|r]|X f ev k|k], m as [o|b]; simplify_eq/=; try lia.
    + by rewrite weigh_ret by done.
    + destruct (f s) as [s2 x], Hvi as [[o fs] Hvi]. simplify_eq/=.
      pose proof (weigh_lin (fun _ => 1) n h i o fs (ev x) Hi Hvi). lia.
Qed.

Lemma trace_calls ok n ms c c' :
  trace ok ms c c' -> views c -> length (pool c) = n ->
  weigh (fun _ => 1) n (hist c') = weigh (fun _ => 1) n (hist c) + calls ms.
Proof.
  revert c. induction ms as [|[i m] ms IH]; intros c; simpl; [intros <- _ _; unfold calls; simpl; lia|].
  intros (c1 & Hs & _ & Ht) Hv Hl. change (calls ((i, m) :: ms)) with (is_call m + calls ms). pose proof (sched_hist _ _ i m c c1 Hs) as (_ & _ & Hl1).
  rewrite (IH c1) by (done || eauto using sched_views || congruence).
  rewrite (sched_calls i m c c1 n) by done. lia.
Qed.

(** The weight of all the events is the weight of the operations. *)
Lemma events_weigh ok s0 n c g :
  (forall fs es, g (fs ++ es) = g fs + g es) -> g [] = 0 ->
  reach entry body ok s0 n c ->
  views c /\ length (pool c) = n /\ g (events (hist c)) = weigh g n (hist c).
Proof.
  intros Hg H0. induction 1 as [|i m c c' _ (Hv & Hl & IH) Hs _].
  - split_and!; [apply views_start|by simpl; rewrite length_replicate|].
    unfold weigh, weigh_done. simpl. rewrite H0.
    rewrite (sum_list_fmap_same 0); [lia|]. by apply Forall_true.
  - pose proof (sched_hist _ _ i m c c' Hs) as (_ & Hi & Hl'). rewrite Hl in Hi, Hl'.
    split_and!; [by eapply sched_views|done|]. clear Hl Hl'. destruct c as [s h tp]. simpl in *.
    destruct (tp !! i) as [[|p]|] eqn:Ei; [| |done]; pose proof (Hv i _ Ei) as Hvi; simpl in Hvi.
    + destruct m as [o|]; [|done]. simplify_eq/=.
      rewrite weigh_call, events_app by done. simpl. rewrite app_nil_r. lia.
    + destruct p as [[l|r]|X f ev k|k], m as [o|b]; simplify_eq/=; try done.
      * rewrite weigh_ret, events_app by done. simpl. by rewrite app_nil_r.
      * destruct (f s) as [s2 x], Hvi as [[o fs] Hvi]. simplify_eq/=.
        pose proof (weigh_lin g n h i o fs (ev x) Hi Hvi) as Hw.
        rewrite Hg in Hw. rewrite events_app, events_lin, Hg. lia.
Qed.

(** When no operation weighs more than [b]. *)
Lemma weigh_le g n h b :
  (forall o es r, (o, es, r) ∈ completed h -> g es <= b) ->
  (forall i o es, opview i h = Some (o, es) -> g es <= b) ->
  weigh g n h <= (length (completed h) + n) * b.
Proof.
  intros Hd Hp. unfold weigh, weigh_done.
  pose proof (sum_list_le ((fun '(_, es, _) => g es) <$> completed h) b) as H1.
  pose proof (sum_list_le (weigh_pending g h <$> seq 0 n) b) as H2.
  rewrite length_fmap in H1. rewrite length_fmap, length_seq in H2.
  enough (sum_list ((fun '(_, es, _) => g es) <$> completed h) <= length (completed h) * b /\
    sum_list (weigh_pending g h <$> seq 0 n) <= n * b) by lia. split.
  - apply H1. apply Forall_fmap, list.Forall_forall. intros [[o es] r] Hin. simpl. eauto.
  - apply H2. apply Forall_fmap, list.Forall_forall. intros i _. simpl. unfold weigh_pending.
    destruct (opview i h) as [[o es]|] eqn:Hv; [eauto|lia].
Qed.

(** ** The rule *)

(** [depth p d]: no run of [p] takes more than [d] steps before its end. *)
Fixpoint depth {A} (p : prog S E A) (d : nat) : Prop :=
  match p with
  | Ret _ => True
  | Act X f ev k => match d with O => False | Datatypes.S d => forall x, depth (k x) d end
  | Choose k => match d with O => False | Datatypes.S d => forall b, depth (k b) d end
  end.

Context (Inv : S -> list (hev E Op R) -> Prop).
Context (G : nat -> S * list (hev E Op R) -> S * list (hev E Op R) -> Prop).
Context (ok : S -> list (hev E Op R) -> Prop).
Context (LI : nat -> L -> S -> list (hev E Op R) -> Prop).
Context (Good : Op -> list E -> R -> Prop).
Context (ver : S -> list (hev E Op R) -> nat).
Context (rank : L -> S -> nat).
Context (K maxrank : nat).

(** What the other threads do while the counter stays the same. *)
Definition calm (i : nat) (c c' : S * list (hev E Op R)) : Prop :=
  rely Inv G i c c' /\ ver c'.1 c'.2 = ver c.1 c.2.

(** [pw i r p c]: as long as the counter stays the same and no exchange fails
    spuriously, thread [i] ends [p] by a return or at a loop head of a rank
    below [r]. *)
Fixpoint pw (i r : nat) (p : prog S E (L + R)) (c : S * list (hev E Op R)) : Prop :=
  match p with
  | Ret (inl l) => forall c', rtc (calm i) c c' -> Inv c'.1 c'.2 -> rank l c'.1 < r
  | Ret (inr _) => True
  | Act X f ev k =>
      forall c', rtc (calm i) c c' -> Inv c'.1 c'.2 ->
      let '(s2, x) := f c'.1 in
      let h2 := c'.2 ++ (HLin i <$> ev x) in
      ok s2 h2 -> Inv s2 h2 -> ver s2 h2 = ver c'.1 c'.2 -> pw i r (k x) (s2, h2)
  | Choose k => pw i r (k false) c
  end.

Lemma pw_calm i r p c c' : rtc (calm i) c c' -> pw i r p c -> pw i r p c'.
Proof.
  revert c c'. induction p as [[l|r']|X f ev k IH|k IH]; intros c c' Hr; simpl.
  - intros H c2 Hc2. apply H. by transitivity c'.
  - done.
  - intros H c2 Hc2. apply H. by transitivity c'.
  - eauto.
Qed.

(** Assertions that the others keep while the counter stays the same. *)
Definition calm_stable (i : nat) (P : S -> list (hev E Op R) -> Prop) : Prop :=
  forall c c', calm i c c' -> P c.1 c.2 -> P c'.1 c'.2.

Lemma calm_stable_rtc i P c c' : calm_stable i P -> rtc (calm i) c c' -> P c.1 c.2 -> P c'.1 c'.2.
Proof. intros HP. induction 1; eauto. Qed.

Lemma pw_act i r (P : S -> list (hev E Op R) -> Prop) (X : Set) f ev (k : X -> prog S E (L + R)) s h :
  calm_stable i P -> P s h ->
  (forall s1 h1 s2 x, P s1 h1 -> Inv s1 h1 -> f s1 = (s2, x) ->
     Inv s2 (h1 ++ (HLin i <$> ev x)) -> ver s2 (h1 ++ (HLin i <$> ev x)) = ver s1 h1 ->
     pw i r (k x) (s2, h1 ++ (HLin i <$> ev x))) ->
  pw i r (Act X f ev k) (s, h).
Proof.
  intros HP Hs Hk [s1 h1] Hr HI. simpl in *. destruct (f s1) as [s2 x] eqn:Ef. intros _ HI2 Hv.
  apply (Hk s1 h1 s2 x); [|done..]. by apply (calm_stable_rtc i P (s, h) (s1, h1)).
Qed.

Lemma pw_jump i r (P : S -> list (hev E Op R) -> Prop) l s h :
  calm_stable i P -> P s h -> (forall s h, P s h -> rank l s < r) -> pw i r (Ret (inl l)) (s, h).
Proof. intros HP Hs Hk c' Hr _. apply (Hk c'.1 c'.2). by apply (calm_stable_rtc i P (s, h)). Qed.

Lemma pw_choose i r (k : bool -> prog S E (L + R)) c : pw i r (k false) c -> pw i r (Choose k) c.
Proof. done. Qed.

Lemma pw_return i r (x : R) c : pw i r (Ret (inr x)) c.
Proof. done. Qed.

(** What a component shows. *)
Record progress_outline : Prop := {
  pr_outline : proof_outline entry body Inv G ok LI Good;
  pr_refl i c : G i c c;
  pr_mono i c c' :
    Inv c.1 c.2 -> Inv c'.1 c'.2 -> hist_step i c.2 c'.2 -> G i c c' -> ver c.1 c.2 <= ver c'.1 c'.2;
  pr_depth l : depth (body l) K;
  pr_rank l s : rank l s <= maxrank;
  pr_body i l s h : LI i l s h -> Inv s h -> pw i (rank l s) (body l) (s, h)
}.

Context (Hpr : progress_outline).

(** The steps that one thread can take on its own from a loop head. *)
Definition cost : nat := (maxrank + 1) * (K + 1).

(** [fuel] pays for what a thread still does before it needs a change, and for
    another round when there was one. *)
Definition funded (s : S) (h : list (hev E Op R)) (i : nat) (t : thread) (fuel : nat) : Prop :=
  match t with
  | Idle => True
  | Busy p =>
      exists d, depth p d /\
        (d + 1 + cost <= fuel \/ exists r, r <= maxrank /\ d + 1 + r * (K + 1) <= fuel /\ pw i r p (s, h))
  end.

(** The thread that moves: a call, a spurious failure and each change of the
    counter pay [cost], every other step is paid from its fuel. *)
Lemma rank_cost r : r <= maxrank -> r * (K + 1) <= cost.
Proof. intros Hr. unfold cost. apply Nat.mul_le_mono_r. lia. Qed.

Lemma funded_block s h i l d :
  LI i l s h -> Inv s h -> cost <= d -> funded s h i (Busy (body l)) d.
Proof.
  intros HL HI Hd. exists K. split; [apply (pr_depth Hpr)|right]. exists (rank l s).
  pose proof (pr_rank Hpr l s) as Hr. split_and!; [done| |by apply (pr_body Hpr)].
  transitivity cost; [|done]. unfold cost. pose proof (Nat.mul_le_mono_r _ _ (K + 1) Hr). lia.
Qed.

Lemma funded_jump s h i l d r :
  LI i l s h -> Inv s h -> rank l s < r -> r * (K + 1) <= d -> funded s h i (Busy (body l)) d.
Proof.
  intros HL HI Hr Hd. exists K. split; [apply (pr_depth Hpr)|right]. exists (rank l s).
  pose proof (pr_rank Hpr l s). split_and!; [done| |by apply (pr_body Hpr)].
  pose proof (Nat.mul_le_mono_r _ _ (K + 1) Hr) as Hm. simpl in Hm. lia.
Qed.

Lemma funded_own i m c c' t fuel :
  pool_ok Inv G ok LI Good c -> pool_ok Inv G ok LI Good c' -> ok (shared c') (hist c') ->
  sched entry body i m c = Some c' -> pool c !! i = Some t ->
  funded (shared c) (hist c) i t fuel ->
  exists t' fuel', pool c' = <[i := t']> (pool c) /\
    fuel' + is_go m = fuel + cost * is_call m + cost * is_spurious m /\
    funded (shared c') (hist c') i t'
      (fuel' + cost * (ver (shared c') (hist c') - ver (shared c) (hist c))).
Proof.
  set (x := ver (shared c') (hist c') - ver (shared c) (hist c)).
  assert (ver (shared c') (hist c') <= ver (shared c) (hist c) + x) as Hx by (unfold x; lia). clearbody x.
  intros (HI & Htp & _) (HI' & _) Hok Hs Ht Hf. destruct c as [s h tp]. simpl in *. rewrite Ht in Hs.
  pose proof (Htp i t Ht) as Hw. destruct t as [|p]; simpl in *.
  - destruct m as [o|]; [|done]. injection Hs as <-. simpl in *. eexists _, (fuel + cost). split_and!; [done|lia|].
    destruct (po_call _ _ _ _ _ _ _ (pr_outline Hpr) i o s h HI Hw Hok) as (_ & _ & HL).
    apply funded_block; [done|done|lia].
  - destruct Hf as (d & Hd & Hf).
    destruct p as [[l|r]|X f ev k|k], m as [o|b]; simplify_eq/=.
    + exists (Busy (body l)), (fuel - 1 + cost * (if b then 1 else 0)).
      pose proof (Hw (s, h) (rtc_refl _ _) HI) as HL. simpl in HL.
      split_and!; [done|destruct Hf as [Hf|(r & _ & Hf & _)]; lia|]. destruct Hf as [Hf|(r & _ & Hf & Hp)].
      * apply funded_block; [done|done|lia].
      * apply (funded_jump _ _ _ _ _ r); [done|done| |lia]. by apply (Hp (s, h)).
    + exists Idle, (fuel - 1 + cost * (if b then 1 else 0)).
      split_and!; [done|destruct Hf as [Hf|(r' & _ & Hf & _)]; lia|done].
    + destruct d as [|d]; [done|]. specialize (Hw (s, h) (rtc_refl _ _) HI). simpl in Hw.
      destruct (f s) as [s2 y] eqn:Ef. simplify_eq/=. destruct (Hw Hok) as (HG & _).
      exists (Busy (k y)), (fuel - 1 + cost * (if b then 1 else 0)).
      split_and!; [done|destruct Hf as [Hf|(r' & _ & Hf & _)]; lia|]. exists d. split; [apply Hd|].
      destruct Hf as [Hf|(r & Hr & Hf & Hp)]; [left; lia|].
      pose proof (pr_mono Hpr i (s, h) (s2, h ++ (HLin i <$> ev y)) HI HI' (hist_step_lin i h (ev y)) HG) as Hm.
      simpl in Hm. destruct (decide (ver s2 (h ++ (HLin i <$> ev y)) = ver s h)) as [He|He].
      * right. exists r. split_and!; [done|lia|]. specialize (Hp (s, h) (rtc_refl _ _) HI). simpl in Hp.
        rewrite Ef in Hp. by apply Hp.
      * left. assert (1 <= x) as H1 by lia. pose proof (Nat.mul_le_mono_l _ _ cost H1). lia.
    + destruct d as [|d]; [done|]. exists (Busy (k b)), (fuel - 1 + cost * (if b then 1 else 0)).
      split_and!; [done|destruct Hf as [Hf|(r' & _ & Hf & _)]; lia|]. exists d. split; [apply Hd|].
      destruct Hf as [Hf|(r & Hr & Hf & Hp)]; [left; lia|]. destruct b; [left; lia|].
      right. exists r. split_and!; [done|lia|done].
Qed.

(** A thread that does not move is paid for the changes of the counter. *)
Lemma funded_other j s h s' h' t fuel :
  rely Inv G j (s, h) (s', h') -> funded s h j t fuel ->
  funded s' h' j t (fuel + cost * (ver s' h' - ver s h)).
Proof.
  intros Hr Hf. assert (ver s h <= ver s' h') as Hle.
  { destruct Hr as (i & _ & Hh & HG & HI & HI'). by apply (pr_mono Hpr i (s, h) (s', h')). }
  set (x := ver s' h' - ver s h). assert (ver s' h' = ver s h + x) as Hx by (unfold x; lia). clearbody x.
  destruct t as [|p]; [done|]. destruct Hf as (d & Hd & Hf). exists d. split; [done|].
  destruct Hf as [Hf|(r & Hm & Hf & Hp)]; [left; lia|]. destruct (decide (x = 0)) as [->|Hne].
  - right. exists r. split_and!; [done|lia|]. apply (pw_calm j r p (s, h)); [|done].
    apply rtc_once. split; [done|]. simpl. lia.
  - left. assert (1 <= x) as H1 by lia. pose proof (Nat.mul_le_mono_l _ _ cost H1). lia.
Qed.

Definition pool_funded (c : config (S := S) (E := E) (Op := Op) (L := L) (R := R)) (fs : list nat) : Prop :=
  length fs = length (pool c) /\
  forall i t fuel, pool c !! i = Some t -> fs !! i = Some fuel -> funded (shared c) (hist c) i t fuel.

(** The moves of a configuration are those of a thread. *)
Lemma sched_rely i j m c c' :
  pool_ok Inv G ok LI Good c -> pool_ok Inv G ok LI Good c' -> ok (shared c') (hist c') ->
  sched entry body i m c = Some c' -> j <> i ->
  rely Inv G j (shared c, hist c) (shared c', hist c').
Proof.
  intros (HI & Htp & _) (HI' & _) Hok Hs Hj. pose proof (sched_hist _ _ i m c c' Hs) as (Hh & _).
  exists i. split_and!; [done|done| |done|done]. clear Hh. destruct c as [s h tp]. simpl in *.
  destruct (tp !! i) as [[|p]|] eqn:Ei; [| |done]; pose proof (Htp i _ Ei) as Hw; simpl in Hw.
  - destruct m as [o|]; [|done]. injection Hs as <-. simpl in *.
    by apply (po_call _ _ _ _ _ _ _ (pr_outline Hpr) i o s h HI Hw Hok).
  - destruct p as [[l|r]|X f ev k|k], m as [o|b]; try done.
    + injection Hs as <-. simpl. apply (pr_refl Hpr).
    + injection Hs as <-. simpl. apply (po_ret _ _ _ _ _ _ _ (pr_outline Hpr) i r s h HI).
      by apply (Hw (s, h) (rtc_refl _ _)).
    + specialize (Hw (s, h) (rtc_refl _ _) HI). simpl in Hw. destruct (f s) as [s2 x].
      injection Hs as <-. simpl in *. by apply Hw.
    + injection Hs as <-. simpl. apply (pr_refl Hpr).
Qed.

Lemma sched_funded i m c c' fs :
  pool_ok Inv G ok LI Good c -> pool_ok Inv G ok LI Good c' -> ok (shared c') (hist c') ->
  sched entry body i m c = Some c' -> pool_funded c fs ->
  exists fs', pool_funded c' fs' /\
    sum_list fs' + is_go m =
      sum_list fs + cost * is_call m + cost * is_spurious m +
      length (pool c) * (cost * (ver (shared c') (hist c') - ver (shared c) (hist c))).
Proof.
  intros Hc Hc' Hok Hs [Hl Hf]. pose proof (sched_hist _ _ i m c c' Hs) as (_ & Hi & Hl').
  destruct (lookup_lt_is_Some_2 (pool c) i Hi) as [t Ht].
  destruct (lookup_lt_is_Some_2 fs i ltac:(lia)) as [fuel Hfu].
  destruct (funded_own i m c c' t fuel Hc Hc' Hok Hs Ht (Hf i t fuel Ht Hfu)) as (t' & fuel' & Hp & Hsum & Hown).
  set (x := cost * (ver (shared c') (hist c') - ver (shared c) (hist c))) in *.
  exists ((fun f => f + x) <$> <[i := fuel']> fs). split.
  - split; [by rewrite length_fmap, length_insert, Hl'|]. intros j u f Hj Hfj.
    rewrite Hp in Hj. apply list_lookup_fmap_Some in Hfj as (f0 & -> & Hfj).
    destruct (decide (i = j)) as [<-|Hne].
    + apply list_lookup_insert_Some in Hj as [(_ & <- & _)|[? _]]; [|done].
      apply list_lookup_insert_Some in Hfj as [(_ & <- & _)|[? _]]; done.
    + rewrite list_lookup_insert_ne in Hj by done. rewrite list_lookup_insert_ne in Hfj by done.
      apply funded_other; [by apply (sched_rely i j m)|by apply (Hf j)].
  - rewrite sum_list_shift, length_insert, Hl. pose proof (sum_list_insert fs i fuel fuel' Hfu). lia.
Qed.

Lemma ver_mono_sched i m c c' :
  pool_ok Inv G ok LI Good c -> pool_ok Inv G ok LI Good c' -> ok (shared c') (hist c') ->
  sched entry body i m c = Some c' -> ver (shared c) (hist c) <= ver (shared c') (hist c').
Proof.
  intros Hc Hc' Hok Hs.
  destruct (sched_rely i (Datatypes.S i) m c c' Hc Hc' Hok Hs ltac:(lia)) as (j & _ & Hh & HG & HI & HI').
  by apply (pr_mono Hpr j _ _ HI HI' Hh HG).
Qed.

Lemma trace_funded n ms c c' fs :
  pool_ok Inv G ok LI Good c -> trace ok ms c c' -> pool_funded c fs -> length (pool c) = n ->
  steps ms + n * (cost * ver (shared c) (hist c)) <=
    sum_list fs + cost * calls ms + cost * spurious ms + n * (cost * ver (shared c') (hist c')).
Proof.
  revert c fs. induction ms as [|[i m] ms IH]; intros c fs Hc Ht Hf Hn; simpl in Ht.
  - subst c'. unfold steps, calls, spurious. simpl. lia.
  - destruct Ht as (c1 & Hs & Hok & Ht).
    pose proof (sched_pool_ok _ _ _ _ _ _ _ (pr_outline Hpr) i m c c1 (pr_refl Hpr) Hc Hs Hok) as Hc1.
    destruct (sched_funded i m c c1 fs Hc Hc1 Hok Hs Hf) as (fs1 & Hf1 & Hsum).
    pose proof (sched_hist _ _ i m c c1 Hs) as (_ & _ & Hl).
    specialize (IH c1 fs1 Hc1 Ht Hf1 ltac:(congruence)). rewrite Hn in Hsum.
    pose proof (ver_mono_sched i m c c1 Hc Hc1 Hok Hs) as Hm.
    change (steps ((i, m) :: ms)) with (is_go m + steps ms).
    change (calls ((i, m) :: ms)) with (is_call m + calls ms).
    change (spurious ((i, m) :: ms)) with (is_spurious m + spurious ms).
    rewrite Nat.mul_sub_distr_l, Nat.mul_sub_distr_l in Hsum.
    assert (n * (cost * ver (shared c) (hist c)) <= n * (cost * ver (shared c1) (hist c1)))
      by (by do 2 apply Nat.mul_le_mono_l). lia.
Qed.

(** Every step of an execution is paid for by a call, by a spurious failure or
    by a change of the counter. *)
Lemma progress_bound s0 n ms c :
  Inv s0 [] -> trace ok ms (start s0 n) c ->
  steps ms <= cost * (length (completed (hist c)) + n + spurious ms + n * ver (shared c) (hist c)).
Proof.
  intros HI Ht.
  assert (pool_ok Inv G ok LI Good (start s0 n)) as Hc.
  { apply (rg_adequacy _ _ _ _ _ _ _ (pr_outline Hpr) s0 n); [apply (pr_refl Hpr)|done|constructor]. }
  assert (length (pool (start (E := E) (Op := Op) (L := L) (R := R) s0 n)) = n) as Hl by (simpl; by rewrite length_replicate).
  assert (pool_funded (start s0 n) (replicate n 0)) as Hf.
  { split; [by rewrite Hl, length_replicate|]. intros i t fuel Hi _.
    by apply lookup_replicate in Hi as [-> _]. }
  pose proof (trace_funded n ms (start s0 n) c _ Hc Ht Hf Hl) as Hb. rewrite sum_list_replicate in Hb.
  pose proof (trace_calls ok n ms (start s0 n) c Ht (views_start s0 n) Hl) as Hcalls.
  pose proof (weigh_le (fun _ => 1) n (hist c) 1 (fun _ _ _ _ => le_n 1) (fun _ _ _ _ => le_n 1)) as Hw.
  assert (calls ms <= length (completed (hist c)) + n) as Hcl by lia.
  apply (Nat.mul_le_mono_l _ _ cost) in Hcl. lia.
Qed.

End progress.

Arguments pw : simpl never.

(** The longest path of a program that is written out. *)
Ltac depth_solve := simpl; repeat first [exact I | intros ?; simpl | case_match; simpl].
