(* ===== verification/Cas2.v ===== *)
(** * Cas2: the 16-byte compare-and-swap and the other atomic primitives

    Models [include/lscq/cas2.hpp], [include/lscq/config.hpp] and the headers
    [platform.hpp], [ncq_impl.hpp], [atomic_or.hpp], [atomic_ptr.hpp] and
    [bit.hpp] of [include/lscq/detail].

    The C++ code selects one of several implementations with the preprocessor
    and with a run-time CPU check.  [platform] records what the preprocessor
    and the CPU decide, every implementation is a definition of its own, and
    the theorems say that the selected one always behaves like the reference
    ([cas2_mutex], [Z.lor], ...), which is what the queues use.  The 16-byte
    instructions fault on a misaligned address and on a processor that does not
    have them; [None] is such a fault.

    [cas2_mutex] is the effect of the critical section as a whole; [Cas2Mutex]
    has its single accesses, and shows when it may be taken as one step. *)

From stdpp Require Import base list numbers option.
From Stdlib Require Import ZArith Lia.
From S2P Require Import Prelude Conc.

Local Open Scope Z_scope.

(** ** Data *)

Record Entry := mkEntry {
  cycle_flags : Z;
  index_or_ptr : Z
}.

#[global] Instance Entry_eq_dec : EqDecision Entry.
Proof. solve_decision. Defined.

#[global] Instance Entry_inhabited : Inhabited Entry := populate (mkEntry 0 0).

(** [operator==] and [operator!=]. *)
Definition entry_eqb (a b : Entry) : bool :=
  (cycle_flags a =? cycle_flags b) && (index_or_ptr a =? index_or_ptr b).

Definition entry_neqb (a b : Entry) : bool := negb (entry_eqb a b).

(** Both words in range. *)
Definition entry_wf (e : Entry) : Prop := is_u64 (cycle_flags e) /\ is_u64 (index_or_ptr e).

Inductive arch_t := X86_64 | ARM64 | OtherArch.

Inductive compiler_t := MSVC | Gnu | OtherCompiler.

(** The macros of config.hpp, the compiler's predefined macros and what CPUID
    leaf 1 answers. *)
Record platform := Platform {
  enable_cas2 : bool;
  arch : arch_t;
  compiler : compiler_t;
  windows : bool;
  sync_cas16 : bool;
  has_cpuid_h : bool;
  cpuid_ok : bool;
  cpuid_ecx : Z
}.

(** ** detail/platform.hpp *)

Definition is_aligned_16 (p : Z) : bool := Z.land p 15 =? 0.

(** Whether the processor has a 16-byte compare-and-swap; an x86 processor that
    has [cmpxchg16b] says so in bit 13 of what CPUID leaf 1 answers. *)
Definition has_cas16 (pf : platform) : bool :=
  match arch pf with
  | X86_64 => Z.testbit (cpuid_ecx pf) 13
  | ARM64 => true
  | OtherArch => false
  end.

(** Executing such an instruction, with result [r], on the address [addr]: it
    faults when the processor does not have it or the address is not a multiple
    of 16. *)
Definition execute16 {A} (pf : platform) (addr : Z) (r : A) : option A :=
  if has_cas16 pf && (addr mod 16 =? 0) then Some r else None.

Definition kCx16Bit : Z := Z.shiftl 1 13.

Definition cpu_has_cmpxchg16b (pf : platform) : bool :=
  match arch pf with
  | X86_64 =>
      match compiler pf with
      | MSVC => negb (Z.land (cpuid_ecx pf) kCx16Bit =? 0)
      | _ =>
          if has_cpuid_h pf then
            if negb (cpuid_ok pf) then false
            else negb (Z.land (cpuid_ecx pf) kCx16Bit =? 0)
          else false
      end
  | _ => false
  end.

(** ** The striped mutex of the fallback *)

Definition kCas2FallbackStripeCount : Z := 32.

Definition cas2_fallback_stripe_index (ptr : Z) : Z :=
  let mask := kCas2FallbackStripeCount - 1 in
  Z.land (Z.shiftr ptr 4) mask.

(** [cas2_mutex]: the critical section, on the contents [cur] of [*ptr].  The
    result is the new contents, the new value of [expected] and the answer. *)
Definition cas2_mutex (cur expected desired : Entry) : Entry * Entry * bool :=
  if entry_neqb cur expected then (cur, cur, false)
  else (desired, expected, true).

(** ** The native implementations *)

(** [u64_to_ll] and [ll_to_u64] copy the representation. *)
Definition u64_to_ll (v : Z) : Z := i64 v.

Definition ll_to_u64 (v : Z) : Z := u64 v.

(** [_InterlockedCompareExchange128]: compares the two signed words, stores
    the exchange words when both match, and always writes the original
    contents to the comparand. *)
Definition InterlockedCompareExchange128 (dest_low dest_high exchange_high exchange_low : Z)
    (comparand : Z * Z) : (Z * Z) * (Z * Z) * bool :=
  if (dest_low =? comparand.1) && (dest_high =? comparand.2)
  then ((exchange_low, exchange_high), (dest_low, dest_high), true)
  else ((dest_low, dest_high), (dest_low, dest_high), false).

Definition cas2_native_msvc (pf : platform) (addr : Z) (cur expected desired : Entry) :
    option (Entry * Entry * bool) :=
  if negb (is_aligned_16 addr) then Some (cas2_mutex cur expected desired)
  else
    let comparand := (u64_to_ll (cycle_flags expected), u64_to_ll (index_or_ptr expected)) in
    let exchange_low := u64_to_ll (cycle_flags desired) in
    let exchange_high := u64_to_ll (index_or_ptr desired) in
    '(mem, comparand', ok) ← execute16 pf addr
      (InterlockedCompareExchange128 (u64_to_ll (cycle_flags cur)) (u64_to_ll (index_or_ptr cur))
        exchange_high exchange_low comparand);
    Some (mkEntry (ll_to_u64 mem.1) (ll_to_u64 mem.2),
      mkEntry (ll_to_u64 comparand'.1) (ll_to_u64 comparand'.2), ok).

(** [__atomic_compare_exchange] on 16 bytes, strong: the expected value is
    overwritten only on failure. *)
Definition atomic_compare_exchange_16 (cur expected desired : Entry) : Entry * Entry * bool :=
  if decide (cur = expected) then (desired, expected, true) else (cur, cur, false).

Definition cas2_native_gnu (pf : platform) (addr : Z) (cur expected desired : Entry) :
    option (Entry * Entry * bool) :=
  if negb (is_aligned_16 addr) then Some (cas2_mutex cur expected desired)
  else
    let expected_local := expected in
    let desired_local := desired in
    '(mem, expected_local', ok) ← execute16 pf addr
      (atomic_compare_exchange_16 cur expected_local desired_local);
    Some (mem, expected_local', ok).

Definition cas2_native (pf : platform) (addr : Z) (cur expected desired : Entry) :
    option (Entry * Entry * bool) :=
  match arch pf, compiler pf with
  | X86_64, MSVC =>
      if windows pf then cas2_native_msvc pf addr cur expected desired
      else Some (cas2_mutex cur expected desired)
  | X86_64, Gnu =>
      if sync_cas16 pf then cas2_native_gnu pf addr cur expected desired
      else Some (cas2_mutex cur expected desired)
  | ARM64, Gnu => cas2_native_gnu pf addr cur expected desired
  | _, _ => Some (cas2_mutex cur expected desired)
  end.

Definition has_cas2_support (pf : platform) : bool :=
  if negb (enable_cas2 pf) then false
  else
    match arch pf, compiler pf with
    | X86_64, _ => cpu_has_cmpxchg16b pf
    | ARM64, Gnu => true
    | _, _ => false
    end.

(** [cas2(ptr, expected, desired)]: [addr] is the address [ptr], [cur] the
    contents of [*ptr]. *)
Definition cas2 (pf : platform) (addr : Z) (cur expected desired : Entry) :
    option (Entry * Entry * bool) :=
  if addr =? 0 then Some (cur, expected, false)
  else if enable_cas2 pf then
    if has_cas2_support pf then cas2_native pf addr cur expected desired
    else Some (cas2_mutex cur expected desired)
  else Some (cas2_mutex cur expected desired).

(** [detail::entry_load]: a compare-and-swap of a value with itself. *)
Definition entry_load (cur : Entry) : Entry * Entry :=
  let expected := mkEntry 0 0 in
  let '(cur', expected', _) := cas2_mutex cur expected expected in
  (cur', expected').

(** ** detail/atomic_or.hpp and detail/atomic_ptr.hpp *)

(** The compare-and-swap loops of the conservative fallbacks, as programs over
    one word; [cur] is the loop-carried variable.  The compare-exchange is
    weak, so it may fail spuriously. *)
Definition cas_word_weak (spurious : bool) (expected desired : Z) (mem : Z) : Z * (Z * bool) :=
  if negb spurious && (mem =? expected) then (desired, (expected, true)) else (mem, (mem, false)).

Inductive cas_loop_at : Set := CasStart | CasRetry (cur : Z).

Definition atomic_or_u64_fallback (mask : Z) (l : cas_loop_at) : prog Z Empty_set (cas_loop_at + unit) :=
  match l with
  | CasStart => (let! cur := atomic (fun m => (m, m)) in Ret (inl (CasRetry cur)))%prog
  | CasRetry cur =>
      (let desired := Z.lor cur mask in
       let! spurious := choose in
       let! r := atomic (cas_word_weak spurious cur desired) in
       if r.2 then Ret (inr tt) else Ret (inl (CasRetry r.1)))%prog
  end.

Definition atomic_exchange_fallback (desired : Z) (l : cas_loop_at) : prog Z Empty_set (cas_loop_at + Z) :=
  match l with
  | CasStart => (let! cur := atomic (fun m => (m, m)) in Ret (inl (CasRetry cur)))%prog
  | CasRetry cur =>
      (let! spurious := choose in
       let! r := atomic (cas_word_weak spurious cur desired) in
       if r.2 then Ret (inr cur) else Ret (inl (CasRetry r.1)))%prog
  end.

(** The read-modify-write instructions of GNU and MSVC. *)
Definition atomic_or_u64 (mem mask : Z) : Z := Z.lor mem mask.

Definition atomic_exchange_u64 (mem desired : Z) : Z * Z := (desired, mem).

Definition atomic_exchange_ptr (mem desired : Z) : Z * Z := (desired, mem).

(** [atomic_compare_exchange_ptr]: GNU form, then the MSVC form built from
    [_InterlockedCompareExchangePointer]. *)
Definition atomic_compare_exchange_ptr (mem expected desired : Z) : Z * Z * bool :=
  if mem =? expected then (desired, expected, true) else (mem, mem, false).

Definition atomic_compare_exchange_ptr_msvc (mem expected desired : Z) : Z * Z * bool :=
  let prev := mem in
  let mem' := if mem =? expected then desired else mem in
  if prev =? expected then (mem', expected, true) else (mem', prev, false).

(** ** detail/bit.hpp *)

Fixpoint pos_ctz (p : positive) : nat :=
  match p with xO q => Datatypes.S (pos_ctz q) | _ => O end.

(** [__builtin_ctzll] / [_BitScanForward64]. *)
Definition bit_scan_forward (v : Z) : Z :=
  match v with Zpos p => Z.of_nat (pos_ctz p) | _ => 0 end.

(** The two-halves form for 32-bit MSVC targets. *)
Definition ctz_u64_halves (v : Z) : Z :=
  let lo := v mod two32 in
  if negb (lo =? 0) then bit_scan_forward lo
  else bit_scan_forward (Z.shiftr v 32) + 32.

(** The portable loop. *)
Fixpoint ctz_u64_loop (fuel : nat) (v n : Z) : option Z :=
  match fuel with
  | O => None
  | Datatypes.S fuel =>
      if Z.land v 1 =? 0 then ctz_u64_loop fuel (Z.shiftr v 1) (n + 1) else Some n
  end.

Definition ctz_u64 (v : Z) : Z := bit_scan_forward v.

Definition log2_pow2_u64 (v : Z) : Z := ctz_u64 v.

(** * Theorems *)

Lemma entry_eqb_eq a b : entry_eqb a b = true <-> a = b.
Proof.
  unfold entry_eqb. destruct a as [a1 a2], b as [b1 b2]. simpl. rewrite andb_true_iff, !Z.eqb_eq.
  split; [by intros [-> ->]|intros Heq; by simplify_eq].
Qed.

(** What a compare-and-swap does, without reference to an implementation. *)
Lemma cas2_mutex_spec cur expected desired :
  cas2_mutex cur expected desired =
  if decide (cur = expected) then (desired, expected, true) else (cur, cur, false).
Proof.
  unfold cas2_mutex, entry_neqb. case_decide as Hc.
  - apply entry_eqb_eq in Hc. by rewrite Hc.
  - destruct (entry_eqb cur expected) eqn:E; [|done]. by apply entry_eqb_eq in E.
Qed.

Lemma ll_roundtrip v : is_u64 v -> ll_to_u64 (u64_to_ll v) = v.
Proof.
  intros H. unfold ll_to_u64, u64_to_ll, i64. rewrite (u64_small v H).
  destruct (v <? two63); [by apply u64_small|].
  unfold u64. rewrite <- (Z.mod_small v two64) at 2 by exact H.
  apply (Z_mod_plus_full v (-1) two64).
Qed.

Lemma u64_to_ll_inj a b : is_u64 a -> is_u64 b -> u64_to_ll a = u64_to_ll b -> a = b.
Proof. intros Ha Hb H. rewrite <- (ll_roundtrip a Ha), <- (ll_roundtrip b Hb). congruence. Qed.

Lemma u64_to_ll_eqb a b : is_u64 a -> is_u64 b -> (u64_to_ll a =? u64_to_ll b) = (a =? b).
Proof.
  intros Ha Hb. destruct (Z.eqb_spec a b) as [->|Hne]; [apply Z.eqb_refl|].
  apply Z.eqb_neq. intros H. by apply Hne, u64_to_ll_inj.
Qed.

Lemma entry_roundtrip e :
  entry_wf e ->
  mkEntry (ll_to_u64 (u64_to_ll (cycle_flags e))) (ll_to_u64 (u64_to_ll (index_or_ptr e))) = e.
Proof. intros [H1 H2]. rewrite !ll_roundtrip by done. by destruct e. Qed.

Lemma is_aligned_16_spec p : is_aligned_16 p = (p mod 16 =? 0).
Proof. unfold is_aligned_16. change 15 with (Z.ones 4). by rewrite Z.land_ones by lia. Qed.

(** The mask tests bit 13. *)
Lemma kCx16Bit_spec x : negb (Z.land x kCx16Bit =? 0) = Z.testbit x 13.
Proof.
  assert (forall i, 0 <= i -> i <> 13 -> Z.testbit (Z.land x kCx16Bit) i = false) as Hother.
  { intros i Hi Hne. rewrite Z.land_spec. unfold kCx16Bit. rewrite Z.shiftl_1_l, Z.pow2_bits_false by lia.
    apply andb_false_r. }
  assert (Z.testbit (Z.land x kCx16Bit) 13 = Z.testbit x 13) as H13.
  { rewrite Z.land_spec. unfold kCx16Bit. rewrite Z.shiftl_1_l, Z.pow2_bits_true by lia. apply andb_true_r. }
  destruct (Z.eqb_spec (Z.land x kCx16Bit) 0) as [E|E]; cbn [negb].
  - by rewrite <- H13, E.
  - destruct (Z.testbit x 13); [done|]. destruct E. apply Z.bits_inj'. intros i Hi. rewrite Z.bits_0.
    destruct (decide (i = 13)) as [->|Hne]; [done|auto].
Qed.

(** What the run-time check promises. *)
Lemma has_cas2_support_spec pf : has_cas2_support pf = true -> has_cas16 pf = true.
Proof.
  unfold has_cas2_support, has_cas16, cpu_has_cmpxchg16b.
  destruct (negb (enable_cas2 pf)); [done|]. destruct (arch pf), (compiler pf); try done.
  all: rewrite kCx16Bit_spec; repeat case_match; done.
Qed.

(** An instruction behind the two guards does not fault. *)
Lemma execute16_ok {A} pf addr (r : A) :
  has_cas16 pf = true -> negb (is_aligned_16 addr) = false -> execute16 pf addr r = Some r.
Proof. intros Hp Ha%negb_false_iff. unfold execute16. by rewrite Hp, <- is_aligned_16_spec, Ha. Qed.

Lemma cas2_native_gnu_spec pf addr cur expected desired :
  has_cas16 pf = true ->
  cas2_native_gnu pf addr cur expected desired = Some (cas2_mutex cur expected desired).
Proof.
  intros Hp. unfold cas2_native_gnu. destruct (negb (is_aligned_16 addr)) eqn:Ea; [done|].
  rewrite (execute16_ok pf addr _ Hp Ea), cas2_mutex_spec. unfold atomic_compare_exchange_16. simpl. by case_decide.
Qed.

Lemma cas2_native_msvc_spec pf addr cur expected desired :
  has_cas16 pf = true -> entry_wf cur -> entry_wf expected -> entry_wf desired ->
  cas2_native_msvc pf addr cur expected desired = Some (cas2_mutex cur expected desired).
Proof.
  intros Hp Hc He Hd. unfold cas2_native_msvc.
  destruct (negb (is_aligned_16 addr)) eqn:Ea; [done|]. rewrite (execute16_ok pf addr _ Hp Ea).
  unfold InterlockedCompareExchange128, cas2_mutex, entry_neqb, entry_eqb. simpl.
  destruct Hc as [Hc1 Hc2], He as [He1 He2].
  rewrite !u64_to_ll_eqb by done.
  destruct (Z.eqb_spec (cycle_flags cur) (cycle_flags expected)) as [E1|];
    destruct (Z.eqb_spec (index_or_ptr cur) (index_or_ptr expected)) as [E2|]; simpl;
    rewrite ?entry_roundtrip by done; try done.
  do 3 f_equal. destruct cur, expected. simpl in *. by subst.
Qed.

(** C25. Whatever the preprocessor and the CPU select (MSVC intrinsic, GNU
    builtin on x86-64 or AArch64, striped mutex), aligned or not, [cas2] on a
    non-null pointer to in-range words does not fault and has the effect of the
    reference compare-and-swap; on a null pointer it fails and changes nothing.
    In particular the 16-byte instruction is executed only on processors that
    have it and only on aligned addresses.  (The effect of the mutex path is that
    of its critical section as a whole; see [Cas2Mutex].) *)
Theorem cas2_platform_independent pf addr cur expected desired :
  entry_wf cur -> entry_wf expected -> entry_wf desired ->
  cas2 pf addr cur expected desired =
  Some (if decide (addr = 0) then (cur, expected, false)
        else if decide (cur = expected) then (desired, expected, true) else (cur, cur, false)).
Proof.
  intros Hc He Hd. unfold cas2.
  destruct (Z.eqb_spec addr 0) as [->|Hne]; [by rewrite decide_True by done|].
  rewrite (decide_False (P := addr = 0)) by done. rewrite <- cas2_mutex_spec.
  destruct (enable_cas2 pf); [|done]. destruct (has_cas2_support pf) eqn:Hs; [|done].
  apply has_cas2_support_spec in Hs. unfold cas2_native.
  repeat case_match; auto using cas2_native_gnu_spec, cas2_native_msvc_spec.
Qed.

(** The MSVC intrinsic, and on the same processor a misaligned address. *)
Lemma cas2_platform_independent_witness :
  cas2 (Platform true X86_64 MSVC true true true true 8192) 4096
    (mkEntry (two64 - 1) 7) (mkEntry (two64 - 1) 7) (mkEntry 2 two63) =
    Some (mkEntry 2 two63, mkEntry (two64 - 1) 7, true) /\
  cas2 (Platform true X86_64 MSVC true true true true 8192) 4100
    (mkEntry (two64 - 1) 7) (mkEntry (two64 - 1) 7) (mkEntry 2 two63) =
    Some (mkEntry 2 two63, mkEntry (two64 - 1) 7, true).
Proof.
  split; rewrite cas2_platform_independent by (split; unfold is_u64, two64, two63; simpl; lia); reflexivity.
Defined.

(** [entry_load] reads the slot and leaves it as it is. *)
Lemma entry_load_spec cur : entry_load cur = (cur, cur).
Proof.
  unfold entry_load. rewrite cas2_mutex_spec. case_decide; by subst.
Qed.

(** The stripe index is an index of the array of locks, and all the bytes of a
    16-byte slot share one lock. *)
Lemma stripe_index_range p : 0 <= cas2_fallback_stripe_index p < kCas2FallbackStripeCount.
Proof.
  unfold cas2_fallback_stripe_index, kCas2FallbackStripeCount.
  change (32 - 1) with (Z.ones 5). rewrite Z.land_ones by lia. apply Z.mod_pos_bound. lia.
Qed.

Lemma stripe_index_slot p k :
  is_aligned_16 p = true -> 0 <= k < 16 ->
  cas2_fallback_stripe_index (p + k) = cas2_fallback_stripe_index p.
Proof.
  unfold is_aligned_16, cas2_fallback_stripe_index. intros Hp Hk.
  apply Z.eqb_eq in Hp. change 15 with (Z.ones 4) in Hp. rewrite Z.land_ones in Hp by lia.
  f_equal. rewrite !Z.shiftr_div_pow2 by lia.
  change (2 ^ 4) with 16 in *. rewrite (Z.div_mod p 16) by lia. rewrite Hp.
  rewrite Z.add_0_r, (Z.mul_comm 16). rewrite Z.div_add_l, Z.div_mul by lia.
  rewrite (Z.div_small k); lia.
Qed.

(** *** Read-modify-write loops *)

Section cas_loops.

Lemma cas_weak_run {A} (spurious : bool) cur desired (f : Z * bool -> prog Z Empty_set A) w m :
  run (bind (atomic (cas_word_weak spurious cur desired)) f) w m =
  run (f (cas_word_weak spurious cur desired m).2) w (cas_word_weak spurious cur desired m).1.
Proof. simpl. by destruct (cas_word_weak spurious cur desired m). Qed.

Lemma atomic_or_retry mask w m :
  exists w', exec (atomic_or_u64_fallback mask) (Datatypes.S (length w)) (CasRetry m) w m =
  Some (atomic_or_u64 m mask, w', tt).
Proof.
  revert m. induction w as [|b w IH]; intros m.
  - exists []. simpl. unfold cas_word_weak. by rewrite Z.eqb_refl.
  - destruct b.
    + destruct (IH m) as [w' Hw]. exists w'. erewrite exec_jump; [exact Hw|]. done.
    + exists w. erewrite exec_ret; [done|]. simpl. unfold cas_word_weak. by rewrite Z.eqb_refl.
Qed.

(** The compare-and-swap loop of [atomic_or_u64] terminates, after at most one
    iteration per spurious failure, with the effect of the [or] instruction. *)
Lemma atomic_or_u64_fallback_spec mask w m :
  exists w', exec (atomic_or_u64_fallback mask) (length w + 2) CasStart w m =
  Some (atomic_or_u64 m mask, w', tt).
Proof.
  rewrite Nat.add_comm. destruct (atomic_or_retry mask w m) as [w' Hw]. exists w'.
  change (2 + length w)%nat with (Datatypes.S (Datatypes.S (length w))).
  erewrite exec_jump; [exact Hw|]. done.
Qed.

Lemma atomic_exchange_retry d w m :
  exists w', exec (atomic_exchange_fallback d) (Datatypes.S (length w)) (CasRetry m) w m =
  Some ((atomic_exchange_u64 m d).1, w', (atomic_exchange_u64 m d).2).
Proof.
  revert m. induction w as [|b w IH]; intros m.
  - exists []. simpl. unfold cas_word_weak. by rewrite Z.eqb_refl.
  - destruct b.
    + destruct (IH m) as [w' Hw]. exists w'. erewrite exec_jump; [exact Hw|]. done.
    + exists w. erewrite exec_ret; [done|]. simpl. unfold cas_word_weak. by rewrite Z.eqb_refl.
Qed.

Lemma atomic_exchange_fallback_spec d w m :
  exists w', exec (atomic_exchange_fallback d) (length w + 2) CasStart w m =
  Some ((atomic_exchange_u64 m d).1, w', (atomic_exchange_u64 m d).2).
Proof.
  rewrite Nat.add_comm. destruct (atomic_exchange_retry d w m) as [w' Hw]. exists w'.
  change (2 + length w)%nat with (Datatypes.S (Datatypes.S (length w))).
  erewrite exec_jump; [exact Hw|]. done.
Qed.

End cas_loops.

Lemma atomic_compare_exchange_ptr_agree mem expected desired :
  atomic_compare_exchange_ptr_msvc mem expected desired =
  atomic_compare_exchange_ptr mem expected desired.
Proof.
  unfold atomic_compare_exchange_ptr_msvc, atomic_compare_exchange_ptr. simpl.
  by destruct (mem =? expected).
Qed.

(** *** Counting trailing zeros *)

Lemma bit_scan_forward_spec v :
  0 < v -> 0 <= bit_scan_forward v /\
  exists k, 0 <= k /\ v = (2 * k + 1) * 2 ^ bit_scan_forward v.
Proof.
  destruct v as [|p|p]; [lia| |lia]. intros _. unfold bit_scan_forward. split; [lia|].
  induction p as [p _|p IH|]; simpl pos_ctz.
  - exists (Zpos p). change (Z.of_nat 0) with 0. rewrite Z.pow_0_r. lia.
  - destruct IH as (k & Hk & IH). exists k. split; [done|].
    rewrite Nat2Z.inj_succ, Z.pow_succ_r by lia. lia.
  - exists 0. done.
Qed.

(** The decomposition into an odd number and a power of two is unique. *)
Lemma odd_pow2_lt a b i j :
  0 <= i < j -> (2 * a + 1) * 2 ^ i <> (2 * b + 1) * 2 ^ j.
Proof.
  intros Hij H. replace j with (i + 1 + (j - i - 1)) in H by lia.
  rewrite !Z.pow_add_r, Z.pow_1_r in H by lia.
  assert (2 * a + 1 = 2 * ((2 * b + 1) * 2 ^ (j - i - 1))) as H2; [|lia].
  apply (Z.mul_cancel_r _ _ (2 ^ i)); [|rewrite H; ring].
  pose proof (Z.pow_pos_nonneg 2 i). lia.
Qed.

Lemma odd_pow2_unique a b i j :
  0 <= i -> 0 <= j -> (2 * a + 1) * 2 ^ i = (2 * b + 1) * 2 ^ j -> i = j.
Proof.
  intros Hi Hj H. destruct (Z.lt_trichotomy i j) as [Hlt|[->|Hlt]]; [|done|]; exfalso.
  - by apply (odd_pow2_lt a b i j).
  - by apply (odd_pow2_lt b a j i).
Qed.

Lemma bit_scan_forward_unique v k n :
  0 < v -> 0 <= n -> v = (2 * k + 1) * 2 ^ n -> bit_scan_forward v = n.
Proof.
  intros Hv Hn Heq. destruct (bit_scan_forward_spec v Hv) as (Hb & k' & _ & Hk).
  apply (odd_pow2_unique k' k); [done|done|congruence].
Qed.

Lemma log2_pow2_u64_pow2 k : 0 <= k -> log2_pow2_u64 (2 ^ k) = k.
Proof.
  intros Hk. apply (bit_scan_forward_unique _ 0); [|done|lia].
  by apply Z.pow_pos_nonneg.
Qed.

Lemma ctz_u64_halves_spec v : 0 < v < two64 -> ctz_u64_halves v = ctz_u64 v.
Proof.
  intros Hv. unfold ctz_u64_halves, ctz_u64. symmetry.
  rewrite Z.shiftr_div_pow2 by lia. change (2 ^ 32) with two32.
  pose proof (Z.div_mod v two32 ltac:(done)) as Hdm.
  pose proof (Z.mod_pos_bound v two32 ltac:(done)) as Hb.
  destruct (Z.eqb_spec (v mod two32) 0) as [E|E]; simpl.
  - assert (0 < v / two32) as Hhi by (unfold two32 in *; lia).
    destruct (bit_scan_forward_spec _ Hhi) as (Hn & k & Hk & Heq).
    apply (bit_scan_forward_unique v k); [lia|lia|].
    rewrite Z.pow_add_r, Z.mul_assoc, <- Heq by lia. change (2 ^ 32) with two32. lia.
  - destruct (bit_scan_forward_spec (v mod two32) ltac:(lia)) as (Hn & k & Hk & Heq).
    assert (bit_scan_forward (v mod two32) < 32) as Hlt.
    { destruct (Z.lt_ge_cases (bit_scan_forward (v mod two32)) 32) as [|Hge]; [done|].
      pose proof (Z.pow_le_mono_r 2 32 _ ltac:(lia) Hge). change (2 ^ 32) with two32 in *. nia. }
    set (n := bit_scan_forward (v mod two32)) in *.
    apply (bit_scan_forward_unique v (v / two32 * 2 ^ (31 - n) + k)); [lia|lia|].
    replace two32 with (2 * 2 ^ (31 - n) * 2 ^ n) in Hdm at 1; [lia|].
    rewrite <- Z.mul_assoc, <- Z.pow_add_r by lia. replace (31 - n + n) with 31 by lia. done.
Qed.

Lemma ctz_u64_loop_spec fuel v n :
  0 < v < 2 ^ Z.of_nat fuel -> ctz_u64_loop fuel v n = Some (n + ctz_u64 v).
Proof.
  revert v n. induction fuel as [|fuel IH]; intros v n Hv; [simpl in Hv; lia|].
  rewrite Nat2Z.inj_succ, Z.pow_succ_r in Hv by lia. simpl.
  change 1 with (Z.ones 1) at 1. rewrite Z.land_ones by lia. change (2 ^ 1) with 2.
  pose proof (Z.div_mod v 2 ltac:(lia)) as Hdm. pose proof (Z.mod_pos_bound v 2 ltac:(lia)) as Hb.
  rewrite Z.shiftr_div_pow2 by lia. change (2 ^ 1) with 2.
  destruct (Z.eqb_spec (v mod 2) 0) as [E|E].
  - rewrite IH by lia. f_equal. unfold ctz_u64.
    destruct (bit_scan_forward_spec (v / 2) ltac:(lia)) as (Hn & k & Hk & Heq).
    rewrite (bit_scan_forward_unique v k (bit_scan_forward (v / 2) + 1)); [lia..|].
    rewrite Z.pow_add_r by lia. lia.
  - f_equal. unfold ctz_u64. rewrite (bit_scan_forward_unique v (v / 2) 0); lia.
Qed.

(** The three implementations of [ctz_u64] agree on every non-zero
    word, and the portable loop terminates within 64 iterations. *)
Theorem ctz_u64_variants_agree v :
  0 < v < two64 ->
  ctz_u64_halves v = ctz_u64 v /\ ctz_u64_loop 64 v 0 = Some (ctz_u64 v) /\
  exists k, v = (2 * k + 1) * 2 ^ ctz_u64 v.
Proof.
  intros Hv. split_and!.
  - by apply ctz_u64_halves_spec.
  - by rewrite ctz_u64_loop_spec.
  - destruct (bit_scan_forward_spec v) as (_ & k & _ & Hk); [lia|]. by exists k.
Qed.

Lemma ctz_u64_variants_agree_witness :
  ctz_u64_halves (two32 * 5) = ctz_u64 (two32 * 5) /\
  ctz_u64_loop 64 (two32 * 5) 0 = Some (ctz_u64 (two32 * 5)) /\
  exists k, two32 * 5 = (2 * k + 1) * 2 ^ ctz_u64 (two32 * 5).
Proof. apply (ctz_u64_variants_agree (two32 * 5)). unfold two32, two64. lia. Defined.
