(* ===== verification/Cas2Mutex.v ===== *)
(** * Cas2Mutex: the fallback of the 16-byte compare-and-swap, access by access

    [cas2_mutex] ([include/lscq/cas2.hpp]) compares and writes the two words of a
    slot under a mutex, and so does [cas2p_mutex] ([src/scqp.cpp]).  Here each
    access of it is a step: the mutex is taken, the two words are read, they are
    written, the mutex is released.  [CFree] is a write of the second word of the
    slot that does not take the mutex: [atomic_or_u64], by which [SCQ::dequeue]
    consumes a value, or an exchange, by which [SCQP::dequeue] does.

    [cas2_mutex_atomic]: as long as all writers of the slot use [cas2_mutex], the
    critical section may be taken as one step, which is how [Cas2.cas2_mutex]
    and the models of the rings take it.  [cas2_mutex_lost_write]: with a writer that
    does not take the mutex it may not, a write between the reading and the
    writing of the critical section is lost.  The models of [SCQ] and [SCQP]
    describe the native compare-and-swap exactly; with the mutex the code has
    executions that they do not have.  The mutex is used when the processor or the
    configuration has no 16-byte instruction and, in [SCQP], always on AArch64,
    for which [cas2p_native] has no implementation of its own.

    [CLock] annotates the lock and [CSwap] the release of the mutex, with the
    arguments and the results of the call. *)

From stdpp Require Import base list numbers option.
From Stdlib Require Import ZArith Lia.
From S2P Require Import Prelude Conc Cas2.

Local Open Scope Z_scope.

Record mslot := mkSlot {
  locked : bool;
  word : Entry
}.

Inductive free_write : Set :=
| WOr (mask : Z)
| WXchg (v : Z).

Inductive cop : Set :=
| CCas (expected desired : Entry)
| CFree (f : free_write).

Inductive cres : Set :=
| RCas (expected : Entry) (ok : bool)
| RFree (old : Z).

Inductive cev : Set :=
| CLock
| CSwap (expected desired expected' : Entry) (ok : bool)
| CFreed (f : free_write).

(** ** Accesses *)

Definition try_lock (s : mslot) : mslot * bool :=
  if locked s then (s, false) else (mkSlot true (word s), true).

Definition unlock (s : mslot) : mslot * unit := (mkSlot false (word s), tt).

Definition load_first (s : mslot) : mslot * Z := (s, cycle_flags (word s)).

Definition load_second (s : mslot) : mslot * Z := (s, index_or_ptr (word s)).

Definition store_first (v : Z) (s : mslot) : mslot * unit :=
  (mkSlot (locked s) (mkEntry v (index_or_ptr (word s))), tt).

Definition store_second (v : Z) (s : mslot) : mslot * unit :=
  (mkSlot (locked s) (mkEntry (cycle_flags (word s)) v), tt).

Definition write_free (f : free_write) (w : Entry) : Entry :=
  mkEntry (cycle_flags w)
    (match f with WOr mask => atomic_or_u64 (index_or_ptr w) mask | WXchg v => v end).

Definition free_second (f : free_write) (s : mslot) : mslot * Z :=
  (mkSlot (locked s) (write_free f (word s)), index_or_ptr (word s)).

(** ** The programs; the label is the operation, a jump to it tries the lock again *)

Definition cas2_mutex_steps (expected desired : Entry) : prog mslot cev (cop + cres) :=
  (let! got := atomic_lin try_lock (fun got : bool => if got then [CLock] else []) in
   if negb got then Ret (inl (CCas expected desired))
   else
     let! first := atomic load_first in
     let! second := atomic load_second in
     let current := mkEntry first second in
     if entry_neqb current expected then
       do! atomic_lin unlock (fun _ => [CSwap expected desired current false]);
       Ret (inr (RCas current false))
     else
       do! atomic (store_first (cycle_flags desired));
       do! atomic (store_second (index_or_ptr desired));
       do! atomic_lin unlock (fun _ => [CSwap expected desired expected true]);
       Ret (inr (RCas expected true)))%prog.

Definition slot_body (o : cop) : prog mslot cev (cop + cres) :=
  match o with
  | CCas expected desired => cas2_mutex_steps expected desired
  | CFree f => (let! old := atomic_lin (free_second f) (fun _ => [CFreed f]) in Ret (inr (RFree old)))%prog
  end.

(** ** The specification: the calls one after the other, each as one step *)

Fixpoint replay (w : Entry) (es : list cev) : option Entry :=
  match es with
  | [] => Some w
  | CLock :: es => replay w es
  | CSwap expected desired expected' ok :: es =>
      let '(w', e, b) := cas2_mutex w expected desired in
      if decide (e = expected' /\ b = ok) then replay w' es else None
  | CFreed f :: es => replay (write_free f w) es
  end.

Lemma replay_app w es fs : replay w (es ++ fs) = w' ← replay w es; replay w' fs.
Proof.
  revert w. induction es as [|[| e d e' b|m] es IH]; intros w; simpl; [done|done| |done].
  destruct (cas2_mutex w e d) as [[w' ?] ?]. by case_decide.
Qed.

(** ** The invariant *)

Abbreviation slot_hist := (list (hev cev cop cres)).

Definition holders (h : slot_hist) : list nat :=
  region (fun e => match e with CLock => true | _ => false end)
         (fun e => match e with CSwap _ _ _ _ => true | _ => false end) h.

(** No writer that does not take the mutex. *)
Definition only_cas (s : mslot) (h : slot_hist) : Prop :=
  Forall (fun x => match x with HCall _ (CFree _) => False | _ => True end) h.

Section proofs.
Context (w0 : Entry).

Definition slot_inv (s : mslot) (h : slot_hist) : Prop :=
  exists w, replay w0 (events h) = Some w /\
    ((locked s = false /\ holders h = [] /\ word s = w) \/ (locked s = true /\ exists i, holders h = [i])).

(** While a thread holds the mutex the others change nothing. *)
Definition slot_grant (j : nat) (c c' : mslot * slot_hist) : Prop :=
  forall i, i <> j -> holders c.2 = [i] ->
    word c'.1 = word c.1 /\ holders c'.2 = [i] /\ replay w0 (events c'.2) = replay w0 (events c.2).

Definition slot_good (o : cop) (es : list cev) (r : cres) : Prop :=
  match o with
  | CCas e d => exists e' ok, es = [CLock; CSwap e d e' ok] /\ r = RCas e' ok
  | CFree _ => False
  end.

Definition slot_loop (i : nat) (o : cop) (s : mslot) (h : slot_hist) : Prop :=
  match o with CCas _ _ => opview i h = Some (o, []) | CFree _ => False end.

(** Thread [i] is in the critical section; the slot contains [x] and contained [w]
    when the mutex was taken. *)
Definition inside (i : nat) (o : cop) (w x : Entry) (s : mslot) (h : slot_hist) : Prop :=
  opview i h = Some (o, [CLock]) /\ holders h = [i] /\ replay w0 (events h) = Some w /\ word s = x.

Abbreviation stable := (stable slot_inv slot_grant).
Abbreviation wp := (wp slot_inv slot_grant only_cas).
Abbreviation Q := (Qloop slot_loop slot_good).

Lemma slot_stable_loop i o : stable i (slot_loop i o).
Proof.
  destruct o as [e d|m]; [|by intros c c' _]. intros c c' (j & Hj & Hh & _) Ho. simpl.
  by rewrite (hist_step_view j i c.2 c'.2).
Qed.

Lemma slot_stable_inside i o w x : stable i (inside i o w x).
Proof.
  intros c c' (j & Hj & Hh & HG & _) (Ho & H1 & H2 & H3). destruct (HG i (not_eq_sym Hj) H1) as (G1 & G2 & G3).
  split_and!; [by rewrite (hist_step_view j i c.2 c'.2)|done|congruence|congruence].
Qed.

(** An access of the thread that holds the mutex. *)
Lemma wp_inside {A} i o w x (X : Set) f (k : X -> prog mslot cev A) QQ s h x' v :
  inside i o w x s h ->
  (forall s s' y, word s = x -> f s = (s', y) -> locked s' = locked s /\ word s' = x' /\ y = v) ->
  (forall s h, inside i o w x' s h -> wp i (k v) QQ (s, h)) ->
  wp i (Act X f (fun _ => []) k) QQ (s, h).
Proof.
  intros Hin Hf Hk. apply (wp_silent _ _ _ i (inside i o w x)); [apply slot_stable_inside|done|].
  clear s h Hin. intros s h s' y (Ho & H1 & H2 & H3) HI Hy _. destruct (Hf s s' y H3 Hy) as (Hl & Hw & ->).
  split_and!.
  - intros j Hj Hj'. simpl in Hj'. congruence.
  - destruct HI as (w1 & Hr & Hor). exists w1. split; [done|]. destruct Hor as [(_ & Hn & _)|[Hlk Hi]]; [congruence|].
    right. by rewrite Hl.
  - apply Hk. by split_and!.
Qed.

(** The release, which is where the call takes effect. *)
Lemma wp_unlock_slot i e d e' ok w w' s h :
  inside i (CCas e d) w w' s h -> cas2_mutex w e d = (w', e', ok) ->
  wp i (do! atomic_lin unlock (fun _ => [CSwap e d e' ok]); Ret (inr (RCas e' ok)))%prog (Q i) (s, h).
Proof.
  intros Hin Hc. simpl. apply (wp_act _ _ _ i (inside i (CCas e d) w w')); [apply slot_stable_inside|done|].
  clear s h Hin. intros s h s' [] (Ho & H1 & H2 & H3) HI [= <-] _.
  change (HLin i <$> [?x]) with [HLin (Op := cop) (R := cres) i x] in *.
  set (h' := h ++ [HLin i (CSwap e d e' ok)]).
  assert (holders h' = []) as Hh.
  { unfold h', holders. rewrite region_snoc. fold (holders h). rewrite H1. simpl.
    rewrite filter_cons, decide_False by tauto. done. }
  split_and!.
  - intros j Hj Hj'. simpl in Hj'. congruence.
  - exists w'. split.
    + unfold h'. rewrite events_snoc, replay_app, H2. simpl. rewrite Hc. by rewrite decide_True.
    + left. by split_and!.
  - apply (wp_ret _ _ _ i); [apply stable_post|]. exists (CCas e d), [CLock; CSwap e d e' ok].
    unfold h'. rewrite opview_snoc, decide_True, Ho by done. split; [done|]. by exists e', ok.
Qed.

Lemma wp_cas i e d s h :
  slot_loop i (CCas e d) s h -> wp i (cas2_mutex_steps e d) (Q i) (s, h).
Proof.
  intros HL. unfold cas2_mutex_steps. cbn [bind atomic_lin].
  apply (wp_act _ _ _ i (slot_loop i (CCas e d))); [apply slot_stable_loop|done|].
  clear s h HL. intros s h s' got HL HI Hg _. unfold try_lock in Hg. destruct (locked s) eqn:El; injection Hg as <- <-.
  { rewrite lin_nil. split_and!; [by intros j Hj Hj'|done|]. by apply (wp_ret _ _ _ i); [apply slot_stable_loop|]. }
  destruct HI as (w & Hr & [(_ & Hn & Hw)|[? _]]); [|congruence].
  change (HLin i <$> [?x]) with [HLin (Op := cop) (R := cres) i x] in *. set (h' := h ++ [HLin i CLock]).
  assert (holders h' = [i]) as Hh by (unfold h', holders; rewrite region_snoc; fold (holders h); by rewrite Hn).
  assert (replay w0 (events h') = Some w) as Hr' by (unfold h'; by rewrite events_snoc, replay_app, Hr).
  split_and!.
  - intros j Hj Hj'. simpl in Hj'. congruence.
  - exists w. split; [done|]. right. split; [done|by exists i].
  - assert (inside i (CCas e d) w w (mkSlot true (word s)) h') as Hin.
    { split_and!; [|done|done|done]. unfold h'. by rewrite opview_snoc, decide_True, HL. }
    generalize (mkSlot true (word s)), h', Hin. clear. intros s h Hin. cbn [negb bind atomic].
    apply (wp_inside i _ w w Z load_first _ _ s h w (cycle_flags w) Hin).
    { intros s1 s2 y Hs1 [= <- <-]. by rewrite Hs1. }
    clear s h Hin. intros s h Hin.
    apply (wp_inside i _ w w Z load_second _ _ s h w (index_or_ptr w) Hin).
    { intros s1 s2 y Hs1 [= <- <-]. by rewrite Hs1. }
    clear s h Hin. intros s h Hin. replace (mkEntry (cycle_flags w) (index_or_ptr w)) with w by by destruct w.
    assert (cas2_mutex w e d = if entry_neqb w e then (w, w, false) else (d, e, true)) as Hcas by done.
    destruct (entry_neqb w e); [by apply (wp_unlock_slot i e d w false w w)|].
    apply (wp_inside i _ w w unit (store_first (cycle_flags d)) _ _ s h (mkEntry (cycle_flags d) (index_or_ptr w)) tt Hin).
    { intros s1 s2 [] Hs1 [= <-]. simpl. by rewrite Hs1. }
    clear s h Hin. intros s h Hin.
    apply (wp_inside i _ w _ unit (store_second (index_or_ptr d)) _ _ s h d tt Hin).
    { intros s1 s2 [] Hs1 [= <-]. simpl. rewrite Hs1. by destruct d. }
    clear s h Hin. intros s h Hin. by apply (wp_unlock_slot i e d e true w d).
Qed.

Lemma slot_outline : proof_outline (fun o => o) slot_body slot_inv slot_grant only_cas slot_loop slot_good.
Proof.
  assert (forall s h x, (forall i e, x <> HLin i e) -> slot_inv s h ->
    slot_inv s (h ++ [x]) /\ (forall i, slot_grant i (s, h) (s, h ++ [x]))) as Hitem.
  { intros s h x Hx HI. assert (events (h ++ [x]) = events h) as He.
    { rewrite events_app. destruct x; simpl; rewrite ?app_nil_r; try done. by destruct (Hx i e). }
    assert (holders (h ++ [x]) = holders h) as Hh by by apply region_item.
    split; [unfold slot_inv; by rewrite He, Hh|]. intros i j Hj Hj'. simpl in *. by rewrite He, Hh. }
  split.
  - intros i o s h HI Hv He. destruct (Hitem s h (HCall i o) ltac:(done) HI) as [HI' HG].
    split_and!; [done|done|]. apply Forall_app in He as [_ He]. rewrite Forall_singleton in He.
    destruct o as [e d|m]; [|done]. simpl. by rewrite opview_call, decide_True.
  - intros i r s h HI _. destruct (Hitem s h (HRet i r) ltac:(done) HI) as [HI' HG]. done.
  - intros i [e d|m] s h HL HI; [by apply wp_cas|done].
Qed.

End proofs.

(** ** Theorems *)

(** C23. The critical section of [cas2_mutex] is one step for everybody who takes the
    mutex: when all writers of a slot call [cas2_mutex], any number of them and
    interleaved access by access, then the calls that have released the mutex,
    one after the other and each as the reference compare-and-swap
    ([Cas2.cas2_mutex]), lead from the initial contents to the contents of the
    slot whenever the mutex is free, and every call returns what its step
    returned. *)
Theorem cas2_mutex_atomic w0 threads cfg :
  reach (fun o => o) slot_body only_cas (mkSlot false w0) threads cfg ->
  exists w, replay w0 (events (hist cfg)) = Some w /\
    (locked (shared cfg) = false -> word (shared cfg) = w) /\
    Forall (fun '(o, es, r) => exists e d e' ok,
      o = CCas e d /\ es = [CLock; CSwap e d e' ok] /\ r = RCas e' ok) (completed (hist cfg)).
Proof.
  intros Hreach. destruct (rg_adequacy _ _ _ _ _ _ _ (slot_outline w0) (mkSlot false w0) threads cfg) as (HI & _ & Hg).
  - intros i c j Hj Hj'. done.
  - exists w0. split; [done|]. by left.
  - done.
  - destruct HI as (w & Hr & Hor). exists w. split_and!; [done| |].
    + intros Hl. destruct Hor as [(_ & _ & ?)|[? _]]; congruence.
    + eapply list.Forall_impl; [exact Hg|]. intros [[[e d|m] es] r]; [|done]. intros (e' & ok & -> & ->).
      by exists e, d, e', ok.
Qed.

(** Two calls that want to replace the same contents, interleaved; one fails. *)
Definition slot_demo_schedule : list (nat * move cop) :=
  [(0%nat, Call (CCas (mkEntry 1 2) (mkEntry 3 4))); (1%nat, Call (CCas (mkEntry 1 2) (mkEntry 5 6)))] ++
  go 0 2 ++ go 1 2 ++ go 0 5 ++ go 1 5.

Definition slot_demo : config :=
  outcome (fun o => o) slot_body (mkSlot false (mkEntry 1 2)) 2 slot_demo_schedule.

Definition only_casb (s : mslot) (h : slot_hist) : bool :=
  forallb (fun x => match x with HCall _ (CFree _) => false | _ => true end) h.

Lemma only_casb_ok s h : only_casb s h = true -> only_cas s h.
Proof.
  intros Hb. apply list.Forall_forall. intros x Hx%list_elem_of_In.
  pose proof (proj1 (forallb_forall _ _) Hb x Hx). by destruct x as [i [|]| |].
Qed.

Lemma cas2_mutex_atomic_witness :
  ((fun '(o, _, r) => (o, r)) <$> completed (hist slot_demo)) =
    [(CCas (mkEntry 1 2) (mkEntry 3 4), RCas (mkEntry 1 2) true);
     (CCas (mkEntry 1 2) (mkEntry 5 6), RCas (mkEntry 3 4) false)] /\
  exists w, replay (mkEntry 1 2) (events (hist slot_demo)) = Some w.
Proof.
  split; [vm_compute; reflexivity|].
  destruct (cas2_mutex_atomic (mkEntry 1 2) 2 slot_demo) as (w & Hr & _).
  - apply (outcome_reach _ _ _ only_casb); [apply only_casb_ok|vm_compute; reflexivity].
  - by exists w.
Defined.

(** The slot holds the contents 3 and 4; thread 0 wants to clear the flag in the first
    word and has read the slot when thread 1 consumes the value by [f], without
    the mutex; thread 0 goes on. *)
Definition slot_lost (f : free_write) : config :=
  outcome (fun o => o) slot_body (mkSlot false (mkEntry 3 4)) 2
    ([(0%nat, Call (CCas (mkEntry 3 4) (mkEntry 2 4)))] ++ go 0 3 ++ [(1%nat, Call (CFree f))] ++ go 1 2 ++ go 0 4).

(** A write that does not take the mutex is lost when it falls between the
    reading and the writing of the critical section of [cas2_mutex]: in the
    execution above, for the atomic OR of [SCQ::dequeue] and for the exchange of
    [SCQP::dequeue], both operations have returned, each as if it had had its
    effect, and the value 4 that thread 1 has consumed is back in the slot.  No
    order of the two operations as single steps has this result. *)
Theorem cas2_mutex_lost_write :
  Forall (fun f =>
    reach (fun o => o) slot_body (fun _ _ => True) (mkSlot false (mkEntry 3 4)) 2 (slot_lost f) /\
    ((fun '(o, _, r) => (o, r)) <$> completed (hist (slot_lost f))) =
      [(CFree f, RFree 4); (CCas (mkEntry 3 4) (mkEntry 2 4), RCas (mkEntry 3 4) true)] /\
    shared (slot_lost f) = mkSlot false (mkEntry 2 4) /\
    forall es, es ≡ₚ [CFreed f; CSwap (mkEntry 3 4) (mkEntry 2 4) (mkEntry 3 4) true] ->
      replay (mkEntry 3 4) es <> Some (mkEntry 2 4)) [WOr 15; WXchg 0].
Proof.
  repeat apply Forall_cons_2; [| |apply Forall_nil_2].
  all: split_and!; [|vm_compute; reflexivity|vm_compute; reflexivity|].
  all: try (apply (outcome_reach _ _ _ (fun _ _ => true)); [done|vm_compute; reflexivity]).
  all: intros es Hes; symmetry in Hes; apply Permutation_length_2_inv in Hes as [-> | ->]; vm_compute; discriminate.
Qed.
