(* ===== verification/Ring.v ===== *)
(** * Ring: arithmetic shared by the circular queues

    The rings number their operations with tickets (positions).  A ticket [p] of
    a ring of [n] slots belongs to the cycle [p / n] and to the slot
    [remap n (p mod n)], where [remap] spreads neighbouring tickets over cache
    lines.  This file has the slot permutation, the rounding of capacities, the
    signed comparison of cycles, and the packing of a cycle with its flag. *)

From stdpp Require Import base list numbers option.
From Stdlib Require Import ZArith Lia.
From S2P Require Import Prelude.

Local Open Scope Z_scope.

(** ** Definitions *)

(** The permutation computed by the three [cache_remap] members. *)
Definition remap (n idx : Z) : Z := Z.land idx 3 * Z.shiftr n 2 + Z.shiftr idx 2.

(** The slot of a ticket. *)
Definition slot_of (n p : Z) : nat := Z.to_nat (remap n (p mod n)).

(** [round_up] of ncq.cpp, on [size_t]. *)
Definition round_up (value alignment : Z) : Z :=
  u64 (add64 value (alignment - 1) / alignment * alignment).

(** [is_power_of_two] and [round_up_pow2] of scq.cpp and scqp.cpp, on [size_t]. *)
Definition is_power_of_two (v : Z) : bool := negb (v =? 0) && (Z.land v (sub64 v 1) =? 0).

Fixpoint round_up_pow2_loop (fuel : nat) (v out : Z) : option Z :=
  match fuel with
  | O => None
  | Datatypes.S fuel => if out <? v then round_up_pow2_loop fuel v (shl64 out 1) else Some out
  end.

Definition round_up_pow2 (fuel : nat) (v : Z) : option Z :=
  if v <=? 1 then Some 1
  else if is_power_of_two v then Some v
  else round_up_pow2_loop fuel v 1.

(** [cycle_less]: signed comparison of the difference. *)
Definition cycle_less (a b : Z) : bool := i64 (sub64 a b) <? 0.

(** [pack_cycle_flags], [unpack_cycle], [unpack_is_safe]. *)
Definition kIsSafeMask : Z := 1.

Definition pack_cycle_flags (cycle : Z) (is_safe : bool) : Z :=
  Z.lor (shl64 cycle 1) (if is_safe then 1 else 0).

Definition unpack_cycle (cycle_flags : Z) : Z := Z.shiftr cycle_flags 1.

Definition unpack_is_safe (cycle_flags : Z) : bool := negb (Z.land cycle_flags kIsSafeMask =? 0).

(** ** The slot permutation *)

Lemma land3 x : Z.land x 3 = x mod 4.
Proof. change 3 with (Z.ones 2). by rewrite Z.land_ones by lia. Qed.

Lemma shiftr2 x : Z.shiftr x 2 = x / 4.
Proof. by rewrite Z.shiftr_div_pow2 by lia. Qed.

Lemma remap_range n idx :
  n mod 4 = 0 -> 0 <= idx < n -> 0 <= remap n idx < n.
Proof.
  intros Hn Hi. unfold remap. rewrite land3, !shiftr2.
  pose proof (Z.div_mod n 4 ltac:(lia)) as En. pose proof (Z.div_mod idx 4 ltac:(lia)) as Ei.
  pose proof (Z.mod_pos_bound idx 4 ltac:(lia)).
  assert (0 <= idx / 4 < n / 4) by lia. nia.
Qed.

Lemma remap_inj n a b :
  n mod 4 = 0 -> 0 <= a < n -> 0 <= b < n -> remap n a = remap n b -> a = b.
Proof.
  intros Hn Ha Hb. unfold remap. rewrite !land3, !shiftr2. intros H.
  pose proof (Z.div_mod n 4 ltac:(lia)) as En.
  pose proof (Z.div_mod a 4 ltac:(lia)) as Ea. pose proof (Z.div_mod b 4 ltac:(lia)) as Eb.
  pose proof (Z.mod_pos_bound a 4 ltac:(lia)). pose proof (Z.mod_pos_bound b 4 ltac:(lia)).
  assert (0 <= a / 4 < n / 4) by lia. assert (0 <= b / 4 < n / 4) by lia.
  assert (a mod 4 = b mod 4) by nia. assert (a / 4 = b / 4) by nia. lia.
Qed.

(** A ring has at least one cache line of four slots, and whole lines. *)
Definition ring_size (n : Z) : Prop := 4 <= n /\ n mod 4 = 0.

Lemma slot_of_lt n p : ring_size n -> (slot_of n p < Z.to_nat n)%nat.
Proof.
  intros [Hn Hm]. unfold slot_of.
  pose proof (remap_range n (p mod n) Hm (Z.mod_pos_bound p n ltac:(lia))). lia.
Qed.

Lemma slot_of_inj n p q : ring_size n -> slot_of n p = slot_of n q -> p mod n = q mod n.
Proof.
  intros [Hn Hm] H. unfold slot_of in H.
  pose proof (Z.mod_pos_bound p n ltac:(lia)) as Hp. pose proof (Z.mod_pos_bound q n ltac:(lia)) as Hq.
  pose proof (remap_range n _ Hm Hp). pose proof (remap_range n _ Hm Hq).
  apply (remap_inj n); [done|done|done|]. lia.
Qed.

Lemma slot_of_mod n p q : p mod n = q mod n -> slot_of n p = slot_of n q.
Proof. unfold slot_of. by intros ->. Qed.

(** The slot of a ticket together with its cycle identifies the ticket. *)
Lemma ticket_inj n p q :
  ring_size n -> slot_of n p = slot_of n q -> p / n = q / n -> p = q.
Proof.
  intros Hn Hs Hc. apply (div_mod_inj n); [destruct Hn; lia|done|by apply slot_of_inj].
Qed.

(** Every slot is the slot of some ticket below [n]. *)
Lemma slot_of_surj n (j : nat) :
  ring_size n -> (j < Z.to_nat n)%nat -> exists p, 0 <= p < n /\ slot_of n p = j.
Proof.
  intros [Hn Hm] Hj. set (m := n / 4).
  pose proof (Z.div_mod n 4 ltac:(lia)) as En. fold m in En.
  exists (4 * (Z.of_nat j mod m) + Z.of_nat j / m).
  pose proof (Z.mod_pos_bound (Z.of_nat j) m ltac:(lia)) as Hr.
  pose proof (Z.div_mod (Z.of_nat j) m ltac:(lia)) as Ej.
  assert (0 <= Z.of_nat j / m < 4) as Hq.
  { split; [apply Z.div_pos; lia|apply Z.div_lt_upper_bound; lia]. }
  assert (0 <= 4 * (Z.of_nat j mod m) + Z.of_nat j / m < n) as Hb by lia.
  split; [done|]. unfold slot_of, remap. rewrite (Z.mod_small _ n) by done.
  rewrite land3, !shiftr2. fold m.
  replace ((4 * (Z.of_nat j mod m) + Z.of_nat j / m) mod 4) with (Z.of_nat j / m)
    by (apply Z.mod_unique_pos with (q := Z.of_nat j mod m); lia).
  replace ((4 * (Z.of_nat j mod m) + Z.of_nat j / m) / 4) with (Z.of_nat j mod m)
    by (apply Z.div_unique_pos with (r := Z.of_nat j / m); lia).
  lia.
Qed.

(** In a window of [n] tickets every slot occurs, and only once. *)
Lemma slot_window n lo (j : nat) :
  ring_size n -> (j < Z.to_nat n)%nat -> exists p, lo <= p < lo + n /\ slot_of n p = j.
Proof.
  intros Hn Hj. destruct (slot_of_surj n j Hn Hj) as (p & Hp & <-).
  destruct Hn as [Hn _]. exists (window_pos n lo p).
  split; [apply window_pos_range; lia|]. apply slot_of_mod. apply window_pos_mod. lia.
Qed.

Lemma slot_window_unique n lo p q :
  ring_size n -> lo <= p < lo + n -> lo <= q < lo + n -> slot_of n p = slot_of n q -> p = q.
Proof.
  intros Hn Hp Hq Hs. pose proof Hn as [Hn4 _]. apply (mod_window_unique n lo); try lia.
  by apply slot_of_inj.
Qed.

(** ** Cycles *)

(** Cycles that are less than [2^63] apart are compared as integers. *)
Lemma cycle_less_spec a b :
  0 <= a < two63 -> 0 <= b < two63 -> cycle_less a b = (a <? b).
Proof.
  intros Ha Hb. unfold cycle_less. rewrite i64_diff by (unfold two63 in *; lia).
  apply eq_true_iff_eq. rewrite !Z.ltb_lt. lia.
Qed.

Lemma pack_cycle_flags_val c b :
  0 <= c < two63 -> pack_cycle_flags c b = 2 * c + (if b then 1 else 0).
Proof.
  intros Hc. unfold pack_cycle_flags, shl64.
  rewrite Z.shiftl_mul_pow2 by lia. change (2 ^ 1) with 2.
  rewrite u64_small by (unfold is_u64, two64, two63 in *; lia).
  destruct b; [|rewrite Z.lor_0_r; lia].
  pose proof (Z.add_lor_land (c * 2) 1).
  assert (Z.land (c * 2) 1 = 0); [|lia].
  change 1 with (Z.ones 1). rewrite Z.land_ones by lia. change (2 ^ 1) with 2. apply Z.mod_mul. lia.
Qed.

Lemma unpack_cycle_pack c b : 0 <= c < two63 -> unpack_cycle (pack_cycle_flags c b) = c.
Proof.
  intros Hc. rewrite pack_cycle_flags_val by done. unfold unpack_cycle.
  rewrite Z.shiftr_div_pow2 by lia. change (2 ^ 1) with 2.
  destruct b; symmetry; [apply Z.div_unique_pos with (r := 1)|apply Z.div_unique_pos with (r := 0)]; lia.
Qed.

Lemma unpack_is_safe_pack c b : 0 <= c < two63 -> unpack_is_safe (pack_cycle_flags c b) = b.
Proof.
  intros Hc. rewrite pack_cycle_flags_val by done. unfold unpack_is_safe, kIsSafeMask.
  change 1 with (Z.ones 1) at 2. rewrite Z.land_ones by lia. change (2 ^ 1) with 2.
  rewrite Z.add_comm, Z.mul_comm, Z_mod_plus_full by lia. by destruct b.
Qed.

(** A packed word is determined by its cycle and its flag. *)
Lemma pack_unpack f :
  is_u64 f -> f = pack_cycle_flags (unpack_cycle f) (unpack_is_safe f).
Proof.
  intros Hf. unfold is_u64, two64 in Hf. unfold unpack_cycle, unpack_is_safe, kIsSafeMask.
  rewrite Z.shiftr_div_pow2 by lia. change 1 with (Z.ones 1) at 2.
  rewrite Z.land_ones by lia. change (2 ^ 1) with 2.
  pose proof (Z.div_mod f 2 ltac:(lia)). pose proof (Z.mod_pos_bound f 2 ltac:(lia)).
  rewrite pack_cycle_flags_val by (unfold two63; lia).
  destruct (Z.eqb_spec (f mod 2) 0); simpl; lia.
Qed.

Lemma pack_range c b : 0 <= c < two63 -> is_u64 (pack_cycle_flags c b).
Proof.
  intros Hc. rewrite pack_cycle_flags_val by done.
  unfold is_u64, two64, two63 in *. destruct b; lia.
Qed.

(** The shift loses the top bit of a cycle. *)
Lemma pack_cycle_mod c b : pack_cycle_flags c b = pack_cycle_flags (c mod two63) b.
Proof.
  unfold pack_cycle_flags, shl64. f_equal. rewrite !Z.shiftl_mul_pow2 by lia. unfold u64.
  change two64 with (two63 * 2 ^ 1). rewrite !Z.mul_mod_distr_r by (unfold two63; lia).
  by rewrite Zmod_mod.
Qed.

(** The packing of a cycle with its flag is a bijection: every 64-bit word is
    the packing of its cycle and its flag; packing any 64-bit cycle gives a
    64-bit word that unpacks to the flag and to the low 63 bits of the cycle, so
    nothing is lost while cycles stay below [2^63]. *)
Theorem pack_roundtrip :
  (forall f, is_u64 f -> pack_cycle_flags (unpack_cycle f) (unpack_is_safe f) = f) /\
  forall c b, is_u64 c ->
    is_u64 (pack_cycle_flags c b) /\ unpack_is_safe (pack_cycle_flags c b) = b /\
    unpack_cycle (pack_cycle_flags c b) = c mod two63.
Proof.
  split; [intros f Hf; symmetry; by apply pack_unpack|]. intros c b _.
  pose proof (Z.mod_pos_bound c two63 ltac:(unfold two63; lia)) as Hc.
  rewrite pack_cycle_mod. split_and!; [by apply pack_range|by apply unpack_is_safe_pack|by apply unpack_cycle_pack].
Qed.

Lemma pack_roundtrip_witness :
  is_u64 18446744073709551615 /\
  pack_cycle_flags (unpack_cycle 18446744073709551615) (unpack_is_safe 18446744073709551615) = 18446744073709551615.
Proof.
  split; [unfold is_u64, two64; lia|]. apply (proj1 pack_roundtrip). unfold is_u64, two64. lia.
Defined.

#[export] Hint Rewrite unpack_cycle_pack unpack_is_safe_pack using (unfold two63; lia) : lscq.

(** ** Capacities *)

Lemma round_up_spec v a :
  0 < a -> 0 <= v -> v + a <= two64 ->
  v <= round_up v a < v + a /\ round_up v a mod a = 0.
Proof.
  intros Ha Hv Hb. unfold round_up. unfold two64 in Hb.
  rewrite add64_small by (unfold is_u64, two64; lia).
  pose proof (Z.div_mod (v + (a - 1)) a ltac:(lia)). pose proof (Z.mod_pos_bound (v + (a - 1)) a Ha).
  rewrite u64_small by (unfold is_u64, two64; nia).
  split; [nia|apply Z.mod_mul; lia].
Qed.

Lemma is_power_of_two_pow2 k : 0 <= k < 64 -> is_power_of_two (2 ^ k) = true.
Proof.
  intros Hk. unfold is_power_of_two.
  assert (0 < 2 ^ k) by (apply Z.pow_pos_nonneg; lia).
  assert (2 ^ k < two64) by (change two64 with (2 ^ 64); apply Z.pow_lt_mono_r; lia).
  rewrite sub64_small by (unfold is_u64; lia).
  rewrite Z.sub_1_r, <- Z.ones_equiv, Z.land_ones, Z.mod_same by lia.
  destruct (Z.eqb_spec (2 ^ k) 0); [lia|done].
Qed.

(** The bit test recognises exactly the powers of two. *)
Lemma is_power_of_two_inv v :
  is_u64 v -> is_power_of_two v = true -> exists k, 0 <= k < 64 /\ v = 2 ^ k.
Proof.
  unfold is_power_of_two, is_u64. intros Hv H. bool_hyps.
  exists (Z.log2 v). assert (0 < v) as Hp by lia.
  assert (0 <= Z.log2 v < 64) as Hl.
  { split; [apply Z.log2_nonneg|]. apply Z.log2_lt_pow2; [done|]. change (2 ^ 64) with two64. lia. }
  split; [done|].
  destruct (Z.log2_spec v Hp) as [Hlo Hhi].
  destruct (Z.eq_dec v (2 ^ Z.log2 v)) as [|Hne]; [done|exfalso].
  rewrite sub64_small in * by (unfold is_u64, two64 in *; lia).
  assert (Z.log2 (v - 1) = Z.log2 v) as Hl1 by (apply Z.log2_unique; lia).
  assert (Z.testbit (Z.land v (v - 1)) (Z.log2 v) = true) as Ht.
  { rewrite Z.land_spec. rewrite Z.bit_log2 by done.
    rewrite <- Hl1. rewrite Z.bit_log2; [done|]. lia. }
  rewrite H0 in Ht. by rewrite Z.testbit_0_l in Ht.
Qed.

Lemma shl64_1 x : 0 <= x < two63 -> shl64 x 1 = 2 * x.
Proof.
  intros Hx. unfold shl64. rewrite Z.shiftl_mul_pow2 by lia. change (2 ^ 1) with 2.
  rewrite u64_small by (unfold is_u64, two64, two63 in *; lia). lia.
Qed.

Lemma round_up_pow2_loop_spec fuel v k :
  0 <= k -> v <= two63 -> (k = 0 \/ 2 ^ (k - 1) < v) -> 63 < k + Z.of_nat fuel -> k <= 63 ->
  exists m, k <= m <= 63 /\ round_up_pow2_loop fuel v (2 ^ k) = Some (2 ^ m) /\
            v <= 2 ^ m /\ (m = 0 \/ 2 ^ (m - 1) < v).
Proof.
  revert k. induction fuel as [|fuel IH]; intros k Hk Hv Hmin Hf Hk63; [lia|]. simpl.
  destruct (Z.ltb_spec (2 ^ k) v) as [Hlt|Hge].
  - assert (k < 63) as Hk62.
    { destruct (Z.eq_dec k 63) as [->|]; [|lia]. change (2 ^ 63) with two63 in Hlt. lia. }
    assert (2 ^ k < two63) by (change two63 with (2 ^ 63); apply Z.pow_lt_mono_r; lia).
    rewrite shl64_1 by (pose proof (Z.pow_pos_nonneg 2 k); lia).
    rewrite <- Z.pow_succ_r by lia.
    destruct (IH (Z.succ k)) as (m & Hm & Hr & Hb & Hl); try lia.
    { right. by replace (Z.succ k - 1) with k by lia. }
    exists m. split_and!; try done; lia.
  - exists k. split_and!; try done; lia.
Qed.

(** Up to [2^63], [round_up_pow2] returns the least power of two that is at
    least its argument; 64 iterations are enough. *)
Lemma round_up_pow2_spec fuel v :
  (64 <= fuel)%nat -> 0 <= v <= two63 ->
  exists m, 0 <= m <= 63 /\ round_up_pow2 fuel v = Some (2 ^ m) /\ v <= 2 ^ m /\
            (m = 0 \/ 2 ^ (m - 1) < v).
Proof.
  intros Hf Hv. unfold round_up_pow2.
  destruct (Z.leb_spec v 1) as [H1|H1].
  { exists 0. split_and!; try lia. done. }
  destruct (is_power_of_two v) eqn:Hp.
  - apply is_power_of_two_inv in Hp as (k & Hk & ->); [|unfold is_u64, two64, two63 in *; lia].
    assert (k <= 63) by (apply (Z.pow_le_mono_r_iff 2); [lia|lia|]; change (2 ^ 63) with two63; lia).
    exists k. split_and!; try lia; [done|]. right. apply Z.pow_lt_mono_r; lia.
  - destruct (round_up_pow2_loop_spec fuel v 0) as (m & Hm & Hr & Hb & Hl); try lia.
    exists m. split_and!; try done; lia.
Qed.

Lemma round_up_pow2_loop_zero fuel v : 0 < v -> round_up_pow2_loop fuel v 0 = None.
Proof.
  intros Hv. induction fuel as [|fuel IH]; [done|]. simpl.
  destruct (Z.ltb_spec 0 v); [|lia]. apply IH.
Qed.

(** Above [2^63] the doubling overflows to zero and the loop never ends. *)
Lemma round_up_pow2_loop_overflow fuel v k :
  0 <= k <= 63 -> two63 < v -> round_up_pow2_loop fuel v (2 ^ k) = None.
Proof.
  revert k. induction fuel as [|fuel IH]; intros k Hk Hv; [done|]. simpl.
  assert (2 ^ k <= two63) by (change two63 with (2 ^ 63); apply Z.pow_le_mono_r; lia).
  destruct (Z.ltb_spec (2 ^ k) v); [|lia].
  destruct (Z.eq_dec k 63) as [->|Hne].
  - change (shl64 (2 ^ 63) 1) with 0. apply round_up_pow2_loop_zero. unfold two63 in *. lia.
  - assert (2 ^ k < two63) by (change two63 with (2 ^ 63); apply Z.pow_lt_mono_r; lia).
    rewrite shl64_1 by (pose proof (Z.pow_pos_nonneg 2 k); lia).
    rewrite <- Z.pow_succ_r by lia. apply IH; lia.
Qed.

Lemma round_up_pow2_diverges fuel v :
  two63 < v < two64 -> round_up_pow2 fuel v = None.
Proof.
  intros Hv. unfold round_up_pow2.
  destruct (Z.leb_spec v 1) as [H1|H1]; [unfold two63 in *; lia|].
  destruct (is_power_of_two v) eqn:Hp.
  - apply is_power_of_two_inv in Hp as (k & Hk & ->); [|unfold is_u64, two63 in *; lia].
    change two63 with (2 ^ 63) in Hv. destruct Hv as [Hv _].
    apply Z.pow_lt_mono_r_iff in Hv; lia.
  - change 1 with (2 ^ 0). apply round_up_pow2_loop_overflow; lia.
Qed.

(** A power of two of at least four slots is a ring size. *)
Lemma ring_size_pow2 m : 2 <= m -> ring_size (2 ^ m).
Proof.
  intros Hm. replace m with (2 + (m - 2)) by lia. rewrite Z.pow_add_r by lia.
  pose proof (Z.pow_pos_nonneg 2 (m - 2)). split; [lia|].
  rewrite Z.mul_comm. by apply Z.mod_mul.
Qed.

(** ** Rings of a power of two: shifts and masks instead of division *)

Lemma shiftr_pow2 t k : 0 <= k -> Z.shiftr t k = t / 2 ^ k.
Proof. intros Hk. by rewrite Z.shiftr_div_pow2. Qed.

Lemma land_pow2_mask t k : 0 <= k -> Z.land t (2 ^ k - 1) = t mod 2 ^ k.
Proof. intros Hk. by rewrite Z.sub_1_r, <- Z.ones_equiv, Z.land_ones. Qed.

(** Setting all index bits erases an index. *)
Lemma lor_pow2_mask v k : 0 <= k -> 0 <= v < 2 ^ k -> Z.lor v (2 ^ k - 1) = 2 ^ k - 1.
Proof.
  intros Hk Hv. rewrite Z.sub_1_r, <- Z.ones_equiv.
  destruct (Z.eq_dec v 0) as [->|Hne]; [done|].
  apply Z.lor_ones_low; [lia|]. apply Z.log2_lt_pow2; lia.
Qed.

(** Cycles of rings of at least four slots are far below [2^63]. *)
Lemma cycle_range n p : 4 <= n -> 0 <= p < two64 -> 0 <= p / n < two63 / 2.
Proof.
  intros Hn Hp. split; [apply Z.div_pos; lia|]. apply Z.div_lt_upper_bound; [lia|].
  change (two63 / 2) with 4611686018427387904. unfold two64 in Hp. nia.
Qed.

(** Writing back what was read changes nothing. *)
Lemma list_insert_total_id {A} `{Inhabited A} (l : list A) i : <[i := l !!! i]> l = l.
Proof.
  destruct (l !! i) as [e|] eqn:He.
  - rewrite (list_lookup_total_correct _ _ _ He). by apply list_insert_id.
  - apply list_insert_ge. by apply lookup_ge_None.
Qed.
