(* ===== verification/TicketRing.v ===== *)
(** * TicketRing: the protocol of tickets and slots of [SCQ] and [SCQP]

    [SCQ<T>] and both modes of [SCQP<T>] run the same protocol on different
    words: an enqueuer draws a ticket from the tail and stores its value in the
    slot of the ticket when the slot is free and older; a dequeuer draws a
    ticket from the head and consumes the value of exactly that ticket, or
    advances the free slot, or marks an older value unsafe.  This file states
    the protocol on abstract cells (cycle, safe flag, optional value) together
    with the history of the tickets, and proves that each of its steps keeps
    the invariant [ring_inv]; the components show that their compare-and-swaps
    are these steps. *)

From stdpp Require Import base list numbers option sorting.
From Stdlib Require Import ZArith Lia.
From S2P Require Import Prelude Conc Fifo Ring.

Local Open Scope Z_scope.

Create Rewrite HintDb tickets.

(** ** Events *)

(** A ticket drawn from the head or from the tail; a value stored with ticket
    [t]; the value of ticket [t] consumed.  The last three belong to the array of
    pointers next to the slots in the fallback of [SCQP]: an enqueuer with ticket
    [t] writes its pointer to the array, or takes it back; a dequeuer with ticket
    [t] takes the pointer out. *)
Inductive tev : Type :=
| TakeHead (t : Z)
| TakeTail (t : Z)
| PutAt (t v : Z)
| GetAt (t v : Z)
| HoldPtr (t v : Z)
| FreePtr (t : Z)
| TakePtr (t v : Z).

#[global] Instance tev_eq_dec : EqDecision tev.
Proof. solve_decision. Defined.

(** The events on the ring itself, without those on the array of pointers. *)
Definition tick (e : tev) : Prop :=
  match e with HoldPtr _ _ | FreePtr _ | TakePtr _ _ => False | _ => True end.

#[global] Instance tick_dec e : Decision (tick e).
Proof. destruct e; apply _. Defined.

Definition ticks (es : list tev) : list tev := filter tick es.

Definition head_tickets (es : list tev) : list Z :=
  omap (fun e => match e with TakeHead t => Some t | _ => None end) es.

Definition tail_tickets (es : list tev) : list Z :=
  omap (fun e => match e with TakeTail t => Some t | _ => None end) es.

Definition put_tickets (es : list tev) : list Z :=
  omap (fun e => match e with PutAt t _ => Some t | _ => None end) es.

Definition get_tickets (es : list tev) : list Z :=
  omap (fun e => match e with GetAt t _ => Some t | _ => None end) es.

Lemma elem_put_tickets es t : t ∈ put_tickets es <-> exists v, PutAt t v ∈ es.
Proof.
  unfold put_tickets. rewrite list_elem_of_omap. split.
  - intros ([] & Hin & Heq); simplify_eq. eauto.
  - intros [v Hin]. eauto.
Qed.

Lemma elem_get_tickets es t : t ∈ get_tickets es <-> exists v, GetAt t v ∈ es.
Proof.
  unfold get_tickets. rewrite list_elem_of_omap. split.
  - intros ([] & Hin & Heq); simplify_eq. eauto.
  - intros [v Hin]. eauto.
Qed.

Lemma elem_tail_tickets es t : t ∈ tail_tickets es <-> TakeTail t ∈ es.
Proof.
  unfold tail_tickets. rewrite list_elem_of_omap. split.
  - intros ([] & Hin & Heq); simplify_eq. eauto.
  - intros Hin. eauto.
Qed.

Lemma elem_head_tickets es t : t ∈ head_tickets es <-> TakeHead t ∈ es.
Proof.
  unfold head_tickets. rewrite list_elem_of_omap. split.
  - intros ([] & Hin & Heq); simplify_eq. eauto.
  - intros Hin. eauto.
Qed.

Lemma head_tickets_app es fs : head_tickets (es ++ fs) = head_tickets es ++ head_tickets fs.
Proof. apply omap_app. Qed.

Lemma tail_tickets_app es fs : tail_tickets (es ++ fs) = tail_tickets es ++ tail_tickets fs.
Proof. apply omap_app. Qed.

Lemma put_tickets_app es fs : put_tickets (es ++ fs) = put_tickets es ++ put_tickets fs.
Proof. apply omap_app. Qed.

Lemma get_tickets_app es fs : get_tickets (es ++ fs) = get_tickets es ++ get_tickets fs.
Proof. apply omap_app. Qed.

#[export] Hint Rewrite head_tickets_app tail_tickets_app put_tickets_app get_tickets_app : tickets.

(** Split the ticket lists of a history that was extended by one event. *)
Ltac tickets := autorewrite with tickets; simpl; rewrite ?app_nil_r.

(** What a completed operation has done.  A successful enqueue drew tickets and
    stored its value, once, with the last of them; a successful dequeue drew
    tickets and consumed the value of the last of them; the other results come
    with no effect but the drawing of tickets.  [reject v ts] is the condition
    under which a component may refuse [v] after drawing [ts]. *)
Section tgood.
Context (valid : Z -> Prop) (empty : Z) (reject : Z -> list Z -> Prop).

Definition tgood (o : qop Z) (es : list tev) (r : qres Z) : Prop :=
  match o with
  | OpEnq v =>
      (valid v /\ r = RBool true /\
         exists ts t, es = (TakeTail <$> ts) ++ [TakeTail t] ++ [PutAt t v]) \/
      (r = RBool false /\ exists ts, reject v ts /\ es = TakeTail <$> ts)
  | OpDeq =>
      (exists hs t v, valid v /\ r = RVal v /\
         es = (TakeHead <$> hs) ++ [TakeHead t] ++ [GetAt t v]) \/
      (r = RVal empty /\ exists hs, es = TakeHead <$> hs)
  end.

End tgood.

(** ** Cells *)

Record cell := mkCell {
  cyc : Z;
  safe : bool;
  val : option Z
}.

#[global] Instance cell_inhabited : Inhabited cell := populate (mkCell 0 true None).

Section ring.
Context {Op R : Type} (n : Z).
Hypothesis (Hn : ring_size n).

Abbreviation thist := (list (hev tev Op R)).

Record ring_inv (cells : list cell) (hd tl : Z) (h : thist) : Prop := {
  ri_len : length cells = Z.to_nat n;
  ri_hd : n <= hd;
  ri_heads : head_tickets (events h) = seqZ n (hd - n);
  ri_tails : StronglySorted Z.lt (tail_tickets (events h)) /\
             Forall (fun t => t < tl) (tail_tickets (events h));
  ri_owner i j t : HLin i (TakeHead t) ∈ h -> HLin j (TakeHead t) ∈ h -> i = j;
  ri_cyc p : 0 <= cyc (cells !!! slot_of n p) < two63;
  ri_put t v : PutAt t v ∈ events h ->
    t / n <= cyc (cells !!! slot_of n t) /\
    (GetAt t v ∈ events h \/ exists b, cells !!! slot_of n t = mkCell (t / n) b (Some v));
  ri_cell p b v : cells !!! slot_of n p = mkCell (p / n) b (Some v) ->
    PutAt p v ∈ events h /\ p ∉ get_tickets (events h);
  ri_get i t v : HLin i (GetAt t v) ∈ h -> PutAt t v ∈ events h /\ HLin i (TakeHead t) ∈ h;
  ri_puts : NoDup (put_tickets (events h));
  ri_gets : NoDup (get_tickets (events h));
  ri_low t v : PutAt t v ∈ events h -> n <= t
}.

Lemma ri_slot_lt cells hd tl h p : ring_inv cells hd tl h -> (slot_of n p < length cells)%nat.
Proof. intros HI. rewrite (ri_len _ _ _ _ HI). by apply slot_of_lt. Qed.

(** The holder of a head ticket that has not consumed it is the only thread
    that can. *)
Definition holds (i : nat) (t : Z) (h : thist) : Prop :=
  HLin i (TakeHead t) ∈ h /\ forall v, HLin i (GetAt t v) ∉ h.

Lemma holds_fresh cells hd tl h i t :
  ring_inv cells hd tl h -> holds i t h -> t ∉ get_tickets (events h).
Proof.
  intros HI [Ht Hg] Hin. apply elem_get_tickets in Hin as [v Hin].
  apply elem_events in Hin as [j Hin].
  destruct (ri_get _ _ _ _ HI j t v Hin) as [_ Hj].
  rewrite (ri_owner _ _ _ _ HI i j t Ht Hj) in Hg. by apply (Hg v).
Qed.

Lemma holds_step i j t h h' : j <> i -> hist_step j h h' -> holds i t h -> holds i t h'.
Proof.
  intros Hj Hh [Ht Hg]. split; [by apply (hist_step_own j i h)|].
  intros v Hin. apply (Hg v). by apply (hist_step_own j i h h').
Qed.

Lemma head_ticket_range cells hd tl h i t :
  ring_inv cells hd tl h -> HLin i (TakeHead t) ∈ h -> n <= t < hd.
Proof.
  intros HI Hin. assert (t ∈ head_tickets (events h)) as Ht.
  { apply elem_head_tickets, elem_events. eauto. }
  rewrite (ri_heads _ _ _ _ HI) in Ht. apply elem_of_seqZ in Ht. lia.
Qed.

(** A stored value that is not consumed is the content of its cell. *)
Lemma put_in_cell cells hd tl h t v :
  ring_inv cells hd tl h -> PutAt t v ∈ events h -> t ∉ get_tickets (events h) ->
  exists b, cells !!! slot_of n t = mkCell (t / n) b (Some v).
Proof.
  intros HI Hp Hg. destruct (ri_put _ _ _ _ HI t v Hp) as [_ [Hin|?]]; [|done].
  destruct Hg. apply elem_get_tickets. eauto.
Qed.

(** Two tickets whose slot holds a value of the same cycle are one. *)
Lemma slot_ticket p q : slot_of n p = slot_of n q -> p / n = q / n -> p = q.
Proof. by apply ticket_inj. Qed.

(** ** Steps *)

(** Calls and returns leave the ring as it is. *)
Lemma ring_ghost cells hd tl h i e :
  ~ tick e -> ring_inv cells hd tl h -> ring_inv cells hd tl (h ++ [HLin i e]).
Proof.
  intros He HI.
  assert (forall e', tick e' -> forall j, HLin j e' ∈ h ++ [HLin i e] <-> HLin j e' ∈ h) as Hl.
  { intros e' Ht j. rewrite elem_lin_snoc. naive_solver. }
  assert (forall e', tick e' -> e' ∈ events (h ++ [HLin i e]) <-> e' ∈ events h) as Hel.
  { intros e' Ht. rewrite events_snoc, elem_ev_snoc. naive_solver. }
  assert (head_tickets [e] = [] /\ tail_tickets [e] = [] /\ put_tickets [e] = [] /\ get_tickets [e] = [])
    as (H1 & H2 & H3 & H4) by (by destruct e; simpl in He; tauto).
  destruct HI. split; rewrite ?events_snoc, ?head_tickets_app, ?tail_tickets_app, ?put_tickets_app,
    ?get_tickets_app, ?H1, ?H2, ?H3, ?H4, ?app_nil_r; try done.
  - intros j j' t. rewrite !Hl by done. eauto.
  - intros t v. rewrite <- events_snoc with (i := i). rewrite !Hel by done. eauto.
  - intros p b v Hc. rewrite <- events_snoc with (i := i). rewrite !Hel by done. eauto.
  - intros j t v. rewrite <- events_snoc with (i := i). rewrite !Hl, Hel by done. eauto.
  - intros t v. rewrite <- events_snoc with (i := i). rewrite Hel by done. eauto.
Qed.

Lemma ring_other cells hd tl h x :
  (forall i e, x <> HLin i e) -> ring_inv cells hd tl h -> ring_inv cells hd tl (h ++ [x]).
Proof.
  intros Hx HI.
  assert (events (h ++ [x]) = events h) as He.
  { rewrite events_app. destruct x; simpl; rewrite ?app_nil_r; try done. by destruct (Hx i e). }
  assert (forall i e, HLin i e ∈ h ++ [x] <-> HLin i e ∈ h) as Hel.
  { intros i e. rewrite elem_of_app, list_elem_of_singleton. split; [|by left].
    intros [?|<-]; [done|by destruct (Hx i e)]. }
  destruct HI. split; rewrite ?He; try done.
  - intros i j t. rewrite !Hel. eauto.
  - intros i t v. rewrite !Hel. eauto.
Qed.

(** A step that changes the contents of one cell only, without an event: free
    cells advance their cycle, cells with a value may become unsafe. *)
Lemma ring_advance cells hd tl h t c b :
  ring_inv cells hd tl h -> cells !!! slot_of n t = mkCell c b None ->
  c <= t / n -> 0 <= t / n < two63 ->
  ring_inv (<[slot_of n t := mkCell (t / n) b None]> cells) hd tl h.
Proof.
  intros HI Hc Hle Hr. pose proof (ri_slot_lt _ _ _ _ t HI) as Hlt. destruct HI.
  split; rewrite ?length_insert; try done.
  - intros p. destruct (decide (slot_of n p = slot_of n t)) as [->|Hne].
    + by rewrite list_lookup_total_insert_eq.
    + by rewrite list_lookup_total_insert_ne by done.
  - intros p v Hp. destruct (ri_put0 p v Hp) as [H1 H2].
    destruct (decide (slot_of n p = slot_of n t)) as [Heq|Hne].
    + rewrite Heq, list_lookup_total_insert_eq by done. rewrite Heq, Hc in H1, H2. simpl in *.
      split; [lia|]. destruct H2 as [?|[b' ?]]; [by left|done].
    + by rewrite list_lookup_total_insert_ne by done.
  - intros p b' v. destruct (decide (slot_of n p = slot_of n t)) as [Heq|Hne].
    + by rewrite Heq, list_lookup_total_insert_eq.
    + rewrite list_lookup_total_insert_ne by done. eauto.
Qed.

Lemma ring_unsafe cells hd tl h t c b v :
  ring_inv cells hd tl h -> cells !!! slot_of n t = mkCell c b (Some v) ->
  ring_inv (<[slot_of n t := mkCell c false (Some v)]> cells) hd tl h.
Proof.
  intros HI Hc. pose proof (ri_slot_lt _ _ _ _ t HI) as Hlt. destruct HI.
  split; rewrite ?length_insert; try done.
  - intros p. destruct (decide (slot_of n p = slot_of n t)) as [->|Hne].
    + rewrite list_lookup_total_insert_eq by done. specialize (ri_cyc0 t). by rewrite Hc in ri_cyc0.
    + by rewrite list_lookup_total_insert_ne by done.
  - intros p v' Hp. destruct (ri_put0 p v' Hp) as [H1 H2].
    destruct (decide (slot_of n p = slot_of n t)) as [Heq|Hne].
    + rewrite Heq, list_lookup_total_insert_eq by done. rewrite Heq, Hc in H1, H2. simpl in *.
      split; [done|]. destruct H2 as [?|[b' ?]]; [by left|]. right. exists false. by simplify_eq.
    + by rewrite list_lookup_total_insert_ne by done.
  - intros p b' v'. destruct (decide (slot_of n p = slot_of n t)) as [Heq|Hne].
    + rewrite Heq, list_lookup_total_insert_eq by done. intros [= Hpc Hb Hv].
      apply (ri_cell0 p b v'). rewrite Heq, Hc. by subst.
    + rewrite list_lookup_total_insert_ne by done. eauto.
Qed.

(** What a dequeuer with ticket [t] makes of an older cell. *)
Definition older (t : Z) (c : cell) : cell :=
  match val c with None => mkCell (t / n) (safe c) None | Some _ => mkCell (cyc c) false (val c) end.

Lemma ring_older cells hd tl h t :
  0 <= t / n < two63 -> cyc (cells !!! slot_of n t) < t / n -> ring_inv cells hd tl h ->
  ring_inv (<[slot_of n t := older t (cells !!! slot_of n t)]> cells) hd tl h.
Proof.
  intros Ht Hlt HI. unfold older. destruct (cells !!! slot_of n t) as [c b [v|]] eqn:E; simpl in *.
  - by apply (ring_unsafe _ _ _ _ _ c b).
  - apply (ring_advance _ _ _ _ _ c); [done|done|lia|done].
Qed.

(** Drawing tickets. *)
Lemma ring_draw_tail cells hd tl tl' h i :
  ring_inv cells hd tl h -> tl < tl' -> ring_inv cells hd tl' (h ++ [HLin i (TakeTail tl)]).
Proof.
  intros HI Hlt. destruct HI. destruct ri_tails0 as [Hs Hf].
  split; rewrite ?events_snoc; tickets; try done.
  - split.
    + apply StronglySorted_app_2; [|done|repeat constructor].
      intros x y Hx ->%list_elem_of_singleton. by apply (proj1 (Forall_forall _ _) Hf).
    + apply Forall_app. split; [|by rewrite Forall_singleton].
      eapply Forall_impl; [exact Hf|]. simpl. intros. lia.
  - intros j j' t. rewrite !elem_lin_snoc. naive_solver.
  - intros t v. rewrite !elem_ev_snoc. naive_solver.
  - intros p b v. rewrite !elem_ev_snoc. naive_solver.
  - intros j t v. rewrite !elem_lin_snoc, elem_ev_snoc. naive_solver.
  - intros t v. rewrite elem_ev_snoc. naive_solver.
Qed.

Lemma ring_tail_forward cells hd tl tl' h :
  ring_inv cells hd tl h -> tl <= tl' -> ring_inv cells hd tl' h.
Proof.
  intros HI Hle. destruct HI. destruct ri_tails0 as [Hs Hf]. split; try done.
  split; [done|]. eapply Forall_impl; [exact Hf|]. simpl. intros. lia.
Qed.

Lemma ring_draw_head cells hd tl h i :
  ring_inv cells hd tl h ->
  ring_inv cells (hd + 1) tl (h ++ [HLin i (TakeHead hd)]) /\ holds i hd (h ++ [HLin i (TakeHead hd)]).
Proof.
  intros HI.
  assert (forall j, HLin j (TakeHead hd) ∉ h) as Hnew.
  { intros j Hin. pose proof (head_ticket_range _ _ _ _ _ _ HI Hin). lia. }
  split.
  - destruct HI. split; rewrite ?events_snoc; tickets; try done; try lia.
    + rewrite ri_heads0. replace (hd + 1 - n) with (Z.of_nat (S (Z.to_nat (hd - n)))) by lia.
      rewrite seqZ_S, Z2Nat.id by lia. by replace (n + (hd - n)) with hd by lia.
    + intros j j' t. rewrite !elem_lin_snoc. naive_solver.
    + intros t v. rewrite !elem_ev_snoc. naive_solver.
    + intros p b v. rewrite !elem_ev_snoc. naive_solver.
    + intros j t v. rewrite !elem_lin_snoc, elem_ev_snoc. naive_solver.
    + intros t v. rewrite elem_ev_snoc. naive_solver.
  - split; [by apply elem_lin_snoc; right|].
    intros v [Hin|[_ [=]]]%elem_lin_snoc.
    destruct (ri_get _ _ _ _ HI _ _ _ Hin) as [_ Ht]. by apply (Hnew i).
Qed.

(** Storing a value in a free, older cell. *)
Lemma ring_store cells hd tl h i t v c b :
  ring_inv cells hd tl h -> cells !!! slot_of n t = mkCell c b None ->
  c < t / n -> 0 <= t / n < two63 ->
  ring_inv (<[slot_of n t := mkCell (t / n) true (Some v)]> cells) hd tl (h ++ [HLin i (PutAt t v)]).
Proof.
  intros HI Hc Hlt Hr. pose proof (ri_slot_lt _ _ _ _ t HI) as Hsl.
  assert (forall v', PutAt t v' ∉ events h) as Hnew.
  { intros v' Hin. destruct (ri_put _ _ _ _ HI t v' Hin) as [Hle _]. rewrite Hc in Hle. simpl in Hle. lia. }
  assert (t ∉ get_tickets (events h)) as Hng.
  { intros Hin. apply elem_get_tickets in Hin as [v' Hin]. apply elem_events in Hin as [j Hin].
    destruct (ri_get _ _ _ _ HI _ _ _ Hin) as [Hp _]. by apply (Hnew v'). }
  destruct HI. split; rewrite ?length_insert, ?events_snoc; tickets; try done.
  - intros j j' p. rewrite !elem_lin_snoc. naive_solver.
  - intros p. destruct (decide (slot_of n p = slot_of n t)) as [->|Hne].
    + by rewrite list_lookup_total_insert_eq.
    + by rewrite list_lookup_total_insert_ne by done.
  - intros p v'. rewrite !elem_ev_snoc. intros [Hp|[= -> ->]].
    + destruct (ri_put0 p v' Hp) as [H1 H2].
      destruct (decide (slot_of n p = slot_of n t)) as [Heq|Hne].
      * rewrite Heq, list_lookup_total_insert_eq by done. rewrite Heq, Hc in H1, H2. simpl in *.
        split; [lia|]. destruct H2 as [?|[b' ?]]; [by left; left|done].
      * rewrite list_lookup_total_insert_ne by done. split; [done|]. destruct H2; eauto.
    + rewrite list_lookup_total_insert_eq by done. split; [done|]. right. by exists true.
  - intros p b' v'. rewrite elem_ev_snoc. destruct (decide (slot_of n p = slot_of n t)) as [Heq|Hne].
    + rewrite Heq, list_lookup_total_insert_eq by done. intros [= Hpc _ Hv].
      rewrite (slot_ticket p t Heq) by done. subst. by split; [right|].
    + rewrite list_lookup_total_insert_ne by done. naive_solver.
  - intros j p v'. rewrite !elem_lin_snoc, elem_ev_snoc. naive_solver.
  - apply NoDup_app. split_and!; [done| |apply NoDup_singleton].
    intros p Hp ->%list_elem_of_singleton. apply elem_put_tickets in Hp as [v' Hp]. by apply (Hnew v').
  - intros p v'. rewrite elem_ev_snoc. intros [?|[= -> ->]]; [eauto|].
    specialize (ri_cyc0 t). rewrite Hc in ri_cyc0. simpl in ri_cyc0. destruct Hn as [Hn4 _].
    pose proof (Z.mul_div_le t n ltac:(lia)). nia.
Qed.

(** Consuming the value of the ticket one holds. *)
Lemma ring_consume cells hd tl h i t b v :
  ring_inv cells hd tl h -> holds i t h -> cells !!! slot_of n t = mkCell (t / n) b (Some v) ->
  ring_inv (<[slot_of n t := mkCell (t / n) b None]> cells) hd tl (h ++ [HLin i (GetAt t v)]).
Proof.
  intros HI Hh Hc. pose proof (ri_slot_lt _ _ _ _ t HI) as Hsl.
  pose proof (holds_fresh _ _ _ _ _ _ HI Hh) as Hng. destruct Hh as [Ht _].
  pose proof (ri_cell _ _ _ _ HI t b v Hc) as [Hp _]. pose proof (ri_cyc _ _ _ _ HI t) as Hcy.
  rewrite Hc in Hcy. simpl in Hcy.
  destruct HI. split; rewrite ?length_insert, ?events_snoc; tickets; try done.
  - intros j j' p. rewrite !elem_lin_snoc. naive_solver.
  - intros p. destruct (decide (slot_of n p = slot_of n t)) as [->|Hne].
    + by rewrite list_lookup_total_insert_eq.
    + by rewrite list_lookup_total_insert_ne by done.
  - intros p v'. rewrite !elem_ev_snoc. intros [Hp'|[=]].
    destruct (ri_put0 p v' Hp') as [H1 H2].
    destruct (decide (slot_of n p = slot_of n t)) as [Heq|Hne].
    + rewrite Heq, list_lookup_total_insert_eq by done. rewrite Heq, Hc in H1, H2. simpl in *.
      split; [done|]. left. destruct H2 as [?|[b' [= Hpc Hb Hv]]]; [by left|right].
      rewrite (slot_ticket p t Heq) by done. by subst.
    + rewrite list_lookup_total_insert_ne by done. split; [done|]. destruct H2; eauto.
  - intros p b' v'. rewrite elem_ev_snoc. destruct (decide (slot_of n p = slot_of n t)) as [Heq|Hne].
    + by rewrite Heq, list_lookup_total_insert_eq.
    + rewrite list_lookup_total_insert_ne by done. intros Hcell.
      destruct (ri_cell0 p b' v' Hcell) as [H1 H2]. split; [by left|].
      intros [Hin| ->%list_elem_of_singleton]%elem_of_app; done.
  - intros j p v'. rewrite !elem_lin_snoc, elem_ev_snoc. naive_solver.
  - apply NoDup_app. split_and!; [done| |apply NoDup_singleton].
    intros p Hp' ->%list_elem_of_singleton. done.
  - intros p v'. rewrite elem_ev_snoc. naive_solver.
Qed.

(** A new ring: every cell free with cycle zero, head and tail at [n]. *)
Lemma ring_start : ring_inv (replicate (Z.to_nat n) (mkCell 0 true None)) n n [].
Proof.
  split; simpl; rewrite ?length_replicate; try done.
  - by rewrite Z.sub_diag.
  - split; constructor.
  - intros i j t Hin. by apply elem_of_nil in Hin.
  - intros p. rewrite lookup_total_replicate_2 by by apply slot_of_lt. done.
  - intros t v Hin. by apply elem_of_nil in Hin.
  - intros p b v. by rewrite lookup_total_replicate_2 by by apply slot_of_lt.
  - intros i t v Hin. by apply elem_of_nil in Hin.
  - constructor.
  - constructor.
  - intros t v Hin. by apply elem_of_nil in Hin.
Qed.

End ring.
