(* ===== verification/TicketLeave.v ===== *)
(** * TicketLeave: leaving a ticket of the ring without a value

    A dequeuer that leaves its ticket [t] without a value must be sure that no
    enqueuer stores a value with [t] later: nobody would look for it.  On the
    cells of [TicketRing] there are two ways to be sure: the cycle of the cell
    has reached that of [t], or the cell is unsafe.  An enqueuer that finds an
    unsafe free cell looks at the head, and the head was already beyond [t] when
    the cell lost its last value, at [wmark].  [closed] is that knowledge, and
    the steps of the protocol keep it. *)

From stdpp Require Import base list numbers option.
From Stdlib Require Import ZArith Lia.
From S2P Require Import Prelude Conc Fifo Ring TicketRing.

Local Open Scope Z_scope.

Section leave.
Context {Op R : Type} (n : Z).
Hypothesis (Hn : ring_size n).

Abbreviation thist := (list (hev tev Op R)).
Abbreviation slot := (slot_of n).

(** The head when a value of the slot was consumed for the last time. *)
Definition wmark1 (st : Z * (nat -> Z)) (e : tev) : Z * (nat -> Z) :=
  match e with
  | TakeHead _ => (st.1 + 1, st.2)
  | GetAt t _ => (st.1, fun j => if decide (j = slot t) then st.1 else st.2 j)
  | _ => st
  end.

Definition wmark (es : list tev) : nat -> Z := (foldl wmark1 (n, fun _ => 0) es).2.

Lemma wmark_head es : (foldl wmark1 (n, fun _ => 0) es).1 = n + Z.of_nat (length (head_tickets es)).
Proof.
  induction es as [|e es IH] using rev_ind; [simpl; lia|].
  rewrite foldl_app, head_tickets_app, length_app. simpl. destruct e; simpl; rewrite IH; lia.
Qed.

Lemma wmark_get es t v j :
  wmark (es ++ [GetAt t v]) j =
  if decide (j = slot t) then n + Z.of_nat (length (head_tickets es)) else wmark es j.
Proof. unfold wmark. rewrite foldl_app. simpl. by rewrite wmark_head. Qed.

Lemma wmark_other es e : (forall t v, e <> GetAt t v) -> wmark (es ++ [e]) = wmark es.
Proof. intros He. unfold wmark. rewrite foldl_app. simpl. destruct e; try done. by destruct (He t v). Qed.

Lemma wmark_le es j : 0 < n -> wmark es j <= n + Z.of_nat (length (head_tickets es)).
Proof.
  intros Hp. induction es as [|e es IH] using rev_ind; [unfold wmark; simpl; lia|].
  rewrite head_tickets_app, length_app. destruct e as [t|t|t v|t v|t v|t|t v];
    try (rewrite wmark_other by done; lia).
  rewrite wmark_get. case_decide; lia.
Qed.

(** Nobody will store a value with ticket [t]. *)
Definition closed_cell (c : cell) (w t : Z) : Prop :=
  t / n <= cyc c \/ (safe c = false /\ (val c = None -> t < w)).

Definition closed (cells : list cell) (hd : Z) (h : thist) (t : Z) : Prop :=
  ((t ∉ put_tickets (events h)) /\ t < hd) /\ closed_cell (cells !!! slot t) (wmark (events h) (slot t)) t.

(** How one step may change the ring: closed tickets stay closed, cycles grow,
    and a free cell changes only by a larger cycle. *)
Record evolves (cells : list cell) (hd : Z) (h : thist) (cells' : list cell) (hd' : Z) (h' : thist) : Prop := {
  ev_closed t : closed cells hd h t -> closed cells' hd' h' t;
  ev_head : hd <= hd';
  ev_cyc p : cyc (cells !!! slot p) <= cyc (cells' !!! slot p);
  ev_free p : val (cells !!! slot p) = None ->
    (cells' !!! slot p = cells !!! slot p /\ wmark (events h') (slot p) = wmark (events h) (slot p)) \/
    cyc (cells !!! slot p) < cyc (cells' !!! slot p)
}.

(** Nothing happens in the slots. *)
Lemma evolves_quiet cells hd hd' h h' :
  hd <= hd' -> put_tickets (events h') = put_tickets (events h) -> wmark (events h') = wmark (events h) ->
  evolves cells hd h cells hd' h'.
Proof.
  intros Hhd Hp Hw. split; [|done|lia|rewrite Hw; by left].
  intros t [[H1 H2] H3]. split; [rewrite Hp; split; [done|lia]|by rewrite Hw].
Qed.

Lemma evolves_refl cells hd h : evolves cells hd h cells hd h.
Proof. by apply evolves_quiet. Qed.

Lemma evolves_other cells hd h x : (forall i e, x <> HLin i e) -> evolves cells hd h cells hd (h ++ [x]).
Proof.
  intros Hx. assert (events (h ++ [x]) = events h) as He.
  { rewrite events_app. destruct x; simpl; rewrite ?app_nil_r; try done. by destruct (Hx i e). }
  apply evolves_quiet; [done|by rewrite He..].
Qed.

Lemma evolves_draw_tail cells hd h i t : evolves cells hd h cells hd (h ++ [HLin i (TakeTail t)]).
Proof.
  apply evolves_quiet; [done|..]; rewrite events_snoc; [|by rewrite wmark_other].
  by rewrite put_tickets_app, app_nil_r.
Qed.

Lemma evolves_draw_head cells hd h i t : evolves cells hd h cells (hd + 1) (h ++ [HLin i (TakeHead t)]).
Proof.
  apply evolves_quiet; [lia|..]; rewrite events_snoc; [|by rewrite wmark_other].
  by rewrite put_tickets_app, app_nil_r.
Qed.

(** One cell changes. *)
Lemma evolves_cell cells hd (h h' : thist) t d :
  (slot t < length cells)%nat ->
  (forall p, p ∉ put_tickets (events h) -> slot p <> slot t -> p ∉ put_tickets (events h')) ->
  (forall j, j <> slot t -> wmark (events h') j = wmark (events h) j) ->
  (forall p, slot p = slot t -> closed cells hd h p ->
     (p ∉ put_tickets (events h')) /\ closed_cell d (wmark (events h') (slot t)) p) ->
  (cyc (cells !!! slot t) < cyc d \/ cyc (cells !!! slot t) = cyc d /\ val (cells !!! slot t) <> None) ->
  evolves cells hd h (<[slot t := d]> cells) hd h'.
Proof.
  intros Hlt Hput Hwm Hcl Hcyc. split; [|done|..].
  - intros p Hp. pose proof Hp as [[H1 H2] H3]. destruct (decide (slot p = slot t)) as [Heq|Hne].
    + destruct (Hcl p Heq Hp) as [H4 H5]. split; [done|].
      rewrite Heq, list_lookup_total_insert_eq by done. done.
    + split; [auto|]. rewrite list_lookup_total_insert_ne by done. by rewrite Hwm.
  - intros p. destruct (decide (slot p = slot t)) as [->|Hne].
    + rewrite list_lookup_total_insert_eq by done. lia.
    + by rewrite list_lookup_total_insert_ne.
  - intros p Hv. destruct (decide (slot p = slot t)) as [Heq|Hne].
    + rewrite Heq in *. rewrite list_lookup_total_insert_eq by done. right. tauto.
    + rewrite list_lookup_total_insert_ne by done. left. auto.
Qed.

Lemma evolves_older cells hd tl h t :
  ring_inv n cells hd tl h -> cyc (cells !!! slot t) < t / n ->
  evolves cells hd h (<[slot t := older n t (cells !!! slot t)]> cells) hd h.
Proof.
  intros HI Hlt. apply evolves_cell; [by apply (ri_slot_lt n Hn _ _ _ _ t HI)|done|done|..].
  - intros p Heq [[Hp _] Hc]. split; [done|]. rewrite Heq in Hc. unfold closed_cell, older in *.
    destruct (cells !!! slot t) as [c b [v|]]; simpl in *.
    + destruct Hc as [Hc|[Hs Hc]]; [by left|by right].
    + destruct Hc as [Hc|[Hs Hc]]; [left; lia|by right].
  - unfold older. destruct (cells !!! slot t) as [c b [v|]]; simpl in *; [by right|left; lia].
Qed.

(** A value is stored in a free cell that is safe, or with a ticket beyond the
    head at the time when the cell lost its last value. *)
Lemma evolves_store cells hd tl h i t v c b :
  ring_inv n cells hd tl h -> cells !!! slot t = mkCell c b None -> c < t / n ->
  b = true \/ wmark (events h) (slot t) <= t ->
  evolves cells hd h (<[slot t := mkCell (t / n) true (Some v)]> cells) hd (h ++ [HLin i (PutAt t v)]).
Proof.
  intros HI Hc Hlt Hb. pose proof (proj1 Hn) as Hp0.
  apply evolves_cell; [by apply (ri_slot_lt n Hn _ _ _ _ t HI)|..].
  - intros p Hp Hne. rewrite events_snoc, put_tickets_app, not_elem_of_app. split; [done|].
    simpl. rewrite list_elem_of_singleton. by intros ->.
  - intros j _. by rewrite events_snoc, wmark_other.
  - intros p Heq [[Hp _] Hcl]. rewrite Heq, Hc in Hcl. unfold closed_cell in Hcl. simpl in Hcl.
    assert (p <> t /\ p / n <= t / n) as [Hpt Hle].
    { destruct Hcl as [Hcl|[-> Hw]]; [split; [intros ->|]; lia|]. specialize (Hw eq_refl).
      destruct Hb as [?|Hb]; [done|]. split; [lia|]. apply Z.div_le_mono; lia. }
    split; [|by left].
    rewrite events_snoc, put_tickets_app, not_elem_of_app. simpl. by rewrite list_elem_of_singleton.
  - rewrite Hc. left. simpl. lia.
Qed.

Lemma evolves_consume cells hd tl h i t v b :
  ring_inv n cells hd tl h -> cells !!! slot t = mkCell (t / n) b (Some v) ->
  evolves cells hd h (<[slot t := mkCell (t / n) b None]> cells) hd (h ++ [HLin i (GetAt t v)]).
Proof.
  intros HI Hc. apply evolves_cell; [by apply (ri_slot_lt n Hn _ _ _ _ t HI)|..].
  - intros p Hp _. by rewrite events_snoc, put_tickets_app, app_nil_r.
  - intros j Hj. by rewrite events_snoc, wmark_get, decide_False.
  - intros p Heq [[Hp Hhd] Hcl]. rewrite Heq, Hc in Hcl. split.
    { by rewrite events_snoc, put_tickets_app, app_nil_r. }
    destruct Hcl as [Hcl|[Hs _]]; [by left|right]. split; [done|]. intros _.
    rewrite events_snoc, wmark_get, decide_True by done.
    rewrite (ri_heads _ _ _ _ _ HI), length_seqZ. pose proof (ri_hd _ _ _ _ _ HI). lia.
  - rewrite Hc. by right.
Qed.

(** ** When a dequeuer leaves *)

(** What the holder of the ticket [t] sees: an older cell that it has changed, or
    a cell whose cycle is too large or whose value is gone. *)
Lemma closed_older cells hd tl h i t :
  ring_inv n cells hd tl h -> HLin i (TakeHead t) ∈ h -> cyc (cells !!! slot t) < t / n ->
  closed (<[slot t := older n t (cells !!! slot t)]> cells) hd h t.
Proof.
  intros HI Ht Hlt. pose proof (head_ticket_range n _ _ _ _ _ _ HI Ht).
  assert (t ∉ put_tickets (events h)) as Hp.
  { intros [v Hp]%elem_put_tickets. destruct (ri_put _ _ _ _ _ HI t v Hp). lia. }
  split; [by split; [|lia]|].
  rewrite list_lookup_total_insert_eq by by apply (ri_slot_lt n Hn _ _ _ _ t HI).
  unfold closed_cell, older. destruct (val _); [right|left]; simpl; [done|lia].
Qed.

Lemma closed_gone cells hd tl h i t :
  ring_inv n cells hd tl h -> holds i t h -> t / n <= cyc (cells !!! slot t) ->
  (cyc (cells !!! slot t) = t / n -> val (cells !!! slot t) = None) -> closed cells hd h t.
Proof.
  intros HI Hh Hle Hv. pose proof (holds_fresh n _ _ _ _ _ _ HI Hh) as Hng. destruct Hh as [Ht _].
  pose proof (head_ticket_range n _ _ _ _ _ _ HI Ht). split; [|by left]. split; [|lia].
  intros [v Hp]%elem_put_tickets. destruct (put_in_cell n _ _ _ _ _ _ HI Hp Hng) as [b Hc].
  rewrite Hc in Hv. by discriminate Hv.
Qed.

End leave.
