(* ===== verification/Ncq.v ===== *)
(** * Ncq: the naive circular queue

    Models [NCQ<T>] ([include/lscq/ncq.hpp], [src/ncq.cpp]).  [capacity_] is
    fixed by the constructor; the mutable members are the record [state].  Each
    operation is a program of single atomic accesses; [EnqLoop] and [DeqLoop]
    are the heads of the two [while (true)] loops.

    Theorems: solo runs terminate and implement a FIFO queue; every
    interleaving of any number of threads is linearizable, provided that the
    clients keep at most [capacity_] elements in the queue and the 64-bit
    positions do not overflow; a client that exceeds the capacity overwrites
    unread elements and makes [dequeue] spin forever. *)

From stdpp Require Import base list numbers option.
From Stdlib Require Import ZArith Lia.
From S2P Require Import Prelude Conc Fifo Cas2 Ring.

Local Open Scope Z_scope.

(** ** Model *)

Definition CACHE_LINE_SIZE : Z := 64.

Definition entries_per_line : Z := CACHE_LINE_SIZE / 16.

Record state := mkState {
  entries_ : list Entry;
  head_ : Z;
  tail_ : Z
}.

(** The constructor: the rounded capacity, the bytes it asks the allocator for
    and the initial members. *)
Definition round_capacity (capacity : Z) : Z :=
  let capacity_ := if capacity =? 0 then 1 else capacity in
  let capacity_ := if capacity_ <? entries_per_line then entries_per_line else capacity_ in
  round_up capacity_ entries_per_line.

Definition alloc_bytes (capacity : Z) : Z := u64 (round_capacity capacity * 16).

Definition NCQ_new (capacity : Z) : state :=
  let capacity_ := round_capacity capacity in
  mkState (replicate (Z.to_nat capacity_) (mkEntry 0 0)) (u64 capacity_) (u64 capacity_).

Section ops.
Context (capacity_ : Z).
(** [kEmpty] is the largest value of the element type [T]. *)
Context (kEmpty : Z).

Definition cast_T (x : Z) : Z := x mod (kEmpty + 1).

Definition cache_remap (idx : Z) : Z :=
  let line := Z.shiftr idx 2 in
  let offset := Z.land idx 3 in
  let num_lines := Z.shiftr capacity_ 2 in
  offset * num_lines + line.

(** The atomic accesses of the two operations. *)
Definition load_tail (s : state) : state * Z := (s, tail_ s).

Definition load_head (s : state) : state * Z := (s, head_ s).

Definition load_entry (j : Z) (s : state) : state * Entry :=
  let '(cur, e) := entry_load (entries_ s !!! Z.to_nat j) in
  (mkState (<[Z.to_nat j := cur]> (entries_ s)) (head_ s) (tail_ s), e).

Definition cas2_entry (j : Z) (expected desired : Entry) (s : state) : state * bool :=
  let '(cur, _, ok) := cas2_mutex (entries_ s !!! Z.to_nat j) expected desired in
  (mkState (<[Z.to_nat j := cur]> (entries_ s)) (head_ s) (tail_ s), ok).

Definition cas_tail_weak (spurious : bool) (expected desired : Z) (s : state) : state * bool :=
  let '(m, r) := cas_word_weak spurious expected desired (tail_ s) in
  (mkState (entries_ s) (head_ s) m, r.2).

Definition cas_head_weak (spurious : bool) (expected desired : Z) (s : state) : state * bool :=
  let '(m, r) := cas_word_weak spurious expected desired (head_ s) in
  (mkState (entries_ s) m (tail_ s), r.2).

(** The loop heads; [EnqEntry] is the test before the loop of [enqueue]. *)
Inductive label : Set :=
| EnqEntry (index : Z)
| EnqLoop (index : Z)
| DeqLoop.

Definition prog_t := prog state (qev Z) (label + qres Z).

Definition enqueue_loop (index : Z) : prog_t :=
  (let n := u64 capacity_ in
   let! t := atomic load_tail in
   let cycle_t := t / n in
   let j := t mod n in
   let remapped_j := cache_remap j in
   let! ent := atomic (load_entry remapped_j) in
   let cycle_e := cycle_flags ent in
   if cycle_e =? cycle_t then
     let! spurious := choose in
     let! _ := atomic (cas_tail_weak spurious t (add64 t 1)) in
     Ret (inl (EnqLoop index))
   else if negb (add64 cycle_e 1 =? cycle_t) then Ret (inl (EnqLoop index))
   else
     let expected := ent in
     let desired := mkEntry cycle_t (u64 index) in
     let! ok := atomic_lin (cas2_entry remapped_j expected desired)
                  (fun ok : bool => if ok then [EvEnq index] else []) in
     if (ok : bool) then
       let! spurious := choose in
       let! _ := atomic (cas_tail_weak spurious t (add64 t 1)) in
       Ret (inr (RBool true))
     else Ret (inl (EnqLoop index)))%prog.

Definition dequeue_loop : prog_t :=
  (let n := u64 capacity_ in
   let! h := atomic load_head in
   let cycle_h := h / n in
   let j := h mod n in
   let remapped_j := cache_remap j in
   let! ent := atomic_lin (load_entry remapped_j)
                 (fun ent =>
                    if negb (cycle_flags ent =? cycle_h) && (add64 (cycle_flags ent) 1 =? cycle_h)
                    then [EvEmpty] else []) in
   let cycle_e := cycle_flags ent in
   if negb (cycle_e =? cycle_h) then
     if add64 cycle_e 1 =? cycle_h then Ret (inr (RVal kEmpty))
     else Ret (inl DeqLoop)
   else
     let! spurious := choose in
     let! ok := atomic_lin (cas_head_weak spurious h (add64 h 1))
                  (fun ok : bool => if ok then [EvDeq (cast_T (index_or_ptr ent))] else []) in
     if (ok : bool) then Ret (inr (RVal (cast_T (index_or_ptr ent)))) else Ret (inl DeqLoop))%prog.

(** [enqueue] and [dequeue]: the blocks by loop head. *)
Definition body (l : label) : prog_t :=
  match l with
  | EnqEntry index =>
      if index =? kEmpty then Ret (inr (RBool false)) else Ret (inl (EnqLoop index))
  | EnqLoop index => enqueue_loop index
  | DeqLoop => dequeue_loop
  end.

Definition entry (o : qop Z) : label :=
  match o with OpEnq v => EnqEntry v | OpDeq => DeqLoop end.

Definition enqueue (fuel : nat) (index : Z) := exec body fuel (EnqEntry index).

Definition dequeue (fuel : nat) := exec body fuel DeqLoop.

(** [is_empty]: two relaxed loads. *)
Definition is_empty (s : state) : bool := tail_ s <=? head_ s.

End ops.
