(* ===== verification/NcqProofs.v ===== *)
(** * NcqProofs: the invariant of the naive circular queue and its solo runs

    [rep s E D] relates the members to the list [E] of all values ever enqueued
    and the number [D] of values dequeued: position [p] of the ring holds
    [E !! (p - n)], and the queue is [drop D E]. *)

From stdpp Require Import base list numbers option.
From Stdlib Require Import ZArith Lia.
From S2P Require Import Prelude Conc Fifo Cas2 Ring Ncq.

Local Open Scope Z_scope.

Section ncq.
Context (n kEmpty : Z).
Hypothesis (Hn : ring_size n) (Hn64 : n < two64).
Hypothesis (HkE : 0 < kEmpty < two64).

(** ** The representation invariant *)

(** The first position that is not filled yet. *)
Definition top (E : list Z) : Z := n + Z.of_nat (length E).

Record rep (s : state) (E : list Z) (D : nat) : Prop := {
  rep_len : length (entries_ s) = Z.to_nat n;
  rep_head : head_ s = n + Z.of_nat D;
  rep_tail : n <= tail_ s <= top E /\ top E <= tail_ s + 1;
  rep_count : (D <= length E)%nat;
  rep_room : Z.of_nat (length E) - Z.of_nat D <= n;
  rep_vals : Forall (fun v => 0 <= v < kEmpty) E;
  rep_slots p : top E - n <= p < top E ->
    cycle_flags (entries_ s !!! slot_of n p) = p / n /\
    (n <= p -> E !! Z.to_nat (p - n) = Some (index_or_ptr (entries_ s !!! slot_of n p)))
}.

(** No 64-bit position overflows: the next position is still a word. *)
Definition no_overflow (E : list Z) : Prop := top E + 1 < two64.

Lemma cache_remap_slot t : Z.to_nat (cache_remap n (t mod n)) = slot_of n t.
Proof. done. Qed.

Lemma n_pos : 0 < n.
Proof. destruct Hn; lia. Qed.

Lemma u64_n : u64 n = n.
Proof. apply u64_small. unfold is_u64. pose proof n_pos. lia. Qed.

(** The entry in the slot of any position [t] is the entry of the position of
    the last lap that shares the slot. *)
Lemma rep_entry s E D t :
  rep s E D -> exists p, top E - n <= p < top E /\ p mod n = t mod n /\
  cycle_flags (entries_ s !!! slot_of n t) = p / n /\
  (n <= p -> E !! Z.to_nat (p - n) = Some (index_or_ptr (entries_ s !!! slot_of n t))).
Proof.
  intros Hr. pose proof n_pos. exists (window_pos n (top E - n) t).
  pose proof (window_pos_range n (top E - n) t ltac:(lia)).
  pose proof (window_pos_mod n (top E - n) t ltac:(lia)) as Hm.
  destruct (rep_slots s E D Hr (window_pos n (top E - n) t)) as [Hc Hi]; [lia|].
  rewrite (slot_of_mod n _ t Hm) in Hc, Hi. split_and!; try done; lia.
Qed.

(** Reading the cycle of the slot of [t] tells where [t] is. *)
Lemma rep_cycle_eq s E D t :
  rep s E D -> cycle_flags (entries_ s !!! slot_of n t) = t / n -> top E - n <= t < top E.
Proof.
  intros Hr Hc. destruct (rep_entry s E D t Hr) as (p & Hp & Hm & Hc' & _).
  assert (p = t) as <-; [|done]. apply (div_mod_inj n); [pose proof n_pos; lia|congruence|done].
Qed.

Lemma rep_cycle_pred s E D t :
  rep s E D -> cycle_flags (entries_ s !!! slot_of n t) + 1 = t / n -> top E <= t < top E + n.
Proof.
  intros Hr Hc. destruct (rep_entry s E D t Hr) as (p & Hp & Hm & Hc' & _).
  pose proof n_pos. assert (p + n = t); [|lia].
  apply (div_mod_inj n); [lia| |by rewrite mod_add_lap].
  rewrite div_add_lap by lia. lia.
Qed.

Lemma rep_cycle_range s E D t :
  rep s E D -> no_overflow E -> 0 <= cycle_flags (entries_ s !!! slot_of n t) < two63.
Proof.
  intros Hr Ho. destruct (rep_entry s E D t Hr) as (p & Hp & _ & -> & _).
  unfold no_overflow, top, two64, two63 in *. destruct Hn as [H4 _].
  split; [apply Z.div_pos; lia|apply Z.div_lt_upper_bound; lia].
Qed.

Lemma rep_add_cycle s E D t :
  rep s E D -> no_overflow E ->
  add64 (cycle_flags (entries_ s !!! slot_of n t)) 1 =
  cycle_flags (entries_ s !!! slot_of n t) + 1.
Proof.
  intros Hr Ho. pose proof (rep_cycle_range s E D t Hr Ho).
  apply add64_small. unfold is_u64, two64, two63 in *. lia.
Qed.

Lemma top_ge E : n <= top E.
Proof. unfold top. lia. Qed.

(** ** Accesses *)

Lemma load_entry_eq t s : load_entry (cache_remap n (t mod n)) s = (s, entries_ s !!! slot_of n t).
Proof.
  unfold load_entry. rewrite entry_load_spec, cache_remap_slot.
  destruct s as [es hd tl]. simpl. do 2 f_equal.
  destruct (es !! slot_of n t) as [e|] eqn:He.
  - rewrite (list_lookup_total_correct _ _ _ He). by apply list_insert_id.
  - apply list_insert_ge. by apply lookup_ge_None.
Qed.

Lemma cas2_entry_eq t e d s :
  cas2_entry (cache_remap n (t mod n)) e d s =
  if decide (entries_ s !!! slot_of n t = e)
  then (mkState (<[slot_of n t := d]> (entries_ s)) (head_ s) (tail_ s), true)
  else (s, false).
Proof.
  unfold cas2_entry. rewrite cas2_mutex_spec, cache_remap_slot.
  destruct s as [es hd tl]. simpl. case_decide as Hc; [done|]. do 2 f_equal.
  destruct (es !! slot_of n t) as [x|] eqn:He.
  - rewrite (list_lookup_total_correct _ _ _ He). by apply list_insert_id.
  - apply list_insert_ge. by apply lookup_ge_None.
Qed.

Lemma cas_tail_eq b t t' s :
  cas_tail_weak b t t' s =
  if decide (b = false /\ tail_ s = t)
  then (mkState (entries_ s) (head_ s) t', true) else (s, false).
Proof.
  unfold cas_tail_weak, cas_word_weak. destruct s as [es hd tl]; simpl.
  case_decide as Hc.
  - destruct Hc as [-> ->]. by rewrite Z.eqb_refl.
  - destruct b; [done|]. simpl. destruct (Z.eqb_spec tl t); [|done]. by destruct Hc.
Qed.

Lemma cas_head_eq b t t' s :
  cas_head_weak b t t' s =
  if decide (b = false /\ head_ s = t)
  then (mkState (entries_ s) t' (tail_ s), true) else (s, false).
Proof.
  unfold cas_head_weak, cas_word_weak. destruct s as [es hd tl]; simpl.
  case_decide as Hc.
  - destruct Hc as [-> ->]. by rewrite Z.eqb_refl.
  - destruct b; [done|]. simpl. destruct (Z.eqb_spec hd t); [|done]. by destruct Hc.
Qed.

(** ** Steps that change the state preserve the invariant *)

(** Moving the tail over a filled slot. *)
Lemma rep_move_tail s E D t :
  rep s E D -> tail_ s = t -> t < top E ->
  rep (mkState (entries_ s) (head_ s) (t + 1)) E D.
Proof. intros [? ? ? ? ? ? ?] <- Ht. split; simpl; try done. lia. Qed.

(** Filling the slot of the top position, when there is room. *)
Lemma rep_fill s E D v :
  rep s E D -> tail_ s = top E -> 0 <= v < kEmpty ->
  Z.of_nat (length E) - Z.of_nat D < n ->
  rep (mkState (<[slot_of n (top E) := mkEntry (top E / n) v]> (entries_ s)) (head_ s) (tail_ s))
    (E ++ [v]) D.
Proof.
  intros Hr Ht Hv Hroom. pose proof Hr as [Hl Hh Htl Hc Hm Hva Hs]. pose proof n_pos.
  assert (top (E ++ [v]) = top E + 1) as Htop by (unfold top; rewrite length_app; simpl; lia).
  split; simpl; try rewrite Htop; rewrite ?length_insert, ?length_app; simpl; try done; try lia.
  - apply Forall_app. by split; [|constructor].
  - intros p Hp. assert (slot_of n (top E) < length (entries_ s))%nat as Hlt
      by (rewrite Hl; by apply slot_of_lt).
    destruct (decide (p = top E)) as [->|Hne].
    + rewrite list_lookup_total_insert_eq by done. simpl. split; [done|]. intros _.
      unfold top. replace (Z.to_nat (n + Z.of_nat (length E) - n)) with (length E) by lia.
      by rewrite lookup_app_r, Nat.sub_diag by lia.
    + assert (slot_of n (top E) <> slot_of n p) as Hsl.
      { intros Heq. apply Hne. apply (slot_window_unique n (top E + 1 - n)); [done|lia|lia|done]. }
      rewrite list_lookup_total_insert_ne by done.
      destruct (Hs p) as [H1 H2]; [lia|]. split; [done|]. intros Hp2.
      rewrite lookup_app_l; [auto|]. unfold top in *. lia.
Qed.

(** Taking the element at the head. *)
Lemma rep_take s E D :
  rep s E D -> (D < length E)%nat ->
  rep (mkState (entries_ s) (head_ s + 1) (tail_ s)) E (Datatypes.S D).
Proof. intros [? ? ? ? ? ? ?] Ht. split; simpl; try done; lia. Qed.

(** The value at the head position is the next one to dequeue. *)
Lemma rep_front s E D :
  rep s E D -> (D < length E)%nat ->
  entries_ s !!! slot_of n (head_ s) =
    mkEntry (head_ s / n) (index_or_ptr (entries_ s !!! slot_of n (head_ s))) /\
  E !! D = Some (index_or_ptr (entries_ s !!! slot_of n (head_ s))).
Proof.
  intros [Hl Hh Htl Hc Hm Hva Hs] Ht.
  destruct (Hs (head_ s)) as [H1 H2]; [unfold top; lia|].
  specialize (H2 ltac:(lia)). replace (Z.to_nat (head_ s - n)) with D in H2 by lia.
  split; [|done]. rewrite <- H1. by destruct (entries_ s !!! slot_of n (head_ s)).
Qed.

Lemma rep_empty_cycle s E D :
  rep s E D -> D = length E ->
  cycle_flags (entries_ s !!! slot_of n (head_ s)) + 1 = head_ s / n.
Proof.
  intros Hr HD. destruct (rep_entry s E D (head_ s) Hr) as (p & Hp & Hm & -> & _).
  pose proof (rep_head s E D Hr). pose proof n_pos. unfold top in *.
  assert (p + n = head_ s) as <-; [|rewrite div_add_lap; lia].
  apply (mod_window_unique n (head_ s)); [lia|lia|lia|]. by rewrite mod_add_lap.
Qed.

(** The slot of the top position still has the previous cycle. *)
Lemma rep_top_cycle s E D :
  rep s E D -> cycle_flags (entries_ s !!! slot_of n (top E)) + 1 = top E / n.
Proof.
  intros Hr. destruct (rep_entry s E D (top E) Hr) as (p & Hp & Hm & -> & _).
  pose proof n_pos. assert (p + n = top E) as Hpn.
  { apply (mod_window_unique n (top E)); [lia|lia|lia|]. by rewrite mod_add_lap. }
  rewrite <- (Z.add_simpl_r p n), Hpn, <- div_add_lap by lia. f_equal. lia.
Qed.

Lemma cast_T_small v : 0 <= v < kEmpty -> cast_T kEmpty v = v.
Proof. intros Hv. unfold cast_T. apply Z.mod_small. lia. Qed.

(** ** Solo runs *)

(** From any state of the ring in which the tail is up to date, one block fills
    the slot. *)
Lemma enqueue_block s E D v w :
  rep s E D -> no_overflow E -> tail_ s = top E -> 0 <= v < kEmpty ->
  Z.of_nat (length E) - Z.of_nat D < n ->
  exists s' w', run (enqueue_loop n v) w s = (s', w', inr (RBool true)) /\ rep s' (E ++ [v]) D.
Proof.
  intros Hr Ho Ht Hv Hroom. unfold enqueue_loop. rewrite u64_n. simpl.
  rewrite load_entry_eq, Ht. pose proof (rep_top_cycle s E D Hr) as Hc.
  rewrite (rep_add_cycle s E D (top E) Hr Ho), Hc.
  destruct (Z.eqb_spec (cycle_flags (entries_ s !!! slot_of n (top E))) (top E / n)); [lia|].
  rewrite Z.eqb_refl. simpl. rewrite cas2_entry_eq, decide_True by done. simpl.
  rewrite u64_small by (unfold is_u64; lia).
  pose proof (rep_fill s E D v Hr Ht Hv Hroom) as Hr'.
  rewrite cas_tail_eq. case_decide as Hcas; simpl.
  - eexists _, _. split; [done|].
    pose proof (top_ge E). unfold no_overflow in Ho.
    rewrite add64_small by (unfold is_u64; pose proof n_pos; lia).
    apply (rep_move_tail _ (E ++ [v]) D (top E)) in Hr'; [done|done|].
    unfold top. rewrite length_app. simpl. lia.
  - eexists _, _. split; [done|]. done.
Qed.

(** When the tail lags, a block helps it; a spurious failure changes nothing. *)
Lemma enqueue_help_block s E D v w :
  rep s E D -> no_overflow E -> tail_ s = top E - 1 ->
  run (enqueue_loop n v) w s =
  (if hd false w then s else mkState (entries_ s) (head_ s) (top E), tl w, inl (EnqLoop v)).
Proof.
  intros Hr Ho Ht. unfold enqueue_loop. rewrite u64_n. simpl.
  rewrite load_entry_eq, Ht. pose proof (rep_tail s E D Hr). pose proof n_pos.
  destruct (rep_slots s E D Hr (top E - 1)) as [Hc _]; [lia|].
  rewrite Hc, Z.eqb_refl. simpl. rewrite cas_tail_eq.
  pose proof (top_ge E). unfold no_overflow in Ho.
  rewrite add64_small by (unfold is_u64; lia).
  replace (top E - 1 + 1) with (top E) by lia.
  destruct (hd false w).
  - rewrite decide_False by (by intros [? _]). done.
  - rewrite decide_True by done. done.
Qed.

Lemma enqueue_from_loop s E D v w :
  rep s E D -> no_overflow E -> 0 <= v < kEmpty -> Z.of_nat (length E) - Z.of_nat D < n ->
  exists s' w', exec (body n kEmpty) (2 + length w) (EnqLoop v) w s = Some (s', w', RBool true) /\
                rep s' (E ++ [v]) D.
Proof.
  intros Hr Ho Hv Hroom. revert s Hr. induction w as [|b w IH]; intros s Hr;
    pose proof (rep_tail s E D Hr) as Ht.
  - destruct (decide (tail_ s = top E)) as [Heq|Hne].
    + destruct (enqueue_block s E D v [] Hr Ho Heq Hv Hroom) as (s' & w' & Hrun & Hr').
      exists s', w'. split; [|done]. exec_ret Hrun.
    + pose proof (enqueue_help_block s E D v [] Hr Ho ltac:(lia)) as Hrun. simpl in Hrun.
      assert (rep (mkState (entries_ s) (head_ s) (top E)) E D) as Hr2.
      { replace (top E) with (tail_ s + 1) at 1 by lia. by apply rep_move_tail; [done| |lia]. }
      destruct (enqueue_block _ E D v [] Hr2 Ho eq_refl Hv Hroom) as (s' & w' & Hrun' & Hr').
      exists s', w'. split; [|done]. exec_jump Hrun. exec_ret Hrun'.
  - destruct (decide (tail_ s = top E)) as [Heq|Hne].
    + destruct (enqueue_block s E D v (b :: w) Hr Ho Heq Hv Hroom) as (s' & w' & Hrun & Hr').
      exists s', w'. split; [|done]. exec_ret Hrun.
    + pose proof (enqueue_help_block s E D v (b :: w) Hr Ho ltac:(lia)) as Hrun. simpl in Hrun.
      destruct (IH (if b then s else mkState (entries_ s) (head_ s) (top E)))
        as (s' & w' & He & Hr').
      { destruct b; [done|].
        replace (top E) with (tail_ s + 1) at 1 by lia. by apply rep_move_tail; [done| |lia]. }
      exists s', w'. split; [|done]. exec_jump Hrun. exact He.
Qed.

Lemma dequeue_from_loop s E D w v :
  rep s E D -> no_overflow E -> E !! D = Some v ->
  exists s' w', exec (body n kEmpty) (1 + length w) DeqLoop w s = Some (s', w', RVal v) /\
                rep s' E (Datatypes.S D).
Proof.
  intros Hr Ho HD. assert (D < length E)%nat as Hlt by by apply lookup_lt_Some in HD.
  destruct (rep_front s E D Hr Hlt) as [Hf Hfv]. rewrite HD in Hfv. injection Hfv as Hfv.
  pose proof (proj1 (Forall_lookup _ _) (rep_vals s E D Hr) _ _ HD) as Hvr. simpl in Hvr.
  assert (forall w, run (dequeue_loop n kEmpty) w s =
    if hd false w then (s, tl w, inl DeqLoop)
    else (mkState (entries_ s) (head_ s + 1) (tail_ s), tl w, inr (RVal v))) as Hrun.
  { intros w0. unfold dequeue_loop. rewrite u64_n. simpl. rewrite load_entry_eq, Hf. simpl.
    rewrite Z.eqb_refl. simpl. rewrite cas_head_eq.
    pose proof (rep_head s E D Hr). unfold no_overflow, top in Ho.
    rewrite add64_small by (unfold is_u64; pose proof n_pos; lia).
    rewrite <- Hfv, cast_T_small by done.
    destruct (hd false w0); [rewrite decide_False by (by intros [? _])|rewrite decide_True by done];
      done. }
  pose proof (rep_take s E D Hr Hlt) as Hr'.
  induction w as [|b w IH].
  - eexists _, _. split; [|exact Hr']. exec_ret (Hrun []).
  - destruct b.
    + destruct IH as (s' & w' & He & Hr''). exists s', w'. split; [|done].
      exec_jump (Hrun (true :: w)). exact He.
    + eexists _, _. split; [|exact Hr'].
      exec_ret (Hrun (false :: w)).
Qed.

Lemma dequeue_empty_block s E D w :
  rep s E D -> no_overflow E -> D = length E ->
  run (dequeue_loop n kEmpty) w s = (s, w, inr (RVal kEmpty)).
Proof.
  intros Hr Ho HD. unfold dequeue_loop. rewrite u64_n. simpl. rewrite load_entry_eq. simpl.
  pose proof (rep_empty_cycle s E D Hr HD) as Hc.
  rewrite (rep_add_cycle s E D _ Hr Ho), Hc, Z.eqb_refl.
  destruct (Z.eqb_spec (cycle_flags (entries_ s !!! slot_of n (head_ s))) (head_ s / n)); [lia|].
  done.
Qed.

End ncq.

(** ** The constructor *)

Lemma round_capacity_spec c :
  0 <= c <= two64 - 4 -> ring_size (round_capacity c) /\ c <= round_capacity c <= Z.max 4 (c + 3).
Proof.
  intros Hc. unfold round_capacity.
  change entries_per_line with 4.
  set (c1 := if c =? 0 then 1 else c). set (c2 := if c1 <? 4 then 4 else c1).
  assert (c2 = Z.max 4 c) as ->.
  { unfold c2, c1. destruct (Z.eqb_spec c 0); [simpl; lia|destruct (Z.ltb_spec c 4); lia]. }
  unfold two64 in Hc. destruct (round_up_spec (Z.max 4 c) 4) as [H1 H2]; [lia|lia|unfold two64; lia|].
  split; [split; [lia|done]|]. split; [lia|].
  (* a multiple of 4 below [max 4 c + 4] *)
  pose proof (Z.div_mod (round_up (Z.max 4 c) 4) 4 ltac:(lia)). lia.
Qed.

Lemma rep_new c kEmpty :
  0 <= c <= two64 - 8 -> rep (round_capacity c) kEmpty (NCQ_new c) [] 0.
Proof.
  intros Hc. destruct (round_capacity_spec c) as [Hr Hb]; [lia|].
  set (n := round_capacity c) in *. pose proof Hr as [Hn4 _].
  assert (u64 n = n) as Hu by (apply u64_small; unfold is_u64, two64 in *; lia).
  unfold NCQ_new. fold n. rewrite Hu.
  split; unfold top; simpl; rewrite ?length_replicate; try lia; try (by constructor).
  intros p Hp.
  rewrite lookup_total_replicate_2 by (apply slot_of_lt; done). simpl.
  split; [by rewrite Z.div_small by lia|lia].
Qed.
