(* ===== verification/NcqLin.v ===== *)
(** * NcqLin: the theorems on the naive circular queue

    Linearizability of every interleaving, by the rely-guarantee logic of
    [Conc], the behaviour of solo runs, the constructor, and what happens when
    the ring is overfilled. *)

From stdpp Require Import base list numbers option.
From Stdlib Require Import ZArith Lia.
From S2P Require Import Prelude Conc Fifo Cas2 Ring Ncq NcqProofs.

Local Open Scope Z_scope.

Section lin.
Context (n kEmpty : Z).
Hypothesis (Hn : ring_size n) (Hn64 : n < two64).
Hypothesis (HkE : 0 < kEmpty < two64).

Abbreviation ncq_hist := (list (hev (qev Z) (qop Z) (qres Z))).

Definition enqd (h : ncq_hist) : list Z := enqs (events h).

Definition deqd (h : ncq_hist) : list Z := deqs (events h).

(** The assumption on the clients: the arguments are values of the element
    type, the 64-bit positions do not overflow, and there are never more than
    [n] elements in the queue. *)
Definition client_ok (s : state) (h : ncq_hist) : Prop :=
  Forall (fun x => match x with HCall _ (OpEnq v) => 0 <= v <= kEmpty | _ => True end) h /\
  no_overflow n (enqd h) /\
  Z.of_nat (length (enqd h)) - Z.of_nat (length (deqd h)) <= n.

Definition client_okb (s : state) (h : ncq_hist) : bool :=
  forallb (fun x => match x with HCall _ (OpEnq v) => (0 <=? v) && (v <=? kEmpty) | _ => true end) h
  && (top n (enqd h) + 1 <? two64)
  && (Z.of_nat (length (enqd h)) - Z.of_nat (length (deqd h)) <=? n).

Lemma client_okb_ok s h : client_okb s h = true -> client_ok s h.
Proof.
  unfold client_okb, client_ok, no_overflow. intros H. bool_hyps. split_and!; try done.
  apply Forall_forall. intros x Hx.
  pose proof (proj1 (forallb_forall _ _) H x Hx) as Hb. simpl in Hb.
  destruct x as [i [v|]|i e|i r]; try done. bool_hyps. lia.
Qed.

(** ** The proof outline *)

Definition Inv (s : state) (h : ncq_hist) : Prop :=
  (exists q, fifo_run [] (events h) = Some q) /\
  rep n kEmpty s (enqd h) (length (deqd h)) /\ no_overflow n (enqd h).

(** A step never moves the tail backwards, and writes a slot only to enqueue. *)
Definition Gr (i : nat) (c c' : state * ncq_hist) : Prop :=
  tail_ c.1 <= tail_ c'.1 /\
  (length (enqd c'.2) = length (enqd c.2) -> entries_ c'.1 = entries_ c.1).

Definition valid (v : Z) : Prop := 0 <= v < kEmpty.

Definition LI (i : nat) (l : label) (s : state) (h : ncq_hist) : Prop :=
  match l with
  | EnqEntry v => opview i h = Some (OpEnq v, []) /\ 0 <= v <= kEmpty
  | EnqLoop v => opview i h = Some (OpEnq v, []) /\ valid v
  | DeqLoop => opview i h = Some (OpDeq, [])
  end.

Abbreviation stable := (stable Inv Gr).
Abbreviation wp := (wp Inv Gr client_ok).
Abbreviation Q := (Qloop LI (qgood kEmpty valid)).

(** Stable assertions. *)
Lemma stable_tail i t : stable i (fun s _ => t <= tail_ s).
Proof. intros c c' (j & _ & _ & [Ht _] & _ & _) H. simpl in *. lia. Qed.

Lemma stable_top i t : stable i (fun _ h => t < top n (enqd h)).
Proof.
  apply (stable_events _ _ i (fun es => t < top n (enqs es))). intros es k H.
  unfold top in *. rewrite enqs_app, length_app. lia.
Qed.

Lemma stable_enq i k v : stable i (fun _ h => enqd h !! k = Some v).
Proof.
  apply (stable_events _ _ i (fun es => enqs es !! k = Some v)). intros es l H.
  rewrite enqs_app. by apply lookup_app_l_Some.
Qed.

Lemma stable_head i t : stable i (fun s _ => t <= head_ s).
Proof.
  intros c c' (j & _ & Hh & _ & (_ & Hr & _) & (_ & Hr' & _)) H. simpl in *.
  rewrite (rep_head _ _ _ _ _ Hr) in H. rewrite (rep_head _ _ _ _ _ Hr').
  destruct (hist_step_events j c.2 c'.2 Hh) as [k Hk]. unfold deqd in *.
  rewrite Hk, deqs_app, length_app. lia.
Qed.

#[local] Hint Resolve stable_op stable_tail stable_top stable_enq stable_head stable_pure
  stable_post : lscq.
Ltac gr := split; simpl; [lia|done].
Ltac stab := solve [repeat apply stable_and; eauto with lscq].

Lemma Inv_ok s h : Inv s h -> exists q, fifo_run [] (events h) = Some q /\ enqd h = deqd h ++ q.
Proof. intros [[q Hq] _]. exists q. split; [done|]. by apply fifo_run_fifo. Qed.

(** The two linearization steps on the abstract queue. *)
Lemma Inv_enq s s' h i v :
  Inv s h -> rep n kEmpty s' (enqd h ++ [v]) (length (deqd h)) ->
  no_overflow n (enqd h ++ [v]) -> Inv s' (h ++ (HLin i <$> [EvEnq v])).
Proof.
  intros HI Hr Ho. destruct (Inv_ok s h HI) as (q & Hq & He).
  unfold Inv, enqd, deqd in *. rewrite events_app, events_lin, enqs_app, deqs_app. simpl.
  rewrite app_nil_r. split_and!; try done.
  exists (q ++ [v]). by rewrite (fifo_run_snoc _ _ _ q).
Qed.

Lemma Inv_deq s s' h i v :
  Inv s h -> enqd h !! length (deqd h) = Some v ->
  rep n kEmpty s' (enqd h) (Datatypes.S (length (deqd h))) ->
  Inv s' (h ++ (HLin i <$> [EvDeq v])).
Proof.
  intros HI Hv Hr. destruct (Inv_ok s h HI) as (q & Hq & He).
  rewrite He, lookup_app_r, Nat.sub_diag in Hv by lia.
  destruct q as [|x q]; [done|]. simpl in Hv. simplify_eq.
  unfold Inv, enqd, deqd in *. rewrite events_app, events_lin, enqs_app, deqs_app. simpl.
  rewrite app_nil_r, length_app. simpl. rewrite Nat.add_1_r. split_and!; [|done|apply HI].
  exists q. rewrite (fifo_run_snoc _ _ _ _ Hq). simpl. by rewrite decide_True.
Qed.

Lemma Inv_empty s h i :
  Inv s h -> length (enqd h) = length (deqd h) -> Inv s (h ++ (HLin i <$> [EvEmpty])).
Proof.
  intros HI Hl. destruct (Inv_ok s h HI) as (q & Hq & He).
  rewrite He, length_app in Hl. destruct q as [|x q]; [|simpl in Hl; lia].
  unfold Inv, enqd, deqd in *. rewrite events_app, events_lin, enqs_app, deqs_app. simpl.
  rewrite !app_nil_r. split_and!; [|apply HI|apply HI].
  exists []. by rewrite (fifo_run_snoc _ _ _ _ Hq).
Qed.

(** Helping the tail past a filled position. *)
Lemma wp_help {A} i t b (k : bool -> prog state (qev Z) A) QQ (P : ncq_hist -> Prop) s h :
  stable i (fun _ => P) -> P h -> n <= t < top n (enqd h) ->
  (forall ok s h, P h -> Inv s h -> wp i (k ok) QQ (s, h)) ->
  wp i (Act bool (cas_tail_weak b t (add64 t 1)) (fun _ => []) k) QQ (s, h).
Proof.
  intros HP HPs Htop Hk.
  apply (wp_silent _ _ _ i (fun _ h => P h /\ t < top n (enqd h))); [stab|by destruct Htop|].
  destruct Htop as [Hnt _]. clear h HPs s. intros s h s2 ok [HPs Htop] HI. rewrite cas_tail_eq.
  pose proof HI as (Hf & Hr & Ho).
  case_decide as Hc; intros [= <- <-] _; [|split_and!; [gr|done|auto]].
  destruct Hc as [_ Hc]. unfold no_overflow in Ho. pose proof (n_pos n Hn).
  rewrite add64_small by (unfold is_u64; lia).
  assert (Inv (mkState (entries_ s) (head_ s) (t + 1)) h) as HI'.
  { split_and!; [done|by apply rep_move_tail|done]. }
  split_and!; [gr|done|auto].
Qed.

Lemma wp_enqueue i v s h : LI i (EnqLoop v) s h -> Inv s h -> wp i (enqueue_loop n v) (Q i) (s, h).
Proof.
  intros [Hv Hval] _. unfold enqueue_loop. rewrite (u64_n n Hn Hn64). simpl.
  apply (wp_silent _ _ _ i (LI i (EnqLoop v))); [stab|done|]. clear s h Hv.
  intros s h s2 t [Hv _] HI [= <- <-] _.
  pose proof HI as (_ & Hr & Ho). pose proof (rep_tail _ _ _ _ _ Hr) as Ht.
  set (t := tail_ s) in *. assert (n <= t) as Hnt by lia.
  split_and!; [gr|done|].
  apply (wp_silent _ _ _ i (fun s h => opview i h = Some (OpEnq v, []) /\ t <= tail_ s)); [stab|done|].
  clear HI Hr Ho Ht Hv. clearbody t. clear s h. intros s h s2 ent [Hv Ht] HI.
  rewrite load_entry_eq. intros [= <- <-] _. pose proof HI as (_ & Hr & Ho).
  rewrite (rep_add_cycle n kEmpty Hn s _ _ t Hr Ho).
  pose proof (rep_cycle_range n kEmpty Hn s _ _ t Hr Ho) as Hcr.
  set (ent := entries_ s !!! slot_of n t) in *.
  split_and!; [gr|done|].
  destruct (Z.eqb_spec (cycle_flags ent) (t / n)) as [Hc|Hc].
  { apply (rep_cycle_eq n kEmpty Hn _ _ _ _ Hr) in Hc. simpl. apply wp_choose. intros b.
    apply (wp_help i t b _ _ (fun h => opview i h = Some (OpEnq v, []))); [stab|done|lia|].
    intros ok s1 h1 Hv1 HI1. by apply (wp_ret _ _ _ i); [stab|]. }
  destruct (Z.eqb_spec (cycle_flags ent + 1) (t / n)) as [Hc1|_]; simpl;
    [|by apply (wp_ret _ _ _ i); [stab|]].
  apply (wp_act _ _ _ i (fun s h => opview i h = Some (OpEnq v, []) /\ t <= tail_ s)); [stab|done|].
  clearbody ent. clear HI Hr Ho Ht Hv s h. intros s h s2 ok [Hv Ht] HI.
  rewrite cas2_entry_eq. pose proof HI as (_ & Hr & Ho).
  case_decide as Hcas; intros [= <- <-]; intros Hok;
    [|rewrite lin_nil; split_and!; [gr|done|];
      by apply (wp_ret _ _ _ i); [stab|]].
  subst ent. apply (rep_cycle_pred n kEmpty Hn _ _ _ _ Hr) in Hc1.
  pose proof (rep_tail _ _ _ _ _ Hr) as Htl. assert (t = top n (enqd h)) as -> by lia.
  destruct Hok as (_ & Ho' & Hroom).
  unfold enqd, deqd in Ho', Hroom. rewrite !events_app, !events_lin, enqs_app, deqs_app in *.
  fold (enqd h) (deqd h) in *. simpl in Ho', Hroom. rewrite app_nil_r, length_app in Hroom.
  simpl in Hroom. rewrite (u64_small v) by (unfold is_u64, valid in *; lia).
  assert (Inv (mkState (<[slot_of n (top n (enqd h)) := mkEntry (top n (enqd h) / n) v]>
            (entries_ s)) (head_ s) (tail_ s)) (h ++ (HLin i <$> [EvEnq v]))) as HI'.
  { apply (Inv_enq s); [done| |done]. apply rep_fill; try done; lia. }
  split_and!; [|done|].
  { split; simpl; [lia|]. unfold enqd. rewrite events_snoc, enqs_app, length_app. simpl. lia. }
  apply wp_choose. intros b.
  apply (wp_help i _ b _ _ (fun h => opview i h = Some (OpEnq v, [EvEnq v]))); [stab| | |].
  - rewrite (opview_lin i [EvEnq v] h i), decide_True, Hv by done. done.
  - unfold enqd at 3. rewrite events_app, (events_lin i [EvEnq v]), enqs_app.
    fold (enqd h). simpl. unfold top. rewrite length_app. simpl. lia.
  - intros ok s1 h1 Hv1 HI1. apply (wp_ret _ _ _ i); [stab|].
    exists (OpEnq v), [EvEnq v]. split; [done|]. by left.
Qed.

Lemma wp_dequeue i s h : LI i DeqLoop s h -> Inv s h -> wp i (dequeue_loop n kEmpty) (Q i) (s, h).
Proof.
  intros Hv _. unfold dequeue_loop. rewrite (u64_n n Hn Hn64). simpl.
  apply (wp_silent _ _ _ i (LI i DeqLoop)); [stab|done|]. clear s h Hv.
  intros s h s2 t Hv HI [= <- <-] _.
  pose proof HI as (_ & Hr & Ho). pose proof (rep_head _ _ _ _ _ Hr) as Hh.
  set (t := head_ s) in *. assert (n <= t) as Hnt by lia.
  split_and!; [gr|done|].
  apply (wp_act _ _ _ i (fun s h => opview i h = Some (OpDeq, []) /\ t <= head_ s)); [stab|done|].
  clear HI Hr Ho Hh Hv. clearbody t. clear s h. intros s h s2 ent [Hv Ht] HI.
  rewrite load_entry_eq. intros [= <- <-] _. pose proof HI as (_ & Hr & Ho).
  rewrite (rep_add_cycle n kEmpty Hn s _ _ t Hr Ho).
  pose proof (rep_cycle_range n kEmpty Hn s _ _ t Hr Ho) as Hcr.
  pose proof (rep_head _ _ _ _ _ Hr) as Hh. pose proof (rep_count _ _ _ _ _ Hr) as Hcnt.
  destruct (Z.eqb_spec (cycle_flags (entries_ s !!! slot_of n t)) (t / n)) as [Hc|Hc]; simpl negb.
  - (* the slot of [t] is filled *)
    simpl andb. cbv iota. rewrite lin_nil.
    pose proof (rep_cycle_eq n kEmpty Hn _ _ _ _ Hr Hc) as Htop.
    destruct (rep_slots _ _ _ _ _ Hr t ltac:(lia)) as [_ Hval]. specialize (Hval Hnt).
    set (v := index_or_ptr (entries_ s !!! slot_of n t)) in *.
    pose proof (proj1 (Forall_lookup _ _) (rep_vals _ _ _ _ _ Hr) _ _ Hval) as Hvr.
    simpl in Hvr. rewrite (cast_T_small kEmpty v Hvr).
    split_and!; [gr|done|]. simpl. apply wp_choose. intros b.
    apply (wp_act _ _ _ i (fun s h => opview i h = Some (OpDeq, []) /\
             enqd h !! Z.to_nat (t - n) = Some v)); [stab|done|].
    clearbody v. clear HI Hr Ho Hh Hv Ht Hcr Hcnt Hc Htop Hval s h.
    intros s h s2 ok [Hv Hval] HI. rewrite cas_head_eq. pose proof HI as (_ & Hr & Ho).
    case_decide as Hcas; intros [= <- <-]; intros _;
      [|rewrite lin_nil; split_and!; [gr|done|]; by apply (wp_ret _ _ _ i); [stab|]].
    destruct Hcas as [_ Hcas]. pose proof (rep_head _ _ _ _ _ Hr) as Hh.
    replace (Z.to_nat (t - n)) with (length (deqd h)) in Hval by lia.
    assert (length (deqd h) < length (enqd h))%nat as Hlt by by apply lookup_lt_Some in Hval.
    pose proof (n_pos n Hn). unfold no_overflow, top in Ho.
    rewrite add64_small by (unfold is_u64; lia). rewrite <- Hcas.
    split_and!; [gr|by apply (Inv_deq s); [done|done|by apply rep_take]|].
    apply (wp_ret _ _ _ i); [stab|].
    exists OpDeq, [EvDeq v]. rewrite (opview_lin i [EvDeq v] h i), decide_True, Hv by done.
    split; [done|]. left. by exists v.
  - destruct (Z.eqb_spec (cycle_flags (entries_ s !!! slot_of n t) + 1) (t / n)) as [Hc1|_];
      simpl andb; cbv iota.
    + (* nothing was enqueued at [t]: the queue is empty now *)
      pose proof (rep_cycle_pred n kEmpty Hn _ _ _ _ Hr Hc1) as Htop. unfold top in Htop.
      assert (length (enqd h) = length (deqd h)) as Hl by lia.
      split_and!; [gr|by apply Inv_empty|].
      apply (wp_ret _ _ _ i); [stab|].
      exists OpDeq, [EvEmpty]. rewrite (opview_lin i [EvEmpty] h i), decide_True, Hv by done.
      split; [done|]. by right.
    + rewrite lin_nil. split_and!; [gr|done|]. by apply (wp_ret _ _ _ i); [stab|].
Qed.

Lemma Inv_call s h i o : Inv s h -> Inv s (h ++ [HCall i o]).
Proof. unfold Inv, enqd, deqd. by rewrite events_app, app_nil_r. Qed.

Lemma Inv_ret s h i r : Inv s h -> Inv s (h ++ [HRet i r]).
Proof. unfold Inv, enqd, deqd. by rewrite events_app, app_nil_r. Qed.

Lemma ncq_outline :
  proof_outline entry (body n kEmpty) Inv Gr client_ok LI (qgood kEmpty valid).
Proof.
  split.
  - intros i o s h HI _ (Hcall & _ & _). split_and!; [gr|by apply Inv_call|].
    apply Forall_app in Hcall as [_ Hcall]. rewrite Forall_singleton in Hcall.
    destruct o as [v|]; simpl in *; by rewrite opview_call, decide_True by done.
  - intros i r s h HI _. split; [gr|by apply Inv_ret].
  - intros i [v|v|] s h HL HI; [|by apply wp_enqueue|by apply wp_dequeue].
    destruct HL as [Hv Hr]. simpl. destruct (Z.eqb_spec v kEmpty) as [->|Hne].
    + apply (wp_ret _ _ _ i); [stab|]. exists (OpEnq kEmpty), []. split; [done|].
      right. split; [unfold valid; lia|done].
    + apply (wp_ret _ _ _ i); [stab|]. split; [done|]. unfold valid. lia.
Qed.

End lin.

(** ** Theorems *)

(** C1. Linearizability of [NCQ<T>]: start any number of threads on a
    new queue and interleave their atomic accesses in any order, with any
    spurious failures; as long as the clients pass values of the element type,
    keep at most [n] elements in the queue and stay below [2^64] positions,
    (1) the linearization events form a legal history of a FIFO queue holding
    at most [n] elements, and (2) every completed operation had exactly one of
    them, between its call and its return, with the result it returned;
    [enqueue(kEmpty)] returns [false] without effect. *)
Theorem ncq_linearizable c kEmpty threads cfg :
  0 <= c <= two64 - 8 -> 0 < kEmpty < two64 ->
  let n := round_capacity c in
  reach entry (body n kEmpty) (client_ok n kEmpty) (NCQ_new c) threads cfg ->
  (exists q, fifo_run [] (events (hist cfg)) = Some q /\ Z.of_nat (length q) <= n) /\
  Forall (fun '(o, es, r) => qgood kEmpty (valid kEmpty) o es r) (completed (hist cfg)).
Proof.
  intros Hc HkE n Hreach. destruct (round_capacity_spec c) as [Hn Hb]; [lia|]. fold n in Hn, Hb.
  assert (n < two64) as Hn64 by (unfold two64 in *; lia).
  pose proof (rep_new c kEmpty Hc) as Hrep. fold n in Hrep.
  assert (Inv n kEmpty (NCQ_new c) []) as HI0.
  { split_and!; [by eexists|done|]. unfold no_overflow, top, enqd. simpl. unfold two64 in *. lia. }
  destruct (rg_adequacy _ _ _ _ _ _ _ (ncq_outline n kEmpty Hn Hn64 HkE) _ _ _
    (fun i c => conj (Z.le_refl _) (fun _ => eq_refl)) HI0 Hreach) as (HI & _ & Hgood).
  split; [|done]. destruct (Inv_ok n kEmpty _ _ HI) as (q & Hq & He).
  exists q. split; [done|]. destruct HI as (_ & Hr & _).
  pose proof (rep_room _ _ _ _ _ Hr) as Hroom. rewrite He, length_app in Hroom. lia.
Qed.

(** Two producers and a consumer on a queue of four slots: the second producer
    overtakes the first, a compare-exchange fails spuriously. *)
Definition ncq_demo_schedule : list (nat * move (qop Z)) :=
  [(0%nat, Call (OpEnq 7)); (1%nat, Call (OpEnq 8))] ++ go 0 2 ++ go 1 2 ++ go 0 1 ++ go 1 2 ++
  [(1%nat, Go true)] ++ go 1 2 ++ [(2%nat, Call OpDeq)] ++ go 2 5 ++ go 0 12.

Definition ncq_demo : config :=
  default (start (NCQ_new 3) 3)
    (scheds entry (body 4 (two64 - 1)) ncq_demo_schedule (start (NCQ_new 3) 3)).

Lemma ncq_linearizable_witness :
  (exists q, fifo_run [] (events (hist ncq_demo)) = Some q /\ Z.of_nat (length q) <= round_capacity 3) /\
  Forall (fun '(o, es, r) => qgood (two64 - 1) (valid (two64 - 1)) o es r)
    (completed (hist ncq_demo)).
Proof.
  apply (ncq_linearizable 3 (two64 - 1) 3 ncq_demo);
    [unfold two64; lia|unfold two64; lia|].
  apply (scheds_reach entry (body 4 (two64 - 1)) _ (client_okb 4 (two64 - 1)) (NCQ_new 3) 3
    ncq_demo_schedule (start (NCQ_new 3) 3)).
  - intros s h. apply client_okb_ok.
  - constructor.
  - vm_compute. reflexivity.
  - vm_compute. reflexivity.
Defined.

(** C24. From every state that represents a queue, also one in which another
    thread was stopped between filling a slot and moving the tail: [enqueue] of a
    value on a ring with fewer than [n] elements, run alone, terminates within as
    many loop iterations as there are spurious failures plus two, returns [true]
    and appends the value; [dequeue], run alone, terminates within as many
    iterations as there are spurious failures plus one and returns the oldest
    value, or [kEmpty] from an empty queue; each leaves the ring representing the
    new queue.  Nothing is claimed of [enqueue] on a full ring, for which see
    [ncq_overfull_dequeue_spins]. *)
Theorem ncq_solo_runs n kEmpty s E D w :
  ring_size n -> n < two64 -> 0 < kEmpty < two64 ->
  rep n kEmpty s E D -> no_overflow n E ->
  (forall v, 0 <= v < kEmpty -> Z.of_nat (length (drop D E)) < n ->
     exists s' w', enqueue n kEmpty (3 + length w) v w s = Some (s', w', RBool true) /\
                   rep n kEmpty s' (E ++ [v]) D) /\
  (exists s' w', dequeue n kEmpty (1 + length w) w s =
                   Some (s', w', RVal (match drop D E with [] => kEmpty | v :: _ => v end)) /\
                 rep n kEmpty s' E (length E `min` Datatypes.S D)).
Proof.
  intros Hn Hn64 HkE Hr Ho. pose proof (rep_count _ _ _ _ _ Hr) as Hcnt. split.
  - intros v Hv Hroom. rewrite length_drop in Hroom.
    destruct (enqueue_from_loop n kEmpty Hn Hn64 HkE s E D v w Hr Ho Hv ltac:(lia))
      as (s' & w' & He & Hr').
    exists s', w'. split; [|done]. unfold enqueue.
    assert (run (body n kEmpty (EnqEntry v)) w s = (s, w, inl (EnqLoop v))) as Hrun.
    { simpl. destruct (Z.eqb_spec v kEmpty); [lia|done]. }
    exec_jump Hrun. exact He.
  - destruct (decide (D < length E)%nat) as [Hlt|Hge].
    + destruct (lookup_lt_is_Some_2 E D Hlt) as [v Hv].
      destruct (dequeue_from_loop n kEmpty Hn Hn64 s E D w v Hr Ho Hv) as (s' & w' & He & Hr').
      exists s', w'. rewrite (drop_S _ _ _ Hv). replace (length E `min` S D)%nat with (S D) by lia.
      done.
    + assert (D = length E) as HD by lia. exists s, w. rewrite drop_ge by lia.
      replace (length E `min` S D)%nat with D by lia. split; [|done].
      pose proof (dequeue_empty_block n kEmpty Hn Hn64 s E D w Hr Ho HD) as Hrun.
      exec_ret Hrun.
Qed.

Lemma ncq_solo_runs_witness :
  exists s' w', dequeue 4 (two64 - 1) (1 + 2) [true; true] (NCQ_new 4) =
                  Some (s', w', RVal (two64 - 1)).
Proof.
  assert (ring_size 4) as Hn by (split; done).
  destruct (ncq_solo_runs 4 (two64 - 1) (NCQ_new 4) [] 0 [true; true]) as [_ (s' & w' & He & _)];
    [done|unfold two64; lia|unfold two64; lia
    |apply (rep_new 4); unfold two64; lia|unfold no_overflow, top, two64; simpl; lia|].
  exists s', w'. exact He.
Defined.

(** [is_empty] at rest: the answer [false] is always right; the
    answer [true] leaves at most one element, because the tail may lag behind
    one filled slot. *)
Theorem ncq_is_empty_approx n kEmpty s E D :
  rep n kEmpty s E D ->
  (is_empty s = false -> drop D E <> []) /\
  (is_empty s = true -> (length (drop D E) <= 1)%nat).
Proof.
  intros Hr. pose proof (rep_head _ _ _ _ _ Hr). pose proof (rep_tail _ _ _ _ _ Hr).
  unfold is_empty, top in *. split; intros He; bool_hyps.
  - intros Hd. apply (f_equal length) in Hd. rewrite length_drop in Hd. simpl in Hd. lia.
  - rewrite length_drop. lia.
Qed.

Lemma ncq_is_empty_approx_witness :
  is_empty (NCQ_new 4) = true /\ (length (drop 0 ([] : list Z)) <= 1)%nat.
Proof.
  split; [reflexivity|].
  apply (ncq_is_empty_approx 4 (two64 - 1) (NCQ_new 4) [] 0); [|reflexivity].
  apply (rep_new 4). unfold two64. lia.
Defined.

(** Enqueue a list of values, one after the other. *)
Definition fill (vs : list Z) (s : state) : option state :=
  foldl (fun o v => match o with
                    | Some s => match enqueue 4 (two64 - 1) 3 v [] s with
                                | Some (s', _, RBool true) => Some s'
                                | _ => None
                                end
                    | None => None
                    end) (Some s) vs.

(** The ring does not detect that it is full: on a queue of four
    slots a fifth [enqueue] returns [true] and overwrites the oldest value, after
    which [dequeue] never returns, whatever the number of iterations. *)
Theorem ncq_overfull_dequeue_spins :
  exists s, fill [1; 2; 3; 4; 5] (NCQ_new 4) = Some s /\
  forall fuel w, dequeue 4 (two64 - 1) fuel w s = None.
Proof.
  eexists. split; [vm_compute; reflexivity|].
  induction fuel as [|fuel IH]; intros w; [done|].
  unfold dequeue in *. etransitivity; [|exact (IH w)].
  apply exec_jump. vm_compute. reflexivity.
Qed.

(** The constructor rounds the capacity up to whole cache lines of
    four entries, at least one line; up to [2^60 - 4] entries the byte count it
    passes to the allocator is exact, and the new ring represents the empty
    queue. *)
Theorem ncq_new_ok c kEmpty :
  0 <= c <= 2 ^ 60 - 4 ->
  ring_size (round_capacity c) /\ c <= round_capacity c <= Z.max 4 (c + 3) /\
  alloc_bytes c = 16 * round_capacity c /\ rep (round_capacity c) kEmpty (NCQ_new c) [] 0.
Proof.
  intros Hc. change (2 ^ 60) with 1152921504606846976 in Hc.
  destruct (round_capacity_spec c) as [Hr Hb]; [unfold two64; lia|].
  pose proof Hr as [Hr4 _]. pose proof (Z.div_mod (round_capacity c) 4 ltac:(lia)) as Hdm.
  destruct Hr as [_ Hm]. rewrite Hm in Hdm. split_and!; try done; try lia.
  - unfold alloc_bytes. rewrite u64_small; [lia|]. unfold is_u64, two64. lia.
  - apply rep_new. unfold two64. lia.
Qed.

Lemma ncq_new_ok_witness :
  ring_size (round_capacity 9) /\ 9 <= round_capacity 9 <= Z.max 4 (9 + 3) /\
  alloc_bytes 9 = 16 * round_capacity 9 /\
  rep (round_capacity 9) (two32 - 1) (NCQ_new 9) [] 0.
Proof. apply (ncq_new_ok 9 (two32 - 1)). lia. Defined.

(** For [2^60] entries the byte count wraps around to zero, so the allocation
    succeeds and the initialization writes out of bounds. *)
Lemma ncq_alloc_wraps : alloc_bytes (2 ^ 60) = 0 /\ round_capacity (2 ^ 60) = 2 ^ 60.
Proof. split; reflexivity. Qed.
