(* ===== verification/NcqProgress.v ===== *)
(** * NcqProgress: the naive circular queue is lock-free

    As long as the clients keep to the capacity, a loop of [NCQ<T>] starts again
    only because another operation filled or took a slot or moved the tail
    meanwhile, because the thread itself moved the tail over a filled slot, or
    because a weak exchange failed spuriously. *)

From stdpp Require Import base list numbers option relations.
From Stdlib Require Import ZArith Lia.
From S2P Require Import Prelude Conc Fifo Cas2 Ring Ncq NcqProofs NcqLin Progress.

Local Open Scope Z_scope.

Section progress.
Context (n kEmpty : Z).
Hypothesis (Hn : ring_size n) (Hn64 : n < two64).
Hypothesis (HkE : 0 < kEmpty < two64).

Abbreviation hist_t := (list (hev (qev Z) (qop Z) (qres Z))).

(** The filled slots, the slots taken and the moves of the tail. *)
Definition ncq_ver (s : state) (h : hist_t) : nat :=
  (length (enqd h) + length (deqd h) + Z.to_nat (tail_ s - n))%nat.

Definition ncq_rank (l : label) (s : state) : nat :=
  match l with EnqEntry _ => 1 | _ => 0 end.

Abbreviation NInv := (Inv n kEmpty).

Lemma ncq_ver_le s h : NInv s h -> (ncq_ver s h <= 3 * length (enqd h))%nat.
Proof.
  intros (_ & Hr & _). pose proof (rep_tail _ _ _ _ _ Hr) as Ht. pose proof (rep_count _ _ _ _ _ Hr).
  unfold ncq_ver, top in *. lia.
Qed.

Lemma ncq_ver_mono i (c c' : state * hist_t) :
  NInv c.1 c.2 -> NInv c'.1 c'.2 -> hist_step i c.2 c'.2 -> Gr i c c' ->
  (ncq_ver c.1 c.2 <= ncq_ver c'.1 c'.2)%nat.
Proof.
  intros _ _ Hh [Ht _]. destruct (hist_step_events i _ _ Hh) as [k Hk].
  unfold ncq_ver, enqd, deqd. rewrite Hk, enqs_app, deqs_app, !length_app. lia.
Qed.

(** While there is no change the ring stays the same. *)
Definition still (s : state) (h : hist_t) (s' : state) (h' : hist_t) : Prop :=
  s' = s /\ enqd h' = enqd h /\ deqd h' = deqd h.

Lemma calm_still s0 h0 i : calm_stable NInv Gr ncq_ver i (still s0 h0).
Proof.
  intros c c' [(j & _ & Hh & [Ht Hent] & (_ & HI & _) & (_ & HI' & _)) Hv] (Hs & He & Hd).
  destruct (hist_step_events j _ _ Hh) as [k Hk]. unfold ncq_ver, enqd, deqd in Hv, Hent.
  rewrite Hk, enqs_app, deqs_app, !length_app in Hv. rewrite Hk, enqs_app, length_app in Hent.
  pose proof (rep_tail _ _ _ _ _ HI) as Htl. pose proof (rep_tail _ _ _ _ _ HI') as Htl'.
  assert (enqs k = []) as Hek by (apply nil_length_inv; lia).
  assert (deqs k = []) as Hdk by (apply nil_length_inv; lia).
  assert (enqd c'.2 = enqd c.2) as He' by (unfold enqd; by rewrite Hk, enqs_app, Hek, app_nil_r).
  assert (deqd c'.2 = deqd c.2) as Hd' by (unfold deqd; by rewrite Hk, deqs_app, Hdk, app_nil_r).
  split_and!; [|congruence|congruence]. rewrite <- Hs.
  pose proof (rep_head _ _ _ _ _ HI) as Hhd. pose proof (rep_head _ _ _ _ _ HI') as Hhd'. rewrite Hd' in Hhd'.
  specialize (Hent ltac:(rewrite Hek; simpl; lia)).
  destruct c.1 as [es hd tl] eqn:E1, c'.1 as [es' hd' tl'] eqn:E2. simpl in *. f_equal; [done|lia|lia].
Qed.

Abbreviation npw := (pw NInv Gr (client_ok n kEmpty) ncq_ver ncq_rank).

Lemma pw_still i r s0 h0 (X : Set) f ev (k : X -> prog_t) s h :
  still s0 h0 s h -> NInv s0 h0 ->
  (forall h1, still s0 h0 s0 h1 ->
     ncq_ver (f s0).1 (h1 ++ (HLin i <$> ev (f s0).2)) = ncq_ver s0 h0 ->
     npw i r (k (f s0).2) ((f s0).1, h1 ++ (HLin i <$> ev (f s0).2))) ->
  npw i r (Act X f ev k) (s, h).
Proof.
  intros Hs HI0 Hk. apply (pw_act _ _ _ _ _ i r (still s0 h0)); [apply calm_still|done|].
  intros s1 h1 s2 x (-> & He & Hd) _ Hf _ Hv. specialize (Hk h1). rewrite Hf in Hk. apply Hk; [done|].
  etransitivity; [exact Hv|]. unfold ncq_ver. by rewrite He, Hd.
Qed.

(** A load. *)
Lemma pw_look i r s0 h0 (X : Set) f ev (k : X -> prog_t) s h :
  still s0 h0 s h -> NInv s0 h0 -> (f s0).1 = s0 ->
  enqs (ev (f s0).2) = [] -> deqs (ev (f s0).2) = [] ->
  (forall h1, still s0 h0 s0 h1 -> npw i r (k (f s0).2) (s0, h1)) ->
  npw i r (Act X f ev k) (s, h).
Proof.
  intros Hs HI0 Hf He Hd Hk. apply (pw_still i r s0 h0); [done|done|].
  intros h1 (_ & He1 & Hd1) _. rewrite Hf. apply Hk. split_and!; [done| |].
  - unfold enqd in *. by rewrite events_app, events_lin, enqs_app, He, app_nil_r.
  - unfold deqd in *. by rewrite events_app, events_lin, deqs_app, Hd, app_nil_r.
Qed.

Lemma npw_enqueue i v s0 h0 : NInv s0 h0 -> npw i 0 (enqueue_loop n v) (s0, h0).
Proof.
  intros HI0. pose proof HI0 as (_ & Hr & Ho). pose proof (rep_tail _ _ _ _ _ Hr) as Ht.
  pose proof (n_pos n Hn). unfold enqueue_loop. rewrite (u64_n n Hn Hn64). simpl.
  apply (pw_look i 0 s0 h0); [done..|]. intros h1 Hs1. simpl.
  apply (pw_look i 0 s0 h0); [done|done|by rewrite load_entry_eq|done|done|]. intros h2 Hs2.
  rewrite load_entry_eq. simpl. rewrite (rep_add_cycle n kEmpty Hn s0 _ _ (tail_ s0) Hr Ho).
  destruct (decide (tail_ s0 = top n (enqd h0))) as [Htop|Hlag].
  - pose proof (rep_top_cycle n kEmpty Hn _ _ _ Hr) as Hc. rewrite <- Htop in Hc.
    destruct (Z.eqb_spec (cycle_flags (entries_ s0 !!! slot_of n (tail_ s0))) (tail_ s0 / n)); [lia|].
    rewrite Hc, Z.eqb_refl. simpl. apply (pw_still i 0 s0 h0); [done|done|]. intros h3 Hs3.
    rewrite cas2_entry_eq, decide_True by done. simpl. intros Hv. exfalso. revert Hv.
    destruct Hs3 as (_ & He & Hd). unfold ncq_ver, enqd, deqd in *.
    rewrite events_snoc, enqs_app, deqs_app, !length_app, He, Hd. simpl. lia.
  - destruct (rep_slots _ _ _ _ _ Hr (tail_ s0)) as [Hc _]; [lia|]. rewrite Hc, Z.eqb_refl. simpl.
    apply pw_choose. apply (pw_still i 0 s0 h0); [done|done|]. intros h3 Hs3.
    rewrite cas_tail_eq, decide_True by done. simpl. unfold no_overflow in Ho.
    rewrite add64_small, app_nil_r by (unfold is_u64; lia). intros Hv. exfalso. revert Hv.
    destruct Hs3 as (_ & He & Hd). unfold ncq_ver. rewrite He, Hd. simpl. lia.
Qed.

Lemma npw_dequeue i s0 h0 : NInv s0 h0 -> npw i 0 (dequeue_loop n kEmpty) (s0, h0).
Proof.
  intros HI0. pose proof HI0 as (_ & Hr & Ho). pose proof (rep_count _ _ _ _ _ Hr) as Hcnt.
  unfold dequeue_loop. rewrite (u64_n n Hn Hn64). simpl.
  apply (pw_look i 0 s0 h0); [done..|]. intros h1 Hs1. simpl.
  apply (pw_look i 0 s0 h0); [done|done|by rewrite load_entry_eq|by case_match|by case_match|]. intros h2 Hs2.
  rewrite load_entry_eq. simpl. rewrite (rep_add_cycle n kEmpty Hn s0 _ _ (head_ s0) Hr Ho).
  destruct (decide (length (deqd h0) < length (enqd h0))%nat) as [Hlt|Hge].
  - destruct (rep_front _ _ _ _ _ Hr Hlt) as [Hf _]. rewrite Hf. simpl. rewrite Z.eqb_refl. simpl.
    apply pw_choose. apply (pw_still i 0 s0 h0); [done|done|]. intros h3 Hs3.
    rewrite cas_head_eq, decide_True by done. simpl. intros Hv. exfalso. revert Hv.
    destruct Hs3 as (_ & He & Hd). unfold ncq_ver, enqd, deqd in *.
    rewrite events_snoc, enqs_app, deqs_app, !length_app, He, Hd. simpl. lia.
  - pose proof (rep_empty_cycle n kEmpty Hn _ _ _ Hr ltac:(lia)) as Hc. rewrite Hc, Z.eqb_refl.
    destruct (Z.eqb_spec (cycle_flags (entries_ s0 !!! slot_of n (head_ s0))) (head_ s0 / n)); [lia|].
    apply pw_return.
Qed.

(** Five steps are the longest block. *)
Lemma ncq_progress :
  progress_outline entry (body n kEmpty) NInv Gr (client_ok n kEmpty) (LI kEmpty)
    (qgood kEmpty (valid kEmpty)) ncq_ver ncq_rank 5 1.
Proof.
  split.
  - by apply ncq_outline.
  - by intros i c.
  - apply ncq_ver_mono.
  - intros [v|v|]; unfold body, enqueue_loop, dequeue_loop; depth_solve.
  - intros [v|v|] s; simpl; lia.
  - intros i [v|v|] s h _ HI.
    + simpl. destruct (v =? kEmpty); [apply pw_return|].
      apply (pw_jump _ _ _ _ _ i 1 (fun _ _ => True)); [done|done|]. simpl. lia.
    + by apply npw_enqueue.
    + by apply npw_dequeue.
Qed.

End progress.

(** ** Lock-freedom *)

(** The events of one access after events that fill no slot. *)
Ltac enq_step :=
  rewrite ?enqs_app; repeat match goal with H : enqs _ = [] |- _ => rewrite H end; simpl; try done; try lia.

Lemma ncq_running_enqs n kEmpty ok s0 threads cfg i o es :
  reach entry (body n kEmpty) ok s0 threads cfg ->
  opview i (hist cfg) = Some (o, es) -> (length (enqs es) <= 1)%nat.
Proof.
  apply (reach_emits entry (body n kEmpty) (fun _ es => (length (enqs es) <= 1)%nat) (fun _ _ es => enqs es = []));
    [simpl; lia|done|].
  clear. intros o l es Hl. destruct l as [v|v|]; unfold body, enqueue_loop, dequeue_loop; simpl;
    repeat first [exact I | progress simpl | intros ? | split; [by repeat case_match; enq_step|]
                 | case_match | by enq_step].
Qed.

Lemma ncq_enqs_le n kEmpty ok s0 threads cfg :
  reach entry (body n kEmpty) ok s0 threads cfg ->
  Forall (fun '(o, es, r) => qgood kEmpty (valid kEmpty) o es r) (completed (hist cfg)) ->
  (length (enqd (hist cfg)) <= length (completed (hist cfg)) + threads)%nat.
Proof.
  intros Hr Hg. unfold enqd.
  destruct (events_weigh entry (body n kEmpty) ok s0 threads cfg (fun es => length (enqs es)))
    as (_ & _ & ->); [intros fs es; by rewrite enqs_app, length_app|done|done|].
  etransitivity; [apply (weigh_le _ _ _ 1)|lia].
  - intros o es r Hin. pose proof (proj1 (list.Forall_forall _ _) Hg _ Hin) as Hgo. simpl in Hgo.
    destruct o as [v|]; simpl in Hgo.
    + destruct Hgo as [(_ & -> & _)|(_ & -> & _)]; simpl; lia.
    + destruct Hgo as [(v & _ & -> & _)|(-> & _)]; simpl; lia.
  - intros i o es. by apply (ncq_running_enqs n kEmpty ok s0 threads cfg i).
Qed.

(** C10. [NCQ<T>] is lock-free, with a bound, as long as its clients keep to the
    capacity: in an execution of any number of threads, whatever the
    interleaving, the threads take at most twelve steps for each spurious
    failure and [12 * (3n + 1)] steps for each operation that has completed or
    is running, where [n] is the number of threads.  Operations complete as long
    as threads take steps. *)
Theorem ncq_lock_free c kEmpty threads ms cfg :
  0 <= c <= two64 - 8 -> 0 < kEmpty < two64 ->
  let n := round_capacity c in
  trace entry (body n kEmpty) (client_ok n kEmpty) ms (start (NCQ_new c) threads) cfg ->
  (steps ms <= 12 * ((3 * threads + 1) * (length (completed (hist cfg)) + threads) + spurious ms))%nat.
Proof.
  intros Hc HkE n Ht. destruct (round_capacity_spec c) as [Hn Hb]; [lia|]. fold n in Hn, Hb.
  assert (n < two64) as Hn64 by (unfold two64 in *; lia).
  assert (Inv n kEmpty (NCQ_new c) []) as HI0.
  { split_and!; [by eexists|by apply rep_new|]. unfold no_overflow, top, enqd. simpl. unfold two64 in *. lia. }
  pose proof (trace_reach _ _ _ _ _ _ _ _ (reach_start entry (body n kEmpty) _ (NCQ_new c) threads) Ht) as Hr.
  pose proof (progress_bound _ _ _ _ _ _ _ _ _ _ _ (ncq_progress n kEmpty Hn Hn64 HkE) _ _ _ _ HI0 Ht) as Hp.
  destruct (rg_adequacy _ _ _ _ _ _ _ (ncq_outline n kEmpty Hn Hn64 HkE) _ _ _
    (fun i c => conj (Z.le_refl _) (fun _ => eq_refl)) HI0 Hr) as (HI & _ & Hg).
  pose proof (ncq_ver_le n kEmpty _ _ HI) as Hv. pose proof (ncq_enqs_le _ _ _ _ _ _ Hr Hg) as Hl.
  assert (ncq_ver n (shared cfg) (hist cfg) <= 3 * (length (completed (hist cfg)) + threads))%nat as Hvl by lia.
  apply (Nat.mul_le_mono_l _ _ threads) in Hvl. unfold cost in Hp. simpl in Hp. lia.
Qed.

Lemma ncq_lock_free_witness :
  length (completed (hist ncq_demo)) = 2%nat /\
  (steps ncq_demo_schedule <=
     12 * ((3 * 3 + 1) * (length (completed (hist ncq_demo)) + 3) + spurious ncq_demo_schedule))%nat.
Proof.
  split; [vm_compute; reflexivity|].
  apply (ncq_lock_free 3 (two64 - 1) 3 ncq_demo_schedule ncq_demo); [unfold two64; lia|unfold two64; lia|].
  apply (trace_visits entry (body 4 (two64 - 1)) _ (client_okb 4 (two64 - 1))).
  - intros s h. apply client_okb_ok.
  - vm_compute. reflexivity.
  - vm_compute. reflexivity.
Defined.
