(* ===== verification/Scq.v ===== *)
(** * Scq: the scalable circular queue of indices

    Models [SCQ<T>] ([include/lscq/scq.hpp], [src/scq.cpp]).  [scqsize_],
    [bottom_] and the sentinel [kEmpty] are fixed by the constructor and the
    element type; the mutable members are the record [state].  The loop heads
    are the constructors of [label]: [EnqTicket] and [DeqTicket] are the outer
    loops (one ticket each), [EnqSlot] and [DeqSlot] the inner loops on the slot
    of the ticket, [FixLoop] the loop of [fixState]; [EnqEntry] and [DeqEntry]
    are the tests before the loops.

    [PutAt t v] and [GetAt h v] annotate the compare-and-swap that stores a
    value with ticket [t] and the atomic OR that consumes the value of ticket
    [h]; [TakeTail t] and [TakeHead h] annotate the drawing of the tickets. *)

From stdpp Require Import base list numbers option.
From Stdlib Require Import ZArith Lia.
From S2P Require Import Prelude Conc Fifo Cas2 Ring TicketRing.

Local Open Scope Z_scope.

(** ** Members and constructor *)

Record state := mkState {
  entries_ : list Entry;
  head_ : Z;
  tail_ : Z;
  threshold_ : Z
}.

(** [threshold_reset]: [3 * QSIZE - 1], computed in 64-bit words. *)
Definition threshold_reset (scqsize : Z) : Z :=
  i64 (sub64 (add64 scqsize (Z.shiftr scqsize 1)) 1).

(** The rounded ring size; [None] when [fuel] iterations of the rounding loop are
    not enough. *)
Definition SCQ_size (fuel : nat) (scqsize : Z) : option Z :=
  let scqsize_ := if scqsize <? 4 then 4 else scqsize in
  match round_up_pow2 fuel scqsize_ with
  | Some scqsize_ =>
      let qsize_ := scqsize_ / 2 in
      Some (if qsize_ =? 0 then 2 else scqsize_)
  | None => None
  end.

Definition SCQ_qsize (scqsize_ : Z) : Z :=
  let qsize_ := scqsize_ / 2 in if qsize_ =? 0 then 1 else qsize_.

Definition SCQ_bottom (scqsize_ : Z) : Z := u64 (scqsize_ - 1).

(** [scqsize_ * sizeof(Entry)], the bytes that the constructor allocates. *)
Definition SCQ_alloc_bytes (scqsize_ : Z) : Z := u64 (scqsize_ * 16).

Definition SCQ_new (scqsize_ : Z) : state :=
  mkState (replicate (Z.to_nat scqsize_) (mkEntry (pack_cycle_flags 0 true) (SCQ_bottom scqsize_)))
    (u64 scqsize_) (u64 scqsize_) (threshold_reset (u64 scqsize_)).

(** ** Operations *)

Section ops.
Context (scqsize_ : Z) (bottom_ : Z) (kEmpty : Z).

Definition cast_T (x : Z) : Z := x mod (kEmpty + 1).

Definition cache_remap (idx : Z) : Z :=
  let line := Z.shiftr idx 2 in
  let offset := Z.land idx 3 in
  let num_lines := Z.shiftr scqsize_ 2 in
  offset * num_lines + line.

(** Atomic accesses. *)
Definition load_head (s : state) : state * Z := (s, head_ s).

Definition load_tail (s : state) : state * Z := (s, tail_ s).

Definition load_threshold (s : state) : state * Z := (s, threshold_ s).

Definition store_threshold (v : Z) (s : state) : state * unit :=
  (mkState (entries_ s) (head_ s) (tail_ s) v, tt).

Definition fetch_add_tail (s : state) : state * Z :=
  (mkState (entries_ s) (head_ s) (add64 (tail_ s) 1) (threshold_ s), tail_ s).

Definition fetch_add_head (s : state) : state * Z :=
  (mkState (entries_ s) (add64 (head_ s) 1) (tail_ s) (threshold_ s), head_ s).

Definition fetch_sub_threshold (s : state) : state * Z :=
  (mkState (entries_ s) (head_ s) (tail_ s) (i64 (threshold_ s - 1)), threshold_ s).

Definition cas_tail_weak (spurious : bool) (expected desired : Z) (s : state) : state * bool :=
  let '(m, r) := cas_word_weak spurious expected desired (tail_ s) in
  (mkState (entries_ s) (head_ s) m (threshold_ s), r.2).

Definition set_entry (j : Z) (e : Entry) (s : state) : state :=
  mkState (<[Z.to_nat j := e]> (entries_ s)) (head_ s) (tail_ s) (threshold_ s).

Definition load_entry (j : Z) (s : state) : state * Entry :=
  let '(cur, e) := entry_load (entries_ s !!! Z.to_nat j) in
  (set_entry j cur s, e).

Definition cas2_entry (j : Z) (expected desired : Entry) (s : state) : state * bool :=
  let '(cur, _, ok) := cas2_mutex (entries_ s !!! Z.to_nat j) expected desired in
  (set_entry j cur s, ok).

(** [atomic_or_u64(&entries_[j].index_or_ptr, mask)]. *)
Definition or_index (j mask : Z) (s : state) : state * unit :=
  let e := entries_ s !!! Z.to_nat j in
  (set_entry j (mkEntry (cycle_flags e) (atomic_or_u64 (index_or_ptr e) mask)) s, tt).

Inductive label : Set :=
| EnqEntry (index : Z)
| EnqTicket (value : Z)
| EnqSlot (value t : Z)
| DeqEntry
| DeqTicket
| DeqSlot (h : Z)
| FixLoop.

Definition prog_t := prog state tev (label + qres Z).

Definition scq_shift : Z := log2_pow2_u64 scqsize_.

(** The slot of a ticket, as the code computes it. *)
Definition slot_index (t : Z) : Z := cache_remap (Z.land t bottom_).

(** [enqueue]: the tests before the loops. *)
Definition enqueue_entry (index : Z) : prog_t :=
  if index =? kEmpty then Ret (inr (RBool false))
  else
    let value := u64 index in
    if bottom_ <=? value then Ret (inr (RBool false))
    else Ret (inl (EnqTicket value)).

Definition enqueue_ticket (value : Z) : prog_t :=
  (let! t := atomic_lin fetch_add_tail (fun t => [TakeTail t]) in
   Ret (inl (EnqSlot value t)))%prog.

Definition enqueue_slot (value t : Z) : prog_t :=
  (let cycle_t := Z.shiftr t scq_shift in
   let j := slot_index t in
   let! ent := atomic (load_entry j) in
   let cycle_e := unpack_cycle (cycle_flags ent) in
   if cycle_less cycle_e cycle_t && (index_or_ptr ent =? bottom_) then
     let is_safe := unpack_is_safe (cycle_flags ent) in
     let! go_on := (if is_safe then Ret true
                    else let! hd := atomic load_head in Ret (hd <=? t)) in
     if (go_on : bool) then
       let expected := ent in
       let desired := mkEntry (pack_cycle_flags cycle_t true) value in
       let! ok := atomic_lin (cas2_entry j expected desired)
                    (fun ok : bool => if ok then [PutAt t value] else []) in
       if (ok : bool) then
         let! th := atomic load_threshold in
         if negb (th =? threshold_reset scqsize_) then
           let! _ := atomic (store_threshold (threshold_reset scqsize_)) in
           Ret (inr (RBool true))
         else Ret (inr (RBool true))
       else Ret (inl (EnqSlot value t))
     else Ret (inl (EnqTicket value))
   else Ret (inl (EnqTicket value)))%prog.

(** [dequeue]: the test of the threshold before the loops. *)
Definition dequeue_entry : prog_t :=
  (let! th := atomic load_threshold in
   if th <? 0 then
     let! head_now := atomic load_head in
     let! tail_now := atomic load_tail in
     if head_now <? tail_now then
       let! _ := atomic (store_threshold (threshold_reset scqsize_)) in
       Ret (inl DeqTicket)
     else Ret (inr (RVal kEmpty))
   else Ret (inl DeqTicket))%prog.

Definition dequeue_ticket : prog_t :=
  (let! h := atomic_lin fetch_add_head (fun h => [TakeHead h]) in
   Ret (inl (DeqSlot h)))%prog.

(** The reset of an exhausted threshold, shared by the two exits of the outer
    loop; both return [kEmpty]. *)
Definition dequeue_exhausted : prog_t :=
  (let! head_now := atomic load_head in
   let! tail_now := atomic load_tail in
   if head_now <? tail_now then
     let! _ := atomic (store_threshold (threshold_reset scqsize_)) in
     Ret (inr (RVal kEmpty))
   else if (tail_now <? head_now) && (scqsize_ <? sub64 head_now tail_now) then
     Ret (inl FixLoop)
   else Ret (inr (RVal kEmpty)))%prog.

(** What follows the inner loop. *)
Definition dequeue_after (h : Z) : prog_t :=
  (let! t := atomic load_tail in
   if t <=? add64 h 1 then
     let! prev := atomic fetch_sub_threshold in
     let next := i64 (prev - 1) in
     if next <=? 0 then dequeue_exhausted else Ret (inr (RVal kEmpty))
   else
     let! prev := atomic fetch_sub_threshold in
     let next := i64 (prev - 1) in
     if next <=? 0 then dequeue_exhausted else Ret (inl DeqTicket))%prog.

Definition dequeue_slot (h : Z) : prog_t :=
  (let cycle_h := Z.shiftr h scq_shift in
   let j := slot_index h in
   let! ent := atomic (load_entry j) in
   let cycle_e := unpack_cycle (cycle_flags ent) in
   if cycle_e =? cycle_h then
     if negb (unpack_is_safe (cycle_flags ent)) then Ret (inl (DeqSlot h))
     else
       let value := index_or_ptr ent in
       if value =? bottom_ then dequeue_after h
       else
         let! _ := atomic_lin (or_index j bottom_) (fun _ => [GetAt h value]) in
         Ret (inr (RVal (cast_T value)))
   else
     let desired :=
       if index_or_ptr ent =? bottom_
       then mkEntry (pack_cycle_flags cycle_h (unpack_is_safe (cycle_flags ent))) bottom_
       else mkEntry (pack_cycle_flags cycle_e false) (index_or_ptr ent) in
     if cycle_less cycle_e cycle_h then
       let expected := ent in
       let! ok := atomic (cas2_entry j expected desired) in
       if negb ok then Ret (inl (DeqSlot h)) else dequeue_after h
     else dequeue_after h)%prog.

(** [fixState], followed by what its two callers do next. *)
Definition fixState_loop : prog_t :=
  (let fixed :=
     (let! _ := atomic (store_threshold (threshold_reset scqsize_)) in
      Ret (inr (RVal kEmpty))) in
   let! h := atomic load_head in
   let! t := atomic load_tail in
   if (h <=? t) || (sub64 h t <=? scqsize_) then fixed
   else
     let! spurious := choose in
     let! ok := atomic (cas_tail_weak spurious t h) in
     if (ok : bool) then fixed else Ret (inl FixLoop))%prog.

Definition body (l : label) : prog_t :=
  match l with
  | EnqEntry index => enqueue_entry index
  | EnqTicket value => enqueue_ticket value
  | EnqSlot value t => enqueue_slot value t
  | DeqEntry => dequeue_entry
  | DeqTicket => dequeue_ticket
  | DeqSlot h => dequeue_slot h
  | FixLoop => fixState_loop
  end.

Definition entry (o : qop Z) : label :=
  match o with OpEnq v => EnqEntry v | OpDeq => DeqEntry end.

Definition enqueue (fuel : nat) (index : Z) := exec body fuel (EnqEntry index).

Definition dequeue (fuel : nat) := exec body fuel DeqEntry.

Definition is_empty (s : state) : bool := tail_ s <=? head_ s.

End ops.
