(* ===== verification/ScqSeq.v ===== *)
(** * ScqSeq: the scalable circular queue, one operation at a time

    [rep s q] says that the ring represents the queue [q] between operations:
    the tickets from [head_] up to [tail_] hold the elements, the slots of the
    following tickets are free with an older cycle, and, when failed dequeues
    have moved [head_] beyond [tail_], the tickets in between are unusable. *)

From stdpp Require Import base list numbers option.
From Stdlib Require Import ZArith Lia.
From S2P Require Import Prelude Conc Fifo Cas2 Ring TicketRing Scq.

Local Open Scope Z_scope.

Section scq.
Context (k kEmpty : Z).
Hypothesis (Hk : 2 <= k <= 60).
Hypothesis (HkE : 0 < kEmpty < two64).

Definition size : Z := 2 ^ k.

Definition bot : Z := 2 ^ k - 1.

Lemma size_ring : ring_size size.
Proof. apply ring_size_pow2. lia. Qed.

Lemma size_bounds : 4 <= size <= 2 ^ 60.
Proof. split; [apply size_ring|]. apply Z.pow_le_mono_r; lia. Qed.

Lemma size_lit : 4 <= size <= 1152921504606846976.
Proof. exact size_bounds. Qed.

Lemma size_half : 2 * (size / 2) = size /\ 2 <= size / 2.
Proof.
  destruct size_ring as [H4 Hm]. pose proof (Z.div_mod size 4 ltac:(lia)) as Hd. rewrite Hm in Hd.
  assert (size / 2 = 2 * (size / 4)) as ->; [|lia].
  symmetry. apply Z.div_unique_pos with (r := 0); lia.
Qed.

Lemma scq_shift_eq : scq_shift size = k.
Proof. apply log2_pow2_u64_pow2. lia. Qed.

Lemma shift_cycle t : Z.shiftr t (scq_shift size) = t / size.
Proof. rewrite scq_shift_eq. apply shiftr_pow2. lia. Qed.

Lemma slot_index_eq t : Z.to_nat (slot_index size bot t) = slot_of size t.
Proof.
  unfold slot_index, bot. rewrite land_pow2_mask by lia. done.
Qed.

Lemma threshold_reset_eq : threshold_reset size = size + size / 2 - 1.
Proof.
  pose proof size_lit. unfold threshold_reset. rewrite Z.shiftr_div_pow2 by lia.
  change (2 ^ 1) with 2. pose proof size_half.
  rewrite add64_small by (unfold is_u64, two64; lia).
  rewrite sub64_small by (unfold is_u64, two64; lia).
  apply i64_small. unfold two63. lia.
Qed.

(** ** Accesses *)

Lemma scq_load_entry_eq t s :
  load_entry (slot_index size bot t) s = (s, entries_ s !!! slot_of size t).
Proof.
  unfold load_entry, set_entry. rewrite entry_load_spec, slot_index_eq.
  destruct s. simpl. by rewrite list_insert_total_id.
Qed.

Lemma scq_cas2_entry_eq t e d s :
  cas2_entry (slot_index size bot t) e d s =
  if decide (entries_ s !!! slot_of size t = e)
  then (set_entry (slot_index size bot t) d s, true) else (s, false).
Proof.
  unfold cas2_entry. rewrite cas2_mutex_spec, slot_index_eq.
  case_decide; [done|]. unfold set_entry. rewrite slot_index_eq.
  destruct s. simpl. by rewrite list_insert_total_id.
Qed.

Lemma scq_cas_tail_eq b t t' s :
  cas_tail_weak b t t' s =
  if decide (b = false /\ tail_ s = t)
  then (mkState (entries_ s) (head_ s) t' (threshold_ s), true) else (s, false).
Proof.
  unfold cas_tail_weak, cas_word_weak. destruct s as [es hd tl th]; simpl.
  case_decide as Hc.
  - destruct Hc as [-> ->]. by rewrite Z.eqb_refl.
  - destruct b; [done|]. simpl. destruct (Z.eqb_spec tl t); [|done]. by destruct Hc.
Qed.

(** ** The invariant between operations *)

(** An entry with a value, and a free entry. *)
Definition full_entry (p v : Z) : Entry := mkEntry (pack_cycle_flags (p / size) true) v.

Definition free_entry (c : Z) : Entry := mkEntry (pack_cycle_flags c true) bot.

Record rep (s : state) (q : list Z) : Prop := {
  rep_len : length (entries_ s) = Z.to_nat size;
  rep_head : size <= head_ s;
  rep_tail : size <= tail_ s;
  rep_count : Z.of_nat (length q) = Z.max 0 (tail_ s - head_ s);
  rep_room : Z.of_nat (length q) <= size;
  rep_thr : -1 <= threshold_ s <= threshold_reset size;
  rep_vals : Forall (fun v => 0 <= v < bot /\ v <> kEmpty /\ v <= kEmpty) q;
  rep_full (i : nat) v : q !! i = Some v ->
    entries_ s !!! slot_of size (head_ s + Z.of_nat i) = full_entry (head_ s + Z.of_nat i) v;
  rep_free p : Z.max (head_ s) (tail_ s) <= p < head_ s + size ->
    exists c, 0 <= c < p / size /\ entries_ s !!! slot_of size p = free_entry c;
  rep_dead p : tail_ s <= p < head_ s ->
    p / size <= unpack_cycle (cycle_flags (entries_ s !!! slot_of size p))
}.

(** The tickets that the next operations draw are still words. *)
Definition no_overflow (s : state) : Prop := Z.max (head_ s) (tail_ s) + 1 < two64.

Lemma slot_lt s q p : rep s q -> (slot_of size p < length (entries_ s))%nat.
Proof. intros Hr. rewrite (rep_len s q Hr). apply slot_of_lt, size_ring. Qed.

Lemma ticket_cycle p : 0 <= p < two64 -> 0 <= p / size < two63 / 2.
Proof. apply cycle_range. pose proof size_lit. lia. Qed.

Lemma two63_half c : 0 <= c < two63 / 2 -> 0 <= c < two63.
Proof. change (two63 / 2) with 4611686018427387904. unfold two63. lia. Qed.

(** *** Tickets below the head are skipped *)

Lemma rep_skip s q :
  rep s q -> tail_ s < head_ s ->
  rep (mkState (entries_ s) (head_ s) (tail_ s + 1) (threshold_ s)) q.
Proof.
  intros [Hl Hh Ht Hc Hm Hth Hv Hfu Hfr Hd] Hlt. split; simpl; try done; try lia.
  - intros p Hp. apply Hfr. lia.
  - intros p Hp. apply Hd. lia.
Qed.

(** When the head is beyond the tail every slot is free. *)
Lemma rep_all_free s q p :
  rep s q -> no_overflow s -> tail_ s <= head_ s ->
  exists c, 0 <= c < two63 /\ entries_ s !!! slot_of size p = free_entry c.
Proof.
  intros Hr Ho Hlt. pose proof size_lit. pose proof (rep_head s q Hr).
  pose proof (window_pos_range size (head_ s) p ltac:(lia)) as Hw.
  destruct (rep_free s q Hr (window_pos size (head_ s) p)) as (c & Hc & He); [lia|].
  exists c. split.
  - split; [lia|]. apply (Z.lt_le_trans _ _ _ (proj2 Hc)). unfold no_overflow, two64, two63 in *.
    apply Z.div_le_upper_bound; [lia|]. nia.
  - rewrite <- He. f_equal. apply slot_of_mod. symmetry. apply window_pos_mod. lia.
Qed.

(** One block of [enqueue] on a ticket below the head gives the ticket up. *)
Lemma enqueue_slot_skip s q v t w :
  rep s q -> no_overflow s -> tail_ s <= head_ s -> size <= t < head_ s ->
  t / size <= unpack_cycle (cycle_flags (entries_ s !!! slot_of size t)) ->
  run (enqueue_slot size bot v t) w s = (s, w, inl (EnqTicket v)).
Proof.
  intros Hr Ho Hlt Ht Hd. unfold enqueue_slot. rewrite shift_cycle. simpl. rewrite scq_load_entry_eq.
  destruct (rep_all_free s q t Hr Ho Hlt) as (c & Hc & He). rewrite He in *. simpl in *.
  rewrite unpack_cycle_pack in * by done. unfold no_overflow in Ho.
  pose proof (ticket_cycle t ltac:(pose proof size_lit; lia)) as Hcy.
  rewrite cycle_less_spec by (done || by apply two63_half).
  destruct (Z.ltb_spec c (t / size)); [lia|done].
Qed.

(** *** Storing a value at the tail *)

Lemma rep_put s q v c :
  rep s q -> head_ s <= tail_ s -> Z.of_nat (length q) < size ->
  0 <= v < bot /\ v <> kEmpty /\ v <= kEmpty -> -1 <= c <= threshold_reset size ->
  rep (mkState (<[slot_of size (tail_ s) := full_entry (tail_ s) v]> (entries_ s))
         (head_ s) (tail_ s + 1) c) (q ++ [v]).
Proof.
  intros Hr Hle Hroom Hval Hc. pose proof Hr as [Hl Hh Ht Hcn Hm Hth Hv Hfu Hfr Hd].
  pose proof (slot_lt s q (tail_ s) Hr) as Hsl. pose proof size_lit.
  assert (forall p, head_ s <= p < head_ s + size -> p <> tail_ s ->
            slot_of size (tail_ s) <> slot_of size p) as Hdiff.
  { intros p Hp Hne Heq. apply Hne. symmetry.
    apply (slot_window_unique size (head_ s)); [apply size_ring|lia|lia|done]. }
  split; simpl; rewrite ?length_insert, ?length_app; simpl; try done; try lia.
  - apply Forall_app. by split; [|constructor].
  - intros i x Hi. apply lookup_app_Some in Hi as [Hi|[Hi Hx]].
    + pose proof (lookup_lt_Some _ _ _ Hi). rewrite list_lookup_total_insert_ne; [by apply Hfu|].
      apply Hdiff; lia.
    + apply list_lookup_singleton_Some in Hx as [Hi0 <-].
      replace (head_ s + Z.of_nat i) with (tail_ s) by lia.
      by rewrite list_lookup_total_insert_eq.
  - intros p Hp. rewrite list_lookup_total_insert_ne by (apply Hdiff; lia). apply Hfr. lia.
Qed.

Lemma enqueue_slot_put s q v w t :
  rep s q -> no_overflow s -> head_ s <= t -> tail_ s = t -> Z.of_nat (length q) < size ->
  0 <= v < bot /\ v <> kEmpty /\ v <= kEmpty ->
  exists s', run (enqueue_slot size bot v t) w
      (mkState (entries_ s) (head_ s) (t + 1) (threshold_ s)) = (s', w, inr (RBool true)) /\
    rep s' (q ++ [v]) /\ head_ s' = head_ s /\ tail_ s' = t + 1.
Proof.
  intros Hr Ho Hle Ht Hroom Hval. pose proof size_lit. pose proof (rep_head s q Hr).
  pose proof (rep_count s q Hr). unfold no_overflow in Ho.
  destruct (rep_free s q Hr t) as (c & Hc & He); [lia|].
  pose proof (ticket_cycle t ltac:(lia)) as Hcy.
  assert (0 <= c < two63) as Hc63 by (apply two63_half; lia).
  unfold enqueue_slot. rewrite shift_cycle. simpl. rewrite scq_load_entry_eq. simpl. rewrite He. simpl.
  rewrite unpack_cycle_pack, unpack_is_safe_pack by done.
  rewrite cycle_less_spec by (done || by apply two63_half).
  destruct (Z.ltb_spec c (t / size)); [|lia]. rewrite Z.eqb_refl. simpl.
  rewrite scq_cas2_entry_eq. simpl. rewrite decide_True by done. simpl.
  fold (full_entry t v). unfold set_entry. simpl. rewrite slot_index_eq.
  pose proof (rep_put s q v (threshold_reset size) Hr ltac:(lia) Hroom Hval) as Hput.
  rewrite Ht in Hput. pose proof threshold_reset_eq. pose proof size_half.
  destruct (Z.eqb_spec (threshold_ s) (threshold_reset size)) as [Hth|Hth]; simpl.
  - eexists. split_and!; [done| |done|done]. rewrite Hth. apply Hput. lia.
  - eexists. split_and!; [done| |done|done]. apply Hput. lia.
Qed.

(** From the outer loop head, skipping the unusable tickets one by one. *)
Lemma enqueue_from_ticket s q v w d :
  rep s q -> no_overflow s -> Z.of_nat (length q) < size ->
  0 <= v < bot /\ v <> kEmpty /\ v <= kEmpty -> d = Z.to_nat (head_ s - tail_ s) ->
  exists s', exec (body size bot kEmpty) (2 * d + 2) (EnqTicket v) w s = Some (s', w, RBool true) /\
    rep s' (q ++ [v]) /\ head_ s' = head_ s /\ tail_ s' = Z.max (head_ s) (tail_ s) + 1.
Proof.
  revert s. induction d as [|d IH]; intros s Hr Ho Hroom Hval Hd;
    pose proof size_lit; pose proof (rep_tail s q Hr); pose proof (rep_head s q Hr).
  - destruct (enqueue_slot_put s q v w (tail_ s) Hr Ho ltac:(lia) eq_refl Hroom Hval)
      as (s' & Hrun & Hr' & Hh & Htl).
    exists s'. split_and!; [|done|done|lia]. unfold no_overflow in Ho.
    assert (run (body size bot kEmpty (EnqTicket v)) w s =
      (mkState (entries_ s) (head_ s) (tail_ s + 1) (threshold_ s), w, inl (EnqSlot v (tail_ s))))
      as Hrun0.
    { simpl. by rewrite add64_small by (unfold is_u64; lia). }
    exec_jump Hrun0. exec_ret Hrun.
  - assert (tail_ s < head_ s) as Hlt by lia.
    pose proof (rep_skip s q Hr Hlt) as Hr1. set (s1 := mkState _ _ _ _) in Hr1.
    assert (no_overflow s1) as Ho1 by (unfold no_overflow in *; simpl; lia).
    destruct (IH s1 Hr1 Ho1 Hroom Hval ltac:(simpl; lia)) as (s' & He & Hr' & Hh & Htl).
    exists s'. simpl in Hh, Htl. split_and!; [|done|done|lia].
    assert (run (body size bot kEmpty (EnqTicket v)) w s = (s1, w, inl (EnqSlot v (tail_ s))))
      as Hrun0.
    { simpl. unfold no_overflow in Ho. by rewrite add64_small by (unfold is_u64; lia). }
    assert (run (body size bot kEmpty (EnqSlot v (tail_ s))) w s1 = (s1, w, inl (EnqTicket v)))
      as Hrun1.
    { apply (enqueue_slot_skip s1 q); [done|done|simpl; lia|simpl; lia|].
      apply (rep_dead s q Hr). lia. }
    replace (2 * S d + 2)%nat with (S (S (2 * d + 2))) by lia.
    exec_jump Hrun0. exec_jump Hrun1. exact He.
Qed.

(** *** Taking the element at the head *)

Lemma rep_get s v q th :
  rep s (v :: q) -> -1 <= th <= threshold_reset size ->
  rep (mkState (<[slot_of size (head_ s) := free_entry (head_ s / size)]> (entries_ s))
         (head_ s + 1) (tail_ s) th) q.
Proof.
  intros Hr Hth'. pose proof Hr as [Hl Hh Ht Hc Hm Hth Hv Hfu Hfr Hd].
  pose proof (slot_lt s _ (head_ s) Hr) as Hsl. pose proof size_lit. simpl in Hc, Hm.
  assert (forall p, head_ s < p < head_ s + size -> slot_of size (head_ s) <> slot_of size p)
    as Hdiff.
  { intros p Hp Heq. apply (slot_window_unique size (head_ s)) in Heq; [lia|apply size_ring|lia|lia]. }
  split; simpl; rewrite ?length_insert; try done; try lia.
  - by inversion Hv.
  - intros i x Hi. pose proof (lookup_lt_Some _ _ _ Hi).
    replace (head_ s + 1 + Z.of_nat i) with (head_ s + Z.of_nat (S i)) by lia.
    rewrite list_lookup_total_insert_ne by (apply Hdiff; lia). by apply Hfu.
  - intros p Hp. destruct (Z.eq_dec p (head_ s + size)) as [->|Hne].
    + exists (head_ s / size). rewrite div_add_lap by lia. split; [split; [apply Z.div_pos|]; lia|].
      rewrite <- (slot_of_mod size (head_ s)) by (by rewrite mod_add_lap).
      by rewrite list_lookup_total_insert_eq.
    + rewrite list_lookup_total_insert_ne by (apply Hdiff; lia). apply Hfr. lia.
Qed.

Lemma dequeue_slot_get s v q th w :
  rep s (v :: q) -> no_overflow s -> -1 <= th <= threshold_reset size ->
  exists s', run (dequeue_slot size bot kEmpty (head_ s)) w
      (mkState (entries_ s) (head_ s + 1) (tail_ s) th) = (s', w, inr (RVal v)) /\
    rep s' q /\ head_ s' = head_ s + 1 /\ tail_ s' = tail_ s.
Proof.
  intros Hr Ho Hth. pose proof size_lit. pose proof (rep_head s _ Hr). unfold no_overflow in Ho.
  pose proof (rep_full s _ Hr 0 v eq_refl) as He. rewrite Z.add_0_r in He.
  pose proof (ticket_cycle (head_ s) ltac:(lia)) as Hcy.
  pose proof (rep_vals s _ Hr) as Hv. inversion Hv as [|? ? (Hvb & Hvne & Hvle) _]; subst.
  unfold dequeue_slot. rewrite shift_cycle. simpl. rewrite scq_load_entry_eq. simpl. rewrite He. simpl.
  rewrite unpack_cycle_pack, unpack_is_safe_pack, Z.eqb_refl by (by apply two63_half). simpl.
  destruct (Z.eqb_spec v bot); [lia|]. simpl.
  unfold set_entry. simpl. rewrite slot_index_eq, He. simpl.
  assert (atomic_or_u64 v bot = bot) as -> by (apply lor_pow2_mask; unfold bot in *; lia).
  unfold cast_T. rewrite (Z.mod_small v) by lia.
  eexists. split_and!; [done| |done|done]. by apply rep_get with (v := v).
Qed.

(** The threshold test lets a dequeue on a non-empty queue through. *)
Lemma dequeue_entry_nonempty s v q w :
  rep s (v :: q) -> exists th, -1 <= th <= threshold_reset size /\
  run (dequeue_entry size kEmpty) w s =
    (mkState (entries_ s) (head_ s) (tail_ s) th, w, inl DeqTicket).
Proof.
  intros Hr. pose proof (rep_count s _ Hr) as Hc. simpl in Hc.
  pose proof (rep_thr s _ Hr) as Hth. pose proof threshold_reset_eq. pose proof size_half.
  unfold dequeue_entry. simpl. destruct (Z.ltb_spec (threshold_ s) 0); simpl.
  - destruct (Z.ltb_spec (head_ s) (tail_ s)); [|lia]. simpl.
    exists (threshold_reset size). split; [lia|done].
  - exists (threshold_ s). split; [done|]. by destruct s.
Qed.

Lemma dequeue_nonempty s v q w :
  rep s (v :: q) -> no_overflow s ->
  exists s', exec (body size bot kEmpty) 3 DeqEntry w s = Some (s', w, RVal v) /\
    rep s' q /\ head_ s' = head_ s + 1 /\ tail_ s' = tail_ s.
Proof.
  intros Hr Ho. destruct (dequeue_entry_nonempty s v q w Hr) as (th & Hth & Hrun0).
  destruct (dequeue_slot_get s v q th w Hr Ho Hth) as (s' & Hrun & Hr' & Hh & Ht).
  exists s'. split_and!; try done. exec_jump Hrun0.
  assert (run (body size bot kEmpty DeqTicket) w (mkState (entries_ s) (head_ s) (tail_ s) th) =
    (mkState (entries_ s) (head_ s + 1) (tail_ s) th, w, inl (DeqSlot (head_ s)))) as Hrun1.
  { simpl. unfold no_overflow in Ho. pose proof (rep_head s _ Hr). pose proof size_lit.
    by rewrite add64_small by (unfold is_u64; lia). }
  exec_jump Hrun1. exec_ret Hrun.
Qed.

(** *** Dequeue on an empty queue *)

Lemma rep_miss s th :
  rep s [] -> no_overflow s -> -1 <= th <= threshold_reset size ->
  rep (mkState (<[slot_of size (head_ s) := free_entry (head_ s / size)]> (entries_ s))
         (head_ s + 1) (tail_ s) th) [].
Proof.
  intros Hr Ho Hth'. pose proof Hr as [Hl Hh Ht Hc Hm Hth Hv Hfu Hfr Hd].
  pose proof (slot_lt s _ (head_ s) Hr) as Hsl. pose proof size_lit. simpl in Hc, Hm.
  unfold no_overflow in Ho. pose proof (ticket_cycle (head_ s) ltac:(lia)) as Hcy.
  split; simpl; rewrite ?length_insert; try done; try lia.
  - intros p Hp. destruct (Z.eq_dec p (head_ s + size)) as [->|Hne].
    + exists (head_ s / size). rewrite div_add_lap by lia. split; [lia|].
      rewrite <- (slot_of_mod size (head_ s)) by (by rewrite mod_add_lap).
      by rewrite list_lookup_total_insert_eq.
    + rewrite list_lookup_total_insert_ne; [apply Hfr; lia|].
      intros Heq. apply (slot_window_unique size (head_ s)) in Heq; [lia|apply size_ring|lia|lia].
  - intros p Hp. destruct (decide (slot_of size (head_ s) = slot_of size p)) as [Heq|Hne].
    + rewrite <- Heq, list_lookup_total_insert_eq by done. simpl.
      rewrite unpack_cycle_pack by (by apply two63_half). apply Z.div_le_mono; lia.
    + rewrite list_lookup_total_insert_ne by done. apply Hd.
      assert (p <> head_ s) by (intros ->; done). lia.
Qed.

(** [fixState] moves the tail to the head of an empty ring. *)
Lemma rep_fix s th :
  rep s [] -> tail_ s <= head_ s -> -1 <= th <= threshold_reset size ->
  rep (mkState (entries_ s) (head_ s) (head_ s) th) [].
Proof.
  intros [Hl Hh Ht Hc Hm Hth Hv Hfu Hfr Hd] Hle Hth'. split; simpl; try done; try lia.
  intros p Hp. apply Hfr. lia.
Qed.

Lemma fixState_from_loop s w :
  rep s [] -> tail_ s < head_ s -> size < head_ s - tail_ s -> head_ s < two64 ->
  exists s' w', exec (body size bot kEmpty) (1 + length w) FixLoop w s = Some (s', w', RVal kEmpty) /\
    rep s' [] /\ head_ s' = head_ s /\ tail_ s' = head_ s.
Proof.
  intros Hr Hlt Hlag Hh. pose proof size_lit. pose proof threshold_reset_eq. pose proof size_half.
  assert (rep (mkState (entries_ s) (head_ s) (head_ s) (threshold_reset size)) []) as Hr'
    by (apply rep_fix; [done|lia|lia]).
  pose proof (rep_tail s [] Hr).
  assert (forall w, run (fixState_loop size kEmpty) w s =
    if hd false w then (s, tl w, inl FixLoop)
    else (mkState (entries_ s) (head_ s) (head_ s) (threshold_reset size), tl w, inr (RVal kEmpty)))
    as Hrun.
  { intros w0. unfold fixState_loop. simpl.
    rewrite sub64_small by (unfold is_u64; lia).
    destruct (Z.leb_spec (head_ s) (tail_ s)); [lia|].
    destruct (Z.leb_spec (head_ s - tail_ s) size); [lia|]. simpl.
    rewrite scq_cas_tail_eq. destruct (hd false w0).
    - by rewrite decide_False by (by intros [? _]).
    - by rewrite decide_True by done. }
  induction w as [|b w IH].
  - eexists _, _. split_and!; [exec_ret (Hrun [])|exact Hr'|done|done].
  - destruct b.
    + destruct IH as (s' & w' & He & Hr2). exists s', w'. split; [|done].
      exec_jump (Hrun (true :: w)). exact He.
    + eexists _, _. split_and!; [exec_ret (Hrun (false :: w))|exact Hr'|done|done].
Qed.

(** The block on the slot of a ticket that finds the queue empty: the slot is
    advanced to the cycle of the ticket and the threshold is lowered; when the
    threshold is used up and the tail lags by more than a lap, [fixState] is
    next. *)
Lemma dequeue_slot_miss s w :
  rep s [] -> no_overflow s -> 0 <= threshold_ s ->
  let s1 := mkState (<[slot_of size (head_ s) := free_entry (head_ s / size)]> (entries_ s))
              (head_ s + 1) (tail_ s) (threshold_ s - 1) in
  run (dequeue_slot size bot kEmpty (head_ s)) w
      (mkState (entries_ s) (head_ s + 1) (tail_ s) (threshold_ s)) =
  (s1, w, if (threshold_ s - 1 <=? 0) && (size <? head_ s + 1 - tail_ s)
          then inl FixLoop else inr (RVal kEmpty)).
Proof.
  intros Hr Ho Hth s1. pose proof size_lit. pose proof (rep_head s _ Hr) as Hh.
  pose proof (rep_tail s _ Hr) as Ht. pose proof (rep_count s _ Hr) as Hc. simpl in Hc.
  pose proof (rep_thr s _ Hr) as Hthr. pose proof threshold_reset_eq. pose proof size_half.
  unfold no_overflow in Ho. pose proof (ticket_cycle (head_ s) ltac:(lia)) as Hcy.
  destruct (rep_free s _ Hr (head_ s)) as (c & Hc1 & He); [lia|].
  assert (0 <= c < two63) as Hc63 by (apply two63_half; lia).
  unfold dequeue_slot. rewrite shift_cycle. simpl. rewrite scq_load_entry_eq. simpl. rewrite He. simpl.
  rewrite unpack_cycle_pack, unpack_is_safe_pack by done.
  destruct (Z.eqb_spec c (head_ s / size)); [lia|]. rewrite Z.eqb_refl.
  rewrite cycle_less_spec by (done || by apply two63_half).
  destruct (Z.ltb_spec c (head_ s / size)); [|lia]. simpl.
  rewrite scq_cas2_entry_eq. simpl. rewrite decide_True by done. simpl.
  unfold set_entry, dequeue_after. simpl. rewrite slot_index_eq.
  rewrite add64_small by (unfold is_u64; lia).
  destruct (Z.leb_spec (tail_ s) (head_ s + 1)); [|lia]. simpl.
  assert (i64 (threshold_ s - 1) = threshold_ s - 1) as Hi.
  { destruct (Z.eq_dec (threshold_ s) 0) as [->|]; [done|]. apply i64_small. unfold two63. lia. }
  rewrite Hi. fold (free_entry (head_ s / size)). fold s1.
  destruct (Z.leb_spec (threshold_ s - 1) 0); [|done].
  unfold dequeue_exhausted. simpl.
  destruct (Z.ltb_spec (head_ s + 1) (tail_ s)); [lia|].
  destruct (Z.ltb_spec (tail_ s) (head_ s + 1)); [|lia].
  rewrite sub64_small by (unfold is_u64; lia). simpl.
  by destruct (Z.ltb_spec size (head_ s + 1 - tail_ s)).
Qed.

Lemma dequeue_empty s w :
  rep s [] -> no_overflow s ->
  exists s' w', exec (body size bot kEmpty) (4 + length w) DeqEntry w s = Some (s', w', RVal kEmpty) /\
    rep s' [] /\ head_ s' <= head_ s + 1 /\ tail_ s' <= head_ s + 1.
Proof.
  intros Hr Ho. pose proof size_lit. pose proof (rep_head s _ Hr) as Hh.
  pose proof (rep_count s _ Hr) as Hc. simpl in Hc. pose proof (rep_thr s _ Hr) as Hthr.
  destruct (Z.lt_ge_cases (threshold_ s) 0) as [Hneg|Hpos].
  - assert (run (body size bot kEmpty DeqEntry) w s = (s, w, inr (RVal kEmpty))) as Hrun.
    { simpl. unfold dequeue_entry. simpl. destruct (Z.ltb_spec (threshold_ s) 0); [|lia].
      simpl. destruct (Z.ltb_spec (head_ s) (tail_ s)); [lia|done]. }
    exists s, w. split_and!; [exec_ret Hrun|done|lia|lia].
  - assert (run (body size bot kEmpty DeqEntry) w s = (s, w, inl DeqTicket)) as Hrun0.
    { simpl. unfold dequeue_entry. simpl. destruct (Z.ltb_spec (threshold_ s) 0); [lia|done]. }
    assert (run (body size bot kEmpty DeqTicket) w s =
      (mkState (entries_ s) (head_ s + 1) (tail_ s) (threshold_ s), w, inl (DeqSlot (head_ s))))
      as Hrun1.
    { simpl. unfold no_overflow in Ho. by rewrite add64_small by (unfold is_u64; lia). }
    pose proof (dequeue_slot_miss s w Hr Ho Hpos) as Hrun2. simpl in Hrun2.
    pose proof (rep_miss s (threshold_ s - 1) Hr Ho ltac:(lia)) as Hr1.
    set (s1 := mkState _ (head_ s + 1) (tail_ s) (threshold_ s - 1)) in *.
    destruct ((threshold_ s - 1 <=? 0) && (size <? head_ s + 1 - tail_ s)) eqn:Hb; bool_hyps.
    + unfold no_overflow in Ho. destruct (fixState_from_loop s1 w Hr1) as (s' & w' & He & Hr' & Hh' & Ht');
        [simpl; lia|simpl; lia|simpl; lia|].
      exists s', w'. simpl in Hh', Ht'. split_and!; [|done|lia|lia].
      exec_jump Hrun0. exec_jump Hrun1. exec_jump Hrun2. exact He.
    + exists s1, w. split_and!; [|done|simpl; lia|simpl; lia].
      exec_jump Hrun0. exec_jump Hrun1. exec_ret Hrun2.
Qed.

End scq.

(** ** Theorems *)

(** The values that [enqueue] accepts: of the element type, not the sentinel,
    below the bottom marker. *)
Definition accepted (k kEmpty v : Z) : Prop := 0 <= v < bot k /\ v <> kEmpty /\ v <= kEmpty.

Lemma enqueue_entry_accepts k kEmpty v w s :
  0 < kEmpty < two64 -> accepted k kEmpty v ->
  run (body (size k) (bot k) kEmpty (EnqEntry v)) w s = (s, w, inl (EnqTicket v)).
Proof.
  intros HkE ((Hv0 & Hvb) & Hne & Hle).
  simpl. unfold enqueue_entry. rewrite u64_small by (unfold is_u64; lia).
  destruct (Z.eqb_spec v kEmpty); [done|]. destruct (Z.leb_spec (bot k) v); [lia|done].
Qed.

(** The constructor. *)
Lemma scq_rep_new k kEmpty : 2 <= k <= 60 -> rep k kEmpty (SCQ_new (size k)) [].
Proof.
  intros Hk. pose proof (size_lit k Hk) as Hs. pose proof (threshold_reset_eq k Hk).
  pose proof (size_half k Hk).
  unfold SCQ_new, SCQ_bottom. rewrite (u64_small (size k)) by (unfold is_u64, two64; lia).
  rewrite (u64_small (size k - 1)) by (unfold is_u64, two64; lia).
  split; simpl; rewrite ?length_replicate; try done; try lia.
  - intros p Hp. exists 0. split; [split; [lia|apply Z.div_str_pos; lia]|].
    rewrite lookup_total_replicate_2 by (apply slot_of_lt, size_ring; lia). done.
Qed.

(** A ring without free slot. *)
Definition all_taken (k : Z) (s : state) : Prop :=
  forall t, index_or_ptr (entries_ s !!! slot_of (size k) t) <> bot k.

Lemma enqueue_taken k kEmpty v fuel w s :
  2 <= k <= 60 -> all_taken k s ->
  exec (body (size k) (bot k) kEmpty) fuel (EnqTicket v) w s = None /\
  forall t, exec (body (size k) (bot k) kEmpty) fuel (EnqSlot v t) w s = None.
Proof.
  intros Hk. revert w s. induction fuel as [|fuel IH]; intros w s Ht; [done|]. split.
  - etransitivity; [apply exec_jump; simpl; reflexivity|]. by apply IH.
  - intros t.
    assert (run (body (size k) (bot k) kEmpty (EnqSlot v t)) w s = (s, w, inl (EnqTicket v))) as Hrun.
    { simpl. unfold enqueue_slot. simpl. rewrite (scq_load_entry_eq k Hk). simpl.
      rewrite (proj2 (Z.eqb_neq _ _) (Ht t)), andb_false_r. done. }
    exec_jump Hrun. by apply IH.
Qed.

(** All slots of a full ring are taken. *)
Lemma enqueue_full_spins k kEmpty s q v fuel w :
  2 <= k <= 60 -> 0 < kEmpty < two64 -> rep k kEmpty s q -> Z.of_nat (length q) = size k ->
  accepted k kEmpty v -> enqueue (size k) (bot k) kEmpty fuel v w s = None.
Proof.
  intros Hk HkE Hr Hfull Hv.
  destruct fuel as [|fuel]; [done|]. exec_jump (enqueue_entry_accepts k kEmpty v w s HkE Hv).
  apply enqueue_taken; [done|]. intros t. pose proof (size_lit k Hk).
  pose proof (window_pos_range (size k) (head_ s) t ltac:(lia)) as Hw.
  rewrite <- (slot_of_mod _ _ _ (window_pos_mod (size k) (head_ s) t ltac:(lia))).
  set (p := window_pos (size k) (head_ s) t) in *.
  destruct (lookup_lt_is_Some_2 q (Z.to_nat (p - head_ s))) as [x Hx]; [lia|].
  pose proof (rep_full k kEmpty s q Hr _ _ Hx) as He.
  replace (head_ s + Z.of_nat (Z.to_nat (p - head_ s))) with p in He by lia.
  rewrite He. simpl. pose proof (proj1 (Forall_lookup _ _) (rep_vals k kEmpty s q Hr) _ _ Hx).
  simpl in *. lia.
Qed.

(** C17. Between operations of one thread the ring represents a FIFO queue [q]
    (in [rep] every slot is safe, as the constructor makes it and these operations
    keep it; [no_overflow] keeps the tickets below their limit), and, whatever
    compare-exchanges fail spuriously: [enqueue] of an accepted value, while fewer
    than [scqsize] values are stored, returns [true] and appends it (even after
    failed dequeues have moved the head past the tail, and then after at most that
    many extra tickets); when all [scqsize] slots are taken it returns within no
    number of iterations; [enqueue] of the sentinel or of a value from [bottom_]
    on returns [false] and changes nothing; [dequeue] returns the oldest value,
    or [kEmpty] exactly when the queue is empty.  A new ring represents the
    empty queue. *)
Theorem scq_sequential_fifo k kEmpty s q w :
  2 <= k <= 60 -> 0 < kEmpty < two64 -> rep k kEmpty s q -> no_overflow s ->
  (forall v, accepted k kEmpty v -> Z.of_nat (length q) < size k ->
     exists s', enqueue (size k) (bot k) kEmpty (2 * Z.to_nat (head_ s - tail_ s) + 3) v w s =
                  Some (s', w, RBool true) /\ rep k kEmpty s' (q ++ [v])) /\
  (forall v, accepted k kEmpty v -> size k <= Z.of_nat (length q) ->
     forall fuel, enqueue (size k) (bot k) kEmpty fuel v w s = None) /\
  (forall v, is_u64 v -> v = kEmpty \/ bot k <= v ->
     enqueue (size k) (bot k) kEmpty 1 v w s = Some (s, w, RBool false)) /\
  (exists s' w', dequeue (size k) (bot k) kEmpty (4 + length w) w s =
                   Some (s', w', RVal (match q with [] => kEmpty | v :: _ => v end)) /\
                 rep k kEmpty s' (tail q)) /\
  rep k kEmpty (SCQ_new (size k)) [].
Proof.
  intros Hk HkE Hr Ho. split_and!.
  - intros v Hv Hroom.
    destruct (enqueue_from_ticket k kEmpty Hk s q v w _ Hr Ho Hroom Hv eq_refl)
      as (s' & He & Hr' & _ & _).
    exists s'. split; [|done]. unfold enqueue. rewrite Nat.add_succ_r.
    exec_jump (enqueue_entry_accepts k kEmpty v w s HkE Hv). exact He.
  - intros v Hv Hfull fuel. apply (enqueue_full_spins k kEmpty s q); try done. pose proof (rep_room _ _ _ _ Hr). lia.
  - intros v Hu Hv.
    assert (run (body (size k) (bot k) kEmpty (EnqEntry v)) w s = (s, w, inr (RBool false))) as Hrun.
    { simpl. unfold enqueue_entry. rewrite u64_small by done.
      destruct (Z.eqb_spec v kEmpty); [done|]. destruct (Z.leb_spec (bot k) v); [done|].
      destruct Hv; [done|lia]. }
    exec_ret Hrun.
  - destruct q as [|v q].
    + destruct (dequeue_empty k kEmpty Hk s w Hr Ho) as (s' & w' & He & Hr' & _). by exists s', w'.
    + destruct (dequeue_nonempty k kEmpty Hk s v q w Hr Ho) as (s' & He & Hr' & _).
      exists s', w. split; [|done]. apply (exec_mono _ 3); [exact He|lia].
  - by apply scq_rep_new.
Qed.

Lemma scq_sequential_fifo_witness :
  exists s1 s2 w2, enqueue (size 2) (bot 2) (two64 - 1) 3 2 [true] (SCQ_new 4) =
                     Some (s1, [true], RBool true) /\
  dequeue (size 2) (bot 2) (two64 - 1) 5 [true] s1 = Some (s2, w2, RVal 2) /\
  rep 2 (two64 - 1) s2 [].
Proof.
  assert (rep 2 (two64 - 1) (SCQ_new 4) []) as Hr0 by (apply (scq_rep_new 2); lia).
  destruct (scq_sequential_fifo 2 (two64 - 1) (SCQ_new 4) [] [true]) as (He & _);
    [lia|unfold two64; lia|done|vm_compute; reflexivity|].
  destruct (He 2) as (s1 & Hs1 & Hr1);
    [vm_compute; naive_solver lia|vm_compute; reflexivity|].
  assert (no_overflow s1) as Ho1.
  { vm_compute in Hs1. injection Hs1 as <-. vm_compute. reflexivity. }
  destruct (scq_sequential_fifo 2 (two64 - 1) s1 [2] [true]) as (_ & _ & _ & (s2 & w2 & Hd & Hr2) & _);
    [lia|unfold two64; lia|done|done|].
  exists s1, s2, w2. split_and!; [exact Hs1|exact Hd|done].
Defined.

Lemma pow2_half m : 2 <= m -> 2 * (2 ^ m / 2) = 2 ^ m /\ 2 <= 2 ^ m / 2.
Proof.
  intros Hm. replace m with (1 + (m - 1)) by lia. rewrite Z.pow_add_r by lia.
  change (2 ^ 1) with 2. rewrite (Z.mul_comm 2 (2 ^ (m - 1))), Z.div_mul by lia.
  pose proof (Z.pow_le_mono_r 2 1 (m - 1) ltac:(lia) ltac:(lia)). lia.
Qed.

(** The ring size: the least power of two that is at least four and the request. *)
Lemma SCQ_size_spec fuel c :
  (64 <= fuel)%nat -> 0 <= c <= two63 ->
  exists m, 2 <= m <= 63 /\ SCQ_size fuel c = Some (size m) /\ c <= size m /\
            (m = 2 \/ 2 ^ (m - 1) < c).
Proof.
  intros Hf Hc. unfold SCQ_size. set (c1 := if c <? 4 then 4 else c).
  assert (c1 = Z.max 4 c) as Hc1 by (unfold c1; destruct (Z.ltb_spec c 4); lia).
  destruct (round_up_pow2_spec fuel c1 Hf) as (m & Hm & -> & Hle & Hleast); [unfold two63 in *; lia|].
  assert (2 <= m) as Hm2.
  { destruct (Z.le_gt_cases 2 m) as [|Hlt]; [done|].
    pose proof (Z.pow_le_mono_r 2 m 1 ltac:(lia) ltac:(lia)). lia. }
  exists m. pose proof (pow2_half m ltac:(lia)) as [Hh H2].
  change (2 ^ m) with (size m) in *.
  destruct (Z.eqb_spec (size m / 2) 0); [lia|]. split_and!; try done; try lia.
  destruct Hleast as [|Hl']; [lia|]. destruct (Z.le_gt_cases c 4); [|lia]. left.
  destruct (Z.eq_dec m 2) as [|Hne]; [done|].
  pose proof (Z.pow_le_mono_r 2 2 (m - 1) ltac:(lia) ltac:(lia)). lia.
Qed.

Lemma size_le_60 m c : 2 <= m -> c <= 2 ^ 60 -> m = 2 \/ 2 ^ (m - 1) < c -> m <= 60.
Proof.
  intros Hm2 Hc [->|Hl]; [lia|]. destruct (Z.le_gt_cases m 60) as [|Hgt]; [done|].
  pose proof (Z.pow_le_mono_r 2 60 (m - 1) ltac:(lia) ltac:(lia)). lia.
Qed.

(** The bytes that are allocated: from [2^60] slots on the product is zero. *)
Lemma SCQ_alloc_bytes_small m : 2 <= m <= 59 -> SCQ_alloc_bytes (size m) = 16 * size m.
Proof.
  intros Hm. unfold SCQ_alloc_bytes, size. rewrite u64_small; [lia|].
  pose proof (Z.pow_le_mono_r 2 m 59 ltac:(lia) ltac:(lia)).
  change (2 ^ 59) with 576460752303423488 in *. unfold is_u64, two64. lia.
Qed.

Lemma SCQ_alloc_bytes_large m : 60 <= m -> SCQ_alloc_bytes (size m) = 0.
Proof.
  intros Hm. unfold SCQ_alloc_bytes, size. replace m with (60 + (m - 60)) by lia.
  rewrite Z.pow_add_r by lia. change 16 with (2 ^ 4).
  replace (2 ^ 60 * 2 ^ (m - 60) * 2 ^ 4) with (2 ^ (m - 60) * two64) by (change two64 with (2 ^ 60 * 2 ^ 4); lia).
  unfold u64. apply Z.mod_mul. done.
Qed.

Lemma pow2_least c m m' :
  2 <= m -> 2 <= m' -> c <= size m -> c <= size m' ->
  m = 2 \/ 2 ^ (m - 1) < c -> m' = 2 \/ 2 ^ (m' - 1) < c -> m = m'.
Proof.
  assert (forall a b, 2 <= b -> c <= size b -> a = 2 \/ 2 ^ (a - 1) < c -> a <= b) as Hle.
  { intros a b Hb Hc [->|Ha]; [done|]. destruct (Z.le_gt_cases a b) as [|Hlt]; [done|].
    pose proof (Z.pow_le_mono_r 2 b (a - 1) ltac:(lia) ltac:(lia)). unfold size in Hc. lia. }
  intros. apply Z.le_antisymm; by apply Hle.
Qed.

(** Above [2^63] the rounding loop never ends. *)
Lemma SCQ_size_diverges fuel c : two63 < c < two64 -> SCQ_size fuel c = None.
Proof.
  intros Hc. unfold SCQ_size. unfold two63 in Hc.
  destruct (Z.ltb_spec c 4); [lia|]. by rewrite round_up_pow2_diverges.
Qed.

(** C29. The constructor, for a requested ring size of any [size_t].  Up to [2^63]
    the rounding loop ends within 64 iterations, with the least power of two that
    is at least four and at least the request; half of it is the nominal capacity
    and one less is [bottom_].  Up to [2^59] slots the allocation has the bytes
    that the slots need, and the ring represents the empty queue; from [2^60]
    slots on the product overflows and zero bytes are allocated.  For a request
    above [2^63] the rounding loop does not end within any number of iterations. *)
Theorem scq_new_ok c kEmpty :
  is_u64 c ->
  (c <= two63 ->
     exists m, 2 <= m <= 63 /\ (forall fuel, (64 <= fuel)%nat -> SCQ_size fuel c = Some (size m)) /\
       c <= size m /\ (m = 2 \/ 2 ^ (m - 1) < c) /\
       2 * SCQ_qsize (size m) = size m /\ SCQ_bottom (size m) = bot m /\
       (m <= 59 -> SCQ_alloc_bytes (size m) = 16 * size m /\ rep m kEmpty (SCQ_new (size m)) []) /\
       (60 <= m -> SCQ_alloc_bytes (size m) = 0)) /\
  (two63 < c -> forall fuel, SCQ_size fuel c = None).
Proof.
  intros Hc. split; [|intros Hb fuel; apply SCQ_size_diverges; unfold is_u64 in Hc; lia].
  intros Hle. destruct (SCQ_size_spec 64 c) as (m & Hm & Hs & Hcm & Hleast); [lia|unfold is_u64 in Hc; lia|].
  exists m. pose proof (pow2_half m ltac:(lia)) as [Hh H2].
  assert (size m <= two63) as Hmax by (unfold size; change two63 with (2 ^ 63); apply Z.pow_le_mono_r; lia).
  split; [done|]. split.
  { intros fuel Hf. destruct (SCQ_size_spec fuel c) as (m' & Hm' & Hs' & Hcm' & Hleast'); [done|unfold is_u64 in Hc; lia|].
    rewrite Hs'. do 2 f_equal. apply (pow2_least c); [lia|lia|done|done|done|done]. }
  split; [done|]. split; [done|]. split.
  { unfold SCQ_qsize. unfold size in *. destruct (Z.eqb_spec (2 ^ m / 2) 0); lia. }
  split.
  { unfold SCQ_bottom. rewrite u64_small; [done|]. unfold is_u64, two63, two64 in *. unfold size in *. lia. }
  split; [|apply SCQ_alloc_bytes_large].
  intros H59. split; [apply SCQ_alloc_bytes_small; lia|apply scq_rep_new; lia].
Qed.

Lemma scq_new_ok_witness :
  (exists m, SCQ_size 64 5 = Some (size m) /\ 5 <= size m /\ 2 * SCQ_qsize (size m) = size m) /\
  (forall fuel, SCQ_size fuel (two63 + 1) = None).
Proof.
  split.
  - destruct (scq_new_ok 5 9) as [H1 _]; [vm_compute; split; [discriminate|reflexivity]|].
    destruct H1 as (m & _ & Hs & Hle & _ & Hq & _); [vm_compute; discriminate|].
    exists m. split; [by apply Hs|]. by split.
  - apply (scq_new_ok (two63 + 1) 9); [vm_compute; split; [discriminate|reflexivity]|vm_compute; reflexivity].
Defined.

(** When all [scqsize] slots are taken, [enqueue] draws tickets
    forever: it does not return within any number of iterations. *)
Theorem scq_full_enqueue_spins k kEmpty s q v :
  2 <= k <= 60 -> 0 < kEmpty < two64 -> rep k kEmpty s q -> Z.of_nat (length q) = size k ->
  accepted k kEmpty v -> forall fuel w, enqueue (size k) (bot k) kEmpty fuel v w s = None.
Proof. intros. by apply (enqueue_full_spins k kEmpty s q). Qed.

Lemma scq_full_enqueue_spins_witness :
  exists s, (forall fuel w, enqueue 4 3 100 fuel 1 w s = None) /\
            dequeue 4 3 100 3 [] s = Some (mkState
              [mkEntry 3 3; mkEntry 3 1; mkEntry 3 2; mkEntry 3 0] 5 8 5, [], RVal 0).
Proof.
  set (s := mkState [mkEntry 3 0; mkEntry 3 1; mkEntry 3 2; mkEntry 3 0] 4 8 5).
  exists s. split; [|vm_compute; reflexivity].
  apply (scq_full_enqueue_spins 2 100 s [0; 1; 2; 0] 1);
    [lia|unfold two64; lia| |reflexivity|vm_compute; naive_solver lia].
  split.
  - vm_compute; reflexivity.
  - vm_compute; discriminate.
  - vm_compute; discriminate.
  - vm_compute; reflexivity.
  - vm_compute; discriminate.
  - vm_compute; split; discriminate.
  - repeat constructor; vm_compute; naive_solver lia.
  - intros i v Hi. destruct i as [|[|[|[|i]]]]; simplify_eq/=; vm_compute; reflexivity.
  - intros p Hp. change (size 2) with 4 in Hp. simpl in Hp. lia.
  - intros p Hp. simpl in Hp. lia.
Defined.
