(* ===== verification/ScqConc.v ===== *)
(** * ScqConc: the scalable circular queue under concurrency

    Every interleaving of [enqueue], [dequeue] and [fixState] on an [SCQ] keeps
    the ticket protocol: nothing is invented or duplicated, no dequeuer passes a
    ticket with which a value was or can still be stored, and tickets are matched
    in the order in which they were drawn. *)

From stdpp Require Import base list numbers option sorting.
From Stdlib Require Import ZArith Lia.
From S2P Require Import Prelude Conc Fifo Cas2 Ring TicketRing TicketLeave Scq ScqSeq.

Local Open Scope Z_scope.

Section conc.
Context (k kEmpty : Z).
Hypothesis (Hk : 2 <= k <= 60).
Hypothesis (HkE : 0 < kEmpty < two64).

Abbreviation n := (size k).
Abbreviation bt := (bot k).
Abbreviation scq_hist := (list (hev tev (qop Z) (qres Z))).
Abbreviation slot := (slot_of (size k)).

(** The assumption on the environment: the arguments are values of the element
    type and the two 64-bit counters do not overflow. *)
Definition scq_ok (s : state) (h : scq_hist) : Prop :=
  Forall (fun x => match x with HCall _ (OpEnq v) => 0 <= v <= kEmpty | _ => True end) h /\
  head_ s + 1 < two64 /\ tail_ s + 1 < two64.

Definition scq_okb (s : state) (h : scq_hist) : bool :=
  forallb (fun x => match x with HCall _ (OpEnq v) => (0 <=? v) && (v <=? kEmpty) | _ => true end) h
  && (head_ s + 1 <? two64) && (tail_ s + 1 <? two64).

Lemma scq_okb_ok s h : scq_okb s h = true -> scq_ok s h.
Proof.
  unfold scq_okb, scq_ok. intros H. bool_hyps. split_and!; try done.
  apply List.Forall_forall. intros x Hx.
  pose proof (proj1 (forallb_forall _ _) H x Hx) as Hb. simpl in Hb.
  destruct x as [i [v|]|i e|i r]; try done. bool_hyps. lia.
Qed.

(** ** Entries and cells *)

Definition enc (c : cell) : Entry :=
  mkEntry (pack_cycle_flags (cyc c) (safe c)) (default bt (val c)).

Definition wf (c : cell) : Prop :=
  0 <= cyc c < two63 /\ forall v, val c = Some v -> accepted k kEmpty v.

Lemma enc_cycle c : wf c -> unpack_cycle (cycle_flags (enc c)) = cyc c.
Proof. intros [Hc _]. by apply unpack_cycle_pack. Qed.

Lemma enc_safe c : wf c -> unpack_is_safe (cycle_flags (enc c)) = safe c.
Proof. intros [Hc _]. by apply unpack_is_safe_pack. Qed.

Lemma enc_val c : wf c -> (index_or_ptr (enc c) = bt /\ val c = None) \/
  exists v, val c = Some v /\ index_or_ptr (enc c) = v /\ accepted k kEmpty v.
Proof.
  intros [_ Hv]. destruct c as [cy b [v|]]; simpl in *; [right|by left].
  exists v. auto.
Qed.

Lemma enc_inj c d : wf c -> wf d -> enc c = enc d -> c = d.
Proof.
  intros Hc Hd E. pose proof (enc_cycle c Hc) as H1. pose proof (enc_safe c Hc) as H2.
  rewrite E, (enc_cycle d Hd) in H1. rewrite E, (enc_safe d Hd) in H2.
  assert (index_or_ptr (enc c) = index_or_ptr (enc d)) as Ei by (by rewrite E). clear E.
  unfold accepted in *.
  destruct (enc_val c Hc) as [[Hi Hv]|(v & Hv & Hi & Ha & _)],
    (enc_val d Hd) as [[Hi' Hv']|(v' & Hv' & Hi' & Ha' & _)]; try lia;
    destruct c, d; simplify_eq/=; done.
Qed.

(** The cell that an entry stands for. *)
Definition dec (e : Entry) : cell :=
  mkCell (unpack_cycle (cycle_flags e)) (unpack_is_safe (cycle_flags e))
    (if index_or_ptr e =? bt then None else Some (index_or_ptr e)).

Lemma dec_enc c : wf c -> dec (enc c) = c.
Proof.
  intros Hc. unfold dec. rewrite enc_cycle, enc_safe by done.
  destruct (enc_val c Hc) as [[-> Hv]|(v & Hv & -> & Ha & _)].
  - rewrite Z.eqb_refl. destruct c. simpl in *. by subst.
  - destruct (Z.eqb_spec v bt); [lia|]. destruct c. simpl in *. by subst.
Qed.

Definition cells_of (s : state) : list cell := dec <$> entries_ s.

Lemma cells_of_enc s cells : entries_ s = enc <$> cells -> Forall wf cells -> cells_of s = cells.
Proof.
  intros He Hw. unfold cells_of. rewrite He, <- list_fmap_compose.
  rewrite <- (list_fmap_id cells) at 2. apply list_fmap_ext. intros i c Hc. simpl.
  apply dec_enc. by apply (proj1 (Forall_lookup _ _) Hw i).
Qed.

#[local] Arguments enc : simpl never.
#[local] Arguments dec : simpl never.

(** ** The invariant *)

Lemma n_ring : ring_size n.
Proof. by apply size_ring. Qed.

Definition ring_ok (s : state) (h : scq_hist) : Prop :=
  (entries_ s = enc <$> cells_of s /\ Forall wf (cells_of s)) /\
  ring_inv n (cells_of s) (head_ s) (tail_ s) h.

(** What a thread knows of its own operation: the tickets it has drawn, and the
    ticket it is working on. *)
Definition enq_drew (i : nat) (v : Z) (h : scq_hist) : Prop :=
  exists ts, opview i h = Some (OpEnq v, TakeTail <$> ts).

Definition enq_at (i : nat) (v t : Z) (h : scq_hist) : Prop :=
  exists ts, opview i h = Some (OpEnq v, (TakeTail <$> ts) ++ [TakeTail t]).

Definition deq_drew (i : nat) (h : scq_hist) : Prop :=
  exists hs, opview i h = Some (OpDeq, TakeHead <$> hs).

Definition deq_at (i : nat) (t : Z) (h : scq_hist) : Prop :=
  exists hs, opview i h = Some (OpDeq, (TakeHead <$> hs) ++ [TakeHead t]).

Lemma enq_at_drew i v t h : enq_at i v t h -> enq_drew i v h.
Proof. intros [ts H]. exists (ts ++ [t]). by rewrite fmap_app. Qed.

Lemma deq_at_drew i t h : deq_at i t h -> deq_drew i h.
Proof. intros [ts H]. exists (ts ++ [t]). by rewrite fmap_app. Qed.

Lemma deq_at_last i t o es e h : deq_at i t h -> opview i h = Some (o, es ++ [e]) -> e = TakeHead t.
Proof. intros [hs H1] H2. rewrite H1 in H2. injection H2 as _ He. by apply app_inj_tail in He as [_ ->]. Qed.

(** No value will be stored with ticket [t] any more. *)
Definition shut (s : state) (h : scq_hist) (t : Z) : Prop := closed n (cells_of s) (head_ s) h t.

(** A ticket drawn from the head was used for a value, or its dequeuer still
    works on it, or it is shut. *)
Definition attended (s : state) (h : scq_hist) : Prop :=
  forall i t, HLin i (TakeHead t) ∈ h ->
    t ∈ get_tickets (events h) \/ deq_at i t h \/ shut s h t.

Definition Inv (s : state) (h : scq_hist) : Prop :=
  ring_ok s h /\ attended s h /\ head_ s + 1 < two64 /\ n <= tail_ s /\ tail_ s + 1 < two64.

Lemma cells_lookup s h t :
  ring_ok s h -> wf (cells_of s !!! slot t) /\ entries_ s !!! slot t = enc (cells_of s !!! slot t).
Proof.
  intros [[He Hw] HI]. pose proof (ri_slot_lt n n_ring _ _ _ _ t HI) as Hlt. split.
  - by apply Forall_lookup_total_1.
  - rewrite He at 1. by apply list_lookup_total_fmap.
Qed.

Lemma Inv_entry s h t :
  Inv s h -> wf (cells_of s !!! slot t) /\ entries_ s !!! slot t = enc (cells_of s !!! slot t).
Proof. intros [HR _]. by apply (cells_lookup s h). Qed.

(** A step of the ring. *)
Definition Gr (i : nat) (c c' : state * scq_hist) : Prop :=
  evolves n (cells_of c.1) (head_ c.1) c.2 (cells_of c'.1) (head_ c'.1) c'.2.

(** The threads that do not move, and the one that does. *)
Lemma attended_step i s h s' h' :
  attended s h -> hist_step i h h' -> Gr i (s, h) (s', h') ->
  (forall t, HLin i (TakeHead t) ∈ h' ->
     t ∈ get_tickets (events h') \/ deq_at i t h' \/ shut s' h' t) ->
  attended s' h'.
Proof.
  intros HA Hh HG Hown j t Hj. destruct (decide (j = i)) as [->|Hne]; [by apply Hown|].
  apply (hist_step_own i j h h') in Hj; [|done..].
  destruct (HA j t Hj) as [Hg|[Hd|Hc]].
  - left. destruct (hist_step_events i h h' Hh) as [k' ->]. rewrite get_tickets_app. apply elem_of_app. by left.
  - right; left. unfold deq_at in *. by rewrite (hist_step_view i j h h').
  - right; right. by apply (ev_closed _ _ _ _ _ _ _ HG).
Qed.

(** A step of a thread that keeps its last ticket, if it works on one. *)
Lemma attended_keep i s h s' h' :
  attended s h -> hist_step i h h' -> Gr i (s, h) (s', h') ->
  (forall t, HLin i (TakeHead t) ∈ h' -> HLin i (TakeHead t) ∈ h) ->
  (forall t, deq_at i t h -> t ∈ get_tickets (events h') \/ deq_at i t h' \/ shut s' h' t) ->
  attended s' h'.
Proof.
  intros HA Hh HG Hold Hat. apply (attended_step i s h); [done..|]. intros t Ht%Hold.
  destruct (HA i t Ht) as [Hg|[Hd|Hc]].
  - left. destruct (hist_step_events i h h' Hh) as [k' ->]. rewrite get_tickets_app. apply elem_of_app. by left.
  - by apply Hat.
  - right; right. by apply (ev_closed _ _ _ _ _ _ _ HG).
Qed.

Lemma set_entry_cells s t d :
  wf d -> cells_of (set_entry (slot_index n bt t) (enc d) s) = <[slot t := d]> (cells_of s).
Proof.
  intros Hd. unfold cells_of, set_entry. simpl. rewrite slot_index_eq by done.
  by rewrite list_fmap_insert, dec_enc.
Qed.

(** A compare-and-swap on the slot of [t] that found the cell [c] is a step of
    the protocol on [c]. *)
Lemma ring_ok_cas s (h h' : scq_hist) t d :
  ring_ok s h -> wf d ->
  ring_inv n (<[slot t := d]> (cells_of s)) (head_ s) (tail_ s) h' ->
  ring_ok (set_entry (slot_index n bt t) (enc d) s) h'.
Proof.
  intros [[He Hw] _] Hd HR. unfold ring_ok. rewrite set_entry_cells by done. split; [|done]. split.
  - unfold set_entry. simpl. rewrite slot_index_eq by done. by rewrite list_fmap_insert, <- He.
  - by apply Forall_insert.
Qed.

Definition same (s s' : state) : Prop :=
  entries_ s' = entries_ s /\ head_ s' = head_ s /\ tail_ s' = tail_ s.

Lemma same_cells s s' : same s s' -> cells_of s' = cells_of s.
Proof. intros (H1 & _). unfold cells_of. by rewrite H1. Qed.

Lemma shut_same s s' h t : same s s' -> shut s h t -> shut s' h t.
Proof. intros Hs. unfold shut. rewrite (same_cells s s' Hs). by destruct Hs as (_ & -> & _). Qed.

Lemma Inv_same s s' h : same s s' -> Inv s h -> Inv s' h.
Proof.
  intros Hs ([HR HR'] & HA & Hb). pose proof (same_cells s s' Hs) as Hc. split; [|split].
  - unfold ring_ok. rewrite Hc. destruct Hs as (-> & -> & ->). done.
  - intros i t Hi. destruct (HA i t Hi) as [?|[?|?]]; [by left|by right; left|right; right].
    by apply (shut_same s).
  - by destruct Hs as (_ & -> & ->).
Qed.

Lemma Gr_same i s s' h : same s s' -> Gr i (s, h) (s', h).
Proof.
  intros Hs. unfold Gr. simpl. rewrite (same_cells s s' Hs). destruct Hs as (_ & -> & _). apply evolves_refl.
Qed.

Definition reject (v : Z) (ts : list Z) : Prop := ~ accepted k kEmpty v /\ ts = [].

(** A dequeuer between two tickets: the last one, if any, is shut. *)
Definition deq_free (i : nat) (s : state) (h : scq_hist) : Prop :=
  deq_drew i h /\ forall t, deq_at i t h -> shut s h t.

Definition LI (i : nat) (l : label) (s : state) (h : scq_hist) : Prop :=
  match l with
  | EnqEntry v => opview i h = Some (OpEnq v, []) /\ 0 <= v <= kEmpty
  | EnqTicket v => accepted k kEmpty v /\ enq_drew i v h
  | EnqSlot v t => accepted k kEmpty v /\ 0 <= t < two64 /\ enq_at i v t h
  | DeqEntry | DeqTicket | FixLoop => deq_free i s h
  | DeqSlot t => 0 <= t < two64 /\ holds i t h /\ deq_at i t h
  end.

Abbreviation good := (tgood (accepted k kEmpty) kEmpty reject).

(** A dequeuer returns without a value only when its last ticket is shut. *)
Definition LR (i : nat) (r : qres Z) (s : state) (h : scq_hist) : Prop :=
  Post good i r s h /\ forall t, deq_at i t h -> shut s h t.

Abbreviation stable := (stable Inv Gr).
Abbreviation wp := (wp Inv Gr scq_ok).
Abbreviation Q := (Qend LI LR).

Lemma stable_holds i t : stable i (fun _ h => holds i t h).
Proof. intros c c' (j & Hj & Hh & _) H. by apply (holds_step i j t c.2). Qed.

Lemma stable_op_ex i o (f : list Z -> list tev) :
  stable i (fun _ h => exists ts, opview i h = Some (o, f ts)).
Proof. apply (stable_view _ _ i (fun v => exists ts, v = Some (o, f ts))). Qed.

Lemma stable_enq_drew i v : stable i (fun _ => enq_drew i v).
Proof. apply (stable_op_ex i (OpEnq v) (fun ts => TakeTail <$> ts)). Qed.

Lemma stable_enq_at i v t : stable i (fun _ => enq_at i v t).
Proof. apply (stable_op_ex i (OpEnq v) (fun ts => (TakeTail <$> ts) ++ [TakeTail t])). Qed.

Lemma stable_deq_drew i : stable i (fun _ => deq_drew i).
Proof. apply (stable_op_ex i OpDeq (fun ts => TakeHead <$> ts)). Qed.

Lemma stable_deq_at i t : stable i (fun _ => deq_at i t).
Proof. apply (stable_op_ex i OpDeq (fun ts => (TakeHead <$> ts) ++ [TakeHead t])). Qed.

Lemma stable_last_shut i : stable i (fun s h => forall t, deq_at i t h -> shut s h t).
Proof.
  intros c c' (j & Hj & Hh & HG & _) H t Ht. apply (ev_closed _ _ _ _ _ _ _ HG). apply H.
  unfold deq_at in *. by rewrite (hist_step_view j i c.2 c'.2) in Ht.
Qed.

Lemma stable_deq_free i : stable i (deq_free i).
Proof. apply stable_and; [apply stable_deq_drew|apply stable_last_shut]. Qed.

Lemma stable_LR i r : stable i (LR i r).
Proof. apply stable_and; [apply stable_post|apply stable_last_shut]. Qed.

(** A free cell that was read, as long as its cycle is the same: it has not
    changed, and it has not held a value since. *)
Lemma stable_read i t c :
  val c = None -> stable i (fun s _ => cyc c < cyc (cells_of s !!! slot t) \/ cells_of s !!! slot t = c).
Proof.
  intros Hv c1 c2 (j & _ & _ & HG & _) H. pose proof (ev_cyc _ _ _ _ _ _ _ HG t) as Hc. simpl in *.
  destruct H as [H|H]; [left; lia|]. destruct (ev_free _ _ _ _ _ _ _ HG t) as [[Hs _]|Hlt].
  - by rewrite H.
  - right. by rewrite Hs.
  - left. by rewrite H in Hlt.
Qed.

Lemma stable_read_mark i t c w :
  val c = None -> stable i (fun s h => cyc c < cyc (cells_of s !!! slot t) \/
    (cells_of s !!! slot t = c /\ wmark n (events h) (slot t) <= w)).
Proof.
  intros Hv c1 c2 (j & _ & _ & HG & _) H. pose proof (ev_cyc _ _ _ _ _ _ _ HG t) as Hc. simpl in *.
  destruct H as [H|[H Hw]]; [left; lia|]. destruct (ev_free _ _ _ _ _ _ _ HG t) as [[Hs Hm]|Hlt].
  - by rewrite H.
  - right. by rewrite Hs, Hm.
  - left. by rewrite H in Hlt.
Qed.

#[local] Hint Resolve stable_op stable_enq_drew stable_enq_at stable_deq_drew stable_deq_at stable_deq_free
  stable_holds stable_pure stable_post stable_LR stable_read stable_read_mark : lscq.
Ltac stab := first [solve [eauto with lscq] | apply stable_and; stab].

Lemma stable_Q i x : stable i (Q i x).
Proof. destruct x as [[]|r]; unfold Qend, LI; stab. Qed.

Lemma wp_done i x s h : Q i x s h -> wp i (Ret x) (Q i) (s, h).
Proof. intros HQ. apply (wp_ret _ _ _ i); [apply stable_Q|done]. Qed.

(** An access that leaves slots and counters as they are. *)
Lemma wp_quiet {A} i (P : state -> scq_hist -> Prop) (X : Set) f (kk : X -> prog state tev A) QQ s h :
  (forall s, same s (f s).1) -> stable i P -> P s h ->
  (forall s1 h1, P s1 h1 -> Inv s1 h1 -> wp i (kk (f s1).2) QQ ((f s1).1, h1)) ->
  wp i (Act X f (fun _ => []) kk) QQ (s, h).
Proof.
  intros Hf HP HPs Hkk. apply (wp_silent _ _ _ i P); [done|done|].
  intros s1 h1 s2 x HP1 HI1 Hfx _. pose proof (Hf s1) as Hs. rewrite Hfx in Hs.
  split_and!; [by apply Gr_same|by apply (Inv_same s1)|]. specialize (Hkk s1 h1 HP1 HI1). by rewrite Hfx in Hkk.
Qed.

Lemma same_refl s : same s s.
Proof. done. Qed.

Lemma load_entry_same t s : same s (load_entry (slot_index n bt t) s).1.
Proof. by rewrite scq_load_entry_eq. Qed.

Lemma deq_free_same i s s' h : same s s' -> deq_free i s h -> deq_free i s' h.
Proof. intros Hs [Hd Hc]. split; [done|]. intros t Ht. apply (shut_same s s' h t Hs). auto. Qed.

Lemma ring_ok_other s h x : (forall i e, x <> HLin i e) -> ring_ok s h -> ring_ok s (h ++ [x]).
Proof. intros Hx [Hc HR]. split; [done|by apply ring_other]. Qed.

(** ** Enqueue *)

(** An enqueuer works on no ticket of the head. *)
Lemma enq_not_deq i v es t h : opview i h = Some (OpEnq v, es) -> ~ deq_at i t h.
Proof. intros H1 [hs H2]. rewrite H1 in H2. discriminate H2. Qed.

Lemma attended_enq i v es s h s' e :
  attended s h -> opview i h = Some (OpEnq v, es) -> (forall t, e <> TakeHead t) ->
  Gr i (s, h) (s', h ++ [HLin i e]) -> attended s' (h ++ [HLin i e]).
Proof.
  intros HA Hv He HG. apply (attended_keep i s h); [done|by apply hist_step_one|done|..].
  - intros t [?|[_ ?]]%elem_lin_snoc; [done|]. by destruct (He t).
  - intros t Ht. by destruct (enq_not_deq i v es t h Hv).
Qed.

(** What an enqueuer returns. *)
Lemma wp_enq_return i v es r s h :
  opview i h = Some (OpEnq v, es) -> good (OpEnq v) es r -> wp i (Ret (inr r)) (Q i) (s, h).
Proof.
  intros Hv Hg. apply wp_done. split; [by exists (OpEnq v), es|].
  intros t Ht. by destruct (enq_not_deq i v es t h Hv).
Qed.

Lemma wp_enqueue_entry i v s h : LI i (EnqEntry v) s h -> wp i (enqueue_entry bt kEmpty v) (Q i) (s, h).
Proof.
  intros [Hv Hr]. unfold enqueue_entry. rewrite u64_small by (unfold is_u64; lia).
  destruct (Z.eqb_spec v kEmpty) as [->|Hne]; [|destruct (Z.leb_spec bt v) as [Hb|Hb]].
  - apply (wp_enq_return i kEmpty []); [done|]. right. split; [done|]. exists [].
    split; [|done]. split; [|done]. by intros (_ & ? & _).
  - apply (wp_enq_return i v []); [done|]. right. split; [done|]. exists [].
    split; [|done]. split; [|done]. intros (? & _). lia.
  - apply wp_done. simpl. split; [|by exists []]. unfold accepted. lia.
Qed.

Lemma wp_enqueue_ticket i v s h : LI i (EnqTicket v) s h -> wp i (enqueue_ticket v) (Q i) (s, h).
Proof.
  intros [Hv Hd]. unfold enqueue_ticket. simpl.
  apply (wp_act _ _ _ i (fun _ => enq_drew i v)); [stab|done|]. clear s h Hd.
  intros s h s2 t [ts Hd] ([Hc HI] & HA & Hb) [= <- <-] (_ & _ & Ho). simpl in Ho.
  pose proof (size_lit k Hk). assert (add64 (tail_ s) 1 = tail_ s + 1) as Ha
    by (apply add64_small; unfold is_u64; lia).
  rewrite Ha in *. change (HLin i <$> [?e]) with [HLin (Op:=qop Z) (R:=qres Z) i e].
  assert (Gr i (s, h) (mkState (entries_ s) (head_ s) (tail_ s + 1) (threshold_ s),
    h ++ [HLin i (TakeTail (tail_ s))])) as HG by apply evolves_draw_tail.
  split_and!; [done| |].
  - split_and!; simpl; try lia; [|by apply (attended_enq i v (TakeTail <$> ts) s)].
    split; [done|]. apply ring_draw_tail; [done|simpl; lia].
  - apply wp_done. simpl. split_and!; [done|lia|lia|]. exists ts.
    by rewrite opview_snoc, decide_True, Hd.
Qed.

(** The end of a successful [enqueue]: the threshold is restored. *)
Lemma wp_enqueue_finish i v t s h :
  accepted k kEmpty v ->
  (exists ts, opview i h = Some (OpEnq v, (TakeTail <$> ts) ++ [TakeTail t] ++ [PutAt t v])) ->
  wp i (let! th := atomic load_threshold in
        if negb (th =? threshold_reset n) then
          let! _ := atomic (store_threshold (threshold_reset n)) in Ret (inr (RBool true))
        else Ret (inr (RBool true)))%prog (Q i) (s, h).
Proof.
  intros Hv Hop. set (P := fun (_ : state) (h : scq_hist) =>
    exists ts, opview i h = Some (OpEnq v, (TakeTail <$> ts) ++ [TakeTail t] ++ [PutAt t v])).
  assert (stable i P) as HP.
  { apply (stable_op_ex i (OpEnq v) (fun ts => (TakeTail <$> ts) ++ [TakeTail t] ++ [PutAt t v])). }
  assert (forall s' s h, P s' h -> wp i (Ret (inr (RBool true))) (Q i) (s, h)) as Hret.
  { intros s' s1 h1 [ts H1]. eapply wp_enq_return; [exact H1|]. left. split_and!; [done|done|by eauto]. }
  simpl. apply (wp_quiet i P); [done|done|done|]. intros s1 h1 HP1 HI1.
  destruct (negb _); simpl; [|by apply (Hret s1)].
  apply (wp_quiet i P); [done|done|done|]. intros s2 h2 HP2 HI2. by apply (Hret s2).
Qed.

(** The exchange of a free cell [c] that is safe, or whose slot has held no value
    since the head was at most [t]. *)
Lemma wp_enqueue_cas i v t c s h :
  accepted k kEmpty v -> 0 <= t < two64 -> wf c -> val c = None -> cyc c < t / n ->
  enq_at i v t h ->
  cyc c < cyc (cells_of s !!! slot t) \/
    (cells_of s !!! slot t = c /\ (safe c = true \/ wmark n (events h) (slot t) <= t)) ->
  wp i (let! ok := atomic_lin (cas2_entry (slot_index n bt t) (enc c)
                                   (mkEntry (pack_cycle_flags (t / n) true) v))
                       (fun ok : bool => if ok then [PutAt t v] else []) in
       if (ok : bool) then
         let! th := atomic load_threshold in
         if negb (th =? threshold_reset n) then
           let! _ := atomic (store_threshold (threshold_reset n)) in Ret (inr (RBool true))
         else Ret (inr (RBool true))
       else Ret (inl (EnqSlot v t)))%prog (Q i) (s, h).
Proof.
  intros Hv Ht Hwc Hval Hlt Hd Hcell. simpl. pose proof (two63_half _ (ticket_cycle k Hk t Ht)) as Hct.
  apply (wp_act _ _ _ i (fun s h => enq_at i v t h /\ (cyc c < cyc (cells_of s !!! slot t) \/
    (cells_of s !!! slot t = c /\ (safe c = true \/ wmark n (events h) (slot t) <= t))))).
  { apply stable_and; [stab|]. destruct (safe c).
    - intros c1 c2 Hr H. destruct (stable_read i t c Hval c1 c2 Hr) as [?|?]; [|by left|right; auto].
      destruct H as [?|[? _]]; auto.
    - intros c1 c2 Hr H. destruct (stable_read_mark i t c t Hval c1 c2 Hr) as [?|[? ?]]; [|by left|right; auto].
      destruct H as [?|[? [?|?]]]; [by left|done|by right]. }
  { done. }
  clear s h Hd Hcell. intros s h s2 ok [Hd Hcell] HI. rewrite (scq_cas2_entry_eq k Hk).
  pose proof HI as (HR & HA & Hb). destruct (cells_lookup s h t HR) as [Hwc' Hl].
  case_decide as Heq; intros [= <- <-] _.
  - assert (cells_of s !!! slot t = c) as Hc by (apply enc_inj; [done|done|congruence]).
    assert (wf (mkCell (t / n) true (Some v))) as Hwd by (split; [done|]; by intros v' [= <-]).
    set (d := mkCell (t / n) true (Some v)) in *.
    change (mkEntry (pack_cycle_flags (t / n) true) v) with (enc d).
    change (HLin i <$> [?e]) with [HLin (Op:=qop Z) (R:=qres Z) i e].
    destruct c as [cy b ?]. simpl in Hval, Hlt. subst val.
    assert (Gr i (s, h) (set_entry (slot_index n bt t) (enc d) s, h ++ [HLin i (PutAt t v)])) as HG.
    { unfold Gr. simpl. rewrite set_entry_cells by done.
      apply (evolves_store n n_ring _ _ (tail_ s) _ _ _ _ cy b); [apply HR|done|done|].
      destruct Hcell as [Hcell|[_ Hcell]]; [rewrite Hc in Hcell; simpl in Hcell; lia|done]. }
    split_and!; [done| |].
    + destruct Hd as [ts Hd]. split_and!; simpl; try lia; [|by eapply attended_enq].
      apply (ring_ok_cas s h); [done|done|]. by apply (ring_store n n_ring _ _ _ _ _ _ _ cy b); [apply HR|..].
    + apply (wp_enqueue_finish i v t); [done|]. destruct Hd as [ts Hd]. exists ts.
      by rewrite opview_snoc, decide_True, Hd, <- app_assoc.
  - rewrite lin_nil. split_and!; [by apply Gr_same|done|]. apply wp_done. simpl. auto.
Qed.

Lemma wp_enqueue_slot i v t s h :
  LI i (EnqSlot v t) s h -> wp i (enqueue_slot n bt v t) (Q i) (s, h).
Proof.
  intros (Hv & Ht & Hd). unfold enqueue_slot. rewrite shift_cycle by done. simpl.
  pose proof (two63_half _ (ticket_cycle k Hk t Ht)) as Hct.
  apply (wp_quiet i (fun _ => enq_at i v t)); [apply load_entry_same|stab|done|]. clear s h Hd.
  intros s h Hd HI. rewrite (scq_load_entry_eq k Hk). simpl.
  destruct (Inv_entry s h t HI) as (Hc & ->).
  remember (cells_of s !!! slot t) as c eqn:Hcell. symmetry in Hcell.
  rewrite enc_cycle by done. rewrite cycle_less_spec by (done || apply Hc).
  assert (forall s h, enq_at i v t h -> wp i (Ret (inl (EnqTicket v))) (Q i) (s, h)) as Hskip.
  { intros s1 h1 H1. apply wp_done. simpl. split; [done|]. by apply (enq_at_drew i v t). }
  destruct (Z.ltb_spec (cyc c) (t / n)) as [Hlt|]; [|by apply Hskip]. cbn [andb].
  destruct (Z.eqb_spec (index_or_ptr (enc c)) bt) as [Hidx|]; [|by apply Hskip].
  destruct (enc_val c Hc) as [[_ Hnone]|(v' & _ & Hv' & Ha)]; [|unfold accepted in Ha; lia].
  rewrite enc_safe by done. destruct (safe c) eqn:Hsafe; simpl.
  - apply wp_enqueue_cas; [done..|]. right. auto.
  - apply (wp_quiet i (fun s h => enq_at i v t h /\
      (cyc c < cyc (cells_of s !!! slot t) \/ cells_of s !!! slot t = c))); [done| |by auto|].
    { apply stable_and; [stab|]. by apply stable_read. }
    clear s h Hd HI Hcell. intros s h [Hd Hcell] HI. simpl. destruct (Z.leb_spec (head_ s) t) as [Hle|]; [|by apply Hskip].
    apply wp_enqueue_cas; [done..|]. destruct Hcell as [?|Hcell]; [by left|right]. split; [done|]. right.
    destruct HI as ([_ HR] & _). pose proof (wmark_le n (events h) (slot t) ltac:(pose proof (size_lit k Hk); lia)) as Hw.
    rewrite (ri_heads _ _ _ _ _ HR), length_seqZ in Hw. pose proof (ri_hd _ _ _ _ _ HR). lia.
Qed.

(** ** Dequeue *)

Lemma wp_empty i s h : deq_free i s h -> wp i (Ret (inr (RVal kEmpty))) (Q i) (s, h).
Proof.
  intros [[hs Hd] Hc]. apply wp_done. split; [|done]. eexists OpDeq, _. split; [exact Hd|].
  right. split; [done|by eexists].
Qed.

(** One more access of a dequeuer that only looks at the counters or writes the
    threshold. *)
Lemma wp_deq_quiet {A} i (X : Set) f (kk : X -> prog state tev A) QQ s h :
  (forall s, same s (f s).1) -> deq_free i s h ->
  (forall s1 h1, deq_free i (f s1).1 h1 -> Inv s1 h1 -> wp i (kk (f s1).2) QQ ((f s1).1, h1)) ->
  wp i (Act X f (fun _ => []) kk) QQ (s, h).
Proof.
  intros Hf Hd Hk'. apply (wp_quiet i (deq_free i)); [done|stab|done|]. intros s1 h1 Hd1 HI1.
  apply Hk'; [|done]. by apply (deq_free_same i s1).
Qed.

Ltac deq_quiet i Hd :=
  simpl; apply (wp_deq_quiet i); [done|exact Hd|]; clear Hd; intros ? ? Hd _; simpl in Hd; simpl.

Lemma wp_exhausted i s h : deq_free i s h -> wp i (dequeue_exhausted n kEmpty) (Q i) (s, h).
Proof.
  intros Hd. unfold dequeue_exhausted. deq_quiet i Hd. deq_quiet i Hd.
  destruct (_ <? _); [deq_quiet i Hd; by apply wp_empty|].
  destruct (_ && _); [by apply wp_done|by apply wp_empty].
Qed.

Lemma wp_after i t s h : deq_free i s h -> wp i (dequeue_after n kEmpty t) (Q i) (s, h).
Proof.
  intros Hd. unfold dequeue_after. deq_quiet i Hd.
  destruct (_ <=? _); deq_quiet i Hd;
    (destruct (_ <=? _); [by apply wp_exhausted|]); [by apply wp_empty|by apply wp_done].
Qed.

Lemma wp_dequeue_entry i s h : LI i DeqEntry s h -> wp i (dequeue_entry n kEmpty) (Q i) (s, h).
Proof.
  intros Hd. simpl in Hd. unfold dequeue_entry. deq_quiet i Hd.
  destruct (_ <? _); [|by apply wp_done]. deq_quiet i Hd. deq_quiet i Hd.
  destruct (_ <? _); [deq_quiet i Hd; by apply wp_done|by apply wp_empty].
Qed.

Lemma wp_dequeue_ticket i s h : LI i DeqTicket s h -> wp i dequeue_ticket (Q i) (s, h).
Proof.
  intros Hd. unfold dequeue_ticket. simpl.
  apply (wp_act _ _ _ i (deq_free i)); [stab|done|]. clear s h Hd.
  intros s h s2 t [[hs Hd] Hsh] ([Hc HI] & HA & Hb) [= <- <-] (_ & Ho & _). simpl in Ho.
  pose proof (size_lit k Hk). pose proof (ri_hd _ _ _ _ _ HI).
  assert (add64 (head_ s) 1 = head_ s + 1) as Ha by (apply add64_small; unfold is_u64; lia).
  rewrite Ha in *. destruct (ring_draw_head n _ _ _ _ i HI) as [HI' Hh].
  change (HLin i <$> [?e]) with [HLin (Op:=qop Z) (R:=qres Z) i e].
  set (s' := mkState (entries_ s) (head_ s + 1) (tail_ s) (threshold_ s)).
  set (h' := h ++ [HLin i (TakeHead (head_ s))]) in *.
  assert (Gr i (s, h) (s', h')) as HG by apply evolves_draw_head.
  assert (deq_at i (head_ s) h') as Hat.
  { exists hs. unfold h'. by rewrite opview_snoc, decide_True, Hd. }
  split_and!; [done| |].
  - split_and!; simpl; try lia; [by split|].
    apply (attended_step i s h); [done|by apply hist_step_one|done|]. intros t [Ht|[_ [= ->]]]%elem_lin_snoc.
    + destruct (HA i t Ht) as [Hg|[Hdt|Hc']].
      * left. unfold h'. rewrite events_snoc, get_tickets_app. apply elem_of_app. by left.
      * right; right. apply (ev_closed _ _ _ _ _ _ _ HG). by apply Hsh.
      * right; right. by apply (ev_closed _ _ _ _ _ _ _ HG).
    + by right; left.
  - apply wp_done. simpl. by split_and!; [lia|lia|..].
Qed.

(** The entry that a dequeuer writes over an older cell. *)
Lemma enc_older t c : wf c ->
  (if index_or_ptr (enc c) =? bt
   then mkEntry (pack_cycle_flags (t / n) (unpack_is_safe (cycle_flags (enc c)))) bt
   else mkEntry (pack_cycle_flags (unpack_cycle (cycle_flags (enc c))) false) (index_or_ptr (enc c)))
  = enc (older n t c).
Proof.
  intros Hc. rewrite enc_safe, enc_cycle by done. unfold older.
  destruct (enc_val c Hc) as [[-> ->]|(v & -> & Hi & Ha)]; [by rewrite Z.eqb_refl|].
  rewrite Hi. destruct (Z.eqb_spec v bt); [unfold accepted in Ha; lia|done].
Qed.

Lemma wf_older t c : 0 <= t / n < two63 -> wf c -> wf (older n t c).
Proof. intros Ht [Hc Hv]. unfold older. destruct (val c) eqn:E; split; simpl; naive_solver. Qed.

Lemma accepted_cast v : accepted k kEmpty v -> cast_T kEmpty v = v.
Proof. intros (? & ? & ?). unfold cast_T. apply Z.mod_small. lia. Qed.

(** The consumption of the value that the holder of the ticket has seen. *)
Lemma wp_consume i t v s h :
  holds i t h -> deq_at i t h -> accepted k kEmpty v -> PutAt t v ∈ events h ->
  wp i (Act unit (or_index (slot_index n bt t) bt) (fun _ => [GetAt t v])
          (fun _ => Ret (inr (RVal (cast_T kEmpty v))))) (Q i) (s, h).
Proof.
  intros Hh Hd Hv Hp. rewrite accepted_cast by done.
  apply (wp_act _ _ _ i (fun _ h => (holds i t h /\ deq_at i t h) /\ PutAt t v ∈ events h)).
  { apply stable_and; [stab|]. apply (stable_events _ _ i (fun es => PutAt t v ∈ es)).
    intros es es' Hin. apply elem_of_app. by left. }
  { done. }
  clear s h Hh Hd Hp. intros s h s2 [] [[Hh Hd] Hp] HI. unfold or_index.
  rewrite slot_index_eq by done. intros [= <-] _. pose proof HI as ([Hc HR] & HA & Hb).
  destruct (put_in_cell n _ _ _ _ _ _ HR Hp (holds_fresh n _ _ _ _ _ _ HR Hh)) as [b Hcell].
  destruct (Inv_entry s h t HI) as [Hwc Hl]. rewrite Hcell in Hwc, Hl. rewrite Hl.
  set (d := mkCell (t / n) b None). assert (wf d) as Hwd by (split; [apply Hwc|done]).
  replace (mkEntry (cycle_flags (enc (mkCell (t / n) b (Some v)))) _) with (enc d).
  2:{ unfold enc, atomic_or_u64. simpl. f_equal. destruct Hv as [Hv _]. unfold bot in *.
      by rewrite lor_pow2_mask by lia. }
  change (HLin i <$> [?e]) with [HLin (Op:=qop Z) (R:=qres Z) i e].
  assert (Gr i (s, h) (set_entry (slot_index n bt t) (enc d) s, h ++ [HLin i (GetAt t v)])) as HG.
  { unfold Gr. simpl. rewrite set_entry_cells by done. by apply (evolves_consume n n_ring _ _ (tail_ s)). }
  destruct Hd as [hs Hd]. split_and!; [done| |].
  - split_and!; simpl; try lia.
    + apply (ring_ok_cas s h); [done|done|]. by apply (ring_consume n n_ring).
    + apply (attended_keep i s h); [done|by apply hist_step_one|done|..].
      * by intros t' [?|[_ [=]]]%elem_lin_snoc.
      * intros t' Ht'.
        apply (deq_at_last i t' OpDeq (TakeHead <$> hs) (TakeHead t)) in Ht' as [= <-]; [|done].
        left. rewrite events_snoc, get_tickets_app. apply elem_of_app. right. by apply list_elem_of_singleton.
  - apply wp_done.
    assert (opview i (h ++ [HLin i (GetAt t v)]) = Some (OpDeq, ((TakeHead <$> hs) ++ [TakeHead t]) ++ [GetAt t v]))
      as Hd' by (by rewrite opview_snoc, decide_True, Hd).
    split.
    + eexists OpDeq, _. split; [exact Hd'|]. left. exists hs, t, v. split_and!; [done|done|by rewrite <- app_assoc].
    + intros t' Ht'. by discriminate (deq_at_last i t' _ _ _ _ Ht' Hd').
Qed.

(** The last ticket is shut. *)
Lemma deq_at_free i t s h : deq_at i t h -> shut s h t -> deq_free i s h.
Proof.
  intros Hd Hs. split; [by apply (deq_at_drew i t)|]. intros t' Ht'. destruct Hd as [hs Hd].
  by apply (deq_at_last i t' _ _ _ h Ht') in Hd as [= <-].
Qed.

Lemma wp_dequeue_slot i t s h :
  LI i (DeqSlot t) s h -> wp i (dequeue_slot n bt kEmpty t) (Q i) (s, h).
Proof.
  intros (Ht & Hh & Hd). unfold dequeue_slot. rewrite shift_cycle by done. simpl.
  pose proof (two63_half _ (ticket_cycle k Hk t Ht)) as Hct.
  assert (forall s h, deq_at i t h -> shut s h t -> wp i (dequeue_after n kEmpty t) (Q i) (s, h)) as Hafter.
  { intros s1 h1 H1 H2. apply wp_after. by apply (deq_at_free i t). }
  assert (forall s h, holds i t h -> deq_at i t h ->
    wp i (Ret (inl (DeqSlot t))) (Q i) (s, h)) as Hagain by (intros; by apply wp_done).
  apply (wp_quiet i (fun _ h => holds i t h /\ deq_at i t h)); [apply load_entry_same|stab|done|].
  clear s h Hd Hh. intros s h [Hh Hd] HI. rewrite (scq_load_entry_eq k Hk). cbn [fst snd].
  pose proof HI as ([_ HR] & _). destruct (Inv_entry s h t HI) as [Hwc ->].
  assert (t / n <= cyc (cells_of s !!! slot t) ->
    (cyc (cells_of s !!! slot t) = t / n -> val (cells_of s !!! slot t) = None) -> shut s h t) as Hgone
    by by apply (closed_gone n _ _ (tail_ s) _ i).
  pose proof (ri_cell _ _ _ _ _ HR t) as Hput.
  remember (cells_of s !!! slot t) as c eqn:Hcell. symmetry in Hcell.
  rewrite enc_older by done. rewrite enc_cycle, enc_safe by done.
  destruct (Z.eqb_spec (cyc c) (t / n)) as [Heq|Hne].
  - destruct (safe c) eqn:Hsafe; cbn [negb]; [|by apply Hagain].
    destruct (enc_val c Hwc) as [[-> Hv]|(v & Hv & -> & Ha)].
    { rewrite Z.eqb_refl. apply Hafter; [done|]. apply Hgone; [lia|done]. }
    destruct (Z.eqb_spec v bt) as [|_]; [unfold accepted in Ha; lia|]. simpl. apply wp_consume; [done|done|done|].
    apply (Hput true v). destruct c. simpl in *. by subst.
  - rewrite cycle_less_spec by (done || apply Hwc).
    destruct (Z.ltb_spec (cyc c) (t / n)) as [Hlt|]; [|apply Hafter; [done|apply Hgone; [lia|done]]]. simpl.
    apply (wp_silent _ _ _ i (fun _ h => holds i t h /\ deq_at i t h)); [stab|done|].
    clear s h HI HR Hh Hd Hcell Hgone Hput. intros s h s2 ok [Hh Hd] HI.
    rewrite (scq_cas2_entry_eq k Hk). pose proof HI as (HR & HA & Hb).
    destruct (cells_lookup s h t HR) as [Hwc' Hl].
    case_decide as Hcas; intros [= <- <-] _; simpl negb; cbv iota.
    + assert (cells_of s !!! slot t = c) as Hc by (apply enc_inj; [done|done|congruence]). subst c.
      pose proof (wf_older t _ ltac:(lia) Hwc) as Hwd.
      set (s' := set_entry (slot_index n bt t) (enc (older n t (cells_of s !!! slot t))) s).
      assert (cells_of s' = <[slot t := older n t (cells_of s !!! slot t)]> (cells_of s)) as Hcs by by apply set_entry_cells.
      assert (Gr i (s, h) (s', h)) as HG.
      { unfold Gr. simpl. rewrite Hcs. apply (evolves_older n n_ring _ _ (tail_ s)); [apply HR|done]. }
      split_and!; [done| |apply Hafter; [done|]].
      * split_and!; simpl; try lia.
        -- apply (ring_ok_cas s h); [done|done|]. apply (ring_older n n_ring); [lia|done|apply HR].
        -- apply (attended_keep i s h); [done|apply hist_step_refl|done|done|]. by intros t' Ht'; right; left.
      * unfold shut. rewrite Hcs. apply (closed_older n n_ring _ _ (tail_ s) _ i); [apply HR|apply Hh|done].
    + split_and!; [by apply Gr_same|done|by apply Hagain].
Qed.

Lemma wp_fixState i s h : LI i FixLoop s h -> wp i (fixState_loop n kEmpty) (Q i) (s, h).
Proof.
  intros Hd. simpl in Hd. unfold fixState_loop.
  assert (forall s h, deq_free i s h -> wp i (Act unit (store_threshold (threshold_reset n)) (fun _ => [])
    (fun _ => Ret (inr (RVal kEmpty)))) (Q i) (s, h)) as Hfixed.
  { clear s h Hd. intros s h Hd. deq_quiet i Hd. by apply wp_empty. }
  simpl. apply (wp_silent _ _ _ i (deq_free i)); [stab|done|]. clear s h Hd.
  intros s h s2 x Hd HI [= <- <-] _. split_and!; [by apply Gr_same|done|].
  assert (n <= head_ s < two64) as Hx.
  { destruct HI as ([_ HR] & _ & Hb). pose proof (ri_hd _ _ _ _ _ HR). lia. }
  set (x := head_ s) in *. clearbody x. clear HI.
  deq_quiet i Hd. set (t := tail_ s1). clearbody t.
  destruct (Z.leb_spec x t) as [|Hlt]; simpl orb; cbv iota; [by apply Hfixed|].
  destruct (_ <=? _); [by apply Hfixed|]. simpl. apply wp_choose. intros b.
  apply (wp_silent _ _ _ i (deq_free i)); [stab|done|]. clear s h Hd.
  intros s h s2 ok Hd HI. rewrite scq_cas_tail_eq. case_decide as Hc; intros [= <- <-] Hok.
  - destruct Hc as [_ Hc]. destruct HI as ([Hcs HR] & HA & Hb). destruct Hok as (_ & _ & Ho). simpl in Ho.
    split_and!; [apply evolves_refl| |by apply Hfixed].
    split_and!; simpl; try lia; [|done]. split; [done|].
    apply (ring_tail_forward n _ _ t); [|simpl; lia]. by rewrite <- Hc.
  - split_and!; [by apply Gr_same|done|]. by apply wp_done.
Qed.

Lemma scq_outline : return_outline entry (body n bt kEmpty) Inv Gr scq_ok LI LR good.
Proof.
  split.
  - intros i o s h HI Hn (Hcall & _ & _). destruct HI as (HR & HA & Hb).
    assert (Gr i (s, h) (s, h ++ [HCall i o])) as HG by by apply evolves_other.
    assert (forall t, ~ deq_at i t h) as Hnd by (intros t [hs Hd]; by rewrite Hn in Hd).
    split_and!; [done| |].
    + split_and!; [by apply ring_ok_other| |lia..].
      apply (attended_keep i s h); [done|by apply hist_step_one|done|..].
      * intros t. rewrite elem_of_app, list_elem_of_singleton. naive_solver.
      * intros t Ht. by destruct (Hnd t).
    + apply Forall_app in Hcall as [_ Hcall]. rewrite Forall_singleton in Hcall.
      assert (opview i (h ++ [HCall i o]) = Some (o, [])) as Hv by (by rewrite opview_call, decide_True).
      destruct o as [v|]; simpl in *; [done|]. split; [by exists []|].
      intros t [hs Ht]. rewrite Hv in Ht. injection Ht as Ht. by destruct (app_cons_not_nil _ _ _ Ht).
  - intros i r s h (HR & HA & Hb) [HP Hsh].
    assert (Gr i (s, h) (s, h ++ [HRet i r])) as HG by by apply evolves_other.
    split_and!; [done| |done]. split_and!; [by apply ring_ok_other| |lia..].
    apply (attended_keep i s h); [done|by apply hist_step_one|done|..].
    + intros t. rewrite elem_of_app, list_elem_of_singleton. naive_solver.
    + intros t Ht. right; right. apply (ev_closed _ _ _ _ _ _ _ HG). by apply Hsh.
  - intros i [v|v|v t| | |t|] s h HL _; simpl.
    + by apply wp_enqueue_entry.
    + by apply wp_enqueue_ticket.
    + by apply wp_enqueue_slot.
    + by apply wp_dequeue_entry.
    + by apply wp_dequeue_ticket.
    + by apply wp_dequeue_slot.
    + by apply wp_fixState.
Qed.

Lemma Inv_new : Inv (SCQ_new n) [].
Proof.
  pose proof (size_lit k Hk). unfold SCQ_new, SCQ_bottom.
  rewrite !u64_small by (unfold is_u64, two64; lia).
  set (cells := replicate (Z.to_nat n) (mkCell 0 true None)).
  assert (replicate (Z.to_nat n) (mkEntry (pack_cycle_flags 0 true) bt) = enc <$> cells) as He
    by (unfold cells; by rewrite fmap_replicate).
  assert (Forall wf cells) as Hw by (apply Forall_replicate; split; [done|]; by intros v).
  split_and!; simpl; try (unfold two64; lia).
  - unfold ring_ok. erewrite cells_of_enc; [|exact He|exact Hw]. split; [by split|apply ring_start, n_ring].
  - intros i t Hi. by apply elem_of_nil in Hi.
Qed.

(** A stored value whose ticket was drawn has been consumed, or its dequeuer works
    on it. *)
Lemma attended_put s h t v :
  ring_inv n (cells_of s) (head_ s) (tail_ s) h -> attended s h -> PutAt t v ∈ events h ->
  t < head_ s -> GetAt t v ∈ events h \/ exists i, deq_at i t h.
Proof.
  intros HR HA Hp Hlt. pose proof (ri_low _ _ _ _ _ HR t v Hp).
  assert (t ∈ head_tickets (events h)) as Ht by (rewrite (ri_heads _ _ _ _ _ HR); apply elem_of_seqZ; lia).
  apply elem_head_tickets, elem_events in Ht as [i Hi]. destruct (HA i t Hi) as [Hg|[Hd|[[Hnp _] _]]].
  - left. destruct (ri_put _ _ _ _ _ HR t v Hp) as [_ [?|[b Hc]]]; [done|].
    by destruct (ri_cell _ _ _ _ _ HR t b v Hc).
  - right. by exists i.
  - destruct Hnp. apply elem_put_tickets. eauto.
Qed.

Lemma scq_reach_ok threads cfg :
  reach entry (body n bt kEmpty) scq_ok (SCQ_new n) threads cfg ->
  Inv (shared cfg) (hist cfg) /\ Forall (fun '(o, es, r) => good o es r) (completed (hist cfg)).
Proof.
  intros Hr. destruct (return_adequacy _ _ _ _ _ _ _ _ scq_outline _ _ _
    (fun i c => evolves_refl _ _ _ _) Inv_new Hr) as (HI & _ & Hg). done.
Qed.

End conc.

(** ** Theorems *)

(** C2. Safety of [SCQ<T>] under every interleaving: any number of
    threads run [enqueue] and [dequeue] on a new queue, with any spurious
    failures, while the counters stay below [2^64].  (1) No ticket is used for
    two values and no value is consumed twice; (2) every consumed value was
    stored with the same ticket; (3) every stored value is consumed or is still
    in the slot of its ticket, under the cycle of its ticket: nothing is
    invented, duplicated or overwritten; (4) dequeue tickets are drawn
    consecutively and enqueue tickets in increasing order, so that values are
    matched with dequeuers in the order in which their tickets were drawn;
    (5) every completed operation did exactly what its result says: [true] for
    one stored value, a value for one consumed value, [false] and [kEmpty] for
    none. *)
Theorem scq_concurrent_safe k kEmpty threads cfg :
  2 <= k <= 60 -> 0 < kEmpty < two64 ->
  reach entry (body (size k) (bot k) kEmpty) (scq_ok kEmpty) (SCQ_new (size k)) threads cfg ->
  let es := events (hist cfg) in
  (NoDup (put_tickets es) /\ NoDup (get_tickets es)) /\
  (forall t v, GetAt t v ∈ es -> PutAt t v ∈ es) /\
  (forall t v, PutAt t v ∈ es -> GetAt t v ∈ es \/ exists b,
     entries_ (shared cfg) !!! slot_of (size k) t = mkEntry (pack_cycle_flags (t / size k) b) v) /\
  (head_tickets es = seqZ (size k) (head_ (shared cfg) - size k) /\
   StronglySorted Z.lt (tail_tickets es)) /\
  Forall (fun '(o, es, r) => tgood (accepted k kEmpty) kEmpty (reject k kEmpty) o es r)
    (completed (hist cfg)).
Proof.
  intros Hk HkE Hreach es. destruct (scq_reach_ok k kEmpty Hk HkE threads cfg Hreach) as [(HC & _) Hgood].
  pose proof HC as [_ HR]. fold es in HR. pose proof HR as [].
  fold es in ri_heads, ri_tails, ri_put, ri_puts, ri_gets. split_and!; try done.
  - intros t v Hin. apply elem_events in Hin as [i Hin]. by apply (ri_get i t v).
  - intros t v Hin. destruct (ri_put t v Hin) as [_ [?|[b Hc]]]; [by left|right]. exists b.
    destruct (cells_lookup k kEmpty Hk _ _ t HC) as [_ ->]. by rewrite Hc.
  - apply ri_tails.
Qed.

(** C3. [SCQ<T>] loses and overtakes no value, in every interleaving of any
    number of threads: (1) a value whose ticket the dequeuers have reached was
    consumed, or the dequeuer that drew its ticket is still running and works on
    it: a dequeuer gives its ticket up only when no enqueuer can store a value
    with it any more; (2) when a value was consumed, so was, with the same
    exception, every value that was stored with a smaller ticket; (3) when no
    operation is running, the consumed values are exactly those with a ticket
    below [head_], so that the others are still to come. *)
Theorem scq_no_loss k kEmpty threads cfg :
  2 <= k <= 60 -> 0 < kEmpty < two64 ->
  reach entry (body (size k) (bot k) kEmpty) (scq_ok kEmpty) (SCQ_new (size k)) threads cfg ->
  let es := events (hist cfg) in
  (forall t v, PutAt t v ∈ es -> t < head_ (shared cfg) ->
     GetAt t v ∈ es \/ exists i, deq_at i t (hist cfg)) /\
  (forall t v t' v', PutAt t v ∈ es -> GetAt t' v' ∈ es -> t < t' ->
     GetAt t v ∈ es \/ exists i, deq_at i t (hist cfg)) /\
  ((forall i, opview i (hist cfg) = None) ->
     forall t v, PutAt t v ∈ es -> GetAt t v ∈ es <-> t < head_ (shared cfg)).
Proof.
  intros Hk HkE Hreach es. destruct (scq_reach_ok k kEmpty Hk HkE threads cfg Hreach) as [([_ HR] & HA & _) _].
  assert (forall t v, GetAt t v ∈ es -> t < head_ (shared cfg)) as Hget.
  { intros t v [i Hi]%elem_events. destruct (ri_get _ _ _ _ _ HR i t v Hi) as [_ Ht].
    pose proof (head_ticket_range _ _ _ _ _ _ _ HR Ht). lia. }
  assert (forall t v, PutAt t v ∈ es -> t < head_ (shared cfg) ->
    GetAt t v ∈ es \/ exists i, deq_at i t (hist cfg)) as Hloss.
  { intros t v Hp Hlt. by apply (attended_put k (shared cfg)). }
  split_and!; [done| |].
  - intros t v t' v' Hp Hg Hlt. apply (Hloss t v Hp). specialize (Hget t' v' Hg). lia.
  - intros Hq t v Hp. split; [apply Hget|]. intros Hlt. destruct (Hloss t v Hp Hlt) as [?|(i & hs & Hd)]; [done|].
    by rewrite Hq in Hd.
Qed.

(** Three threads on a ring of four slots.  The second enqueuer overtakes the
    first; the dequeuer finds the slot of its first ticket empty and comes back
    with the next one. *)
Definition scq_demo_schedule : list (nat * move (qop Z)) :=
  [(0%nat, Call (OpEnq 1)); (1%nat, Call (OpEnq 2))] ++ go 0 3 ++ go 1 7 ++
  [(2%nat, Call OpDeq)] ++ go 2 14 ++ go 0 9.

Definition scq_demo : config :=
  default (start (SCQ_new 4) 3)
    (scheds entry (body 4 3 100) scq_demo_schedule (start (SCQ_new 4) 3)).

Lemma scq_concurrent_safe_witness :
  completed (hist scq_demo) =
    [(OpEnq 2, [TakeTail 5; PutAt 5 2], RBool true);
     (OpDeq, [TakeHead 4; TakeHead 5; GetAt 5 2], RVal 2);
     (OpEnq 1, [TakeTail 4; TakeTail 6; PutAt 6 1], RBool true)] /\
  Forall (fun '(o, es, r) => tgood (accepted 2 100) 100 (reject 2 100) o es r)
    (completed (hist scq_demo)).
Proof.
  split; [vm_compute; reflexivity|].
  apply (scq_concurrent_safe 2 100 3 scq_demo); [lia|unfold two64; lia|].
  apply (scheds_reach entry (body (size 2) (bot 2) 100) _ (scq_okb 100) (SCQ_new (size 2)) 3
    scq_demo_schedule (start (SCQ_new (size 2)) 3)).
  - intros s h. apply scq_okb_ok.
  - constructor.
  - vm_compute. reflexivity.
  - vm_compute. reflexivity.
Defined.

(** Both values have been consumed or are still to come. *)
Lemma scq_no_loss_witness :
  head_ (shared scq_demo) = 6 /\
  (forall t v, PutAt t v ∈ events (hist scq_demo) -> GetAt t v ∈ events (hist scq_demo) <-> t < 6).
Proof.
  split; [vm_compute; reflexivity|].
  apply (scq_no_loss 2 100 3 scq_demo); [lia|unfold two64; lia| |].
  - apply (scheds_reach entry (body (size 2) (bot 2) 100) _ (scq_okb 100) (SCQ_new (size 2)) 3
      scq_demo_schedule (start (SCQ_new (size 2)) 3)).
    + intros s h. apply scq_okb_ok.
    + constructor.
    + vm_compute. reflexivity.
    + vm_compute. reflexivity.
  - intros i. destruct (decide (i < 3)%nat) as [Hi|Hi]; [destruct i as [|[|[|]]]; [vm_compute; reflexivity..|lia]|].
    apply opview_absent. apply list.Forall_forall. intros x Hx.
    assert (forallb (fun x => (tid_of x <? 3)%nat) (hist scq_demo) = true) as Hf by (vm_compute; reflexivity).
    apply list_elem_of_In, (proj1 (forallb_forall _ _) Hf), Nat.ltb_lt in Hx. lia.
Defined.

(** *** A value behind an unsafe mark

    Thread 0 draws ticket 4 on the empty ring and is delayed; thread 1 stores a
    value with ticket 4 and returns; dequeues by thread 2 draw the tickets 5, 6
    and 7, and the one with ticket 8, one lap later, marks the slot unsafe. *)
Definition scq_unsafe_schedule : list (nat * move (qop Z)) :=
  [(0%nat, Call OpDeq)] ++ go 0 4 ++ [(1%nat, Call (OpEnq 1))] ++ go 1 7 ++
  concat (replicate 4 ((2%nat, Call OpDeq) :: go 2 9)).

Definition scq_unsafe : config :=
  Config
    (mkState [mkEntry (pack_cycle_flags 1 false) 1; mkEntry (pack_cycle_flags 1 true) 3;
              mkEntry (pack_cycle_flags 1 true) 3; mkEntry (pack_cycle_flags 1 true) 3] 9 5 1)
    [HCall 0 OpDeq; HLin 0 (TakeHead 4); HCall 1 (OpEnq 1);
     HLin 1 (TakeTail 4); HLin 1 (PutAt 4 1); HRet 1 (RBool true);
     HCall 2 OpDeq; HLin 2 (TakeHead 5); HRet 2 (RVal 100);
     HCall 2 OpDeq; HLin 2 (TakeHead 6); HRet 2 (RVal 100);
     HCall 2 OpDeq; HLin 2 (TakeHead 7); HRet 2 (RVal 100);
     HCall 2 OpDeq; HLin 2 (TakeHead 8); HRet 2 (RVal 100)]
    [Busy (body 4 3 100 (DeqSlot 4)); Idle; Idle].

Lemma scq_unsafe_loop : scheds entry (body 4 3 100) (go 0 2) scq_unsafe = Some scq_unsafe.
Proof. reflexivity. Qed.

(** C30. [dequeue] waits for the safe flag of its own value and no
    operation ever sets it again: after the schedule above the value was
    accepted and is in the ring, four dequeues of another thread have returned
    [kEmpty], and the dequeuer that holds its ticket repeats its inner loop
    forever, however long it runs. *)
Theorem scq_unsafe_slot_livelock :
  scheds entry (body 4 3 100) scq_unsafe_schedule (start (SCQ_new 4) 3) = Some scq_unsafe /\
  completed (hist scq_unsafe) =
    [(OpEnq 1, [TakeTail 4; PutAt 4 1], RBool true);
     (OpDeq, [TakeHead 5], RVal 100); (OpDeq, [TakeHead 6], RVal 100);
     (OpDeq, [TakeHead 7], RVal 100); (OpDeq, [TakeHead 8], RVal 100)] /\
  entries_ (shared scq_unsafe) !!! slot_of 4 4 = mkEntry (pack_cycle_flags 1 false) 1 /\
  forall m, exists c, scheds entry (body 4 3 100) (go 0 m) scq_unsafe = Some c /\
                      hist c = hist scq_unsafe.
Proof.
  split_and!; [reflexivity|vm_compute; reflexivity|vm_compute; reflexivity|].
  assert (forall m, (exists c, scheds entry (body 4 3 100) (go 0 m) scq_unsafe = Some c /\
                               hist c = hist scq_unsafe) /\
                    (exists c, scheds entry (body 4 3 100) (go 0 (S m)) scq_unsafe = Some c /\
                               hist c = hist scq_unsafe)) as H; [|intros m; apply H].
  induction m as [|m [IH1 IH2]].
  - split; eexists; split; reflexivity.
  - split; [done|]. change (go 0 (S (S m))) with (go (Op:=qop Z) 0 2 ++ go 0 m).
    destruct IH1 as (c & Hc & Hh). exists c. split; [|done].
    by rewrite scheds_app, scq_unsafe_loop.
Qed.
