(* ===== verification/RingSeq.v ===== *)
(** * RingSeq: the ticket ring between operations

    The abstract state of a ticket ring (the cells of [TicketRing]) when no
    operation is in progress, and what one complete operation does to it.  The
    tickets from the head up to the tail hold the elements; the slots of the
    following tickets are free with an older cycle; when failed dequeues have
    moved the head beyond the tail, the tickets in between are unusable.

    [seq_rep] is the functional specification of the two modes of [SCQP]; it has
    no machine words, no thresholds and no retries. *)

From stdpp Require Import base list numbers option.
From Stdlib Require Import ZArith Lia.
From S2P Require Import Prelude Ring TicketRing.

Local Open Scope Z_scope.

Section seq.
Context (n : Z).
Hypothesis (Hn : ring_size n).

Record seq_rep (cells : list cell) (hd tl : Z) (q : list Z) : Prop := {
  sr_len : length cells = Z.to_nat n;
  sr_hd : n <= hd;
  sr_tl : n <= tl;
  sr_count : Z.of_nat (length q) = Z.max 0 (tl - hd);
  sr_room : Z.of_nat (length q) <= n;
  sr_full (i : nat) v : q !! i = Some v ->
    cells !!! slot_of n (hd + Z.of_nat i) = mkCell ((hd + Z.of_nat i) / n) true (Some v);
  sr_free p : Z.max hd tl <= p < hd + n ->
    exists c, 0 <= c < p / n /\ cells !!! slot_of n p = mkCell c true None;
  sr_dead p : tl <= p < hd -> p / n <= cyc (cells !!! slot_of n p)
}.

Lemma n_ge4 : 4 <= n.
Proof. apply Hn. Qed.

Lemma sr_slot_lt cells hd tl q p : seq_rep cells hd tl q -> (slot_of n p < length cells)%nat.
Proof. intros Hr. rewrite (sr_len _ _ _ _ Hr). by apply slot_of_lt. Qed.

(** Every cell of an empty ring is free. *)
Lemma sr_empty_cell cells hd tl p :
  seq_rep cells hd tl [] -> exists c, cells !!! slot_of n p = mkCell c true None.
Proof.
  intros Hr. pose proof n_ge4. pose proof (sr_count _ _ _ _ Hr) as Hc. simpl in Hc.
  pose proof (window_pos_range n hd p ltac:(lia)) as Hw.
  destruct (sr_free _ _ _ _ Hr (window_pos n hd p)) as (c & _ & He); [lia|].
  exists c. rewrite <- He. f_equal. apply slot_of_mod. symmetry. apply window_pos_mod. lia.
Qed.

(** A ticket that lies below the head is unusable. *)
Lemma sr_dead_cell cells hd tl q p :
  seq_rep cells hd tl q -> tl <= p < hd ->
  exists c, p / n <= c <= (hd + n) / n /\ cells !!! slot_of n p = mkCell c true None.
Proof.
  intros Hr Hp. pose proof n_ge4. pose proof (sr_count _ _ _ _ Hr) as Hc.
  pose proof (window_pos_range n hd p ltac:(lia)) as Hw.
  destruct (sr_free _ _ _ _ Hr (window_pos n hd p)) as (c & Hc1 & He); [lia|].
  assert (slot_of n (window_pos n hd p) = slot_of n p) as Hs.
  { apply slot_of_mod. apply window_pos_mod. lia. }
  rewrite Hs in He. pose proof (sr_dead _ _ _ _ Hr p Hp) as Hd. rewrite He in Hd. simpl in Hd.
  exists c. split; [|done]. split; [done|].
  pose proof (Z.div_le_mono (window_pos n hd p) (hd + n) n ltac:(lia) ltac:(lia)). lia.
Qed.

Lemma sr_skip cells hd tl q : seq_rep cells hd tl q -> tl < hd -> seq_rep cells hd (tl + 1) q.
Proof.
  intros [Hl Hh Ht Hc Hm Hfu Hfr Hd] Hlt. split; try done; try lia.
  - intros p Hp. apply Hfr. lia.
  - intros p Hp. apply Hd. lia.
Qed.

(** Distinct tickets of a window of [n] have distinct slots. *)
Lemma slot_ne lo p q : lo <= p < lo + n -> lo <= q < lo + n -> p <> q -> slot_of n p <> slot_of n q.
Proof. intros Hp Hq Hne Heq. apply Hne. by apply (slot_window_unique n lo). Qed.

Lemma sr_store cells hd tl q v :
  seq_rep cells hd tl q -> hd <= tl -> Z.of_nat (length q) < n ->
  seq_rep (<[slot_of n tl := mkCell (tl / n) true (Some v)]> cells) hd (tl + 1) (q ++ [v]).
Proof.
  intros Hr Hle Hroom. pose proof Hr as [Hl Hh Ht Hc Hm Hfu Hfr Hd].
  pose proof (sr_slot_lt _ _ _ _ tl Hr) as Hsl.
  split; rewrite ?length_insert, ?length_app; simpl; try done; try lia.
  - intros i x Hi. apply lookup_app_Some in Hi as [Hi|[Hi Hx]].
    + pose proof (lookup_lt_Some _ _ _ Hi).
      rewrite list_lookup_total_insert_ne by (apply (slot_ne hd); lia). by apply Hfu.
    + apply list_lookup_singleton_Some in Hx as [Hi0 <-].
      replace (hd + Z.of_nat i) with tl by lia. by rewrite list_lookup_total_insert_eq.
  - intros p Hp. rewrite list_lookup_total_insert_ne by (apply (slot_ne hd); lia). apply Hfr. lia.
Qed.

(** What advancing the head does to the free slots: the slot of the old head is
    free for the ticket one lap later. *)
Lemma sr_free_advance cells hd tl q p :
  seq_rep cells hd tl q -> Z.max (hd + 1) tl <= p < hd + 1 + n ->
  exists c, 0 <= c < p / n /\
    <[slot_of n hd := mkCell (hd / n) true None]> cells !!! slot_of n p = mkCell c true None.
Proof.
  intros Hr Hp. pose proof n_ge4. pose proof (sr_hd _ _ _ _ Hr).
  pose proof (sr_slot_lt _ _ _ _ hd Hr) as Hsl.
  destruct (Z.eq_dec p (hd + n)) as [->|Hne].
  - exists (hd / n). rewrite div_add_lap by lia. split; [split; [apply Z.div_pos|]; lia|].
    rewrite <- (slot_of_mod n hd) by (by rewrite mod_add_lap).
    by rewrite list_lookup_total_insert_eq.
  - rewrite list_lookup_total_insert_ne by (apply (slot_ne hd); lia).
    apply (sr_free _ _ _ _ Hr). lia.
Qed.

Lemma sr_consume cells hd tl v q :
  seq_rep cells hd tl (v :: q) ->
  seq_rep (<[slot_of n hd := mkCell (hd / n) true None]> cells) (hd + 1) tl q.
Proof.
  intros Hr. pose proof Hr as [Hl Hh Ht Hc Hm Hfu Hfr Hd]. simpl in Hc, Hm.
  split; rewrite ?length_insert; try done; try lia.
  - intros i x Hi. pose proof (lookup_lt_Some _ _ _ Hi).
    replace (hd + 1 + Z.of_nat i) with (hd + Z.of_nat (S i)) by lia.
    rewrite list_lookup_total_insert_ne by (apply (slot_ne hd); lia). by apply Hfu.
  - intros p Hp. by apply (sr_free_advance _ _ tl (v :: q)).
Qed.

Lemma sr_miss cells hd tl :
  seq_rep cells hd tl [] ->
  seq_rep (<[slot_of n hd := mkCell (hd / n) true None]> cells) (hd + 1) tl [].
Proof.
  intros Hr. pose proof Hr as [Hl Hh Ht Hc Hm Hfu Hfr Hd]. simpl in Hc, Hm.
  pose proof (sr_slot_lt _ _ _ _ hd Hr) as Hsl. pose proof n_ge4.
  split; rewrite ?length_insert; try done; try (simpl; lia).
  - intros p Hp. by apply (sr_free_advance _ _ tl []).
  - intros p Hp. destruct (decide (slot_of n hd = slot_of n p)) as [Heq|Hne].
    + rewrite <- Heq, list_lookup_total_insert_eq by done. simpl. apply Z.div_le_mono; lia.
    + rewrite list_lookup_total_insert_ne by done. apply Hd.
      assert (p <> hd) by (intros ->; done). lia.
Qed.

Lemma sr_fix cells hd tl : seq_rep cells hd tl [] -> tl <= hd -> seq_rep cells hd hd [].
Proof.
  intros [Hl Hh Ht Hc Hm Hfu Hfr Hd] Hle. split; simpl; try done; try lia.
  intros p Hp. apply Hfr. lia.
Qed.

Lemma sr_start : seq_rep (replicate (Z.to_nat n) (mkCell 0 true None)) n n [].
Proof.
  pose proof n_ge4. split; simpl; rewrite ?length_replicate; try done; try lia.
  intros p Hp. exists 0. split; [split; [lia|apply Z.div_str_pos; lia]|].
  by rewrite lookup_total_replicate_2 by by apply slot_of_lt.
Qed.

End seq.
