(* ===== verification/Scqp.v ===== *)
(** * Scqp: the scalable circular queue of pointers

    Models [SCQP<T>] ([include/lscq/scqp.hpp], [src/scqp.cpp]).  Pointers are
    addresses, [nullptr] is [0].  The queue has two modes, fixed by the
    constructor: slots that hold the pointer next to the cycle and are changed
    with [cas2p], and the fallback with slots of indices into [ptr_array_].
    Labels ending in [P] belong to the first mode, labels ending in [I] to the
    second; [FixLoop] is the loop of [fixState], which both share.

    [TakeTail], [TakeHead], [PutAt] and [GetAt] annotate the drawing of tickets,
    the compare-and-swap that publishes a pointer and the exchange that consumes
    it; [HoldPtr], [FreePtr] and [TakePtr] annotate the accesses to [ptr_array_]. *)

From stdpp Require Import base list numbers option.
From Stdlib Require Import ZArith Lia.
From S2P Require Import Prelude Conc Fifo Cas2 Ring TicketRing.

Local Open Scope Z_scope.

(** ** Slots and their compare-and-swap *)

Record EntryP := mkEntryP {
  pcycle_flags : Z;
  ptr : Z
}.

#[global] Instance EntryP_eq_dec : EqDecision EntryP.
Proof. solve_decision. Defined.

#[global] Instance EntryP_inhabited : Inhabited EntryP := populate (mkEntryP 0 0).

Definition entryp_equal (a b : EntryP) : bool :=
  (pcycle_flags a =? pcycle_flags b) && (ptr a =? ptr b).

(** The critical section of the fallback, on the contents [cur] of the slot. *)
Definition cas2p_mutex (cur expected desired : EntryP) : EntryP * EntryP * bool :=
  let current := cur in
  if negb (entryp_equal current expected) then (cur, current, false)
  else (desired, expected, true).

Definition cas2p_native_msvc (pf : platform) (addr : Z) (cur expected desired : EntryP) :
    option (EntryP * EntryP * bool) :=
  if negb (is_aligned_16 addr) then Some (cas2p_mutex cur expected desired)
  else
    let desired_low := pcycle_flags desired in
    let desired_high := ptr desired in
    let expected_high := ptr expected in
    let comparand := (u64_to_ll (pcycle_flags expected), u64_to_ll expected_high) in
    '(mem, comparand', ok) ← execute16 pf addr
      (InterlockedCompareExchange128 (u64_to_ll (pcycle_flags cur)) (u64_to_ll (ptr cur))
        (u64_to_ll desired_high) (u64_to_ll desired_low) comparand);
    let out_high := ll_to_u64 comparand'.2 in
    Some (mkEntryP (ll_to_u64 mem.1) (ll_to_u64 mem.2),
      mkEntryP (ll_to_u64 comparand'.1) out_high, ok).

(** [__atomic_compare_exchange] on the 16 bytes of a slot, strong. *)
Definition atomic_compare_exchange_entryp (cur expected desired : EntryP) : EntryP * EntryP * bool :=
  if decide (cur = expected) then (desired, expected, true) else (cur, cur, false).

Definition cas2p_native_gnu (pf : platform) (addr : Z) (cur expected desired : EntryP) :
    option (EntryP * EntryP * bool) :=
  if negb (is_aligned_16 addr) then Some (cas2p_mutex cur expected desired)
  else
    let expected_local := expected in
    let desired_local := desired in
    '(mem, expected_local', ok) ← execute16 pf addr
      (atomic_compare_exchange_entryp cur expected_local desired_local);
    Some (mem, expected_local', ok).

Definition cas2p_native (pf : platform) (addr : Z) (cur expected desired : EntryP) :
    option (EntryP * EntryP * bool) :=
  match arch pf, compiler pf with
  | X86_64, MSVC =>
      if windows pf then cas2p_native_msvc pf addr cur expected desired
      else Some (cas2p_mutex cur expected desired)
  | X86_64, Gnu =>
      if sync_cas16 pf then cas2p_native_gnu pf addr cur expected desired
      else Some (cas2p_mutex cur expected desired)
  | _, _ => Some (cas2p_mutex cur expected desired)
  end.

(** [None] is a fault of the 16-byte instruction, as in [cas2]. *)
Definition cas2p (pf : platform) (addr : Z) (cur expected desired : EntryP) :
    option (EntryP * EntryP * bool) :=
  if addr =? 0 then Some (cur, expected, false)
  else if enable_cas2 pf then
    if has_cas2_support pf then cas2p_native pf addr cur expected desired
    else Some (cas2p_mutex cur expected desired)
  else Some (cas2p_mutex cur expected desired).

Definition entryp_load (cur : EntryP) : EntryP * EntryP :=
  let expected := mkEntryP 0 0 in
  let '(cur', expected', _) := cas2p_mutex cur expected expected in
  (cur', expected').

Definition queue_is_full (head tail scqsize : Z) : bool :=
  (head <=? tail) && (scqsize <=? sub64 tail head).

(** ** Members and constructor *)

Record state := mkState {
  entries_p_ : list EntryP;
  entries_i_ : list Entry;
  ptr_array_ : list Z;
  head_ : Z;
  tail_ : Z;
  threshold_ : Z;
  deq_success_ : Z;
  enq_success_ : Z
}.

Definition kEmptyIndex : Z := two64 - 1.

(** [4 * QSIZE - 1], computed in 64-bit words. *)
Definition threshold_reset (scqsize : Z) : Z := i64 (sub64 (shl64 scqsize 1) 1).

(** The rounded ring size; [None] when [fuel] iterations of the rounding loop are
    not enough. *)
Definition SCQP_size (fuel : nat) (scqsize : Z) : option Z :=
  let scqsize_ := if scqsize <? 4 then 4 else scqsize in
  match round_up_pow2 fuel scqsize_ with
  | Some scqsize_ =>
      let qsize_ := scqsize_ / 2 in
      Some (if qsize_ =? 0 then 2 else scqsize_)
  | None => None
  end.

Definition SCQP_qsize (scqsize_ : Z) : Z :=
  let qsize_ := scqsize_ / 2 in if qsize_ =? 0 then 1 else qsize_.

Definition SCQP_bottom (scqsize_ : Z) : Z := u64 (scqsize_ - 1).

Definition SCQP_using_fallback (pf : platform) (force_fallback : bool) : bool :=
  force_fallback || negb (has_cas2_support pf).

Definition empty_entry_p : EntryP := mkEntryP (pack_cycle_flags 0 true) 0.

Definition empty_entry_i : Entry := mkEntry (pack_cycle_flags 0 true) kEmptyIndex.

Definition SCQP_new (scqsize_ : Z) (using_fallback_ : bool) : state :=
  mkState
    (if using_fallback_ then [] else replicate (Z.to_nat scqsize_) empty_entry_p)
    (if using_fallback_ then replicate (Z.to_nat scqsize_) empty_entry_i else [])
    (if using_fallback_ then replicate (Z.to_nat scqsize_) 0 else [])
    (u64 scqsize_) (u64 scqsize_) (threshold_reset (u64 scqsize_)) 0 0.

(** ** Operations *)

Section ops.
Context (scqsize_ : Z) (bottom_ : Z) (using_fallback_ : bool).

Definition cache_remap (idx : Z) : Z :=
  let line := Z.shiftr idx 2 in
  let offset := Z.land idx 3 in
  let num_lines := Z.shiftr scqsize_ 2 in
  offset * num_lines + line.

(** Atomic accesses. *)
Definition load_head (s : state) : state * Z := (s, head_ s).

Definition load_tail (s : state) : state * Z := (s, tail_ s).

Definition load_threshold (s : state) : state * Z := (s, threshold_ s).

Definition load_deq_success (s : state) : state * Z := (s, deq_success_ s).

Definition load_enq_success (s : state) : state * Z := (s, enq_success_ s).

Definition set_counters (hd tl th : Z) (s : state) : state :=
  mkState (entries_p_ s) (entries_i_ s) (ptr_array_ s) hd tl th (deq_success_ s) (enq_success_ s).

Definition store_threshold (v : Z) (s : state) : state * unit :=
  (set_counters (head_ s) (tail_ s) v s, tt).

Definition fetch_add_tail (s : state) : state * Z :=
  (set_counters (head_ s) (add64 (tail_ s) 1) (threshold_ s) s, tail_ s).

Definition fetch_add_head (s : state) : state * Z :=
  (set_counters (add64 (head_ s) 1) (tail_ s) (threshold_ s) s, head_ s).

Definition fetch_sub_threshold (s : state) : state * Z :=
  (set_counters (head_ s) (tail_ s) (i64 (threshold_ s - 1)) s, threshold_ s).

Definition cas_tail_weak (spurious : bool) (expected desired : Z) (s : state) : state * bool :=
  let '(m, r) := cas_word_weak spurious expected desired (tail_ s) in
  (set_counters (head_ s) m (threshold_ s) s, r.2).

Definition fetch_add_deq_success (s : state) : state * unit :=
  (mkState (entries_p_ s) (entries_i_ s) (ptr_array_ s) (head_ s) (tail_ s) (threshold_ s)
     (add64 (deq_success_ s) 1) (enq_success_ s), tt).

Definition fetch_add_enq_success (s : state) : state * unit :=
  (mkState (entries_p_ s) (entries_i_ s) (ptr_array_ s) (head_ s) (tail_ s) (threshold_ s)
     (deq_success_ s) (add64 (enq_success_ s) 1), tt).

Definition set_slots (ep : list EntryP) (ei : list Entry) (pa : list Z) (s : state) : state :=
  mkState ep ei pa (head_ s) (tail_ s) (threshold_ s) (deq_success_ s) (enq_success_ s).

Definition set_entry_p (j : Z) (e : EntryP) (s : state) : state :=
  set_slots (<[Z.to_nat j := e]> (entries_p_ s)) (entries_i_ s) (ptr_array_ s) s.

Definition set_entry_i (j : Z) (e : Entry) (s : state) : state :=
  set_slots (entries_p_ s) (<[Z.to_nat j := e]> (entries_i_ s)) (ptr_array_ s) s.

Definition set_ptr (j : Z) (p : Z) (s : state) : state :=
  set_slots (entries_p_ s) (entries_i_ s) (<[Z.to_nat j := p]> (ptr_array_ s)) s.

Definition load_entry_p (j : Z) (s : state) : state * EntryP :=
  let '(cur, e) := entryp_load (entries_p_ s !!! Z.to_nat j) in (set_entry_p j cur s, e).

Definition cas2_entry_p (j : Z) (expected desired : EntryP) (s : state) : state * bool :=
  let '(cur, _, ok) := cas2p_mutex (entries_p_ s !!! Z.to_nat j) expected desired in
  (set_entry_p j cur s, ok).

(** [atomic_exchange_ptr(&entries_p_[j].ptr, p)]. *)
Definition exchange_entry_ptr (j p : Z) (s : state) : state * Z :=
  let e := entries_p_ s !!! Z.to_nat j in
  let '(mem, old) := atomic_exchange_ptr (ptr e) p in
  (set_entry_p j (mkEntryP (pcycle_flags e) mem) s, old).

Definition load_entry_i (j : Z) (s : state) : state * Entry :=
  let '(cur, e) := entry_load (entries_i_ s !!! Z.to_nat j) in (set_entry_i j cur s, e).

Definition cas2_entry_i (j : Z) (expected desired : Entry) (s : state) : state * bool :=
  let '(cur, _, ok) := cas2_mutex (entries_i_ s !!! Z.to_nat j) expected desired in
  (set_entry_i j cur s, ok).

(** [atomic_exchange_u64(&entries_i_[j].index_or_ptr, v)]. *)
Definition exchange_entry_index (j v : Z) (s : state) : state * Z :=
  let e := entries_i_ s !!! Z.to_nat j in
  let '(mem, old) := atomic_exchange_u64 (index_or_ptr e) v in
  (set_entry_i j (mkEntry (cycle_flags e) mem) s, old).

(** [atomic_compare_exchange_ptr] and [atomic_exchange_ptr] on [ptr_array_[j]]. *)
Definition cas_ptr_array (j expected desired : Z) (s : state) : state * bool :=
  let '(mem, _, ok) := atomic_compare_exchange_ptr (ptr_array_ s !!! Z.to_nat j) expected desired in
  (set_ptr j mem s, ok).

Definition exchange_ptr_array (j p : Z) (s : state) : state * Z :=
  let '(mem, old) := atomic_exchange_ptr (ptr_array_ s !!! Z.to_nat j) p in
  (set_ptr j mem s, old).

Inductive label : Set :=
| EnqEntry (p : Z)
| EnqTicketP (p : Z)
| EnqSlotP (p t : Z)
| EnqTicketI (p : Z)
| EnqSlotI (p t : Z)
| DeqEntry
| DeqTicketP
| DeqSlotP (h : Z) (inner_retries : nat)
| DeqTicketI
| DeqSlotI (h : Z) (inner_retries : nat)
| FixLoop.

Definition prog_t := prog state tev (label + qres Z).

Definition MAX_INNER_RETRIES : nat := 1024.

Definition slot_index (t : Z) : Z := cache_remap (Z.land t bottom_).

(** [enqueue]: the null test and the choice of the mode. *)
Definition enqueue_entry (p : Z) : prog_t :=
  if p =? 0 then Ret (inr (RBool false))
  else Ret (inl (if using_fallback_ then EnqTicketI p else EnqTicketP p)).

(** The head of the outer loop of [enqueue_ptr] and [enqueue_index]: the test of
    fullness on the success counters, then a ticket. *)
Definition enqueue_ticket (next : Z -> label) : prog_t :=
  (let! head := atomic load_deq_success in
   let! tail := atomic load_enq_success in
   if queue_is_full head tail scqsize_ then Ret (inr (RBool false))
   else
     let! t := atomic_lin fetch_add_tail (fun t => [TakeTail t]) in
     Ret (inl (next t)))%prog.

(** The end of a successful enqueue. *)
Definition enqueue_finish : prog_t :=
  (let! th := atomic load_threshold in
   do! (if negb (th =? threshold_reset scqsize_)
        then atomic (store_threshold (threshold_reset scqsize_)) else Ret tt);
   do! atomic fetch_add_enq_success;
   Ret (inr (RBool true)))%prog.

Definition enqueue_ptr_slot (p t : Z) : prog_t :=
  (let cycle_t := t / scqsize_ in
   let j := slot_index t in
   let! ent := atomic (load_entry_p j) in
   let cycle_e := unpack_cycle (pcycle_flags ent) in
   if cycle_less cycle_e cycle_t && (ptr ent =? 0) then
     let is_safe := unpack_is_safe (pcycle_flags ent) in
     let! go_on := (if is_safe then Ret true
                    else let! hd := atomic load_head in Ret (hd <=? t)) in
     if (go_on : bool) then
       let expected := ent in
       let desired := mkEntryP (pack_cycle_flags cycle_t true) p in
       let! ok := atomic_lin (cas2_entry_p j expected desired)
                    (fun ok : bool => if ok then [PutAt t p] else []) in
       if (ok : bool) then enqueue_finish else Ret (inl (EnqSlotP p t))
     else Ret (inl (EnqTicketP p))
   else Ret (inl (EnqTicketP p)))%prog.

Definition enqueue_index_slot (p t : Z) : prog_t :=
  (let cycle_t := t / scqsize_ in
   let j := slot_index t in
   let! ent := atomic (load_entry_i j) in
   let cycle_e := unpack_cycle (cycle_flags ent) in
   if cycle_less cycle_e cycle_t && (index_or_ptr ent =? kEmptyIndex) then
     let is_safe := unpack_is_safe (cycle_flags ent) in
     let! go_on := (if is_safe then Ret true
                    else let! hd := atomic load_head in Ret (hd <=? t)) in
     if (go_on : bool) then
       let! set := atomic_lin (cas_ptr_array j 0 p)
                     (fun set : bool => if set then [HoldPtr t p] else []) in
       if negb set then Ret (inl (EnqTicketI p))
       else
         let expected := ent in
         let desired := mkEntry (pack_cycle_flags cycle_t true) (u64 j) in
         let! ok := atomic_lin (cas2_entry_i j expected desired)
                      (fun ok : bool => if ok then [PutAt t p] else []) in
         if (ok : bool) then enqueue_finish
         else
           do! atomic_lin (cas_ptr_array j p 0) (fun _ => [FreePtr t]);
           Ret (inl (EnqSlotI p t))
     else Ret (inl (EnqTicketI p))
   else Ret (inl (EnqTicketI p)))%prog.

(** [dequeue_ptr] and [dequeue_index]: the test of the threshold. *)
Definition dequeue_entry : prog_t :=
  (let ticket := if using_fallback_ then DeqTicketI else DeqTicketP in
   let! th := atomic load_threshold in
   if th <? 0 then
     let! head_now := atomic load_head in
     let! tail_now := atomic load_tail in
     if head_now <? tail_now then
       do! atomic (store_threshold (threshold_reset scqsize_));
       Ret (inl ticket)
     else Ret (inr (RVal 0))
   else Ret (inl ticket))%prog.

Definition dequeue_ticket (next : Z -> label) : prog_t :=
  (let! h := atomic_lin fetch_add_head (fun h => [TakeHead h]) in
   Ret (inl (next h)))%prog.

(** What follows the inner loop; [again] is the outer loop of the mode. *)
Definition dequeue_after (again : label) (h : Z) : prog_t :=
  (let! t := atomic load_tail in
   if t <=? add64 h 1 then
     let! prev := atomic fetch_sub_threshold in
     let next := i64 (prev - 1) in
     if next <=? 0 then
       let! head_now := atomic load_head in
       let! tail_now := atomic load_tail in
       if (tail_now <? head_now) && (scqsize_ <? sub64 head_now tail_now)
       then Ret (inl FixLoop) else Ret (inr (RVal 0))
     else Ret (inr (RVal 0))
   else
     let! prev := atomic fetch_sub_threshold in
     let next := i64 (prev - 1) in
     if next <=? 0 then
       let! head_now := atomic load_head in
       let! tail_now := atomic load_tail in
       if head_now <? tail_now then
         do! atomic (store_threshold (threshold_reset scqsize_));
         Ret (inl again)
       else if (tail_now <? head_now) && (scqsize_ <? sub64 head_now tail_now)
       then Ret (inl FixLoop) else Ret (inr (RVal 0))
     else Ret (inl again))%prog.

Definition dequeue_ptr_slot (h : Z) (inner_retries : nat) : prog_t :=
  (let cycle_h := h / scqsize_ in
   let j := slot_index h in
   let! ent := atomic (load_entry_p j) in
   let cycle_e := unpack_cycle (pcycle_flags ent) in
   if cycle_e =? cycle_h then
     let value := ptr ent in
     if value =? 0 then dequeue_after DeqTicketP h
     else if negb (unpack_is_safe (pcycle_flags ent)) then
       let inner_retries := S inner_retries in
       if (MAX_INNER_RETRIES <? inner_retries)%nat then dequeue_after DeqTicketP h
       else Ret (inl (DeqSlotP h inner_retries))
     else
       do! atomic_lin (exchange_entry_ptr j 0) (fun _ => [GetAt h value]);
       do! atomic fetch_add_deq_success;
       Ret (inr (RVal value))
   else
     let desired :=
       if ptr ent =? 0
       then mkEntryP (pack_cycle_flags cycle_h (unpack_is_safe (pcycle_flags ent))) 0
       else mkEntryP (pack_cycle_flags cycle_e false) (ptr ent) in
     if cycle_less cycle_e cycle_h then
       let expected := ent in
       let! ok := atomic (cas2_entry_p j expected desired) in
       if negb ok then Ret (inl (DeqSlotP h inner_retries)) else dequeue_after DeqTicketP h
     else dequeue_after DeqTicketP h)%prog.

Definition dequeue_index_slot (h : Z) (inner_retries : nat) : prog_t :=
  (let cycle_h := h / scqsize_ in
   let j := slot_index h in
   let! ent := atomic (load_entry_i j) in
   let cycle_e := unpack_cycle (cycle_flags ent) in
   if cycle_e =? cycle_h then
     let idx := index_or_ptr ent in
     if idx =? kEmptyIndex then dequeue_after DeqTicketI h
     else if negb (unpack_is_safe (cycle_flags ent)) then
       let inner_retries := S inner_retries in
       if (MAX_INNER_RETRIES <? inner_retries)%nat then dequeue_after DeqTicketI h
       else Ret (inl (DeqSlotI h inner_retries))
     else
       let! value := atomic_lin (exchange_ptr_array idx 0) (fun value => [TakePtr h value]) in
       do! atomic_lin (exchange_entry_index j kEmptyIndex) (fun _ => [GetAt h value]);
       do! atomic fetch_add_deq_success;
       Ret (inr (RVal value))
   else
     let desired :=
       if index_or_ptr ent =? kEmptyIndex
       then mkEntry (pack_cycle_flags cycle_h (unpack_is_safe (cycle_flags ent))) kEmptyIndex
       else mkEntry (pack_cycle_flags cycle_e false) (index_or_ptr ent) in
     if cycle_less cycle_e cycle_h then
       let expected := ent in
       let! ok := atomic (cas2_entry_i j expected desired) in
       if negb ok then Ret (inl (DeqSlotI h inner_retries)) else dequeue_after DeqTicketI h
     else dequeue_after DeqTicketI h)%prog.

(** [fixState], followed by what its callers do next. *)
Definition fixState_loop : prog_t :=
  (let fixed :=
     (do! atomic (store_threshold (threshold_reset scqsize_));
      Ret (inr (RVal 0))) in
   let! h := atomic load_head in
   let! t := atomic load_tail in
   if (h <=? t) || (sub64 h t <=? scqsize_) then fixed
   else
     let! spurious := choose in
     let! ok := atomic (cas_tail_weak spurious t h) in
     if (ok : bool) then fixed else Ret (inl FixLoop))%prog.

Definition body (l : label) : prog_t :=
  match l with
  | EnqEntry p => enqueue_entry p
  | EnqTicketP p => enqueue_ticket (EnqSlotP p)
  | EnqSlotP p t => enqueue_ptr_slot p t
  | EnqTicketI p => enqueue_ticket (EnqSlotI p)
  | EnqSlotI p t => enqueue_index_slot p t
  | DeqEntry => dequeue_entry
  | DeqTicketP => dequeue_ticket (fun h => DeqSlotP h 0)
  | DeqSlotP h r => dequeue_ptr_slot h r
  | DeqTicketI => dequeue_ticket (fun h => DeqSlotI h 0)
  | DeqSlotI h r => dequeue_index_slot h r
  | FixLoop => fixState_loop
  end.

Definition entry (o : qop Z) : label :=
  match o with OpEnq p => EnqEntry p | OpDeq => DeqEntry end.

Definition enqueue (fuel : nat) (p : Z) := exec body fuel (EnqEntry p).

Definition dequeue (fuel : nat) := exec body fuel DeqEntry.

Definition is_empty (s : state) : bool := enq_success_ s <=? deq_success_ s.

(** [reset_for_reuse], under the exclusive access its contract demands: the two
    tests, then every slot and counter as the constructor leaves them.  With
    assertions compiled in, a failed test stops the program instead. *)
Definition slots_empty (s : state) : bool :=
  if using_fallback_ then
    forallb (fun i => (index_or_ptr (entries_i_ s !!! i) =? kEmptyIndex) && (ptr_array_ s !!! i =? 0))
      (seq 0 (Z.to_nat scqsize_))
  else forallb (fun i => ptr (entries_p_ s !!! i) =? 0) (seq 0 (Z.to_nat scqsize_)).

Definition fill {A} (x : A) (l : list A) : list A :=
  foldl (fun l i => <[i := x]> l) l (seq 0 (Z.to_nat scqsize_)).

Definition reset_for_reuse (s : state) : state * bool :=
  if negb (is_empty s) then (s, false)
  else if negb (slots_empty s) then (s, false)
  else
    (mkState
       (if using_fallback_ then entries_p_ s else fill empty_entry_p (entries_p_ s))
       (if using_fallback_ then fill empty_entry_i (entries_i_ s) else entries_i_ s)
       (if using_fallback_ then fill 0 (ptr_array_ s) else ptr_array_ s)
       (u64 scqsize_) (u64 scqsize_) (threshold_reset (u64 scqsize_)) 0 0, true).

(** The same two members access by access, for the callers that do not have
    exclusive access. *)
Definition is_empty_prog : prog state tev bool :=
  (let! head := atomic load_deq_success in
   let! tail := atomic load_enq_success in
   Ret (tail <=? head))%prog.

(** The tests on the slots [idxs]. *)
Fixpoint check_slots (idxs : list nat) : prog state tev bool :=
  match idxs with
  | [] => Ret true
  | i :: idxs =>
      if using_fallback_ then
        (let! idx := atomic (fun s => (s, index_or_ptr (entries_i_ s !!! i))) in
         if negb (idx =? kEmptyIndex) then Ret false
         else
           let! p := atomic (fun s => (s, ptr_array_ s !!! i)) in
           if negb (p =? 0) then Ret false else check_slots idxs)%prog
      else
        (let! p := atomic (fun s => (s, ptr (entries_p_ s !!! i))) in
         if negb (p =? 0) then Ret false else check_slots idxs)%prog
  end.

Fixpoint clear_slots (idxs : list nat) : prog state tev unit :=
  match idxs with
  | [] => Ret tt
  | i :: idxs =>
      if using_fallback_ then
        (do! atomic (fun s => (set_entry_i (Z.of_nat i) empty_entry_i s, tt));
         do! atomic (fun s => (set_ptr (Z.of_nat i) 0 s, tt));
         clear_slots idxs)%prog
      else
        (do! atomic (fun s => (set_entry_p (Z.of_nat i) empty_entry_p s, tt));
         clear_slots idxs)%prog
  end.

Definition reset_for_reuse_prog : prog state tev bool :=
  (let slots := seq 0 (Z.to_nat scqsize_) in
   let! empty := is_empty_prog in
   if negb empty then Ret false
   else
     let! slots_empty := check_slots slots in
     if negb slots_empty then Ret false
     else
       do! clear_slots slots;
       do! atomic (fun s => (set_counters (u64 scqsize_) (tail_ s) (threshold_ s) s, tt));
       do! atomic (fun s => (set_counters (head_ s) (u64 scqsize_) (threshold_ s) s, tt));
       do! atomic (store_threshold (threshold_reset (u64 scqsize_)));
       do! atomic (fun s => (mkState (entries_p_ s) (entries_i_ s) (ptr_array_ s) (head_ s) (tail_ s)
                               (threshold_ s) 0 (enq_success_ s), tt));
       do! atomic (fun s => (mkState (entries_p_ s) (entries_i_ s) (ptr_array_ s) (head_ s) (tail_ s)
                               (threshold_ s) (deq_success_ s) 0, tt));
       Ret true)%prog.

End ops.
