(* ===== verification/ScqpSeq.v ===== *)
(** * ScqpSeq: the pointer queue, one operation at a time

    Both modes of [SCQP] refine the abstract ring of [RingSeq]: [repr] relates
    the slots of a mode to the cells, [rep] adds the counters.  The theorems give
    the result and the new contents for every operation: enqueue (accepted, full,
    null), dequeue (value, empty), [is_empty] and [reset_for_reuse]. *)

From stdpp Require Import base list numbers option.
From Stdlib Require Import ZArith Lia.
From S2P Require Import Prelude Conc Fifo Cas2 Ring TicketRing RingSeq ScqSeq Scqp.

Local Open Scope Z_scope.

(** ** Slots as lists of encoded cells *)

Definition enc_list {A} `{Inhabited A} (f : nat -> cell -> A) (l : list A) (cells : list cell) : Prop :=
  length l = length cells /\ forall i, (i < length cells)%nat -> l !!! i = f i (cells !!! i).

Lemma enc_list_insert {A} `{Inhabited A} (f : nat -> cell -> A) l cells j d x :
  enc_list f l cells -> x = f j d -> enc_list f (<[j := x]> l) (<[j := d]> cells).
Proof.
  intros [Hl He] ->. split; [by rewrite !length_insert|]. rewrite length_insert.
  intros i Hi. destruct (decide (i = j)) as [->|Hne].
  - rewrite !list_lookup_total_insert_eq by lia. done.
  - rewrite !list_lookup_total_insert_ne by done. by apply He.
Qed.

(** Writing back what is there. *)
Lemma enc_list_id {A} `{Inhabited A} (f : nat -> cell -> A) l cells j d x :
  enc_list f l cells -> x = f j d -> (j < length cells)%nat -> f j d = f j (cells !!! j) ->
  enc_list f l (<[j := d]> cells).
Proof.
  intros [Hl He] -> Hj Hd. split; [by rewrite length_insert|]. rewrite length_insert.
  intros i Hi. destruct (decide (i = j)) as [->|Hne].
  - rewrite list_lookup_total_insert_eq by lia. by rewrite Hd, He.
  - rewrite list_lookup_total_insert_ne by done. by apply He.
Qed.

Lemma enc_list_replicate {A} `{Inhabited A} (f : nat -> cell -> A) m x c :
  (forall i, x = f i c) -> enc_list f (replicate m x) (replicate m c).
Proof.
  intros Hx. split; [by rewrite !length_replicate|]. rewrite length_replicate.
  intros i Hi. by rewrite !lookup_total_replicate_2 by done.
Qed.

Section scqp.
Context (k : Z).
Hypothesis (Hk : 2 <= k <= 60).

Abbreviation n := (size k).
Abbreviation bt := (bot k).
Abbreviation slot := (slot_of (size k)).
Abbreviation bodyk := (body (size k) (bot k)).

Definition encp (i : nat) (c : cell) : EntryP :=
  mkEntryP (pack_cycle_flags (cyc c) (safe c)) (default 0 (val c)).

Definition enci (i : nat) (c : cell) : Entry :=
  mkEntry (pack_cycle_flags (cyc c) (safe c))
    (match val c with Some _ => Z.of_nat i | None => kEmptyIndex end).

Definition encv (i : nat) (c : cell) : Z := default 0 (val c).

Definition repr (fb : bool) (s : state) (cells : list cell) : Prop :=
  if fb then enc_list enci (entries_i_ s) cells /\ enc_list encv (ptr_array_ s) cells
  else enc_list encp (entries_p_ s) cells.

Definition counters (s : state) : Z * Z * Z * Z * Z :=
  (head_ s, tail_ s, threshold_ s, deq_success_ s, enq_success_ s).

(** Accesses that touch the counters only. *)
Definition same_slots (s s' : state) : Prop :=
  entries_p_ s' = entries_p_ s /\ entries_i_ s' = entries_i_ s /\ ptr_array_ s' = ptr_array_ s.

Lemma repr_same fb s s' cells : same_slots s s' -> repr fb s cells -> repr fb s' cells.
Proof. intros (H1 & H2 & H3). unfold repr. by rewrite H1, H2, H3. Qed.

Lemma scqp_slot_index_eq t : Z.to_nat (slot_index n bt t) = slot t.
Proof. unfold slot_index, bot. by rewrite land_pow2_mask by lia. Qed.

Lemma slot_index_u64 t : u64 (slot_index n bt t) = Z.of_nat (slot t).
Proof.
  pose proof (size_lit k Hk). pose proof (size_ring k Hk) as Hr.
  assert (slot_index n bt t = remap n (t mod n)) as ->.
  { unfold slot_index, bot. by rewrite land_pow2_mask by lia. }
  pose proof (remap_range n (t mod n) (proj2 Hr) (Z.mod_pos_bound t n ltac:(lia))) as Hb.
  rewrite u64_small by (unfold is_u64, two64; lia). unfold slot_of. lia.
Qed.

Lemma scqp_threshold_eq : threshold_reset n = 2 * n - 1.
Proof.
  pose proof (size_lit k Hk). unfold threshold_reset, shl64. rewrite Z.shiftl_mul_pow2 by lia.
  change (2 ^ 1) with 2. rewrite u64_small by (unfold is_u64, two64; lia).
  rewrite sub64_small by (unfold is_u64, two64; lia). rewrite i64_small by (unfold two63; lia). lia.
Qed.

Lemma entryp_load_spec cur : entryp_load cur = (cur, cur).
Proof.
  unfold entryp_load, cas2p_mutex, entryp_equal. destruct cur as [a b]. simpl.
  destruct (Z.eqb_spec a 0), (Z.eqb_spec b 0); simpl; by subst.
Qed.

Lemma cas2p_mutex_spec cur expected desired :
  cas2p_mutex cur expected desired =
  if decide (cur = expected) then (desired, expected, true) else (cur, cur, false).
Proof.
  unfold cas2p_mutex, entryp_equal. destruct cur as [a b], expected as [c d]. simpl.
  destruct (Z.eqb_spec a c), (Z.eqb_spec b d); case_decide; simplify_eq/=; try done; congruence.
Qed.

(** ** Accesses on encoded slots *)

Lemma set_slots_id s : set_slots (entries_p_ s) (entries_i_ s) (ptr_array_ s) s = s.
Proof. by destruct s. Qed.

Lemma load_entry_p_eq t s : load_entry_p (slot_index n bt t) s = (s, entries_p_ s !!! slot t).
Proof.
  unfold load_entry_p, set_entry_p. rewrite entryp_load_spec, scqp_slot_index_eq.
  by rewrite list_insert_total_id, set_slots_id.
Qed.

Lemma load_entry_i_eq t s : load_entry_i (slot_index n bt t) s = (s, entries_i_ s !!! slot t).
Proof.
  unfold load_entry_i, set_entry_i. rewrite entry_load_spec, scqp_slot_index_eq.
  by rewrite list_insert_total_id, set_slots_id.
Qed.

Lemma cas2_entry_p_eq t e d s :
  cas2_entry_p (slot_index n bt t) e d s =
  if decide (entries_p_ s !!! slot t = e)
  then (set_entry_p (slot_index n bt t) d s, true) else (s, false).
Proof.
  unfold cas2_entry_p. rewrite cas2p_mutex_spec, scqp_slot_index_eq.
  case_decide; [done|]. unfold set_entry_p. rewrite scqp_slot_index_eq.
  by rewrite list_insert_total_id, set_slots_id.
Qed.

Lemma cas2_entry_i_eq t e d s :
  cas2_entry_i (slot_index n bt t) e d s =
  if decide (entries_i_ s !!! slot t = e)
  then (set_entry_i (slot_index n bt t) d s, true) else (s, false).
Proof.
  unfold cas2_entry_i. rewrite cas2_mutex_spec, scqp_slot_index_eq.
  case_decide; [done|]. unfold set_entry_i. rewrite scqp_slot_index_eq.
  by rewrite list_insert_total_id, set_slots_id.
Qed.

Lemma scqp_cas_tail_eq b t t' s :
  cas_tail_weak b t t' s =
  if decide (b = false /\ tail_ s = t)
  then (set_counters (head_ s) t' (threshold_ s) s, true) else (s, false).
Proof.
  unfold cas_tail_weak, cas_word_weak. destruct s as [ep ei pa hd tl th ds es]; simpl.
  case_decide as Hc.
  - destruct Hc as [-> ->]. by rewrite Z.eqb_refl.
  - destruct b; [done|]. simpl. destruct (Z.eqb_spec tl t); [|done]. by destruct Hc.
Qed.

(** ** The blocks of the operations *)

Definition EnqTicket (fb : bool) (p : Z) : label := if fb then EnqTicketI p else EnqTicketP p.

Definition EnqSlot (fb : bool) (p t : Z) : label := if fb then EnqSlotI p t else EnqSlotP p t.

Definition DeqTicket (fb : bool) : label := if fb then DeqTicketI else DeqTicketP.

Definition DeqSlot (fb : bool) (t : Z) : label := if fb then DeqSlotI t 0 else DeqSlotP t 0.

Lemma size_ring_k : ring_size n.
Proof. by apply size_ring. Qed.

Lemma cycle63 t : 0 <= t < two64 -> 0 <= t / n < two63.
Proof. intros Ht. by apply two63_half, ticket_cycle. Qed.

(** The end of a successful enqueue restores the threshold and counts. *)
Lemma run_finish fb w s cells :
  repr fb s cells ->
  exists s', run (enqueue_finish n) w s = (s', w, inr (RBool true)) /\ repr fb s' cells /\
    counters s' = (head_ s, tail_ s, threshold_reset n, deq_success_ s, add64 (enq_success_ s) 1).
Proof.
  intros Hr. unfold enqueue_finish. simpl.
  destruct (Z.eqb_spec (threshold_ s) (threshold_reset n)) as [Hth|Hth]; simpl;
    (eexists; split_and!; [done|by apply (repr_same fb s)|]); unfold counters; simpl; by rewrite ?Hth.
Qed.

(** A free, older cell takes the pointer. *)
Lemma run_put fb w s cells t p c :
  repr fb s cells -> length cells = Z.to_nat n -> cells !!! slot t = mkCell c true None ->
  0 <= c < t / n -> 0 <= t < two64 ->
  exists s', run (bodyk fb (EnqSlot fb p t)) w s = (s', w, inr (RBool true)) /\
    repr fb s' (<[slot t := mkCell (t / n) true (Some p)]> cells) /\
    counters s' = (head_ s, tail_ s, threshold_reset n, deq_success_ s, add64 (enq_success_ s) 1).
Proof.
  intros Hr Hl Hc Hlt Ht. pose proof (cycle63 t Ht) as Hct.
  pose proof (slot_of_lt n t size_ring_k) as Hsl. rewrite <- Hl in Hsl.
  assert (0 <= c < two63) as Hc63 by lia.
  unfold EnqSlot, repr in *. destruct fb; simpl.
  - destruct Hr as [Hei Hpa]. unfold enqueue_index_slot. simpl. rewrite load_entry_i_eq. simpl.
    rewrite (proj2 Hei _ Hsl), Hc. simpl.
    rewrite unpack_cycle_pack, unpack_is_safe_pack, cycle_less_spec by done.
    destruct (Z.ltb_spec c (t / n)); [|lia]. simpl.
    unfold cas_ptr_array at 1. rewrite scqp_slot_index_eq.
    rewrite (proj2 Hpa _ Hsl), Hc. unfold encv, atomic_compare_exchange_ptr. simpl.
    rewrite cas2_entry_i_eq. simpl. rewrite (proj2 Hei _ Hsl), Hc, decide_True by done.
    rewrite slot_index_u64. set (s1 := set_entry_i _ _ _).
    destruct (run_finish true w s1 (<[slot t := mkCell (t / n) true (Some p)]> cells))
      as (s' & Hrun & Hr' & Hcs).
    + unfold repr. split.
      * unfold s1, set_entry_i, set_ptr. simpl. rewrite scqp_slot_index_eq.
        by apply enc_list_insert.
      * unfold s1, set_entry_i, set_ptr. simpl. rewrite scqp_slot_index_eq.
        by apply enc_list_insert.
    + exists s'. split; [exact Hrun|split; [exact Hr'|exact Hcs]].
  - unfold enqueue_ptr_slot. simpl. rewrite load_entry_p_eq. simpl.
    rewrite (proj2 Hr _ Hsl), Hc. simpl.
    rewrite unpack_cycle_pack, unpack_is_safe_pack, cycle_less_spec by done.
    destruct (Z.ltb_spec c (t / n)); [|lia]. simpl.
    rewrite cas2_entry_p_eq. simpl. rewrite (proj2 Hr _ Hsl), Hc, decide_True by done.
    set (s1 := set_entry_p _ _ _).
    destruct (run_finish false w s1 (<[slot t := mkCell (t / n) true (Some p)]> cells))
      as (s' & Hrun & Hr' & Hcs).
    + unfold repr, s1, set_entry_p. simpl. rewrite scqp_slot_index_eq. by apply enc_list_insert.
    + exists s'. split; [exact Hrun|split; [exact Hr'|exact Hcs]].
Qed.

(** A cell that is not older makes the enqueuer draw another ticket. *)
Lemma run_skip fb w s cells t p c :
  repr fb s cells -> length cells = Z.to_nat n -> cells !!! slot t = mkCell c true None ->
  t / n <= c < two63 -> 0 <= t < two64 ->
  run (bodyk fb (EnqSlot fb p t)) w s = (s, w, inl (EnqTicket fb p)).
Proof.
  intros Hr Hl Hc Hle Ht. pose proof (cycle63 t Ht) as Hct.
  pose proof (slot_of_lt n t size_ring_k) as Hsl. rewrite <- Hl in Hsl.
  assert (0 <= c < two63) as Hc63 by lia.
  unfold EnqSlot, EnqTicket, repr in *. destruct fb; simpl.
  - unfold enqueue_index_slot. simpl. rewrite load_entry_i_eq. simpl.
    rewrite (proj2 (proj1 Hr) _ Hsl), Hc. simpl. rewrite unpack_cycle_pack, cycle_less_spec by done.
    destruct (Z.ltb_spec c (t / n)); [lia|done].
  - unfold enqueue_ptr_slot. simpl. rewrite load_entry_p_eq. simpl.
    rewrite (proj2 Hr _ Hsl), Hc. simpl. rewrite unpack_cycle_pack, cycle_less_spec by done.
    destruct (Z.ltb_spec c (t / n)); [lia|done].
Qed.

(** The ticket's own value is consumed. *)
Lemma run_get fb w s cells t p :
  repr fb s cells -> length cells = Z.to_nat n -> cells !!! slot t = mkCell (t / n) true (Some p) ->
  0 <= t < two64 -> 0 < p ->
  exists s', run (bodyk fb (DeqSlot fb t)) w s = (s', w, inr (RVal p)) /\
    repr fb s' (<[slot t := mkCell (t / n) true None]> cells) /\
    counters s' = (head_ s, tail_ s, threshold_ s, add64 (deq_success_ s) 1, enq_success_ s).
Proof.
  intros Hr Hl Hc Ht Hp. pose proof (cycle63 t Ht) as Hct.
  pose proof (slot_of_lt n t size_ring_k) as Hsl. pose proof (size_lit k Hk) as Hs.
  assert (slot t < length cells)%nat as Hsl' by lia.
  unfold DeqSlot, repr in *. destruct fb; simpl.
  - destruct Hr as [Hei Hpa]. unfold dequeue_index_slot. simpl. rewrite load_entry_i_eq. simpl.
    rewrite (proj2 Hei _ Hsl'), Hc. simpl.
    rewrite unpack_cycle_pack, unpack_is_safe_pack, Z.eqb_refl by done. simpl.
    unfold kEmptyIndex. destruct (Z.eqb_spec (Z.of_nat (slot t)) (two64 - 1)); [unfold two64 in *; lia|].
    unfold exchange_ptr_array, atomic_exchange_ptr. simpl. rewrite Nat2Z.id.
    rewrite (proj2 Hpa _ Hsl'), Hc. unfold encv. simpl.
    eexists. split; [done|split; [|done]]. unfold set_entry_i. simpl. rewrite scqp_slot_index_eq.
    rewrite (proj2 Hei _ Hsl'), Hc. unfold set_ptr. simpl. rewrite ?Nat2Z.id.
    split; by apply enc_list_insert.
  - unfold dequeue_ptr_slot. simpl. rewrite load_entry_p_eq. simpl.
    rewrite (proj2 Hr _ Hsl'), Hc. simpl.
    rewrite unpack_cycle_pack, unpack_is_safe_pack, Z.eqb_refl by done. simpl.
    destruct (Z.eqb_spec p 0); [lia|]. simpl. unfold exchange_entry_ptr, atomic_exchange_ptr. simpl.
    eexists. split_and!; [done| |done]. unfold set_entry_p. simpl. rewrite scqp_slot_index_eq.
    rewrite (proj2 Hr _ Hsl'), Hc. by apply enc_list_insert.
Qed.

(** A free, older cell is advanced; the rest of the iteration follows. *)
Lemma run_advance fb w s cells t c :
  repr fb s cells -> length cells = Z.to_nat n -> cells !!! slot t = mkCell c true None ->
  0 <= c < t / n -> 0 <= t < two64 ->
  exists s', run (bodyk fb (DeqSlot fb t)) w s = run (dequeue_after n (DeqTicket fb) t) w s' /\
    repr fb s' (<[slot t := mkCell (t / n) true None]> cells) /\ counters s' = counters s.
Proof.
  intros Hr Hl Hc Hlt Ht. pose proof (cycle63 t Ht) as Hct.
  pose proof (slot_of_lt n t size_ring_k) as Hsl. rewrite <- Hl in Hsl.
  assert (0 <= c < two63) as Hc63 by lia.
  unfold DeqSlot, DeqTicket, repr in *. destruct fb; simpl bodyk.
  - destruct Hr as [Hei Hpa]. unfold dequeue_index_slot. simpl. rewrite load_entry_i_eq. simpl.
    rewrite (proj2 Hei _ Hsl), Hc. simpl.
    rewrite unpack_cycle_pack, unpack_is_safe_pack by done.
    destruct (Z.eqb_spec c (t / n)) as [|Hne]; [lia|]. rewrite cycle_less_spec by done.
    destruct (Z.ltb_spec c (t / n)); [|lia]. simpl.
    rewrite cas2_entry_i_eq. simpl. rewrite (proj2 Hei _ Hsl), Hc, decide_True by done. simpl negb.
    cbv iota. eexists. split; [reflexivity|split; [|done]].
    unfold set_entry_i. simpl. rewrite scqp_slot_index_eq. split; [by apply enc_list_insert|].
    apply (enc_list_id _ _ _ _ _ 0); [done|done|done|]. by rewrite Hc.
  - unfold dequeue_ptr_slot. simpl. rewrite load_entry_p_eq. simpl.
    rewrite (proj2 Hr _ Hsl), Hc. simpl.
    rewrite unpack_cycle_pack, unpack_is_safe_pack by done.
    destruct (Z.eqb_spec c (t / n)) as [|Hne]; [lia|]. rewrite cycle_less_spec by done.
    destruct (Z.ltb_spec c (t / n)); [|lia]. simpl.
    rewrite cas2_entry_p_eq. simpl. rewrite (proj2 Hr _ Hsl), Hc, decide_True by done. simpl negb.
    cbv iota. eexists. split; [reflexivity|split; [|done]].
    unfold set_entry_p. simpl. rewrite scqp_slot_index_eq. by apply enc_list_insert.
Qed.

(** ** The invariant between operations

    [b] is the number of further operations for which the 64-bit counters are
    known not to overflow.  The distance of a lagging tail is bounded by what
    the threshold has lost since the tail was last in front. *)
Definition rep (fb : bool) (s : state) (q : list Z) (b : Z) : Prop :=
  exists cells, repr fb s cells /\ seq_rep n cells (head_ s) (tail_ s) q /\
    (-1 <= threshold_ s <= threshold_reset n /\
     head_ s - tail_ s <= threshold_reset n - threshold_ s) /\
    Forall (fun v => 0 < v) q /\
    (0 <= b /\ Z.max (head_ s) (tail_ s) + b < two64) /\
    (0 <= deq_success_ s /\ enq_success_ s = deq_success_ s + Z.of_nat (length q) /\
     enq_success_ s <= Z.max (head_ s) (tail_ s)).

Lemma rep_weaken fb s q b b' : rep fb s q b -> 0 <= b' <= b -> rep fb s q b'.
Proof.
  intros (cells & H1 & H2 & H3 & H4 & H5 & H6) Hb. exists cells.
  split; [done|]. split; [done|]. split; [done|]. split; [done|]. split; [lia|done].
Qed.

(** [is_empty] is exact between operations. *)
Lemma scqp_is_empty_spec fb s q b : rep fb s q b -> is_empty s = bool_decide (q = []).
Proof.
  intros (cells & _ & _ & _ & _ & _ & (_ & He & _)). unfold is_empty. rewrite He.
  destruct q as [|v q]; [apply Z.leb_le; simpl; lia|].
  rewrite bool_decide_false by done. apply Z.leb_gt. simpl. lia.
Qed.

Lemma full_test fb s q b :
  rep fb s q b -> queue_is_full (deq_success_ s) (enq_success_ s) n = (n <=? Z.of_nat (length q)).
Proof.
  intros (cells & _ & Hsr & _ & _ & Hb & (H0 & He & Hm)). unfold queue_is_full. rewrite He.
  destruct (Z.leb_spec (deq_success_ s) (deq_success_ s + Z.of_nat (length q))); [|lia].
  rewrite sub64_small by (unfold is_u64; lia). simpl. f_equal. lia.
Qed.

(** [enqueue] on a full ring: all [scqsize] slots are used. *)
Lemma run_full fb s q b w p :
  rep fb s q b -> n <= Z.of_nat (length q) ->
  run (bodyk fb (EnqTicket fb p)) w s = (s, w, inr (RBool false)).
Proof.
  intros Hr Hf. assert (run (enqueue_ticket n (EnqSlot fb p)) w s = (s, w, inr (RBool false))) as H.
  { unfold enqueue_ticket. simpl. rewrite (full_test fb s q b Hr).
    by destruct (Z.leb_spec n (Z.of_nat (length q))); [|lia]. }
  unfold EnqTicket, EnqSlot in *. by destruct fb.
Qed.

Lemma run_ticket fb s q b w p :
  rep fb s q b -> Z.of_nat (length q) < n -> 1 <= b ->
  run (bodyk fb (EnqTicket fb p)) w s =
  (set_counters (head_ s) (tail_ s + 1) (threshold_ s) s, w, inl (EnqSlot fb p (tail_ s))).
Proof.
  intros Hr Hroom Hb. assert (run (enqueue_ticket n (EnqSlot fb p)) w s =
    (set_counters (head_ s) (tail_ s + 1) (threshold_ s) s, w, inl (EnqSlot fb p (tail_ s)))) as H.
  { unfold enqueue_ticket. simpl. rewrite (full_test fb s q b Hr).
    destruct (Z.leb_spec n (Z.of_nat (length q))); [lia|].
    destruct Hr as (cells & _ & Hsr & _ & _ & Hbb & _). pose proof (size_lit k Hk).
    pose proof (sr_tl _ _ _ _ _ Hsr).
    simpl. unfold fetch_add_tail. by rewrite add64_small by (unfold is_u64; lia). }
  unfold EnqTicket, EnqSlot in *. by destruct fb.
Qed.

(** From the outer loop head, past the unusable tickets. *)
Lemma exec_enqueue fb s q b w p d :
  rep fb s q b -> Z.of_nat (length q) < n -> 0 < p -> 1 <= b -> d = Z.to_nat (head_ s - tail_ s) ->
  exists s', exec (bodyk fb) (2 * d + 2) (EnqTicket fb p) w s = Some (s', w, RBool true) /\
    rep fb s' (q ++ [p]) (b - 1).
Proof.
  revert s. induction d as [|d IH]; intros s Hr Hroom Hp Hb Hd.
  - pose proof (run_ticket fb s q b w p Hr Hroom Hb) as Hrun0.
    destruct Hr as (cells & Hre & Hsr & (Hth & Hlag) & Hv & (_ & Hbb) & (H0 & He & Hm)).
    pose proof (size_lit k Hk). pose proof (sr_tl _ _ _ _ _ Hsr). pose proof (sr_hd _ _ _ _ _ Hsr).
    pose proof (sr_count _ _ _ _ _ Hsr).
    destruct (sr_free _ _ _ _ _ Hsr (tail_ s)) as (c & Hc & Hcell); [lia|].
    destruct (run_put fb w (set_counters (head_ s) (tail_ s + 1) (threshold_ s) s) cells (tail_ s) p c)
      as (s' & Hrun1 & Hre' & Hcs); [by apply (repr_same fb s)|apply Hsr|done|done|lia|].
    exists s'. split; [exec_jump Hrun0; exec_ret Hrun1|].
    unfold counters in Hcs. simpl in Hcs. rewrite add64_small in Hcs by (unfold is_u64; lia).
    injection Hcs as E1 E2 E3 E4 E5. pose proof scqp_threshold_eq.
    eexists. rewrite E1, E2, E3, E4, E5, length_app. simpl length. split; [exact Hre'|].
    split; [apply sr_store; [by apply size_ring_k|done|lia|lia]|].
    split; [lia|]. split; [apply Forall_app; by split; [|rewrite Forall_singleton]|]. lia.
  - pose proof (run_ticket fb s q b w p Hr Hroom Hb) as Hrun0.
    set (s1 := set_counters (head_ s) (tail_ s + 1) (threshold_ s) s) in Hrun0.
    destruct Hr as (cells & Hre & Hsr & (Hth & Hlag) & Hv & (_ & Hbb) & (H0 & He & Hm)).
    pose proof (size_lit k Hk). pose proof (sr_tl _ _ _ _ _ Hsr).
    destruct (sr_dead_cell n size_ring_k _ _ _ _ (tail_ s) Hsr) as (c & Hc & Hcell); [lia|].
    assert (c < two63) as Hc63.
    { pose proof (Z.div_lt_upper_bound (head_ s + n) n two63 ltac:(lia)). unfold two63, two64 in *. lia. }
    assert (repr fb s1 cells) as Hre1 by by apply (repr_same fb s).
    assert (run (bodyk fb (EnqSlot fb p (tail_ s))) w s1 = (s1, w, inl (EnqTicket fb p))) as Hrun1.
    { apply (run_skip fb w s1 cells _ _ c); [done|apply Hsr|done|lia|lia]. }
    destruct (IH s1) as (s' & Hex & Hr'); [|done|done|done|simpl; lia|].
    { exists cells. simpl. split; [done|]. split; [by apply sr_skip; [|lia]|].
      split; [lia|]. split; [done|]. lia. }
    exists s'. split; [|done]. replace (2 * S d + 2)%nat with (S (S (2 * d + 2))) by lia.
    exec_jump Hrun0. exec_jump Hrun1. exact Hex.
Qed.

(** ** Dequeue *)

Lemma run_deq_ticket fb s q b w :
  rep fb s q b -> 1 <= b ->
  run (bodyk fb (DeqTicket fb)) w s =
  (set_counters (head_ s + 1) (tail_ s) (threshold_ s) s, w, inl (DeqSlot fb (head_ s))).
Proof.
  intros (cells & _ & Hsr & _ & _ & Hbb & _) Hb. pose proof (size_lit k Hk).
  pose proof (sr_hd _ _ _ _ _ Hsr).
  assert (add64 (head_ s) 1 = head_ s + 1) as Ha by (apply add64_small; unfold is_u64; lia).
  unfold DeqTicket, DeqSlot. destruct fb; simpl; unfold fetch_add_head; by rewrite Ha.
Qed.

Lemma exec_dequeue_some fb s v q b w :
  rep fb s (v :: q) b -> 1 <= b ->
  exists s', exec (bodyk fb) 3 DeqEntry w s = Some (s', w, RVal v) /\ rep fb s' q (b - 1).
Proof.
  intros Hr Hb. pose proof scqp_threshold_eq as Htr. pose proof (size_lit k Hk).
  assert (exists th, -1 <= th <= threshold_reset n /\
    run (bodyk fb DeqEntry) w s = (set_counters (head_ s) (tail_ s) th s, w, inl (DeqTicket fb)))
    as (th & Hth & Hrun0).
  { destruct Hr as (cells & _ & Hsr & (Hth & _) & _). pose proof (sr_count _ _ _ _ _ Hsr) as Hc.
    simpl in Hc. simpl. unfold dequeue_entry, DeqTicket. simpl.
    destruct (Z.ltb_spec (threshold_ s) 0); simpl.
    - destruct (Z.ltb_spec (head_ s) (tail_ s)); [|lia]. simpl.
      exists (threshold_reset n). split; [lia|done].
    - exists (threshold_ s). split; [done|]. by destruct s. }
  set (s0 := set_counters (head_ s) (tail_ s) th s) in Hrun0.
  destruct Hr as (cells & Hre & Hsr & _ & Hv & (_ & Hbb) & (H0 & He & Hm)).
  pose proof (sr_count _ _ _ _ _ Hsr) as Hc. simpl in Hc. simpl length in He.
  pose proof (sr_hd _ _ _ _ _ Hsr).
  assert (rep fb s0 (v :: q) b) as Hr0.
  { exists cells. simpl. split; [by apply (repr_same fb s)|]. split; [done|]. split; [lia|].
    split; [done|]. lia. }
  pose proof (run_deq_ticket fb s0 _ b w Hr0 Hb) as Hrun1. simpl in Hrun1.
  pose proof (sr_full _ _ _ _ _ Hsr 0 v eq_refl) as Hcell. rewrite Z.add_0_r in Hcell.
  inversion Hv as [|? ? Hv0 Hvq]; subst.
  destruct (run_get fb w (set_counters (head_ s + 1) (tail_ s) th s0) cells (head_ s) v)
    as (s' & Hrun2 & Hre' & Hcs); [by apply (repr_same fb s)|apply Hsr|done|lia|done|].
  exists s'. split; [exec_jump Hrun0; exec_jump Hrun1; exec_ret Hrun2|].
  unfold counters in Hcs. simpl in Hcs. rewrite add64_small in Hcs by (unfold is_u64; lia).
  injection Hcs as E1 E2 E3 E4 E5. eexists. rewrite E1, E2, E3, E4, E5. split; [exact Hre'|].
  split; [by apply (sr_consume n size_ring_k _ _ _ v)|]. split; [lia|]. split; [done|]. lia.
Qed.

(** [fixState] on an empty ring whose tail lags by more than a lap. *)
Lemma exec_fix fb s b w :
  rep fb s [] b -> n < head_ s - tail_ s ->
  exists s' w', exec (bodyk fb) (1 + length w) FixLoop w s = Some (s', w', RVal 0) /\ rep fb s' [] b.
Proof.
  intros (cells & Hre & Hsr & (Hth & Hlag) & Hv & Hbb & Hcn) Hd. pose proof (size_lit k Hk).
  pose proof scqp_threshold_eq. pose proof (sr_tl _ _ _ _ _ Hsr).
  set (s1 := set_counters (head_ s) (head_ s) (threshold_reset n) s).
  assert (rep fb s1 [] b) as Hr1.
  { exists cells. simpl. split; [by apply (repr_same fb s)|].
    split; [by apply (sr_fix n _ _ (tail_ s)); [|lia]|]. split; [lia|]. split; [done|]. simpl in *. lia. }
  assert (forall w, run (bodyk fb FixLoop) w s =
    if hd false w then (s, tl w, inl FixLoop) else (s1, tl w, inr (RVal 0))) as Hrun.
  { intros w0. simpl. unfold fixState_loop. simpl. rewrite sub64_small by (unfold is_u64; lia).
    destruct (Z.leb_spec (head_ s) (tail_ s)); [lia|].
    destruct (Z.leb_spec (head_ s - tail_ s) n); [lia|]. simpl.
    rewrite scqp_cas_tail_eq. destruct (hd false w0).
    - by rewrite decide_False by (by intros [? _]).
    - by rewrite decide_True by done. }
  induction w as [|[] w IH].
  - exists s1, []. split; [exec_ret (Hrun [])|done].
  - destruct IH as (s' & w' & He & Hr'). exists s', w'. split; [|done].
    exec_jump (Hrun (true :: w)). exact He.
  - exists s1, w. split; [exec_ret (Hrun (false :: w))|done].
Qed.

(** What follows the inner loop when the ticket was beyond the tail. *)
Lemma run_after fb s h w :
  n <= h -> n <= tail_ s <= h + 1 -> h + 1 < two64 -> 0 <= threshold_ s <= threshold_reset n ->
  head_ s = h + 1 ->
  run (dequeue_after n (DeqTicket fb) h) w s =
  (set_counters (h + 1) (tail_ s) (threshold_ s - 1) s, w,
   if (threshold_ s - 1 <=? 0) && (n <? h + 1 - tail_ s) then inl FixLoop else inr (RVal 0)).
Proof.
  intros Hh Ht Ho Hth Hhd. pose proof (size_lit k Hk). pose proof scqp_threshold_eq.
  destruct s as [ep ei pa hd tl th ds es]. simpl in *. subst hd.
  unfold dequeue_after. simpl. rewrite add64_small by (unfold is_u64; lia).
  destruct (Z.leb_spec tl (h + 1)); [|lia]. unfold fetch_sub_threshold, set_counters. simpl.
  assert (i64 (th - 1) = th - 1) as Hi.
  { destruct (Z.eq_dec th 0) as [->|]; [done|]. apply i64_small. unfold two63. lia. }
  rewrite Hi. destruct (Z.leb_spec (th - 1) 0); [|done]. simpl.
  rewrite sub64_small by (unfold is_u64; lia).
  destruct (Z.ltb_spec n (h + 1 - tl)); [|by rewrite andb_false_r].
  destruct (Z.ltb_spec tl (h + 1)); [done|lia].
Qed.

Lemma exec_dequeue_none fb s b w :
  rep fb s [] b -> 1 <= b ->
  exists s' w', exec (bodyk fb) (4 + length w) DeqEntry w s = Some (s', w', RVal 0) /\
    rep fb s' [] (b - 1).
Proof.
  intros Hr Hb. pose proof scqp_threshold_eq as Htr. pose proof (size_lit k Hk).
  pose proof (run_deq_ticket fb s [] b w Hr Hb) as Hrun1.
  pose proof (rep_weaken fb s [] b (b - 1) Hr ltac:(lia)) as Hrw.
  destruct Hr as (cells & Hre & Hsr & (Hth & Hlag) & Hv & (_ & Hbb) & (H0 & He & Hm)).
  pose proof (sr_count _ _ _ _ _ Hsr) as Hc. simpl in Hc, He. pose proof (sr_hd _ _ _ _ _ Hsr).
  pose proof (sr_tl _ _ _ _ _ Hsr).
  destruct (Z.lt_ge_cases (threshold_ s) 0) as [Hneg|Hpos].
  { assert (run (bodyk fb DeqEntry) w s = (s, w, inr (RVal 0))) as Hrun.
    { simpl. unfold dequeue_entry. simpl. destruct (Z.ltb_spec (threshold_ s) 0); [|lia].
      simpl. destruct (Z.ltb_spec (head_ s) (tail_ s)); [lia|done]. }
    exists s, w. split; [exec_ret Hrun|done]. }
  assert (run (bodyk fb DeqEntry) w s = (s, w, inl (DeqTicket fb))) as Hrun0.
  { simpl. unfold dequeue_entry, DeqTicket. simpl. destruct (Z.ltb_spec (threshold_ s) 0); [lia|done]. }
  set (s1 := set_counters (head_ s + 1) (tail_ s) (threshold_ s) s) in Hrun1.
  destruct (sr_free _ _ _ _ _ Hsr (head_ s)) as (c & Hc1 & Hcell); [lia|].
  destruct (run_advance fb w s1 cells (head_ s) c) as (s2 & Hrun2 & Hre2 & Hcs);
    [by apply (repr_same fb s)|apply Hsr|done|done|lia|].
  unfold counters in Hcs. simpl in Hcs. injection Hcs as E1 E2 E3 E4 E5.
  rewrite run_after in Hrun2 by lia. rewrite E2, E3 in Hrun2.
  set (s3 := set_counters (head_ s + 1) (tail_ s) (threshold_ s - 1) s2) in Hrun2.
  assert (rep fb s3 [] (b - 1)) as Hr3.
  { exists (<[slot (head_ s) := mkCell (head_ s / n) true None]> cells). simpl.
    rewrite E4, E5. split; [by apply (repr_same fb s2)|]. split; [by apply sr_miss; [apply size_ring_k|]|].
    split; [lia|]. split; [done|]. lia. }
  destruct ((threshold_ s - 1 <=? 0) && (n <? head_ s + 1 - tail_ s)) eqn:Hfix; bool_hyps.
  - destruct (exec_fix fb s3 (b - 1) w Hr3) as (s' & w' & Hex & Hr'); [simpl; lia|].
    exists s', w'. split; [|done]. exec_jump Hrun0. exec_jump Hrun1. exec_jump Hrun2. exact Hex.
  - exists s3, w. split; [|done]. exec_jump Hrun0. exec_jump Hrun1. exec_ret Hrun2.
Qed.

(** ** Construction and reuse *)

Lemma scqp_rep_new fb : rep fb (SCQP_new n fb) [] (two64 - n - 1).
Proof.
  pose proof (size_lit k Hk). pose proof scqp_threshold_eq.
  unfold SCQP_new. rewrite u64_small by (unfold is_u64, two64; lia).
  exists (replicate (Z.to_nat n) (mkCell 0 true None)). simpl. split.
  { unfold repr. destruct fb; simpl; [split|]; by apply enc_list_replicate. }
  split; [apply sr_start, size_ring_k|]. split; [lia|]. split; [done|]. unfold two64. lia.
Qed.

Lemma fill_spec {A} (x : A) (l : list A) :
  length l = Z.to_nat n -> fill n x l = replicate (Z.to_nat n) x.
Proof.
  intros Hl. unfold fill. rewrite <- Hl.
  assert (forall m, (m <= length l)%nat ->
    foldl (fun l i => <[i := x]> l) l (seq 0 m) = replicate m x ++ drop m l) as H.
  { induction m as [|m IH]; intros Hm; [done|]. rewrite seq_S, foldl_app, IH by lia. simpl.
    destruct (lookup_lt_is_Some_2 l m) as [y Hy]; [lia|].
    rewrite (drop_S l y m) by done. rewrite insert_app_r_alt by (rewrite length_replicate; lia).
    rewrite length_replicate, Nat.sub_diag. simpl.
    replace (x :: drop (S m) l) with ([x] ++ drop (S m) l) by done.
    rewrite app_assoc. f_equal. by rewrite <- (replicate_cons_app m x). }
  rewrite H by lia. by rewrite drop_all, app_nil_r.
Qed.

(** An empty ring passes both tests and becomes as new. *)
Lemma reset_empty fb s b :
  rep fb s [] b ->
  exists s', reset_for_reuse n fb s = (s', true) /\ rep fb s' [] (two64 - n - 1).
Proof.
  intros Hr. pose proof (scqp_is_empty_spec fb s [] b Hr) as Hem. rewrite bool_decide_true in Hem by done.
  destruct Hr as (cells & Hre & Hsr & _ & _ & _ & (H0 & He & Hm)).
  pose proof (sr_len _ _ _ _ _ Hsr) as Hl.
  assert (forall i, (i < length cells)%nat -> val (cells !!! i) = None) as Hnone.
  { intros i Hi. destruct (slot_of_surj n i size_ring_k) as (p & _ & <-); [lia|].
    by destruct (sr_empty_cell n size_ring_k _ _ _ p Hsr) as [c ->]. }
  assert (slots_empty n fb s = true) as Hse.
  { unfold slots_empty, repr in *. destruct fb.
    - apply forallb_forall. intros i [_ Hi]%in_seq. destruct Hre as [[Hl1 Hei] [Hl2 Hpa]].
      rewrite Hei, Hpa by lia. unfold enci, encv. rewrite Hnone by lia. done.
    - apply forallb_forall. intros i [_ Hi]%in_seq. destruct Hre as [Hl1 Hep].
      rewrite Hep by lia. unfold encp. simpl. rewrite Hnone by lia. done. }
  unfold reset_for_reuse. rewrite Hem, Hse. simpl. eexists. split; [done|].
  destruct (scqp_rep_new fb) as (cells0 & Hre0 & Hrest). exists cells0. split; [|exact Hrest].
  unfold repr, SCQP_new in *. destruct fb; simpl in *.
  - destruct Hre as [[Hl1 _] [Hl2 _]]. rewrite !fill_spec by lia. done.
  - destruct Hre as [Hl1 _]. by rewrite fill_spec by lia.
Qed.

Lemma reset_nonempty fb s v q b : rep fb s (v :: q) b -> reset_for_reuse n fb s = (s, false).
Proof.
  intros Hr. unfold reset_for_reuse. rewrite (scqp_is_empty_spec fb s _ b Hr).
  by rewrite bool_decide_false.
Qed.

(** ** Whole operations *)

Lemma run_enq_entry fb w s p : 0 < p ->
  run (bodyk fb (EnqEntry p)) w s = (s, w, inl (EnqTicket fb p)).
Proof. intros Hp. simpl. unfold enqueue_entry. by destruct (Z.eqb_spec p 0); [lia|]. Qed.

Lemma scqp_enqueue_ok fb s q b w p :
  rep fb s q b -> 1 <= b -> 0 < p -> Z.of_nat (length q) < n ->
  exists s', enqueue n bt fb (Z.to_nat (4 * n + 3)) p w s = Some (s', w, RBool true) /\
             rep fb s' (q ++ [p]) (b - 1).
Proof.
  intros Hr Hb Hp Hroom.
  destruct (exec_enqueue fb s q b w p _ Hr Hroom Hp Hb eq_refl) as (s' & He & Hr').
  exists s'. split; [|done]. apply (exec_mono _ (S (2 * Z.to_nat (head_ s - tail_ s) + 2))).
  - exec_jump (run_enq_entry fb w s p Hp). exact He.
  - destruct Hr as (cells & _ & _ & (Hth & Hlag) & _). pose proof scqp_threshold_eq. lia.
Qed.

Lemma scqp_enqueue_full fb s q b w p :
  rep fb s q b -> 0 < p -> Z.of_nat (length q) = n ->
  enqueue n bt fb 2 p w s = Some (s, w, RBool false).
Proof.
  intros Hr Hp Hf. exec_jump (run_enq_entry fb w s p Hp).
  exec_ret (run_full fb s q b w p Hr ltac:(lia)).
Qed.

Lemma scqp_dequeue_ok fb s q b w :
  rep fb s q b -> 1 <= b ->
  exists s' w', dequeue n bt fb (4 + length w) w s = Some (s', w', RVal (hd 0 q)) /\
                rep fb s' (tail q) (b - 1).
Proof.
  intros Hr Hb. destruct q as [|v q].
  - apply (exec_dequeue_none fb s b w Hr Hb).
  - destruct (exec_dequeue_some fb s v q b w Hr Hb) as (s' & He & Hr').
    exists s', w. split; [|done]. apply (exec_mono _ 3); [exact He|lia].
Qed.

End scqp.

(** ** Theorems *)

(** C16. Between operations both modes of [SCQP<T>] represent a FIFO queue
    [q] of pointers.  Whatever compare-exchanges fail spuriously, every operation
    ends and keeps it so: [enqueue] of a non-null pointer returns [true] and
    appends it while fewer than [scqsize] pointers are stored, after at most
    [4 * scqsize + 3] loop iterations also when the tail lags behind the head;
    with [scqsize] pointers it returns [false]; [enqueue(nullptr)] returns
    [false]; [dequeue] returns the oldest pointer, or [nullptr] exactly when the
    queue is empty; [is_empty] is exact. *)
Theorem scqp_sequential_fifo k fb s q b w :
  2 <= k <= 60 -> rep k fb s q b -> 1 <= b ->
  (forall p, 0 < p -> Z.of_nat (length q) < size k ->
     exists s', enqueue (size k) (bot k) fb (Z.to_nat (4 * size k + 3)) p w s =
                  Some (s', w, RBool true) /\ rep k fb s' (q ++ [p]) (b - 1)) /\
  (forall p, 0 < p -> Z.of_nat (length q) = size k ->
     enqueue (size k) (bot k) fb 2 p w s = Some (s, w, RBool false)) /\
  enqueue (size k) (bot k) fb 1 0 w s = Some (s, w, RBool false) /\
  (exists s' w', dequeue (size k) (bot k) fb (4 + length w) w s =
                   Some (s', w', RVal (hd 0 q)) /\ rep k fb s' (tail q) (b - 1)) /\
  is_empty s = bool_decide (q = []).
Proof.
  intros Hk Hr Hb. split; [|split; [|split; [|split]]].
  - intros p Hp Hroom. by apply (scqp_enqueue_ok k Hk fb s q b w p).
  - intros p Hp Hfull. by apply (scqp_enqueue_full k fb s q b w p).
  - done.
  - by apply (scqp_dequeue_ok k Hk fb s q b w).
  - by apply (scqp_is_empty_spec k fb s q b).
Qed.

Lemma scqp_sequential_fifo_witness :
  exists s1 s2 w2,
    enqueue (size 2) (bot 2) true (Z.to_nat (4 * size 2 + 3)) 4096 [] (SCQP_new 4 true) =
      Some (s1, [], RBool true) /\
    dequeue (size 2) (bot 2) true 4 [] s1 = Some (s2, w2, RVal 4096) /\ is_empty s1 = false.
Proof.
  pose proof (scqp_rep_new 2 ltac:(lia) true) as Hr0.
  destruct (scqp_sequential_fifo 2 true (SCQP_new 4 true) [] _ [] ltac:(lia) Hr0)
    as (He & _); [unfold two64; vm_compute; discriminate|].
  destruct (He 4096) as (s1 & Hs1 & Hr1); [lia|vm_compute; reflexivity|].
  destruct (scqp_sequential_fifo 2 true s1 [4096] _ [] ltac:(lia) Hr1)
    as (_ & _ & _ & (s2 & w2 & Hd & _) & Hem); [unfold two64; vm_compute; discriminate|].
  exists s1, s2, w2. split; [exact Hs1|]. split; [exact Hd|exact Hem].
Defined.

(** Construction and recycling: the constructor rounds the ring size
    as [SCQ] does and builds an empty queue in the mode that the platform and
    [force_fallback] select; [reset_for_reuse] of an empty queue succeeds,
    whatever its counters, cycles and threshold have become, and leaves a queue
    with the operation budget of a new one; on a queue with elements it reports
    failure and changes nothing. *)
Theorem scqp_new_and_reuse c pf force :
  0 <= c <= 2 ^ 60 ->
  exists m, 2 <= m <= 60 /\ SCQP_size 64 c = Some (size m) /\ c <= size m /\
    SCQP_bottom (size m) = bot m /\ 2 * SCQP_qsize (size m) = size m /\
    let fb := SCQP_using_fallback pf force in
    rep m fb (SCQP_new (size m) fb) [] (two64 - size m - 1) /\
    (forall s b, rep m fb s [] b ->
       exists s', reset_for_reuse (size m) fb s = (s', true) /\
                  rep m fb s' [] (two64 - size m - 1)) /\
    (forall s v q b, rep m fb s (v :: q) b -> reset_for_reuse (size m) fb s = (s, false)).
Proof.
  intros Hc. change (2 ^ 60) with 1152921504606846976 in Hc.
  destruct (SCQ_size_spec 64 c) as (m & Hm' & Hs & Hle & Hleast); [lia|unfold two63; lia|]. exists m.
  assert (2 <= m <= 60) as Hm by (split; [lia|apply (size_le_60 m c); [lia|apply Hc|done]]).
  pose proof (size_half m Hm) as Hh. pose proof (size_lit m Hm).
  split; [done|]. split; [exact Hs|]. split; [done|].
  split; [unfold SCQP_bottom; rewrite u64_small; [done|unfold is_u64, two64; lia]|].
  split; [unfold SCQP_qsize; by destruct (Z.eqb_spec (size m / 2) 0); lia|].
  split; [by apply scqp_rep_new|]. split; intros s.
  - intros b. by apply reset_empty.
  - intros v q b. by apply reset_nonempty.
Qed.

Lemma scqp_new_and_reuse_witness :
  exists m, SCQP_size 64 5 = Some (size m) /\
    rep m true (SCQP_new (size m) true) [] (two64 - size m - 1) /\
    exists s', reset_for_reuse (size m) true (SCQP_new (size m) true) = (s', true).
Proof.
  destruct (scqp_new_and_reuse 5 (Platform true X86_64 Gnu false true true true 0) false)
    as (m & _ & Hs & _ & _ & _ & Hn & Hre & _); [lia|].
  exists m. split; [exact Hs|]. split; [exact Hn|].
  destruct (Hre _ _ Hn) as (s' & H & _). exists s'. exact H.
Defined.

(** ** [reset_for_reuse], access by access

    Run alone, the program of the single accesses does what [reset_for_reuse]
    does. *)

Lemma run_check_slots fb idxs w s :
  run (check_slots fb idxs) w s =
  (s, w, if fb
         then forallb (fun i => (index_or_ptr (entries_i_ s !!! i) =? kEmptyIndex) && (ptr_array_ s !!! i =? 0)) idxs
         else forallb (fun i => ptr (entries_p_ s !!! i) =? 0) idxs).
Proof.
  induction idxs as [|i idxs IH]; [by destruct fb|]. cbn [check_slots]. destruct fb; simpl.
  - destruct (_ =? kEmptyIndex); simpl; [|done]. destruct (_ =? 0); simpl; [apply IH|done].
  - destruct (_ =? 0); simpl; [apply IH|done].
Qed.

Lemma run_clear_slots fb idxs w s :
  run (clear_slots fb idxs) w s =
  (set_slots
     (if fb then entries_p_ s else foldl (fun l i => <[i := empty_entry_p]> l) (entries_p_ s) idxs)
     (if fb then foldl (fun l i => <[i := empty_entry_i]> l) (entries_i_ s) idxs else entries_i_ s)
     (if fb then foldl (fun l i => <[i := 0]> l) (ptr_array_ s) idxs else ptr_array_ s) s, w, tt).
Proof.
  revert s. induction idxs as [|i idxs IH]; intros s; [by destruct fb, s|]. cbn [clear_slots].
  destruct fb; simpl; rewrite IH; unfold set_entry_i, set_entry_p, set_ptr; simpl; by rewrite !Nat2Z.id.
Qed.

Lemma run_reset_for_reuse n fb w s :
  run (reset_for_reuse_prog n fb) w s = ((reset_for_reuse n fb s).1, w, (reset_for_reuse n fb s).2).
Proof.
  unfold reset_for_reuse_prog, is_empty_prog, reset_for_reuse, is_empty, slots_empty, fill. simpl.
  destruct (enq_success_ s <=? deq_success_ s); simpl; [|done].
  rewrite run_bind, run_check_slots. destruct fb; (destruct (forallb _ _); simpl; [|done]);
    rewrite run_bind, run_clear_slots; done.
Qed.

(** ** The slot compare-and-swap on every platform *)

Definition entryp_wf (e : EntryP) : Prop := is_u64 (pcycle_flags e) /\ is_u64 (ptr e).

Lemma cas2p_native_gnu_spec pf addr cur expected desired :
  has_cas16 pf = true ->
  cas2p_native_gnu pf addr cur expected desired = Some (cas2p_mutex cur expected desired).
Proof.
  intros Hp. unfold cas2p_native_gnu. destruct (negb (is_aligned_16 addr)) eqn:Ea; [done|].
  rewrite (execute16_ok pf addr _ Hp Ea), cas2p_mutex_spec. unfold atomic_compare_exchange_entryp. simpl.
  by case_decide.
Qed.

Lemma cas2p_native_msvc_spec pf addr cur expected desired :
  has_cas16 pf = true -> entryp_wf cur -> entryp_wf expected -> entryp_wf desired ->
  cas2p_native_msvc pf addr cur expected desired = Some (cas2p_mutex cur expected desired).
Proof.
  intros Hp [Hc1 Hc2] [He1 He2] [Hd1 Hd2]. unfold cas2p_native_msvc.
  destruct (negb (is_aligned_16 addr)) eqn:Ea; [done|]. rewrite (execute16_ok pf addr _ Hp Ea).
  unfold InterlockedCompareExchange128, cas2p_mutex, entryp_equal. simpl.
  rewrite !u64_to_ll_eqb by done. destruct cur as [a b], expected as [c d], desired as [e f]. simpl in *.
  destruct (Z.eqb_spec a c) as [->|]; destruct (Z.eqb_spec b d) as [->|]; simpl;
    by rewrite !ll_roundtrip by done.
Qed.

(** The compare-and-swap on pointer slots is the reference one on every
    platform and does not fault: MSVC intrinsic, GNU builtin or striped mutex,
    aligned or not; on a null slot pointer it fails without effect.  Unlike [cas2] it takes the mutex
    on AArch64, with the same result. *)
Theorem cas2p_platform_independent pf addr cur expected desired :
  entryp_wf cur -> entryp_wf expected -> entryp_wf desired ->
  cas2p pf addr cur expected desired =
  Some (if decide (addr = 0) then (cur, expected, false)
        else if decide (cur = expected) then (desired, expected, true) else (cur, cur, false)).
Proof.
  intros Hc He Hd. unfold cas2p.
  destruct (Z.eqb_spec addr 0) as [->|Hne]; [by rewrite decide_True by done|].
  rewrite (decide_False (P := addr = 0)) by done. rewrite <- cas2p_mutex_spec.
  destruct (enable_cas2 pf); [|done]. destruct (has_cas2_support pf) eqn:Hs; [|done].
  apply has_cas2_support_spec in Hs. unfold cas2p_native.
  repeat case_match; auto using cas2p_native_gnu_spec, cas2p_native_msvc_spec.
Qed.

Lemma cas2p_platform_independent_witness :
  cas2p (Platform true ARM64 Gnu false true true true 0) 4096
    (mkEntryP 3 (two64 - 16)) (mkEntryP 3 (two64 - 16)) (mkEntryP 5 0) =
  Some (mkEntryP 5 0, mkEntryP 3 (two64 - 16), true).
Proof.
  rewrite cas2p_platform_independent by (split; unfold is_u64, two64; simpl; lia).
  reflexivity.
Defined.
