(* ===== verification/ScqpConc.v ===== *)
(** * ScqpConc: the pointer queue under concurrency

    Every interleaving of [enqueue], [dequeue] and [fixState] on an [SCQP], in
    both modes, keeps the ticket protocol of [TicketRing]: nothing is invented,
    duplicated or overwritten.  In the fallback a slot is a word of indices and a
    word of [ptr_array_] that are written one after the other; [owner] follows who
    wrote the second one.

    [scqp_lost_element]: the limit on the retries of [dequeue] makes it abandon a
    pointer that was accepted; no operation ever returns it. *)

From stdpp Require Import base list numbers option sorting.
From Stdlib Require Import ZArith Lia.
From S2P Require Import Prelude Conc Fifo Cas2 Ring TicketRing ScqSeq Scqp ScqpSeq.

Local Open Scope Z_scope.

Abbreviation scqp_hist := (list (hev tev (qop Z) (qres Z))).

(** The assumption on the environment: the arguments are addresses and the two
    64-bit counters do not overflow. *)
Definition scqp_ok (s : state) (h : scqp_hist) : Prop :=
  Forall (fun x => match x with HCall _ (OpEnq p) => 0 <= p < two64 | _ => True end) h /\
  head_ s + 1 < two64 /\ tail_ s + 1 < two64.

Definition scqp_okb (s : state) (h : scqp_hist) : bool :=
  forallb (fun x => match x with HCall _ (OpEnq p) => (0 <=? p) && (p <? two64) | _ => true end) h
  && (head_ s + 1 <? two64) && (tail_ s + 1 <? two64).

Lemma scqp_okb_ok s h : scqp_okb s h = true -> scqp_ok s h.
Proof.
  unfold scqp_okb, scqp_ok. intros H. bool_hyps. split_and!; try done.
  apply List.Forall_forall. intros x Hx.
  pose proof (proj1 (forallb_forall _ _) H x Hx) as Hb. simpl in Hb.
  destruct x as [i [v|]|i e|i r]; try done. bool_hyps. lia.
Qed.

Section conc.
Context (k : Z) (fb : bool).
Hypothesis (Hk : 2 <= k <= 60).

Abbreviation n := (size k).
Abbreviation bt := (bot k).
Abbreviation slot := (slot_of (size k)).

(** ** Who wrote a word of [ptr_array_]

    The thread, its ticket and its pointer, and whether the slot was published. *)
Record pown := mkPown { pw_thread : nat; pw_ticket : Z; pw_ptr : Z; pw_pub : bool }.

Definition owner1 (f : nat -> option pown) (x : hev tev (qop Z) (qres Z)) : nat -> option pown :=
  let set t o := fun j => if decide (j = slot t) then o else f j in
  match x with
  | HLin i (HoldPtr t p) => set t (Some (mkPown i t p false))
  | HLin i (PutAt t p) => set t (Some (mkPown i t p true))
  | HLin i (FreePtr t) => set t None
  | HLin i (TakePtr t _) => set t None
  | _ => f
  end.

Definition owner (h : scqp_hist) : nat -> option pown := foldl owner1 (fun _ => None) h.

Lemma owner_snoc h x : owner (h ++ [x]) = owner1 (owner h) x.
Proof. unfold owner. by rewrite foldl_app. Qed.

(** ** Slots *)

Definition cell_wf (c : cell) : Prop :=
  0 <= cyc c < two63 /\ forall v, val c = Some v -> 0 < v < two64.

Definition own_ptr (o : option pown) : Z := match o with Some w => pw_ptr w | None => 0 end.

(** The words of [ptr_array_]: a published pointer stays until a dequeuer of its
    ticket takes it. *)
Record array_ok (pa : list Z) (h : scqp_hist) : Prop := {
  ao_len : length pa = Z.to_nat n;
  ao_ptr j : (j < length pa)%nat -> pa !!! j = own_ptr (owner h j);
  ao_own j w : owner h j = Some w -> 0 < pw_ptr w /\ slot (pw_ticket w) = j;
  ao_pub t v : PutAt t v ∈ events h ->
    (exists i, owner h (slot t) = Some (mkPown i t v true)) \/ TakePtr t v ∈ events h
}.

Definition slots_ok (s : state) (cells : list cell) (h : scqp_hist) : Prop :=
  if fb then enc_list enci (entries_i_ s) cells /\ array_ok (ptr_array_ s) h
  else enc_list encp (entries_p_ s) cells.

(** A pointer taken out of the array belongs to the drawer of the ticket. *)
Definition takes_ok (h : scqp_hist) : Prop := forall i t v,
  HLin i (TakePtr t v) ∈ h -> PutAt t v ∈ events h /\ HLin i (TakeHead t) ∈ h.

(** A pointer is consumed by the operation that drew its ticket. *)
Definition gets_inside (h : scqp_hist) : Prop := forall h1 i t v h2,
  h = h1 ++ HLin i (GetAt t v) :: h2 -> exists o es, opview i h1 = Some (o, es) /\ TakeHead t ∈ es.

Definition scqp_inv (s : state) (h : scqp_hist) : Prop :=
  (exists cells, slots_ok s cells h /\ Forall cell_wf cells /\
                 ring_inv n cells (head_ s) (tail_ s) h) /\
  (takes_ok h /\ gets_inside h) /\
  head_ s + 1 < two64 /\ n <= tail_ s /\ tail_ s + 1 < two64.

(** Nobody touches a word of [ptr_array_] that another thread wrote and has not
    published. *)
Definition scqp_grant (j : nat) (c c' : state * scqp_hist) : Prop :=
  fb = true -> forall x i t p, i <> j ->
  owner c.2 x = Some (mkPown i t p false) -> owner c'.2 x = Some (mkPown i t p false).

Lemma scqp_ring : ring_size n.
Proof. by apply size_ring. Qed.

(** *** Events that leave the array alone *)

Definition plain (x : hev tev (qop Z) (qres Z)) : Prop :=
  match x with
  | HLin _ (HoldPtr _ _) | HLin _ (FreePtr _) | HLin _ (TakePtr _ _) | HLin _ (PutAt _ _) => False
  | _ => True
  end.

Lemma owner_plain h x : plain x -> owner (h ++ [x]) = owner h.
Proof. rewrite owner_snoc. by destruct x as [| ? []|]. Qed.

Lemma put_plain h x t v : plain x -> PutAt t v ∈ events (h ++ [x]) -> PutAt t v ∈ events h.
Proof.
  intros Hx. rewrite events_app, elem_of_app. intros [?|Hin]; [done|].
  destruct x as [|? []|]; simpl in *; try done; by inversion Hin as [|? ? ? Hn]; inversion Hn.
Qed.

Lemma array_plain pa h x : plain x -> array_ok pa h -> array_ok pa (h ++ [x]).
Proof.
  intros Hx []. split; rewrite ?owner_plain by done; try done.
  intros t v Hin. apply put_plain in Hin; [|done].
  destruct (ao_pub0 t v Hin) as [|Ht]; [by left|right]. rewrite events_app, elem_of_app. by left.
Qed.

Lemma slots_plain s cells h x : plain x -> slots_ok s cells h -> slots_ok s cells (h ++ [x]).
Proof. unfold slots_ok. intros Hx. destruct fb; [|done]. intros [H1 H2]. eauto using array_plain. Qed.

Lemma grant_plain j s s' h x : plain x -> scqp_grant j (s, h) (s', h ++ [x]).
Proof. intros Hx _ y i t p Hne. simpl. by rewrite owner_plain. Qed.

Lemma grant_same j s s' h : scqp_grant j (s, h) (s', h).
Proof. by intros _ x i t p. Qed.

Lemma gets_inside_snoc h x :
  (forall i t v, x = HLin i (GetAt t v) -> exists o es, opview i h = Some (o, es) /\ TakeHead t ∈ es) ->
  gets_inside h -> gets_inside (h ++ [x]).
Proof.
  intros Hx Hg h1 i t v h2 E. destruct h2 as [|y h2 _] using rev_ind.
  - apply app_inj_tail in E as [-> ->]. by apply (Hx i t v).
  - rewrite app_comm_cons, app_assoc in E. apply app_inj_tail in E as [-> _]. by apply (Hg h1 i t v h2).
Qed.

Lemma takes_ok_snoc h x :
  (forall i t v, x = HLin i (TakePtr t v) -> PutAt t v ∈ events h /\ HLin i (TakeHead t) ∈ h) ->
  takes_ok h -> takes_ok (h ++ [x]).
Proof.
  intros Hx Ht i t v. rewrite events_app, !elem_of_app.
  intros [Hin|Hin%list_elem_of_singleton]; [destruct (Ht i t v Hin)|destruct (Hx i t v (eq_sym Hin))]; auto.
Qed.

(** *** Steps *)

(** Accesses to the threshold and to the success counters. *)
Definition same_ring (s s' : state) : Prop :=
  same_slots s s' /\ head_ s' = head_ s /\ tail_ s' = tail_ s.

Lemma slots_same s s' cells h : same_slots s s' -> slots_ok s cells h -> slots_ok s' cells h.
Proof. intros (H1 & H2 & H3). unfold slots_ok. by rewrite H1, H2, H3. Qed.

Lemma scqp_inv_same s s' h : same_ring s s' -> scqp_inv s h -> scqp_inv s' h.
Proof.
  intros (Hs & H2 & H3) [(cells & Hsl & Hc) Hi]. unfold scqp_inv. rewrite H2, H3. split; [|done].
  exists cells. split; [by apply (slots_same s)|done].
Qed.

Lemma scqp_inv_other s h x : (forall i e, x <> HLin i e) -> scqp_inv s h -> scqp_inv s (h ++ [x]).
Proof.
  intros Hx [(cells & Hsl & Hw & HI) [[Ht Hg] Hb]].
  assert (plain x) as Hp by (destruct x; simpl; try done; by destruct (Hx i e)).
  split; [|split; [split|done]].
  - exists cells. split_and!; [by apply slots_plain|done|by apply ring_other].
  - apply takes_ok_snoc; [|done]. intros i t v ->. by destruct (Hx i (TakePtr t v)).
  - apply gets_inside_snoc; [|done]. intros i t v ->. by destruct (Hx i (GetAt t v)).
Qed.

(** ** What a thread knows of its own operation

    The tickets it has drawn, and the ticket it is working on. *)
Definition valid_ptr (p : Z) : Prop := 0 < p < two64.

Definition drew (i : nat) (o : qop Z) (ts : list tev) (h : scqp_hist) : Prop :=
  exists es, opview i h = Some (o, es) /\ ticks es = ts.

Definition penq_drew (i : nat) (p : Z) (h : scqp_hist) : Prop :=
  exists ts, drew i (OpEnq p) (TakeTail <$> ts) h.

Definition penq_at (i : nat) (p t : Z) (h : scqp_hist) : Prop :=
  exists ts, drew i (OpEnq p) ((TakeTail <$> ts) ++ [TakeTail t]) h.

Definition penq_put (i : nat) (p t : Z) (h : scqp_hist) : Prop :=
  exists ts, drew i (OpEnq p) ((TakeTail <$> ts) ++ [TakeTail t] ++ [PutAt t p]) h.

Definition pdeq_drew (i : nat) (h : scqp_hist) : Prop :=
  exists hs, drew i OpDeq (TakeHead <$> hs) h.

Definition pdeq_at (i : nat) (t : Z) (h : scqp_hist) : Prop :=
  exists hs, drew i OpDeq ((TakeHead <$> hs) ++ [TakeHead t]) h.

Definition pdeq_got (i : nat) (t v : Z) (h : scqp_hist) : Prop :=
  exists hs, drew i OpDeq ((TakeHead <$> hs) ++ [TakeHead t] ++ [GetAt t v]) h.

(** The holder of a ticket that has not taken its pointer out of the array. *)
Definition untaken (i : nat) (t : Z) (h : scqp_hist) : Prop := forall v, HLin i (TakePtr t v) ∉ h.

Definition preject (p : Z) (ts : list Z) : Prop := p = 0 -> ts = [].

Definition scqp_good (o : qop Z) (es : list tev) (r : qres Z) : Prop :=
  tgood valid_ptr 0 preject o (ticks es) r.

Definition scqp_loop (i : nat) (l : label) (s : state) (h : scqp_hist) : Prop :=
  match l with
  | EnqEntry p => opview i h = Some (OpEnq p, []) /\ 0 <= p < two64
  | EnqTicketP p => fb = false /\ valid_ptr p /\ penq_drew i p h
  | EnqTicketI p => fb = true /\ valid_ptr p /\ penq_drew i p h
  | EnqSlotP p t => fb = false /\ valid_ptr p /\ 0 <= t < two64 /\ penq_at i p t h
  | EnqSlotI p t => fb = true /\ valid_ptr p /\ 0 <= t < two64 /\ penq_at i p t h
  | DeqEntry | FixLoop => pdeq_drew i h
  | DeqTicketP => fb = false /\ pdeq_drew i h
  | DeqTicketI => fb = true /\ pdeq_drew i h
  | DeqSlotP t _ => fb = false /\ 0 <= t < two64 /\ holds i t h /\ pdeq_at i t h
  | DeqSlotI t _ => fb = true /\ 0 <= t < two64 /\ holds i t h /\ untaken i t h /\ pdeq_at i t h
  end.

Abbreviation stable := (stable scqp_inv scqp_grant).
Abbreviation wp := (wp scqp_inv scqp_grant scqp_ok).
Abbreviation Q := (Qloop scqp_loop scqp_good).

Lemma penq_at_drew i p t h : penq_at i p t h -> penq_drew i p h.
Proof. intros [ts H]. exists (ts ++ [t]). by rewrite fmap_app. Qed.

Lemma pdeq_at_drew i t h : pdeq_at i t h -> pdeq_drew i h.
Proof. intros [ts H]. exists (ts ++ [t]). by rewrite fmap_app. Qed.

Lemma drew_lin i o ts es h :
  drew i o ts h -> drew i o (ts ++ ticks es) (h ++ (HLin i <$> es)).
Proof.
  intros (fs & Ho & <-). exists (fs ++ es). rewrite opview_lin, decide_True, Ho by done.
  split; [done|]. unfold ticks. by rewrite list.filter_app.
Qed.

(** A step on [ptr_array_] leaves the tickets as they are. *)
Lemma drew_ghost i o ts e h : ~ tick e -> drew i o ts h -> drew i o ts (h ++ (HLin i <$> [e])).
Proof.
  intros He Hd. apply (drew_lin i o ts [e]) in Hd. unfold ticks in Hd.
  by rewrite filter_cons_False, app_nil_r in Hd by done.
Qed.

Lemma stable_drew_ex i o (f : list Z -> list tev) :
  stable i (fun _ h => exists ts, drew i o (f ts) h).
Proof.
  apply (stable_view _ _ i (fun v => exists ts es, v = Some (o, es) /\ ticks es = f ts)).
Qed.

Lemma stable_penq_drew i p : stable i (fun _ => penq_drew i p).
Proof. apply (stable_drew_ex i (OpEnq p) (fun ts => TakeTail <$> ts)). Qed.

Lemma stable_penq_at i p t : stable i (fun _ => penq_at i p t).
Proof. apply (stable_drew_ex i (OpEnq p) (fun ts => (TakeTail <$> ts) ++ [TakeTail t])). Qed.

Lemma stable_penq_put i p t : stable i (fun _ => penq_put i p t).
Proof.
  apply (stable_drew_ex i (OpEnq p) (fun ts => (TakeTail <$> ts) ++ [TakeTail t] ++ [PutAt t p])).
Qed.

Lemma stable_pdeq_drew i : stable i (fun _ => pdeq_drew i).
Proof. apply (stable_drew_ex i OpDeq (fun ts => TakeHead <$> ts)). Qed.

Lemma stable_pdeq_at i t : stable i (fun _ => pdeq_at i t).
Proof. apply (stable_drew_ex i OpDeq (fun ts => (TakeHead <$> ts) ++ [TakeHead t])). Qed.

Lemma stable_pdeq_got i t v : stable i (fun _ => pdeq_got i t v).
Proof.
  apply (stable_drew_ex i OpDeq (fun ts => (TakeHead <$> ts) ++ [TakeHead t] ++ [GetAt t v])).
Qed.

Lemma stable_pholds i t : stable i (fun _ h => holds i t h).
Proof. intros c c' (j & Hj & Hh & _) H. by apply (holds_step i j t c.2). Qed.

Lemma stable_untaken i t : stable i (fun _ h => untaken i t h).
Proof. intros c c' (j & Hj & Hh & _) H v Hin. apply (H v). by apply (hist_step_own j i c.2 c'.2). Qed.

Lemma stable_put i t v : stable i (fun _ h => PutAt t v ∈ events h).
Proof.
  apply (stable_events _ _ i (fun es => PutAt t v ∈ es)). intros es es' Hin. apply elem_of_app. by left.
Qed.

(** What a thread wrote to the array and has not published stays. *)
Lemma stable_owner i x t p :
  fb = true -> stable i (fun _ h => owner h x = Some (mkPown i t p false)).
Proof. intros Hfb c c' (j & Hj & _ & HG & _) H. by apply (HG Hfb x i t p). Qed.

#[local] Hint Resolve stable_op stable_penq_drew stable_penq_at stable_penq_put stable_pdeq_drew
  stable_pdeq_at stable_pdeq_got stable_pholds stable_untaken stable_put stable_owner
  stable_pure stable_post : lscq.
Ltac stab := first [solve [eauto with lscq] | apply stable_and; stab].

Lemma scqp_stable_Q i x : stable i (Q i x).
Proof. destruct x as [[]|r]; unfold Qloop, scqp_loop; stab. Qed.

Lemma scqp_done i x s h : Q i x s h -> wp i (Ret x) (Q i) (s, h).
Proof. intros HQ. apply (wp_ret _ _ _ i); [apply scqp_stable_Q|done]. Qed.

(** An access that leaves slots and tickets as they are. *)
Lemma scqp_quiet {A} i (P : scqp_hist -> Prop) (X : Set) f (kk : X -> prog state tev A) QQ s h :
  (forall s, same_ring s (f s).1) -> stable i (fun _ => P) -> P h ->
  (forall s1 h1, P h1 -> scqp_inv s1 h1 -> wp i (kk (f s1).2) QQ ((f s1).1, h1)) ->
  wp i (Act X f (fun _ => []) kk) QQ (s, h).
Proof.
  intros Hf HP HPs Hkk. apply (wp_silent _ _ _ i (fun _ => P)); [done|done|].
  intros s1 h1 s2 x HP1 HI1 Hfx _. pose proof (Hf s1) as Hs. rewrite Hfx in Hs.
  split_and!; [apply grant_same|by apply (scqp_inv_same s1)|]. specialize (Hkk s1 h1 HP1 HI1).
  by rewrite Hfx in Hkk.
Qed.

Lemma load_p_same t s : same_ring s (load_entry_p (slot_index n bt t) s).1.
Proof. by rewrite load_entry_p_eq. Qed.

Lemma load_i_same t s : same_ring s (load_entry_i (slot_index n bt t) s).1.
Proof. by rewrite load_entry_i_eq. Qed.

(** ** The blocks that both modes share *)

Lemma scqp_enqueue_entry i p s h :
  scqp_loop i (EnqEntry p) s h -> wp i (enqueue_entry fb p) (Q i) (s, h).
Proof.
  intros [Hv Hr]. unfold enqueue_entry. destruct (Z.eqb_spec p 0) as [->|Hne]; apply scqp_done.
  - exists (OpEnq 0), []. split; [done|]. right. split; [done|]. by exists [].
  - assert (valid_ptr p) by (unfold valid_ptr; lia).
    assert (penq_drew i p h) by (exists [], []; done). by destruct fb eqn:E; simpl.
Qed.

Lemma scqp_enqueue_ticket i p (next : Z -> label) s h :
  valid_ptr p -> penq_drew i p h ->
  (forall t s h, 0 <= t < two64 -> penq_at i p t h -> scqp_loop i (next t) s h) ->
  wp i (enqueue_ticket n next) (Q i) (s, h).
Proof.
  intros Hv Hd Hnext. unfold enqueue_ticket. simpl.
  apply (scqp_quiet i (penq_drew i p)); [done|stab|done|]. clear s h Hd. intros s h Hd _. simpl.
  apply (scqp_quiet i (penq_drew i p)); [done|stab|done|]. intros s1 h1 Hd1 _. simpl.
  destruct (queue_is_full _ _ _).
  { apply scqp_done. destruct Hd1 as (ts & es & Ho & Hes). exists (OpEnq p), es. split; [done|].
    right. split; [done|]. exists ts. split; [|done]. unfold preject, valid_ptr in *. lia. }
  apply (wp_act _ _ _ i (fun _ => penq_drew i p)); [stab|done|]. clear s h s1 h1 Hd Hd1.
  intros s h s2 t [ts Hd] [(cells & Hsl & Hw & HI) [[Ht Hg] Hb]] [= <- <-] (_ & _ & Ho). simpl in Ho.
  pose proof (size_lit k Hk). assert (add64 (tail_ s) 1 = tail_ s + 1) as Ha
    by (apply add64_small; unfold is_u64; lia).
  rewrite Ha in *. split_and!; [by apply grant_plain| |].
  - split; [|split; [split|simpl; lia]].
    + exists cells. split_and!; [by apply slots_plain|done|]. simpl. apply ring_draw_tail; [done|lia].
    + by apply takes_ok_snoc.
    + by apply gets_inside_snoc.
  - apply scqp_done. apply Hnext; [lia|]. exists ts. apply (drew_lin i _ _ [TakeTail (tail_ s)] h Hd).
Qed.

(** The end of a successful [enqueue]. *)
Lemma scqp_enqueue_finish i p t s h :
  valid_ptr p -> penq_put i p t h -> wp i (enqueue_finish n) (Q i) (s, h).
Proof.
  intros Hv Hop. unfold enqueue_finish.
  assert (forall s h, penq_put i p t h ->
    wp i (Act unit fetch_add_enq_success (fun _ => []) (fun _ => Ret (inr (RBool true)))) (Q i) (s, h)) as Hend.
  { clear s h Hop. intros s h Hop. apply (scqp_quiet i (penq_put i p t)); [done|stab|done|].
    intros s1 h1 (ts & es & Ho & Hes) _. simpl. apply scqp_done. exists (OpEnq p), es. split; [done|].
    left. split_and!; [done|done|]. by exists ts, t. }
  simpl. apply (scqp_quiet i (penq_put i p t)); [done|stab|done|]. intros s1 h1 H1 _. simpl.
  destruct (negb _); simpl; [|by apply Hend].
  apply (scqp_quiet i (penq_put i p t)); [done|stab|done|]. intros s2 h2 H2 _. by apply Hend.
Qed.

Lemma scqp_null i s h : pdeq_drew i h -> wp i (Ret (inr (RVal 0))) (Q i) (s, h).
Proof.
  intros (hs & es & Ho & Hes). apply scqp_done. exists OpDeq, es. split; [done|].
  right. split; [done|]. by exists hs.
Qed.

(** One more access of a dequeuer that only looks at the counters or writes the
    threshold. *)
Ltac deq_quiet i Hd :=
  simpl; apply (scqp_quiet i (pdeq_drew i)); [done|stab|exact Hd|];
  clear Hd; intros ? ? Hd _; simpl.

Lemma scqp_dequeue_after i t again s h :
  (forall s h, pdeq_drew i h -> scqp_loop i again s h) -> pdeq_drew i h ->
  wp i (dequeue_after n again t) (Q i) (s, h).
Proof.
  intros Hag Hd. unfold dequeue_after. deq_quiet i Hd.
  destruct (_ <=? _); deq_quiet i Hd.
  - destruct (_ <=? _); [|by apply scqp_null]. deq_quiet i Hd. deq_quiet i Hd.
    destruct (_ && _); [by apply scqp_done|by apply scqp_null].
  - destruct (_ <=? _); [|apply scqp_done; by apply Hag]. deq_quiet i Hd. deq_quiet i Hd.
    destruct (_ <? _); [deq_quiet i Hd; apply scqp_done; by apply Hag|].
    destruct (_ && _); [by apply scqp_done|by apply scqp_null].
Qed.

Lemma scqp_dequeue_entry i s h : pdeq_drew i h -> wp i (dequeue_entry n fb) (Q i) (s, h).
Proof.
  intros Hd. unfold dequeue_entry.
  assert (forall s h, pdeq_drew i h ->
    wp i (Ret (inl (if fb then DeqTicketI else DeqTicketP))) (Q i) (s, h)) as Hgo.
  { intros s1 h1 H1. apply scqp_done. by destruct fb eqn:E; simpl. }
  deq_quiet i Hd. destruct (_ <? _); [|by apply Hgo]. deq_quiet i Hd. deq_quiet i Hd.
  destruct (_ <? _); [deq_quiet i Hd; by apply Hgo|by apply scqp_null].
Qed.

Lemma scqp_dequeue_ticket i (next : Z -> label) s h :
  pdeq_drew i h ->
  (forall t s h, 0 <= t < two64 -> holds i t h -> untaken i t h -> pdeq_at i t h ->
     scqp_loop i (next t) s h) ->
  wp i (dequeue_ticket next) (Q i) (s, h).
Proof.
  intros Hd Hnext. unfold dequeue_ticket. simpl.
  apply (wp_act _ _ _ i (fun _ => pdeq_drew i)); [stab|done|]. clear s h Hd.
  intros s h s2 t [hs Hd] [(cells & Hsl & Hw & HI) [[Ht Hg] Hb]] [= <- <-] (_ & Ho & _). simpl in Ho.
  pose proof (size_lit k Hk). pose proof (ri_hd _ _ _ _ _ HI).
  assert (add64 (head_ s) 1 = head_ s + 1) as Ha by (apply add64_small; unfold is_u64; lia).
  rewrite Ha in *. destruct (ring_draw_head n _ _ _ _ i HI) as [HI' Hh].
  split_and!; [by apply grant_plain| |].
  - split; [|split; [split|simpl; lia]].
    + exists cells. split_and!; [by apply slots_plain|done|done].
    + by apply takes_ok_snoc.
    + by apply gets_inside_snoc.
  - apply scqp_done. apply Hnext; [lia|done| |].
    + intros v [Hin|[_ [=]]]%elem_lin_snoc. destruct (Ht _ _ _ Hin) as [_ Hth].
      pose proof (head_ticket_range n _ _ _ _ _ _ HI Hth). lia.
    + exists hs. apply (drew_lin i _ _ [TakeHead (head_ s)] h Hd).
Qed.

Lemma scqp_fixState i s h : pdeq_drew i h -> wp i (fixState_loop n) (Q i) (s, h).
Proof.
  intros Hd. unfold fixState_loop.
  assert (forall s h, pdeq_drew i h -> wp i (Act unit (store_threshold (threshold_reset n)) (fun _ => [])
    (fun _ => Ret (inr (RVal 0)))) (Q i) (s, h)) as Hfixed.
  { clear s h Hd. intros s h Hd. deq_quiet i Hd. by apply scqp_null. }
  simpl. apply (wp_silent _ _ _ i (fun _ => pdeq_drew i)); [stab|done|]. clear s h Hd.
  intros s h s2 x Hd HI [= <- <-] _. split_and!; [apply grant_same|done|].
  assert (n <= head_ s < two64) as Hx.
  { destruct HI as [(cells & _ & _ & HR) [_ Hb]]. pose proof (ri_hd _ _ _ _ _ HR). lia. }
  set (x := head_ s) in *. clearbody x. clear HI.
  deq_quiet i Hd. set (t := tail_ s1). clearbody t.
  destruct (Z.leb_spec x t) as [|Hlt]; simpl orb; cbv iota; [by apply Hfixed|].
  destruct (_ <=? _); [by apply Hfixed|]. simpl. apply wp_choose. intros b.
  apply (wp_silent _ _ _ i (fun _ => pdeq_drew i)); [stab|done|]. clear s h Hd.
  intros s h s2 ok Hd HI. rewrite scqp_cas_tail_eq. case_decide as Hc; intros [= <- <-] Hok.
  - destruct Hc as [_ Hc]. destruct HI as [(cells & Hsl & Hw & HR) [Hg Hb]].
    split_and!; [apply grant_same| |by apply Hfixed]. destruct Hok as (_ & _ & Ho). simpl in Ho.
    split; [|split; [done|simpl; lia]]. exists cells. split_and!; [done|done|].
    apply (ring_tail_forward n _ _ t); [|simpl; lia]. by rewrite <- Hc.
  - split_and!; [apply grant_same|done|]. by apply scqp_done.
Qed.

(** ** Cells and the words of a slot *)

Lemma word_cycle c : cell_wf c -> unpack_cycle (pack_cycle_flags (cyc c) (safe c)) = cyc c.
Proof. intros [Hc _]. by apply unpack_cycle_pack. Qed.

Lemma word_safe c : cell_wf c -> unpack_is_safe (pack_cycle_flags (cyc c) (safe c)) = safe c.
Proof. intros [Hc _]. by apply unpack_is_safe_pack. Qed.

Lemma word_inj c d :
  cell_wf c -> cell_wf d ->
  pack_cycle_flags (cyc c) (safe c) = pack_cycle_flags (cyc d) (safe d) -> cyc c = cyc d /\ safe c = safe d.
Proof.
  intros Hc Hd E. split.
  - rewrite <- (word_cycle c Hc), E. by apply word_cycle.
  - rewrite <- (word_safe c Hc), E. by apply word_safe.
Qed.

Lemma encp_words i c : cell_wf c ->
  unpack_cycle (pcycle_flags (encp i c)) = cyc c /\ unpack_is_safe (pcycle_flags (encp i c)) = safe c /\
  ptr (encp i c) = default 0 (val c).
Proof. intros Hc. split_and!; [by apply word_cycle|by apply word_safe|done]. Qed.

Lemma encp_inj i c d : cell_wf c -> cell_wf d -> encp i c = encp i d -> c = d.
Proof.
  intros Hc Hd. unfold encp. intros [= [H1 H2]%word_inj Hv]; [|done|done].
  destruct Hc as [_ Hc], Hd as [_ Hd]. destruct c as [cy b [v|]], d as [cy' b' [v'|]]; simplify_eq/=;
    [done|specialize (Hc _ eq_refl); lia|specialize (Hd _ eq_refl); lia|done].
Qed.

Lemma wf_older_cell t c : 0 <= t / n < two63 -> cell_wf c -> cell_wf (older n t c).
Proof. intros Ht [Hc Hv]. unfold older. destruct (val c) eqn:E; split; simpl; naive_solver. Qed.

(** The word that a dequeuer writes over an older cell. *)
Lemma encp_older i t c : cell_wf c ->
  (if ptr (encp i c) =? 0
   then mkEntryP (pack_cycle_flags (t / n) (unpack_is_safe (pcycle_flags (encp i c)))) 0
   else mkEntryP (pack_cycle_flags (unpack_cycle (pcycle_flags (encp i c))) false) (ptr (encp i c)))
  = encp i (older n t c).
Proof.
  intros Hc. unfold encp, older. cbn [pcycle_flags ptr]. rewrite word_cycle, word_safe by done.
  destruct c as [cy b [v|]]; simpl in *; [|done].
  destruct Hc as [_ Hc]. specialize (Hc v eq_refl). destruct (Z.eqb_spec v 0); [lia|done].
Qed.

Lemma ticket_63 t : 0 <= t < two64 -> 0 <= t / n < two63.
Proof. intros Ht. by apply two63_half, ticket_cycle. Qed.

Lemma pcells_lookup cells hd tl (h : scqp_hist) t :
  Forall cell_wf cells -> ring_inv n cells hd tl h ->
  cell_wf (cells !!! slot t) /\ (slot t < length cells)%nat.
Proof.
  intros Hw HI. pose proof (ri_slot_lt n scqp_ring _ _ _ _ t HI) as Hlt. split; [|done].
  by apply Forall_lookup_total_1.
Qed.

(** The clauses of the invariant on the history after an event on the ring. *)
Lemma hist_ok_put h i t p : takes_ok h /\ gets_inside h ->
  takes_ok (h ++ [HLin i (PutAt t p)]) /\ gets_inside (h ++ [HLin i (PutAt t p)]).
Proof. intros [Ht Hg]. split; [by apply takes_ok_snoc|by apply gets_inside_snoc]. Qed.

Lemma hist_ok_get h i t v : pdeq_at i t h -> takes_ok h /\ gets_inside h ->
  takes_ok (h ++ [HLin i (GetAt t v)]) /\ gets_inside (h ++ [HLin i (GetAt t v)]).
Proof.
  intros (hs & es & Ho & Hes) [Ht Hg]. split; [by apply takes_ok_snoc|].
  apply gets_inside_snoc; [|done]. intros j u w [= <- <- <-]. exists OpDeq, es. split; [done|].
  assert (TakeHead t ∈ ticks es) as Hin by (rewrite Hes, elem_of_app, list_elem_of_singleton; by right).
  by apply list_elem_of_filter in Hin as [_ Hin].
Qed.

(** ** Slots that hold the pointer *)
Section ptr_mode.
Hypothesis (Hfb : fb = false).

Lemma inv_entry_p s h t : scqp_inv s h ->
  exists c, cell_wf c /\ entries_p_ s !!! slot t = encp (slot t) c /\
    forall cells, slots_ok s cells h -> Forall cell_wf cells ->
      ring_inv n cells (head_ s) (tail_ s) h -> cells !!! slot t = c.
Proof.
  intros [(cells & Hsl & Hw & HI) _]. pose proof (pcells_lookup _ _ _ _ t Hw HI) as [Hc Hlt].
  unfold slots_ok in *. rewrite Hfb in *. exists (cells !!! slot t).
  split_and!; [done|by apply Hsl|]. intros cells' Hsl' Hw' HI'.
  pose proof (pcells_lookup _ _ _ _ t Hw' HI') as [Hc' Hlt'].
  apply (encp_inj (slot t)); [done|done|].
  rewrite <- (proj2 Hsl _ Hlt). symmetry. by apply Hsl'.
Qed.

(** A write on the slot of [t] that finds the cell [c] is a step of the protocol
    on [c]. *)
Lemma inv_cas_p s h h' t c d :
  scqp_inv s h -> entries_p_ s !!! slot t = encp (slot t) c -> cell_wf c -> cell_wf d ->
  (takes_ok h' /\ gets_inside h') ->
  (forall cells, ring_inv n cells (head_ s) (tail_ s) h -> cells !!! slot t = c ->
     ring_inv n (<[slot t := d]> cells) (head_ s) (tail_ s) h') ->
  scqp_inv (set_entry_p (slot_index n bt t) (encp (slot t) d) s) h'.
Proof.
  intros HI Hc Hwc Hwd Hh Hstep. destruct (inv_entry_p s h t HI) as (c' & Hwc' & Hc' & Hcells).
  assert (c' = c) as -> by (apply (encp_inj (slot t)); [done|done|congruence]).
  destruct HI as [(cells & Hsl & Hw & HR) [_ Hb]]. split; [|split; done].
  exists (<[slot t := d]> cells). specialize (Hcells cells Hsl Hw HR).
  split_and!; [|by apply Forall_insert|by apply Hstep].
  unfold slots_ok, set_entry_p in *. rewrite Hfb in *. simpl. rewrite scqp_slot_index_eq by done.
  by apply enc_list_insert.
Qed.

Lemma grant_ptr j s s' h h' : scqp_grant j (s, h) (s', h').
Proof. intros Hf. by rewrite Hfb in Hf. Qed.

Lemma scqp_enqueue_ptr i p t s h :
  scqp_loop i (EnqSlotP p t) s h -> wp i (enqueue_ptr_slot n bt p t) (Q i) (s, h).
Proof.
  intros (_ & Hv & Ht & Hd). unfold enqueue_ptr_slot. simpl. pose proof (ticket_63 t Ht) as Hct.
  apply (scqp_quiet i (penq_at i p t)); [by intros; apply load_p_same|stab|done|]. clear s h Hd.
  intros s h Hd HI. rewrite load_entry_p_eq by done. simpl.
  destruct (inv_entry_p s h t HI) as (c & Hc & -> & _).
  destruct (encp_words (slot t) c Hc) as (-> & -> & ->). rewrite cycle_less_spec by (done || apply Hc).
  assert (forall s h, penq_at i p t h -> wp i (Ret (inl (EnqTicketP p))) (Q i) (s, h)) as Hskip.
  { intros s1 h1 H1. apply scqp_done. simpl. split; [done|]. split; [done|]. by apply (penq_at_drew i p t). }
  destruct (Z.ltb_spec (cyc c) (t / n)) as [Hlt|]; [|by apply Hskip]. cbn [andb].
  destruct (Z.eqb_spec (default 0 (val c)) 0) as [Hz|]; [|by apply Hskip].
  assert (val c = None) as Hnone.
  { destruct (val c) as [v|] eqn:E; [|done]. apply Hc in E. simpl in Hz. lia. }
  assert (forall s h, penq_at i p t h ->
    wp i (let! ok := atomic_lin (cas2_entry_p (slot_index n bt t) (encp (slot t) c)
                                   (mkEntryP (pack_cycle_flags (t / n) true) p))
                       (fun ok : bool => if ok then [PutAt t p] else []) in
       if (ok : bool) then enqueue_finish n else Ret (inl (EnqSlotP p t)))%prog (Q i) (s, h)) as Hcas.
  { clear s h Hd HI. intros s h Hd. cbn [bind atomic_lin].
    apply (wp_act _ _ _ i (fun _ => penq_at i p t)); [stab|done|]. clear s h Hd.
    intros s h s2 ok Hd HI. rewrite cas2_entry_p_eq by done. case_decide as Heq; intros [= <- <-] _.
    - split_and!; [apply grant_ptr| |].
      + apply (inv_cas_p s h _ t c (mkCell (t / n) true (Some p))); [done|done|done| |apply hist_ok_put, HI|].
        { split; [done|]. by intros v' [= <-]. }
        intros cells HR Hcell. destruct c as [cy b ?]. simpl in *. subst.
        by apply (ring_store n scqp_ring _ _ _ _ _ _ _ cy b).
      + apply (scqp_enqueue_finish i p t); [done|]. destruct Hd as [ts Hd]. exists ts.
        rewrite app_assoc. by apply (drew_lin i _ _ [PutAt t p]).
    - rewrite lin_nil. split_and!; [apply grant_same|done|]. apply scqp_done. simpl. auto. }
  destruct (safe c); simpl; [by apply Hcas|].
  apply (scqp_quiet i (penq_at i p t)); [done|stab|done|]. intros s1 h1 Hd1 HI1. simpl.
  destruct (head_ s1 <=? t); [by apply Hcas|by apply Hskip].
Qed.

(** The end of a successful [dequeue]. *)
Lemma scqp_dequeue_finish i t v s h :
  valid_ptr v -> pdeq_got i t v h ->
  wp i (Act unit fetch_add_deq_success (fun _ => []) (fun _ => Ret (inr (RVal v)))) (Q i) (s, h).
Proof.
  intros Hv Hd. apply (scqp_quiet i (pdeq_got i t v)); [done|stab|done|].
  intros s1 h1 (hs & es & Ho & Hes) _. simpl. apply scqp_done. exists OpDeq, es. split; [done|].
  left. by exists hs, t, v.
Qed.

Lemma scqp_consume_ptr i t v s h :
  0 <= t < two64 -> holds i t h -> pdeq_at i t h -> valid_ptr v -> PutAt t v ∈ events h ->
  wp i (Act Z (exchange_entry_ptr (slot_index n bt t) 0) (fun _ => [GetAt t v])
          (fun _ => Act unit fetch_add_deq_success (fun _ => []) (fun _ => Ret (inr (RVal v)))))
    (Q i) (s, h).
Proof.
  intros Ht Hh Hd Hv Hp.
  apply (wp_act _ _ _ i (fun _ h => (holds i t h /\ pdeq_at i t h) /\ PutAt t v ∈ events h)); [stab|done|].
  clear s h Hh Hd Hp. intros s h s2 x [[Hh Hd] Hp] HI Hx _.
  split_and!; [apply grant_ptr| |].
  - destruct (inv_entry_p s h t HI) as (c & Hc & He & Hcells).
    assert (exists b, c = mkCell (t / n) b (Some v)) as [b ->].
    { destruct HI as [(cells & Hsl & Hw & HR) _]. rewrite <- (Hcells cells Hsl Hw HR).
      apply (put_in_cell n _ _ _ _ _ _ HR Hp (holds_fresh n _ _ _ _ _ _ HR Hh)). }
    unfold exchange_entry_ptr, atomic_exchange_ptr in Hx. rewrite scqp_slot_index_eq, He in Hx by done.
    injection Hx as <- _. apply (inv_cas_p s h _ t (mkCell (t / n) b (Some v)) (mkCell (t / n) b None)).
    + done.
    + done.
    + done.
    + split; [apply Hc|done].
    + apply hist_ok_get; [done|apply HI].
    + intros cells HR Hcell. by apply (ring_consume n scqp_ring).
  - apply (scqp_dequeue_finish i t); [done|]. destruct Hd as [hs Hd]. exists hs.
    rewrite app_assoc. by apply (drew_lin i _ _ [GetAt t v]).
Qed.

Lemma scqp_dequeue_ptr i t r s h :
  scqp_loop i (DeqSlotP t r) s h -> wp i (dequeue_ptr_slot n bt t r) (Q i) (s, h).
Proof.
  intros (_ & Ht & Hh & Hd). unfold dequeue_ptr_slot. cbn [bind atomic]. pose proof (ticket_63 t Ht) as Hct.
  assert (forall s h, pdeq_at i t h -> wp i (dequeue_after n DeqTicketP t) (Q i) (s, h)) as Hafter.
  { intros s1 h1 H1. apply scqp_dequeue_after; [done|]. by apply (pdeq_at_drew i t). }
  assert (forall r s h, holds i t h -> pdeq_at i t h ->
    wp i (Ret (inl (DeqSlotP t r))) (Q i) (s, h)) as Hagain by (intros; by apply scqp_done).
  apply (scqp_quiet i (fun h => holds i t h /\ pdeq_at i t h)); [by intros; apply load_p_same|stab|done|].
  clear s h Hd Hh. intros s h [Hh Hd] HI. rewrite load_entry_p_eq by done. cbn [fst snd].
  destruct (inv_entry_p s h t HI) as (c & Hc & -> & Hcells).
  assert (forall v, c = mkCell (t / n) (safe c) (Some v) -> PutAt t v ∈ events h) as Hput.
  { intros v Hv. destruct HI as [(cells & Hsl & Hw & HR) _].
    apply (ri_cell _ _ _ _ _ HR t (safe c)). by rewrite (Hcells cells). }
  rewrite encp_older by done. destruct (encp_words (slot t) c Hc) as (-> & -> & ->).
  destruct (Z.eqb_spec (cyc c) (t / n)) as [Heq|Hne].
  - destruct (Z.eqb_spec (default 0 (val c)) 0) as [|Hnz]; [by apply Hafter|].
    destruct (val c) as [v|] eqn:Ev; [|done]. simpl.
    destruct (safe c) eqn:Es; simpl.
    + apply scqp_consume_ptr; [done|done|done|by apply Hc|].
      apply Hput. destruct c. simpl in *. by subst.
    + destruct (_ <? _)%nat; [by apply Hafter|by apply Hagain].
  - rewrite cycle_less_spec by (done || apply Hc).
    destruct (Z.ltb_spec (cyc c) (t / n)) as [Hlt|]; [|by apply Hafter]. cbn [bind atomic].
    apply (wp_silent _ _ _ i (fun _ h => holds i t h /\ pdeq_at i t h)); [stab|done|].
    clear Hput Hcells HI s h Hh Hd. intros s h s2 ok [Hh Hd] HI.
    rewrite cas2_entry_p_eq by done. case_decide as Hcas; intros [= <- <-] _; cbn [negb].
    + split_and!; [apply grant_ptr| |by apply Hafter].
      apply (inv_cas_p s h h t c); [done|done|done|by apply wf_older_cell|apply HI|].
      intros cells HR <-. by apply (ring_older n scqp_ring).
    + split_and!; [apply grant_ptr|done|by apply Hagain].
Qed.

End ptr_mode.

(** ** The array of pointers *)

Lemma owner_set h i e t o :
  owner1 (owner h) (HLin i e) = (fun j => if decide (j = slot t) then o else owner h j) ->
  owner (h ++ [HLin i e]) (slot t) = o /\
  forall j, j <> slot t -> owner (h ++ [HLin i e]) j = owner h j.
Proof.
  intros He. rewrite owner_snoc, He. split; [by rewrite decide_True|]. intros j Hj. by rewrite decide_False.
Qed.

(** An event that sets the owner of the slot of [t] and the word accordingly. *)
Lemma array_set pa h i e t o :
  owner1 (owner h) (HLin i e) = (fun j => if decide (j = slot t) then o else owner h j) ->
  (forall w, o = Some w -> 0 < pw_ptr w /\ slot (pw_ticket w) = slot t) ->
  (forall u v, slot u = slot t -> PutAt u v ∈ events h \/ PutAt u v = e ->
     (exists j, o = Some (mkPown j u v true)) \/ TakePtr u v ∈ events h \/ TakePtr u v = e) ->
  (forall u v, PutAt u v = e -> u = t) ->
  array_ok pa h -> array_ok (<[slot t := own_ptr o]> pa) (h ++ [HLin i e]).
Proof.
  intros He Hw Hpub Ht []. destruct (owner_set h i e t o He) as [Ho Ho'].
  split; rewrite ?length_insert; [done| | |].
  - intros j Hj. destruct (decide (j = slot t)) as [->|Hne].
    + by rewrite list_lookup_total_insert_eq, Ho by done.
    + rewrite list_lookup_total_insert_ne by done. rewrite Ho' by done. auto.
  - intros j w. destruct (decide (j = slot t)) as [->|Hne]; [rewrite Ho; auto|rewrite Ho' by done; auto].
  - intros u v. rewrite events_snoc, !elem_ev_snoc. intros Hin.
    destruct (decide (slot u = slot t)) as [Heq|Hne].
    + rewrite Heq, Ho. destruct (Hpub u v Heq Hin) as [?|[?|?]]; auto.
    + rewrite Ho' by done. destruct Hin as [Hin|Hin]; [|by rewrite (Ht u v Hin) in Hne].
      destruct (ao_pub0 u v Hin); auto.
Qed.

Lemma array_hold pa h i t p :
  0 < p -> owner h (slot t) = None -> array_ok pa h ->
  array_ok (<[slot t := p]> pa) (h ++ [HLin i (HoldPtr t p)]).
Proof.
  intros Hp Ho Ha. apply (array_set pa h i _ t (Some (mkPown i t p false))); [done| | |done|done].
  - by intros w [= <-].
  - intros u v Hu [Hin|?]; [|done]. destruct (ao_pub _ _ Ha u v Hin) as [[j Hj]|]; [|auto].
    by rewrite Hu, Ho in Hj.
Qed.

Lemma array_free pa h i t p :
  owner h (slot t) = Some (mkPown i t p false) -> array_ok pa h ->
  array_ok (<[slot t := 0]> pa) (h ++ [HLin i (FreePtr t)]).
Proof.
  intros Ho Ha. apply (array_set pa h i _ t None); [done|done| |done|done].
  intros u v Hu [Hin|?]; [|done]. destruct (ao_pub _ _ Ha u v Hin) as [[j Hj]|]; [|auto].
  by rewrite Hu, Ho in Hj.
Qed.

Lemma array_take pa h i j t v :
  owner h (slot t) = Some (mkPown j t v true) -> array_ok pa h ->
  array_ok (<[slot t := 0]> pa) (h ++ [HLin i (TakePtr t v)]).
Proof.
  intros Ho Ha. apply (array_set pa h i _ t None); [done|done| |done|done].
  intros u w Hu [Hin|?]; [|done]. destruct (ao_pub _ _ Ha u w Hin) as [[j' Hj]|]; [|auto].
  rewrite Hu, Ho in Hj. simplify_eq. auto.
Qed.

Lemma array_word pa h t w :
  array_ok pa h -> owner h (slot t) = w -> pa !!! slot t = own_ptr w.
Proof.
  intros Ha <-. apply (ao_ptr _ _ Ha). rewrite (ao_len _ _ Ha). apply slot_of_lt, scqp_ring.
Qed.

Lemma array_put pa h i t p :
  owner h (slot t) = Some (mkPown i t p false) -> array_ok pa h ->
  array_ok pa (h ++ [HLin i (PutAt t p)]).
Proof.
  intros Ho Ha. destruct (ao_own _ _ Ha _ _ Ho) as [Hp _].
  rewrite <- (list_insert_total_id pa (slot t)). rewrite (array_word _ _ _ _ Ha Ho).
  apply (array_set pa h i _ t (Some (mkPown i t p true))); [done| | | |done].
  - by intros w [= <-].
  - intros u v Hu [Hin|[= -> ->]]; [|by left; exists i].
    destruct (ao_pub _ _ Ha u v Hin) as [[j Hj]|]; [|auto]. by rewrite Hu, Ho in Hj.
  - by intros u v [= -> _].
Qed.

Lemma array_zero pa h t : array_ok pa h -> pa !!! slot t = 0 -> owner h (slot t) = None.
Proof.
  intros Ha Hz. destruct (owner h (slot t)) as [w|] eqn:Ho; [|done].
  rewrite (array_word _ _ _ _ Ha Ho) in Hz. simpl in Hz. apply (ao_own _ _ Ha) in Ho as [? _]. lia.
Qed.

(** The thread that owns the word of a slot may change it. *)
Lemma grant_set j s s' h e t o :
  owner1 (owner h) (HLin j e) = (fun x => if decide (x = slot t) then o else owner h x) ->
  (forall i u p, owner h (slot t) = Some (mkPown i u p false) -> i = j) ->
  scqp_grant j (s, h) (s', h ++ [HLin j e]).
Proof.
  intros He Ho _ x i u p Hij Hx. simpl in *. destruct (owner_set h j e t o He) as [_ Ho'].
  destruct (decide (x = slot t)) as [->|Hne]; [by destruct Hij; apply (Ho i u p)|by rewrite Ho'].
Qed.

(** ** Slots of indices *)
Section index_mode.
Hypothesis (Hfb : fb = true).

Lemma slot_small t : Z.of_nat (slot t) <> kEmptyIndex /\ (slot t < Z.to_nat n)%nat.
Proof.
  pose proof (size_lit k Hk). pose proof (slot_of_lt n t scqp_ring). unfold kEmptyIndex, two64. lia.
Qed.

Lemma enci_words t c : cell_wf c ->
  unpack_cycle (cycle_flags (enci (slot t) c)) = cyc c /\
  unpack_is_safe (cycle_flags (enci (slot t) c)) = safe c /\
  ((index_or_ptr (enci (slot t) c) =? kEmptyIndex) = true /\ val c = None \/
   (index_or_ptr (enci (slot t) c) =? kEmptyIndex) = false /\
   index_or_ptr (enci (slot t) c) = Z.of_nat (slot t) /\ exists v, val c = Some v).
Proof.
  intros Hc. split_and!; [by apply word_cycle|by apply word_safe|]. unfold enci. simpl.
  destruct (val c) as [v|]; [right|left; by rewrite Z.eqb_refl].
  split_and!; [|done|by eexists]. apply Z.eqb_neq, slot_small.
Qed.

Lemma enci_same t c d : cell_wf c -> cell_wf d -> enci (slot t) c = enci (slot t) d ->
  cyc c = cyc d /\ safe c = safe d /\ (val c = None <-> val d = None).
Proof.
  intros Hc Hd E. destruct (enci_words t c Hc) as (H1 & H2 & H3), (enci_words t d Hd) as (H4 & H5 & H6).
  rewrite <- H1, <- H2, E, H4, H5. rewrite E in H3. split_and!; [done|done|].
  destruct H3 as [[? ->]|(? & _ & v & ->)], H6 as [[? ->]|(? & _ & v' & ->)]; try done; congruence.
Qed.

Lemma enci_older t c : cell_wf c ->
  (if index_or_ptr (enci (slot t) c) =? kEmptyIndex
   then mkEntry (pack_cycle_flags (t / n) (unpack_is_safe (cycle_flags (enci (slot t) c)))) kEmptyIndex
   else mkEntry (pack_cycle_flags (unpack_cycle (cycle_flags (enci (slot t) c))) false)
          (index_or_ptr (enci (slot t) c)))
  = enci (slot t) (older n t c).
Proof.
  intros Hc. destruct (enci_words t c Hc) as (-> & -> & [[-> Hv]|(-> & -> & v & Hv)]);
    unfold older; by rewrite Hv.
Qed.

Lemma inv_entry_i s h t : scqp_inv s h ->
  exists cells, Forall cell_wf cells /\ ring_inv n cells (head_ s) (tail_ s) h /\
    enc_list enci (entries_i_ s) cells /\ array_ok (ptr_array_ s) h /\
    cell_wf (cells !!! slot t) /\ entries_i_ s !!! slot t = enci (slot t) (cells !!! slot t).
Proof.
  intros [(cells & Hsl & Hw & HI) _]. pose proof (pcells_lookup _ _ _ _ t Hw HI) as [Hc Hlt].
  unfold slots_ok in *. rewrite Hfb in *. destruct Hsl as [He Ha]. exists cells.
  split_and!; try done. by apply He.
Qed.

(** A write to the slot of [t] that makes a step of the protocol. *)
Lemma inv_write_i s h h' t cells d :
  scqp_inv s h -> Forall cell_wf cells -> enc_list enci (entries_i_ s) cells -> cell_wf d ->
  array_ok (ptr_array_ s) h' -> (takes_ok h' /\ gets_inside h') ->
  ring_inv n (<[slot t := d]> cells) (head_ s) (tail_ s) h' ->
  scqp_inv (set_entry_i (slot_index n bt t) (enci (slot t) d) s) h'.
Proof.
  intros [_ [_ Hb]] Hw He Hd Ha Hh HR. split; [|split; done].
  exists (<[slot t := d]> cells). split_and!; [|by apply Forall_insert|done].
  unfold slots_ok, set_entry_i. rewrite Hfb. simpl. rewrite scqp_slot_index_eq by done.
  split; [by apply enc_list_insert|done].
Qed.

(** A write to the word of [t] in the array, with an event that is not one of
    the ring. *)
Lemma inv_write_ptr s h i e t p :
  scqp_inv s h -> ~ tick e -> array_ok (<[slot t := p]> (ptr_array_ s)) (h ++ [HLin i e]) ->
  (forall u v, e = TakePtr u v -> PutAt u v ∈ events h /\ HLin i (TakeHead u) ∈ h) ->
  scqp_inv (set_ptr (Z.of_nat (slot t)) p s) (h ++ [HLin i e]).
Proof.
  intros [(cells & Hsl & Hw & HR) [[Ht Hg] Hb]] He Ha Htake. split; [|split; [split|done]].
  - exists cells. unfold slots_ok, set_ptr in *. rewrite Hfb in *. simpl. rewrite Nat2Z.id.
    split; [split; [apply Hsl|done]|]. split; [done|by apply ring_ghost].
  - apply takes_ok_snoc; [|done]. intros j u v [= <- He']. by apply Htake.
  - apply gets_inside_snoc; [|done]. intros j u v [= _ ->]. by destruct He.
Qed.

Lemma cas_ptr_array_eq t p q s :
  cas_ptr_array (slot_index n bt t) p q s =
  if decide (ptr_array_ s !!! slot t = p) then (set_ptr (Z.of_nat (slot t)) q s, true) else (s, false).
Proof.
  unfold cas_ptr_array, atomic_compare_exchange_ptr, set_ptr. rewrite scqp_slot_index_eq, Nat2Z.id by done.
  destruct (Z.eqb_spec (ptr_array_ s !!! slot t) p); case_decide; try done.
  by rewrite list_insert_total_id, set_slots_id.
Qed.

(** After the array was written: publish the slot, or take the pointer back. *)
Lemma scqp_publish i p t c s h :
  valid_ptr p -> 0 <= t < two64 -> cell_wf c -> val c = None -> cyc c < t / n ->
  penq_at i p t h -> owner h (slot t) = Some (mkPown i t p false) ->
  wp i (let! ok := atomic_lin (cas2_entry_i (slot_index n bt t) (enci (slot t) c)
                       (mkEntry (pack_cycle_flags (t / n) true) (u64 (slot_index n bt t))))
                     (fun ok : bool => if ok then [PutAt t p] else []) in
        if (ok : bool) then enqueue_finish n
        else do! atomic_lin (cas_ptr_array (slot_index n bt t) p 0) (fun _ => [FreePtr t]);
             Ret (inl (EnqSlotI p t)))%prog (Q i) (s, h).
Proof.
  intros Hv Ht Hc Hnone Hlt Hd Ho. pose proof (ticket_63 t Ht) as Hct. cbn [bind atomic_lin].
  set (P := fun h : scqp_hist => penq_at i p t h /\ owner h (slot t) = Some (mkPown i t p false)).
  assert (stable i (fun _ => P)) as HP by (unfold P; stab).
  apply (wp_act _ _ _ i (fun _ => P)); [done|done|]. clear s h Hd Ho.
  intros s h s2 ok [Hd Ho] HI. rewrite cas2_entry_i_eq by done. case_decide as Hcas; intros [= <- <-] _.
  - destruct (inv_entry_i s h t HI) as (cells & Hw & HR & He & Ha & Hc' & Hl). rewrite Hl in Hcas.
    apply enci_same in Hcas as (H1 & H2 & H3); [|done|done].
    assert (cells !!! slot t = c) as Hcc.
    { destruct (cells !!! slot t) as [cy b o], c as [cy' b' o']. simpl in *. subst. f_equal. by apply H3. }
    split_and!.
    + apply (grant_set i _ _ h (PutAt t p) t (Some (mkPown i t p true))); [done|].
      intros j u q. rewrite Ho. by intros [= <- _ _].
    + replace (mkEntry _ _) with (enci (slot t) (mkCell (t / n) true (Some p)))
        by (unfold enci; simpl; by rewrite slot_index_u64).
      apply (inv_write_i s h _ t cells); [done|done|done| |by apply array_put|apply hist_ok_put, HI|].
      { split; [done|]. by intros v' [= <-]. }
      apply (ring_store n scqp_ring _ _ _ _ _ _ _ (cyc c) (safe c)); [done| |done|done].
      rewrite Hcc. destruct c. simpl in *. by subst.
    + apply (scqp_enqueue_finish i p t); [done|]. destruct Hd as [ts Hd]. exists ts.
      rewrite app_assoc. by apply (drew_lin i _ _ [PutAt t p]).
  - rewrite lin_nil. split_and!; [apply grant_same|done|]. cbn [bind atomic_lin].
    apply (wp_act _ _ _ i (fun _ => P)); [done|done|]. clear s h Hd Ho HI Hcas.
    intros s h s2 ok [Hd Ho] HI. rewrite cas_ptr_array_eq.
    destruct (inv_entry_i s h t HI) as (cells & _ & _ & _ & Ha & _).
    rewrite decide_True by apply (array_word _ _ _ _ Ha Ho). intros [= <- <-] _. split_and!.
    + apply (grant_set i _ _ h (FreePtr t) t None); [done|]. intros j u q. rewrite Ho. by intros [= <- _ _].
    + apply inv_write_ptr; [done|by intros []|by apply (array_free _ _ _ _ p)|done].
    + apply scqp_done. simpl. split; [done|]. split; [done|]. split; [done|].
      destruct Hd as [ts Hd]. exists ts. apply drew_ghost; [by intros []|done].
Qed.

Lemma scqp_enqueue_index i p t s h :
  scqp_loop i (EnqSlotI p t) s h -> wp i (enqueue_index_slot n bt p t) (Q i) (s, h).
Proof.
  intros (_ & Hv & Ht & Hd). unfold enqueue_index_slot. cbn [bind atomic]. pose proof (ticket_63 t Ht) as Hct.
  apply (scqp_quiet i (penq_at i p t)); [by intros; apply load_i_same|stab|done|]. clear s h Hd.
  intros s h Hd HI. rewrite load_entry_i_eq by done. cbn [fst snd].
  destruct (inv_entry_i s h t HI) as (cells & _ & _ & _ & _ & Hc & ->).
  set (c := cells !!! slot t) in *. clearbody c. clear cells.
  destruct (enci_words t c Hc) as (-> & -> & Hidx). rewrite cycle_less_spec by (done || apply Hc).
  assert (forall s h, penq_at i p t h -> wp i (Ret (inl (EnqTicketI p))) (Q i) (s, h)) as Hskip.
  { intros s1 h1 H1. apply scqp_done. simpl. split; [done|]. split; [done|]. by apply (penq_at_drew i p t). }
  destruct (Z.ltb_spec (cyc c) (t / n)) as [Hlt|]; [|by apply Hskip]. cbn [andb].
  destruct Hidx as [[-> Hnone]|[-> _]]; [|by apply Hskip].
  assert (forall s h, penq_at i p t h ->
    wp i (let! set := atomic_lin (cas_ptr_array (slot_index n bt t) 0 p)
                        (fun set : bool => if set then [HoldPtr t p] else []) in
       if negb set then Ret (inl (EnqTicketI p))
       else
         let! ok := atomic_lin (cas2_entry_i (slot_index n bt t) (enci (slot t) c)
                       (mkEntry (pack_cycle_flags (t / n) true) (u64 (slot_index n bt t))))
                     (fun ok : bool => if ok then [PutAt t p] else []) in
         if (ok : bool) then enqueue_finish n
         else do! atomic_lin (cas_ptr_array (slot_index n bt t) p 0) (fun _ => [FreePtr t]);
              Ret (inl (EnqSlotI p t)))%prog (Q i) (s, h)) as Hcas.
  { clear s h Hd HI. intros s h Hd. cbn [bind atomic_lin].
    apply (wp_act _ _ _ i (fun _ => penq_at i p t)); [stab|done|]. clear s h Hd.
    intros s h s2 ok Hd HI. rewrite cas_ptr_array_eq. case_decide as Hz; intros [= <- <-] _.
    - destruct (inv_entry_i s h t HI) as (cells & _ & _ & _ & Ha & _).
      pose proof (array_zero _ _ _ Ha Hz) as Hnil. cbn [negb]. split_and!.
      + apply (grant_set i _ _ h (HoldPtr t p) t (Some (mkPown i t p false))); [done|]. by rewrite Hnil.
      + apply inv_write_ptr; [done|by intros []|by apply array_hold; [apply Hv|..]|done].
      + apply (scqp_publish i p t c); [done|done|done|done|done| |].
        * destruct Hd as [ts Hd]. exists ts. apply drew_ghost; [by intros []|done].
        * by apply (owner_set h i (HoldPtr t p) t).
    - rewrite lin_nil. split_and!; [apply grant_same|done|]. by apply Hskip. }
  destruct (safe c); cbn [bind]; [by apply Hcas|].
  apply (scqp_quiet i (penq_at i p t)); [done|stab|done|]. intros s1 h1 Hd1 HI1. cbn [bind load_head fst snd].
  destruct (head_ s1 <=? t); [by apply Hcas|by apply Hskip].
Qed.

(** The pointer of a published ticket is in the array until its holder takes it. *)
Lemma untaken_owner s h i t v :
  scqp_inv s h -> holds i t h -> untaken i t h -> PutAt t v ∈ events h ->
  exists j, owner h (slot t) = Some (mkPown j t v true).
Proof.
  intros HI [Hh _] Hu Hp. destruct (inv_entry_i s h t HI) as (cells & _ & HR & _ & Ha & _).
  destruct (ao_pub _ _ Ha t v Hp) as [?|Ht]; [done|]. exfalso.
  apply elem_events in Ht as [j Ht]. destruct HI as [_ [[Htk _] _]].
  destruct (Htk _ _ _ Ht) as [_ Hj]. rewrite <- (ri_owner _ _ _ _ _ HR i j t Hh Hj) in Ht. by apply (Hu v).
Qed.

(** The second half of a consumption: the index is cleared. *)
Lemma scqp_clear_index i t v s h :
  valid_ptr v -> holds i t h -> pdeq_at i t h -> PutAt t v ∈ events h ->
  wp i (Act Z (exchange_entry_index (slot_index n bt t) kEmptyIndex) (fun _ => [GetAt t v])
          (fun _ => Act unit fetch_add_deq_success (fun _ => []) (fun _ => Ret (inr (RVal v)))))
    (Q i) (s, h).
Proof.
  intros Hv Hh Hd Hp.
  apply (wp_act _ _ _ i (fun _ h => (holds i t h /\ pdeq_at i t h) /\ PutAt t v ∈ events h)); [stab|done|].
  clear s h Hh Hd Hp. intros s h s2 x [[Hh Hd] Hp] HI Hx _.
  destruct (inv_entry_i s h t HI) as (cells & Hw & HR & He & Ha & Hc & Hl).
  destruct (put_in_cell n _ _ _ _ _ _ HR Hp (holds_fresh n _ _ _ _ _ _ HR Hh)) as [b Hcell].
  rewrite Hcell in Hl, Hc. split_and!; [by apply grant_plain| |].
  - unfold exchange_entry_index, atomic_exchange_u64 in Hx. rewrite scqp_slot_index_eq, Hl in Hx by done.
    injection Hx as <- _. apply (inv_write_i s h _ t cells (mkCell (t / n) b None)).
    + done.
    + done.
    + done.
    + split; [apply Hc|done].
    + by apply array_plain.
    + apply hist_ok_get; [done|apply HI].
    + by apply (ring_consume n scqp_ring _ _ _ _ _ _ _ v).
  - apply (scqp_dequeue_finish i t); [done|]. destruct Hd as [hs Hd]. exists hs.
    rewrite app_assoc. by apply (drew_lin i _ _ [GetAt t v]).
Qed.

Lemma scqp_consume_index i t v s h :
  valid_ptr v -> holds i t h -> untaken i t h -> pdeq_at i t h -> PutAt t v ∈ events h ->
  wp i (Act Z (exchange_ptr_array (Z.of_nat (slot t)) 0) (fun value => [TakePtr t value])
          (fun value => Act Z (exchange_entry_index (slot_index n bt t) kEmptyIndex)
             (fun _ => [GetAt t value])
             (fun _ => Act unit fetch_add_deq_success (fun _ => []) (fun _ => Ret (inr (RVal value))))))
    (Q i) (s, h).
Proof.
  intros Hv Hh Hu Hd Hp.
  apply (wp_act _ _ _ i (fun _ h =>
    (holds i t h /\ untaken i t h) /\ (pdeq_at i t h /\ PutAt t v ∈ events h))); [stab|done|].
  clear s h Hh Hd Hu Hp. intros s h s2 x [[Hh Hu] [Hd Hp]] HI Hx _.
  destruct (untaken_owner s h i t v HI Hh Hu Hp) as [j Ho].
  destruct (inv_entry_i s h t HI) as (cells & _ & _ & _ & Ha & _).
  pose proof (array_word _ _ _ _ Ha Ho) as Hword. simpl in Hword.
  unfold exchange_ptr_array, atomic_exchange_ptr in Hx. rewrite Nat2Z.id, Hword in Hx.
  injection Hx as <- <-. split_and!.
  - apply (grant_set i _ _ h (TakePtr t v) t None); [done|]. intros j' u q. by rewrite Ho.
  - apply inv_write_ptr; [done|by intros []|by apply (array_take _ _ _ j)|].
    intros u w [= <- <-]. split; [done|apply Hh].
  - apply scqp_clear_index; [done| | |].
    + destruct Hh as [Hh Hg]. split; [apply elem_lin_snoc; by left|].
      intros w [Hin|[_ [=]]]%elem_lin_snoc. by apply (Hg w).
    + destruct Hd as [hs Hd]. exists hs. apply drew_ghost; [by intros []|done].
    + simpl. rewrite events_snoc, elem_ev_snoc. by left.
Qed.

Lemma scqp_dequeue_index i t r s h :
  scqp_loop i (DeqSlotI t r) s h -> wp i (dequeue_index_slot n bt t r) (Q i) (s, h).
Proof.
  intros (_ & Ht & Hh & Hu & Hd). unfold dequeue_index_slot. cbn [bind atomic].
  pose proof (ticket_63 t Ht) as Hct.
  assert (forall s h, pdeq_at i t h -> wp i (dequeue_after n DeqTicketI t) (Q i) (s, h)) as Hafter.
  { intros s1 h1 H1. apply scqp_dequeue_after; [done|]. by apply (pdeq_at_drew i t). }
  set (P := fun h => (holds i t h /\ untaken i t h) /\ pdeq_at i t h).
  assert (stable i (fun _ => P)) as HP by (unfold P; stab).
  assert (forall r s h, P h -> wp i (Ret (inl (DeqSlotI t r))) (Q i) (s, h)) as Hagain.
  { intros r' s' h' [[]]. by apply scqp_done. }
  apply (scqp_quiet i P); [by intros; apply load_i_same|done|done|].
  clear s h Hd Hh Hu. intros s h HPh HI. rewrite load_entry_i_eq by done. cbn [fst snd].
  destruct (inv_entry_i s h t HI) as (cells & Hw & HR & _ & _ & Hc & ->).
  assert (forall b v, cells !!! slot t = mkCell (t / n) b (Some v) -> PutAt t v ∈ events h) as Hput.
  { intros b v Hv. by apply (ri_cell _ _ _ _ _ HR t b). }
  set (c := cells !!! slot t) in *. clearbody c. rewrite enci_older by done.
  destruct (enci_words t c Hc) as (-> & -> & Hidx). destruct (Z.eqb_spec (cyc c) (t / n)) as [Heq|Hne].
  - destruct Hidx as [[-> _]|(-> & -> & v & Ev)]; [apply Hafter, HPh|].
    destruct (safe c) eqn:Es; cbn [negb].
    + destruct HPh as [[Hh Hu] Hd]. apply (scqp_consume_index i t v); [by apply Hc|done|done|done|].
      apply (Hput true). destruct c. simpl in *. by subst.
    + destruct (_ <? _)%nat; [apply Hafter, HPh|by apply Hagain].
  - rewrite cycle_less_spec by (done || apply Hc).
    destruct (Z.ltb_spec (cyc c) (t / n)) as [Hlt|]; [|apply Hafter, HPh]. cbn [bind atomic].
    apply (wp_silent _ _ _ i (fun _ => P)); [done|done|].
    clear Hput Hidx HI HR Hw cells s h HPh. intros s h s2 ok HPh HI.
    rewrite cas2_entry_i_eq by done. case_decide as Hcas; intros [= <- <-] _; cbn [negb].
    + split_and!; [apply grant_same| |apply Hafter, HPh].
      destruct (inv_entry_i s h t HI) as (cells & Hw & HR & He & Ha & Hc' & Hl).
      rewrite Hl in Hcas. destruct (enci_same t _ _ Hc' Hc Hcas) as (H1 & _).
      rewrite <- (enci_older t c) by done. rewrite <- Hcas, enci_older by done.
      apply (inv_write_i s h h t cells); [done|done|done|by apply wf_older_cell|done|apply HI|].
      apply (ring_older n scqp_ring); [done|lia|done].
    + split_and!; [apply grant_same|done|by apply Hagain].
Qed.

End index_mode.

(** ** The outline *)

Lemma scqp_outline :
  proof_outline entry (body n bt fb) scqp_inv scqp_grant scqp_ok scqp_loop scqp_good.
Proof.
  split.
  - intros i o s h HI _ (Hcall & _ & _). split_and!; [by apply grant_plain|by apply scqp_inv_other|].
    apply Forall_app in Hcall as [_ Hcall]. rewrite Forall_singleton in Hcall.
    destruct o as [v|]; simpl in *; rewrite ?opview_call, ?decide_True by done; [done|].
    exists [], []. by rewrite opview_call, decide_True.
  - intros i r s h HI _. split; [by apply grant_plain|by apply scqp_inv_other].
  - intros i [p|p|p t|p|p t| | |t r| |t r|] s h HL _.
    + by apply scqp_enqueue_entry.
    + destruct HL as (Hf & Hv & Hd). by apply (scqp_enqueue_ticket i p).
    + apply scqp_enqueue_ptr; [apply HL|done].
    + destruct HL as (Hf & Hv & Hd). by apply (scqp_enqueue_ticket i p).
    + apply scqp_enqueue_index; [apply HL|done].
    + by apply scqp_dequeue_entry.
    + destruct HL as [Hf Hd]. by apply scqp_dequeue_ticket.
    + apply scqp_dequeue_ptr; [apply HL|done].
    + destruct HL as [Hf Hd]. by apply scqp_dequeue_ticket.
    + apply scqp_dequeue_index; [apply HL|done].
    + by apply scqp_fixState.
Qed.

Lemma scqp_inv_new : scqp_inv (SCQP_new n fb) [].
Proof.
  pose proof (size_lit k Hk). unfold SCQP_new.
  rewrite !u64_small by (unfold is_u64, two64; lia). split; [|split; [split|simpl; unfold two64; lia]].
  - exists (replicate (Z.to_nat n) (mkCell 0 true None)). split_and!.
    + unfold slots_ok. destruct fb; simpl; [|by apply enc_list_replicate]. split; [by apply enc_list_replicate|].
      split; simpl; rewrite ?length_replicate; [done| |done|].
      * intros j Hj. by rewrite lookup_total_replicate_2.
      * intros t v Hin. by apply elem_of_nil in Hin.
    + apply Forall_replicate. split; [done|]. by intros v.
    + apply ring_start, scqp_ring.
  - intros i t v Hin. by apply elem_of_nil in Hin.
  - intros h1 i t v h2 E. by destruct h1.
Qed.

End conc.

(** ** Theorems *)

(** The pointer of ticket [t] is in the slot of [t], under the cycle of [t]; in the
    fallback its word of [ptr_array_] may be on its way to the dequeuer. *)
Definition stored (n : Z) (fb : bool) (s : state) (es : list tev) (t p : Z) : Prop :=
  exists b,
    if fb then
      entries_i_ s !!! slot_of n t = mkEntry (pack_cycle_flags (t / n) b) (Z.of_nat (slot_of n t)) /\
      (ptr_array_ s !!! slot_of n t = p \/ TakePtr t p ∈ es)
    else entries_p_ s !!! slot_of n t = mkEntryP (pack_cycle_flags (t / n) b) p.

Lemma slots_stored k fb s cells h t v b :
  2 <= k <= 60 -> slots_ok k fb s cells h -> (slot_of (size k) t < length cells)%nat ->
  cells !!! slot_of (size k) t = mkCell (t / size k) b (Some v) -> PutAt t v ∈ events h ->
  stored (size k) fb s (events h) t v.
Proof.
  intros Hk Hsl Hlt Hc Hp. exists b. unfold slots_ok in Hsl. destruct fb.
  - destruct Hsl as [He Ha]. split; [rewrite (proj2 He), Hc by done; done|].
    destruct (ao_pub _ _ _ Ha t v Hp) as [[j Ho]|]; [left|by right].
    apply (array_word k Hk _ _ _ _ Ha Ho).
  - rewrite (proj2 Hsl), Hc by done. done.
Qed.

Lemma scqp_reach_inv k fb threads cfg :
  2 <= k <= 60 ->
  reach entry (body (size k) (bot k) fb) scqp_ok (SCQP_new (size k) fb) threads cfg ->
  NoDup (get_tickets (events (hist cfg))) /\
  (forall t v, GetAt t v ∈ events (hist cfg) -> PutAt t v ∈ events (hist cfg)) /\
  Forall (fun '(o, es, r) => tgood valid_ptr 0 preject o (ticks es) r) (completed (hist cfg)).
Proof.
  intros Hk Hreach.
  destruct (rg_adequacy _ _ _ _ _ _ _ (scqp_outline k fb Hk) _ _ _
    (fun i c => grant_same k fb i c.1 c.1 c.2) (scqp_inv_new k fb Hk) Hreach)
    as ([(cells & Hsl & Hw & HR) _] & _ & Hgood).
  pose proof HR as []. split_and!; try done.
  intros t v Hin. apply elem_events in Hin as [i Hin]. by apply (ri_get i t v).
Qed.

(** C4. Safety of [SCQP<T>] in both modes under every interleaving: any number
    of threads run [enqueue] and [dequeue] on a new queue, with any spurious
    failures, while the counters stay below [2^64].  (1) No ticket is used for
    two pointers and no pointer is consumed twice; (2) every consumed pointer was
    stored with the same ticket; (3) every stored pointer is consumed or is still
    in the slot of its ticket, also when slot and array are written one after the
    other; (4) dequeue tickets are drawn consecutively and enqueue tickets in
    increasing order; (5) every completed operation did on the ring exactly what
    its result says: [true] for one stored pointer, a pointer for one consumed
    pointer, [false] and [nullptr] for none, and [nullptr] is never stored. *)
Theorem scqp_concurrent_safe k fb threads cfg :
  2 <= k <= 60 ->
  reach entry (body (size k) (bot k) fb) scqp_ok (SCQP_new (size k) fb) threads cfg ->
  let es := events (hist cfg) in
  (NoDup (put_tickets es) /\ NoDup (get_tickets es)) /\
  (forall t v, GetAt t v ∈ es -> PutAt t v ∈ es) /\
  (forall t v, PutAt t v ∈ es -> GetAt t v ∈ es \/ stored (size k) fb (shared cfg) es t v) /\
  (head_tickets es = seqZ (size k) (head_ (shared cfg) - size k) /\
   StronglySorted Z.lt (tail_tickets es)) /\
  Forall (fun '(o, es, r) => tgood valid_ptr 0 preject o (ticks es) r) (completed (hist cfg)).
Proof.
  intros Hk Hreach es.
  destruct (rg_adequacy _ _ _ _ _ _ _ (scqp_outline k fb Hk) _ _ _
    (fun i c => grant_same k fb i c.1 c.1 c.2) (scqp_inv_new k fb Hk) Hreach)
    as ([(cells & Hsl & Hw & HR) _] & _ & Hgood).
  pose proof HR as []. split_and!; try done.
  - intros t v Hin. apply elem_events in Hin as [i Hin]. by apply (ri_get i t v).
  - intros t v Hin. destruct (ri_put t v Hin) as [_ [?|[b Hc]]]; [by left|right].
    apply (slots_stored k fb _ cells _ _ _ b); [done|done| |done|done].
    apply (pcells_lookup k Hk _ _ _ _ t Hw HR).
  - apply ri_tails.
Qed.

(** Three threads on a ring of four slots.  The second enqueuer overtakes the
    first; the dequeuer finds the slot of its first ticket empty and comes back
    with the next one. *)
Definition scqp_demo_schedule : list (nat * move (qop Z)) :=
  [(0%nat, Call (OpEnq 1)); (1%nat, Call (OpEnq 2))] ++ go 0 5 ++ go 1 11 ++
  [(2%nat, Call OpDeq)] ++ go 2 16.

Definition scqp_demo : config :=
  outcome entry (body 4 3 true) (SCQP_new 4 true) 3 scqp_demo_schedule.

Lemma scqp_concurrent_safe_witness :
  completed (hist scqp_demo) =
    [(OpEnq 2, [TakeTail 5; HoldPtr 5 2; PutAt 5 2], RBool true);
     (OpDeq, [TakeHead 4; TakeHead 5; TakePtr 5 2; GetAt 5 2], RVal 2)] /\
  Forall (fun '(o, es, r) => tgood valid_ptr 0 preject o (ticks es) r) (completed (hist scqp_demo)).
Proof.
  split; [vm_compute; reflexivity|].
  apply (scqp_concurrent_safe 2 true 3 scqp_demo); [lia|].
  apply (outcome_reach entry (body (size 2) (bot 2) true) _ scqp_okb).
  - intros s h. apply scqp_okb_ok.
  - vm_compute. reflexivity.
Defined.

(** *** A pointer that is abandoned *)

(** A pointer whose ticket was drawn by an operation that is over and did not
    consume it is never consumed. *)
Lemma scqp_abandoned k fb threads cfg h l i t v :
  2 <= k <= 60 ->
  reach entry (body (size k) (bot k) fb) scqp_ok (SCQP_new (size k) fb) threads cfg ->
  hist cfg = h ++ l -> opview i h = None -> HLin i (TakeHead t) ∈ h -> t ∉ get_tickets (events h) ->
  GetAt t v ∉ events (hist cfg).
Proof.
  intros Hk Hreach Hh Hi Ht Hg Hin.
  destruct (rg_adequacy _ _ _ _ _ _ _ (scqp_outline k fb Hk) _ _ _
    (fun i c => grant_same k fb i c.1 c.1 c.2) (scqp_inv_new k fb Hk) Hreach)
    as ([(cells & _ & _ & HR) [[_ Hins] _]] & _ & _).
  rewrite Hh in *. apply elem_events in Hin as [j Hin].
  destruct (ri_get _ _ _ _ _ HR _ _ _ Hin) as [_ Hj].
  assert (HLin i (TakeHead t) ∈ h ++ l) as Hi' by (apply elem_of_app; by left).
  rewrite <- (ri_owner _ _ _ _ _ HR i j t Hi' Hj) in Hin. clear j Hj.
  apply elem_of_app in Hin as [Hin|Hin].
  { apply Hg, elem_get_tickets. exists v. apply elem_events. by exists i. }
  apply list_elem_of_split in Hin as (l1 & l2 & ->).
  destruct (Hins (h ++ l1) i t v l2) as (o & es & Hv & He); [by rewrite <- app_assoc|].
  pose proof (opview_since i h l1 o es _ Hi Hv He) as Hl.
  pose proof (ri_heads _ _ _ _ _ HR) as Hnd.
  assert (NoDup (head_tickets (events (h ++ l1 ++ HLin i (GetAt t v) :: l2)))) as Hdup
    by (rewrite Hnd; apply NoDup_seqZ).
  rewrite events_app, head_tickets_app in Hdup. apply list.NoDup_app in Hdup as (_ & Hdis & _).
  apply (Hdis t); apply elem_head_tickets, elem_events; exists i; [done|].
  apply elem_of_app. by left.
Qed.

(** Thread 0 draws ticket 4 on the empty ring and is delayed; thread 1 stores a
    pointer with ticket 4 and returns; four dequeues by thread 2 draw the tickets
    up to 8, one lap later, and the last marks the slot unsafe; thread 0 gives up
    after 1024 retries. *)
Definition scqp_lost_schedule (fb : bool) : list (nat * move (qop Z)) :=
  [(0%nat, Call OpDeq)] ++ go 0 4 ++ [(1%nat, Call (OpEnq 1))] ++ go 1 (if fb then 11 else 10) ++
  concat (replicate 4 ((2%nat, Call OpDeq) :: go 2 9)) ++ go 0 2052.

Definition scqp_lost (fb : bool) : config :=
  outcome entry (body 4 3 fb) (SCQP_new 4 fb) 3 (scqp_lost_schedule fb).

Lemma scqp_lost_reach fb :
  visits entry (body 4 3 fb) scqp_okb (scqp_lost_schedule fb) (start (SCQP_new 4 fb) 3) = true.
Proof. destruct fb; vm_compute; reflexivity. Qed.

(** C26. The limit on the retries of the inner loop of [dequeue] loses a pointer,
    in both modes: after the schedule above every operation has returned, the
    pointer was accepted, five dequeues that ended after it have returned
    [nullptr] and [is_empty] is false in this state; in no continuation, whatever
    the threads do, is the pointer of ticket 4 ever returned. *)
Theorem scqp_lost_element fb :
  ((fun '(o, es, r) => (o, ticks es, r)) <$> completed (hist (scqp_lost fb))) =
    [(OpEnq 1, [TakeTail 4; PutAt 4 1], RBool true);
     (OpDeq, [TakeHead 5], RVal 0); (OpDeq, [TakeHead 6], RVal 0);
     (OpDeq, [TakeHead 7], RVal 0); (OpDeq, [TakeHead 8], RVal 0);
     (OpDeq, [TakeHead 4], RVal 0)] /\
  (forall i, opview i (hist (scqp_lost fb)) = None) /\
  is_empty (shared (scqp_lost fb)) = false /\
  forall ms c v, visits entry (body 4 3 fb) scqp_okb ms (scqp_lost fb) = true ->
    scheds entry (body 4 3 fb) ms (scqp_lost fb) = Some c -> GetAt 4 v ∉ events (hist c).
Proof.
  assert (reach entry (body 4 3 fb) scqp_ok (SCQP_new 4 fb) 3 (scqp_lost fb)) as Hreach.
  { apply (outcome_reach entry (body 4 3 fb) _ scqp_okb); [apply scqp_okb_ok|apply scqp_lost_reach]. }
  assert (forall i, opview i (hist (scqp_lost fb)) = None) as Hidle.
  { intros i. destruct (decide (3 <= i)%nat) as [Hi|Hi].
    - by apply (opview_range entry (body 4 3 fb) scqp_ok (SCQP_new 4 fb) 3 (scqp_lost fb) i).
    - assert (i = 0 \/ i = 1 \/ i = 2)%nat as [-> | [-> | ->]] by lia; destruct fb; vm_compute; reflexivity. }
  split_and!; [destruct fb; vm_compute; reflexivity|done|destruct fb; vm_compute; reflexivity|].
  intros ms c v Hv Hs.
  assert (exists l, hist c = hist (scqp_lost fb) ++ l) as [l Hl] by by eapply scheds_hist.
  apply (scqp_abandoned 2 fb 3 c (hist (scqp_lost fb)) l 0 4 v); [lia| |done|done| |].
  - apply (scheds_reach entry (body 4 3 fb) _ scqp_okb _ _ ms (scqp_lost fb)); [apply scqp_okb_ok|done..].
  - apply (list_elem_of_lookup_2 _ 1). destruct fb; vm_compute; reflexivity.
  - assert (get_tickets (events (hist (scqp_lost fb))) = []) as -> by (destruct fb; vm_compute; reflexivity).
    apply not_elem_of_nil.
Qed.
