(* ===== verification/Pool.v ===== *)
(** * Pool: the sharded object pool

    Models [detail::ObjectPoolShard<T>], [detail::ObjectPoolCore<T>] and
    [ObjectPool<T>] ([include/lscq/detail/object_pool_shard.hpp],
    [include/lscq/detail/object_pool_core.hpp], [include/lscq/object_pool.hpp]).
    Objects are addresses, [nullptr] is [0].  A critical section under a shard
    mutex is one access; a [try_to_lock] may fail at any time, also without
    contention.  The factory and the destructor of the objects belong to the
    client: they are parameters that act on the client's state [F] (for [LSCQ]
    the heap of its nodes).

    [PTake], [PMake], [PStore] and [PDrop] annotate the objects that leave a
    shard, are made by the factory, enter a shard and are deleted by the pool. *)

From Stdlib Require Import ZArith Lia.
From stdpp Require Import base list numbers option.
From S2P Require Import Prelude Conc.

Local Open Scope Z_scope.

(** ** One shard *)

Record Shard := mkShard {
  objects : list Z;
  approx_size : Z
}.

#[global] Instance Shard_inhabited : Inhabited Shard := populate (mkShard [] 0).

(** [count] times [objects.back()], [objects.pop_back()]: the rest of the vector
    and what was popped, in the order of [out]. *)
Fixpoint pop_back_n (count : nat) (l : list Z) : list Z * list Z :=
  match count with
  | O => (l, [])
  | S count =>
      match list.last l with
      | Some x =>
          let '(rest, out) := pop_back_n count (removelast l) in (rest, x :: out)
      | None => (l, [])
      end
  end.

(** [GetBatch]: the body under the lock. *)
Definition GetBatch (out_null : bool) (max_count : nat) (sh : Shard) : Shard * list Z :=
  if out_null || (max_count =? 0)%nat then (sh, [])
  else
    let available := length (objects sh) in
    let count := Nat.min max_count available in
    let '(rest, out) := pop_back_n count (objects sh) in
    (mkShard rest (if (0 <? count)%nat then sub64 (approx_size sh) (Z.of_nat count)
                   else approx_size sh), out).

Definition PutBatch (items_null : bool) (items : list Z) (sh : Shard) : Shard * list Z :=
  if items_null || (length items =? 0)%nat then (sh, [])
  else
    let kept := filter (fun x => x <> 0) items in
    let stored := Z.of_nat (length kept) in
    (mkShard (objects sh ++ kept)
       (if 0 <? stored then add64 (approx_size sh) stored else approx_size sh), kept).

(** [TryStealBatch], when [try_to_lock] answered [owns_lock]. *)
Definition TryStealBatch (out_null owns_lock : bool) (max_count : nat) (sh : Shard) :
    Shard * list Z :=
  if out_null || (max_count =? 0)%nat then (sh, [])
  else if negb owns_lock || (length (objects sh) =? 0)%nat then (sh, [])
  else
    let available := length (objects sh) in
    let count := Nat.min max_count available in
    let '(rest, out) := pop_back_n count (objects sh) in
    (mkShard rest (if (0 <? count)%nat then sub64 (approx_size sh) (Z.of_nat count)
                   else approx_size sh), out).

(** The critical section of [TryPopFromShard]: [0] for an empty shard. *)
Definition pop_object (sh : Shard) : Shard * Z :=
  match list.last (objects sh) with
  | None => (sh, 0)
  | Some x => (mkShard (removelast (objects sh)) (sub64 (approx_size sh) 1), x)
  end.

(** The critical section of [PutToShard]. *)
Definition push_object (obj : Z) (sh : Shard) : Shard * unit :=
  (mkShard (objects sh ++ [obj]) (add64 (approx_size sh) 1), tt).

(** The critical section of [ClearShared]. *)
Definition clear_objects (sh : Shard) : Shard * list Z := (mkShard [] 0, objects sh).

(** The object at an address, when it is not null. *)
Definition one (x : Z) : list Z := if x =? 0 then [] else [x].

(** ** The core *)

Inductive pev : Type :=
| PTake (x : Z)
| PMake (x : Z)
| PStore (x : Z)
| PDrop (x : Z).

Section core.
Context {F : Type}.
(** [factory_] may be an empty [std::function]. *)
Context (factory_ : option (F -> F * Z)) (destroy : Z -> F -> F).

Record pool := mkPool {
  shards_ : list Shard;
  client : F
}.

(** The constructor: at least one shard. *)
Definition ObjectPoolCore_new (shard_count : nat) (f : F) : pool :=
  mkPool (replicate (Nat.max 1 shard_count) (mkShard [] 0)) f.

(** [DefaultShardCount], for a given [hardware_concurrency()]. *)
Definition DefaultShardCount (hc : nat) : nat := (Nat.max 1 hc * 2)%nat.

(** The number of shards never changes. *)
Context (nshards : nat).

(** [CurrentShardIndex], for the hash of the calling thread. *)
Definition CurrentShardIndex (hash : nat) : nat := (hash mod nshards)%nat.

Definition prog_p (R : Type) := prog pool pev R.

Definition on_shard {X : Set} (i : nat) (f : Shard -> Shard * X) (p : pool) : pool * X :=
  let '(sh, x) := f (shards_ p !!! i) in
  (mkPool (<[i := sh]> (shards_ p)) (client p), x).

Definition took (x : Z) : list pev := if x =? 0 then [] else [PTake x].

Definition TryPopFromShard (shard_index : nat) : prog_p Z :=
  atomic_lin (on_shard shard_index pop_object) took.

Definition TryStealFromShard (shard_index : nat) : prog_p Z :=
  (let! owns_lock := choose in
   if (owns_lock : bool) then atomic_lin (on_shard shard_index pop_object) took else Ret 0)%prog.

Definition PutToShard (shard_index : nat) (obj : Z) : prog_p unit :=
  atomic_lin (on_shard shard_index (push_object obj)) (fun _ => [PStore obj]).

Definition call_factory (p : pool) : pool * Z :=
  match factory_ with
  | None => (p, 0)
  | Some make => let '(f, x) := make (client p) in (mkPool (shards_ p) f, x)
  end.

Fixpoint GetShared_steal (shard_index : nat) (ns : list nat) : prog_p Z :=
  match ns with
  | [] =>
      match factory_ with
      | Some _ => atomic_lin call_factory (fun x => [PMake x])
      | None => Ret 0
      end
  | k :: ns =>
      (let other := ((shard_index + k) mod nshards)%nat in
       let! stolen := TryStealFromShard other in
       if negb (stolen =? 0) then Ret stolen else GetShared_steal shard_index ns)%prog
  end.

Definition GetShared (hash : nat) : prog_p Z :=
  (let shard_index := CurrentShardIndex hash in
   let! from_local := TryPopFromShard shard_index in
   if negb (from_local =? 0) then Ret from_local
   else GetShared_steal shard_index (seq 1 (nshards - 1)%nat))%prog.

(** [GetSharedBatch]: [got] are the objects written to [out] so far. *)
Fixpoint GetSharedBatch_steal (shard_index max_count : nat) (ns : list nat) (got : list Z) :
    prog_p (list Z) :=
  match ns with
  | [] => Ret got
  | k :: ns =>
      if (length got <? max_count)%nat then
        (let other := ((shard_index + k) mod nshards)%nat in
         let! owns_lock := choose in
         let! out := atomic_lin
           (on_shard other (TryStealBatch false owns_lock (max_count - length got)%nat)) (fmap PTake) in
         GetSharedBatch_steal shard_index max_count ns (got ++ out))%prog
      else Ret got
  end.

Definition GetSharedBatch (hash : nat) (out_null : bool) (max_count : nat) : prog_p (list Z) :=
  if out_null || (max_count =? 0)%nat then Ret []
  else
    (let shard_index := CurrentShardIndex hash in
     let! out := atomic_lin (on_shard shard_index (GetBatch false max_count)) (fmap PTake) in
     if (length out =? max_count)%nat then Ret out
     else GetSharedBatch_steal shard_index max_count (seq 1 (nshards - 1)%nat) out)%prog.

Definition PutShared (hash : nat) (obj : Z) : prog_p unit :=
  if obj =? 0 then Ret tt else PutToShard (CurrentShardIndex hash) obj.

Definition PutSharedBatch (hash : nat) (objs_null : bool) (objs : list Z) : prog_p unit :=
  if objs_null || (length objs =? 0)%nat then Ret tt
  else
    (let! _ := atomic_lin (on_shard (CurrentShardIndex hash) (PutBatch false objs)) (fmap PStore) in
     Ret tt)%prog.

(** [objects.clear()] deletes the objects. *)
Definition clear_shard (i : nat) (p : pool) : pool * list Z :=
  let '(sh, xs) := clear_objects (shards_ p !!! i) in
  (mkPool (<[i := sh]> (shards_ p)) (foldl (fun f x => destroy x f) (client p) xs), xs).

Fixpoint ClearShared_from (idxs : list nat) : prog_p unit :=
  match idxs with
  | [] => Ret tt
  | i :: idxs => (do! atomic_lin (clear_shard i) (fmap PDrop); ClearShared_from idxs)%prog
  end.

Definition ClearShared : prog_p unit := ClearShared_from (seq 0 nshards).

Fixpoint SizeApprox_from (idxs : list nat) (total : Z) : prog_p Z :=
  match idxs with
  | [] => Ret total
  | i :: idxs =>
      (let! a := atomic (fun p => (p, approx_size (shards_ p !!! i))) in
       SizeApprox_from idxs (add64 total a))%prog
  end.

Definition SizeApprox : prog_p Z := SizeApprox_from (seq 0 nshards) 0.

(** ** The public interface of [ObjectPool] and the batch operations of the core *)

Inductive pool_op : Set :=
| OpGet (hash : nat)
| OpPut (hash : nat) (obj : Z)
| OpGetBatch (hash : nat) (out_null : bool) (max_count : nat)
| OpPutBatch (hash : nat) (objs_null : bool) (objs : list Z)
| OpClear
| OpSize.

Inductive pool_res : Set :=
| RUnit
| RPtr (x : Z)
| RPtrs (xs : list Z)
| RSize (n : Z).

Definition Get (hash : nat) : prog_p Z := GetShared hash.

Definition Put (hash : nat) (obj : Z) : prog_p unit := PutShared hash obj.

Definition Clear : prog_p unit := ClearShared.

Definition Size : prog_p Z := SizeApprox.

Definition body (o : pool_op) : prog_p (pool_op + pool_res) :=
  match o with
  | OpGet hash => (let! x := Get hash in Ret (inr (RPtr x)))%prog
  | OpPut hash obj => (do! Put hash obj; Ret (inr RUnit))%prog
  | OpGetBatch hash out_null m => (let! xs := GetSharedBatch hash out_null m in Ret (inr (RPtrs xs)))%prog
  | OpPutBatch hash objs_null objs => (do! PutSharedBatch hash objs_null objs; Ret (inr RUnit))%prog
  | OpClear => (do! Clear; Ret (inr RUnit))%prog
  | OpSize => (let! n := Size in Ret (inr (RSize n)))%prog
  end.

End core.

Arguments pool F : clear implicits.
