(* ===== verification/PoolProofs.v ===== *)
(** * PoolProofs: ownership in the object pool

    Every object that leaves a shard was stored before, and is handed out or
    deleted once per time it was stored, in every interleaving of the pool's
    operations.  The sizes the shards announce are exact. *)

From stdpp Require Import base list numbers option.
From Stdlib Require Import ZArith Lia.
From S2P Require Import Prelude Conc Pool.

Local Open Scope Z_scope.

(** ** Events *)

Definition takes (es : list pev) : list Z :=
  omap (fun e => match e with PTake x => Some x | _ => None end) es.

Definition stores (es : list pev) : list Z :=
  omap (fun e => match e with PStore x => Some x | _ => None end) es.

Definition drops (es : list pev) : list Z :=
  omap (fun e => match e with PDrop x => Some x | _ => None end) es.

Lemma takes_app es fs : takes (es ++ fs) = takes es ++ takes fs.
Proof. apply omap_app. Qed.

Lemma stores_app es fs : stores (es ++ fs) = stores es ++ stores fs.
Proof. apply omap_app. Qed.

Lemma drops_app es fs : drops (es ++ fs) = drops es ++ drops fs.
Proof. apply omap_app. Qed.

Lemma takes_take xs : takes (PTake <$> xs) = xs /\ stores (PTake <$> xs) = [] /\ drops (PTake <$> xs) = [].
Proof. unfold takes, stores, drops. induction xs as [|x xs (? & ? & ?)]; [done|]. csimpl. split_and!; by f_equal. Qed.

Lemma stores_store xs :
  takes (PStore <$> xs) = [] /\ stores (PStore <$> xs) = xs /\ drops (PStore <$> xs) = [].
Proof. unfold takes, stores, drops. induction xs as [|x xs (? & ? & ?)]; [done|]. csimpl. split_and!; by f_equal. Qed.

Lemma drops_drop xs : takes (PDrop <$> xs) = [] /\ stores (PDrop <$> xs) = [] /\ drops (PDrop <$> xs) = xs.
Proof. unfold takes, stores, drops. induction xs as [|x xs (? & ? & ?)]; [done|]. csimpl. split_and!; by f_equal. Qed.

Lemma stores_one x : stores (took x) = [] /\ takes (took x) = one x /\ drops (took x) = [].
Proof. unfold took, one. by destruct (x =? 0). Qed.

(** ** One shard *)

Definition shard_ok (sh : Shard) : Prop :=
  Forall (fun x => x <> 0) (objects sh) /\ approx_size sh = u64 (Z.of_nat (length (objects sh))).

(** A critical section with events [es] moves exactly the objects it announces. *)
Definition shard_step (sh sh' : Shard) (es : list pev) : Prop :=
  stores es ++ objects sh ≡ₚ takes es ++ drops es ++ objects sh' /\ (shard_ok sh -> shard_ok sh').

Lemma u64_sub_len a b : sub64 (u64 a) b = u64 (a - b).
Proof. unfold sub64, u64. apply Zminus_mod_idemp_l. Qed.

Lemma u64_add_len a b : add64 (u64 a) b = u64 (a + b).
Proof. unfold add64, u64. apply Zplus_mod_idemp_l. Qed.

Lemma removelast_snoc {A} (l : list A) x : removelast (l ++ [x]) = l.
Proof. by rewrite removelast_app, app_nil_r by done. Qed.

Lemma pop_object_step sh : let '(sh', x) := pop_object sh in
  shard_step sh sh' (took x) \/ (x = 0 /\ 0 ∈ objects sh).
Proof.
  unfold pop_object. destruct (list.last (objects sh)) as [x|] eqn:E.
  - apply last_Some in E as [l E]. rewrite E, removelast_snoc. unfold took.
    destruct (Z.eqb_spec x 0) as [->|Hne]; [right; split; [done|]; apply elem_of_app; right; by apply list_elem_of_singleton|].
    left. split; simpl; [by rewrite E, Permutation_app_comm|].
    intros [Hf Ha]. rewrite E in Hf, Ha. apply Forall_app in Hf as [Hf _]. split; [done|].
    simpl. rewrite Ha, u64_sub_len, length_app. simpl. f_equal. lia.
  - left. by split.
Qed.

Lemma pop_object_ok sh sh' x :
  shard_ok sh -> pop_object sh = (sh', x) -> shard_step sh sh' (took x).
Proof.
  intros [Hf _] Hp. pose proof (pop_object_step sh) as H. rewrite Hp in H.
  destruct H as [?|[_ H0]]; [done|]. by destruct (proj1 (list.Forall_forall _ _) Hf 0 H0).
Qed.

Lemma pop_back_n_perm count l :
  let '(rest, out) := pop_back_n count l in l ≡ₚ out ++ rest /\ length out = Nat.min count (length l).
Proof.
  revert l. induction count as [|count IH]; intros l; cbn [pop_back_n]; [done|].
  destruct (list.last l) as [x|] eqn:E.
  - apply last_Some in E as [l' ->]. rewrite removelast_snoc. specialize (IH l').
    destruct (pop_back_n count l') as [rest out]. destruct IH as [Hp Hl]. split.
    + rewrite Permutation_app_comm. simpl. by rewrite Hp.
    + cbn [length]. rewrite Hl, length_app. cbn [length]. lia.
  - apply last_None in E as ->. done.
Qed.

(** Popping a batch, as [GetBatch] and [TryStealBatch] do under the lock. *)
Lemma pop_batch_step m sh rest out :
  pop_back_n (Nat.min m (length (objects sh))) (objects sh) = (rest, out) ->
  let c := Nat.min m (length (objects sh)) in
  shard_step sh (mkShard rest (if (0 <? c)%nat then sub64 (approx_size sh) (Z.of_nat c) else approx_size sh))
    (PTake <$> out) /\ length out = c.
Proof.
  intros E c. pose proof (pop_back_n_perm c (objects sh)) as H. fold c in E. rewrite E in H.
  destruct H as [Hp Hl]. assert (length out = c) as Hlen by lia. split; [|done].
  destruct (takes_take out) as (T1 & T2 & T3). split; rewrite ?T1, ?T2, ?T3; simpl; [done|].
  intros [Hf Ha]. rewrite Hp in Hf. apply Forall_app in Hf as [_ Hf]. split; [done|]. simpl.
  assert (length (objects sh) = length out + length rest)%nat as Hlr
    by (rewrite Hp, length_app; done).
  destruct (Nat.ltb_spec 0 c).
  - rewrite Ha, u64_sub_len. f_equal. lia.
  - rewrite Ha. do 2 f_equal. lia.
Qed.

Lemma GetBatch_step out_null m sh sh' out :
  GetBatch out_null m sh = (sh', out) ->
  shard_step sh sh' (PTake <$> out) /\ (length out <= m)%nat.
Proof.
  unfold GetBatch. destruct (out_null || (m =? 0)%nat).
  { intros [= <- <-]. split; [by split|simpl; lia]. }
  destruct (pop_back_n _ _) as [rest out'] eqn:E. intros [= <- <-].
  destruct (pop_batch_step m sh rest out' E) as [Hs Hl]. split; [done|lia].
Qed.

Lemma TryStealBatch_step out_null owns m sh sh' out :
  TryStealBatch out_null owns m sh = (sh', out) ->
  shard_step sh sh' (PTake <$> out) /\ (length out <= m)%nat.
Proof.
  unfold TryStealBatch. destruct (out_null || (m =? 0)%nat).
  { intros [= <- <-]. split; [by split|simpl; lia]. }
  destruct (negb owns || _). { intros [= <- <-]. split; [by split|simpl; lia]. }
  destruct (pop_back_n _ _) as [rest out'] eqn:E. intros [= <- <-].
  destruct (pop_batch_step m sh rest out' E) as [Hs Hl]. split; [done|lia].
Qed.

Lemma taken_nonzero sh sh' out :
  shard_ok sh -> shard_step sh sh' (PTake <$> out) -> Forall (fun x => x <> 0) out.
Proof.
  intros [Hf _] [Hs _]. destruct (takes_take out) as (T1 & T2 & T3). rewrite T1, T2, T3 in Hs.
  simpl in Hs. rewrite Hs in Hf. by apply Forall_app in Hf as [? _].
Qed.

Lemma push_object_step x sh : x <> 0 -> shard_step sh (push_object x sh).1 [PStore x].
Proof.
  intros Hx. split; simpl; [by rewrite Permutation_app_comm|].
  intros [Hf Ha]. split; simpl.
  - apply Forall_app. split; [done|]. by rewrite Forall_singleton.
  - rewrite Ha, u64_add_len, length_app. simpl. f_equal. lia.
Qed.

Lemma PutBatch_step items sh sh' kept :
  PutBatch false items sh = (sh', kept) ->
  kept = filter (fun x => x <> 0) items /\ shard_step sh sh' (PStore <$> kept).
Proof.
  unfold PutBatch. simpl. destruct (Nat.eqb_spec (length items) 0) as [H0|H0].
  { intros [= <- <-]. destruct items; [|done]. split; [done|]. by split. }
  intros [= <- <-]. split; [done|]. set (kept := filter _ items).
  destruct (stores_store kept) as (T1 & T2 & T3). split; rewrite ?T1, ?T2, ?T3; simpl.
  - by rewrite Permutation_app_comm.
  - intros [Hf Ha]. split; simpl.
    + apply Forall_app. split; [done|]. apply list.Forall_forall. intros x Hx.
      unfold kept in Hx. by apply list_elem_of_filter in Hx as [? _].
    + rewrite length_app. destruct (Z.ltb_spec 0 (Z.of_nat (length kept))).
      * rewrite Ha, u64_add_len. f_equal. lia.
      * rewrite Ha. f_equal. lia.
Qed.

(** A step that moves [st], [tk] and [dr] between [old] and [new] extends a
    balance. *)
Lemma perm_exchange {A} (T D st tk dr old new : list A) :
  st ++ old ≡ₚ tk ++ dr ++ new ->
  (T ++ D ++ old) ++ st ≡ₚ (T ++ tk) ++ (D ++ dr) ++ new.
Proof. intros H. rewrite <- !app_assoc, (Permutation_app_comm old st), H. solve_Permutation. Qed.

(** ** The shards together *)

Definition stored (shs : list Shard) : list Z := concat (objects <$> shs).

Lemma stored_update shs i sh' :
  (i < length shs)%nat ->
  stored (<[i := sh']> shs) ++ objects (shs !!! i) ≡ₚ stored shs ++ objects sh'.
Proof.
  revert i. induction shs as [|sh shs IH]; intros [|i] Hi; simpl in *; try lia; unfold stored in *; simpl.
  - rewrite <- !app_assoc. rewrite (Permutation_app_comm (concat _) (objects sh)).
    rewrite (Permutation_app_comm (concat _) (objects sh')). rewrite !app_assoc.
    apply Permutation_app; [|done]. apply Permutation_app_comm.
  - rewrite <- !app_assoc. apply Permutation_app; [done|]. apply (IH i). lia.
Qed.

Lemma stored_new m : stored (replicate m (mkShard [] 0)) = [].
Proof. unfold stored. rewrite fmap_replicate. by induction m. Qed.

(** ** The operations of the core, whatever else happens *)

Section core_posts.
Context {F : Type} (factory_ : option (F -> F * Z)) (destroy : Z -> F -> F) (nshards : nat).
Hypothesis (Hns : (0 < nshards)%nat).

Definition pool_wf (p : pool F) : Prop :=
  length (shards_ p) = nshards /\ Forall shard_ok (shards_ p).

(** A step with events [es] moves exactly the objects it announces. *)
Definition core_step (p p' : pool F) (es : list pev) : Prop :=
  stores es ++ stored (shards_ p) ≡ₚ takes es ++ drops es ++ stored (shards_ p') /\ pool_wf p'.

Abbreviation posts := (posts pool_wf core_step).

(** What [GetShared] has done when it returns [x]. *)
Definition get_evs (x : Z) (ev : list pev) : Prop :=
  (x <> 0 /\ ev = [PTake x]) \/ (is_Some factory_ /\ ev = [PMake x]) \/
  (factory_ = None /\ x = 0 /\ ev = []).

Lemma mod_lt_shards x : (x mod nshards < nshards)%nat.
Proof. apply Nat.mod_upper_bound. lia. Qed.

Lemma core_step_none p es : pool_wf p -> stores es = [] -> takes es = [] -> drops es = [] -> core_step p p es.
Proof. intros Hp H1 H2 H3. split; [by rewrite H1, H2, H3|done]. Qed.

Lemma core_step_shard p i sh' es f :
  pool_wf p -> (i < nshards)%nat -> shard_step (shards_ p !!! i) sh' es ->
  core_step p (mkPool (<[i := sh']> (shards_ p)) f) es.
Proof.
  intros [Hl Hok] Hi [Hs Hok']. pose proof (stored_update (shards_ p) i sh' ltac:(lia)) as Hu. split.
  - simpl. apply (Permutation_app_inv_r (objects (shards_ p !!! i))). rewrite <- !app_assoc, Hu.
    rewrite (Permutation_app_comm (stored _)), app_assoc, Hs. solve_Permutation.
  - split; simpl; [by rewrite length_insert|]. apply Forall_insert; [done|].
    apply Hok'. apply Forall_lookup_total_1; [done|lia].
Qed.

(** A critical section on one shard. *)
Lemma posts_shard {A} (X : Set) idx (f : Shard -> Shard * X) ev (k : X -> prog (pool F) pev A) Q es :
  (idx < nshards)%nat ->
  (forall sh sh' x, shard_ok sh -> f sh = (sh', x) -> shard_step sh sh' (ev x)) ->
  (forall sh sh' x, shard_ok sh -> f sh = (sh', x) -> posts (k x) Q (es ++ ev x)) ->
  posts (Act X (on_shard idx f) ev k) Q es.
Proof.
  intros Hi Hf Hk. apply posts_act; intros p p' x Hp; unfold on_shard;
    destruct (f (shards_ p !!! idx)) as [sh' x'] eqn:E; intros [= <- <-].
  all: assert (shard_ok (shards_ p !!! idx)) by (destruct Hp; apply Forall_lookup_total_1; [done|lia]).
  2: by eauto.
  apply core_step_shard; [done|done|]. by apply (Hf (shards_ p !!! idx)).
Qed.

Lemma posts_get_steal idx ns es :
  posts (GetShared_steal factory_ nshards idx ns) (fun es' x => exists ev, es' = es ++ ev /\ get_evs x ev) es.
Proof.
  induction ns as [|m ns IH].
  - simpl. unfold get_evs. destruct factory_ as [make|] eqn:Ef.
    + apply posts_act; intros p p' x Hp Hc.
      * apply (core_step_none p [PMake x]) in Hp as [Hs Hw]; [|done..]. unfold call_factory in Hc.
        destruct (make (client p)) as [f y]. injection Hc as <- <-. by split.
      * exists [PMake x]. split; [done|]. right. left. split; [by eexists|done].
    + exists []. rewrite app_nil_r. split; [done|]. right. by right.
  - cbn [GetShared_steal]. unfold TryStealFromShard. simpl. intros [|]; simpl; [|by apply IH].
    apply posts_shard; [apply mod_lt_shards|apply pop_object_ok|]. intros sh sh' x _ _. unfold took.
    destruct (Z.eqb_spec x 0) as [->|Hx]; simpl; [by rewrite app_nil_r|].
    exists [PTake x]. split; [done|]. by left.
Qed.

Lemma posts_get hash es :
  posts (GetShared factory_ nshards hash) (fun es' x => exists ev, es' = es ++ ev /\ get_evs x ev) es.
Proof.
  unfold GetShared, TryPopFromShard. simpl.
  apply posts_shard; [apply mod_lt_shards|apply pop_object_ok|]. intros sh sh' x _ _. unfold took.
  destruct (Z.eqb_spec x 0) as [->|Hx]; simpl; [rewrite app_nil_r; apply posts_get_steal|].
  exists [PTake x]. split; [done|]. by left.
Qed.

Lemma posts_put hash x es :
  posts (PutShared (F := F) nshards hash x) (fun es' _ => es' = es ++ if x =? 0 then [] else [PStore x]) es.
Proof.
  unfold PutShared. destruct (Z.eqb_spec x 0) as [->|Hx]; simpl; [apply posts_ret; by rewrite app_nil_r|].
  apply posts_shard; [apply mod_lt_shards| |done].
  intros sh sh' [] _ E. pose proof (push_object_step x sh Hx) as Hs. by rewrite E in Hs.
Qed.

Lemma posts_get_batch_steal idx m ns got es :
  (length got <= m)%nat -> Forall (fun x => x <> 0) got ->
  posts (GetSharedBatch_steal (F := F) nshards idx m ns got)
    (fun es' xs => exists ys, xs = got ++ ys /\ es' = es ++ (PTake <$> ys) /\ (length xs <= m)%nat /\
       Forall (fun x => x <> 0) xs) es.
Proof.
  revert got es. induction ns as [|j ns IH]; intros got es Hl Hg; cbn [GetSharedBatch_steal].
  - exists []. by rewrite !app_nil_r.
  - destruct (Nat.ltb_spec (length got) m) as [Hlt|]; [|exists []; by rewrite !app_nil_r].
    simpl. intros b. apply posts_shard; [apply mod_lt_shards| |].
    { intros sh sh' out _ E. by apply TryStealBatch_step in E as [? _]. }
    intros sh sh' out Hok [Hs Hlo]%TryStealBatch_step.
    eapply posts_mono; [|apply IH; [rewrite length_app; lia|]].
    + intros es' xs (ys & -> & -> & Hle). exists (out ++ ys). by rewrite fmap_app, !app_assoc.
    + apply Forall_app. split; [done|]. by apply (taken_nonzero sh sh').
Qed.

Lemma posts_get_batch hash nul m es :
  posts (GetSharedBatch (F := F) nshards hash nul m)
    (fun es' xs => es' = es ++ (PTake <$> xs) /\ (length xs <= m)%nat /\ Forall (fun x => x <> 0) xs) es.
Proof.
  unfold GetSharedBatch. destruct (nul || (m =? 0)%nat); simpl.
  { apply posts_ret. rewrite app_nil_r. split_and!; [done|simpl; lia|constructor]. }
  apply posts_shard; [apply mod_lt_shards| |].
  { intros sh sh' out _ E. by apply GetBatch_step in E as [? _]. }
  intros sh sh' out Hok [Hs Hlo]%GetBatch_step.
  pose proof (taken_nonzero sh sh' out Hok Hs) as Hnz. destruct (length out =? m)%nat; [done|].
  eapply posts_mono; [|by apply posts_get_batch_steal].
  intros es' xs (ys & -> & -> & Hle). by rewrite fmap_app, <- app_assoc.
Qed.

Lemma posts_put_batch hash nul xs es :
  posts (PutSharedBatch (F := F) nshards hash nul xs)
    (fun es' _ => es' = es ++ if nul then [] else PStore <$> filter (fun x => x <> 0) xs) es.
Proof.
  unfold PutSharedBatch. destruct (nul || (length xs =? 0)%nat) eqn:E; simpl.
  { apply posts_ret. destruct nul; [by rewrite app_nil_r|]. simpl in E. apply Nat.eqb_eq in E.
    destruct xs; [by rewrite app_nil_r|done]. }
  apply orb_false_iff in E as [-> _]. apply posts_shard; [apply mod_lt_shards| |].
  - intros sh sh' out _ E. by apply PutBatch_step in E as [_ ?].
  - intros sh sh' out _ E. by apply PutBatch_step in E as [-> _].
Qed.

Lemma posts_clear_from idxs es :
  Forall (fun j => (j < nshards)%nat) idxs ->
  posts (ClearShared_from destroy idxs) (fun es' _ => exists ds, es' = es ++ (PDrop <$> ds)) es.
Proof.
  intros Hj. revert es. induction Hj as [|j idxs Hj _ IH]; intros es; cbn [ClearShared_from].
  - exists []. by rewrite app_nil_r.
  - simpl. apply posts_act; intros p p' xs Hp; unfold clear_shard; simpl; intros [= <- <-].
    + apply core_step_shard; [done|done|]. set (ys := objects (shards_ p !!! j)).
      destruct (drops_drop ys) as (D1 & D2 & D3). split; rewrite ?D1, ?D2, ?D3; simpl; [by rewrite app_nil_r|].
      intros _. by split.
    + eapply posts_mono; [|apply IH]. intros es' _ [ds ->]. eexists. by rewrite <- app_assoc, <- fmap_app.
Qed.

Lemma posts_clear es :
  posts (ClearShared destroy nshards) (fun es' _ => exists ds, es' = es ++ (PDrop <$> ds)) es.
Proof.
  apply posts_clear_from, list.Forall_forall. intros j Hj. apply elem_of_seq in Hj. lia.
Qed.

Lemma posts_size es : posts (SizeApprox (F := F) nshards) (fun es' _ => es' = es) es.
Proof.
  unfold SizeApprox. generalize 0 (seq 0 nshards). intros total idxs. revert total.
  induction idxs as [|j idxs IH]; intros total; cbn [SizeApprox_from]; [done|].
  simpl. apply posts_act; intros p p' x Hp [= <- <-]; [by apply core_step_none|].
  rewrite app_nil_r. apply IH.
Qed.

Lemma pool_wf_new shard_count (f : F) :
  nshards = Nat.max 1 shard_count -> pool_wf (ObjectPoolCore_new shard_count f).
Proof. intros ->. split; simpl; [by rewrite length_replicate|]. apply Forall_replicate. by split. Qed.

End core_posts.

(** ** Every interleaving *)

Section conc.
Context {F : Type} (factory_ : option (F -> F * Z)) (destroy : Z -> F -> F) (nshards : nat).
Hypothesis (Hns : (0 < nshards)%nat).

Abbreviation pool_hist := (list (hev pev pool_op pool_res)).

Definition Inv (p : pool F) (h : pool_hist) : Prop :=
  pool_wf nshards p /\
  stores (events h) ≡ₚ takes (events h) ++ drops (events h) ++ stored (shards_ p).

Definition Gr (i : nat) (c c' : pool F * pool_hist) : Prop := True.

Definition pool_ok_env (p : pool F) (h : pool_hist) : Prop := True.

(** What the result of an operation says about the objects it moved. *)
Definition pool_good (o : pool_op) (es : list pev) (r : pool_res) : Prop :=
  match o with
  | OpGet _ => exists x, r = RPtr x /\ get_evs factory_ x es
  | OpPut _ x => r = RUnit /\ es = if x =? 0 then [] else [PStore x]
  | OpGetBatch _ _ m => exists xs, r = RPtrs xs /\ es = PTake <$> xs /\ (length xs <= m)%nat
  | OpPutBatch _ objs_null objs => r = RUnit /\
      es = if objs_null then [] else PStore <$> filter (fun x => x <> 0) objs
  | OpClear => r = RUnit /\ exists ds, es = PDrop <$> ds
  | OpSize => exists n, r = RSize n /\ es = []
  end.

Definition LI (i : nat) (l : pool_op) (p : pool F) (h : pool_hist) : Prop :=
  opview i h = Some (l, []).

Abbreviation wp := (wp Inv Gr pool_ok_env).
Abbreviation Q := (Qloop LI pool_good).

Lemma Inv_step p h j p' es :
  Inv p h -> core_step nshards p p' es -> Inv p' (h ++ (HLin j <$> es)).
Proof.
  intros [Hw Hp] [Hs Hw']. split; [done|].
  rewrite events_app, events_lin, stores_app, takes_app, drops_app, Hp.
  by apply perm_exchange.
Qed.

(** A program of the core, then the return of its result. *)
Lemma wp_core {A} i o (p : prog (pool F) pev A) R (res : A -> pool_res) s h :
  opview i h = Some (o, []) -> Inv s h -> posts (pool_wf nshards) (core_step nshards) p R [] ->
  (forall es x, R es x -> pool_good o es (res x)) ->
  wp i (bind p (fun x => Ret (inr (res x)))) (Q i) (s, h).
Proof.
  intros Ho HI Hp Hg. apply wp_bind; [done|].
  eapply wp_mono; [|apply (wp_posts _ _ _ i (pool_wf nshards) (core_step nshards)
    (fun es _ h => opview i h = Some (o, es)) p R [] s h)]; [|by intros s1 h1 [? _]|intros es; apply stable_op| |done|done].
  - intros x s1 h1 _ (es & HR & Ho1). apply (wp_ret _ _ _ i); [apply stable_post|]. exists o, es. eauto.
  - intros es s1 h1 s2 es' Ho1 HI1 Hst _. split_and!; [done|by apply (Inv_step s1)|].
    by rewrite opview_lin, decide_True, Ho1.
Qed.

Lemma wp_body i o p h : LI i o p h -> Inv p h -> wp i (body factory_ destroy nshards o) (Q i) (p, h).
Proof.
  unfold LI. intros Hop HI. destruct o as [hash|hash x|hash nul m|hash nul xs| |]; unfold body, Get, Put, Clear, Size.
  - eapply (wp_core i _ _ _ RPtr); [done|done|by apply posts_get|]. intros es x (ev & -> & Hev). by exists x.
  - eapply (wp_core i _ _ _ (fun _ => RUnit)); [done|done|by apply posts_put|]. by intros es _ ->.
  - eapply (wp_core i _ _ _ RPtrs); [done|done|by apply posts_get_batch|]. intros es ys (-> & Hl & _). by exists ys.
  - eapply (wp_core i _ _ _ (fun _ => RUnit)); [done|done|by apply posts_put_batch|]. by intros es _ ->.
  - eapply (wp_core i _ _ _ (fun _ => RUnit)); [done|done|by apply posts_clear|]. intros es _ [ds ->]. split; [done|]. by exists ds.
  - eapply (wp_core i _ _ _ RSize); [done|done|by apply posts_size|]. intros es x ->. by exists x.
Qed.

Lemma pool_Inv_other p h x : (forall i e, x <> HLin i e) -> Inv p h -> Inv p (h ++ [x]).
Proof.
  intros Hx. unfold Inv. rewrite events_app. destruct x; simpl; rewrite ?app_nil_r; try done.
  by destruct (Hx i e).
Qed.

Lemma pool_outline :
  proof_outline (fun o => o) (body factory_ destroy nshards) Inv Gr pool_ok_env LI pool_good.
Proof.
  split.
  - intros i o p h HI _ _. split_and!; [done|by apply pool_Inv_other|]. unfold LI.
    by rewrite opview_call, decide_True.
  - intros i r p h HI _. split; [done|by apply pool_Inv_other].
  - intros i l p h HL HI. by apply wp_body.
Qed.

End conc.

(** ** Theorems *)

(** C15. Ownership in [ObjectPool<T>] and the batch operations of its core,
    for every number of threads and shards, every interleaving and every
    outcome of [try_to_lock]: counted with multiplicity, the objects stored in
    the pool are the objects handed out, the objects deleted by [Clear] and the
    objects in the shards.  So the pool never hands out an object that was not
    returned to it (unless the factory just made it), never hands one out twice
    per return, and loses none.  Each shard's announced size is its number of
    objects.  Every completed operation moved exactly the objects that its
    result names; [Get] returns null only without a factory or when the factory
    does. *)
Theorem pool_ownership {F} (factory_ : option (F -> F * Z)) (destroy : Z -> F -> F)
    shard_count f threads cfg :
  let ns := Nat.max 1 shard_count in
  reach (fun o => o) (body factory_ destroy ns) pool_ok_env (ObjectPoolCore_new shard_count f)
    threads cfg ->
  let es := events (hist cfg) in
  stores es ≡ₚ takes es ++ drops es ++ stored (shards_ (shared cfg)) /\
  Forall (fun sh => approx_size sh = u64 (Z.of_nat (length (objects sh)))) (shards_ (shared cfg)) /\
  Forall (fun '(o, es, r) => pool_good factory_ o es r) (completed (hist cfg)).
Proof.
  intros ns Hreach es.
  assert (Inv ns (ObjectPoolCore_new shard_count f) []) as HI0.
  { split; [apply pool_wf_new; [lia|done]|]. simpl. by rewrite stored_new. }
  destruct (rg_adequacy _ _ _ _ _ _ _ (pool_outline factory_ destroy ns ltac:(lia)) _ _ _
    (fun i c => I) HI0 Hreach) as (([Hl Hok] & Hp) & _ & Hgood).
  split_and!; [done| |done]. apply (list.Forall_impl _ _ _ Hok). by intros sh [_ ?].
Qed.

(** A factory that numbers its objects; two threads on two shards; the second
    one steals what the first one returned. *)
Definition pool_demo_schedule : list (nat * move pool_op) :=
  [(0%nat, Call (OpGet 0))] ++ [(0%nat, Go false); (0%nat, Go true)] ++ go 0 3 ++
  [(0%nat, Call (OpPut 0 1))] ++ go 0 2 ++
  [(1%nat, Call (OpGet 1)); (1%nat, Go false); (1%nat, Go true)] ++ go 1 2.

Definition pool_demo_body := body (Some (fun f : Z => (f + 1, f))) (fun _ f => f) 2.

Definition pool_demo : config :=
  default (start (ObjectPoolCore_new 2 1) 2)
    (scheds (fun o => o) pool_demo_body pool_demo_schedule (start (ObjectPoolCore_new 2 1) 2)).

Lemma pool_ownership_witness :
  completed (hist pool_demo) =
    [(OpGet 0, [PMake 1], RPtr 1); (OpPut 0 1, [PStore 1], RUnit); (OpGet 1, [PTake 1], RPtr 1)] /\
  stores (events (hist pool_demo)) ≡ₚ takes (events (hist pool_demo)) ++
    drops (events (hist pool_demo)) ++ stored (shards_ (shared pool_demo)).
Proof.
  split; [vm_compute; reflexivity|].
  apply (pool_ownership (Some (fun f : Z => (f + 1, f))) (fun _ f => f) 2 1 2 pool_demo).
  apply (scheds_reach (fun o => o) pool_demo_body _ (fun _ _ => true) (ObjectPoolCore_new 2 1) 2
    pool_demo_schedule (start (ObjectPoolCore_new 2 1) 2)).
  - done.
  - constructor.
  - vm_compute. reflexivity.
  - vm_compute. reflexivity.
Defined.

(** ** One thread alone, for the clients of the pool *)

Section solo.
Context {F : Type} (make : F -> F * Z) (destroy : Z -> F -> F) (nshards : nat).
Hypothesis (Hns : (0 < nshards)%nat).

Abbreviation pool_wf := (pool_wf (F := F) nshards).

Definition got (p p' : pool F) (x : Z) : Prop :=
  (x <> 0 /\ client p' = client p /\ stored (shards_ p) ≡ₚ x :: stored (shards_ p')) \/
  ((client p', x) = make (client p) /\ stored (shards_ p') ≡ₚ stored (shards_ p)).

Lemma on_shard_pop p idx :
  pool_wf p -> (idx < nshards)%nat ->
  let '(p', x) := on_shard idx pop_object p in
  pool_wf p' /\ client p' = client p /\
  (x <> 0 /\ stored (shards_ p) ≡ₚ x :: stored (shards_ p') \/
   x = 0 /\ stored (shards_ p') ≡ₚ stored (shards_ p)).
Proof.
  intros [Hl Hok] Hi. unfold on_shard. destruct (pop_object (shards_ p !!! idx)) as [sh' x] eqn:E.
  assert (shard_ok (shards_ p !!! idx)) as Hsh by (apply Forall_lookup_total_1; [done|lia]).
  destruct (pop_object_ok _ _ _ Hsh E) as [Hs Hok']. simpl.
  split; [split; simpl; [by rewrite length_insert|apply Forall_insert; auto]|]. split; [done|].
  pose proof (stored_update (shards_ p) idx sh' ltac:(lia)) as Hu.
  unfold took in Hs. destruct (Z.eqb_spec x 0) as [->|Hx]; simpl in Hs; [right|left]; split; try done.
  - apply (Permutation_app_inv_r (objects sh')). by rewrite <- Hs at 1.
  - apply (Permutation_app_inv_r (objects sh')). rewrite <- Hu, Hs. simpl.
    by rewrite <- Permutation_middle.
Qed.

Lemma run_get_steal idx ns w p :
  pool_wf p ->
  let '(p', _, x) := run (GetShared_steal (Some make) nshards idx ns) w p in
  pool_wf p' /\ got p p' x.
Proof.
  revert w p. induction ns as [|m ns IH]; intros w p Hp; cbn [GetShared_steal].
  - simpl. unfold call_factory. destruct (make (client p)) as [f x] eqn:E. split; [done|].
    right. by split.
  - unfold TryStealFromShard. simpl. destruct (hd false w); simpl.
    + pose proof (on_shard_pop p _ Hp (mod_lt_shards nshards Hns (idx + m))) as H.
      destruct (on_shard _ pop_object p) as [p1 x1]. destruct H as (Hp1 & Hc1 & Hx).
      destruct (Z.eqb_spec x1 0) as [->|Hne]; simpl.
      * destruct Hx as [[? _]|[_ Hst]]; [done|]. specialize (IH (tl w) p1 Hp1).
        destruct (run _ _ p1) as [[p' w'] x]. destruct IH as [Hp' Hg]. split; [done|].
        unfold got in *. by rewrite <- Hc1, <- Hst.
      * destruct Hx as [[_ Hst]|[? _]]; [|done]. split; [done|]. by left.
    + by apply IH.
Qed.

Lemma run_Get hash w p :
  pool_wf p ->
  let '(p', _, x) := run (Get (Some make) nshards hash) w p in pool_wf p' /\ got p p' x.
Proof.
  intros Hp. unfold Get, GetShared, TryPopFromShard. simpl.
  pose proof (on_shard_pop p _ Hp (mod_lt_shards nshards Hns hash)) as H.
  unfold CurrentShardIndex. destruct (on_shard _ pop_object p) as [p1 x1].
  destruct H as (Hp1 & Hc1 & Hx). destruct (Z.eqb_spec x1 0) as [->|Hne]; simpl.
  - destruct Hx as [[? _]|[_ Hst]]; [done|].
    pose proof (run_get_steal (hash mod nshards) (seq 1 (nshards - 1)) w p1 Hp1) as IH.
    destruct (run _ w p1) as [[p' w'] x]. destruct IH as [Hp' Hg]. split; [done|].
    unfold got in *. by rewrite <- Hc1, <- Hst.
  - destruct Hx as [[_ Hst]|[? _]]; [|done]. split; [done|]. by left.
Qed.

Lemma run_Put hash w p x :
  pool_wf p -> x <> 0 ->
  exists p', run (Put (F := F) nshards hash x) w p = (p', w, tt) /\ pool_wf p' /\
    client p' = client p /\ stored (shards_ p') ≡ₚ x :: stored (shards_ p).
Proof.
  intros [Hl Hok] Hx. pose proof (mod_lt_shards nshards Hns hash) as Hi.
  unfold Put, PutShared. destruct (Z.eqb_spec x 0); [done|]. simpl.
  eexists. split; [done|]. simpl. unfold CurrentShardIndex.
  assert (shard_ok (shards_ p !!! (hash mod nshards)%nat)) as Hsh
    by (apply Forall_lookup_total_1; [done|lia]).
  destruct (push_object_step x (shards_ p !!! (hash mod nshards)%nat) Hx) as [Hs Hok'].
  split; [split; simpl; [by rewrite length_insert|apply Forall_insert; auto]|]. split; [done|].
  pose proof (stored_update (shards_ p) (hash mod nshards)%nat
    (push_object x (shards_ p !!! (hash mod nshards)%nat)).1 ltac:(lia)) as Hu.
  apply (Permutation_app_inv_r (objects (shards_ p !!! (hash mod nshards)%nat))).
  rewrite Hu. simpl in Hs. rewrite <- Hs. by rewrite <- Permutation_middle.
Qed.

End solo.
