(* ===== verification/BoundedQueue.v ===== *)
(** * BoundedQueue: what the linked queue uses of its rings

    [LSCQ] is written against the public members of [SCQP]; its theorems are
    proved against this interface, which [SCQP] (in both modes) implements. *)

From stdpp Require Import base list numbers option.
From Stdlib Require Import ZArith Lia.
From S2P Require Import Prelude Conc Fifo Ring ScqSeq Scqp ScqpSeq.

Local Open Scope Z_scope.

(** The operations: construction, [enqueue], [dequeue], [is_empty] and
    [reset_for_reuse].  The list of booleans resolves the spurious failures. *)
Class BoundedQueue := {
  bq : Type;
  bq_new : bq;
  bq_enqueue : list bool -> Z -> bq -> option (bq * list bool * bool);
  bq_dequeue : list bool -> bq -> option (bq * list bool * Z);
  bq_is_empty : bq -> bool;
  bq_reset : bq -> bq * bool
}.

(** The contract: the operations implement a FIFO queue of at most [bq_cap]
    non-null pointers.  [bq_rep s q b]: the state [s] holds [q], and [b] more
    operations are within the range of the counters. *)
Class BoundedQueueLaws (B : BoundedQueue) := {
  bq_cap : Z;
  bq_budget : Z;
  bq_rep : bq -> list Z -> Z -> Prop;
  bq_cap_pos : 0 < bq_cap;
  bq_budget_pos : 0 <= bq_budget;
  bq_rep_new : bq_rep bq_new [] bq_budget;
  bq_rep_weaken s q b b' : bq_rep s q b -> 0 <= b' <= b -> bq_rep s q b';
  bq_rep_room s q b : bq_rep s q b -> Z.of_nat (length q) <= bq_cap /\ Forall (fun v => 0 < v) q;
  bq_enqueue_ok s q b w p :
    bq_rep s q b -> 1 <= b -> 0 < p -> Z.of_nat (length q) < bq_cap ->
    exists s' w', bq_enqueue w p s = Some (s', w', true) /\ bq_rep s' (q ++ [p]) (b - 1);
  bq_enqueue_full s q b w p :
    bq_rep s q b -> 0 < p -> Z.of_nat (length q) = bq_cap ->
    bq_enqueue w p s = Some (s, w, false);
  bq_dequeue_ok s q b w :
    bq_rep s q b -> 1 <= b ->
    exists s' w', bq_dequeue w s = Some (s', w', hd 0 q) /\ bq_rep s' (tail q) (b - 1);
  bq_is_empty_ok s q b : bq_rep s q b -> bq_is_empty s = bool_decide (q = []);
  bq_reset_ok s b : bq_rep s [] b ->
    exists s', bq_reset s = (s', true) /\ bq_rep s' [] bq_budget
}.

(** ** [SCQP] implements it *)

Definition res_bool (r : option (state * list bool * qres Z)) : option (state * list bool * bool) :=
  match r with Some (s, w, RBool x) => Some (s, w, x) | _ => None end.

Definition res_val (r : option (state * list bool * qres Z)) : option (state * list bool * Z) :=
  match r with Some (s, w, RVal x) => Some (s, w, x) | _ => None end.

#[global] Instance SCQP_queue (k : Z) (fb : bool) : BoundedQueue := {|
  bq := state;
  bq_new := SCQP_new (size k) fb;
  bq_enqueue w p s :=
    res_bool (enqueue (size k) (bot k) fb (Z.to_nat (4 * size k + 3)) p w s);
  bq_dequeue w s := res_val (dequeue (size k) (bot k) fb (4 + length w) w s);
  bq_is_empty := is_empty;
  bq_reset := reset_for_reuse (size k) fb
|}.

Lemma SCQP_queue_laws k fb : 2 <= k <= 60 -> BoundedQueueLaws (SCQP_queue k fb).
Proof.
  intros Hk. pose proof (size_lit k Hk) as Hs.
  refine (Build_BoundedQueueLaws (SCQP_queue k fb) (size k) (two64 - size k - 1) (rep k fb)
    _ _ _ _ _ _ _ _ _ _).
  - lia.
  - unfold two64. lia.
  - by apply scqp_rep_new.
  - intros s q b b'. apply rep_weaken.
  - intros s q b (cells & _ & Hsr & _ & Hv & _). split; [|done].
    apply (RingSeq.sr_room _ _ _ _ _ Hsr).
  - intros s q b w p Hr Hb Hp Hroom.
    destruct (scqp_enqueue_ok k Hk fb s q b w p Hr Hb Hp Hroom) as (s' & He & Hr').
    exists s', w. split; [|done]. simpl. by rewrite He.
  - intros s q b w p Hr Hp Hf. simpl.
    assert (enqueue (size k) (bot k) fb (Z.to_nat (4 * size k + 3)) p w s = Some (s, w, RBool false)) as ->;
      [|done].
    apply (exec_mono _ 2); [by apply (scqp_enqueue_full k fb s q b w p)|lia].
  - intros s q b w Hr Hb. destruct (scqp_dequeue_ok k Hk fb s q b w Hr Hb) as (s' & w' & He & Hr').
    exists s', w'. split; [|done]. unfold bq_dequeue. cbv [SCQP_queue]. by rewrite He.
  - intros s q b. apply scqp_is_empty_spec.
  - intros s b. by apply reset_empty.
Defined.
