(* ===== verification/Lscq.v ===== *)
(** * Lscq: the linked queue of rings

    Models [LSCQ<T>] ([include/lscq/lscq.hpp], [src/lscq.cpp]) for one thread at
    a time: explicit state passing through a small monad [M], with the rings
    behind the interface [BoundedQueue] and the nodes recycled by the model of
    [ObjectPool] in [Pool].  The nodes live in a heap; address [0] is [nullptr].
    [None] is a dereferenced null or dangling pointer, or a loop that is out of
    fuel.  The list of booleans resolves the spurious failures of the rings and
    of the pool's [try_to_lock]. *)

From stdpp Require Import base list numbers option gmap.
From Stdlib Require Import ZArith Lia.
From S2P Require Import Prelude Conc Pool BoundedQueue.

Local Open Scope Z_scope.

Section lscq.
Context {B : BoundedQueue}.

(** ** Nodes *)

Record Node := mkNode {
  scqp : bq;
  next : Z;
  finalized : bool
}.

(** The heap: the nodes that exist; the next address, so that the nodes ever made
    are at [1], ..., [brk - 1]; the addresses that were given to [delete], in
    order, where an address that occurs twice is a double free; and the nodes
    whose ring was destroyed and not constructed again ([LscqConc]). *)
Record heap := mkHeap {
  nodes : gmap Z Node;
  brk : Z;
  deleted : list Z;
  torn : gset Z
}.

(** [new Node(scqsize)], the factory of the pool, and [delete]. *)
Definition new_Node (h : heap) : heap * Z :=
  (mkHeap (<[brk h := mkNode bq_new 0 false]> (nodes h)) (brk h + 1) (deleted h) (torn h), brk h).

Definition delete_Node (a : Z) (h : heap) : heap :=
  mkHeap (delete a (nodes h)) (brk h) (deleted h ++ [a]) (torn h).

Definition set_nodes (m : gmap Z Node) (h : heap) : heap := mkHeap m (brk h) (deleted h) (torn h).

(** ** Members *)

Record state := mkState {
  head_ : Z;
  tail_ : Z;
  active_ops_ : Z;
  closing_ : bool;
  pool_ : pool heap;
  legacy_ebr_ : Z
}.

(** The number of shards of [pool_] and the hash of the calling thread. *)
Context (nshards hash : nat).

(** ** The monad *)

Definition M (A : Type) := list bool -> state -> option (state * list bool * A).

Definition ret {A} (x : A) : M A := fun w s => Some (s, w, x).

Definition bindM {A C} (m : M A) (f : A -> M C) : M C := fun w s =>
  match m w s with Some (s', w', x) => f x w' s' | None => None end.

Local Notation "x <- m ;; f" := (bindM m (fun x => f))
  (at level 100, m at next level, right associativity).
Local Notation "m ;;; f" := (bindM m (fun _ => f)) (at level 100, right associativity).

Definition get {A} (f : state -> A) : M A := fun w s => Some (s, w, f s).

Definition set_head (a : Z) (s : state) : state :=
  mkState a (tail_ s) (active_ops_ s) (closing_ s) (pool_ s) (legacy_ebr_ s).

Definition set_tail (a : Z) (s : state) : state :=
  mkState (head_ s) a (active_ops_ s) (closing_ s) (pool_ s) (legacy_ebr_ s).

Definition set_active (n : Z) (s : state) : state :=
  mkState (head_ s) (tail_ s) n (closing_ s) (pool_ s) (legacy_ebr_ s).

Definition set_closing (b : bool) (s : state) : state :=
  mkState (head_ s) (tail_ s) (active_ops_ s) b (pool_ s) (legacy_ebr_ s).

Definition set_pool (p : pool heap) (s : state) : state :=
  mkState (head_ s) (tail_ s) (active_ops_ s) (closing_ s) p (legacy_ebr_ s).

Definition modify (f : state -> state) : M unit := fun w s => Some (f s, w, tt).

(** Access to the node at [a]. *)
Definition node_at (a : Z) : M Node := fun w s =>
  match nodes (client (pool_ s)) !! a with Some nd => Some (s, w, nd) | None => None end.

Definition store_node (a : Z) (nd : Node) : M unit := fun w s =>
  match nodes (client (pool_ s)) !! a with
  | Some _ =>
      let h := client (pool_ s) in
      Some (set_pool (mkPool (shards_ (pool_ s)) (set_nodes (<[a := nd]> (nodes h)) h)) s, w, tt)
  | None => None
  end.

(** [node->scqp.enqueue(ptr)] and [node->scqp.dequeue()]. *)
Definition scqp_enqueue (a p : Z) : M bool :=
  nd <- node_at a ;;
  r <- (fun w s => match bq_enqueue w p (scqp nd) with
                   | Some (sc, w', ok) => Some (s, w', (sc, ok)) | None => None end) ;;
  store_node a (mkNode r.1 (next nd) (finalized nd)) ;;; ret r.2.

Definition scqp_dequeue (a : Z) : M Z :=
  nd <- node_at a ;;
  r <- (fun w s => match bq_dequeue w (scqp nd) with
                   | Some (sc, w', x) => Some (s, w', (sc, x)) | None => None end) ;;
  store_node a (mkNode r.1 (next nd) (finalized nd)) ;;; ret r.2.

(** The members of the pool. *)
Definition pool_Get : M Z := fun w s =>
  let '(p, w', x) := run (Get (Some new_Node) nshards hash) w (pool_ s) in
  Some (set_pool p s, w', x).

Definition pool_Put (a : Z) : M unit := fun w s =>
  let '(p, w', _) := run (Put nshards hash a) w (pool_ s) in
  Some (set_pool p s, w', tt).

Definition pool_Clear : M unit := fun w s =>
  let '(p, w', _) := run (Clear delete_Node nshards) w (pool_ s) in
  Some (set_pool p s, w', tt).

(** ** Helpers *)

Definition prepare_node_for_use (a : Z) : M unit :=
  if a =? 0 then ret tt
  else
    nd <- node_at a ;;
    store_node a (mkNode (scqp nd) 0 (finalized nd)) ;;;
    store_node a (mkNode (scqp nd) 0 false) ;;;
    let '(sc, ok) := bq_reset (scqp nd) in
    store_node a (mkNode sc 0 false) ;;;
    if negb ok then store_node a (mkNode bq_new 0 false) else ret tt.

(** [compare_exchange_strong] on [finalized] and on [next] of a node. *)
Definition cas_finalized (a : Z) : M bool :=
  nd <- node_at a ;;
  if negb (finalized nd) then store_node a (mkNode (scqp nd) (next nd) true) ;;; ret true
  else ret false.

Definition cas_next (a expected desired : Z) : M bool :=
  nd <- node_at a ;;
  if next nd =? expected then store_node a (mkNode (scqp nd) desired (finalized nd)) ;;; ret true
  else ret false.

Definition cas_tail (expected desired : Z) : M bool :=
  t <- get tail_ ;;
  if t =? expected then modify (set_tail desired) ;;; ret true else ret false.

Definition cas_head (expected desired : Z) : M bool :=
  t <- get head_ ;;
  if t =? expected then modify (set_head desired) ;;; ret true else ret false.

(** [ActiveOpsGuard]: the counter is decremented on every way out. *)
Definition with_active_ops {A} (m : M A) : M A :=
  modify (fun s => set_active (active_ops_ s + 1) s) ;;;
  x <- m ;;
  modify (fun s => set_active (active_ops_ s - 1) s) ;;;
  ret x.

(** ** Constructors and destructor *)

Definition LSCQ_new_members (shard_count : nat) : state :=
  mkState 0 0 0 false (ObjectPoolCore_new shard_count (mkHeap ∅ 1 [] ∅)) 0.

Definition LSCQ_init : M unit :=
  initial <- pool_Get ;;
  prepare_node_for_use initial ;;;
  modify (set_head initial) ;;;
  modify (set_tail initial).

Definition LSCQ_init_ebr (ebr : Z) : M unit :=
  LSCQ_init ;;;
  modify (fun s => mkState (head_ s) (tail_ s) (active_ops_ s) (closing_ s) (pool_ s) ebr).

(** The loop of the destructor over the linked nodes. *)
Fixpoint put_chain (fuel : nat) (current : Z) : M unit :=
  match fuel with
  | O => fun _ _ => None
  | S fuel =>
      if current =? 0 then ret tt
      else
        nd <- node_at current ;;
        pool_Put current ;;;
        put_chain fuel (next nd)
  end.

(** The wait for the active operations ends at once or, for one thread, never. *)
Definition LSCQ_destroy (fuel : nat) : M unit :=
  modify (set_closing true) ;;;
  a <- get active_ops_ ;;
  if 0 <? a then (fun _ _ => None)
  else
    current <- get head_ ;;
    put_chain fuel current ;;;
    modify (set_head 0) ;;;
    modify (set_tail 0) ;;;
    pool_Clear.

(** ** Operations *)

Definition MAX_RETRIES : nat := 16.

Definition MAX_WAIT_RETRIES : nat := 1024.

Definition MAX_SCQP_RETRIES : nat := 3.

(** The steps of [enqueue] after the ring refused the pointer: finalize and
    extend the list, then advance [tail_]. *)
Definition extend (t : Z) : M unit :=
  fin <- cas_finalized t ;;
  (if (fin : bool) then
     new_node <- pool_Get ;;
     prepare_node_for_use new_node ;;;
     linked <- cas_next t 0 new_node ;;
     if negb linked then pool_Put new_node else ret tt
   else ret tt) ;;;
  nd <- node_at t ;;
  if negb (next nd =? 0) then cas_tail t (next nd) ;;; ret tt else ret tt.

Fixpoint enqueue_loop (retries : nat) (p : Z) : M bool :=
  match retries with
  | O => ret false
  | S retries =>
      t <- get tail_ ;;
      ok <- scqp_enqueue t p ;;
      if (ok : bool) then ret true
      else extend t ;;; enqueue_loop retries p
  end.

Definition enqueue (p : Z) : M bool :=
  if p =? 0 then ret false
  else
    c <- get closing_ ;;
    if (c : bool) then ret false
    else with_active_ops (
      c <- get closing_ ;;
      if (c : bool) then ret false else enqueue_loop MAX_RETRIES p).

(** Up to [n] more attempts on the ring of [a]. *)
Fixpoint retry_dequeue (n : nat) (a : Z) : M Z :=
  match n with
  | O => ret 0
  | S n =>
      r <- scqp_dequeue a ;;
      if negb (r =? 0) then ret r else retry_dequeue n a
  end.

Fixpoint dequeue_loop (fuel wait_retries : nat) : M Z :=
  match fuel with
  | O => fun _ _ => None
  | S fuel =>
      h <- get head_ ;;
      result <- scqp_dequeue h ;;
      if negb (result =? 0) then ret result
      else
        nd <- node_at h ;;
        let nxt := next nd in
        let is_finalized := finalized nd in
        if negb is_finalized && (nxt =? 0) then ret 0
        else
          retry_result <- retry_dequeue MAX_SCQP_RETRIES h ;;
          if negb (retry_result =? 0) then ret retry_result
          else if is_finalized then
            nd <- node_at h ;;
            if negb (bq_is_empty (scqp nd)) then dequeue_loop fuel wait_retries
            else if nxt =? 0 then
              let wait_retries := S wait_retries in
              if (MAX_WAIT_RETRIES <? wait_retries)%nat then ret 0
              else dequeue_loop fuel wait_retries
            else
              advanced <- cas_head h nxt ;;
              (if (advanced : bool) then pool_Put h else ret tt) ;;;
              dequeue_loop fuel 0
          else dequeue_loop fuel wait_retries
  end.

Definition dequeue (fuel : nat) : M Z :=
  c <- get closing_ ;;
  if (c : bool) then ret 0
  else with_active_ops (
    c <- get closing_ ;;
    if (c : bool) then ret 0 else dequeue_loop fuel 0).

End lscq.

Arguments Node B : clear implicits.
Arguments heap B : clear implicits.
Arguments state B : clear implicits.
