(* ===== verification/LscqSeq.v ===== *)
(** * LscqSeq: the linked queue is an unbounded FIFO queue

    [lrep s q b]: the nodes from [head_] to [tail_] are linked, all but the last
    are finalized, their rings hold the parts of [q] in order, and the nodes in
    the pool are empty and distinct from them.  Proved against the interface
    [BoundedQueue], then instantiated with [SCQP]. *)

From stdpp Require Import base list numbers option gmap.
From Stdlib Require Import ZArith Lia.
From S2P Require Import Prelude Conc Fifo Ring ScqSeq Scqp Pool PoolProofs BoundedQueue Lscq.

Local Open Scope Z_scope.

Section lscq.
Context {B : BoundedQueue} {L : BoundedQueueLaws B}.
Context (nshards hash : nat).
Hypothesis (Hns : (0 < nshards)%nat).

Abbreviation st := (Lscq.state B).
Abbreviation node := (Lscq.Node B).

Definition hp (s : st) : gmap Z node := nodes (client (pool_ s)).

Definition free (s : st) : list Z := stored (shards_ (pool_ s)).

(** Nothing was deleted: the nodes are those ever made. *)
Definition heap_ok (h : heap B) : Prop :=
  0 < brk h /\ (forall a, is_Some (nodes h !! a) <-> 0 < a < brk h) /\ deleted h = [].

(** A node with ring contents [q]. *)
Definition node_ok (h : gmap Z node) (a nxt : Z) (fin : bool) (q : list Z) (b : Z) : Prop :=
  exists nd, h !! a = Some nd /\ bq_rep (scqp nd) q b /\ next nd = nxt /\ finalized nd = fin.

Definition first_addr (c : list (Z * list Z)) (t : Z) : Z :=
  match c with [] => t | (a, _) :: _ => a end.

(** The finalized nodes in front of the tail [t]. *)
Fixpoint seg (h : gmap Z node) (c : list (Z * list Z)) (t b : Z) : Prop :=
  match c with
  | [] => True
  | (a, q) :: c => node_ok h a (first_addr c t) true q b /\ seg h c t b
  end.

Record lrep_at (c : list (Z * list Z)) (t : Z) (qt : list Z) (s : st) (b : Z) : Prop := {
  lr_head : head_ s = first_addr c t;
  lr_tail : tail_ s = t;
  lr_seg : seg (hp s) c t b;
  lr_last : node_ok (hp s) t 0 false qt b;
  lr_nodup : NoDup (c.*1 ++ t :: free s);
  lr_free a : a ∈ free s -> exists nd b0, hp s !! a = Some nd /\ bq_rep (scqp nd) [] b0;
  lr_heap : heap_ok (client (pool_ s));
  lr_dom a : is_Some (hp s !! a) -> a ∈ c.*1 ++ t :: free s;
  lr_pool : pool_wf nshards (pool_ s);
  lr_open : closing_ s = false;
  lr_budget : 0 <= b <= bq_budget
}.

Definition lrep (s : st) (q : list Z) (b : Z) : Prop :=
  exists c t qt, lrep_at c t qt s b /\ q = concat c.*2 ++ qt /\ active_ops_ s = 0.

(** ** Frames *)

Lemma node_ok_weaken h a nxt fin q b b' : node_ok h a nxt fin q b -> 0 <= b' <= b -> node_ok h a nxt fin q b'.
Proof. intros (nd & H1 & H2 & H3) Hb. exists nd. split_and!; eauto using bq_rep_weaken; apply H3. Qed.

Lemma seg_weaken h c t b b' : seg h c t b -> 0 <= b' <= b -> seg h c t b'.
Proof.
  intros Hs Hb. induction c as [|[a q] c IH]; [done|]. destruct Hs as [H1 H2].
  split; [by apply (node_ok_weaken _ _ _ _ _ b)|auto].
Qed.

Lemma seg_frame h h' c t b :
  (forall a, a ∈ c.*1 -> h' !! a = h !! a) -> seg h c t b -> seg h' c t b.
Proof.
  intros Hh. induction c as [|[a q] c IH]; [done|]. intros [(nd & H1 & H2) Hs].
  split; [exists nd; rewrite Hh by (csimpl; left); done|].
  apply IH; [|done]. intros x Hx. apply Hh. csimpl. by right.
Qed.

Lemma seg_snoc h c t qt t' b :
  seg h c t b -> node_ok h t t' true qt b -> seg h (c ++ [(t, qt)]) t' b.
Proof.
  intros Hs Ht. induction c as [|[a q] c IH]; [done|]. destruct Hs as [H1 H2]. split; [|auto].
  by destruct c as [|[a' q'] c].
Qed.

(** ** Primitives *)

Definition upd (s : st) (a : Z) (nd : node) : st :=
  set_pool (mkPool (shards_ (pool_ s)) (set_nodes (<[a := nd]> (hp s)) (client (pool_ s)))) s.

Lemma heap_ok_pos s a nd : heap_ok (client (pool_ s)) -> hp s !! a = Some nd -> 0 < a.
Proof. intros (_ & Hh & _) Ha. apply Hh. by exists nd. Qed.

Lemma heap_ok_upd s a nd nd' :
  heap_ok (client (pool_ s)) -> hp s !! a = Some nd -> heap_ok (client (pool_ (upd s a nd'))).
Proof.
  intros (H0 & Hh & Hd) Ha. split_and!; [done| |done]. intros x. simpl. rewrite <- Hh.
  destruct (decide (x = a)) as [->|Hne]; [|by rewrite lookup_insert_ne].
  rewrite lookup_insert_eq. split; intros _; by eexists.
Qed.

Lemma store_node_eq a nd nd0 w s :
  hp s !! a = Some nd0 -> store_node a nd w s = Some (upd s a nd, w, tt).
Proof. intros H. unfold store_node. unfold hp in H. by rewrite H. Qed.

Lemma node_at_eq a nd w s : hp s !! a = Some nd -> node_at a w s = Some (s, w, nd).
Proof. intros H. unfold node_at. unfold hp in H. by rewrite H. Qed.

Lemma hp_upd s a nd : hp (upd s a nd) = <[a := nd]> (hp s).
Proof. done. Qed.

Lemma upd_twice s a nd nd' : upd (upd s a nd) a nd' = upd s a nd'.
Proof. unfold upd, hp, set_pool. simpl. by rewrite insert_insert_eq. Qed.

Lemma scqp_enqueue_eq a p nd w s sc w' ok :
  hp s !! a = Some nd -> bq_enqueue w p (scqp nd) = Some (sc, w', ok) ->
  scqp_enqueue a p w s = Some (upd s a (mkNode sc (next nd) (finalized nd)), w', ok).
Proof.
  intros Ha He. unfold scqp_enqueue, bindM. rewrite (node_at_eq a nd), He by done. simpl.
  by rewrite (store_node_eq a _ nd).
Qed.

Lemma scqp_dequeue_eq a nd w s sc w' x :
  hp s !! a = Some nd -> bq_dequeue w (scqp nd) = Some (sc, w', x) ->
  scqp_dequeue a w s = Some (upd s a (mkNode sc (next nd) (finalized nd)), w', x).
Proof.
  intros Ha He. unfold scqp_dequeue, bindM. rewrite (node_at_eq a nd), He by done. simpl.
  by rewrite (store_node_eq a _ nd).
Qed.

Lemma prepare_eq a nd b w s :
  a <> 0 -> hp s !! a = Some nd -> bq_rep (scqp nd) [] b ->
  exists nd', prepare_node_for_use a w s = Some (upd s a nd', w, tt) /\
    bq_rep (scqp nd') [] bq_budget /\ next nd' = 0 /\ finalized nd' = false.
Proof.
  intros Ha0 Ha Hr. destruct (bq_reset_ok _ _ Hr) as (sc & Hre & Hsc).
  exists (mkNode sc 0 false). split; [|done].
  unfold prepare_node_for_use. destruct (Z.eqb_spec a 0); [done|]. unfold bindM.
  rewrite (node_at_eq a nd) by done. rewrite (store_node_eq a _ nd) by done.
  rewrite (store_node_eq a _ (mkNode (scqp nd) 0 (finalized nd))) by (rewrite hp_upd; apply lookup_insert_eq).
  rewrite upd_twice, Hre.
  rewrite (store_node_eq a _ (mkNode (scqp nd) 0 false)) by (rewrite hp_upd; apply lookup_insert_eq).
  by rewrite upd_twice.
Qed.

(** The update of the ring of one node of the list. *)
Lemma lrep_at_tail c t qt qt' s b b' nd sc :
  lrep_at c t qt s b -> hp s !! t = Some nd -> bq_rep sc qt' b' -> 0 <= b' <= b ->
  lrep_at c t qt' (upd s t (mkNode sc (next nd) (finalized nd))) b'.
Proof.
  intros [] Ht Hr Hb. destruct lr_last0 as (nd' & H1 & H2 & H3 & H4). assert (nd' = nd) as -> by congruence.
  assert (forall a, a <> t -> <[t := mkNode sc (next nd) (finalized nd)]> (hp s) !! a = hp s !! a) as Hne.
  { intros a Ha. by rewrite lookup_insert_ne. }
  pose proof lr_nodup0 as Hnd. apply NoDup_app in Hnd as (_ & Hd1 & Hd2). apply NoDup_cons in Hd2 as [Hd2 _].
  split; try done.
  - apply (seg_weaken _ _ _ b); [|done]. apply (seg_frame (hp s)); [|done].
    intros a Ha. rewrite hp_upd. apply Hne. intros ->. apply (Hd1 t Ha). by left.
  - eexists. rewrite hp_upd, lookup_insert_eq. by split_and!.
  - intros a Ha. destruct (lr_free0 a Ha) as (nd0 & b0 & Hl & Hr0). exists nd0, b0.
    rewrite hp_upd, Hne; [done|]. by intros ->.
  - by apply (heap_ok_upd s t nd).
  - intros a. rewrite hp_upd. destruct (decide (a = t)) as [->|Ha]; [|rewrite Hne by done; apply lr_dom0].
    intros _. apply elem_of_app. right. by left.
  - lia.
Qed.

(** A node from the pool: recycled, or new. *)
Lemma pool_Get_eq s w :
  pool_wf nshards (pool_ s) ->
  (forall a, a ∈ free s -> exists nd b0, hp s !! a = Some nd /\ bq_rep (scqp nd) [] b0) ->
  heap_ok (client (pool_ s)) ->
  exists p' w' a nd b0, let s' := set_pool p' s in
    pool_Get nshards hash w s = Some (s', w', a) /\ pool_wf nshards p' /\
    0 < a /\ hp s' !! a = Some nd /\ bq_rep (scqp nd) [] b0 /\
    (forall x, x <> a -> hp s' !! x = hp s !! x) /\
    heap_ok (client p') /\
    (free s ≡ₚ a :: free s' \/ (free s' ≡ₚ free s /\ hp s !! a = None)).
Proof.
  intros Hwf Hfr Hok. pose proof Hok as (Hb0 & Hbk & Hdel). pose proof (run_Get new_Node nshards Hns hash w (pool_ s) Hwf) as Hg.
  unfold pool_Get. destruct (run _ w (pool_ s)) as [[p' w'] a]. destruct Hg as [Hwf' Hg].
  exists p', w', a. destruct Hg as [(Ha & Hc & Hst)|[Hc Hst]].
  - assert (a ∈ free s) as Hin.
    { unfold free. rewrite Hst. by left. }
    destruct (Hfr a Hin) as (nd & b0 & Hnd & Hr). exists nd, b0. simpl. unfold hp in *. simpl.
    rewrite Hc. do 2 (split; [done|]). split; [apply Hbk; by rewrite Hnd|]. do 4 (split; [done|]). by left.
  - unfold new_Node in Hc. injection Hc as Hc ->. exists (mkNode bq_new 0 false), bq_budget. simpl.
    unfold hp in *. simpl. rewrite Hc. simpl.
    assert (nodes (client (pool_ s)) !! brk (client (pool_ s)) = None) as Hn.
    { destruct (nodes (client (pool_ s)) !! _) eqn:E; [|done].
      pose proof (proj1 (Hbk _) (ex_intro _ _ E)). lia. }
    assert (heap_ok (mkHeap (<[brk (client (pool_ s)) := mkNode bq_new 0 false]> (nodes (client (pool_ s))))
      (brk (client (pool_ s)) + 1) (deleted (client (pool_ s))) (torn (client (pool_ s))))) as Hok'.
    { split_and!; simpl; [lia| |done]. intros x. destruct (decide (x = brk (client (pool_ s)))) as [->|Hx].
      - rewrite lookup_insert_eq. split; [lia|by eexists].
      - rewrite lookup_insert_ne, Hbk by done. lia. }
    split; [done|]. split; [done|]. split; [done|]. split; [apply lookup_insert_eq|]. split; [apply bq_rep_new|].
    split; [intros x Hx; by rewrite lookup_insert_ne|]. split; [done|by right].
Qed.

Lemma cas_finalized_eq t nd w s :
  hp s !! t = Some nd -> finalized nd = false ->
  cas_finalized t w s = Some (upd s t (mkNode (scqp nd) (next nd) true), w, true).
Proof.
  intros Ht Hf. unfold cas_finalized, bindM. rewrite (node_at_eq t nd), Hf by done. simpl.
  by rewrite (store_node_eq t _ nd).
Qed.

Lemma cas_next_eq t nd x y w s :
  hp s !! t = Some nd -> next nd = x ->
  cas_next t x y w s = Some (upd s t (mkNode (scqp nd) y (finalized nd)), w, true).
Proof.
  intros Ht Hx. unfold cas_next, bindM. rewrite (node_at_eq t nd), Hx, Z.eqb_refl by done. simpl.
  by rewrite (store_node_eq t _ nd).
Qed.

(** A node taken from the pool is not in the list. *)
Lemma seg_lookup h c t b a : seg h c t b -> a ∈ c.*1 -> is_Some (h !! a).
Proof.
  induction c as [|[x q] c IH]; intros Hs Ha; [by apply elem_of_nil in Ha|].
  destruct Hs as [(nd & Hx & _) Hs]. csimpl in Ha.
  apply elem_of_cons in Ha as [->|Ha]; [by eexists|auto].
Qed.

Lemma get_fresh c t qt s b (p' : pool (heap B)) a :
  lrep_at c t qt s b ->
  (free s ≡ₚ a :: stored (shards_ p') \/ (stored (shards_ p') ≡ₚ free s /\ hp s !! a = None)) ->
  NoDup (c.*1 ++ t :: a :: stored (shards_ p')) /\
  (forall x, x ∈ stored (shards_ p') -> x ∈ free s) /\
  (forall x, x ∈ free s -> x = a \/ x ∈ stored (shards_ p')).
Proof.
  intros [] [Hp|[Hp Hn]].
  - rewrite Hp in lr_nodup0. split; [done|]. split; intros x; rewrite Hp, elem_of_cons; [by right|done].
  - split; [|split; intros x; rewrite Hp; by try right]. rewrite Hp.
    assert (a ∉ c.*1 ++ t :: free s) as Ha.
    { rewrite elem_of_app, elem_of_cons. intros [Ha|[->|Ha]].
      - destruct (seg_lookup _ _ _ _ _ lr_seg0 Ha). congruence.
      - destruct lr_last0 as (nd & Ht & _). congruence.
      - destruct (lr_free0 a Ha) as (? & ? & ? & _). congruence. }
    rewrite (Permutation_swap a t). rewrite <- Permutation_middle. by apply NoDup_cons.
Qed.

(** The list with one more node, when only the old tail and the new node were
    written. *)
Lemma lrep_extend c t qt s b s' a nd nd' :
  lrep_at c t qt s b -> hp s !! t = Some nd -> 
  head_ s' = head_ s -> tail_ s' = a -> closing_ s' = closing_ s ->
  0 < a -> hp s' !! a = Some nd' -> bq_rep (scqp nd') [] bq_budget -> next nd' = 0 -> finalized nd' = false ->
  hp s' !! t = Some (mkNode (scqp nd) a true) ->
  (forall x, x <> t -> x <> a -> hp s' !! x = hp s !! x) ->
  NoDup (c.*1 ++ t :: a :: free s') -> (forall x, x ∈ free s' -> x ∈ free s) ->
  heap_ok (client (pool_ s')) ->
  (forall x, x ∈ free s -> x = a \/ x ∈ free s') ->
  pool_wf nshards (pool_ s') ->
  lrep_at (c ++ [(t, qt)]) a [] s' b.
Proof.
  intros [] Ht Hhd Htl Hcl Ha Hnd' Hr' Hnx' Hfin' Ht' Hoth Hnodup Hsub Hok Hsup Hwf.
  pose proof Hnodup as Hn. apply NoDup_app in Hn as (_ & Hd1 & Hd2).
  apply NoDup_cons in Hd2 as [Hd2 Hd3]. apply NoDup_cons in Hd3 as [Hd3 _].
  rewrite elem_of_cons in Hd2.
  destruct lr_last0 as (nd0 & H1 & H2 & H3 & H4). assert (nd0 = nd) as -> by congruence.
  split; try done; try congruence.
  - rewrite Hhd, lr_head0. by destruct c as [|[x q] c].
  - apply seg_snoc; [|eexists; by split_and!]. apply (seg_frame (hp s)); [|done].
    intros x Hx. apply Hoth; intros ->; apply (Hd1 _ Hx); [by left|by right; left].
  - exists nd'. split_and!; try done. apply (bq_rep_weaken _ _ bq_budget); [done|lia].
  - rewrite fmap_app. simpl. by rewrite <- app_assoc.
  - intros x Hx. rewrite Hoth; [by apply lr_free0, Hsub| |].
    + intros ->. apply Hd2. by right.
    + by intros ->.
  - intros x Hx. rewrite fmap_app, <- app_assoc. simpl.
    destruct (decide (x = t)) as [->|Hxt]; [set_solver|]. destruct (decide (x = a)) as [->|Hxa]; [set_solver|].
    rewrite Hoth in Hx by done. apply lr_dom0 in Hx. specialize (Hsup x). set_solver.
Qed.

(** The list grows by an empty node. *)
Lemma extend_eq c t qt s b w :
  lrep_at c t qt s b ->
  exists s' w' a, extend nshards hash t w s = Some (s', w', tt) /\
    lrep_at (c ++ [(t, qt)]) a [] s' b /\ active_ops_ s' = active_ops_ s.
Proof.
  intros Hl. pose proof (lr_last _ _ _ _ _ Hl) as (nd & Ht & Hr & Hnx & Hfin).
  pose proof (lr_heap _ _ _ _ _ Hl) as Hok. pose proof (lr_nodup _ _ _ _ _ Hl) as Hnd.
  apply NoDup_app in Hnd as (_ & _ & Hd2). apply NoDup_cons in Hd2 as [Hd2 _].
  set (s1 := upd s t (mkNode (scqp nd) (next nd) true)).
  assert (forall x, x <> t -> hp s1 !! x = hp s !! x) as Hs1.
  { intros x Hx. unfold s1. rewrite hp_upd. by rewrite lookup_insert_ne. }
  assert (hp s1 !! t = Some (mkNode (scqp nd) (next nd) true)) as Hs1t
    by (unfold s1; rewrite hp_upd; apply lookup_insert_eq).
  destruct (pool_Get_eq s1 w) as (p' & w' & a & nda & b0 & Hg & Hwf' & Ha & Hnda & Hra & Hoth & Hok' & Hfree).
  { apply Hl. }
  { intros x Hx. rewrite Hs1; [by apply (lr_free _ _ _ _ _ Hl)|]. by intros ->. }
  { by apply (heap_ok_upd s t nd). }
  set (s2 := set_pool p' s1) in *.
  destruct (get_fresh c t qt s b p' a Hl) as (Hnodup & Hsub & Hsup).
  { destruct Hfree as [Hp|[Hp Hn]]; [by left|right]. split; [done|].
    rewrite <- Hs1; [done|]. intros ->. by rewrite Hs1t in Hn. }
  assert (a <> t) as Hat.
  { pose proof Hnodup as Hn. apply NoDup_app in Hn as (_ & _ & Hn). apply NoDup_cons in Hn as [Hn _].
    intros ->. apply Hn. by left. }
  destruct (prepare_eq a nda b0 w' s2 ltac:(lia) Hnda Hra) as (nd' & Hprep & Hr' & Hnx' & Hfin').
  set (s3 := upd s2 a nd') in *.
  assert (hp s3 !! t = Some (mkNode (scqp nd) (next nd) true)) as Hs3t.
  { unfold s3. rewrite hp_upd, lookup_insert_ne, Hoth by done. done. }
  set (s4 := upd s3 t (mkNode (scqp nd) a true)).
  assert (hp s4 = <[t := mkNode (scqp nd) a true]> (<[a := nd']> (hp s2))) as Hs4 by done.
  exists (set_tail a s4), w', a. split; [|split; [|done]].
  { unfold extend, bindM. rewrite (cas_finalized_eq t nd) by done. fold s1. rewrite Hg.
    rewrite Hprep. rewrite (cas_next_eq t (mkNode (scqp nd) (next nd) true)) by done. simpl.
    fold s4. rewrite (node_at_eq t (mkNode (scqp nd) a true)) by (rewrite Hs4; apply lookup_insert_eq).
    simpl. destruct (Z.eqb_spec a 0); [lia|]. simpl. unfold cas_tail, bindM, get, modify. simpl.
    rewrite (lr_tail _ _ _ _ _ Hl), Z.eqb_refl. done. }
  change (hp s4) with (hp (set_tail a s4)) in Hs4.
  apply (lrep_extend c t qt s b _ a nd nd'); try done; rewrite ?Hs4.
  - by rewrite lookup_insert_ne, lookup_insert_eq.
  - apply lookup_insert_eq.
  - intros x Hx Hxa. rewrite !lookup_insert_ne by done. rewrite Hoth by done. by apply Hs1.
  - apply (heap_ok_upd s3 t (mkNode (scqp nd) (next nd) true)); [|done]. by apply (heap_ok_upd s2 a nda).
Qed.

(** ** Enqueue *)

Lemma enqueue_room c t qt s b w p r :
  lrep_at c t qt s b -> 0 < p -> 1 <= b -> Z.of_nat (length qt) < bq_cap ->
  exists s' w', enqueue_loop nshards hash (S r) p w s = Some (s', w', true) /\
    lrep_at c t (qt ++ [p]) s' (b - 1) /\ active_ops_ s' = active_ops_ s.
Proof.
  intros Hl Hp Hb Hroom. pose proof (lr_last _ _ _ _ _ Hl) as (nd & Ht & Hr & Hnx & Hfin).
  destruct (bq_enqueue_ok _ _ _ w p Hr Hb Hp Hroom) as (sc & w' & He & Hr').
  exists (upd s t (mkNode sc (next nd) (finalized nd))), w'. split; [|split; [|done]].
  - cbn [enqueue_loop]. unfold bindM, get. rewrite (lr_tail _ _ _ _ _ Hl).
    by rewrite (scqp_enqueue_eq t p nd w s sc w' true).
  - apply (lrep_at_tail c t qt _ s b); [done|done|done|lia].
Qed.

Lemma enqueue_loop_eq c t qt s b w p :
  lrep_at c t qt s b -> 0 < p -> 1 <= b ->
  exists s' w' c' t' qt', enqueue_loop nshards hash MAX_RETRIES p w s = Some (s', w', true) /\
    lrep_at c' t' qt' s' (b - 1) /\ concat c'.*2 ++ qt' = concat c.*2 ++ qt ++ [p] /\
    active_ops_ s' = active_ops_ s.
Proof.
  intros Hl Hp Hb. pose proof (lr_last _ _ _ _ _ Hl) as (nd & Ht & Hr & Hnx & Hfin).
  destruct (bq_rep_room _ _ _ Hr) as [Hroom Hvals].
  destruct (Z.eq_dec (Z.of_nat (length qt)) bq_cap) as [Hfull|Hne].
  - set (s0 := upd s t nd).
    assert (lrep_at c t qt s0 b) as Hl0.
    { pose proof (lrep_at_tail c t qt qt s b b nd (scqp nd) Hl Ht Hr) as H.
      replace (mkNode (scqp nd) (next nd) (finalized nd)) with nd in H by by destruct nd.
      apply H. pose proof (lr_budget _ _ _ _ _ Hl). lia. }
    destruct (extend_eq c t qt s0 b w Hl0) as (s1 & w1 & a & He & Hl1 & Ha1).
    destruct (enqueue_room _ a [] s1 b w1 p 14 Hl1 Hp Hb) as (s2 & w2 & He2 & Hl2 & Ha2);
      [simpl; pose proof bq_cap_pos; lia|].
    exists s2, w2, (c ++ [(t, qt)]), a, [p]. split; [|split; [done|split]].
    + change MAX_RETRIES with (S 15). cbn [enqueue_loop]. unfold bindM at 1. unfold get.
      rewrite (lr_tail _ _ _ _ _ Hl). unfold bindM at 1.
      rewrite (scqp_enqueue_eq t p nd w s (scqp nd) w false) by (done || by apply bq_enqueue_full with (q := qt) (b := b)).
      replace (mkNode (scqp nd) (next nd) (finalized nd)) with nd by by destruct nd.
      fold s0. unfold bindM at 1. rewrite He. exact He2.
    + rewrite fmap_app, concat_app. simpl. by rewrite app_nil_r, <- app_assoc.
    + by rewrite Ha2, Ha1.
  - destruct (enqueue_room c t qt s b w p 15 Hl Hp Hb) as (s' & w' & He & Hl' & Ha); [lia|].
    exists s', w', c, t, (qt ++ [p]). by split_and!.
Qed.

(** ** Dequeue *)

Lemma upd_id s a nd : hp s !! a = Some nd -> upd s a nd = s.
Proof.
  intros H. unfold upd. rewrite insert_id by done. unfold hp, set_pool.
  by destruct s as [? ? ? ? [? []] ?].
Qed.

(** Repeated attempts on an empty ring. *)
Lemma retry_dequeue_empty m s a nd w b :
  hp s !! a = Some nd -> bq_rep (scqp nd) [] b -> Z.of_nat m <= b ->
  exists sc w', retry_dequeue m a w s = Some (upd s a (mkNode sc (next nd) (finalized nd)), w', 0) /\
    bq_rep sc [] (b - Z.of_nat m).
Proof.
  revert s nd w b. induction m as [|m IH]; intros s nd w b Ha Hr Hb.
  - exists (scqp nd), w. split; [|by rewrite Z.sub_0_r]. cbn [retry_dequeue].
    replace (mkNode (scqp nd) (next nd) (finalized nd)) with nd by by destruct nd.
    by rewrite upd_id.
  - destruct (bq_dequeue_ok _ _ _ w Hr ltac:(lia)) as (sc & w1 & He & Hr1). simpl in He, Hr1.
    set (nd1 := mkNode sc (next nd) (finalized nd)).
    destruct (IH (upd s a nd1) nd1 w1 (b - 1)) as (sc' & w' & He' & Hr');
      [by rewrite hp_upd, lookup_insert_eq|done|lia|].
    exists sc', w'. split; [|by replace (b - Z.of_nat (S m)) with (b - 1 - Z.of_nat m) by lia].
    cbn [retry_dequeue]. unfold bindM. rewrite (scqp_dequeue_eq a nd w s sc w1 0) by done.
    fold nd1. simpl. rewrite He'. by rewrite upd_twice.
Qed.

(** The head node takes part in the list until it is drained. *)
Lemma lrep_at_pop a v q c t qt s b nd sc :
  lrep_at ((a, v :: q) :: c) t qt s b -> hp s !! a = Some nd -> bq_rep sc q (b - 1) -> 1 <= b ->
  lrep_at ((a, q) :: c) t qt (upd s a (mkNode sc (next nd) (finalized nd))) (b - 1).
Proof.
  intros [] Ha Hr Hb. destruct lr_seg0 as [(nd0 & H1 & H2 & H3 & H4) Hs].
  assert (nd0 = nd) as -> by congruence.
  assert (forall x, x <> a -> <[a := mkNode sc (next nd) (finalized nd)]> (hp s) !! x = hp s !! x) as Hne.
  { intros x Hx. by rewrite lookup_insert_ne. }
  pose proof lr_nodup0 as Hnd. simpl in Hnd. apply NoDup_cons in Hnd as [Hd1 _].
  rewrite elem_of_app, elem_of_cons in Hd1.
  split; try done.
  - split; [eexists; rewrite hp_upd, lookup_insert_eq; by split_and!|].
    apply (seg_weaken _ _ _ b); [|lia]. apply (seg_frame (hp s)); [|done].
    intros x Hx. rewrite hp_upd. apply Hne. intros ->. apply Hd1. by left.
  - destruct lr_last0 as (ndt & Ht & Hrt & Hx). exists ndt. rewrite hp_upd, Hne by (intros ->; naive_solver).
    split_and!; [done| |apply Hx..]. apply (bq_rep_weaken _ _ b); [done|lia].
  - intros x Hx. destruct (lr_free0 x Hx) as (ndx & bx & Hl & Hrx). exists ndx, bx.
    rewrite hp_upd, Hne; [done|]. intros ->. naive_solver.
  - by apply (heap_ok_upd s a nd).
  - intros x. rewrite hp_upd. destruct (decide (x = a)) as [->|Hx]; [by left|].
    rewrite Hne by done. apply lr_dom0.
  - lia.
Qed.

(** The drained head node moves from the list to the pool. *)
Lemma lrep_at_advance a c t qt s b s' nd nd' b0 :
  lrep_at ((a, []) :: c) t qt s b -> hp s !! a = Some nd ->
  head_ s' = first_addr c t -> tail_ s' = tail_ s -> closing_ s' = closing_ s ->
  hp s' = <[a := nd']> (hp s) -> bq_rep (scqp nd') [] b0 -> heap_ok (client (pool_ s')) ->
  free s' ≡ₚ a :: free s -> pool_wf nshards (pool_ s') ->
  lrep_at c t qt s' b.
Proof.
  intros [] Ha Hhd Htl Hcl Hhp Hr Hok Hfree Hwf. destruct lr_seg0 as [_ Hs].
  assert (forall x, x <> a -> hp s' !! x = hp s !! x) as Hne.
  { intros x Hx. by rewrite Hhp, lookup_insert_ne. }
  pose proof lr_nodup0 as Hnd. simpl in Hnd. apply NoDup_cons in Hnd as [Hd1 _].
  rewrite elem_of_app, elem_of_cons in Hd1.
  split; try done; try congruence.
  - apply (seg_frame (hp s)); [|done]. intros x Hx. apply Hne. intros ->. apply Hd1. by left.
  - destruct lr_last0 as (ndt & Ht & Hrt). exists ndt. by rewrite Hne by (intros ->; naive_solver).
  - rewrite Hfree. assert (c.*1 ++ t :: a :: free s ≡ₚ a :: c.*1 ++ t :: free s) as -> by solve_Permutation.
    done.
  - intros x. rewrite Hfree, elem_of_cons. intros [->|Hx].
    + exists nd', b0. by rewrite Hhp, lookup_insert_eq.
    + destruct (lr_free0 x Hx) as (ndx & bx & Hl & Hrx). exists ndx, bx.
      rewrite Hne; [done|]. intros ->. naive_solver.
  - intros x Hx. rewrite Hfree. destruct (decide (x = a)) as [->|Hxa]; [set_solver|].
    rewrite Hne in Hx by done. apply lr_dom0 in Hx. simpl in Hx. set_solver.
Qed.

#[local] Arguments retry_dequeue : simpl never.
#[local] Arguments dequeue_loop : simpl never.

(** One iteration on a drained, finalized head node. *)
Lemma dequeue_loop_drained a c t qt s b w fuel :
  lrep_at ((a, []) :: c) t qt s b -> 4 <= b ->
  exists s' w', dequeue_loop nshards hash (S fuel) 0 w s = dequeue_loop nshards hash fuel 0 w' s' /\
    lrep_at c t qt s' b /\ active_ops_ s' = active_ops_ s.
Proof.
  intros Hl Hb. pose proof (lr_seg _ _ _ _ _ Hl) as [(nd & Ha & Hr & Hnx & Hfin) Hs].
  destruct (bq_dequeue_ok _ _ _ w Hr ltac:(lia)) as (sc & w1 & He & Hr1). simpl in He, Hr1.
  set (nd1 := mkNode sc (next nd) (finalized nd)). set (s1 := upd s a nd1).
  assert (hp s1 !! a = Some nd1) as Ha1 by (unfold s1; by rewrite hp_upd, lookup_insert_eq).
  destruct (retry_dequeue_empty MAX_SCQP_RETRIES s1 a nd1 w1 (b - 1)) as (sc2 & w2 & He2 & Hr2);
    [done|done|unfold MAX_SCQP_RETRIES; lia|].
  set (nd2 := mkNode sc2 (next nd1) (finalized nd1)) in He2. set (s2 := upd s1 a nd2) in He2.
  assert (hp s2 !! a = Some nd2) as Ha2 by (unfold s2; by rewrite hp_upd, lookup_insert_eq).
  assert (0 < first_addr c t) as Hnz.
  { pose proof (lr_heap _ _ _ _ _ Hl) as Hok. destruct c as [|[x qx] c]; simpl.
    - destruct (lr_last _ _ _ _ _ Hl) as (ndt & Hx & _). by apply (heap_ok_pos s t ndt).
    - destruct Hs as [(ndx & Hx & _) _]. by apply (heap_ok_pos s x ndx). }
  destruct (run_Put nshards Hns hash w2 (pool_ (set_head (first_addr c t) s2)) a)
    as (p' & Hput & Hwf & Hcl & Hst); [apply Hl| |].
  { pose proof (heap_ok_pos s a nd (lr_heap _ _ _ _ _ Hl) Ha). lia. }
  set (s3 := set_pool p' (set_head (first_addr c t) s2)). exists s3, w2. split; [|split; [|done]].
  - unfold dequeue_loop at 1; fold (dequeue_loop (B := B)). unfold bindM at 1. unfold get.
    rewrite (lr_head _ _ _ _ _ Hl). cbn [first_addr].
    unfold bindM at 1. rewrite (scqp_dequeue_eq a nd w s sc w1 0) by done. fold nd1 s1. simpl.
    unfold bindM at 1. rewrite (node_at_eq a nd1) by done. simpl. rewrite Hnx, Hfin. simpl.
    unfold bindM at 1. rewrite He2. simpl. unfold bindM at 1. rewrite (node_at_eq a nd2) by done.
    simpl. rewrite (bq_is_empty_ok _ _ _ Hr2). simpl.
    destruct (Z.eqb_spec (first_addr c t) 0); [lia|]. unfold bindM at 1. unfold cas_head, bindM, get, modify.
    change (head_ s2) with (head_ s). rewrite (lr_head _ _ _ _ _ Hl). cbn [first_addr].
    rewrite Z.eqb_refl. simpl. unfold pool_Put. by rewrite Hput.
  - apply (lrep_at_advance a c t qt s b s3 nd nd2 (b - 1 - 3)); try done.
    + transitivity (hp s2); [unfold s3, hp; simpl; by rewrite Hcl|].
      unfold s2, s1. by rewrite !hp_upd, insert_insert_eq.
    + unfold s3. simpl. rewrite Hcl. apply (heap_ok_upd s1 a nd1); [|done].
      by apply (heap_ok_upd s a nd); [apply (lr_heap _ _ _ _ _ Hl)|].
Qed.

Lemma dequeue_loop_eq c t qt s b w :
  lrep_at c t qt s b -> 4 <= b ->
  forall fuel, (length c < fuel)%nat ->
  exists s' w' c' qt', dequeue_loop nshards hash fuel 0 w s = Some (s', w', hd 0 (concat c.*2 ++ qt)) /\
    lrep_at c' t qt' s' (b - 1) /\ concat c'.*2 ++ qt' = tail (concat c.*2 ++ qt) /\
    active_ops_ s' = active_ops_ s.
Proof.
  intros Hl Hb. revert s w Hl. induction c as [|[a q] c IH]; intros s w Hl [|fuel] Hf; simpl in Hf; try lia.
  - pose proof (lr_last _ _ _ _ _ Hl) as (nd & Ht & Hr & Hnx & Hfin).
    destruct (bq_dequeue_ok _ _ _ w Hr ltac:(lia)) as (sc & w1 & He & Hr1).
    pose proof (lrep_at_tail [] t qt _ s b _ nd sc Hl Ht Hr1 ltac:(lia)) as Hl1.
    eexists _, w1, [], _. split; [|split; [exact Hl1|done]].
    unfold dequeue_loop; fold (dequeue_loop (B := B)). unfold bindM, get.
    rewrite (lr_head _ _ _ _ _ Hl). cbn [first_addr].
    rewrite (scqp_dequeue_eq t nd w s sc w1 (hd 0 qt)) by done.
    destruct (Z.eqb_spec (hd 0 qt) 0) as [H0|H0]; simpl; [|done].
    rewrite (node_at_eq t (mkNode sc (next nd) (finalized nd))) by (by rewrite hp_upd, lookup_insert_eq).
    simpl. rewrite Hnx, Hfin. simpl. by rewrite H0.
  - destruct q as [|v q].
    + destruct (dequeue_loop_drained a c t qt s b w fuel Hl Hb) as (s1 & w1 & He & Hl1 & Ha1).
      destruct (IH s1 w1 Hl1 fuel ltac:(lia)) as (s' & w' & c' & qt' & Hex & Hl' & Hq & Hact).
      exists s', w', c', qt'. rewrite He. split; [done|]. split; [done|]. split; [done|by rewrite Hact].
    + pose proof (lr_seg _ _ _ _ _ Hl) as [(nd & Ha & Hr & Hnx & Hfin) Hs].
      destruct (bq_dequeue_ok _ _ _ w Hr ltac:(lia)) as (sc & w1 & He & Hr1).
      destruct (bq_rep_room _ _ _ Hr) as [_ Hv]. inversion Hv as [|? ? Hv0 _]; subst. simpl in He, Hr1.
      pose proof (lrep_at_pop a v q c t qt s b nd sc Hl Ha Hr1 ltac:(lia)) as Hl1.
      eexists _, w1, ((a, q) :: c), qt. split; [|split; [exact Hl1|done]].
      unfold dequeue_loop; fold (dequeue_loop (B := B)). unfold bindM at 1. unfold get.
      rewrite (lr_head _ _ _ _ _ Hl). cbn [first_addr].
      unfold bindM at 1. rewrite (scqp_dequeue_eq a nd w s sc w1 v) by done.
      destruct (Z.eqb_spec v 0); [lia|]. done.
Qed.

(** ** Whole operations *)

Lemma with_active_ops_eq {A} (m : M A) w s s' w' x :
  m w (set_active (active_ops_ s + 1) s) = Some (s', w', x) ->
  with_active_ops m w s = Some (set_active (active_ops_ s' - 1) s', w', x).
Proof. intros H. unfold with_active_ops, bindM, modify. by rewrite H. Qed.

Lemma lrep_at_active c t qt s b n : lrep_at c t qt s b -> lrep_at c t qt (set_active n s) b.
Proof. intros []. by split. Qed.

Lemma lscq_enqueue_ok s q b w p :
  lrep s q b -> 0 < p -> 1 <= b ->
  exists s' w', enqueue nshards hash p w s = Some (s', w', true) /\ lrep s' (q ++ [p]) (b - 1).
Proof.
  intros (c & t & qt & Hl & -> & Hact) Hp Hb.
  destruct (enqueue_loop_eq c t qt (set_active (active_ops_ s + 1) s) b w p) as
    (s1 & w' & c' & t' & qt' & He & Hl' & Hq & Ha); [by apply lrep_at_active|done|done|].
  exists (set_active (active_ops_ s1 - 1) s1), w'. split.
  - unfold enqueue. destruct (Z.eqb_spec p 0); [lia|]. unfold bindM at 1. unfold get.
    rewrite (lr_open _ _ _ _ _ Hl). apply with_active_ops_eq. unfold bindM at 1. simpl.
    rewrite (lr_open _ _ _ _ _ Hl). exact He.
  - exists c', t', qt'. split; [by apply lrep_at_active|]. rewrite Hq, app_assoc.
    split; [done|]. simpl. rewrite Ha. simpl. lia.
Qed.

Lemma lscq_dequeue_ok s q b w :
  lrep s q b -> 4 <= b ->
  exists fuel0, forall fuel, (fuel0 <= fuel)%nat ->
  exists s' w', dequeue nshards hash fuel w s = Some (s', w', hd 0 q) /\ lrep s' (tail q) (b - 1).
Proof.
  intros (c & t & qt & Hl & -> & Hact) Hb. exists (S (length c)). intros fuel Hf.
  destruct (dequeue_loop_eq c t qt (set_active (active_ops_ s + 1) s) b w) with (fuel := fuel) as
    (s1 & w' & c' & qt' & He & Hl' & Hq & Ha); [by apply lrep_at_active|done|lia|].
  exists (set_active (active_ops_ s1 - 1) s1), w'. split.
  - unfold dequeue. unfold bindM at 1. unfold get.
    rewrite (lr_open _ _ _ _ _ Hl). apply with_active_ops_eq. unfold bindM at 1. simpl.
    rewrite (lr_open _ _ _ _ _ Hl). exact He.
  - exists c', t, qt'. split; [by apply lrep_at_active|]. split; [done|]. simpl. rewrite Ha. simpl. lia.
Qed.

(** ** Construction and destruction *)

Lemma lscq_new_first shard_count w :
  nshards = Nat.max 1 shard_count ->
  exists s w', LSCQ_init nshards hash w (LSCQ_new_members shard_count) = Some (s, w', tt) /\
    lrep s [] bq_budget /\ free s = [] /\
    exists a nd, head_ s = a /\ tail_ s = a /\ hp s !! a = Some nd /\ next nd = 0 /\
      forall x, x <> a -> hp s !! x = None.
Proof.
  intros Hn. set (s0 := LSCQ_new_members shard_count : st).
  assert (free s0 = []) as Hf0 by apply stored_new.
  assert (forall x, hp s0 !! x = None) as Hh0 by (intros x; apply lookup_empty).
  assert (pool_wf nshards (pool_ s0)) as Hwf0.
  { split; simpl; [by rewrite length_replicate|]. apply Forall_replicate. by split. }
  destruct (pool_Get_eq s0 w) as (p' & w' & a & nda & b0 & Hg & Hwf' & Ha & Hnda & Hra & Hoth & Hok' & Hfree);
    [done|by rewrite Hf0; intros a Ha%elem_of_nil| |].
  { split_and!; [done| |done]. intros x. split; [intros [? Hx]; by rewrite Hh0 in Hx|simpl; lia]. }
  set (s1 := set_pool p' s0) in *.
  destruct (prepare_eq a nda b0 w' s1 ltac:(lia) Hnda Hra) as (nd' & Hprep & Hr' & Hnx' & Hfin').
  exists (set_tail a (set_head a (upd s1 a nd'))), w'. split.
  { unfold LSCQ_init, bindM. fold s0. by rewrite Hg, Hprep. }
  assert (free s1 = []) as Hf1.
  { destruct Hfree as [Hp|[Hp _]]; rewrite Hf0 in Hp; [by apply Permutation_nil_cons in Hp|].
    symmetry in Hp. by apply Permutation_nil_l in Hp. }
  assert (forall x, hp (set_tail a (set_head a (upd s1 a nd'))) !! x = <[a := nd']> (hp s1) !! x) as Hhp by done.
  split; [|split; [done|]].
  2:{ exists a, nd'. split_and!; [done|done|by rewrite Hhp, lookup_insert_eq|done|].
      intros x Hx. by rewrite Hhp, lookup_insert_ne, Hoth, Hh0. }
  exists [], a, []. split; [|done]. pose proof bq_budget_pos.
  split; try done; try (change (free _) with (free s1); rewrite Hf1).
  - exists nd'. by rewrite Hhp, lookup_insert_eq.
  - by repeat constructor; intros ?%elem_of_nil.
  - by intros x Hx%elem_of_nil.
  - by apply (heap_ok_upd s1 a nda).
  - intros x. rewrite Hhp. destruct (decide (x = a)) as [->|Hne]; [set_solver|].
    rewrite lookup_insert_ne, Hoth, Hh0 by done. by intros [? ?].
Qed.

Lemma lscq_new_ok shard_count w :
  nshards = Nat.max 1 shard_count ->
  exists s w', LSCQ_init nshards hash w (LSCQ_new_members shard_count) = Some (s, w', tt) /\
    lrep s [] bq_budget.
Proof. intros Hn. destruct (lscq_new_first shard_count w Hn) as (s & w' & H1 & H2 & _). eauto. Qed.

(** The destructor returns every linked node to the pool ... *)
Lemma put_chain_eq c t nxt qt b s w fuel :
  seg (hp s) c t b -> node_ok (hp s) t 0 nxt qt b -> (forall x, is_Some (hp s !! x) -> 0 < x) ->
  pool_wf nshards (pool_ s) -> (length c + 2 <= fuel)%nat ->
  exists s', put_chain nshards hash fuel (first_addr c t) w s = Some (s', w, tt) /\
    client (pool_ s') = client (pool_ s) /\ pool_wf nshards (pool_ s') /\ free s' ≡ₚ c.*1 ++ t :: free s.
Proof.
  revert s fuel. induction c as [|[a q] c IH]; intros s fuel Hs Ht Hpos Hwf Hf.
  - destruct Ht as (nd & Ht & _ & Hnx & _). assert (0 < t) as Ht0 by (apply Hpos; by rewrite Ht).
    destruct fuel as [|[|fuel]]; simpl in Hf; try lia.
    destruct (run_Put nshards Hns hash w (pool_ s) t Hwf ltac:(lia)) as (p' & Hput & Hwf' & Hcl & Hst).
    exists (set_pool p' s). split_and!; [|done|done|done].
    simpl. destruct (Z.eqb_spec t 0); [lia|]. unfold bindM. rewrite (node_at_eq t nd) by done.
    unfold pool_Put. rewrite Hput. by rewrite Hnx.
  - destruct Hs as [(nd & Ha & _ & Hnx & _) Hs]. assert (0 < a) as Ha0 by (apply Hpos; by rewrite Ha).
    destruct fuel as [|fuel]; simpl in Hf; try lia.
    destruct (run_Put nshards Hns hash w (pool_ s) a Hwf ltac:(lia)) as (p' & Hput & Hwf' & Hcl & Hst).
    assert (hp (set_pool p' s) = hp s) as Hhp by (unfold hp; simpl; by rewrite Hcl).
    destruct (IH (set_pool p' s) fuel) as (s' & He & Hhp' & Hwf2 & Hfr);
      [by rewrite Hhp|by rewrite Hhp|by rewrite Hhp|done|lia|].
    exists s'. split_and!; [|by rewrite Hhp'|done|].
    + simpl. destruct (Z.eqb_spec a 0); [lia|]. unfold bindM. rewrite (node_at_eq a nd) by done.
      unfold pool_Put. rewrite Hput. by rewrite Hnx.
    + rewrite Hfr. unfold free at 1. simpl. rewrite Hst. fold (free s). solve_Permutation.
Qed.

Lemma put_chain_frame fuel c0 w s w' s' :
  put_chain nshards hash fuel c0 w s = Some (s', w', tt) ->
  closing_ s' = closing_ (B := B) s /\ active_ops_ s' = active_ops_ s.
Proof.
  revert c0 w s. induction fuel as [|fuel IH]; intros c0 w s He; [done|].
  simpl in He. destruct (c0 =? 0); [by injection He as <- _|]. unfold bindM, node_at in He.
  destruct (_ !! c0); [|done]. unfold pool_Put in He.
  destruct (run _ w (pool_ s)) as [[p1 w1] []]. by apply IH in He.
Qed.

(** ... and [Clear] deletes everything the pool holds, each object as often as it is
    stored. *)
Lemma foldl_delete xs (h : heap B) :
  let h' := foldl (fun f x => delete_Node x f) h xs in
  deleted h' = deleted h ++ xs /\ brk h' = brk h /\
  forall a, is_Some (nodes h' !! a) <-> is_Some (nodes h !! a) /\ a ∉ xs.
Proof.
  revert h. induction xs as [|x xs IH]; intros h; simpl.
  - rewrite app_nil_r. split_and!; [done|done|]. intros a. split; [|by intros [? _]]. intros Ha.
    split; [done|by apply not_elem_of_nil].
  - destruct (IH (delete_Node x h)) as (-> & -> & Hd). split_and!; [simpl; by rewrite <- app_assoc|done|].
    intros a. rewrite Hd. simpl. rewrite lookup_delete_is_Some, not_elem_of_cons. naive_solver.
Qed.

Lemma run_clear_from idxs w (p : pool (heap B)) :
  NoDup idxs ->
  exists p', run (ClearShared_from delete_Node idxs) w p = (p', w, tt) /\
    let xs := concat ((fun i => objects (shards_ p !!! i)) <$> idxs) in
    deleted (client p') = deleted (client p) ++ xs /\ brk (client p') = brk (client p) /\
    forall a, is_Some (nodes (client p') !! a) <-> is_Some (nodes (client p) !! a) /\ a ∉ xs.
Proof.
  intros Hnd. revert p. induction Hnd as [|i idxs Hi _ IH]; intros p.
  - exists p. split; [done|]. split_and!; [by rewrite app_nil_r|done|]. intros a.
    split; [intros Ha; split; [done|by apply not_elem_of_nil]|by intros [? _]].
  - destruct (IH (clear_shard delete_Node i p).1) as (p' & Hrun & Hd & Hb & Hn). exists p'. split; [done|].
    destruct (foldl_delete (objects (shards_ p !!! i)) (client p)) as (Hd0 & Hb0 & Hn0).
    assert (((fun j => objects (shards_ (clear_shard delete_Node i p).1 !!! j)) <$> idxs) =
      ((fun j => objects (shards_ p !!! j)) <$> idxs)) as Heq.
    { apply list_fmap_ext. intros n j Hj. simpl. rewrite list_lookup_total_insert_ne; [done|].
      intros ->. apply Hi. by apply (list_elem_of_lookup_2 _ n). }
    rewrite Heq in *. csimpl. simpl in Hd, Hb, Hn. split_and!.
    + by rewrite Hd, Hd0, app_assoc.
    + by rewrite Hb.
    + intros a. rewrite Hn, Hn0, not_elem_of_app. tauto.
Qed.

(** All shards, one after the other. *)
Lemma shards_concat (p : pool (heap B)) :
  length (shards_ p) = nshards ->
  concat ((fun i => objects (shards_ p !!! i)) <$> seq 0 nshards) = stored (shards_ p).
Proof.
  intros <-. unfold stored. f_equal. apply list_eq. intros i. rewrite !list_lookup_fmap.
  destruct (decide (i < length (shards_ p))%nat) as [Hi|Hi].
  - rewrite lookup_seq_lt by done. simpl. destruct (lookup_lt_is_Some_2 _ _ Hi) as [sh Hsh].
    by rewrite (list_lookup_total_correct _ _ _ Hsh), Hsh.
  - rewrite lookup_seq_ge, (lookup_ge_None_2 (shards_ p)) by lia. done.
Qed.

Lemma lscq_destroy_ok s q b w :
  lrep s q b ->
  exists fuel0, forall fuel, (fuel0 <= fuel)%nat ->
  exists s', LSCQ_destroy nshards hash fuel w s = Some (s', w, tt) /\ hp s' = ∅ /\
    NoDup (deleted (client (pool_ s'))) /\
    (forall a, a ∈ deleted (client (pool_ s')) <-> 0 < a < brk (client (pool_ s'))) /\
    head_ s' = 0 /\ tail_ s' = 0 /\ closing_ s' = true.
Proof.
  intros (c & t & qt & Hl & -> & Hact). exists (length c + 2)%nat. intros fuel Hf. pose proof Hl as [].
  destruct (put_chain_eq c t false qt b (set_closing true s) w fuel) as (s1 & He & Hhp & Hwf & Hfr);
    [done|done|intros x Hx; by apply lr_heap0|done|done|].
  set (s2 := set_tail 0 (set_head 0 s1)).
  destruct (run_clear_from (seq 0 nshards) w (pool_ s2) (NoDup_seq _ _)) as (p' & Hrun & Hdel & Hbrk & Hnodes).
  rewrite shards_concat in Hdel, Hnodes by apply Hwf. change (stored (shards_ (pool_ s2))) with (free s1) in *.
  change (client (pool_ s2)) with (client (pool_ s1)) in *. rewrite Hhp in Hdel, Hbrk, Hnodes.
  change (client (pool_ (set_closing true s))) with (client (pool_ s)) in *.
  destruct lr_heap0 as (_ & Hh & Hd0). rewrite Hd0 in Hdel. simpl in Hdel.
  assert (closing_ s1 = true /\ active_ops_ s1 = 0) as [Hc1 _].
  { by destruct (put_chain_frame _ _ _ _ _ _ He) as [-> ->]. }
  assert (forall a, a ∈ free s1 <-> 0 < a < brk (client (pool_ s))) as Hfree.
  { intros a. rewrite Hfr, <- Hh. split; [|apply lr_dom0].
    rewrite elem_of_app, elem_of_cons. intros [Ha|[->|Ha]].
    - by apply (seg_lookup _ _ _ _ _ lr_seg0).
    - destruct lr_last0 as (nd & Ht & _). by exists nd.
    - destruct (lr_free0 a Ha) as (nd & ? & Hn & _). by exists nd. }
  exists (set_pool p' s2). split.
  - unfold LSCQ_destroy, bindM, modify, get.
    change (active_ops_ (set_closing true s)) with (active_ops_ s). rewrite Hact.
    change (0 <? 0) with false. cbv iota beta.
    change (head_ (set_closing true s)) with (head_ s). rewrite lr_head0, He.
    fold s2. unfold pool_Clear, Clear, ClearShared. by rewrite Hrun.
  - simpl. rewrite Hdel, Hbrk. split_and!; [|by rewrite Hfr|done|done|done|exact Hc1]. apply map_empty. intros a.
    destruct (hp (set_pool p' s2) !! a) as [nd|] eqn:E; [exfalso|done].
    destruct (proj1 (Hnodes a) (ex_intro _ _ E)) as [Hs Hno]. apply Hno, Hfree, Hh, Hs.
Qed.

(** ** Sequences of operations *)

Definition do_op (fuel : nat) (o : qop Z) : M (qres Z) :=
  match o with
  | OpEnq p => bindM (enqueue nshards hash p) (fun r => ret (RBool r))
  | OpDeq => bindM (dequeue nshards hash fuel) (fun x => ret (RVal x))
  end.

Fixpoint do_ops (fuel : nat) (os : list (qop Z)) : M (list (qres Z)) :=
  match os with
  | [] => ret []
  | o :: os => bindM (do_op fuel o) (fun r => bindM (do_ops fuel os) (fun rs => ret (r :: rs)))
  end.

(** The same sequence on an unbounded queue. *)
Fixpoint fifo_ops (q : list Z) (os : list (qop Z)) : list (qres Z) * list Z :=
  match os with
  | [] => ([], q)
  | OpEnq p :: os =>
      let '(rs, q') := fifo_ops (if p =? 0 then q else q ++ [p]) os in
      (RBool (negb (p =? 0)) :: rs, q')
  | OpDeq :: os => let '(rs, q') := fifo_ops (tail q) os in (RVal (hd 0 q) :: rs, q')
  end.

Definition op_in_range (o : qop Z) : Prop := match o with OpEnq p => 0 <= p | OpDeq => True end.

Lemma lrep_weaken s q b b' : lrep s q b -> 0 <= b' <= b -> lrep s q b'.
Proof.
  intros (c & t & qt & [] & Hq) Hb. exists c, t, qt. split; [|done]. split; try done.
  - by apply (seg_weaken _ _ _ b).
  - by apply (node_ok_weaken _ _ _ _ _ b).
  - lia.
Qed.

(** More fuel does not change a result. *)
Lemma dequeue_loop_mono f f' wr w s out :
  dequeue_loop nshards hash f wr w s = Some out -> (f <= f')%nat ->
  dequeue_loop (B := B) nshards hash f' wr w s = Some out.
Proof.
  revert f' wr w s. induction f as [|f IH]; intros [|f'] wr w s He Hf; try done; try lia.
  unfold dequeue_loop in *; fold (dequeue_loop (B := B)) in *. unfold bindM in *.
  repeat case_match; simplify_eq; try done; eauto with lia.
Qed.

Lemma do_op_fuel f f' o w s s' w' r :
  do_op f o w s = Some (s', w', r) -> (f <= f')%nat -> do_op f' o w s = Some (s', w', r).
Proof.
  destruct o as [p|]; simpl; [done|]. unfold bindM. intros He Hf.
  destruct (dequeue nshards hash f w s) as [[[s1 w1] x]|] eqn:E; [|done].
  enough (dequeue nshards hash f' w s = Some (s1, w1, x)) as -> by done.
  revert E. unfold dequeue, with_active_ops, bindM, get, modify. destruct (closing_ s); [done|].
  simpl. destruct (closing_ s); [done|].
  destruct (dequeue_loop _ _ f _ _ _) as [[[s2 w2] y]|] eqn:E2; [|done].
  by rewrite (dequeue_loop_mono f f' _ _ _ _ E2).
Qed.

Lemma do_op_ok s q b w o :
  lrep s q b -> op_in_range o -> 4 <= b ->
  exists fuel0, forall fuel, (fuel0 <= fuel)%nat ->
  exists s' w', do_op fuel o w s = Some (s', w', hd (RVal 0) (fifo_ops q [o]).1) /\
    lrep s' (fifo_ops q [o]).2 (b - 1).
Proof.
  intros Hl Ho Hb. destruct o as [p|]; simpl in *.
  - exists 0%nat. intros fuel _. unfold bindM. destruct (Z.eqb_spec p 0) as [->|Hne]; simpl.
    + exists s, w. split; [done|]. apply (lrep_weaken _ _ b); [done|lia].
    + destruct (lscq_enqueue_ok s q b w p Hl ltac:(lia) ltac:(lia)) as (s' & w' & He & Hl').
      exists s', w'. by rewrite He.
  - destruct (lscq_dequeue_ok s q b w Hl Hb) as (fuel0 & Hf). exists fuel0. intros fuel Hfu.
    destruct (Hf fuel Hfu) as (s' & w' & He & Hl'). exists s', w'. unfold bindM. by rewrite He.
Qed.

Lemma fifo_ops_cons q o os :
  fifo_ops q (o :: os) =
  (hd (RVal 0) (fifo_ops q [o]).1 :: (fifo_ops (fifo_ops q [o]).2 os).1,
   (fifo_ops (fifo_ops q [o]).2 os).2).
Proof.
  destruct o as [p|]; simpl.
  - by destruct (fifo_ops (if p =? 0 then q else q ++ [p]) os).
  - by destruct (fifo_ops (tail q) os).
Qed.

Lemma do_ops_ok os : forall s q b w,
  lrep s q b -> Forall op_in_range os -> Z.of_nat (length os) + 3 <= b ->
  exists fuel0, forall fuel, (fuel0 <= fuel)%nat ->
  exists s' w', do_ops fuel os w s = Some (s', w', (fifo_ops q os).1) /\
    lrep s' (fifo_ops q os).2 (b - Z.of_nat (length os)).
Proof.
  induction os as [|o os IH]; intros s q b w Hl Ho Hb.
  - exists 0%nat. intros fuel _. exists s, w. split; [done|]. simpl. by rewrite Z.sub_0_r.
  - inversion Ho as [|? ? Ho1 Ho2]; subst. cbn [length] in Hb.
    destruct (do_op_ok s q b w o Hl Ho1 ltac:(lia)) as (f1 & H1).
    destruct (H1 f1 (Nat.le_refl _)) as (s1 & w1 & He1 & Hl1).
    destruct (IH s1 _ (b - 1) w1 Hl1 Ho2 ltac:(lia)) as (f2 & H2).
    exists (Nat.max f1 f2). intros fuel Hf. rewrite fifo_ops_cons. cbn [do_ops fst snd length].
    destruct (H1 fuel ltac:(lia)) as (s1' & w1' & He1' & Hl1').
    pose proof (do_op_fuel f1 fuel o w s s1 w1 _ He1 ltac:(lia)) as Heq.
    rewrite Heq in He1'. injection He1' as <- <-.
    destruct (H2 fuel ltac:(lia)) as (s2 & w2 & He2 & Hl2). exists s2, w2. split.
    + unfold bindM at 1. rewrite Heq. unfold bindM. by rewrite He2.
    + by replace (b - Z.of_nat (S (length os))) with (b - 1 - Z.of_nat (length os)) by lia.
Qed.

End lscq.

(** ** Theorems *)

(** C11. [LSCQ<T>], used by one thread, is an unbounded FIFO queue: a new
    queue answers every sequence of operations (up to the operation budget of
    its rings, for [SCQP] almost [2^64]) as the ideal queue does.  [enqueue] of a
    non-null pointer always returns [true], also when rings fill up and nodes
    have to be added or recycled; [enqueue(nullptr)] returns [false]; [dequeue]
    returns the oldest pointer, or [nullptr] exactly when the queue is empty.
    No operation dereferences a null or deleted node and all of them end.  The
    theorem holds for every implementation of the ring interface. *)
Theorem lscq_refines_fifo {B : BoundedQueue} {L : BoundedQueueLaws B} shard_count hash os w :
  Forall op_in_range os -> Z.of_nat (length os) + 3 <= bq_budget ->
  let ns := Nat.max 1 shard_count in
  exists s w0 fuel0,
    LSCQ_init ns hash w (LSCQ_new_members shard_count) = Some (s, w0, tt) /\
    forall fuel, (fuel0 <= fuel)%nat ->
    exists s' w', do_ops ns hash fuel os w0 s = Some (s', w', (fifo_ops [] os).1) /\
      lrep ns s' (fifo_ops [] os).2 (bq_budget - Z.of_nat (length os)).
Proof.
  intros Ho Hb ns.
  destruct (lscq_new_ok ns hash ltac:(lia) shard_count w eq_refl) as (s & w0 & Hi & Hl).
  destruct (do_ops_ok ns hash ltac:(lia) os s [] bq_budget w0 Hl Ho Hb) as (fuel0 & Hf).
  exists s, w0, fuel0. by split.
Qed.

(** Nine pointers through rings of four slots: the queue grows to three nodes,
    and drains them in order. *)
Definition lscq_demo_ops : list (qop Z) :=
  (OpEnq <$> [11; 12; 13; 14; 15; 16; 17; 18; 19]) ++ OpEnq 0 :: replicate 10 OpDeq.

Lemma lscq_refines_fifo_witness :
  exists s w0 fuel0, forall fuel, (fuel0 <= fuel)%nat ->
    exists s' w', do_ops (B := SCQP_queue 2 false) 2 7 fuel lscq_demo_ops w0 s =
      Some (s', w', (RBool <$> replicate 9 true) ++ RBool false ::
        (RVal <$> [11; 12; 13; 14; 15; 16; 17; 18; 19; 0])).
Proof.
  destruct (lscq_refines_fifo (L := SCQP_queue_laws 2 false ltac:(lia)) 2 7 lscq_demo_ops [])
    as (s & w0 & fuel0 & _ & Hf).
  - repeat constructor; simpl; lia.
  - vm_compute. discriminate.
  - exists s, w0, fuel0. intros fuel Hfu. destruct (Hf fuel Hfu) as (s' & w' & He & _).
    exists s', w'. exact He.
Defined.

(** C31. The destructor of an [LSCQ<T>] that was used by one thread: after any
    sequence of operations on a new queue, whatever pointers it still holds, the
    destructor terminates and gives every node that was ever made to [delete]
    exactly once, whether it is still linked or waits in the pool; it leaves the
    queue closed.  (After concurrent use it may delete a node twice:
    [LscqConcProofs.lscq_double_delete].) *)
Theorem lscq_destroy_no_leak {B : BoundedQueue} {L : BoundedQueueLaws B} shard_count hash os w :
  Forall op_in_range os -> Z.of_nat (length os) + 3 <= bq_budget ->
  let ns := Nat.max 1 shard_count in
  exists s w0 fuel0,
    LSCQ_init ns hash w (LSCQ_new_members shard_count) = Some (s, w0, tt) /\
    forall fuel, (fuel0 <= fuel)%nat ->
    exists s1 w1 fuel1, do_ops ns hash fuel os w0 s = Some (s1, w1, (fifo_ops [] os).1) /\
      forall fuel', (fuel1 <= fuel')%nat ->
      exists s2, LSCQ_destroy ns hash fuel' w1 s1 = Some (s2, w1, tt) /\
        nodes (client (pool_ s2)) = ∅ /\ NoDup (deleted (client (pool_ s2))) /\
        (forall a, a ∈ deleted (client (pool_ s2)) <-> 0 < a < brk (client (pool_ s2))) /\
        head_ s2 = 0 /\ tail_ s2 = 0 /\ closing_ s2 = true.
Proof.
  intros Ho Hb ns.
  destruct (lscq_new_ok ns hash ltac:(lia) shard_count w eq_refl) as (s & w0 & Hi & Hl).
  destruct (do_ops_ok ns hash ltac:(lia) os s [] bq_budget w0 Hl Ho Hb) as (fuel0 & Hf).
  exists s, w0, fuel0. split; [done|]. intros fuel Hfu. destruct (Hf fuel Hfu) as (s1 & w1 & He & Hl1).
  destruct (lscq_destroy_ok ns hash ltac:(lia) s1 _ _ w1 Hl1) as (fuel1 & Hd). by exists s1, w1, fuel1.
Qed.

Lemma lscq_destroy_no_leak_witness :
  exists s w0 fuel0, forall fuel, (fuel0 <= fuel)%nat ->
    exists s1 w1 fuel1, do_ops (B := SCQP_queue 2 true) 2 7 fuel (OpEnq <$> [11; 12; 13; 14; 15]) w0 s =
        Some (s1, w1, RBool <$> replicate 5 true) /\
      forall fuel', (fuel1 <= fuel')%nat ->
      exists s2, LSCQ_destroy 2 7 fuel' w1 s1 = Some (s2, w1, tt) /\ NoDup (deleted (client (pool_ s2))).
Proof.
  destruct (lscq_destroy_no_leak (L := SCQP_queue_laws 2 true ltac:(lia)) 2 7 (OpEnq <$> [11; 12; 13; 14; 15]) [])
    as (s & w0 & fuel0 & _ & Hf); [repeat constructor; simpl; lia|vm_compute; discriminate|].
  exists s, w0, fuel0. intros fuel Hfu. destruct (Hf fuel Hfu) as (s1 & w1 & fuel1 & He & Hd).
  exists s1, w1, fuel1. split; [exact He|]. intros fuel' Hfu'. destruct (Hd fuel' Hfu') as (s2 & H2 & _ & Hn & _).
  exists s2. split; [exact H2|exact Hn].
Defined.
