(* ===== verification/LscqConc.v ===== *)
(** * LscqConc: the linked queue of rings, with any number of threads

    Models [LSCQ<T>] ([include/lscq/lscq.hpp], [src/lscq.cpp]) access by access,
    on the state of [Lscq]: the accesses to the rings are those of [Scqp], the
    accesses to the pool of the nodes those of [Pool].  The labels follow the
    loops of the source: [EnqTry] is the loop of [enqueue] with its counter
    [retry], [DeqTry] the loop of [dequeue] with [wait_retries], [EnqRing] and
    [DeqRing] are inside an operation on the ring of a node, [DestroyWait] and
    [DestroyChain] are the loops of the destructor.

    An access to a node that does not exist (a null pointer, or a node that was
    deleted) is undefined and emits [LBad].  An access to the ring of a node
    while the ring is destroyed (between [~SCQP] and the placement [new] of
    [prepare_node_for_use]) is undefined and emits [LTorn].  A thread that made
    such an access stays at [Crashed].  An access to [entries_p_] or [ptr_array_]
    reads the pointer to the array and the element in one step, so that a thread
    that keeps the pointer across both steps of the renewal is not shown.

    The store of [closing_] in the destructor is a release store and the load of
    [active_ops_] after it an acquire load.  The parameter [ord] says what this
    means ([store_order]): with [RelAcq] the store may still be in the store
    buffer ([DestroyBuffered]) while the waiting loop reads [active_ops_].

    [LAdd], [LBack], [LIn] and [LOut] annotate the accesses of [ActiveOpsGuard]
    and of the second test of [closing_]: the increment, the decrement after the
    test failed, the test that succeeds and the decrement at the end. [LClose],
    [LDrained] and [LDown] annotate the destructor: the store to [closing_], the
    end of the wait and the first store after the walk over the list; [LEarly] is
    the end of a wait whose last load took effect before the store. *)

From stdpp Require Import base list numbers option gmap.
From Stdlib Require Import ZArith Lia.
From S2P Require Import Prelude Conc Fifo Ring TicketRing ScqSeq Scqp BoundedQueue Pool Lscq.

Local Open Scope Z_scope.

Inductive lev : Type :=
| LAdd | LBack | LIn | LOut
| LRing (a : Z) (e : tev)
| LPool (e : pev)
| LClose | LDrained | LEarly | LDown
| LBad (a : Z)
| LTorn (a : Z).

Inductive lop : Type :=
| LEnq (hash : nat) (p : Z)
| LDeq (hash : nat)
| LDestroy (hash : nat).

Inductive lres : Type :=
| LBool (b : bool)
| LVal (p : Z)
| LUnit.

#[global] Instance lop_eq_dec : EqDecision lop.
Proof. solve_decision. Defined.

#[global] Instance lres_eq_dec : EqDecision lres.
Proof. solve_decision. Defined.

(** The first attempt of [dequeue] on a ring, and the [j]-th one after it, with
    what was read of [next] and [finalized] in between. *)
Inductive phase : Type :=
| First
| Retry (j : nat) (nxt : Z) (is_finalized : bool).

Inductive label : Type :=
| EnqStart (hash : nat) (p : Z)
| EnqTry (hash : nat) (p : Z) (retry : nat)
| EnqRing (hash : nat) (p : Z) (retry : nat) (t : Z) (l : Scqp.label)
| DeqStart (hash : nat)
| DeqTry (hash : nat) (wait_retries : nat)
| DeqRing (hash : nat) (wait_retries : nat) (h : Z) (ph : phase) (l : Scqp.label)
| DestroyStart (hash : nat)
| DestroyBuffered (hash : nat)
| DestroyWait (hash : nat)
| DestroyChain (hash : nat) (current : Z)
| Crashed.

Section lscq.
Context (k : Z) (fb : bool) (nshards : nat) (ord : store_order).

Abbreviation B := (SCQP_queue k fb).
Abbreviation lstate := (Lscq.state B).

Definition prog_l := prog lstate lev (label + lres).

(** ** Accesses *)

Definition load {X : Set} (f : lstate -> X) (s : lstate) : lstate * X := (s, f s).

Definition store (f : lstate -> lstate) (s : lstate) : lstate * unit := (f s, tt).

Definition add_active (d : Z) (s : lstate) : lstate * unit :=
  (set_active (i32 (active_ops_ s + d)) s, tt).

(** [compare_exchange_strong] on [head_] and on [tail_]. *)
Definition cas_head_conc (expected desired : Z) (s : lstate) : lstate * bool :=
  if head_ s =? expected then (set_head desired s, true) else (s, false).

Definition cas_tail_conc (expected desired : Z) (s : lstate) : lstate * bool :=
  if tail_ s =? expected then (set_tail desired s, true) else (s, false).

Definition set_heap (h : heap B) (s : lstate) : lstate := set_pool (mkPool (shards_ (pool_ s)) h) s.

Definition set_node (a : Z) (nd : Node B) (s : lstate) : lstate :=
  let h := client (pool_ s) in set_heap (set_nodes (<[a := nd]> (nodes h)) h) s.

Definition set_torn (x : gset Z) (s : lstate) : lstate :=
  let h := client (pool_ s) in set_heap (mkHeap (nodes h) (brk h) (deleted h) x) s.

(** An access [f] to the node at [a]. *)
Definition on_node {X : Set} (a : Z) (f : Node B -> Node B * X) (s : lstate) : lstate * option X :=
  match nodes (client (pool_ s)) !! a with
  | Some nd => let '(nd', x) := f nd in (set_node a nd' s, Some x)
  | None => (s, None)
  end.

Definition node_evs {X : Set} (a : Z) (ev : X -> list lev) (r : option X) : list lev :=
  match r with Some x => ev x | None => [LBad a] end.

Definition field {X : Set} (a : Z) (f : Node B -> Node B * X) : prog lstate lev (option X) :=
  atomic_lin (on_node a f) (node_evs a (fun _ => [])).

Definition load_next (a : Z) := field a (fun nd => (nd, next nd)).

Definition load_finalized (a : Z) := field a (fun nd => (nd, finalized nd)).

Definition store_next (a v : Z) := field a (fun nd => (mkNode (scqp nd) v (finalized nd), tt)).

Definition store_finalized (a : Z) (v : bool) := field a (fun nd => (mkNode (scqp nd) (next nd) v, tt)).

Definition cas_finalized_conc (a : Z) : prog lstate lev (option bool) :=
  field a (fun nd => if negb (finalized nd) then (mkNode (scqp nd) (next nd) true, true) else (nd, false)).

Definition cas_next_conc (a expected desired : Z) : prog lstate lev (option bool) :=
  field a (fun nd => if next nd =? expected then (mkNode (scqp nd) desired (finalized nd), true)
                     else (nd, false)).

(** An access [f] to the ring of the node at [a]: [None] when there is no node,
    [Some None] when its ring is destroyed. *)
Definition on_ring {X : Set} (a : Z) (f : Scqp.state -> Scqp.state * X) (s : lstate) :
    lstate * option (option X) :=
  match nodes (client (pool_ s)) !! a with
  | None => (s, None)
  | Some nd =>
      if decide (a ∈ torn (client (pool_ s))) then (s, Some None)
      else let '(sc, x) := f (scqp nd) in
           (set_node a (mkNode (B := B) sc (next nd) (finalized nd)) s, Some (Some x))
  end.

Definition ring_evs {X : Set} (a : Z) (ev : X -> list lev) (r : option (option X)) : list lev :=
  match r with Some (Some x) => ev x | Some None => [LTorn a] | None => [LBad a] end.

(** A program of the ring of the node at [a]. *)
Fixpoint at_ring {A} (a : Z) (p : prog Scqp.state tev A) : prog lstate lev (option A) :=
  match p with
  | Ret r => Ret (Some r)
  | Act X f ev c =>
      Act (option (option X)) (on_ring a f) (ring_evs a (fun x => LRing a <$> ev x))
        (fun r => match r with Some (Some x) => at_ring a (c x) | _ => Ret None end)
  | Choose c => Choose (fun b => at_ring a (c b))
  end.

(** [node->scqp.~SCQP<T>()]: the arrays of the ring are freed. *)
Definition tear_ring (a : Z) (s : lstate) : lstate * option (option unit) :=
  match nodes (client (pool_ s)) !! a with
  | None => (s, None)
  | Some _ =>
      if decide (a ∈ torn (client (pool_ s))) then (s, Some None)
      else (set_torn ({[a]} ∪ torn (client (pool_ s))) s, Some (Some tt))
  end.

(** [new (&node->scqp) SCQP<T>(scqsize)]. *)
Definition make_ring (a : Z) (s : lstate) : lstate * option unit :=
  match nodes (client (pool_ s)) !! a with
  | None => (s, None)
  | Some nd =>
      let s := set_node a (mkNode (B := B) (SCQP_new (size k) fb) (next nd) (finalized nd)) s in
      (set_torn (torn (client (pool_ s)) ∖ {[a]}) s, Some tt)
  end.

(** What follows an access to a node, unless the access was undefined. *)
Definition deref {A} (p : prog lstate lev (option A)) (q : A -> prog_l) : prog_l :=
  bind p (fun r => match r with Some x => q x | None => Ret (inl Crashed) end).

(** The two statements that replace a ring that could not be reset. *)
Definition renew_ring (a : Z) (rest : prog_l) : prog_l :=
  deref (bind (atomic_lin (tear_ring a) (ring_evs a (fun _ => []))) (fun r => Ret (mjoin r))) (fun _ =>
  deref (atomic_lin (make_ring a) (node_evs a (fun _ => []))) (fun _ => rest)).

(** The members of the pool. *)
Definition on_pool {A} (p : prog (pool (heap B)) pev A) : prog lstate lev A :=
  lift pool_ set_pool LPool p.

Definition pool_get (hash : nat) : prog lstate lev Z := on_pool (Get (Some new_Node) nshards hash).

Definition pool_put (hash : nat) (a : Z) : prog lstate lev unit := on_pool (Put nshards hash a).

Definition pool_clear : prog lstate lev unit := on_pool (Clear delete_Node nshards).

(** ** The guard *)

(** The tests of [closing_] and the increment; [refuse] is the result when the
    queue is closing, [go_on] what is done otherwise. *)
Definition enter (refuse : lres) (go_on : label) : prog_l :=
  (let! c := atomic (load closing_) in
   if (c : bool) then Ret (inr refuse)
   else
     do! atomic_lin (add_active 1) (fun _ => [LAdd]);
     let! c := atomic_lin (load closing_) (fun c : bool => if c then [] else [LIn]) in
     if (c : bool) then
       do! atomic_lin (add_active (-1)) (fun _ => [LBack]);
       Ret (inr refuse)
     else Ret (inl go_on))%prog.

Definition leave (r : lres) : prog_l :=
  (do! atomic_lin (add_active (-1)) (fun _ => [LOut]); Ret (inr r))%prog.

(** ** [enqueue] *)

Definition prepare_conc (a : Z) (rest : prog_l) : prog_l :=
  if a =? 0 then rest
  else
    deref (store_next a 0) (fun _ =>
    deref (store_finalized a false) (fun _ =>
    deref (at_ring a (reset_for_reuse_prog (size k) fb)) (fun ok =>
    if negb ok then renew_ring a rest else rest))).

(** The advance of [tail_]. *)
Definition advance_tail (t : Z) (rest : prog_l) : prog_l :=
  deref (load_next t) (fun nxt =>
  if negb (nxt =? 0) then (do! atomic (cas_tail_conc t nxt); rest)%prog else rest).

Definition extend_conc (hash : nat) (t : Z) (rest : prog_l) : prog_l :=
  deref (cas_finalized_conc t) (fun fin =>
  if (fin : bool) then
    (let! new_node := pool_get hash in
     prepare_conc new_node (
     deref (cas_next_conc t 0 new_node) (fun linked =>
     if negb linked then do! pool_put hash new_node; advance_tail t rest
     else advance_tail t rest)))%prog
  else advance_tail t rest).

Definition enqueue_start (hash : nat) (p : Z) : prog_l :=
  if p =? 0 then Ret (inr (LBool false)) else enter (LBool false) (EnqTry hash p 0).

Definition enqueue_try (hash : nat) (p : Z) (retry : nat) : prog_l :=
  if (retry <? MAX_RETRIES)%nat then
    (let! t := atomic (load tail_) in
     Ret (inl (EnqRing hash p retry t (Scqp.EnqEntry p))))%prog
  else leave (LBool false).

Definition enqueue_ring (hash : nat) (p : Z) (retry : nat) (t : Z) (l : Scqp.label) : prog_l :=
  deref (at_ring t (Scqp.body (size k) (bot k) fb l)) (fun r =>
  match r with
  | inl l => Ret (inl (EnqRing hash p retry t l))
  | inr (RBool true) => leave (LBool true)
  | inr _ => extend_conc hash t (Ret (inl (EnqTry hash p (S retry))))
  end).

(** ** [dequeue] *)

Definition dequeue_try (hash wait_retries : nat) : prog_l :=
  (let! h := atomic (load head_) in
   Ret (inl (DeqRing hash wait_retries h First Scqp.DeqEntry)))%prog.

(** What follows the attempts on the ring of a node: the test of emptiness and
    the advance of [head_]. *)
Definition dequeue_verify (hash wait_retries : nat) (h nxt : Z) (is_finalized : bool) : prog_l :=
  if is_finalized then
    deref (at_ring h is_empty_prog) (fun empty =>
    if negb empty then Ret (inl (DeqTry hash wait_retries))
    else if nxt =? 0 then
      let wait_retries := S wait_retries in
      if (MAX_WAIT_RETRIES <? wait_retries)%nat then leave (LVal 0)
      else Ret (inl (DeqTry hash wait_retries))
    else
      (let! advanced := atomic (cas_head_conc h nxt) in
       if (advanced : bool) then do! pool_put hash h; Ret (inl (DeqTry hash 0))
       else Ret (inl (DeqTry hash 0)))%prog)
  else Ret (inl (DeqTry hash wait_retries)).

(** After an attempt that found nothing. *)
Definition dequeue_null (hash wait_retries : nat) (h : Z) (ph : phase) : prog_l :=
  match ph with
  | First =>
      deref (load_next h) (fun nxt =>
      deref (load_finalized h) (fun is_finalized =>
      if negb is_finalized && (nxt =? 0) then leave (LVal 0)
      else Ret (inl (DeqRing hash wait_retries h (Retry 0 nxt is_finalized) Scqp.DeqEntry))))
  | Retry j nxt is_finalized =>
      if (S j <? MAX_SCQP_RETRIES)%nat
      then Ret (inl (DeqRing hash wait_retries h (Retry (S j) nxt is_finalized) Scqp.DeqEntry))
      else dequeue_verify hash wait_retries h nxt is_finalized
  end.

Definition dequeue_ring (hash wait_retries : nat) (h : Z) (ph : phase) (l : Scqp.label) : prog_l :=
  deref (at_ring h (Scqp.body (size k) (bot k) fb l)) (fun r =>
  match r with
  | inl l => Ret (inl (DeqRing hash wait_retries h ph l))
  | inr (RVal r) => if negb (r =? 0) then leave (LVal r) else dequeue_null hash wait_retries h ph
  | inr (RBool _) => dequeue_null hash wait_retries h ph
  end).

(** ** The destructor *)

Definition destroy_close (rest : prog_l) : prog_l :=
  (do! atomic_lin (store (set_closing true)) (fun _ => [LClose]); rest)%prog.

Definition destroy_start (hash : nat) : prog_l :=
  match ord with
  | SeqCst => destroy_close (Ret (inl (DestroyWait hash)))
  | RelAcq => Ret (inl (DestroyBuffered hash))
  end.

(** A turn of the waiting loop with the store of [closing_] in the store buffer:
    it takes effect now, or the turn is done first.  After the loop the store
    takes effect before the first mutex of the pool is taken; here, at once. *)
Definition destroy_buffered (hash : nat) : prog_l :=
  (let! drains := choose in
   if (drains : bool) then destroy_close (Ret (inl (DestroyWait hash)))
   else
     let! a := atomic_lin (load active_ops_) (fun a => if 0 <? a then [] else [LEarly]) in
     if 0 <? a then Ret (inl (DestroyBuffered hash))
     else destroy_close (
       let! current := atomic (load head_) in
       Ret (inl (DestroyChain hash current))))%prog.

Definition destroy_wait (hash : nat) : prog_l :=
  (let! a := atomic_lin (load active_ops_) (fun a => if 0 <? a then [] else [LDrained]) in
   if 0 <? a then Ret (inl (DestroyWait hash))
   else
     let! current := atomic (load head_) in
     Ret (inl (DestroyChain hash current)))%prog.

Definition destroy_chain (hash : nat) (current : Z) : prog_l :=
  if current =? 0 then
    (do! atomic_lin (store (set_head 0)) (fun _ => [LDown]);
     do! atomic (store (set_tail 0));
     do! pool_clear;
     Ret (inr LUnit))%prog
  else
    deref (load_next current) (fun nxt =>
    (do! pool_put hash current; Ret (inl (DestroyChain hash nxt)))%prog).

Definition body (l : label) : prog_l :=
  match l with
  | EnqStart hash p => enqueue_start hash p
  | EnqTry hash p retry => enqueue_try hash p retry
  | EnqRing hash p retry t l => enqueue_ring hash p retry t l
  | DeqStart hash => enter (LVal 0) (DeqTry hash 0)
  | DeqTry hash wait_retries => dequeue_try hash wait_retries
  | DeqRing hash wait_retries h ph l => dequeue_ring hash wait_retries h ph l
  | DestroyStart hash => destroy_start hash
  | DestroyBuffered hash => destroy_buffered hash
  | DestroyWait hash => destroy_wait hash
  | DestroyChain hash current => destroy_chain hash current
  | Crashed => Ret (inl Crashed)
  end.

Definition entry (o : lop) : label :=
  match o with
  | LEnq hash p => EnqStart hash p
  | LDeq hash => DeqStart hash
  | LDestroy hash => DestroyStart hash
  end.

(** A new queue, as the constructor of [Lscq] leaves it. *)
Definition lscq_new (hash : nat) : lstate :=
  match LSCQ_init nshards hash [] (LSCQ_new_members nshards) with
  | Some (s, _, _) => s
  | None => LSCQ_new_members nshards
  end.

End lscq.
