(* ===== verification/LscqConcProofs.v ===== *)
(** * LscqConcProofs: memory and shutdown of the linked queue under concurrency

    [lscq_memory_safe]: in every interleaving no operation of [LSCQ] accesses a
    node that does not exist, since nodes go back to the pool and are deleted by
    the destructor only, and the guard keeps the destructor from deleting before
    the last operation has left, provided its store is ordered before its load.
    What is not safe is shown by executions: [lscq_gate_reordered] (the gate with
    the memory orders of the code), [lscq_double_delete] (the destructor deletes
    nodes twice) and [lscq_torn_ring] (a ring is destroyed under an operation).

    [lscq_stale_tail]: the nodes exist, but an [enqueue] that was delayed stores
    its pointer in a node that was recycled meanwhile, and the pointer is lost.

    [lscq_double_dequeue]: a [dequeue] that was delayed with a ticket of a node that
    was recycled meanwhile returns a pointer that another one returns too. *)

From stdpp Require Import base list numbers option gmap.
From Stdlib Require Import ZArith Lia.
From S2P Require Import Prelude Conc Fifo Ring TicketRing ScqSeq Scqp BoundedQueue Pool PoolProofs Lscq LscqSeq LscqConc.

Local Open Scope Z_scope.

Abbreviation lhist := (list (hev lev lop lres)).

(** ** What the history determines *)

Definition holders (h : lhist) : list nat :=
  region (fun e => match e with LAdd => true | _ => false end)
         (fun e => match e with LBack | LOut => true | _ => false end) h.

Definition insiders (h : lhist) : list nat :=
  region (fun e => match e with LIn => true | _ => false end)
         (fun e => match e with LOut => true | _ => false end) h.

(** The threads that called the destructor. *)
Definition destroys (h : lhist) : list nat :=
  omap (fun x => match x with HCall i (LDestroy _) => Some i | _ => None end) h.

(** Whether a thread that has emitted [es] is counted in [active_ops_]. *)
Definition counted (es : list lev) : bool :=
  foldl (fun b e => match e with LAdd => true | LBack | LOut => false | _ => b end) false es.

Lemma counted_snoc es e :
  counted (es ++ [e]) = match e with LAdd => true | LBack | LOut => false | _ => counted es end.
Proof. unfold counted. by rewrite foldl_app. Qed.

(** Events on rings and on the pool. *)
Definition quiet (e : lev) : Prop :=
  match e with LRing _ _ | LPool _ | LTorn _ => True | _ => False end.

Lemma counted_quiet es fs : Forall quiet fs -> counted (es ++ fs) = counted es.
Proof.
  intros Hf. induction fs as [|e fs IH] using rev_ind; [by rewrite app_nil_r|].
  apply Forall_app in Hf as [Hf He]. rewrite Forall_singleton in He.
  rewrite app_assoc, counted_snoc, <- (IH Hf). by destruct e.
Qed.

Lemma regions_quiet h i es : Forall quiet es ->
  holders (h ++ (HLin i <$> es)) = holders h /\ insiders (h ++ (HLin i <$> es)) = insiders h.
Proof. intros He. split; apply region_quiet; (eapply list.Forall_impl; [exact He|]); by intros []. Qed.

Lemma destroys_app h l : destroys (h ++ l) = destroys h ++ destroys l.
Proof. apply omap_app. Qed.

Lemma destroys_lin h i es : destroys (h ++ (HLin i <$> es)) = destroys h.
Proof.
  rewrite destroys_app. assert (forall fs, destroys (HLin i <$> fs) = []) as ->; [|apply app_nil_r].
  unfold destroys. intros fs. by induction fs.
Qed.

Lemma events_quiet (h : lhist) i es e :
  Forall quiet es -> ~ quiet e -> e ∈ events (h ++ (HLin i <$> es)) <-> e ∈ events h.
Proof.
  intros Hq He. rewrite events_app, events_lin, elem_of_app. split; [|by left].
  intros [?|Hin]; [done|]. by destruct He; apply (proj1 (list.Forall_forall _ _) Hq).
Qed.

Lemma hist_quiet (h : lhist) i es j e :
  Forall quiet es -> ~ quiet e -> HLin j e ∈ h ++ (HLin i <$> es) <-> HLin j e ∈ h.
Proof.
  intros Hq He. rewrite elem_of_app. split; [|by left]. intros [?|Hin]; [done|].
  apply list_elem_of_fmap in Hin as (e' & [= -> ->] & Hin).
  by destruct He; apply (proj1 (list.Forall_forall _ _) Hq).
Qed.

(** ** The invariant *)

Section proofs.
Context (k : Z) (fb : bool) (nshards : nat).

Abbreviation lstate := (Lscq.state (SCQP_queue k fb)).

(** The destructor is called at most once, and fewer than [2^31] operations are
    active at a time, so that [active_ops_] does not overflow. *)
Definition lscq_env (s : lstate) (h : lhist) : Prop :=
  Z.of_nat (length (holders h)) < 2147483648 /\ (length (destroys h) <= 1)%nat.

Definition live (s : lstate) (a : Z) : Prop := is_Some (nodes (client (pool_ s)) !! a).

Definition null_or_live (s : lstate) (a : Z) : Prop := a = 0 \/ live s a.

(** Every pointer in the shared state leads to a node. *)
Record mem_ok (s : lstate) : Prop := {
  mo_head : live s (head_ s);
  mo_tail : live s (tail_ s);
  mo_next a nd : nodes (client (pool_ s)) !! a = Some nd -> null_or_live s (next nd);
  mo_pool : Forall (fun sh => Forall (live s) (objects sh)) (shards_ (pool_ s));
  mo_deleted : deleted (client (pool_ s)) = []
}.

Record lscq_inv (s : lstate) (h : lhist) : Prop := {
  lq_bad a : LBad a ∉ events h;
  lq_nodup : NoDup (holders h);
  lq_active : active_ops_ s = Z.of_nat (length (holders h));
  lq_bound : Z.of_nat (length (holders h)) < 2147483648;
  lq_holder i : i ∈ holders h -> exists o es, opview i h = Some (o, es) /\ counted es = true;
  lq_inside i : i ∈ insiders h -> i ∈ holders h;
  lq_close : LClose ∈ events h -> closing_ s = true;
  lq_drained : LDrained ∈ events h -> LClose ∈ events h /\ insiders h = [];
  lq_down : LDown ∈ events h -> LDrained ∈ events h;
  lq_downer i : HLin i LDown ∈ h -> i ∈ destroys h;
  lq_serial : (length (destroys h) <= 1)%nat;
  lq_mem : LDown ∉ events h -> mem_ok s
}.

(** Until the destructor takes the queue down, no node goes away. *)
Definition lscq_grant (j : nat) (c c' : lstate * lhist) : Prop :=
  LDown ∉ events c'.2 -> forall a, live c.1 a -> live c'.1 a.

(** The place of a thread with respect to the guard. *)
Definition lplace (i : nat) (held inside : bool) (h : lhist) : Prop :=
  (exists o fs, opview i h = Some (o, fs) /\ counted fs = held) /\
  (i ∈ holders h <-> held = true) /\ (i ∈ insiders h <-> inside = true).

(** A thread that keeps the nodes alive: it is inside, or it is the one that runs
    the destructor and has not taken the queue down. *)
Definition up (i : nat) (h : lhist) : Prop :=
  i ∈ insiders h \/ (i ∈ destroys h /\ HLin i LDown ∉ h).

(** Thread [i] knows that the nodes of [ls] exist; [g] tells an operation from the
    destructor. *)
Definition knows (i : nat) (g : bool) (ls : list Z) (s : lstate) (h : lhist) : Prop :=
  lplace i g g h /\ up i h /\ Forall (live s) ls.

(** The pointer [x], when it is not null, in front of [ls]. *)
Definition opt (x : Z) (ls : list Z) : list Z := if x =? 0 then ls else x :: ls.

Definition lscq_good (o : lop) (es : list lev) (r : lres) : Prop := counted es = false.

Definition phase_ptr (ph : phase) : Z := match ph with First => 0 | Retry _ nxt _ => nxt end.

Definition lscq_loop (i : nat) (l : label) (s : lstate) (h : lhist) : Prop :=
  match l with
  | EnqStart _ _ | DeqStart _ => lplace i false false h
  | EnqTry _ _ _ | DeqTry _ _ => knows i true [] s h
  | EnqRing _ _ _ t _ => knows i true [t] s h
  | DeqRing _ _ a ph _ => knows i true (opt (phase_ptr ph) [a]) s h
  | DestroyStart _ => knows i false [] s h
  | DestroyBuffered _ => False
  | DestroyWait _ => knows i false [] s h /\ LClose ∈ events h
  | DestroyChain _ c => knows i false (opt c []) s h /\ LDrained ∈ events h
  | Crashed => exists g, lplace i g g h
  end.

Abbreviation stable := (stable lscq_inv lscq_grant).
Abbreviation wp := (wp lscq_inv lscq_grant lscq_env).
Abbreviation Q := (Qloop lscq_loop lscq_good).

(** *** Stability *)

Lemma up_not_down s h i : lscq_inv s h -> up i h -> LDown ∉ events h.
Proof.
  intros HI [Hi|[Hd Hn]] Hin.
  - apply (lq_down _ _ HI), (lq_drained _ _ HI) in Hin as [_ Hnil]. rewrite Hnil in Hi. by apply elem_of_nil in Hi.
  - apply elem_events in Hin as [j Hin]. pose proof (lq_downer _ _ HI j Hin) as Hj.
    pose proof (lq_serial _ _ HI) as Hl. destruct (destroys h) as [|x [|]]; [by apply elem_of_nil in Hj| |simpl in Hl; lia].
    apply list_elem_of_singleton in Hj, Hd. subst. done.
Qed.

Lemma stable_place i g g' : stable i (fun _ h => lplace i g g' h).
Proof.
  intros c c' (j & Hj & Hh & _) ((o & fs & Ho & Hfs) & H1 & H2). split_and!.
  - exists o, fs. by rewrite (hist_step_view j i c.2 c'.2).
  - unfold holders. by rewrite (hist_step_region _ _ j i c.2 c'.2).
  - unfold insiders. by rewrite (hist_step_region _ _ j i c.2 c'.2).
Qed.

Lemma stable_up i : stable i (fun _ h => up i h).
Proof.
  intros c c' (j & Hj & Hh & _) [Hi|[Hd Hn]].
  - left. unfold insiders. by rewrite (hist_step_region _ _ j i c.2 c'.2).
  - right. split; [|intros Hin; apply Hn; by apply (hist_step_own j i c.2 c'.2)].
    destruct Hh as (l & -> & _). rewrite destroys_app, elem_of_app. by left.
Qed.

Lemma lscq_stable_knows i g ls : stable i (knows i g ls).
Proof.
  intros c c' Hr (Hp & Hu & Hl). pose proof (stable_up i c c' Hr Hu) as Hu'.
  split_and!; [by apply (stable_place i g g c c')|done|].
  destruct Hr as (j & _ & _ & HG & _ & HI'). eapply list.Forall_impl; [exact Hl|].
  apply HG. by apply (up_not_down c'.1 c'.2 i).
Qed.

Lemma stable_event i e : stable i (fun _ h => e ∈ events h).
Proof. apply (stable_events _ _ i (fun es => e ∈ es)). intros es es' Hin. apply elem_of_app. by left. Qed.

Lemma lscq_stable_loop i l : stable i (lscq_loop i l).
Proof.
  destruct l; unfold lscq_loop; auto using stable_and, stable_place, lscq_stable_knows, stable_event.
  - by intros c c' _.
  - intros c c' Hr [g Hp]. exists g. by apply (stable_place i g g c c').
Qed.

Lemma lscq_jump i l s h : lscq_loop i l s h -> wp i (Ret (inl l)) (Q i) (s, h).
Proof. intros HL. apply (wp_ret _ _ _ i); [apply lscq_stable_loop|done]. Qed.

(** The end of an operation that is not counted. *)
Lemma lscq_end i r inside s h :
  lplace i false inside h -> wp i (Ret (inr r)) (Q i) (s, h).
Proof.
  intros ((o & fs & Ho & Hc) & _). apply (wp_ret _ _ _ i); [apply stable_post|]. by exists o, fs.
Qed.

(** The end of an operation that made an undefined access. *)
Lemma lscq_crash i g ls s h : knows i g ls s h -> wp i (Ret (inl Crashed)) (Q i) (s, h).
Proof. intros (Hp & _). apply lscq_jump. by exists g. Qed.

(** *** Steps on rings and on the pool *)

Lemma inv_quiet s s' h i es :
  lscq_inv s h -> Forall quiet es -> closing_ s' = closing_ s -> active_ops_ s' = active_ops_ s ->
  (LDown ∉ events h -> mem_ok s -> mem_ok s') -> lscq_inv s' (h ++ (HLin i <$> es)).
Proof.
  intros HI Hq Hc Ha Hm. destruct (regions_quiet h i es Hq) as [R1 R2]. destruct HI.
  split; rewrite ?R1, ?R2, ?destroys_lin, ?Ha, ?Hc, ?(events_quiet h i es) by (done || by intros []);
    try done.
  - intros a. rewrite (events_quiet h i es) by (done || by intros []). apply lq_bad0.
  - intros j Hj. destruct (lq_holder0 j Hj) as (o & fs & Ho & Hg). rewrite opview_lin. case_decide; [|eauto].
    subst. rewrite Ho. eexists _, _. split; [done|]. by rewrite counted_quiet.
  - intros j. rewrite hist_quiet by (done || by intros []). apply lq_downer0.
  - auto.
Qed.

Lemma place_quiet i g g' h es :
  Forall quiet es -> lplace i g g' h -> lplace i g g' (h ++ (HLin i <$> es)).
Proof.
  intros Hq ((o & fs & Ho & Hc) & H1 & H2). destruct (regions_quiet h i es Hq) as [R1 R2].
  split; [|by rewrite R1, R2]. exists o, (fs ++ es). rewrite opview_lin, decide_True, Ho by done.
  split; [done|]. by rewrite counted_quiet.
Qed.

Lemma knows_quiet i g ls s s' h es :
  Forall quiet es -> (forall a, live s a -> live s' a) -> knows i g ls s h ->
  knows i g ls s' (h ++ (HLin i <$> es)).
Proof.
  intros Hq Hl (Hp & Hu & Hls). destruct (regions_quiet h i es Hq) as [R1 R2]. split_and!.
  - by apply place_quiet.
  - destruct Hu as [Hi|[Hd Hn]]; [left; by rewrite R2|right]. rewrite destroys_lin.
    by rewrite hist_quiet by (done || by intros []).
  - eapply list.Forall_impl; [exact Hls|done].
Qed.

Lemma knows_opt i g x ls s h : knows i g ls s h -> null_or_live s x -> knows i g (opt x ls) s h.
Proof.
  intros (Hp & Hu & Hl) Hx. split_and!; [done|done|]. unfold opt.
  destruct (Z.eqb_spec x 0); [done|]. constructor; [by destruct Hx|done].
Qed.

Lemma knows_sub i g ls ls' s h : ls' ⊆ ls -> knows i g ls s h -> knows i g ls' s h.
Proof.
  intros Hs (Hp & Hu & Hl). split_and!; [done|done|].
  rewrite list.Forall_forall in *. auto.
Qed.

(** The nodes are replaced one by one and never removed. *)
Lemma live_set_node a nd s b : live s a -> live (set_node k fb a nd s) b <-> live s b.
Proof.
  intros Ha. unfold live, set_node. simpl. destruct (decide (b = a)) as [->|Hne].
  - rewrite lookup_insert_eq. split; [done|by eexists].
  - by rewrite lookup_insert_ne.
Qed.

Lemma mem_set_node a nd nd' s :
  mem_ok s -> nodes (client (pool_ s)) !! a = Some nd ->
  null_or_live s (next nd') -> mem_ok (set_node k fb a nd' s).
Proof.
  intros [] Ha Hn. assert (live s a) as Hla by by exists nd.
  assert (forall b, live s b -> live (set_node k fb a nd' s) b) as Hlive by (intros b; by apply live_set_node).
  split; try (by apply Hlive).
  - intros b nd2. simpl. destruct (decide (b = a)) as [->|Hne].
    + rewrite lookup_insert_eq. intros [= <-]. destruct Hn; [by left|right; by apply Hlive].
    + rewrite lookup_insert_ne by done. intros Hb. destruct (mo_next0 b nd2 Hb); [by left|right; by apply Hlive].
  - eapply list.Forall_impl; [exact mo_pool0|]. intros sh Hsh. eapply list.Forall_impl; [exact Hsh|]. done.
  - done.
Qed.

(** An access to a node that the thread knows to exist; it writes to [next] only
    what the thread knows. *)
Lemma wp_node {A} i g ls a (X : Set) f ev (c : option X -> prog lstate lev A) QQ s h :
  (forall x, Forall quiet (ev x)) ->
  (forall nd nd' x, f nd = (nd', x) -> next nd' = next nd \/ next nd' = 0 \/ next nd' ∈ ls) ->
  knows i g ls s h -> a ∈ ls ->
  (forall nd nd' x s h, f nd = (nd', x) -> lscq_inv s h -> knows i g ls s h -> null_or_live s (next nd) ->
     wp i (c (Some x)) QQ (s, h)) ->
  wp i (Act (option X) (on_node k fb a f) (node_evs a ev) c) QQ (s, h).
Proof.
  intros Hq Hf Hk Ha Hc. apply (wp_act _ _ _ i (knows i g ls)); [apply lscq_stable_knows|done|].
  clear s h Hk. intros s h s2 r Hk HI Hr _. pose proof Hk as (_ & Hu & Hl).
  pose proof (up_not_down s h i HI Hu) as Hnd. pose proof (lq_mem _ _ HI Hnd) as Hm.
  destruct (proj1 (list.Forall_forall _ _) Hl a Ha) as [nd Hn]. unfold on_node in Hr. rewrite Hn in Hr.
  destruct (f nd) as [nd' x] eqn:Ef. injection Hr as <- <-. simpl node_evs.
  assert (live s a) as Hla by by exists nd.
  assert (forall b, live s b -> live (set_node k fb a nd' s) b) as Hlive by (intros b; by apply live_set_node).
  assert (lscq_inv (set_node k fb a nd' s) (h ++ (HLin i <$> ev x))) as HI'.
  { apply (inv_quiet s); [done|done|done|done|]. intros _ _. apply (mem_set_node a nd); [done|done|].
    destruct (Hf nd nd' x Ef) as [->|[?|Hin]]; [by apply (mo_next _ Hm a)|by left|right].
    by apply (proj1 (list.Forall_forall _ _) Hl). }
  split_and!; [by intros _|done|]. apply (Hc nd nd' x); [done|done|by apply (knows_quiet _ _ _ s)|].
  destruct (mo_next _ Hm a nd Hn); [by left|right; by apply Hlive].
Qed.

(** The same for the fields of a node, followed by the rest of the operation. *)
Lemma wp_field i g ls a (X : Set) f (c : X -> prog_l k fb) QQ s h :
  (forall nd nd' x, f nd = (nd', x) -> next nd' = next nd \/ next nd' = 0 \/ next nd' ∈ ls) ->
  knows i g ls s h -> a ∈ ls ->
  (forall nd nd' x s h, f nd = (nd', x) -> lscq_inv s h -> knows i g ls s h -> null_or_live s (next nd) ->
     wp i (c x) QQ (s, h)) ->
  wp i (deref k fb (field k fb a f) c) QQ (s, h).
Proof.
  intros Hf Hk Ha Hc. unfold deref, field. simpl. by apply (wp_node i g ls); [|done..].
Qed.

(** An access that changes rings only. *)
Definition ring_step (s s' : lstate) : Prop :=
  (forall b, live s b -> live s' b) /\ (mem_ok s -> mem_ok s') /\ closing_ s' = closing_ s /\
  active_ops_ s' = active_ops_ s.

Lemma ring_step_refl s : ring_step s s.
Proof. by split_and!. Qed.

Lemma ring_step_node s a nd nd' :
  nodes (client (pool_ s)) !! a = Some nd -> next nd' = next nd -> ring_step s (set_node k fb a nd' s).
Proof.
  intros Ha Hn. assert (live s a) as Hla by by exists nd. split_and!; [|intros Hm|done|done].
  - intros b Hb. by apply live_set_node.
  - apply (mem_set_node a nd); [done|done|]. rewrite Hn. by apply (mo_next _ Hm a).
Qed.

Lemma ring_step_torn s x : ring_step s (set_torn k fb x s).
Proof. split_and!; [done|by intros []|done|done]. Qed.

Lemma ring_step_trans s s' s'' : ring_step s s' -> ring_step s' s'' -> ring_step s s''.
Proof. intros (A1 & B1 & C1 & D1) (A2 & B2 & C2 & D2). split_and!; [auto|auto|congruence|congruence]. Qed.

Lemma wp_ring_step {A} i g ls a (Y : Set) F ev (c : Y -> prog lstate lev A) QQ s h :
  (forall s s' y, live s a -> F s = (s', y) -> ring_step s s' /\ Forall quiet (ev y)) ->
  knows i g ls s h -> a ∈ ls ->
  (forall y s h, lscq_inv s h -> knows i g ls s h -> wp i (c y) QQ (s, h)) ->
  wp i (Act Y F ev c) QQ (s, h).
Proof.
  intros HF Hk Ha Hc. apply (wp_act _ _ _ i (knows i g ls)); [apply lscq_stable_knows|done|].
  clear s h Hk. intros s h s2 y Hk HI Hy _. pose proof Hk as (_ & _ & Hl).
  destruct (HF s s2 y) as [(H1 & H2 & H3 & H4) Hq]; [by apply (proj1 (list.Forall_forall _ _) Hl)|done|].
  assert (lscq_inv s2 (h ++ (HLin i <$> ev y))) as HI' by (apply (inv_quiet s); auto).
  split_and!; [by intros _|done|]. apply Hc; [done|]. by apply (knows_quiet _ _ _ s).
Qed.

(** A program of the ring of a node; the ring may be destroyed under it. *)
Lemma wp_at_ring {A} i g ls a (p : prog Scqp.state tev A) s h :
  knows i g ls s h -> a ∈ ls ->
  wp i (at_ring k fb a p) (fun r s h => knows i g ls s h) (s, h).
Proof.
  intros Hk Ha. revert s h Hk. induction p as [r|X f ev c IH|c IH]; intros s h Hk; simpl.
  - by apply (wp_ret _ _ _ i); [apply lscq_stable_knows|].
  - apply (wp_ring_step i g ls a); [|done|done|].
    + intros s1 s2 y [nd Hn]. unfold on_ring. rewrite Hn. case_decide.
      * intros [= <- <-]. split; [apply ring_step_refl|by repeat constructor].
      * destruct (f (scqp nd)) as [sc x]. intros [= <- <-]. split; [by apply (ring_step_node _ _ nd)|].
        simpl. by apply list.Forall_fmap, list.Forall_true.
    + intros [[x|]|] s1 h1 _ Hk1; [by apply IH|by apply (wp_ret _ _ _ i); [apply lscq_stable_knows|]..].
  - intros b. by apply IH.
Qed.

Lemma wp_ring {A} i g ls a (p : prog Scqp.state tev A) (c : A -> prog_l k fb) s h :
  lscq_inv s h -> knows i g ls s h -> a ∈ ls ->
  (forall x s h, lscq_inv s h -> knows i g ls s h -> wp i (c x) (Q i) (s, h)) ->
  wp i (deref k fb (at_ring k fb a p) c) (Q i) (s, h).
Proof.
  intros HI Hk Ha Hc. unfold deref. apply wp_bind; [done|].
  eapply wp_mono; [|by apply (wp_at_ring i g ls)]. intros [x|] s1 h1 HI1 Hk1; [by apply Hc|by apply (lscq_crash i g ls)].
Qed.

(** A ring is destroyed and constructed again. *)
Lemma wp_renew i g ls a (rest : prog_l k fb) s h :
  knows i g ls s h -> a ∈ ls ->
  (forall s h, lscq_inv s h -> knows i g ls s h -> wp i rest (Q i) (s, h)) ->
  wp i (renew_ring k fb a rest) (Q i) (s, h).
Proof.
  intros Hk Ha Hrest. unfold renew_ring, deref. simpl. apply (wp_ring_step i g ls a); [|done|done|].
  { intros s1 s2 y [nd Hn]. unfold tear_ring. rewrite Hn. case_decide; intros [= <- <-];
      (split; [|by repeat constructor]); [apply ring_step_refl|apply ring_step_torn]. }
  clear s h Hk. intros [[[]|]|] s h HI Hk; simpl; [|by apply (lscq_crash i g ls)..].
  apply (wp_act _ _ _ i (knows i g ls)); [apply lscq_stable_knows|done|].
  clear s h HI Hk. intros s h s2 y Hk HI Hy _. pose proof Hk as (_ & _ & Hl).
  destruct (proj1 (list.Forall_forall _ _) Hl a Ha) as [nd Hn]. unfold make_ring in Hy. rewrite Hn in Hy.
  injection Hy as <- <-. simpl node_evs. rewrite lin_nil. set (s2 := set_torn _ _ _ _).
  assert (ring_step s s2) as (H1 & H2 & H3 & H4).
  { eapply ring_step_trans; [by apply (ring_step_node s a nd (mkNode (B := SCQP_queue k fb) (SCQP_new (size k) fb) (next nd) (finalized nd)))|].
    apply ring_step_torn. }
  assert (lscq_inv s2 h) as HI'.
  { rewrite <- (app_nil_r h). apply (inv_quiet s s2 h i []); [done|constructor|done|done|auto]. }
  split_and!; [by intros _|done|]. apply Hrest; [done|]. rewrite <- (app_nil_r h).
  by apply (knows_quiet _ _ _ s s2 h []); [constructor|..].
Qed.

(** *** The pool *)

#[local] Arguments on_shard : simpl never.
#[local] Arguments call_factory : simpl never.

Lemma shard_live s idx : Forall (fun sh => Forall (live s) (objects sh)) (shards_ (pool_ s)) ->
  Forall (live s) (objects (shards_ (pool_ s) !!! idx)).
Proof.
  intros Hs. destruct (decide (idx < length (shards_ (pool_ s)))%nat) as [Hlt|Hge].
  - by apply (Forall_lookup_total_1 (fun sh => Forall (live s) (objects sh))).
  - rewrite list_lookup_total_alt, lookup_ge_None_2 by lia. constructor.
Qed.

(** A critical section on one shard. *)
Lemma wp_shard {A} i g ls idx (X : Set) (f : Shard -> Shard * X) (ev : X -> list pev)
    (c : X -> prog lstate lev A) QQ s h :
  (forall s sh sh' x, Forall (live s) (objects sh) -> Forall (live s) ls -> f sh = (sh', x) ->
     Forall (live s) (objects sh')) ->
  knows i g ls s h ->
  (forall sh sh' x s h, f sh = (sh', x) -> Forall (live s) (objects sh) -> lscq_inv s h ->
     knows i g ls s h -> wp i (c x) QQ (s, h)) ->
  wp i (Act X (fun s => let '(p, x) := on_shard idx f (pool_ s) in (set_pool p s, x))
          (fun x => LPool <$> ev x) c) QQ (s, h).
Proof.
  intros Hf Hk Hc. apply (wp_act _ _ _ i (knows i g ls)); [apply lscq_stable_knows|done|].
  clear s h Hk. intros s h s2 x Hk HI Hx _. pose proof Hk as (_ & Hu & Hl).
  pose proof (lq_mem _ _ HI (up_not_down s h i HI Hu)) as Hm.
  pose proof (shard_live s idx (mo_pool _ Hm)) as Hsh. unfold on_shard in Hx.
  destruct (f (shards_ (pool_ s) !!! idx)) as [sh' x'] eqn:Ef. injection Hx as <- <-.
  set (s' := set_pool _ s). assert (forall a, live s a <-> live s' a) as Hlive by done.
  assert (Forall quiet (LPool <$> ev x')) as Hq by by apply list.Forall_fmap, list.Forall_true.
  assert (lscq_inv s' (h ++ (HLin i <$> (LPool <$> ev x')))) as HI'.
  { apply (inv_quiet s); [done|done|done|done|]. intros _ _. destruct Hm. split; try done.
    simpl. apply Forall_insert; [done|]. by apply (Hf s (shards_ (pool_ s) !!! idx) sh' x'). }
  split_and!; [by intros _ a|done|].
  apply (Hc (shards_ (pool_ s) !!! idx) sh' x'); [done|done|done|]. by apply (knows_quiet _ _ _ s).
Qed.

Lemma pop_live s sh sh' x :
  Forall (live s) (objects sh) -> pop_object sh = (sh', x) ->
  Forall (live s) (objects sh') /\ null_or_live s x.
Proof.
  unfold pop_object. intros Hl. destruct (list.last (objects sh)) as [y|] eqn:E.
  - apply last_Some in E as [l E]. rewrite E in *. intros [= <- <-]. simpl.
    apply Forall_app in Hl as [Hl Hy]. rewrite Forall_singleton in Hy.
    rewrite removelast_app, app_nil_r by done. split; [done|by right].
  - intros [= <- <-]. split; [done|by left].
Qed.

Lemma wp_pop {A} i g ls idx (c : Z -> prog lstate lev A) QQ s h :
  knows i g ls s h ->
  (forall x s h, lscq_inv s h -> knows i g (opt x ls) s h -> wp i (c x) QQ (s, h)) ->
  wp i (Act Z (fun s => let '(p, x) := on_shard idx pop_object (pool_ s) in (set_pool p s, x))
          (fun x => LPool <$> took x) c) QQ (s, h).
Proof.
  intros Hk Hc. apply (wp_shard i g ls); [|done|].
  - intros s1 sh sh' x Hsh _ Hp. by apply (pop_live s1 sh sh' x).
  - intros sh sh' x s1 h1 Hp Hsh HI1 Hk1. apply Hc; [done|]. apply knows_opt; [done|].
    by apply (pop_live s1 sh sh' x).
Qed.

Lemma wp_pool_put {A} i g ls hash a (c : prog lstate lev A) QQ s h :
  knows i g ls s h -> a = 0 \/ a ∈ ls ->
  (forall s h, knows i g ls s h -> wp i c QQ (s, h)) ->
  wp i (bind (pool_put k fb nshards hash a) (fun _ => c)) QQ (s, h).
Proof.
  intros Hk Ha Hc. unfold pool_put, on_pool, Put, PutShared.
  destruct (Z.eqb_spec a 0) as [->|Hne]; [by apply Hc|]. destruct Ha as [?|Ha]; [done|].
  simpl. apply (wp_shard i g ls (CurrentShardIndex nshards hash) unit (push_object a) (fun _ => [PStore a]));
    [|done|].
  - intros s1 sh sh' [] Hsh Hls [= <-]. simpl. apply Forall_app. split; [done|].
    rewrite Forall_singleton. by apply (proj1 (list.Forall_forall _ _) Hls).
  - intros _ _ [] s1 h1 _ _ _ Hk1. by apply Hc.
Qed.

(** The factory makes a node. *)
Lemma wp_make {A} i g ls (c : Z -> prog lstate lev A) QQ s h :
  knows i g ls s h ->
  (forall x s h, lscq_inv s h -> knows i g (opt x ls) s h -> wp i (c x) QQ (s, h)) ->
  wp i (Act Z (fun s => let '(p, x) := call_factory (Some new_Node) (pool_ s) in (set_pool p s, x))
          (fun x => LPool <$> [PMake x]) c) QQ (s, h).
Proof.
  intros Hk Hc. apply (wp_act _ _ _ i (knows i g ls)); [apply lscq_stable_knows|done|].
  clear s h Hk. intros s h s2 x Hk HI [= <- <-] _. set (s' := set_pool _ s).
  assert (forall a, live s a -> live s' a) as Hlive.
  { intros a [nd Ha]. unfold live. simpl. destruct (decide (a = brk (client (pool_ s)))) as [->|Hne].
    - rewrite lookup_insert_eq. by eexists.
    - rewrite lookup_insert_ne by done. by eexists. }
  assert (lscq_inv s' (h ++ (HLin i <$> (LPool <$> [PMake (brk (client (pool_ s)))])))) as HI'.
  { apply (inv_quiet s); [done|by repeat constructor|done|done|]. intros _ []. split; try (by apply Hlive).
    - intros a nd. simpl. destruct (decide (a = brk (client (pool_ s)))) as [->|Hne].
      + rewrite lookup_insert_eq. intros [= <-]. by left.
      + rewrite lookup_insert_ne by done. intros Ha. destruct (mo_next0 a nd Ha); [by left|right; by apply Hlive].
    - eapply list.Forall_impl; [exact mo_pool0|]. intros sh Hsh. eapply list.Forall_impl; [exact Hsh|]. done.
    - done. }
  split_and!; [intros _ a; apply Hlive|done|]. apply Hc; [done|]. apply knows_opt.
  - apply (knows_quiet _ _ _ s); [by repeat constructor|done|done].
  - right. unfold live. simpl. rewrite lookup_insert_eq. by eexists.
Qed.

Lemma wp_steal i g ls idx ns s h :
  knows i g ls s h ->
  wp i (on_pool k fb (GetShared_steal (Some new_Node) nshards idx ns))
    (fun x s h => knows i g (opt x ls) s h) (s, h).
Proof.
  unfold on_pool. revert s h. induction ns as [|m ns IH]; intros s h Hk; simpl.
  - apply (wp_make i g ls); [done|]. intros x s1 h1 _ Hk1. apply (wp_ret _ _ _ i); [apply lscq_stable_knows|done].
  - intros [|]; simpl; [|by apply IH].
    apply (wp_pop i g ls); [done|]. intros x s1 h1 _ Hk1. unfold opt in Hk1.
    destruct (Z.eqb_spec x 0) as [->|Hx]; simpl; [by apply IH|].
    apply (wp_ret _ _ _ i); [apply lscq_stable_knows|]. unfold opt. by destruct (Z.eqb_spec x 0).
Qed.

Lemma wp_pool_get i g ls hash s h :
  knows i g ls s h ->
  wp i (pool_get k fb nshards hash) (fun x s h => knows i g (opt x ls) s h) (s, h).
Proof.
  intros Hk. unfold pool_get, Get, GetShared, on_pool. simpl.
  apply (wp_pop i g ls); [done|]. intros x s1 h1 _ Hk1. unfold opt in Hk1.
  destruct (Z.eqb_spec x 0) as [->|Hx]; simpl; [by apply wp_steal|].
  apply (wp_ret _ _ _ i); [apply lscq_stable_knows|]. unfold opt. by destruct (Z.eqb_spec x 0).
Qed.

(** *** The guard *)

Lemma lholder_snoc h i e j o es :
  (forall j, j ∈ holders h -> exists o es, opview j h = Some (o, es) /\ counted es = true) ->
  opview i h = Some (o, es) ->
  j ∈ holders (h ++ [HLin i e]) -> exists o es, opview j (h ++ [HLin i e]) = Some (o, es) /\ counted es = true.
Proof.
  intros Hc Ho Hj. unfold holders in Hj. rewrite region_snoc in Hj. fold (holders h) in Hj.
  rewrite opview_snoc. destruct (decide (j = i)) as [->|Hne].
  - rewrite Ho. eexists _, _. split; [done|]. rewrite counted_snoc.
    destruct e; simpl in Hj; try done; try (by apply filter_not_self in Hj);
      destruct (Hc i Hj) as (o' & es' & Ho' & Hg); congruence.
  - apply Hc. destruct e; simpl in Hj; try done; [rewrite elem_of_cons in Hj; naive_solver| |];
      by apply list_elem_of_filter in Hj as [_ Hj].
Qed.

(** An event [e] of the guard or of the destructor. *)
Lemma inv_mark s s' h i e g g' :
  lscq_inv s h -> lplace i g g' h ->
  let h' := h ++ [HLin i e] in
  (forall a, e <> LBad a) ->
  NoDup (holders h') -> active_ops_ s' = Z.of_nat (length (holders h')) ->
  Z.of_nat (length (holders h')) < 2147483648 ->
  (forall j, j ∈ insiders h' -> j ∈ holders h') ->
  (closing_ s = true \/ e = LClose -> closing_ s' = true) ->
  (LDrained ∈ events h \/ e = LDrained -> LClose ∈ events h /\ insiders h' = []) ->
  (e = LDown -> LDrained ∈ events h /\ i ∈ destroys h) ->
  (LDown ∉ events h' -> mem_ok s -> mem_ok s') ->
  lscq_inv s' h'.
Proof.
  intros HI ((o & fs & Ho & _) & _) h' Hbad Hnd Ha Hb Hin Hcl Hdr Hdn Hm. pose proof HI as [].
  assert (forall e', e' ∈ events h' <-> e' ∈ events h \/ e' = e) as Hev.
  { intros e'. unfold h'. by rewrite events_snoc, elem_ev_snoc. }
  assert (destroys h' = destroys h) as Hds by apply (destroys_lin h i [e]).
  split; rewrite ?Hds; try done.
  - intros a. rewrite Hev. intros [Hx|Hx]; [by apply (lq_bad0 a)|by apply (Hbad a)].
  - intros j. by apply (lholder_snoc h i e j o fs).
  - rewrite Hev. intros [Hx|Hx]; apply Hcl; [left; auto|by right].
  - rewrite !Hev. intros [Hx|Hx]; destruct Hdr; auto.
  - rewrite !Hev. intros [Hx|Hx]; [auto|]. left. by apply Hdn.
  - intros j. unfold h'. rewrite elem_lin_snoc. intros [Hx|[-> Hx]]; [auto|]. by apply Hdn.
  - rewrite Hev. intros Hx. apply Hm; [by rewrite Hev|]. apply lq_mem0. tauto.
Qed.

Lemma place_mark i g g' held inside e h :
  lplace i g g' h -> match e with LAdd => true | LBack | LOut => false | _ => g end = held ->
  (i ∈ holders (h ++ [HLin i e]) <-> held = true) ->
  (i ∈ insiders (h ++ [HLin i e]) <-> inside = true) -> lplace i held inside (h ++ [HLin i e]).
Proof.
  intros ((o & fs & Ho & Hc) & _) He H1 H2. split; [|done]. exists o, (fs ++ [e]).
  rewrite opview_snoc, decide_True, Ho by done. split; [done|]. rewrite counted_snoc, Hc. by destruct e.
Qed.

Lemma mem_active n s : mem_ok s -> mem_ok (set_active n s).
Proof. by intros []. Qed.

(** The increment. *)
Lemma guard_add s h i :
  lscq_inv s h -> lplace i false false h -> Z.of_nat (length (holders (h ++ [HLin i LAdd]))) < 2147483648 ->
  lscq_inv (add_active k fb 1 s).1 (h ++ [HLin i LAdd]) /\ lplace i true false (h ++ [HLin i LAdd]).
Proof.
  intros HI Hp Hlt. pose proof Hp as (_ & H1 & H2).
  assert (holders (h ++ [HLin i LAdd]) = i :: holders h) as Hh by (unfold holders; by rewrite region_snoc).
  assert (insiders (h ++ [HLin i LAdd]) = insiders h) as Hin by (unfold insiders; by rewrite region_snoc).
  assert (i ∉ holders h) as Hi by naive_solver. rewrite Hh in Hlt. simpl in Hlt. pose proof HI as []. split.
  - apply (inv_mark s _ h i _ false false); rewrite ?Hh, ?Hin; try done.
    + by constructor.
    + simpl. rewrite lq_active0, i32_small by lia. lia.
    + intros j Hj. right. auto.
    + intros [?|?]; [done|congruence].
    + intros [Hd|?]; [by apply lq_drained0|congruence].
    + intros _. apply mem_active.
  - apply (place_mark i false false); [done|done| |]; rewrite ?Hh, ?Hin; [|done]. split; [done|]. intros _. left.
Qed.

(** A decrement, after the test failed or at the end. *)
Lemma guard_sub s h i inside e :
  lscq_inv s h -> lplace i true inside h -> (e = LBack /\ inside = false) \/ (e = LOut /\ inside = true) ->
  lscq_inv (add_active k fb (-1) s).1 (h ++ [HLin i e]) /\ lplace i false false (h ++ [HLin i e]).
Proof.
  intros HI Hp He. pose proof Hp as (_ & H1 & H2).
  assert (holders (h ++ [HLin i e]) = filter (fun j => j <> i) (holders h)) as Hh.
  { unfold holders. rewrite region_snoc. by destruct He as [[-> _]|[-> _]]. }
  assert (insiders (h ++ [HLin i e]) = if inside then filter (fun j => j <> i) (insiders h) else insiders h) as Hin.
  { unfold insiders. rewrite region_snoc. by destruct He as [[-> ->]|[-> ->]]. }
  assert (i ∈ holders h) as Hi by naive_solver. pose proof HI as [].
  pose proof (NoDup_remove_length i _ lq_nodup0 Hi) as Hlen.
  assert (forall e', e' ∈ [LClose; LDrained; LDown] -> e <> e') as Hne.
  { intros e' He' ->. destruct He as [[-> _]|[-> _]]; repeat (apply elem_of_cons in He' as [He'|He']; [done|]);
      by apply elem_of_nil in He'. }
  split.
  - apply (inv_mark s _ h i _ true inside); rewrite ?Hh, ?Hin; try done.
    + intros a ->. naive_solver.
    + by apply NoDup_filter.
    + simpl. rewrite lq_active0, Hlen. apply i32_small. lia.
    + lia.
    + intros j Hj. apply list_elem_of_filter. destruct inside.
      * apply list_elem_of_filter in Hj as [? Hj]. split; [done|auto].
      * split; [|auto]. intros ->. naive_solver.
    + intros [?|?]; [done|]. by destruct (Hne LClose); [repeat constructor|].
    + intros [Hd|?]; [|by destruct (Hne LDrained); [repeat constructor|]].
      destruct (lq_drained0 Hd) as [? ->]. split; [done|]. by destruct inside.
    + intros ?. by destruct (Hne LDown); [repeat constructor|].
    + intros _. apply mem_active.
  - apply (place_mark i true inside); [done|by destruct He as [[-> _]|[-> _]]| |]; rewrite ?Hh, ?Hin.
    + split; [intros Hf; by apply filter_not_self in Hf|done].
    + destruct inside; [|done]. split; [intros Hf; by apply filter_not_self in Hf|done].
Qed.

(** The second test of [closing_] that succeeds: the destructor is not past its
    wait. *)
Lemma guard_in s h i :
  lscq_inv s h -> lplace i true false h -> closing_ s = false ->
  lscq_inv s (h ++ [HLin i LIn]) /\ knows i true [] s (h ++ [HLin i LIn]).
Proof.
  intros HI Hp Hc. pose proof Hp as (_ & H1 & H2).
  assert (holders (h ++ [HLin i LIn]) = holders h) as Hh by (unfold holders; by rewrite region_snoc).
  assert (insiders (h ++ [HLin i LIn]) = i :: insiders h) as Hin by (unfold insiders; by rewrite region_snoc).
  pose proof HI as []. split; [|split_and!].
  - apply (inv_mark s _ h i _ true false); rewrite ?Hh, ?Hin; try done.
    + intros j [->|Hj]%elem_of_cons; [naive_solver|auto].
    + intros [?|?]; [done|congruence].
    + intros [Hd|?]; [|congruence]. destruct (lq_drained0 Hd) as [Hcl _]. apply lq_close0 in Hcl. congruence.
  - apply (place_mark i true false); [done|done| |]; rewrite ?Hh, ?Hin; [done|]. split; [done|]. intros _. left.
  - left. rewrite Hin. left.
  - constructor.
Qed.

Ltac one_event i := change (HLin i <$> [?e]) with [HLin (Op := lop) (R := lres) i e] in *.

Lemma grant_active j n s h h' : lscq_grant j (s, h) (set_active n s, h').
Proof. by intros _ a. Qed.

Lemma lscq_enter i refuse go_on s h :
  lplace i false false h ->
  (forall s h, knows i true [] s h -> lscq_loop i go_on s h) ->
  wp i (enter k fb refuse go_on) (Q i) (s, h).
Proof.
  intros Hp Hgo. unfold enter. simpl.
  apply (wp_silent _ _ _ i (fun _ h => lplace i false false h)); [apply stable_place|done|].
  clear s h Hp. intros s h s2 c Hp HI [= <- <-] _. split_and!; [by intros _ a|done|].
  destruct (closing_ s); [by apply (lscq_end i _ false)|]. simpl.
  apply (wp_act _ _ _ i (fun _ h => lplace i false false h)); [apply stable_place|done|].
  clear s h Hp HI. intros s h s2 [] Hp HI [= <-] [Hb _]. one_event i.
  destruct (guard_add s h i HI Hp Hb) as [HI' Hp']. split_and!; [apply grant_active|done|].
  apply (wp_act _ _ _ i (fun _ h => lplace i true false h)); [apply stable_place|done|].
  clear s h Hp HI Hp' HI' Hb. intros s h s2 c Hp HI [= <- <-] _. destruct (closing_ s) eqn:Ec; simpl.
  - rewrite app_nil_r. split_and!; [by intros _ a|done|].
    apply (wp_act _ _ _ i (fun _ h => lplace i true false h)); [apply stable_place|done|].
    clear s h Hp HI Ec. intros s h s2 [] Hp HI [= <-] _. one_event i.
    destruct (guard_sub s h i false LBack HI Hp ltac:(by left)) as [HI' Hp'].
    split_and!; [apply grant_active|done|by apply (lscq_end i _ false)].
  - destruct (guard_in s h i HI Hp Ec) as [HI' Hk']. split_and!; [by intros _ a|done|].
    apply lscq_jump. by apply Hgo.
Qed.

Lemma lscq_leave i ls r s h :
  knows i true ls s h -> wp i (leave k fb r) (Q i) (s, h).
Proof.
  intros Hk. unfold leave. simpl.
  apply (wp_act _ _ _ i (fun _ h => lplace i true true h)); [apply stable_place|apply Hk|].
  clear s h Hk. intros s h s2 [] Hp HI [= <-] _. one_event i.
  destruct (guard_sub s h i true LOut HI Hp ltac:(by right)) as [HI' Hp'].
  split_and!; [apply grant_active|done|by apply (lscq_end i _ false)].
Qed.

(** *** [head_] and [tail_] *)

Lemma wp_root {A} i g ls (f : lstate -> Z) (c : Z -> prog lstate lev A) QQ s h :
  (forall s, mem_ok s -> live s (f s)) -> knows i g ls s h ->
  (forall x s h, lscq_inv s h -> knows i g (x :: ls) s h -> wp i (c x) QQ (s, h)) ->
  wp i (Act Z (load k fb f) (fun _ => []) c) QQ (s, h).
Proof.
  intros Hf Hk Hc. apply (wp_silent _ _ _ i (knows i g ls)); [apply lscq_stable_knows|done|].
  clear s h Hk. intros s h s2 x Hk HI [= <- <-] _. split_and!; [by intros _ a|done|].
  apply Hc; [done|]. destruct Hk as (Hp & Hu & Hl). split_and!; [done|done|]. constructor; [|done].
  apply Hf, (lq_mem _ _ HI), (up_not_down s h i HI Hu).
Qed.

(** A compare-and-swap that writes a pointer the thread knows to [head_] or
    [tail_]. *)
Lemma wp_cas_root {A} i g ls x f (c : bool -> prog lstate lev A) QQ s h :
  (f = cas_head_conc k fb \/ f = cas_tail_conc k fb) -> knows i g ls s h -> x ∈ ls -> forall y,
  (forall b s h, lscq_inv s h -> knows i g ls s h -> wp i (c b) QQ (s, h)) ->
  wp i (Act bool (f y x) (fun _ => []) c) QQ (s, h).
Proof.
  intros Hf Hk Hx y Hc. apply (wp_silent _ _ _ i (knows i g ls)); [apply lscq_stable_knows|done|].
  clear s h Hk. intros s h s2 b Hk HI Hr _.
  assert (s2 = s \/ s2 = set_head x s \/ s2 = set_tail x s) as Hs2.
  { destruct Hf as [-> | ->]; [unfold cas_head_conc in Hr|unfold cas_tail_conc in Hr];
      destruct (_ =? _); injection Hr as <- _; auto. }
  assert (forall a, live s a -> live s2 a) as Hlive by (by destruct Hs2 as [->|[-> | ->]]).
  assert (lscq_inv s2 h) as HI'.
  { rewrite <- (app_nil_r h). apply (inv_quiet s s2 h i []); [done|constructor|by destruct Hs2 as [->|[-> | ->]]..|].
    intros _ []. pose proof Hk as (_ & _ & Hl). pose proof (proj1 (list.Forall_forall _ _) Hl x Hx).
    by destruct Hs2 as [->|[-> | ->]]. }
  split_and!; [by intros _ a; apply Hlive|done|]. apply Hc; [done|].
  destruct Hk as (Hp & Hu & Hl). split_and!; [done|done|]. by eapply list.Forall_impl.
Qed.

(** *** [enqueue] *)

Abbreviation rest_ok i ls rest QQ :=
  (forall s h, lscq_inv s h -> knows i true ls s h -> wp i rest QQ (s, h)).

Lemma wp_prepare i ls a rest s h :
  lscq_inv s h -> knows i true (opt a ls) s h -> rest_ok i (opt a ls) rest (Q i) ->
  wp i (prepare_conc k fb a rest) (Q i) (s, h).
Proof.
  intros HI Hk Hrest. unfold prepare_conc, opt in *. destruct (Z.eqb_spec a 0) as [->|Ha]; [by apply Hrest|].
  assert (a ∈ a :: ls) as Hin by left.
  apply (wp_field i true (a :: ls)); [|done|done|].
  { intros nd nd' x [= <- _]. right. by left. }
  clear s h HI Hk. intros _ _ _ s h _ HI Hk _. apply (wp_field i true (a :: ls)); [|done|done|].
  { intros nd nd' x [= <- _]. by left. }
  clear s h HI Hk. intros _ _ _ s h _ HI Hk _. apply (wp_ring i true (a :: ls)); [done|done|done|].
  clear s h HI Hk. intros [|] s h HI Hk; simpl; [by apply Hrest|]. by apply (wp_renew i true (a :: ls)).
Qed.

Lemma lscq_advance i ls t rest QQ s h :
  knows i true ls s h -> t ∈ ls -> rest_ok i ls rest QQ ->
  wp i (advance_tail k fb t rest) QQ (s, h).
Proof.
  intros Hk Ht Hrest. unfold advance_tail, load_next. apply (wp_field i true ls); [|done|done|].
  { intros nd nd' x [= <- _]. by left. }
  clear s h Hk. intros nd nd' x s h [= <- <-] HI Hk Hx. destruct (Z.eqb_spec (next nd) 0) as [|Hne]; simpl.
  - by apply Hrest.
  - apply (wp_cas_root i true (next nd :: ls) (next nd)); [by right| |left|].
    + apply (knows_opt i true (next nd)) in Hk; [|done]. unfold opt in Hk. by destruct (Z.eqb_spec (next nd) 0).
    + intros b s1 h1 HI1 Hk1. apply Hrest; [done|]. apply (knows_sub i true (next nd :: ls)); [|done].
      intros y Hy. by right.
Qed.

Lemma opt_sub x ls : ls ⊆ opt x ls.
Proof. unfold opt. destruct (x =? 0); [done|]. intros y Hy. by right. Qed.

Lemma wp_extend i ls hash t rest s h :
  knows i true ls s h -> t ∈ ls -> rest_ok i ls rest (Q i) ->
  wp i (extend_conc k fb nshards hash t rest) (Q i) (s, h).
Proof.
  intros Hk Ht Hrest. unfold extend_conc, cas_finalized_conc. apply (wp_field i true ls); [|done|done|].
  { intros nd nd' x. destruct (negb _); intros [= <- _]; by left. }
  clear s h Hk. intros _ _ [|] s h _ HI Hk _; [|by apply (lscq_advance i ls)].
  apply wp_bind; [done|]. eapply wp_mono; [|by apply (wp_pool_get i true ls)].
  clear s h HI Hk. intros a s h HI Hk. simpl in Hk.
  assert (t ∈ opt a ls) as Ht' by by apply opt_sub.
  assert (rest_ok i (opt a ls) rest (Q i)) as Hrest'.
  { intros s1 h1 HI1 Hk1. apply Hrest; [done|]. apply (knows_sub i true (opt a ls)); [apply opt_sub|done]. }
  apply (wp_prepare i ls); [done|done|]. clear s h HI Hk. intros s h HI Hk.
  apply (wp_field i true (opt a ls)); [|done|done|].
  { intros nd nd' x. destruct (_ =? _); intros [= <- _]; [|by left]. simpl. right.
    unfold opt. destruct (Z.eqb_spec a 0); [by left|right; left]. }
  clear s h HI Hk. intros _ _ [|] s h _ HI Hk _; cbn [negb]; [by apply (lscq_advance i (opt a ls))|].
  apply (wp_pool_put i true (opt a ls)); [done| |].
  { unfold opt. destruct (Z.eqb_spec a 0); [by left|right; left]. }
  intros s1 h1 Hk1. by apply (lscq_advance i (opt a ls)).
Qed.

Lemma wp_enqueue_try i hash p retry s h :
  knows i true [] s h -> wp i (enqueue_try k fb hash p retry) (Q i) (s, h).
Proof.
  intros Hk. unfold enqueue_try. destruct (_ <? _)%nat; [|by apply (lscq_leave i [])]. simpl.
  apply (wp_root i true []); [by intros ? []|done|]. intros t s1 h1 _ Hk1. by apply lscq_jump.
Qed.

Lemma wp_enqueue_ring i hash p retry t l s h :
  lscq_inv s h -> knows i true [t] s h -> wp i (enqueue_ring k fb nshards hash p retry t l) (Q i) (s, h).
Proof.
  intros HI Hk. unfold enqueue_ring. apply (wp_ring i true [t]); [done|done|left|].
  clear s h HI Hk. intros r s h HI Hk.
  assert (wp i (extend_conc k fb nshards hash t (Ret (inl (EnqTry hash p (S retry))))) (Q i) (s, h)) as Hext.
  { apply (wp_extend i [t]); [done|left|]. intros s1 h1 _ Hk1. apply lscq_jump. simpl.
    by apply (knows_sub i true [t]); [apply list_subseteq_nil|]. }
  destruct r as [l'|[[|]|v]]; [by apply lscq_jump|by apply (lscq_leave i [t])|done|done].
Qed.

(** *** [dequeue] *)

Lemma wp_verify i hash w a nxt fin s h :
  lscq_inv s h -> knows i true (opt nxt [a]) s h ->
  wp i (dequeue_verify k fb nshards hash w a nxt fin) (Q i) (s, h).
Proof.
  intros HI Hk. unfold dequeue_verify.
  assert (a ∈ opt nxt [a]) as Ha by (apply opt_sub; left).
  assert (forall w s h, knows i true (opt nxt [a]) s h -> wp i (Ret (inl (DeqTry hash w))) (Q i) (s, h)) as Hagain.
  { intros w1 s1 h1 Hk1. apply lscq_jump. by apply (knows_sub i true (opt nxt [a])); [apply list_subseteq_nil|]. }
  destruct fin; [|by apply Hagain]. apply (wp_ring i true (opt nxt [a])); [done|done|done|].
  clear s h HI Hk. intros [|] s h HI Hk; simpl; [|by apply Hagain].
  destruct (Z.eqb_spec nxt 0) as [->|Hn].
  - destruct (_ <? _)%nat; [by apply (lscq_leave i (opt 0 [a]))|by apply Hagain].
  - apply (wp_cas_root i true (opt nxt [a]) nxt); [by left|done| |].
    { unfold opt. destruct (Z.eqb_spec nxt 0); [done|left]. }
    intros [|] s1 h1 _ Hk1; [|by apply Hagain]. apply (wp_pool_put i true (opt nxt [a])); [done|by right|].
    intros s2 h2 Hk2. by apply Hagain.
Qed.

Lemma wp_dequeue_null i hash w a ph s h :
  lscq_inv s h -> knows i true (opt (phase_ptr ph) [a]) s h ->
  wp i (dequeue_null k fb nshards hash w a ph) (Q i) (s, h).
Proof.
  intros HI Hk. destruct ph as [|j nxt fin]; cbn [dequeue_null phase_ptr] in *.
  - unfold load_next. apply (wp_field i true [a]); [|done|left|].
    { intros nd nd' x [= <- _]. by left. }
    clear s h HI Hk. intros nd _ x s h [= _ <-] HI Hk Hx. apply (knows_opt i true (next nd)) in Hk; [|done].
    apply (wp_field i true (opt (next nd) [a])); [|done|apply opt_sub; left|].
    { intros nd2 nd' x [= <- _]. by left. }
    clear s h HI Hk Hx. intros _ _ fin s h _ HI Hk _.
    destruct (negb fin && _); [by apply (lscq_leave i (opt (next nd) [a]))|by apply lscq_jump].
  - destruct (_ <? _)%nat; [by apply lscq_jump|by apply wp_verify].
Qed.

Lemma wp_dequeue_ring i hash w a ph l s h :
  lscq_inv s h -> knows i true (opt (phase_ptr ph) [a]) s h ->
  wp i (dequeue_ring k fb nshards hash w a ph l) (Q i) (s, h).
Proof.
  intros HI Hk. unfold dequeue_ring. apply (wp_ring i true (opt (phase_ptr ph) [a])); [done|done|apply opt_sub; left|].
  clear s h HI Hk. intros [l'|[b|v]] s h HI Hk; [by apply lscq_jump|by apply wp_dequeue_null|].
  destruct (negb _); [by apply (lscq_leave i (opt (phase_ptr ph) [a]))|by apply wp_dequeue_null].
Qed.

(** *** The destructor *)

Lemma destroyer i ls s h : knows i false ls s h -> i ∈ destroys h /\ HLin i LDown ∉ h.
Proof. intros ((_ & _ & Hin) & [Hi|?] & _); [naive_solver|done]. Qed.

(** An event of the destructor that neither enters nor leaves. *)
Lemma knows_mark i ls s s' h e :
  e = LClose \/ e = LDrained -> (forall a, live s a -> live s' a) ->
  knows i false ls s h -> knows i false ls s' (h ++ [HLin i e]).
Proof.
  intros He Hl Hk. destruct (destroyer i ls s h Hk) as [Hd Hn]. destruct Hk as (Hp & _ & Hls). pose proof Hp as (_ & H1 & H2).
  split_and!.
  - apply (place_mark i false false); [done|by destruct He as [-> | ->]| |].
    + unfold holders in *. rewrite region_snoc. by destruct He as [-> | ->].
    + unfold insiders in *. rewrite region_snoc. by destruct He as [-> | ->].
  - right. split; [rewrite destroys_app, elem_of_app; by left|].
    rewrite elem_lin_snoc. intros [?|[_ Heq]]; [done|]. destruct He; congruence.
  - by eapply list.Forall_impl.
Qed.

Lemma regions_mark h i e : e = LClose \/ e = LDrained \/ e = LDown ->
  holders (h ++ [HLin i e]) = holders h /\ insiders (h ++ [HLin i e]) = insiders h.
Proof.
  intros He. unfold holders, insiders. rewrite !region_snoc. by destruct He as [->|[-> | ->]].
Qed.

Lemma wp_destroy_start i hash s h :
  knows i false [] s h -> wp i (destroy_start k fb SeqCst hash) (Q i) (s, h).
Proof.
  intros Hk. unfold destroy_start, destroy_close. simpl. apply (wp_act _ _ _ i (knows i false [])); [apply lscq_stable_knows|done|].
  clear s h Hk. intros s h s2 [] Hk HI [= <-] _. one_event i. destruct (regions_mark h i LClose ltac:(auto)) as [R1 R2].
  split_and!; [by intros _ a| |].
  - pose proof HI as []. apply (inv_mark s _ h i _ false false); rewrite ?R1, ?R2; try done; [apply Hk| |by intros _ []].
    intros [Hd|?]; [by apply lq_drained0|congruence].
  - apply lscq_jump. split; [apply (knows_mark i [] s); [by left|done|done]|].
    rewrite events_snoc, elem_ev_snoc. by right.
Qed.

Lemma wp_destroy_wait i hash s h :
  lscq_loop i (DestroyWait hash) s h -> wp i (destroy_wait k fb hash) (Q i) (s, h).
Proof.
  intros HL. unfold destroy_wait. simpl.
  apply (wp_act _ _ _ i (lscq_loop i (DestroyWait hash))); [apply lscq_stable_loop|done|].
  clear s h HL. intros s h s2 a [Hk Hc] HI [= <- <-] _. pose proof HI as [].
  destruct (Z.ltb_spec 0 (active_ops_ s)) as [|Hz].
  { rewrite lin_nil. split_and!; [by intros _ a|done|]. by apply lscq_jump. }
  one_event i. destruct (regions_mark h i LDrained ltac:(auto)) as [R1 R2].
  assert (insiders h = []) as Hnil.
  { destruct (insiders h) as [|j l] eqn:Ei; [done|]. assert (j ∈ holders h) as Hj by (apply lq_inside0; left).
    destruct (holders h); [by apply elem_of_nil in Hj|simpl in *; lia]. }
  split_and!; [by intros _ a| |].
  - apply (inv_mark s _ h i _ false false); rewrite ?R1, ?R2; try done; [apply Hk|].
    intros [?|?]; [done|congruence].
  - simpl. assert (knows i false [] s (h ++ [HLin i LDrained])) as Hk'
      by (apply (knows_mark i [] s); [by right|done|done]).
    assert (LDrained ∈ events (h ++ [HLin i LDrained])) as Hd by (rewrite events_snoc, elem_ev_snoc; by right).
    generalize (h ++ [HLin i LDrained]), Hk', Hd. clear. intros h Hk Hd.
    apply (wp_silent _ _ _ i (fun s h => knows i false [] s h /\ LDrained ∈ events h));
      [apply stable_and; [apply lscq_stable_knows|apply stable_event]|done|].
    clear s h Hk Hd. intros s h s2 x [Hk Hd] HI [= <- <-] _. split_and!; [by intros _ a|done|].
    apply lscq_jump. split; [|done]. apply knows_opt; [done|]. right.
    apply mo_head, (lq_mem _ _ HI), (up_not_down s h i HI). apply Hk.
Qed.

Lemma posts_any {A} (p : prog (pool (heap (SCQP_queue k fb))) pev A) es :
  posts (fun _ => True) (fun _ _ _ => True) p (fun _ _ => True) es.
Proof. revert es. induction p; intros es; simpl; [done|by intros s' _|by intros b]. Qed.

(** After the queue is down only the destructor is left. *)
Lemma wp_down i s h :
  lscq_inv s h -> lplace i false false h -> LDown ∈ events h ->
  wp i (do! atomic (store k fb (set_tail 0)); do! pool_clear k fb nshards; Ret (inr LUnit))%prog (Q i) (s, h).
Proof.
  intros HI0 Hp Hd. cbn [bind atomic].
  set (P := fun h : lhist => lplace i false false h /\ LDown ∈ events h).
  assert (stable i (fun _ => P)) as HP by (apply stable_and; [apply stable_place|apply stable_event]).
  assert (forall s s' h es, lscq_inv s h -> P h -> Forall quiet es -> closing_ s' = closing_ s ->
    active_ops_ s' = active_ops_ s -> lscq_grant i (s, h) (s', h ++ (HLin i <$> es)) /\
      lscq_inv s' (h ++ (HLin i <$> es)) /\ P (h ++ (HLin i <$> es))) as Hstep.
  { clear s h HI0 Hp Hd. intros s s' h es HI [Hp Hd] Hq Hc Ha.
    assert (LDown ∈ events (h ++ (HLin i <$> es))) as Hd' by (rewrite events_app, elem_of_app; by left).
    split; [by intros Hn|]. split; [by apply (inv_quiet s)|]. split; [by apply place_quiet|done]. }
  apply (wp_silent _ _ _ i (fun _ => P)); [done|done|]. clear s h HI0 Hp Hd.
  intros s h s2 [] HPh HI [= <-] _. destruct (Hstep s (set_tail 0 s) h [] HI HPh) as (HG & HI' & HP'); try done.
  rewrite lin_nil in *. split_and!; [done|done|]. apply wp_bind; [done|].
  eapply wp_mono; [|apply (wp_lift _ _ _ i pool_ set_pool LPool (fun _ => True) (fun _ _ _ => True)
    (fun _ _ => P) _ (fun _ _ => True) []); [done|done| |done|apply posts_any]].
  - intros [] s1 h1 _ (es & _ & Hp1 & _). by apply (lscq_end i _ false).
  - clear s h HPh HI HG HI' HP'. intros _ s h p' es HPh HI _ _. apply Hstep; try done.
    by apply list.Forall_fmap, list.Forall_true.
Qed.

Lemma wp_destroy_chain i hash c s h :
  lscq_loop i (DestroyChain hash c) s h -> wp i (destroy_chain k fb nshards hash c) (Q i) (s, h).
Proof.
  intros [Hk Hd]. unfold destroy_chain, opt in *. destruct (Z.eqb_spec c 0) as [->|Hc].
  - cbn [bind atomic_lin]. apply (wp_act _ _ _ i (fun s h => knows i false [] s h /\ LDrained ∈ events h));
      [apply stable_and; [apply lscq_stable_knows|apply stable_event]|done|].
    clear s h Hk Hd. intros s h s2 [] [Hk Hd] HI [= <-] _. one_event i.
    destruct (regions_mark h i LDown ltac:(auto)) as [R1 R2].
    assert (LDown ∈ events (h ++ [HLin i LDown])) as Hdn by (rewrite events_snoc, elem_ev_snoc; by right).
    assert (lscq_inv (set_head 0 s) (h ++ [HLin i LDown])) as HI'.
    { pose proof HI as []. apply (inv_mark s _ h i _ false false); rewrite ?R1, ?R2; try done; [apply Hk| | |].
      - intros [?|?]; [done|congruence].
      - intros [?|?]; [by apply lq_drained0|congruence].
      - intros _. split; [done|]. by apply (destroyer i [] s). }
    split_and!; [by intros Hn|done|]. apply wp_down; [done| |done].
    destruct Hk as [Hp _]. pose proof Hp as (_ & H1 & H2). by apply (place_mark i false false); rewrite ?R1, ?R2.
  - set (Q1 := fun (x : label + lres) s h =>
      exists nxt, x = inl (DestroyChain hash nxt) /\ knows i false (opt nxt []) s h).
    eapply wp_mono; [|apply (wp_frame _ _ _ i _ Q1 (fun h => LDrained ∈ events h) (s, h)); [|done|]].
    + intros x s1 h1 _ [(nxt & -> & Hk1) Hd1]. by split.
    + intros h1 l Hin. rewrite events_app, elem_of_app. by left.
    + unfold load_next. apply (wp_field i false [c]); [|done|left|].
      { intros nd nd' x [= <- _]. by left. }
      clear s h Hk Hd. intros nd _ x s h [= _ <-] HI Hk Hx. apply (knows_opt i false (next nd)) in Hk; [|done].
      apply (wp_pool_put i false (opt (next nd) [c])); [done|right; apply opt_sub; left|].
      intros s1 h1 Hk1. apply (wp_ret _ _ _ i).
      * intros c1 c2 Hr (nxt & Hx1 & Hk2). exists nxt. split; [done|]. by apply (lscq_stable_knows i false _ c1 c2).
      * exists (next nd). split; [done|]. apply (knows_sub i false (opt (next nd) [c])); [|done].
        unfold opt. destruct (_ =? 0); [apply list_subseteq_nil|]. intros y ->%list_elem_of_singleton. left.
Qed.

(** ** The outline *)

(** A call or a return of thread [i]. *)
Lemma inv_item s h x i :
  lscq_inv s h -> (forall j e, x <> HLin j e) -> tid_of x = i -> i ∉ holders h ->
  (length (destroys (h ++ [x])) <= 1)%nat -> lscq_inv s (h ++ [x]).
Proof.
  intros HI Hx Hi Hn Hl. pose proof HI as [].
  assert (events (h ++ [x]) = events h) as He.
  { rewrite events_app. destruct x as [| j e|]; simpl; rewrite ?app_nil_r; try done. by destruct (Hx j e). }
  assert (holders (h ++ [x]) = holders h) as Hh by by apply region_item.
  assert (insiders (h ++ [x]) = insiders h) as Hin by by apply region_item.
  split; rewrite ?He, ?Hh, ?Hin; try done.
  - intros j Hj. rewrite (hist_step_view i j h); [auto|by apply hist_step_one|]. by intros ->.
  - intros j. rewrite elem_of_app, list_elem_of_singleton, destroys_app, elem_of_app.
    intros [?|<-]; [left; auto|]. by destruct (Hx j LDown).
Qed.

Lemma idle_out s h i : lscq_inv s h -> opview i h = None -> (i ∉ holders h) /\ (i ∉ insiders h).
Proof.
  intros [] Ho. assert (i ∉ holders h) as Hn.
  { intros Hi. destruct (lq_holder0 i Hi) as (o & es & Ho' & _). congruence. }
  split; [done|]. auto.
Qed.

Lemma called s h i o :
  lscq_inv s h -> opview i h = None -> (length (destroys (h ++ [HCall i o])) <= 1)%nat ->
  lscq_loop i (entry o) s (h ++ [HCall i o]).
Proof.
  intros HI Hi Hl. destruct (idle_out s h i HI Hi) as [H1 H2].
  assert (lplace i false false (h ++ [HCall i o])) as Hp.
  { split; [exists o, []; by rewrite opview_call, decide_True|]. unfold holders, insiders in *.
    rewrite !region_item by done. split; by split. }
  destruct o as [hash p|hash|hash]; simpl; [done|done|]. split_and!; [done| |constructor].
  right. rewrite destroys_app in *. split; [rewrite elem_of_app; right; left|].
  rewrite elem_of_app, list_elem_of_singleton. intros [Hin|?]; [|done].
  apply (lq_downer _ _ HI) in Hin. rewrite length_app in Hl. simpl in Hl.
  destruct (destroys h); [by apply elem_of_nil in Hin|simpl in Hl; lia].
Qed.

Lemma lscq_outline :
  proof_outline entry (LscqConc.body k fb nshards SeqCst) lscq_inv lscq_grant lscq_env lscq_loop lscq_good.
Proof.
  split.
  - intros i o s h HI Hi [_ Hser]. split_and!; [by intros _ a| |by apply called].
    apply (inv_item s h _ i); [done|done|done|by apply (idle_out s)|done].
  - intros i r s h HI (o & es & Ho & Hc). split; [by intros _ a|].
    apply (inv_item s h _ i); [done|done|done| |].
    + intros Hi. destruct (lq_holder _ _ HI i Hi) as (o' & es' & Ho' & Hc'). congruence.
    + rewrite destroys_app, app_nil_r. apply (lq_serial _ _ HI).
  - intros i l s h HL HI. destruct l; simpl in HL; simpl.
    + unfold enqueue_start. destruct (_ =? _); [by apply (lscq_end i _ false)|]. by apply lscq_enter.
    + by apply wp_enqueue_try.
    + by apply wp_enqueue_ring.
    + by apply lscq_enter.
    + unfold dequeue_try. simpl. apply (wp_root i true []); [by intros ? []|done|].
      intros a s1 h1 _ Hk1. by apply lscq_jump.
    + by apply wp_dequeue_ring.
    + by apply wp_destroy_start.
    + done.
    + by apply wp_destroy_wait.
    + by apply wp_destroy_chain.
    + by apply lscq_jump.
Qed.

Lemma lscq_inv_new hash :
  2 <= k <= 60 -> (0 < nshards)%nat -> lscq_inv (lscq_new k fb nshards hash) [].
Proof.
  intros Hk Hns. unfold lscq_new.
  destruct (lscq_new_first (L := SCQP_queue_laws k fb Hk) nshards hash Hns nshards [] ltac:(lia))
    as (s & w & -> & (c & t & qt & Hr & _ & Ha) & Hf & a & nd & Hh & Ht & Hnd & Hnx & Hoth).
  split; simpl; try done; try (intros ? Hin; by apply elem_of_nil in Hin); try (intros Hin; by apply elem_of_nil in Hin).
  - constructor.
  - lia.
  - intros _. split; [rewrite Hh; by exists nd|rewrite Ht; by exists nd| | |apply (lr_heap _ _ _ _ _ _ Hr)].
    + intros x nd' Hx. destruct (decide (x = a)) as [->|Hne]; [|by rewrite Hoth in Hx].
      unfold hp in Hnd. rewrite Hnd in Hx. injection Hx as <-. by left.
    + apply list.Forall_forall. intros sh Hsh. unfold free, stored in Hf.
      assert (objects sh = []) as ->; [|constructor].
      destruct (objects sh) as [|y l] eqn:Eo; [done|].
      assert (y ∈ concat (objects <$> shards_ (pool_ s))) as Hy; [|rewrite Hf in Hy; by apply elem_of_nil in Hy].
      apply list_elem_of_In, in_concat. exists (objects sh). rewrite Eo. split; [|by left].
      apply list_elem_of_In. rewrite <- Eo. by apply list_elem_of_fmap_2.
Qed.

End proofs.

Definition lscq_envb {k fb} (s : Lscq.state (SCQP_queue k fb)) (h : lhist) : bool :=
  (Z.of_nat (length (holders h)) <? 2147483648) && (length (destroys h) <=? 1)%nat.

Lemma lscq_envb_ok k fb (s : Lscq.state (SCQP_queue k fb)) h : lscq_envb s h = true -> lscq_env k fb s h.
Proof. unfold lscq_envb, lscq_env. intros [H1%Z.ltb_lt H2%Nat.leb_le]%andb_true_iff. done. Qed.

(** ** Theorems *)

(** C12. The nodes of [LSCQ<T>] in every interleaving of any number of [enqueue] and
    [dequeue] with one call of the destructor, in both modes of the rings, when
    the store of [closing_] is ordered before the load of [active_ops_]
    ([SeqCst]): (1) no operation, and not the destructor, ever accesses a node
    through a null pointer or after it was deleted; (2) as long as the destructor
    has not taken the queue down, no node was deleted, and [head_], [tail_], the
    [next] pointers and the pointers in the pool all lead to nodes; (3)
    [active_ops_] is the number of operations that have passed its increment and
    not its decrement; (4) once the wait of the destructor is over no operation
    is inside its guard any more.

    Not shown, because they fail: that the ring inside a node exists whenever it
    is accessed ([lscq_torn_ring]), that the destructor deletes a node once
    ([lscq_double_delete]), and (1) and (4) for the memory orders of the code
    ([lscq_gate_reordered]). *)
Theorem lscq_memory_safe k fb nshards hash threads cfg :
  2 <= k <= 60 -> (0 < nshards)%nat ->
  reach entry (LscqConc.body k fb nshards SeqCst) (lscq_env k fb) (lscq_new k fb nshards hash) threads cfg ->
  (forall a, LBad a ∉ events (hist cfg)) /\
  (LDown ∉ events (hist cfg) -> mem_ok k fb (shared cfg)) /\
  active_ops_ (shared cfg) = Z.of_nat (length (holders (hist cfg))) /\
  (LDrained ∈ events (hist cfg) -> insiders (hist cfg) = []).
Proof.
  intros Hk Hns Hreach.
  destruct (rg_adequacy _ _ _ _ _ _ _ (lscq_outline k fb nshards) _ _ _
    (fun i c _ a Ha => Ha) (lscq_inv_new k fb nshards hash Hk Hns) Hreach) as (HI & _ & _).
  destruct HI. split_and!; try done. intros Hd. by apply lq_drained0.
Qed.

(** An [enqueue] is inside its ring while the destructor waits; a second
    operation finds the queue closing; the first leaves and the destructor
    finishes. *)
Definition lscq_shutdown_schedule : list (nat * move lop) :=
  [(0%nat, Call (LEnq 0 1))] ++ go 0 10 ++ [(2%nat, Call (LDestroy 0))] ++ go 2 6 ++
  [(1%nat, Call (LDeq 0))] ++ go 1 2 ++ go 0 7 ++ go 2 10.

Definition lscq_shutdown : config :=
  outcome entry (LscqConc.body 2 false 1 SeqCst) (lscq_new 2 false 1 0) 3 lscq_shutdown_schedule.

Lemma lscq_memory_safe_witness :
  completed (hist lscq_shutdown) =
    [(LDeq 0, [], LVal 0);
     (LEnq 0 1, [LAdd; LIn; LRing 1 (TakeTail 4); LRing 1 (PutAt 4 1); LOut], LBool true);
     (LDestroy 0, [LClose; LDrained; LPool (PStore 1); LDown; LPool (PDrop 1)], LUnit)] /\
  forall a, LBad a ∉ events (hist lscq_shutdown).
Proof.
  split; [vm_compute; reflexivity|].
  apply (lscq_memory_safe 2 false 1 0 3 lscq_shutdown); [lia|lia|].
  apply (outcome_reach entry (LscqConc.body 2 false 1 SeqCst) _ lscq_envb).
  - intros s h. apply lscq_envb_ok.
  - vm_compute. reflexivity.
Defined.

(** *** A pointer stored in a recycled node

    Thread 0 has read [tail_] and is delayed; thread 1 fills the ring of the first
    node and adds a second one; thread 2 takes everything out, advances [head_] and
    returns the first node to the pool; thread 0 then stores its pointer in the
    first node.  Thread 1 fills the second node and takes the first one from the
    pool again, whose ring is not empty and therefore made anew. *)
Definition lscq_stale_schedule : list (nat * move lop) :=
  let op i o m := (i, Call o) :: go i m in
  [(0%nat, Call (LEnq 0 1))] ++ go 0 6 ++
  op 1%nat (LEnq 0 2) 17%nat ++ op 1%nat (LEnq 0 3) 17%nat ++ op 1%nat (LEnq 0 4) 17%nat ++
  op 1%nat (LEnq 0 5) 17%nat ++ op 1%nat (LEnq 0 6) 46%nat ++
  op 2%nat (LDeq 0) 15%nat ++ op 2%nat (LDeq 0) 15%nat ++ op 2%nat (LDeq 0) 15%nat ++
  op 2%nat (LDeq 0) 15%nat ++ op 2%nat (LDeq 0) 59%nat ++ go 0 36 ++ op 2%nat (LDeq 0) 18%nat ++
  op 1%nat (LEnq 0 7) 24%nat ++ op 1%nat (LEnq 0 8) 17%nat ++ op 1%nat (LEnq 0 9) 17%nat ++
  op 1%nat (LEnq 0 10) 17%nat ++ op 1%nat (LEnq 0 11) 34%nat.

Definition lscq_stale : config :=
  outcome entry (LscqConc.body 2 false 1 RelAcq) (lscq_new 2 false 1 0) 3 lscq_stale_schedule.

(** C27. Returning a node to the pool while an [enqueue] may still hold a pointer
    to it loses pointers: the schedule above is an execution in which [enqueue(1)]
    returns [true] after the node it stores to was recycled, a [dequeue] that
    follows finds the queue empty, and in the end the pointer is in the ring of no
    node at all, so that nobody can ever take it out. *)
Theorem lscq_stale_tail :
  reach entry (LscqConc.body 2 false 1 RelAcq) (lscq_env 2 false) (lscq_new 2 false 1 0) 3 lscq_stale /\
  ((fun '(o, _, r) => (o, r)) <$> completed (hist lscq_stale)) =
    [(LEnq 0 2, LBool true); (LEnq 0 3, LBool true); (LEnq 0 4, LBool true); (LEnq 0 5, LBool true);
     (LEnq 0 6, LBool true); (LDeq 0, LVal 2); (LDeq 0, LVal 3); (LDeq 0, LVal 4); (LDeq 0, LVal 5);
     (LDeq 0, LVal 6); (LEnq 0 1, LBool true); (LDeq 0, LVal 0); (LEnq 0 7, LBool true);
     (LEnq 0 8, LBool true); (LEnq 0 9, LBool true); (LEnq 0 10, LBool true); (LEnq 0 11, LBool true)] /\
  (forall i, opview i (hist lscq_stale) = None) /\
  forall a nd e, nodes (client (pool_ (shared lscq_stale))) !! a = Some nd ->
    e ∈ entries_p_ (scqp nd) -> ptr e <> 1.
Proof.
  assert (reach entry (LscqConc.body 2 false 1 RelAcq) (lscq_env 2 false) (lscq_new 2 false 1 0) 3 lscq_stale) as Hreach.
  { apply (outcome_reach entry (LscqConc.body 2 false 1 RelAcq) _ lscq_envb); [apply lscq_envb_ok|].
    vm_compute. reflexivity. }
  split_and!; [done|vm_compute; reflexivity| |].
  - intros i. destruct (decide (3 <= i)%nat) as [Hi|Hi]; [by apply (opview_range _ _ _ _ _ _ _ Hreach)|].
    assert (i = 0 \/ i = 1 \/ i = 2)%nat as [-> | [-> | ->]] by lia; vm_compute; reflexivity.
  - assert (forallb (fun p : Z * Node (SCQP_queue 2 false) => forallb (fun e => negb (ptr e =? 1)) (entries_p_ (scqp p.2)))
      (map_to_list (nodes (client (pool_ (shared lscq_stale))))) = true) as Hall by (vm_compute; reflexivity).
    intros a nd e Ha He Hp. apply elem_of_map_to_list, list_elem_of_In in Ha.
    pose proof (proj1 (forallb_forall _ _) Hall _ Ha) as Hr. simpl in Hr.
    apply list_elem_of_In in He. pose proof (proj1 (forallb_forall _ _) Hr _ He) as Hz. simpl in Hz.
    rewrite Hp in Hz. done.
Qed.

(** *** A pointer that is delivered twice

    Thread 0 has drawn a ticket of the first node, past its last pointer, and is
    delayed.  The node is drained, returned to the pool, reset and linked again;
    the ticket is drawn again, by the [enqueue] that stores [14] and by the
    [dequeue] of thread 2, which has read the entry when thread 0 goes on. *)
Definition lscq_twice_schedule : list (nat * move lop) :=
  let op i o m := (i, Call o) :: go i m in
  let enq p m := op 1%nat (LEnq 0 p) m in
  let deq m := op 2%nat (LDeq 0) m in
  enq 1 17%nat ++ enq 2 17%nat ++ enq 3 17%nat ++ enq 4 17%nat ++ enq 5 46%nat ++
  deq 15%nat ++ deq 15%nat ++ deq 15%nat ++ deq 15%nat ++ op 0%nat (LDeq 0) 10%nat ++ deq 59%nat ++
  enq 6 17%nat ++ enq 7 17%nat ++ enq 8 17%nat ++ enq 9 17%nat ++ enq 10 45%nat ++
  enq 11 17%nat ++ enq 12 17%nat ++ enq 13 17%nat ++
  deq 15%nat ++ deq 15%nat ++ deq 15%nat ++ deq 15%nat ++ deq 59%nat ++
  deq 15%nat ++ deq 15%nat ++ deq 15%nat ++ enq 14 17%nat ++
  deq 11%nat ++ go 0 5 ++ go 2 4.

Definition lscq_twice : config :=
  outcome entry (LscqConc.body 2 false 1 RelAcq) (lscq_new 2 false 1 0) 3 lscq_twice_schedule.

(** C39. Recycling also delivers pointers twice: the schedule above is an
    execution in which the pointer 14 is enqueued once and returned by two calls of
    [dequeue]; both drew the same ticket of the same node, one before and one after
    the reset, and [dequeue_ptr] returns what it loaded, not what its exchange took
    out.  A consumer that deletes what it dequeues deletes it twice. *)
Theorem lscq_double_dequeue :
  reach entry (LscqConc.body 2 false 1 RelAcq) (lscq_env 2 false) (lscq_new 2 false 1 0) 3 lscq_twice /\
  ((fun '(o, _, r) => (o, r)) <$> filter (fun '(o, _, r) => o = LEnq 0 14 \/ r = LVal 14)
     (completed (hist lscq_twice))) =
    [(LEnq 0 14, LBool true); (LDeq 0, LVal 14); (LDeq 0, LVal 14)] /\
  omap (fun e => match e with LRing 1 (TakeHead 8) => Some (inl 8) | LRing 1 (GetAt 8 p) => Some (inr p) | _ => None end)
    (events (hist lscq_twice)) = [inl 8; inl 8; inr 14; inr 14].
Proof.
  split; [|split; vm_compute; reflexivity].
  apply (outcome_reach entry (LscqConc.body 2 false 1 RelAcq) _ lscq_envb); [apply lscq_envb_ok|].
  vm_compute. reflexivity.
Qed.

(** *** A node that is deleted twice

    Thread 0 has found the first node empty and finalized and is delayed before it
    advances [head_] from the first node to the second.  Thread 2 advances [head_]
    and returns the first node to the pool; thread 1 fills the second node and
    links the first one again; thread 2 drains the second node, advances [head_] to
    the first node and returns the second one to the pool.  The exchange of thread
    0 then succeeds: [head_] leads to the second node, which is in the pool, and
    the first one, which is linked, is put there too. *)
Definition lscq_aba_schedule : list (nat * move lop) :=
  let op i o m := (i, Call o) :: go i m in
  let enq p m := op 1%nat (LEnq 0 p) m in
  let deq m := op 2%nat (LDeq 0) m in
  enq 1 17%nat ++ enq 2 17%nat ++ enq 3 17%nat ++ enq 4 17%nat ++ enq 5 46%nat ++
  deq 15%nat ++ deq 15%nat ++ deq 15%nat ++ deq 15%nat ++ op 0%nat (LDeq 0) 45%nat ++ deq 67%nat ++
  enq 6 17%nat ++ enq 7 17%nat ++ enq 8 17%nat ++ enq 9 17%nat ++ enq 10 45%nat ++
  deq 15%nat ++ deq 15%nat ++ deq 15%nat ++ deq 15%nat ++ deq 59%nat ++ go 0 69 ++
  op 2%nat (LDestroy 0) 12%nat.

Definition lscq_aba : config :=
  outcome entry (LscqConc.body 2 false 1 SeqCst) (lscq_new 2 false 1 0) 3 lscq_aba_schedule.

(** C28. Recycling makes the destructor delete nodes twice: in the execution above
    every pointer is enqueued and dequeued once, all operations have returned
    before the destructor is called, the queue has two nodes, and the destructor
    gives each of them to [delete] twice. *)
Theorem lscq_double_delete :
  reach entry (LscqConc.body 2 false 1 SeqCst) (lscq_env 2 false) (lscq_new 2 false 1 0) 3 lscq_aba /\
  ((fun '(o, _, r) => (o, r)) <$> drop 15 (completed (hist lscq_aba))) =
    [(LDeq 0, LVal 6); (LDeq 0, LVal 7); (LDeq 0, LVal 8); (LDeq 0, LVal 9); (LDeq 0, LVal 10);
     (LDeq 0, LVal 0); (LDestroy 0, LUnit)] /\
  brk (client (pool_ (shared lscq_aba))) = 3 /\
  deleted (client (pool_ (shared lscq_aba))) = [2; 1; 2; 1].
Proof.
  split; [|split_and!; vm_compute; reflexivity].
  apply (outcome_reach entry (LscqConc.body 2 false 1 SeqCst) _ lscq_envb); [apply lscq_envb_ok|].
  vm_compute. reflexivity.
Qed.

(** *** A ring that is destroyed under an operation

    As in [lscq_stale_schedule], with a fourth thread that has read [tail_] too and
    is delayed inside the ring of the first node until thread 1 has destroyed this
    ring and not yet constructed the new one. *)
Definition lscq_torn_schedule : list (nat * move lop) :=
  [(3%nat, Call (LEnq 0 99))] ++ go 3 6 ++ take 401 lscq_stale_schedule ++ go 3 2.

Definition lscq_torn : config :=
  outcome entry (LscqConc.body 2 false 1 RelAcq) (lscq_new 2 false 1 0) 4 lscq_torn_schedule.

(** [prepare_node_for_use] destroys and constructs a ring that another operation
    uses: in the execution above [enqueue(99)] accesses the ring of the first node
    after its arrays were freed. *)
Theorem lscq_torn_ring :
  reach entry (LscqConc.body 2 false 1 RelAcq) (lscq_env 2 false) (lscq_new 2 false 1 0) 4 lscq_torn /\
  omap (fun x => match x with HLin i (LTorn a) => Some (i, a) | _ => None end) (hist lscq_torn) = [(3%nat, 1)].
Proof.
  split; [|vm_compute; reflexivity].
  apply (outcome_reach entry (LscqConc.body 2 false 1 RelAcq) _ lscq_envb); [apply lscq_envb_ok|].
  vm_compute. reflexivity.
Qed.

(** *** The gate with the memory orders of the code

    The destructor reads [active_ops_] as zero while its store of [closing_] is in
    the store buffer; [enqueue] then passes its guard and reads [tail_]; the
    destructor runs to its end. *)
Definition lscq_early_schedule : list (nat * move lop) :=
  [(1%nat, Call (LDestroy 0))] ++ go 1 3 ++ [(0%nat, Call (LEnq 0 7))] ++ go 0 5 ++ go 1 10 ++ go 0 3.

Definition lscq_early : config :=
  outcome entry (LscqConc.body 2 false 1 RelAcq) (lscq_new 2 false 1 0) 2 lscq_early_schedule.

(** With the memory orders of the code the gate of the destructor fails: in the
    execution above an [enqueue] that passed its guard accesses a node that the
    destructor has deleted. *)
Theorem lscq_gate_reordered :
  reach entry (LscqConc.body 2 false 1 RelAcq) (lscq_env 2 false) (lscq_new 2 false 1 0) 2 lscq_early /\
  events (hist lscq_early) =
    [LEarly; LAdd; LIn; LClose; LPool (PStore 1); LDown; LPool (PDrop 1); LBad 1].
Proof.
  split; [|vm_compute; reflexivity].
  apply (outcome_reach entry (LscqConc.body 2 false 1 RelAcq) _ lscq_envb); [apply lscq_envb_ok|].
  vm_compute. reflexivity.
Qed.
