(* ===== verification/MsQueue.v ===== *)
(** * MsQueue: the Michael-Scott queue and the mutex queue

    Models [MSQueue<T>] ([include/lscq/msqueue.hpp], [src/msqueue.cpp]) and
    [MutexQueue<T>] ([include/lscq/mutex_queue.hpp]), the two reference queues.

    The nodes of [MSQueue] live in a heap that only grows while operations run:
    the node at address [a > 0] is the [a]-th one allocated, address [0] is
    [nullptr].  Removed nodes are pushed on [retired_] and deleted by the
    destructor.  A program node is one access to the shared state, and a
    [compare_exchange_weak] may fail spuriously.

    [MAlloc], [MLink], [MUnlink], [MRetire] and [MEmpty] annotate the allocation
    of a node, its insertion in the list, the removal of a dummy (with the value
    that is taken), its push on the stack of retired nodes and the observation
    of an empty list. *)

From stdpp Require Import base list numbers option.
From Stdlib Require Import ZArith Lia.
From S2P Require Import Prelude Conc Fifo.

(** ** [MSQueue] *)

Record Node := mkNode {
  data : Z;
  next : nat;
  retired_next : nat
}.

#[global] Instance Node_inhabited : Inhabited Node := populate (mkNode 0 0 0).

Record state := mkState {
  nodes : list Node;
  head_ : nat;
  tail_ : nat;
  retired_ : nat
}.

Inductive mev : Type :=
| MAlloc (a : nat) (v : Z)
| MLink (a : nat) (v : Z)
| MUnlink (a : nat) (v : Z)
| MRetire (a : nat)
| MEmpty.

(** The constructor: a dummy node. *)
Definition MSQueue_new : state := mkState [mkNode 0 0 0] 1 1 0.

Definition node_at (a : nat) (s : state) : Node := nodes s !!! (a - 1).

Definition set_node (a : nat) (nd : Node) (s : state) : state :=
  mkState (<[a - 1 := nd]> (nodes s)) (head_ s) (tail_ s) (retired_ s).

(** [new Node(value)]. *)
Definition alloc (v : Z) (s : state) : state * nat :=
  (mkState (nodes s ++ [mkNode v 0 0]) (head_ s) (tail_ s) (retired_ s), S (length (nodes s))).

Definition load_head (s : state) : state * nat := (s, head_ s).

Definition load_tail (s : state) : state * nat := (s, tail_ s).

Definition load_retired (s : state) : state * nat := (s, retired_ s).

Definition load_next (a : nat) (s : state) : state * nat := (s, next (node_at a s)).

Definition load_data (a : nat) (s : state) : state * Z := (s, data (node_at a s)).

(** [compare_exchange_weak]: a spurious failure or a strong exchange. *)
Definition cas_weak (spurious : bool) (expected desired cur : nat) : nat * bool :=
  if negb spurious && (cur =? expected) then (desired, true) else (cur, false).

Definition cas_next (spurious : bool) (a expected desired : nat) (s : state) : state * bool :=
  let nd := node_at a s in
  let '(x, ok) := cas_weak spurious expected desired (next nd) in
  (set_node a (mkNode (data nd) x (retired_next nd)) s, ok).

Definition cas_tail (spurious : bool) (expected desired : nat) (s : state) : state * bool :=
  let '(x, ok) := cas_weak spurious expected desired (tail_ s) in
  (mkState (nodes s) (head_ s) x (retired_ s), ok).

Definition cas_head (spurious : bool) (expected desired : nat) (s : state) : state * bool :=
  let '(x, ok) := cas_weak spurious expected desired (head_ s) in
  (mkState (nodes s) x (tail_ s) (retired_ s), ok).

(** On failure [old] is reloaded with the current value. *)
Definition cas_retired (spurious : bool) (expected desired : nat) (s : state) : state * (bool * nat) :=
  let '(x, ok) := cas_weak spurious expected desired (retired_ s) in
  (mkState (nodes s) (head_ s) (tail_ s) x, (ok, retired_ s)).

Definition store_retired_next (a r : nat) (s : state) : state * unit :=
  let nd := node_at a s in (set_node a (mkNode (data nd) (next nd) r) s, tt).

Inductive label : Set :=
| EnqAlloc (v : Z)
| EnqLoop (v : Z) (node : nat)
| DeqLoop
| RetireStart (v : Z) (node : nat)
| RetireLoop (v : Z) (node old : nat).

(** [enqueue] returns [true]; [dequeue] returns [None] for [false], else the
    value it stored in its argument. *)
Inductive mres : Set :=
| MTrue
| MDeq (r : option Z).

Definition prog_t := prog state mev (label + mres).

Definition enqueue_alloc (v : Z) : prog_t :=
  (let! node := atomic_lin (alloc v) (fun a => [MAlloc a v]) in
   Ret (inl (EnqLoop v node)))%prog.

Definition enqueue_loop (v : Z) (node : nat) : prog_t :=
  (let! tail := atomic load_tail in
   let! next := atomic (load_next tail) in
   let! tail' := atomic load_tail in
   if negb (tail =? tail') then Ret (inl (EnqLoop v node))
   else if next =? 0 then
     let! spurious := choose in
     let! ok := atomic_lin (cas_next spurious tail next node)
                  (fun ok : bool => if ok then [MLink node v] else []) in
     if (ok : bool) then
       let! spurious := choose in
       do! atomic (cas_tail spurious tail node);
       Ret (inr MTrue)
     else Ret (inl (EnqLoop v node))
   else
     let! spurious := choose in
     do! atomic (cas_tail spurious tail next);
     Ret (inl (EnqLoop v node)))%prog.

Definition dequeue_loop : prog_t :=
  (let! head := atomic load_head in
   let! tail := atomic load_tail in
   let! next := atomic_lin (load_next head) (fun next => if next =? 0 then [MEmpty] else []) in
   let! head' := atomic load_head in
   if negb (head =? head') then Ret (inl DeqLoop)
   else if next =? 0 then Ret (inr (MDeq None))
   else if head =? tail then
     let! spurious := choose in
     do! atomic (cas_tail spurious tail next);
     Ret (inl DeqLoop)
   else
     let! value := atomic (load_data next) in
     let! spurious := choose in
     let! ok := atomic_lin (cas_head spurious head next)
                  (fun ok : bool => if ok then [MUnlink head value] else []) in
     if (ok : bool) then Ret (inl (RetireStart value head)) else Ret (inl DeqLoop))%prog.

(** [retire_node] on a non-null node, then the return of [dequeue]. *)
Definition retire_start (v : Z) (node : nat) : prog_t :=
  (if node =? 0 then Ret (inr (MDeq (Some v)))
   else
     let! old := atomic load_retired in
     Ret (inl (RetireLoop v node old)))%prog.

Definition retire_loop (v : Z) (node old : nat) : prog_t :=
  (do! atomic (store_retired_next node old);
   let! spurious := choose in
   let! r := atomic_lin (cas_retired spurious old node)
               (fun r => if (fst r : bool) then [MRetire node] else []) in
   if fst r then Ret (inr (MDeq (Some v))) else Ret (inl (RetireLoop v node (snd r))))%prog.

Definition body (l : label) : prog_t :=
  match l with
  | EnqAlloc v => enqueue_alloc v
  | EnqLoop v node => enqueue_loop v node
  | DeqLoop => dequeue_loop
  | RetireStart v node => retire_start v node
  | RetireLoop v node old => retire_loop v node old
  end.

Definition entry (o : qop Z) : label :=
  match o with OpEnq v => EnqAlloc v | OpDeq => DeqLoop end.

Definition enqueue (fuel : nat) (v : Z) := exec body fuel (EnqAlloc v).

Definition dequeue (fuel : nat) := exec body fuel DeqLoop.

(** The destructor: [delete_retired] and [delete_chain] give the addresses of
    the nodes they delete, in order. *)
Fixpoint delete_chain (fuel : nat) (first : nat) (s : state) : option (list nat) :=
  match fuel with
  | O => None
  | S fuel =>
      if first =? 0 then Some []
      else match delete_chain fuel (next (node_at first s)) s with
           | Some l => Some (first :: l) | None => None end
  end.

Fixpoint delete_retired_from (fuel : nat) (cur : nat) (s : state) : option (list nat) :=
  match fuel with
  | O => None
  | S fuel =>
      if cur =? 0 then Some []
      else match delete_retired_from fuel (retired_next (node_at cur s)) s with
           | Some l => Some (cur :: l) | None => None end
  end.

Definition delete_retired (fuel : nat) (s : state) : option (list nat) :=
  delete_retired_from fuel (retired_ s) s.

Definition MSQueue_destroy (fuel : nat) (s : state) : option (list nat) :=
  match delete_retired fuel s, delete_chain fuel (head_ s) s with
  | Some l1, Some l2 => Some (l1 ++ l2)
  | _, _ => None
  end.

(** ** [MutexQueue]

    The whole body of each operation runs under the mutex. *)
Definition mutex_enqueue (v : Z) (q : list Z) : list Z * bool := (q ++ [v], true).

Definition mutex_dequeue (q : list Z) : list Z * option Z :=
  match q with
  | [] => (q, None)
  | v :: q => (q, Some v)
  end.

Inductive mutex_label : Set :=
| MuEnq (v : Z)
| MuDeq.

Definition mutex_body (l : mutex_label) : prog (list Z) (qev Z) (mutex_label + mres) :=
  match l with
  | MuEnq v =>
      (let! _ := atomic_lin (mutex_enqueue v) (fun _ => [EvEnq v]) in Ret (inr MTrue))%prog
  | MuDeq =>
      (let! r := atomic_lin mutex_dequeue
                   (fun r => match r with Some v => [EvDeq v] | None => [EvEmpty] end) in
       Ret (inr (MDeq r)))%prog
  end.

Definition mutex_entry (o : qop Z) : mutex_label :=
  match o with OpEnq v => MuEnq v | OpDeq => MuDeq end.
