(* ===== verification/MsLin.v ===== *)
(** * MsLin: the Michael-Scott queue is linearizable and leaks no node

    The list of the nodes ever linked, in order, is determined by the history
    ([chain]); [head_] and [tail_] are positions in it, and the queue is what
    lies after [head_].  The stack of retired nodes is the reverse of the order
    in which they were retired. *)

From stdpp Require Import base list numbers option.
From Stdlib Require Import ZArith Lia.
From S2P Require Import Prelude Conc Fifo MsQueue.

Create Rewrite HintDb msq.

(** ** Events *)

Definition allocs (es : list mev) : list nat :=
  omap (fun e => match e with MAlloc a _ => Some a | _ => None end) es.

Definition links (es : list mev) : list (nat * Z) :=
  omap (fun e => match e with MLink a v => Some (a, v) | _ => None end) es.

Definition unlinks (es : list mev) : list nat :=
  omap (fun e => match e with MUnlink a _ => Some a | _ => None end) es.

Definition retires (es : list mev) : list nat :=
  omap (fun e => match e with MRetire a => Some a | _ => None end) es.

(** The effects on the abstract queue. *)
Definition qevs (es : list mev) : list (qev Z) :=
  omap (fun e => match e with
                 | MLink _ v => Some (EvEnq v)
                 | MUnlink _ v => Some (EvDeq v)
                 | MEmpty => Some EvEmpty
                 | _ => None end) es.

(** The dummy of the constructor and the nodes linked after it. *)
Definition chain (es : list mev) : list nat := 1 :: (links es).*1.

Lemma allocs_app es fs : allocs (es ++ fs) = allocs es ++ allocs fs.
Proof. apply omap_app. Qed.

Lemma links_app es fs : links (es ++ fs) = links es ++ links fs.
Proof. apply omap_app. Qed.

Lemma unlinks_app es fs : unlinks (es ++ fs) = unlinks es ++ unlinks fs.
Proof. apply omap_app. Qed.

Lemma retires_app es fs : retires (es ++ fs) = retires es ++ retires fs.
Proof. apply omap_app. Qed.

Lemma qevs_app es fs : qevs (es ++ fs) = qevs es ++ qevs fs.
Proof. apply omap_app. Qed.

Lemma chain_app es fs : chain (es ++ fs) = chain es ++ (links fs).*1.
Proof. unfold chain. by rewrite links_app, fmap_app. Qed.

#[export] Hint Rewrite allocs_app links_app unlinks_app retires_app qevs_app chain_app : msq.

(** Split the lists of a history that was extended by one event. *)
Ltac msq := rewrite ?events_snoc; autorewrite with msq; simpl; rewrite ?app_nil_r.

Lemma elem_allocs es a : a ∈ allocs es <-> exists v, MAlloc a v ∈ es.
Proof.
  unfold allocs. rewrite list_elem_of_omap. split.
  - intros ([] & Hin & Heq); simplify_eq. eauto.
  - intros [v Hin]. eauto.
Qed.

Lemma elem_links es a : a ∈ (links es).*1 <-> exists v, MLink a v ∈ es.
Proof.
  unfold links. rewrite list_elem_of_fmap. split.
  - intros ([b v] & -> & Hin). apply list_elem_of_omap in Hin as ([] & Hin & Heq); simplify_eq.
    by eexists.
  - intros [v Hin]. exists (a, v). split; [done|]. apply list_elem_of_omap. eauto.
Qed.

Lemma elem_chain es a : a ∈ chain es <-> a = 1 \/ exists v, MLink a v ∈ es.
Proof. unfold chain. by rewrite elem_of_cons, elem_links. Qed.

Lemma length_chain es : length (chain es) = S (length (links es)).
Proof. unfold chain. simpl. by rewrite length_fmap. Qed.

(** The value that came with the node at a position after the dummy. *)
Lemma chain_value es k a :
  chain es !! S k = Some a -> exists v, (links es).*2 !! k = Some v /\ MLink a v ∈ es.
Proof.
  unfold chain. simpl. rewrite list_lookup_fmap. intros Hk.
  apply fmap_Some in Hk as ([b v] & Hk & ->). exists v. split.
  - by rewrite list_lookup_fmap, Hk.
  - apply list_elem_of_lookup_2, list_elem_of_omap in Hk as ([] & Hin & Heq); by simplify_eq.
Qed.

Lemma chain_nil : chain [] = [1].
Proof. done. Qed.

#[local] Opaque chain.

Lemma elem_unlinks es a : a ∈ unlinks es <-> exists v, MUnlink a v ∈ es.
Proof.
  unfold unlinks. rewrite list_elem_of_omap. split.
  - intros ([] & Hin & Heq); simplify_eq. eauto.
  - intros [v Hin]. eauto.
Qed.

Lemma elem_retires es a : a ∈ retires es <-> MRetire a ∈ es.
Proof.
  unfold retires. rewrite list_elem_of_omap. split.
  - intros ([] & Hin & Heq); simplify_eq. eauto.
  - intros Hin. eauto.
Qed.

(** ** The heap *)

Lemma node_at_set a b nd s :
  0 < a <= length (nodes s) -> 0 < b ->
  node_at b (set_node a nd s) = if decide (b = a) then nd else node_at b s.
Proof.
  intros Ha Hb. unfold node_at, set_node. simpl. case_decide as Hab.
  - subst. rewrite list_lookup_total_insert_eq by lia. done.
  - by rewrite list_lookup_total_insert_ne by lia.
Qed.

Lemma node_at_set_same a s : set_node a (node_at a s) s = s.
Proof.
  destruct s as [ns hd tl rt]. unfold set_node, node_at. simpl. f_equal.
  destruct (decide (a - 1 < length ns)) as [Hlt|Hge].
  - apply list_insert_id. by apply list_lookup_lookup_total_lt.
  - apply list_insert_ge. lia.
Qed.

Lemma node_at_set_eta a s :
  set_node a (mkNode (data (node_at a s)) (next (node_at a s)) (retired_next (node_at a s))) s = s.
Proof. rewrite <- (node_at_set_same a s) at 5. by destruct (node_at a s). Qed.

Lemma node_at_alloc v s a : 0 < a <= length (nodes s) -> node_at a (alloc v s).1 = node_at a s.
Proof. intros Ha. unfold node_at. simpl. rewrite lookup_total_app_l by lia. done. Qed.

Lemma node_at_new v s : node_at (S (length (nodes s))) (alloc v s).1 = mkNode v 0 0.
Proof.
  unfold node_at. simpl. rewrite Nat.sub_0_r, lookup_total_app_r by done.
  by rewrite Nat.sub_diag.
Qed.

Lemma length_alloc v s : length (nodes (alloc v s).1) = S (length (nodes s)).
Proof. unfold alloc. simpl. rewrite length_app. simpl. lia. Qed.

(** A failed exchange changes nothing. *)
Lemma cas_next_cases b a e d s :
  cas_next b a e d s = (s, false) \/
  (next (node_at a s) = e /\
   cas_next b a e d s = (set_node a (mkNode (data (node_at a s)) d (retired_next (node_at a s))) s, true)).
Proof.
  unfold cas_next, cas_weak. destruct b; simpl.
  - left. by rewrite node_at_set_eta.
  - destruct (Nat.eqb_spec (next (node_at a s)) e) as [He|]; [by right|left]. by rewrite node_at_set_eta.
Qed.

Lemma cas_tail_cases b e d s :
  cas_tail b e d s = (s, false) \/
  (tail_ s = e /\ cas_tail b e d s = (mkState (nodes s) (head_ s) d (retired_ s), true)).
Proof.
  destruct s as [ns hd tl rt]. unfold cas_tail, cas_weak. simpl. destruct b; simpl; [by left|].
  destruct (Nat.eqb_spec tl e); [by right|by left].
Qed.

Lemma cas_head_cases b e d s :
  cas_head b e d s = (s, false) \/
  (head_ s = e /\ cas_head b e d s = (mkState (nodes s) d (tail_ s) (retired_ s), true)).
Proof.
  destruct s as [ns hd tl rt]. unfold cas_head, cas_weak. simpl. destruct b; simpl; [by left|].
  destruct (Nat.eqb_spec hd e); [by right|by left].
Qed.

Lemma cas_retired_cases b e d s :
  cas_retired b e d s = (s, (false, retired_ s)) \/
  (retired_ s = e /\
   cas_retired b e d s = (mkState (nodes s) (head_ s) (tail_ s) d, (true, retired_ s))).
Proof.
  destruct s as [ns hd tl rt]. unfold cas_retired, cas_weak. simpl. destruct b; simpl; [by left|].
  destruct (Nat.eqb_spec rt e); [by right|by left].
Qed.

(** ** The invariant *)

Abbreviation ms_hist := (list (hev mev (qop Z) mres)).

(** A thread between the allocation of its node and its link, and one between
    the removal of a dummy and its retirement. *)
Definition linking (i a : nat) (v : Z) (h : ms_hist) : Prop :=
  opview i h = Some (OpEnq v, [MAlloc a v]).

Definition retiring (i a : nat) (v : Z) (h : ms_hist) : Prop :=
  exists k, opview i h = Some (OpDeq, replicate k MEmpty ++ [MUnlink a v]).

Record Inv (s : state) (h : ms_hist) : Prop := {
  mi_len : 0 < length (nodes s);
  mi_allocs : allocs (events h) = seq 2 (length (nodes s) - 1);
  mi_chain : NoDup (chain (events h));
  mi_link i a v : HLin i (MLink a v) ∈ h -> HLin i (MAlloc a v) ∈ h;
  mi_owner i j a v w : HLin i (MAlloc a v) ∈ h -> HLin j (MAlloc a w) ∈ h -> i = j /\ v = w;
  mi_data a v : MAlloc a v ∈ events h -> data (node_at a s) = v;
  mi_next k a : chain (events h) !! k = Some a ->
    next (node_at a s) = default 0 (chain (events h) !! S k);
  mi_fresh a v : MAlloc a v ∈ events h -> a ∉ chain (events h) -> next (node_at a s) = 0;
  mi_head : chain (events h) !! length (unlinks (events h)) = Some (head_ s);
  mi_tail : exists t, chain (events h) !! t = Some (tail_ s) /\ length (unlinks (events h)) <= t;
  mi_unlinks : unlinks (events h) = take (length (unlinks (events h))) (chain (events h));
  mi_taker i j a v w : HLin i (MUnlink a v) ∈ h -> HLin j (MUnlink a w) ∈ h -> i = j;
  mi_retire i a : HLin i (MRetire a) ∈ h -> exists v, HLin i (MUnlink a v) ∈ h;
  mi_retires : NoDup (retires (events h));
  mi_stack k a : retires (events h) !! k = Some a ->
    retired_next (node_at a s) = (0 :: retires (events h)) !!! k;
  mi_top : retired_ s = (0 :: retires (events h)) !!! length (retires (events h));
  mi_fifo : fifo_run [] (qevs (events h)) =
    Some (drop (length (unlinks (events h))) (links (events h)).*2);
  mi_linking i a v : HLin i (MAlloc a v) ∈ h -> a ∈ chain (events h) \/ linking i a v h;
  mi_retiring i a v : HLin i (MUnlink a v) ∈ h -> a ∈ retires (events h) \/ retiring i a v h
}.

(** Nodes of the chain are allocated nodes. *)
Lemma alloc_addr s h a v : Inv s h -> MAlloc a v ∈ events h -> 1 < a <= length (nodes s).
Proof.
  intros HI Hin. assert (a ∈ allocs (events h)) as Ha by (apply elem_allocs; eauto).
  rewrite (mi_allocs _ _ HI) in Ha. apply elem_of_seq in Ha. pose proof (mi_len _ _ HI). lia.
Qed.

Lemma chain_addr s h a : Inv s h -> a ∈ chain (events h) -> 0 < a <= length (nodes s).
Proof.
  intros HI [->|[v Hin]]%elem_chain; [pose proof (mi_len _ _ HI); lia|].
  apply elem_events in Hin as [i Hin].
  apply (mi_link _ _ HI) in Hin.
  pose proof (alloc_addr s h a v HI ltac:(apply elem_events; eauto)). lia.
Qed.

Lemma chain_next_0 s h k a :
  Inv s h -> chain (events h) !! k = Some a -> next (node_at a s) = 0 ->
  S k = length (chain (events h)).
Proof.
  intros HI Hk Hn. rewrite (mi_next _ _ HI k a Hk) in Hn.
  destruct (chain (events h) !! S k) as [b|] eqn:E; simpl in Hn.
  - subst b. apply list_elem_of_lookup_2 in E. apply (chain_addr s h) in E; [lia|done].
  - apply lookup_ge_None in E. apply lookup_lt_Some in Hk. lia.
Qed.

Lemma chain_next_succ s h k a :
  Inv s h -> chain (events h) !! k = Some a -> next (node_at a s) <> 0 ->
  chain (events h) !! S k = Some (next (node_at a s)).
Proof.
  intros HI Hk Hn. rewrite (mi_next _ _ HI k a Hk) in *. by destruct (chain (events h) !! S k).
Qed.

Lemma chain_lookup_inj s h j k a :
  Inv s h -> chain (events h) !! j = Some a -> chain (events h) !! k = Some a -> j = k.
Proof. intros HI. apply NoDup_lookup, (mi_chain _ _ HI). Qed.

Lemma chain_not_1 s h a v : Inv s h -> MAlloc a v ∈ events h -> a ∈ chain (events h) ->
  exists v, MLink a v ∈ events h.
Proof.
  intros HI Ha [->|Hin]%elem_chain; [|done].
  apply (alloc_addr s h) in Ha; [lia|done].
Qed.

Lemma unlink_chain s h a v :
  Inv s h -> MUnlink a v ∈ events h -> a ∈ chain (events h).
Proof.
  intros HI Hin. assert (a ∈ unlinks (events h)) as Hu by (apply elem_unlinks; eauto).
  rewrite (mi_unlinks _ _ HI) in Hu. by apply elem_of_take in Hu as (i & Hi%list_elem_of_lookup_2 & _).
Qed.

(** ** What a thread owns *)

(** Its node before it is linked, and the dummy it removed before it is retired. *)
Definition my_node (i a : nat) (v : Z) (h : ms_hist) : Prop :=
  HLin i (MAlloc a v) ∈ h /\ forall w, HLin i (MLink a w) ∉ h.

Definition my_dummy (i a : nat) (v : Z) (h : ms_hist) : Prop :=
  HLin i (MUnlink a v) ∈ h /\ HLin i (MRetire a) ∉ h.

Lemma my_node_fresh s h i a v : Inv s h -> my_node i a v h -> a ∉ chain (events h).
Proof.
  intros HI [Ha Hn] Hin. assert (MAlloc a v ∈ events h) as Ha' by (apply elem_events; eauto).
  destruct (chain_not_1 s h a v HI Ha' Hin) as [w Hl]. apply elem_events in Hl as [j Hl].
  destruct (mi_owner _ _ HI i j a v w Ha (mi_link _ _ HI _ _ _ Hl)) as [<- <-]. by apply (Hn v).
Qed.

Lemma my_dummy_fresh s h i a v : Inv s h -> my_dummy i a v h -> a ∉ retires (events h).
Proof.
  intros HI [Ha Hn] Hin. apply elem_retires, elem_events in Hin as [j Hj].
  destruct (mi_retire _ _ HI j a Hj) as [w Hw].
  by rewrite (mi_taker _ _ HI i j a v w Ha Hw) in Hn.
Qed.

(** ** The steps keep the invariant *)

Definition in_op (i : nat) (o : qop Z) (es : list mev) (h : ms_hist) : Prop :=
  opview i h = Some (o, es).

Lemma empties_no_unlink k k' a v : replicate k MEmpty <> replicate k' MEmpty ++ [MUnlink a v].
Proof.
  intros H. assert (MUnlink a v ∈ replicate k MEmpty) as Hin.
  { rewrite H. apply elem_of_app. right. by apply list_elem_of_singleton. }
  by apply elem_of_replicate in Hin as [? _].
Qed.

(** Thread [i] is in one operation, so it does not own two nodes. *)
Lemma linking_other i j a v o es e h :
  linking j a v h -> in_op i o es h -> (j = i -> (o, es) <> (OpEnq v, [MAlloc a v])) ->
  linking j a v (h ++ [HLin i e]).
Proof.
  unfold linking, in_op. intros Hl Ho Hne. rewrite opview_snoc. case_decide; [|done].
  subst. rewrite Ho in Hl. naive_solver.
Qed.

Lemma retiring_other i j a v o es e h :
  retiring j a v h -> in_op i o es h ->
  (forall k, j = i -> (o, es) <> (OpDeq, replicate k MEmpty ++ [MUnlink a v])) ->
  retiring j a v (h ++ [HLin i e]).
Proof.
  unfold retiring, in_op. intros [k Hl] Ho Hne. exists k. rewrite opview_snoc. case_decide; [|done].
  subst. rewrite Ho in Hl. naive_solver.
Qed.

Lemma Inv_alloc s h i v :
  let a := S (length (nodes s)) in let h' := h ++ [HLin i (MAlloc a v)] in
  Inv s h -> in_op i (OpEnq v) [] h -> Inv (alloc v s).1 h' /\ my_node i a v h'.
Proof.
  intros a h' HI Ho.
  assert (forall j w, HLin j (MAlloc a w) ∉ h) as Hnew.
  { intros j w Hin. pose proof (alloc_addr s h a w HI ltac:(apply elem_events; eauto)). unfold a in *. lia. }
  assert (forall b, b ∈ chain (events h) -> node_at b (alloc v s).1 = node_at b s) as Hch.
  { intros b Hb. apply node_at_alloc. by apply (chain_addr s h). }
  assert (forall b w, MAlloc b w ∈ events h -> node_at b (alloc v s).1 = node_at b s) as Hal.
  { intros b w Hb. apply node_at_alloc. pose proof (alloc_addr s h b w HI Hb). lia. }
  pose proof (node_at_new v s) as Hnd. fold a in Hnd. pose proof (length_alloc v s) as Hlen.
  assert (head_ (alloc v s).1 = head_ s /\ tail_ (alloc v s).1 = tail_ s /\
    retired_ (alloc v s).1 = retired_ s) as (Hhd & Htl & Hrt) by done.
  generalize dependent (alloc v s).1. intros s' Hch Hal Hnd Hlen Hhd Htl Hrt.
  split.
  - unfold h'. pose proof HI as HI0. destruct HI. split; msq; rewrite ?Hhd, ?Htl, ?Hrt; try done.
    + lia.
    + rewrite mi_allocs0, Hlen. replace (S (length (nodes s)) - 1) with (S (length (nodes s) - 1)) by lia.
      rewrite seq_S. do 2 f_equal. unfold a. lia.
    + intros j b w. rewrite !elem_lin_snoc. naive_solver.
    + intros j j' b w w'. rewrite !elem_lin_snoc. naive_solver.
    + intros b w. rewrite elem_ev_snoc. intros [Hb|[= -> ->]].
      * rewrite (Hal b w Hb). eauto.
      * by rewrite Hnd.
    + intros k b Hk. rewrite Hch by by apply list_elem_of_lookup_2 in Hk. eauto.
    + intros b w. rewrite elem_ev_snoc. intros [Hb|[= -> ->]] Hn.
      * rewrite (Hal b w Hb). eauto.
      * by rewrite Hnd.
    + intros j j' b w w'. rewrite !elem_lin_snoc. naive_solver.
    + intros j b. rewrite elem_lin_snoc. intros [Hb|[_ [=]]].
      destruct (mi_retire0 j b Hb) as [w Hw]. exists w. rewrite elem_lin_snoc. by left.
    + intros k b Hk. rewrite Hch; [eauto|].
      apply list_elem_of_lookup_2, elem_retires, elem_events in Hk as [j Hj].
      destruct (mi_retire0 j b Hj) as [w Hw]. apply (unlink_chain s h b w HI0). apply elem_events. eauto.
    + intros j b w. rewrite elem_lin_snoc. intros [Hb|[-> [= -> ->]]].
      * destruct (mi_linking0 _ _ _ Hb) as [?|?]; [by left|right].
        apply (linking_other i j b w (OpEnq v) []); naive_solver.
      * right. unfold linking. by rewrite opview_snoc, decide_True, Ho.
    + intros j b w. rewrite elem_lin_snoc. intros [Hb|[_ [=]]].
      destruct (mi_retiring0 _ _ _ Hb) as [?|?]; [by left|right].
      apply (retiring_other i j b w (OpEnq v) []); naive_solver.
  - split; unfold h'; [rewrite elem_lin_snoc; by right|]. intros w.
    rewrite elem_lin_snoc. intros [Hin|[_ [=]]]. apply (mi_link _ _ HI) in Hin. by apply (Hnew i w).
Qed.

Lemma retire_addr s h a : Inv s h -> a ∈ retires (events h) -> 0 < a <= length (nodes s).
Proof.
  intros HI Ha. apply elem_retires, elem_events in Ha as [j Hj].
  destruct (mi_retire _ _ HI j a Hj) as [w Hw]. apply (chain_addr s h); [done|].
  apply (unlink_chain s h a w); [done|]. apply elem_events. eauto.
Qed.

Lemma unlinks_lt s h : Inv s h -> length (unlinks (events h)) <= length (links (events h)).
Proof.
  intros HI. pose proof (lookup_lt_Some _ _ _ (mi_head _ _ HI)) as H. rewrite length_chain in H. lia.
Qed.

Lemma Inv_link s h i a v k t :
  Inv s h -> my_node i a v h -> in_op i (OpEnq v) [MAlloc a v] h ->
  chain (events h) !! k = Some t -> next (node_at t s) = 0 ->
  Inv (set_node t (mkNode (data (node_at t s)) a (retired_next (node_at t s))) s)
    (h ++ [HLin i (MLink a v)]).
Proof.
  intros HI Hmy Ho Hk Hn. pose proof (my_node_fresh s h i a v HI Hmy) as Hfr.
  pose proof (chain_next_0 s h k t HI Hk Hn) as Hlast.
  pose proof (chain_addr s h t HI (list_elem_of_lookup_2 _ _ _ Hk)) as Ht.
  assert (a <> t) as Hat by (intros ->; by apply list_elem_of_lookup_2 in Hk).
  pose proof (unlinks_lt s h HI) as Hul. destruct Hmy as [Ha _].
  assert (MAlloc a v ∈ events h) as Ha' by (apply elem_events; eauto).
  set (nd := mkNode (data (node_at t s)) a (retired_next (node_at t s))).
  assert (forall b, 0 < b -> node_at b (set_node t nd s) = if decide (b = t) then nd else node_at b s)
    as Hset by (intros; by apply node_at_set).
  pose proof (alloc_addr s h) as Hal. pose proof (chain_addr s h) as Hch.
  pose proof (retire_addr s h) as Hre.
  assert (nodes (set_node t nd s) = <[t - 1 := nd]> (nodes s) /\ head_ (set_node t nd s) = head_ s /\
    tail_ (set_node t nd s) = tail_ s /\ retired_ (set_node t nd s) = retired_ s) as (Hnd & Hhd & Htl & Hrt) by done.
  generalize dependent (set_node t nd s). intros s' Hset Hnd Hhd Htl Hrt.
  pose proof HI as HI0. destruct HI. split; msq; rewrite ?Hnd, ?length_insert, ?Hhd, ?Htl, ?Hrt; try done.
  - apply list.NoDup_app. split_and!; [done| |apply NoDup_singleton]. by intros b Hb ->%list_elem_of_singleton.
  - intros j b w. rewrite !elem_lin_snoc. naive_solver.
  - intros j j' b w w'. rewrite !elem_lin_snoc. naive_solver.
  - intros b w. rewrite elem_ev_snoc. intros [Hb|[=]].
    rewrite Hset by (pose proof (Hal b w HI0 Hb); lia). case_decide; [subst; simpl|]; eauto.
  - intros j b [Hj|[Hlen Hj]]%lookup_app_Some.
    + rewrite Hset by (pose proof (Hch b HI0 (list_elem_of_lookup_2 _ _ _ Hj)); lia). case_decide.
      * subst. rewrite (chain_lookup_inj s h j k t HI0 Hj Hk), Hlast, lookup_app_r by done.
        by rewrite Nat.sub_diag.
      * rewrite (mi_next0 j b Hj). apply lookup_lt_Some in Hj as Hlt.
        destruct (decide (S j = length (chain (events h)))) as [He|].
        { assert (j = k) as -> by lia. congruence. }
        by rewrite lookup_app_l by lia.
    + apply list_lookup_singleton_Some in Hj as [Hz <-].
      rewrite Hset by (pose proof (Hal a v HI0 Ha'); lia). rewrite decide_False by done.
      rewrite (mi_fresh0 a v) by done. rewrite lookup_ge_None_2; [done|].
      rewrite length_app. simpl. lia.
  - intros b w. rewrite elem_ev_snoc. intros [Hb|[=]] Hnin.
    rewrite Hset by (pose proof (Hal b w HI0 Hb); lia). rewrite not_elem_of_app in Hnin.
    rewrite decide_False; [apply (mi_fresh0 b w); [done|naive_solver]|].
    intros ->. apply list_elem_of_lookup_2 in Hk. naive_solver.
  - by apply lookup_app_l_Some.
  - destruct mi_tail0 as (p & Hp & Hle). exists p. split; [by apply lookup_app_l_Some|done].
  - rewrite take_app_le; [done|]. rewrite length_chain. lia.
  - intros j j' b w w'. rewrite !elem_lin_snoc. naive_solver.
  - intros j b. rewrite elem_lin_snoc. intros [Hb|[_ [=]]].
    destruct (mi_retire0 j b Hb) as [w Hw]. exists w. rewrite elem_lin_snoc. by left.
  - intros j b Hj. rewrite Hset by (pose proof (Hre b HI0 (list_elem_of_lookup_2 _ _ _ Hj)); lia).
    case_decide; [subst; simpl|]; eauto.
  - rewrite (fifo_run_snoc _ _ _ _ mi_fifo0). simpl. rewrite fmap_app, drop_app_le; [done|].
    by rewrite length_fmap.
  - intros j b w. rewrite elem_lin_snoc, elem_of_app, list_elem_of_singleton. intros [Hb|[_ [=]]].
    destruct (mi_linking0 _ _ _ Hb) as [?|Hl]; [by left; left|].
    destruct (decide (b = a)) as [->|Hba]; [by left; right|right].
    apply (linking_other i j b w (OpEnq v) [MAlloc a v]); naive_solver.
  - intros j b w. rewrite elem_lin_snoc. intros [Hb|[_ [=]]].
    destruct (mi_retiring0 _ _ _ Hb) as [?|?]; [by left|right].
    apply (retiring_other i j b w (OpEnq v) [MAlloc a v]); naive_solver.
Qed.

(** [tail_] follows a link. *)
Lemma Inv_tail s h k x :
  Inv s h -> chain (events h) !! k = Some (tail_ s) -> chain (events h) !! S k = Some x ->
  Inv (mkState (nodes s) (head_ s) x (retired_ s)) h.
Proof.
  intros HI Hk Hx. pose proof HI as HI0. destruct HI. split; try done.
  simpl. destruct mi_tail0 as (t & Ht & Hle). exists (S k). split; [done|].
  rewrite (chain_lookup_inj s h k t _ HI0 Hk Ht). lia.
Qed.

(** An observation of the empty list. *)
Lemma ms_Inv_empty s h i m :
  Inv s h -> in_op i OpDeq (replicate m MEmpty) h ->
  S (length (unlinks (events h))) = length (chain (events h)) ->
  Inv s (h ++ [HLin i MEmpty]).
Proof.
  intros HI Ho Hlen. rewrite length_chain in Hlen. destruct HI. split; msq; try done.
  - intros j b w. rewrite !elem_lin_snoc. naive_solver.
  - intros j j' b w w'. rewrite !elem_lin_snoc. naive_solver.
  - intros b w. rewrite elem_ev_snoc. naive_solver.
  - intros b w. rewrite elem_ev_snoc. naive_solver.
  - intros j j' b w w'. rewrite !elem_lin_snoc. naive_solver.
  - intros j b. rewrite elem_lin_snoc. intros [Hb|[_ [=]]].
    destruct (mi_retire0 j b Hb) as [w Hw]. exists w. rewrite elem_lin_snoc. by left.
  - rewrite (fifo_run_snoc _ _ _ _ mi_fifo0). rewrite drop_ge by (rewrite length_fmap; lia). done.
  - intros j b w. rewrite elem_lin_snoc. intros [Hb|[_ [=]]].
    destruct (mi_linking0 _ _ _ Hb) as [?|?]; [by left|right].
    apply (linking_other i j b w OpDeq (replicate m MEmpty)); naive_solver.
  - intros j b w. rewrite elem_lin_snoc. intros [Hb|[_ [=]]].
    destruct (mi_retiring0 _ _ _ Hb) as [?|?]; [by left|right].
    apply (retiring_other i j b w OpDeq (replicate m MEmpty)); [done..|].
    intros k _ [= Hr]. by apply empties_no_unlink in Hr.
Qed.

(** [head_] moves to the next node, whose value is taken. *)
Lemma Inv_unlink s h i m x t :
  let h' := h ++ [HLin i (MUnlink (head_ s) (data (node_at x s)))] in
  Inv s h -> in_op i OpDeq (replicate m MEmpty) h ->
  chain (events h) !! S (length (unlinks (events h))) = Some x ->
  chain (events h) !! t = Some (tail_ s) -> length (unlinks (events h)) < t ->
  Inv (mkState (nodes s) x (tail_ s) (retired_ s)) h' /\
  my_dummy i (head_ s) (data (node_at x s)) h'.
Proof.
  intros h' HI Ho Hx Ht Hlt. set (v := data (node_at x s)) in *.
  destruct (chain_value _ _ _ Hx) as (v' & Hv & Hl).
  assert (v' = v) as ->.
  { symmetry. apply (mi_data _ _ HI). apply elem_events in Hl as [j Hj%(mi_link _ _ HI)].
    apply elem_events. eauto. }
  assert (forall j w, HLin j (MUnlink (head_ s) w) ∉ h) as Hnew.
  { intros j w Hin. assert (head_ s ∈ unlinks (events h)) as Hu.
    { apply elem_unlinks. exists w. apply elem_events. eauto. }
    rewrite (mi_unlinks _ _ HI) in Hu. apply elem_of_take in Hu as (k & Hk & Hlt').
    rewrite (chain_lookup_inj s h k _ _ HI Hk (mi_head _ _ HI)) in Hlt'. lia. }
  split.
  - unfold h'. destruct HI. split; msq; rewrite ?length_app; simpl; rewrite ?Nat.add_1_r; try done.
    + intros j b w. rewrite !elem_lin_snoc. naive_solver.
    + intros j j' b w w'. rewrite !elem_lin_snoc. naive_solver.
    + intros b w. rewrite elem_ev_snoc. naive_solver.
    + intros b w. rewrite elem_ev_snoc. naive_solver.
    + exists t. by split.
    + rewrite mi_unlinks0 at 1. by rewrite (take_S_r _ _ _ mi_head0).
    + intros j j' b w w'. rewrite !elem_lin_snoc. naive_solver.
    + intros j b. rewrite elem_lin_snoc. intros [Hb|[_ [=]]].
      destruct (mi_retire0 j b Hb) as [w Hw]. exists w. rewrite elem_lin_snoc. by left.
    + rewrite (fifo_run_snoc _ _ _ _ mi_fifo0). erewrite drop_S by done. simpl.
      by rewrite decide_True.
    + intros j b w. rewrite elem_lin_snoc. intros [Hb|[_ [=]]].
      destruct (mi_linking0 _ _ _ Hb) as [?|?]; [by left|right].
      apply (linking_other i j b w OpDeq (replicate m MEmpty)); naive_solver.
    + intros j b w. rewrite elem_lin_snoc. intros [Hb|[-> [= -> ->]]].
      * destruct (mi_retiring0 _ _ _ Hb) as [?|?]; [by left|right].
        apply (retiring_other i j b w OpDeq (replicate m MEmpty)); [done..|].
        intros k _ [= Hr]. by apply empties_no_unlink in Hr.
      * right. exists m. by rewrite opview_snoc, decide_True, Ho.
  - split; unfold h'; rewrite elem_lin_snoc; [by right|].
    intros [Hin|[_ [=]]]. destruct (mi_retire _ _ HI _ _ Hin) as [w Hw]. by apply (Hnew i w).
Qed.

(** The owner of a removed node links it to the stack ... *)
Lemma Inv_store_retired s h i a v r :
  Inv s h -> my_dummy i a v h ->
  Inv (store_retired_next a r s).1 h /\ retired_next (node_at a (store_retired_next a r s).1) = r.
Proof.
  intros HI Hmy. pose proof (my_dummy_fresh s h i a v HI Hmy) as Hfr. destruct Hmy as [Ha _].
  assert (0 < a <= length (nodes s)) as Haddr.
  { apply (chain_addr s h); [done|]. apply (unlink_chain s h a v HI). apply elem_events. eauto. }
  unfold store_retired_next. simpl. set (nd := mkNode _ _ r).
  pose proof (alloc_addr s h) as Hal. pose proof (chain_addr s h) as Hch.
  pose proof (retire_addr s h) as Hre.
  split; [|by rewrite node_at_set, decide_True by lia].
  pose proof HI as HI0. destruct HI. split; try done; simpl.
  - by rewrite length_insert.
  - by rewrite length_insert.
  - intros b w Hb. rewrite node_at_set by (pose proof (Hal b w HI0 Hb); lia).
    case_decide; [subst; simpl|]; eauto.
  - intros k b Hk. rewrite node_at_set by (pose proof (Hch b HI0 (list_elem_of_lookup_2 _ _ _ Hk)); lia).
    case_decide; [subst; simpl|]; eauto.
  - intros b w Hb Hn. rewrite node_at_set by (pose proof (Hal b w HI0 Hb); lia).
    case_decide; [subst; simpl|]; eauto.
  - intros k b Hk. apply list_elem_of_lookup_2 in Hk as Hin.
    rewrite node_at_set by (pose proof (Hre b HI0 Hin); lia).
    rewrite decide_False; [eauto|]. by intros ->.
Qed.

(** ... and makes it the top of the stack. *)
Lemma Inv_retire s h i m a v :
  Inv s h -> my_dummy i a v h -> in_op i OpDeq (replicate m MEmpty ++ [MUnlink a v]) h ->
  retired_next (node_at a s) = retired_ s ->
  Inv (mkState (nodes s) (head_ s) (tail_ s) a) (h ++ [HLin i (MRetire a)]).
Proof.
  intros HI Hmy Ho Hr. pose proof (my_dummy_fresh s h i a v HI Hmy) as Hfr. destruct Hmy as [Ha _].
  destruct HI. split; msq; try done.
  - intros j b w. rewrite !elem_lin_snoc. naive_solver.
  - intros j j' b w w'. rewrite !elem_lin_snoc. naive_solver.
  - intros b w. rewrite elem_ev_snoc. naive_solver.
  - intros b w. rewrite elem_ev_snoc. naive_solver.
  - intros j j' b w w'. rewrite !elem_lin_snoc. naive_solver.
  - intros j b. rewrite elem_lin_snoc. intros [Hb|[-> [= ->]]].
    + destruct (mi_retire0 j b Hb) as [w Hw]. exists w. rewrite elem_lin_snoc. by left.
    + exists v. rewrite elem_lin_snoc. by left.
  - apply list.NoDup_app. split_and!; [done| |apply NoDup_singleton]. by intros b Hb ->%list_elem_of_singleton.
  - intros k b [Hk|[Hlen Hk]]%lookup_app_Some; change (0 :: ?l ++ ?l') with ((0 :: l) ++ l').
    + rewrite lookup_total_app_l by (apply lookup_lt_Some in Hk; simpl; lia). eauto.
    + apply list_lookup_singleton_Some in Hk as [Hz <-].
      rewrite lookup_total_app_l by (simpl; lia). transitivity (retired_ s); [exact Hr|rewrite mi_top0]. f_equal. lia.
  - change (0 :: ?l ++ ?l') with ((0 :: l) ++ l'). rewrite lookup_total_app_r by (rewrite length_app; simpl; lia).
    rewrite length_app. simpl. by replace (length _ + 1 - S _) with 0 by lia.
  - intros j b w. rewrite elem_lin_snoc. intros [Hb|[_ [=]]].
    destruct (mi_linking0 _ _ _ Hb) as [?|?]; [by left|right].
    eapply linking_other; [done..|]. by intros _ [=].
  - intros j b w. rewrite elem_lin_snoc, elem_of_app, list_elem_of_singleton. intros [Hb|[_ [=]]].
    destruct (mi_retiring0 _ _ _ Hb) as [?|?]; [by left; left|].
    destruct (decide (b = a)) as [->|Hba]; [by left; right|right].
    eapply retiring_other; [done..|]. intros k _ [= He]. apply app_inj_tail in He as [_ [=]]. done.
Qed.

Lemma ms_Inv_call s h i o : Inv s h -> opview i h = None -> Inv s (h ++ [HCall i o]).
Proof.
  intros HI Hn.
  assert (forall j e, HLin j e ∈ h ++ [HCall i o] <-> HLin j e ∈ h) as Hel.
  { intros j e. rewrite elem_of_app, list_elem_of_singleton. naive_solver. }
  destruct HI. split; rewrite ?events_app; simpl; rewrite ?app_nil_r; try done; setoid_rewrite Hel; try done.
  - intros j a v Hin. destruct (mi_linking0 _ _ _ Hin) as [?|Hl]; [by left|right].
    unfold linking in *. rewrite opview_call. case_decide; [|done]. subst. congruence.
  - intros j a v Hin. destruct (mi_retiring0 _ _ _ Hin) as [?|[k Hl]]; [by left|right].
    exists k. rewrite opview_call. case_decide; [|done]. subst. congruence.
Qed.

(** ** The proof outline *)

Definition tail_from (k : nat) (s : state) (h : ms_hist) : Prop :=
  exists t, chain (events h) !! t = Some (tail_ s) /\ k <= t.

(** A step never moves [tail_] backwards, and writes the [retired_next] field
    of a node only when the thread removed it. *)
Definition Gr (i : nat) (c c' : state * ms_hist) : Prop :=
  (forall k, tail_from k c.1 c.2 -> tail_from k c'.1 c'.2) /\
  (forall a, 0 < a <= length (nodes c.1) ->
     retired_next (node_at a c'.1) = retired_next (node_at a c.1) \/
     exists v, HLin i (MUnlink a v) ∈ c.2).

Definition ms_env (s : state) (h : ms_hist) : Prop := True.

(** What a completed call has done.  [enqueue] allocated one node and linked
    it.  A successful [dequeue] removed one dummy and retired it; before, it may
    have observed the empty list any number of times.  A [dequeue] that failed
    observed the empty list and had no other effect. *)
Definition ms_good (o : qop Z) (es : list mev) (r : mres) : Prop :=
  match o with
  | OpEnq v => r = MTrue /\ exists a, es = [MAlloc a v; MLink a v]
  | OpDeq =>
      exists m, (r = MDeq None /\ es = replicate (S m) MEmpty) \/
        (exists a v, r = MDeq (Some v) /\ es = replicate m MEmpty ++ [MUnlink a v; MRetire a])
  end.

Definition LI (i : nat) (l : label) (s : state) (h : ms_hist) : Prop :=
  match l with
  | EnqAlloc v => in_op i (OpEnq v) [] h
  | EnqLoop v a => in_op i (OpEnq v) [MAlloc a v] h /\ my_node i a v h
  | DeqLoop => exists m, in_op i OpDeq (replicate m MEmpty) h
  | RetireStart v a => retiring i a v h /\ my_dummy i a v h
  | RetireLoop v a _ => retiring i a v h /\ my_dummy i a v h
  end.

Abbreviation stable := (stable Inv Gr).
Abbreviation wp := (wp Inv Gr ms_env).
Abbreviation Q := (Qloop LI ms_good).

Lemma stable_at i k a : stable i (fun _ h => chain (events h) !! k = Some a).
Proof.
  apply (stable_events _ _ i (fun es => chain es !! k = Some a)). intros es l H.
  rewrite chain_app. by apply lookup_app_l_Some.
Qed.

Lemma stable_tail_from i k : stable i (tail_from k).
Proof. intros c c' (j & _ & _ & [Ht _] & _) H. auto. Qed.

Lemma stable_unlinks i k : stable i (fun _ h => k <= length (unlinks (events h))).
Proof.
  apply (stable_events _ _ i (fun es => k <= length (unlinks es))). intros es l H.
  rewrite unlinks_app, length_app. lia.
Qed.

Lemma stable_my_node i a v : stable i (fun _ h => my_node i a v h).
Proof.
  intros c c' (j & Hj & Hh & _) [Ha Hn]. split; [by apply (hist_step_own j i c.2)|].
  intros w Hin. apply (Hn w). by apply (hist_step_own j i c.2 c'.2).
Qed.

Lemma stable_my_dummy i a v : stable i (fun _ h => my_dummy i a v h).
Proof.
  intros c c' (j & Hj & Hh & _) [Ha Hn]. split; [by apply (hist_step_own j i c.2)|].
  intros Hin. apply Hn. by apply (hist_step_own j i c.2 c'.2).
Qed.

Lemma stable_retiring i a v : stable i (fun _ h => retiring i a v h).
Proof.
  apply (stable_view _ _ i (fun x => exists k, x = Some (OpDeq, replicate k MEmpty ++ [MUnlink a v]))).
Qed.

(** The owner's write to [retired_next] is not overwritten. *)
Lemma stable_retired_next i a v r :
  stable i (fun s h => my_dummy i a v h /\ retired_next (node_at a s) = r).
Proof.
  intros c c' Hr [Hmy <-]. split; [by apply (stable_my_dummy i a v c c')|].
  destruct Hr as (j & Hj & _ & [_ Hw] & HI & _). destruct Hmy as [Ha _].
  destruct (Hw a) as [?|[w Hin]]; [|done|].
  - apply (chain_addr _ c.2); [done|]. apply (unlink_chain c.1 c.2 a v HI). apply elem_events. eauto.
  - by destruct (Hj (mi_taker _ _ HI j i a w v Hin Ha)).
Qed.

Lemma Gr_tail i s h s' h' :
  (forall k, tail_from k s h -> tail_from k s' h') ->
  (forall a, 0 < a <= length (nodes s) -> retired_next (node_at a s') = retired_next (node_at a s)) ->
  Gr i (s, h) (s', h').
Proof. intros H1 H2. split; [done|]. intros a Ha. left. auto. Qed.

(** More history, with the same [tail_]. *)
Lemma tail_from_more k s s' h l :
  tail_ s' = tail_ s -> tail_from k s h -> tail_from k s' (h ++ l).
Proof.
  intros Ht (t & Hk & Hle). exists t. rewrite events_app, chain_app, Ht. split; [|done].
  by apply lookup_app_l_Some.
Qed.

Lemma ms_Gr_same i s h : Gr i (s, h) (s, h).
Proof. by apply Gr_tail. Qed.

Lemma ms_Gr_more i s h l : Gr i (s, h) (s, h ++ l).
Proof. apply Gr_tail; [|done]. intros k. by apply tail_from_more. Qed.

Ltac ms_stab :=
  repeat match goal with
  | |- Conc.stable _ _ _ (fun _ _ => _ /\ _) => apply stable_and
  | |- Conc.stable _ _ ?i (fun _ h => in_op ?i _ _ h) => apply stable_op
  | |- Conc.stable _ _ _ (fun _ h => chain (events h) !! _ = Some _) => apply stable_at
  | |- Conc.stable _ _ _ (fun s h => tail_from _ s h) => apply stable_tail_from
  | |- Conc.stable _ _ _ (tail_from _) => apply stable_tail_from
  | |- Conc.stable _ _ _ (fun _ h => _ <= length (unlinks (events h))) => apply stable_unlinks
  | |- Conc.stable _ _ _ (fun _ h => my_node _ _ _ h) => apply stable_my_node
  | |- Conc.stable _ _ _ (fun _ h => retiring _ _ _ h) => apply stable_retiring
  | |- Conc.stable _ _ _ (fun _ h => my_dummy _ _ _ h) => apply stable_my_dummy
  | |- Conc.stable _ _ _ (fun s h => my_dummy _ _ _ h /\ retired_next _ = _) => apply stable_retired_next
  | |- Conc.stable _ _ _ (fun _ _ => _) => apply stable_pure
  end.

Lemma stable_LI i l : stable i (LI i l).
Proof.
  destruct l; unfold LI; ms_stab.
  apply (stable_view _ _ i (fun x => exists m, x = Some (OpDeq, replicate m MEmpty))).
Qed.

(** Helping [tail_] over a link. *)
Lemma ms_wp_help {A} i k t x b (kk : bool -> prog state mev A) QQ (P : ms_hist -> Prop) s h :
  stable i (fun _ => P) -> P h -> chain (events h) !! k = Some t -> chain (events h) !! S k = Some x ->
  (forall ok s h, P h -> wp i (kk ok) QQ (s, h)) ->
  wp i (Act bool (cas_tail b t x) (fun _ => []) kk) QQ (s, h).
Proof.
  intros HP HPs Hk Hx Hkk.
  apply (wp_silent _ _ _ i (fun _ h => P h /\ chain (events h) !! k = Some t /\ chain (events h) !! S k = Some x));
    [apply stable_and; [done|ms_stab]|done|].
  clear s h HPs Hk Hx. intros s h s2 ok (HPs & Hk & Hx) HI.
  destruct (cas_tail_cases b t x s) as [->|[<- ->]]; intros [= <- <-] _.
  - split_and!; [apply ms_Gr_same|done|auto].
  - pose proof (Inv_tail s h k x HI Hk Hx) as HI'. split_and!; [|done|auto].
    apply Gr_tail; [|done]. intros m (p & Hp & Hle). exists (S k). split; [done|].
    rewrite (chain_lookup_inj s h k p _ HI Hk Hp). lia.
Qed.

(** Every jump. *)
Lemma wp_jump i l s h : LI i l s h -> wp i (Ret (inl l)) (Q i) (s, h).
Proof. intros HL. apply (wp_ret _ _ _ i); [apply stable_LI|done]. Qed.

Lemma wp_alloc i v s h : LI i (EnqAlloc v) s h -> wp i (enqueue_alloc v) (Q i) (s, h).
Proof.
  intros Ho. unfold enqueue_alloc. simpl.
  apply (wp_act _ _ _ i (LI i (EnqAlloc v))); [apply stable_LI|done|].
  clear s h Ho. intros s h s2 a Ho HI Ha _. destruct (Inv_alloc s h i v HI Ho) as [HI' Hmy].
  injection Ha as <- <-. change (HLin i <$> [?e]) with [HLin (Op := qop Z) (R := mres) i e] in *.
  split_and!; [|done|].
  - apply Gr_tail; [intros k; by apply tail_from_more|]. intros a Ha.
    by rewrite <- (node_at_alloc v s a Ha).
  - apply wp_jump. split; [|done]. unfold in_op. by rewrite opview_snoc, decide_True, Ho.
Qed.

Lemma ms_wp_enqueue i v a s h : LI i (EnqLoop v a) s h -> wp i (enqueue_loop v a) (Q i) (s, h).
Proof.
  intros HL. unfold enqueue_loop. simpl.
  apply (wp_silent _ _ _ i (LI i (EnqLoop v a))); [apply stable_LI|done|]. clear s h HL.
  intros s h s2 t HL HI [= <- <-] _. destruct (mi_tail _ _ HI) as (k & Hk & _).
  split_and!; [apply ms_Gr_same|done|]. set (t := tail_ s) in *. clearbody t.
  apply (wp_silent _ _ _ i (fun s h => LI i (EnqLoop v a) s h /\ chain (events h) !! k = Some t));
    [apply stable_and; [apply stable_LI|ms_stab]|done|]. clear s h HL HI Hk.
  intros s h s2 nx [HL Hk] HI [= <- <-] _. split_and!; [apply ms_Gr_same|done|].
  assert (next (node_at t s) <> 0 -> chain (events h) !! S k = Some (next (node_at t s))) as Hnx
    by by apply chain_next_succ.
  set (nx := next (node_at t s)) in *. clearbody nx.
  apply (wp_silent _ _ _ i (fun s h => LI i (EnqLoop v a) s h /\ chain (events h) !! k = Some t /\
    (nx = 0 \/ chain (events h) !! S k = Some nx))).
  { apply stable_and; [apply stable_LI|]. apply stable_and; [ms_stab|].
    intros c c' Hr [?|?]; [by left|right]. by apply (stable_at i (S k) nx c c'). }
  { destruct (decide (nx = 0)); auto. }
  clear s h HL HI Hk Hnx. intros s h s2 t' (HL & Hk & Hnx) HI [= <- <-] _.
  split_and!; [apply ms_Gr_same|done|]. destruct (Nat.eqb_spec t (tail_ s)) as [_|_]; simpl;
    [|by apply wp_jump].
  destruct (Nat.eqb_spec nx 0) as [->|Hne]; simpl; apply wp_choose; intros b; simpl.
  - apply (wp_act _ _ _ i (fun s h => LI i (EnqLoop v a) s h /\ chain (events h) !! k = Some t));
      [apply stable_and; [apply stable_LI|ms_stab]|done|].
    clear s h HL HI Hk Hnx. intros s h s2 ok [[Ho Hmy] Hk] HI.
    destruct (cas_next_cases b t 0 a s) as [->|[Hn ->]]; intros [= <- <-] _.
    { rewrite lin_nil. split_and!; [apply ms_Gr_same|done|]. by apply wp_jump. }
    pose proof (Inv_link s h i a v k t HI Hmy Ho Hk Hn) as HI'.
    change (HLin i <$> [?e]) with [HLin (Op := qop Z) (R := mres) i e].
    split_and!; [|done|].
    + apply Gr_tail; [intros m; by apply tail_from_more|]. intros c Hc.
      rewrite node_at_set; [by case_decide; subst| |lia].
      apply (chain_addr s h); [done|]. by apply list_elem_of_lookup_2 in Hk.
    + apply wp_choose. intros b'. simpl.
      apply (ms_wp_help i k t a b' _ _ (fun h => in_op i (OpEnq v) [MAlloc a v; MLink a v] h)).
      * ms_stab.
      * unfold in_op in *. by rewrite opview_snoc, decide_True, Ho.
      * msq. by apply lookup_app_l_Some.
      * msq. rewrite (chain_next_0 s h k t HI Hk Hn), lookup_app_r, Nat.sub_diag by done. done.
      * intros ok s1 h1 Ho1. apply (wp_ret _ _ _ i); [apply stable_post|].
        eexists _, _. split; [done|]. split; [done|]. by exists a.
  - destruct Hnx as [?|Hnx]; [done|].
    apply (ms_wp_help i k t nx b _ _ (fun h => LI i (EnqLoop v a) s h)); [apply (stable_LI i (EnqLoop v a))|done..|].
    intros ok s1 h1 HL1. by apply wp_jump.
Qed.

Lemma empty_view i m h :
  in_op i OpDeq (replicate m MEmpty) h -> in_op i OpDeq (replicate (S m) MEmpty) (h ++ [HLin i MEmpty]).
Proof.
  unfold in_op. intros Ho. by rewrite opview_snoc, decide_True, Ho, replicate_S_end.
Qed.

(** Reading [head->next]: a null pointer shows that the list is empty now. *)
Lemma head_next s h i m k hd :
  Inv s h -> in_op i OpDeq (replicate m MEmpty) h -> chain (events h) !! k = Some hd ->
  k <= length (unlinks (events h)) ->
  (next (node_at hd s) = 0 /\ Inv s (h ++ [HLin i MEmpty])) \/
  (next (node_at hd s) <> 0 /\ chain (events h) !! S k = Some (next (node_at hd s))).
Proof.
  intros HI Ho Hk Hle. destruct (decide (next (node_at hd s) = 0)) as [Hz|Hz]; [left|right]; split; try done.
  - apply (ms_Inv_empty s h i m HI Ho). pose proof (chain_next_0 s h k hd HI Hk Hz).
    pose proof (unlinks_lt s h HI). rewrite length_chain in *. lia.
  - by apply (chain_next_succ s h).
Qed.

(** From the value of the next node to the removal of the dummy. *)
Lemma wp_take i m k hd nx s h :
  in_op i OpDeq (replicate m MEmpty) h -> chain (events h) !! k = Some hd ->
  chain (events h) !! S k = Some nx -> tail_from (S k) s h ->
  wp i (bind (atomic (load_data nx)) (fun value => bind choose (fun spurious =>
     bind (atomic_lin (cas_head spurious hd nx) (fun ok : bool => if ok then [MUnlink hd value] else []))
       (fun ok : bool => if ok then Ret (inl (RetireStart value hd)) else Ret (inl DeqLoop))))) (Q i) (s, h).
Proof.
  intros Ho Hk Hx Ht. simpl.
  set (P := fun s h => in_op i OpDeq (replicate m MEmpty) h /\ chain (events h) !! k = Some hd /\
    chain (events h) !! S k = Some nx /\ tail_from (S k) s h).
  assert (stable i P) as HP by (unfold P; ms_stab).
  apply (wp_silent _ _ _ i P); [done|done|]. clear s h Ho Hk Hx Ht. intros s h s2 v HPs HI [= <- <-] _.
  split_and!; [apply ms_Gr_same|done|]. apply wp_choose. intros b. simpl.
  destruct (chain_value _ _ _ (proj1 (proj2 (proj2 HPs)))) as (v & _ & Hl).
  assert (MAlloc nx v ∈ events h) as Hal.
  { apply elem_events in Hl as [p Hp%(mi_link _ _ HI)]. apply elem_events. eauto. }
  rewrite (mi_data _ _ HI nx v Hal).
  apply (wp_act _ _ _ i (fun s h => P s h /\ MAlloc nx v ∈ events h)).
  { apply stable_and; [done|]. apply (stable_events _ _ i (fun es => MAlloc nx v ∈ es)).
    intros es l Hin. apply elem_of_app. by left. }
  { done. }
  clear s h HPs HI Hl Hal. intros s h s2 ok [(Ho & Hk & Hx & p & Hp & Hle) Hal] HI.
  destruct (cas_head_cases b hd nx s) as [->|[<- ->]]; intros [= <- <-] _.
  { rewrite lin_nil. split_and!; [apply ms_Gr_same|done|]. apply wp_jump. by exists m. }
  pose proof (chain_lookup_inj s h _ _ _ HI Hk (mi_head _ _ HI)) as ->.
  rewrite <- (mi_data _ _ HI nx v Hal) in *.
  destruct (Inv_unlink s h i m nx p HI Ho Hx Hp Hle) as [HI' Hmy].
  change (HLin i <$> [?e]) with [HLin (Op := qop Z) (R := mres) i e].
  split_and!; [|done|].
  - apply Gr_tail; [|done]. intros q. by apply tail_from_more.
  - apply wp_jump. split; [|done]. exists m. unfold in_op in Ho. by rewrite opview_snoc, decide_True, Ho.
Qed.

Lemma ms_wp_dequeue i s h : LI i DeqLoop s h -> wp i dequeue_loop (Q i) (s, h).
Proof.
  intros [m Ho]. unfold dequeue_loop. simpl.
  apply (wp_silent _ _ _ i (fun _ h => in_op i OpDeq (replicate m MEmpty) h)); [ms_stab|done|]. clear s h Ho.
  intros s h s2 hd Ho HI [= <- <-] _. split_and!; [apply ms_Gr_same|done|].
  pose proof (mi_head _ _ HI) as Hk. set (k := length (unlinks (events h))) in *.
  assert (k <= length (unlinks (events h))) as Hle by done. set (hd := head_ s) in *. clearbody hd k.
  set (P := fun h => in_op i OpDeq (replicate m MEmpty) h /\ chain (events h) !! k = Some hd /\
    k <= length (unlinks (events h))).
  assert (stable i (fun _ => P)) as HP by (unfold P; ms_stab).
  apply (wp_silent _ _ _ i (fun _ => P)); [done|done|]. clear s h Ho HI Hk Hle.
  intros s h s2 t HPs HI [= <- <-] _. split_and!; [apply ms_Gr_same|done|].
  destruct (mi_tail _ _ HI) as (j & Hj & Hkj). set (t := tail_ s) in *.
  assert (tail_from j s h) as Htf by (by exists j). assert (k <= j) as Hle by (destruct HPs; lia).
  clearbody t.
  apply (wp_act _ _ _ i (fun s h => P h /\ chain (events h) !! j = Some t /\ tail_from j s h));
    [apply stable_and; [done|ms_stab]|done|].
  clear s h HPs HI Hj Hkj Htf. intros s h s2 nx (HPs & Hj & Htf) HI [= <- <-] _.
  destruct (head_next s h i m k hd HI) as [[Hz HI']|[Hz Hx]]; [apply HPs..| |].
  - rewrite Hz. simpl. change (HLin i <$> [?e]) with [HLin (Op := qop Z) (R := mres) i e].
    split_and!; [apply ms_Gr_more|done|].
    apply (wp_silent _ _ _ i (fun _ h => in_op i OpDeq (replicate (S m) MEmpty) h));
      [ms_stab|by apply empty_view; apply HPs|].
    clear s h HPs HI HI' Hz Hj Htf. intros s h s2 hd' Ho HI [= <- <-] _.
    split_and!; [apply ms_Gr_same|done|]. destruct (hd =? head_ s); simpl.
    + apply (wp_ret _ _ _ i); [apply stable_post|]. eexists _, _. split; [done|]. exists m. by left.
    + apply wp_jump. by exists (S m).
  - rewrite (proj2 (Nat.eqb_neq _ _) Hz), lin_nil. split_and!; [apply ms_Gr_same|done|].
    set (nx := next (node_at hd s)) in *. clearbody nx.
    apply (wp_silent _ _ _ i (fun s h => P h /\ chain (events h) !! j = Some t /\ tail_from j s h /\
      chain (events h) !! S k = Some nx)); [apply stable_and; [done|ms_stab]|done|].
    clear s h HPs HI Hj Htf Hx. intros s h s2 hd' ((Ho & Hk & Hu) & Hj & Htf & Hx) HI [= <- <-] _.
    split_and!; [apply ms_Gr_same|done|]. destruct (hd =? head_ s); simpl; [|apply wp_jump; by exists m].
    destruct (Nat.eqb_spec hd t) as [<-|Hne]; simpl.
    + apply wp_choose. intros b. simpl.
      apply (ms_wp_help i k hd nx b _ _ (fun h => in_op i OpDeq (replicate m MEmpty) h)); [ms_stab|done..|].
      intros ok s1 h1 Ho1. apply wp_jump. by exists m.
    + apply (wp_take i m k hd nx); try done. destruct Htf as (p & Hp & Hjp).
      exists p. split; [done|]. destruct (decide (j = k)) as [->|]; [congruence|lia].
Qed.

Lemma dummy_addr s h i a v : Inv s h -> my_dummy i a v h -> 0 < a <= length (nodes s).
Proof.
  intros HI [Ha _]. apply (chain_addr s h); [done|]. apply (unlink_chain s h a v HI).
  apply elem_events. eauto.
Qed.

Lemma wp_retire_start i v a s h :
  LI i (RetireStart v a) s h -> Inv s h -> wp i (retire_start v a) (Q i) (s, h).
Proof.
  intros [Hr Hmy] HI. unfold retire_start. pose proof (dummy_addr s h i a v HI Hmy).
  destruct (Nat.eqb_spec a 0); [lia|]. simpl.
  apply (wp_silent _ _ _ i (LI i (RetireStart v a))); [apply stable_LI|done|].
  intros s1 h1 s2 old HL HI1 [= <- <-] _. split_and!; [apply ms_Gr_same|done|]. by apply wp_jump.
Qed.

Lemma wp_retire_loop i v a old s h :
  LI i (RetireLoop v a old) s h -> wp i (retire_loop v a old) (Q i) (s, h).
Proof.
  intros HL. unfold retire_loop. simpl.
  apply (wp_silent _ _ _ i (LI i (RetireLoop v a old))); [apply stable_LI|done|]. clear s h HL.
  intros s h s2 [] [Hr Hmy] HI Hs _. destruct (Inv_store_retired s h i a v old HI Hmy) as [HI' Hn].
  rewrite Hs in HI', Hn. simpl in HI', Hn. split_and!; [|done|].
  { injection Hs as <-. split; [done|]. intros b Hb. destruct (decide (b = a)) as [->|Hba].
    - right. exists v. apply Hmy.
    - left. simpl. pose proof (dummy_addr s h i a v HI Hmy).
      by rewrite node_at_set, decide_False by (done || lia). }
  apply wp_choose. intros b. simpl. clear Hs.
  apply (wp_act _ _ _ i (fun s h => retiring i a v h /\ (my_dummy i a v h /\ retired_next (node_at a s) = old))).
  { apply stable_and; [ms_stab|]. apply stable_retired_next. }
  { done. }
  clear s s2 h Hr Hmy HI HI' Hn. intros s h s2 r ([m Ho] & Hmy & Hn) HI.
  destruct (cas_retired_cases b old a s) as [->|[Htop ->]]; intros [= <- <-] _; simpl.
  - rewrite app_nil_r. split_and!; [apply ms_Gr_same|done|]. apply wp_jump. split; [by exists m|done].
  - split_and!; [|by apply (Inv_retire s h i m a v HI Hmy Ho); congruence|].
    + apply Gr_tail; [|done]. intros k. by apply tail_from_more.
    + apply (wp_ret _ _ _ i); [apply stable_post|]. exists OpDeq, (replicate m MEmpty ++ [MUnlink a v; MRetire a]).
      split; [|exists m; right; by exists a, v]. by rewrite opview_snoc, decide_True, Ho, <- app_assoc.
Qed.

Lemma ms_Inv_ret s h i r : Inv s h -> Post ms_good i r s h -> Inv s (h ++ [HRet i r]).
Proof.
  intros HI (o & es & Ho & Hg).
  assert (forall j e, HLin j e ∈ h ++ [HRet i r] <-> HLin j e ∈ h) as Hel.
  { intros j e. rewrite elem_of_app, list_elem_of_singleton. naive_solver. }
  destruct HI. split; rewrite ?events_app; simpl; rewrite ?app_nil_r; try done; setoid_rewrite Hel; try done.
  - intros j a v Hin. destruct (mi_linking0 _ _ _ Hin) as [?|Hl]; [by left|right].
    unfold linking in *. rewrite opview_ret. case_decide; [|done]. subst. rewrite Ho in Hl.
    injection Hl as -> ->. by destruct Hg as (_ & b & [=]).
  - intros j a v Hin. destruct (mi_retiring0 _ _ _ Hin) as [?|[k Hl]]; [by left|right].
    exists k. rewrite opview_ret. case_decide; [|done]. subst. rewrite Ho in Hl.
    injection Hl as -> ->. destruct Hg as (m & [[_ He]|(b & w & _ & He)]).
    + symmetry in He. by apply empties_no_unlink in He.
    + change [MUnlink b w; MRetire b] with ([MUnlink b w] ++ [MRetire b]) in He.
      rewrite app_assoc in He. by apply app_inj_tail in He as [_ [=]].
Qed.

Lemma ms_outline : proof_outline entry body Inv Gr ms_env LI ms_good.
Proof.
  split.
  - intros i o s h HI Hn _. split_and!; [apply ms_Gr_more|by apply ms_Inv_call|].
    destruct o as [v|]; simpl; [|exists 0]; unfold in_op; by rewrite opview_call, decide_True.
  - intros i r s h HI HP. split; [apply ms_Gr_more|by apply ms_Inv_ret].
  - intros i l s h HL HI. destruct l; simpl.
    + by apply wp_alloc.
    + by apply ms_wp_enqueue.
    + by apply ms_wp_dequeue.
    + by apply wp_retire_start.
    + by apply wp_retire_loop.
Qed.

Lemma ms_Inv_new : Inv MSQueue_new [].
Proof.
  split; simpl; rewrite ?chain_nil; try done; try (intros; by match goal with H : _ ∈ [] |- _ => apply elem_of_nil in H end).
  - lia.
  - apply NoDup_singleton.
  - intros k a Hk. apply list_lookup_singleton_Some in Hk as [-> <-]. done.
  - by exists 0.
  - constructor.
Qed.

Lemma ms_reach_inv threads cfg :
  reach entry body ms_env MSQueue_new threads cfg -> pool_ok Inv Gr ms_env LI ms_good cfg.
Proof.
  intros Hr. apply (rg_adequacy _ _ _ _ _ _ _ ms_outline MSQueue_new threads cfg); [|apply ms_Inv_new|done].
  intros i [s h]. apply ms_Gr_same.
Qed.

(** ** The destructor *)

Lemma delete_chain_spec s h fuel k :
  Inv s h -> length (chain (events h)) - k < fuel ->
  delete_chain fuel (default 0 (chain (events h) !! k)) s = Some (drop k (chain (events h))).
Proof.
  intros HI. revert k. induction fuel as [|fuel IH]; intros k Hf; [lia|]. simpl.
  destruct (chain (events h) !! k) as [a|] eqn:Hk; simpl.
  - pose proof (chain_addr s h a HI (list_elem_of_lookup_2 _ _ _ Hk)) as Ha.
    destruct (Nat.eqb_spec a 0); [lia|]. apply lookup_lt_Some in Hk as Hlt.
    rewrite (mi_next _ _ HI k a Hk), IH by lia. by rewrite (drop_S _ _ _ Hk).
  - apply lookup_ge_None in Hk. by rewrite drop_ge.
Qed.

Lemma delete_retired_spec s h fuel p :
  Inv s h -> p <= length (retires (events h)) -> p < fuel ->
  delete_retired_from fuel ((0 :: retires (events h)) !!! p) s =
  Some (reverse (take p (retires (events h)))).
Proof.
  intros HI. revert p. induction fuel as [|fuel IH]; intros p Hp Hf; [lia|].
  destruct p as [|p]; [done|]. destruct (lookup_lt_is_Some_2 (retires (events h)) p) as [a Ha]; [lia|].
  replace ((0 :: retires (events h)) !!! S p) with a
    by (symmetry; by apply (list_lookup_total_correct (retires (events h)) p a)).
  pose proof (retire_addr s h a HI (list_elem_of_lookup_2 _ _ _ Ha)). cbn [delete_retired_from].
  destruct (Nat.eqb_spec a 0); [lia|]. rewrite (mi_stack _ _ HI p a Ha), IH by lia.
  by rewrite (take_S_r _ _ _ Ha), reverse_snoc.
Qed.

Lemma chain_length_le s h : Inv s h -> length (chain (events h)) <= length (nodes s).
Proof.
  intros HI. rewrite <- (length_seq (length (nodes s)) 1).
  apply submseteq_length, NoDup_submseteq; [apply (mi_chain _ _ HI)|].
  intros a Ha. apply elem_of_seq. apply (chain_addr s h) in Ha; [lia|done].
Qed.

Lemma retires_length_le s h : Inv s h -> length (retires (events h)) <= length (nodes s).
Proof.
  intros HI. rewrite <- (length_seq (length (nodes s)) 1).
  apply submseteq_length, NoDup_submseteq; [apply (mi_retires _ _ HI)|].
  intros a Ha. apply elem_of_seq. apply (retire_addr s h) in Ha; [lia|done].
Qed.

(** With no operation in progress every node is in the chain, and the retired
    nodes are the removed ones. *)
Lemma quiescent_nodes s h :
  Inv s h -> (forall i, opview i h = None) ->
  retires (events h) ++ drop (length (unlinks (events h))) (chain (events h)) ≡ₚ seq 1 (length (nodes s)).
Proof.
  intros HI Hq. assert (retires (events h) ≡ₚ unlinks (events h)) as ->.
  { assert (NoDup (unlinks (events h))) as Hnd.
    { rewrite (mi_unlinks _ _ HI). apply (sublist_NoDup _ (chain (events h)));
        [apply (mi_chain _ _ HI)|apply sublist_take]. }
    apply NoDup_Permutation; [apply (mi_retires _ _ HI)|done|]. intros a. split.
    - intros [i Hi]%elem_retires%elem_events. destruct (mi_retire _ _ HI i a Hi) as [v Hv].
      apply elem_unlinks. exists v. apply elem_events. eauto.
    - intros [v [i Hi]%elem_events]%elem_unlinks.
      destruct (mi_retiring _ _ HI i a v Hi) as [?|[k Hk]]; [done|]. by rewrite Hq in Hk. }
  rewrite (mi_unlinks _ _ HI) at 1. rewrite take_drop.
  apply NoDup_Permutation; [apply (mi_chain _ _ HI)|apply NoDup_seq|]. intros a. rewrite elem_of_seq. split.
  - intros Ha%(chain_addr s h); [lia|done].
  - intros Ha. destruct (decide (a = 1)) as [->|]; [apply elem_chain; by left|].
    assert (a ∈ allocs (events h)) as Hal by (rewrite (mi_allocs _ _ HI); apply elem_of_seq; lia).
    apply elem_allocs in Hal as [v [i Hi]%elem_events].
    destruct (mi_linking _ _ HI i a v Hi) as [?|Hl]; [done|]. unfold linking in Hl. by rewrite Hq in Hl.
Qed.

(** ** Theorems *)

(** C5. Linearizability of [MSQueue<T>], for every number of threads, every
    interleaving of their accesses and every pattern of spurious failures of
    the weak exchanges: the effects on the queue - a node linked, a dummy
    removed with the value of its successor, the list seen empty - form, in the
    order in which they happened, a run of a FIFO queue, and each of them
    happened inside the call it belongs to.  A completed [enqueue] linked its
    value once and returned [true]; a completed [dequeue] that returned a value
    removed exactly that value, once, and one that returned [false] had seen the
    empty queue and removed nothing. *)
Theorem ms_linearizable threads cfg :
  reach entry body ms_env MSQueue_new threads cfg ->
  (exists q, fifo_run [] (qevs (events (hist cfg))) = Some q) /\
  Forall (fun '(o, es, r) => ms_good o es r) (completed (hist cfg)).
Proof.
  intros Hr. destruct (ms_reach_inv threads cfg Hr) as (HI & _ & Hg).
  split; [|done]. eexists. apply (mi_fifo _ _ HI).
Qed.

(** C32. The destructor of [MSQueue<T>]: in every reachable configuration in
    which no operation is in progress, [delete_retired] and [delete_chain]
    delete every node that was ever allocated exactly once (no leak and no
    double deletion, whether nodes are still queued, retired or the dummy).
    One more iteration than there are nodes is enough for each of the two
    loops. *)
Theorem ms_destroy_no_leak threads cfg :
  reach entry body ms_env MSQueue_new threads cfg ->
  (forall i, i < threads -> pool cfg !! i = Some Idle) ->
  exists l, MSQueue_destroy (S (length (nodes (shared cfg)))) (shared cfg) = Some l /\
    l ≡ₚ seq 1 (length (nodes (shared cfg))).
Proof.
  intros Hr Hidle. destruct (ms_reach_inv threads cfg Hr) as (HI & Htp & _).
  set (s := shared cfg) in *. set (h := hist cfg) in *.
  assert (forall i, opview i h = None) as Hq.
  { intros i. destruct (decide (i < threads)) as [Hi|Hi]; [apply (Htp i Idle (Hidle i Hi))|].
    apply (opview_range entry body ms_env MSQueue_new threads); [done|lia]. }
  pose proof (quiescent_nodes s h HI Hq) as Hp.
  pose proof (chain_length_le s h HI). pose proof (retires_length_le s h HI).
  unfold MSQueue_destroy, delete_retired. rewrite (mi_top _ _ HI), (delete_retired_spec s h) by (done || lia).
  replace (head_ s) with (default 0 (chain (events h) !! length (unlinks (events h))))
    by by rewrite (mi_head _ _ HI).
  rewrite (delete_chain_spec s h) by (done || lia).
  eexists. split; [done|]. by rewrite <- Hp, firstn_all, reverse_Permutation.
Qed.

(** Two threads: the first one links [7] and is preempted before it moves
    [tail_]; the second one helps and links [8]; then the first one dequeues. *)
Definition ms_demo_schedule : list (nat * move (qop Z)) :=
  [(0, Call (OpEnq 7%Z))] ++ go 0 7 ++ [(1, Call (OpEnq 8%Z))] ++ go 1 16 ++ go 0 3 ++
  [(0, Call OpDeq)] ++ go 0 14.

Definition ms_demo : config :=
  default (start MSQueue_new 2) (scheds entry body ms_demo_schedule (start MSQueue_new 2)).

Lemma ms_demo_reach : reach entry body ms_env MSQueue_new 2 ms_demo.
Proof.
  apply (scheds_reach entry body _ (fun _ _ => true) MSQueue_new 2 ms_demo_schedule (start MSQueue_new 2));
    [done|constructor|vm_compute; reflexivity|vm_compute; reflexivity].
Qed.

Lemma ms_linearizable_witness :
  completed (hist ms_demo) =
    [(OpEnq 8%Z, [MAlloc 3 8; MLink 3 8], MTrue); (OpEnq 7%Z, [MAlloc 2 7; MLink 2 7], MTrue);
     (OpDeq, [MUnlink 1 7; MRetire 1], MDeq (Some 7%Z))] /\
  exists q, fifo_run [] (qevs (events (hist ms_demo))) = Some q.
Proof. split; [vm_compute; reflexivity|]. apply (ms_linearizable 2 ms_demo ms_demo_reach). Defined.

Lemma ms_destroy_no_leak_witness :
  MSQueue_destroy 4 (shared ms_demo) = Some [1; 2; 3] /\
  exists l, MSQueue_destroy 4 (shared ms_demo) = Some l /\ l ≡ₚ seq 1 3.
Proof.
  split; [vm_compute; reflexivity|]. apply (ms_destroy_no_leak 2 ms_demo ms_demo_reach).
  intros [|[|i]] Hi; [vm_compute; reflexivity|vm_compute; reflexivity|lia].
Defined.

(** ** [MutexQueue] *)

Definition mutex_inv (q : list Z) (h : list (hev (qev Z) (qop Z) mres)) : Prop :=
  fifo_run [] (events h) = Some q.

Definition mutex_good (o : qop Z) (es : list (qev Z)) (r : mres) : Prop :=
  match o with
  | OpEnq v => es = [EvEnq v] /\ r = MTrue
  | OpDeq => (exists v, es = [EvDeq v] /\ r = MDeq (Some v)) \/ (es = [EvEmpty] /\ r = MDeq None)
  end.

Definition mutex_LI (i : nat) (l : mutex_label) (q : list Z) (h : list (hev (qev Z) (qop Z) mres)) : Prop :=
  opview i h = Some (match l with MuEnq v => OpEnq v | MuDeq => OpDeq end, []).

Lemma mutex_step q h i e q' :
  mutex_inv q h -> fifo_step q e = Some q' -> mutex_inv q' (h ++ (HLin i <$> [e])).
Proof.
  intros HI He. unfold mutex_inv. rewrite events_app, events_lin.
  by rewrite (fifo_run_snoc _ _ _ _ HI).
Qed.

Lemma mutex_outline :
  proof_outline mutex_entry mutex_body mutex_inv (fun _ _ _ => True) (fun _ _ => True) mutex_LI mutex_good.
Proof.
  assert (forall (h : list (hev (qev Z) (qop Z) mres)) x, (forall i e, x <> HLin i e) ->
    events (h ++ [x]) = events h) as Hev.
  { intros h x Hx. rewrite events_app. destruct x; simpl; rewrite ?app_nil_r; try done. by destruct (Hx i e). }
  split.
  - intros i o q h HI _ _. split_and!; [done|by unfold mutex_inv; rewrite Hev|].
    unfold mutex_LI. rewrite opview_call, decide_True by done. by destruct o.
  - intros i r q h HI _. split; [done|]. by unfold mutex_inv; rewrite Hev.
  - intros i l q h HL HI. destruct l as [v|]; simpl.
    + apply (wp_act _ _ _ i (mutex_LI i (MuEnq v))); [apply stable_op|done|].
      clear q h HL HI. intros q h q2 b Hv HI [= <- <-] _. split_and!; [done|by apply (mutex_step q)|].
      apply (wp_ret _ _ _ i); [apply stable_post|]. eexists _, _.
      split; [by rewrite opview_lin, decide_True, Hv|]. done.
    + apply (wp_act _ _ _ i (mutex_LI i MuDeq)); [apply stable_op|done|].
      clear q h HL HI. intros [|v q] h q2 b Hv HI [= <- <-] _;
        (split_and!; [done|eapply mutex_step; [done|simpl; by rewrite ?decide_True]|]);
        apply (wp_ret _ _ _ i); try apply stable_post; eexists _, _;
        (split; [by rewrite opview_lin, decide_True, Hv|]); [by right|left; by exists v].
Qed.

Lemma mutex_reach threads cfg :
  reach mutex_entry mutex_body (fun _ _ => True) [] threads cfg ->
  fifo_run [] (events (hist cfg)) = Some (shared cfg) /\
  Forall (fun '(o, es, r) => mutex_good o es r) (completed (hist cfg)).
Proof.
  intros Hr. by destruct (rg_adequacy _ _ _ _ _ _ _ mutex_outline [] threads cfg (fun _ _ => I)
    eq_refl Hr) as (HI & _ & Hg).
Qed.

(** Linearizability of [MutexQueue<T>]: with every critical section one
    step, the effects of the calls are, in order, a run of a FIFO queue whose
    content is exactly the content of the [std::queue], and each completed call
    had exactly the effect that its result reports. *)
Theorem mutex_queue_linearizable threads cfg :
  reach mutex_entry mutex_body (fun _ _ => True) [] threads cfg ->
  fifo_run [] (events (hist cfg)) = Some (shared cfg) /\
  Forall (fun '(o, es, r) => mutex_good o es r) (completed (hist cfg)).
Proof. apply mutex_reach. Qed.

Definition mutex_demo : config :=
  default (start [] 2) (scheds mutex_entry mutex_body
    [(0, Call (OpEnq 5%Z)); (1, Call OpDeq); (1, Go false); (0, Go false); (0, Go false); (1, Go false);
     (1, Call OpDeq); (1, Go false); (1, Go false)] (start [] 2)).

Lemma mutex_queue_linearizable_witness :
  completed (hist mutex_demo) =
    [(OpEnq 5%Z, [EvEnq 5%Z], MTrue); (OpDeq, [EvEmpty], MDeq None); (OpDeq, [EvDeq 5%Z], MDeq (Some 5%Z))] /\
  fifo_run [] (events (hist mutex_demo)) = Some (shared mutex_demo).
Proof.
  split; [vm_compute; reflexivity|]. apply (mutex_queue_linearizable 2 mutex_demo).
  apply (scheds_reach mutex_entry mutex_body _ (fun _ _ => true) [] 2
    [(0, Call (OpEnq 5%Z)); (1, Call OpDeq); (1, Go false); (0, Go false); (0, Go false); (1, Go false);
     (1, Call OpDeq); (1, Go false); (1, Go false)] (start [] 2));
    [done|constructor|vm_compute; reflexivity|vm_compute; reflexivity].
Defined.
