(* ===== verification/MsProgress.v ===== *)
(** * MsProgress: the Michael-Scott queue is lock-free

    A loop of [MSQueue<T>] starts again only because another operation linked a
    node, removed a dummy, retired a node or moved [tail_] meanwhile, because the
    thread itself moved [tail_] over a link, or because a weak exchange failed
    spuriously. *)

From stdpp Require Import base list numbers option relations.
From Stdlib Require Import ZArith Lia.
From S2P Require Import Prelude Conc Fifo MsQueue MsLin Progress.

(** ** The changes of the queue *)

(** The position of [tail_] in the chain. *)
Definition tail_pos (s : state) (h : ms_hist) : nat :=
  match list_find (fun a => a = tail_ s) (chain (events h)) with Some (k, _) => k | None => 0 end.

Definition ms_ver (s : state) (h : ms_hist) : nat :=
  length (links (events h)) + length (unlinks (events h)) + length (retires (events h)) + tail_pos s h.

Lemma tail_pos_eq s h t : Inv s h -> chain (events h) !! t = Some (tail_ s) -> tail_pos s h = t.
Proof.
  intros HI Ht. unfold tail_pos.
  destruct (list_find (fun a => a = tail_ s) (chain (events h))) as [[k a]|] eqn:Hf.
  - apply list_find_Some in Hf as (Hk & -> & _). by apply (chain_lookup_inj s h k t (tail_ s)).
  - apply list_find_None in Hf. apply list_elem_of_lookup_2 in Ht.
    by destruct (proj1 (list.Forall_forall _ _) Hf _ Ht).
Qed.

Lemma tail_pos_from s h k : Inv s h -> tail_from k s h <-> k <= tail_pos s h.
Proof.
  intros HI. destruct (mi_tail _ _ HI) as (t & Ht & _). rewrite (tail_pos_eq s h t HI Ht). split.
  - intros (t' & Ht' & Hle). by rewrite (chain_lookup_inj s h t t' _ HI Ht Ht').
  - intros Hle. by exists t.
Qed.

Lemma tail_pos_lookup s h : Inv s h -> chain (events h) !! tail_pos s h = Some (tail_ s).
Proof. intros HI. destruct (mi_tail _ _ HI) as (t & Ht & _). by rewrite (tail_pos_eq s h t HI Ht). Qed.

Lemma ms_ver_mono i (c c' : state * ms_hist) :
  Inv c.1 c.2 -> Inv c'.1 c'.2 -> hist_step i c.2 c'.2 -> Gr i c c' -> ms_ver c.1 c.2 <= ms_ver c'.1 c'.2.
Proof.
  intros HI HI' Hh [Ht _]. destruct (hist_step_events i _ _ Hh) as [k Hk].
  pose proof (proj1 (tail_pos_from _ _ _ HI') (Ht _ (proj2 (tail_pos_from _ _ _ HI) (le_n _)))) as Hp.
  unfold ms_ver in *. rewrite Hk, links_app, unlinks_app, retires_app, !length_app. lia.
Qed.

(** While there is no change the queue stays the same, but for nodes that are
    not linked yet and the [retired_next] fields of nodes not retired yet. *)
Definition frozen (s : state) (h : ms_hist) (s' : state) (h' : ms_hist) : Prop :=
  links (events h') = links (events h) /\ length (unlinks (events h')) = length (unlinks (events h)) /\
  head_ s' = head_ s /\ tail_ s' = tail_ s /\ retired_ s' = retired_ s.

Lemma ver_frozen i (c c' : state * ms_hist) :
  Inv c.1 c.2 -> Inv c'.1 c'.2 -> hist_step i c.2 c'.2 -> Gr i c c' ->
  ms_ver c'.1 c'.2 = ms_ver c.1 c.2 -> frozen c.1 c.2 c'.1 c'.2.
Proof.
  intros HI HI' Hh [Ht _] Hv. destruct (hist_step_events i _ _ Hh) as [k Hk].
  pose proof (proj1 (tail_pos_from _ _ _ HI') (Ht _ (proj2 (tail_pos_from _ _ _ HI) (le_n _)))) as Hp.
  unfold ms_ver in Hv. rewrite Hk, links_app, unlinks_app, retires_app, !length_app in Hv.
  assert (links k = []) as Hl by (apply nil_length_inv; lia).
  assert (unlinks k = []) as Hu by (apply nil_length_inv; lia).
  assert (retires k = []) as Hr by (apply nil_length_inv; lia).
  assert (chain (events c'.2) = chain (events c.2)) as Hc by by rewrite Hk, chain_app, Hl, app_nil_r.
  assert (unlinks (events c'.2) = unlinks (events c.2)) as Hun by by rewrite Hk, unlinks_app, Hu, app_nil_r.
  assert (retires (events c'.2) = retires (events c.2)) as Hre by by rewrite Hk, retires_app, Hr, app_nil_r.
  split_and!.
  - by rewrite Hk, links_app, Hl, app_nil_r.
  - by rewrite Hun.
  - pose proof (mi_head _ _ HI') as H1. rewrite Hc, Hun, (mi_head _ _ HI) in H1. congruence.
  - pose proof (tail_pos_lookup _ _ HI') as H1.
    replace (tail_pos c'.1 c'.2) with (tail_pos c.1 c.2) in H1 by lia.
    rewrite Hc, (tail_pos_lookup _ _ HI) in H1. congruence.
  - rewrite (mi_top _ _ HI'), Hre. by rewrite <- (mi_top _ _ HI).
Qed.

Lemma frozen_trans s h s1 h1 s2 h2 : frozen s h s1 h1 -> frozen s1 h1 s2 h2 -> frozen s h s2 h2.
Proof. intros (?&?&?&?&?) (?&?&?&?&?). split_and!; congruence. Qed.

Lemma frozen_refl s h : frozen s h s h.
Proof. done. Qed.

Lemma frozen_chain s h s' h' : frozen s h s' h' -> chain (events h') = chain (events h).
Proof. intros (Hl & _). unfold chain. by rewrite Hl. Qed.

Abbreviation ms_calm := (calm Inv Gr ms_ver).

Lemma calm_frozen s0 h0 i c c' :
  ms_calm i c c' -> frozen s0 h0 c.1 c.2 -> frozen s0 h0 c'.1 c'.2.
Proof.
  intros [(j & _ & Hh & HG & HI & HI') Hv] Hf. eapply frozen_trans; [done|]. by apply (ver_frozen j).
Qed.

Lemma frozen_next s h s' h' k a :
  Inv s h -> Inv s' h' -> frozen s h s' h' -> chain (events h) !! k = Some a ->
  next (node_at a s') = next (node_at a s).
Proof.
  intros HI HI' Hf Hk. rewrite (mi_next _ _ HI k a Hk).
  rewrite <- (frozen_chain s h s' h' Hf) in *. by apply (mi_next _ _ HI').
Qed.

(** ** The blocks *)

(** An iteration of [enqueue] or [dequeue] makes a change or returns.  Retiring
    a node takes a second iteration when [old] is out of date. *)
Definition ms_rank (l : label) (s : state) : nat :=
  match l with
  | EnqAlloc _ | RetireStart _ _ => 1
  | EnqLoop _ _ | DeqLoop => 0
  | RetireLoop _ _ old => if old =? retired_ s then 0 else 1
  end.

Abbreviation ms_pw := (pw Inv Gr ms_env ms_ver ms_rank).

Lemma pw_frozen i r s0 h0 (X : Set) f ev (k : X -> prog_t) s h :
  frozen s0 h0 s h ->
  (forall s1 h1 s2 x, frozen s0 h0 s1 h1 -> Inv s1 h1 -> f s1 = (s2, x) ->
     Inv s2 (h1 ++ (HLin i <$> ev x)) -> ms_ver s2 (h1 ++ (HLin i <$> ev x)) = ms_ver s1 h1 ->
     ms_pw i r (k x) (s2, h1 ++ (HLin i <$> ev x))) ->
  ms_pw i r (Act X f ev k) (s, h).
Proof. intros Hf. apply (pw_act _ _ _ _ _ i r (frozen s0 h0)); [intros c c'; apply calm_frozen|done]. Qed.

(** A load: the state is still the frozen one. *)
Lemma pw_load i r s0 h0 (X : Set) (f : state -> X) ev (k : X -> prog_t) s h :
  frozen s0 h0 s h ->
  (forall x, links (ev x) = [] /\ unlinks (ev x) = []) ->
  (forall s1 h1 h2, frozen s0 h0 s1 h1 -> Inv s1 h1 -> frozen s0 h0 s1 h2 -> ms_pw i r (k (f s1)) (s1, h2)) ->
  ms_pw i r (Act X (fun s => (s, f s)) ev k) (s, h).
Proof.
  intros Hf Hev Hk. apply (pw_frozen i r s0 h0); [done|]. intros s1 h1 s2 x Hf1 HI [= <- <-] _ _.
  apply (Hk s1 h1); [done|done|]. eapply frozen_trans; [done|]. destruct (Hev (f s1)) as [Hl Hu].
  unfold frozen. rewrite events_app, events_lin, links_app, unlinks_app, Hl, Hu, !app_nil_r. done.
Qed.

(** The successful exchanges are changes. *)
Lemma change_link s h i s2 a v :
  Inv s h -> Inv s2 (h ++ (HLin i <$> [MLink a v])) -> tail_ s2 = tail_ s ->
  ms_ver s2 (h ++ (HLin i <$> [MLink a v])) <> ms_ver s h.
Proof.
  intros HI HI2 Ht. assert (tail_pos s2 (h ++ (HLin i <$> [MLink a v])) = tail_pos s h) as Hp.
  { apply tail_pos_eq; [done|]. rewrite Ht, events_app, chain_app.
    apply lookup_app_l_Some. by apply tail_pos_lookup. }
  unfold ms_ver. rewrite Hp, events_app, events_lin, links_app, unlinks_app, retires_app, !length_app.
  simpl. lia.
Qed.

Lemma change_take s h i s2 e :
  Inv s h -> Inv s2 (h ++ (HLin i <$> [e])) -> tail_ s2 = tail_ s ->
  length (unlinks [e]) + length (retires [e]) = 1 -> links [e] = [] ->
  ms_ver s2 (h ++ (HLin i <$> [e])) <> ms_ver s h.
Proof.
  intros HI HI2 Ht He Hl. assert (tail_pos s2 (h ++ (HLin i <$> [e])) = tail_pos s h) as Hp.
  { apply tail_pos_eq; [done|]. rewrite Ht, events_app, chain_app.
    apply lookup_app_l_Some. by apply tail_pos_lookup. }
  unfold ms_ver. rewrite Hp, events_app, events_lin, links_app, unlinks_app, retires_app, !length_app, Hl.
  change (length (@nil (nat * Z))) with 0. lia.
Qed.

Lemma change_tail s h k x :
  Inv s h -> chain (events h) !! k = Some (tail_ s) -> chain (events h) !! S k = Some x ->
  ms_ver (mkState (nodes s) (head_ s) x (retired_ s)) h <> ms_ver s h.
Proof.
  intros HI Hk Hx. unfold ms_ver. pose proof (Inv_tail s h k x HI Hk Hx) as HI'.
  rewrite (tail_pos_eq s h k HI Hk), (tail_pos_eq _ h (S k) HI' Hx). lia.
Qed.

(** Moving [tail_] over a link changes the counter. *)
Lemma pw_help i r s0 h0 k nx (kk : bool -> prog_t) s h :
  frozen s0 h0 s h -> Inv s0 h0 ->
  chain (events h0) !! k = Some (tail_ s0) -> chain (events h0) !! S k = Some nx ->
  ms_pw i r (Act bool (cas_tail false (tail_ s0) nx) (fun _ => []) kk) (s, h).
Proof.
  intros Hf HI0 Hk Hx. apply (pw_frozen i r s0 h0); [done|]. clear s h Hf.
  intros s h s2 ok Hf HI. pose proof (frozen_chain _ _ _ _ Hf) as Hc.
  destruct Hf as (_ & _ & _ & Ht & _). unfold cas_tail, cas_weak. simpl. rewrite Ht, Nat.eqb_refl.
  intros [= <- <-] _. simpl. rewrite app_nil_r. intros Hv. rewrite <- Hc, <- Ht in *.
  by destruct (change_tail s h k nx HI Hk Hx).
Qed.

Lemma pw_enqueue i v a s0 h0 : Inv s0 h0 -> ms_pw i 0 (enqueue_loop v a) (s0, h0).
Proof.
  intros HI0. unfold enqueue_loop. simpl. pose proof (tail_pos_lookup s0 h0 HI0) as Hk.
  set (k := tail_pos s0 h0) in *.
  apply (pw_load i 0 s0 h0 nat tail_); [done|done|]. intros s1 h1 h1' Hf1 _ Hf1'.
  replace (tail_ s1) with (tail_ s0) by (symmetry; apply Hf1). clear Hf1.
  apply (pw_load i 0 s0 h0 nat (fun s => next (node_at (tail_ s0) s))); [done|done|].
  intros s2 h2 h2' Hf2 HI2 Hf2'. rewrite (frozen_next s0 h0 s2 h2 k _ HI0 HI2 Hf2 Hk). clear Hf1' Hf2 HI2.
  apply (pw_load i 0 s0 h0 nat tail_); [done|done|]. intros s3 h3 h3' Hf3 _ Hf3'.
  replace (tail_ s3) with (tail_ s0) by (symmetry; apply Hf3). rewrite Nat.eqb_refl. simpl. clear Hf2' Hf3.
  destruct (Nat.eqb_spec (next (node_at (tail_ s0) s0)) 0) as [Hz|Hz].
  - rewrite Hz. simpl. apply pw_choose. apply (pw_frozen i 0 s0 h0); [done|]. intros s4 h4 s5 ok Hf4 HI4.
    unfold cas_next, cas_weak. simpl. rewrite (frozen_next s0 h0 s4 h4 k _ HI0 HI4 Hf4 Hk), Hz. simpl.
    intros [= <- <-] HI5 Hv. by destruct (change_link s4 h4 i _ a v HI4 HI5).
  - simpl. apply pw_choose. apply (pw_help i 0 s0 h0 k); [done|done|done|]. by apply chain_next_succ.
Qed.

Lemma pw_dequeue i s0 h0 : Inv s0 h0 -> ms_pw i 0 dequeue_loop (s0, h0).
Proof.
  intros HI0. unfold dequeue_loop. simpl. pose proof (mi_head _ _ HI0) as Hk.
  set (k := length (unlinks (events h0))) in *.
  apply (pw_load i 0 s0 h0 nat head_); [done|done|]. intros s1 h1 h1' Hf1 _ Hf1'.
  replace (head_ s1) with (head_ s0) by (symmetry; apply Hf1). clear Hf1.
  apply (pw_load i 0 s0 h0 nat tail_); [done|done|]. intros s2 h2 h2' Hf2 _ Hf2'.
  replace (tail_ s2) with (tail_ s0) by (symmetry; apply Hf2). clear Hf1' Hf2.
  apply (pw_load i 0 s0 h0 nat (fun s => next (node_at (head_ s0) s))); [done|intros x; by destruct (x =? 0)|].
  intros s3 h3 h3' Hf3 HI3 Hf3'. rewrite (frozen_next s0 h0 s3 h3 k _ HI0 HI3 Hf3 Hk). clear Hf2' Hf3 HI3.
  apply (pw_load i 0 s0 h0 nat head_); [done|done|]. intros s4 h4 h4' Hf4 _ Hf4'.
  replace (head_ s4) with (head_ s0) by (symmetry; apply Hf4). rewrite Nat.eqb_refl. simpl. clear Hf3' Hf4.
  destruct (Nat.eqb_spec (next (node_at (head_ s0) s0)) 0) as [Hz|Hz]; [apply pw_return|].
  pose proof (chain_next_succ s0 h0 k _ HI0 Hk Hz) as Hx. set (nx := next (node_at (head_ s0) s0)) in *.
  destruct (Nat.eqb_spec (head_ s0) (tail_ s0)) as [He|He]; simpl.
  - rewrite He in Hk. apply pw_choose. by apply (pw_help i 0 s0 h0 k).
  - apply (pw_load i 0 s0 h0 Z (fun s => data (node_at nx s))); [done|done|]. intros s5 h5 h5' _ _ Hf5'. simpl.
    apply pw_choose. apply (pw_frozen i 0 s0 h0); [done|]. intros s6 h6 s7 ok Hf6 HI6.
    unfold cas_head, cas_weak. simpl. replace (head_ s6) with (head_ s0) by (symmetry; apply Hf6).
    rewrite Nat.eqb_refl. intros [= <- <-] HI7 Hv. by destruct (change_take s6 h6 i _ _ HI6 HI7).
Qed.

Lemma pw_retire_start i v a s0 h0 : ms_pw i 1 (retire_start v a) (s0, h0).
Proof.
  unfold retire_start. destruct (a =? 0); [apply pw_return|]. simpl.
  apply (pw_load i 1 s0 h0 nat retired_); [done|done|]. intros s1 h1 h1' Hf1 _ Hf1'.
  replace (retired_ s1) with (retired_ s0) by (symmetry; apply Hf1).
  apply (pw_jump _ _ _ _ _ i 1 (frozen s0 h0)); [intros c c'; apply calm_frozen|done|].
  intros s h (_ & _ & _ & _ & Hr). simpl. rewrite Hr, Nat.eqb_refl. lia.
Qed.

Lemma pw_retire_loop i v a old s0 h0 :
  ms_pw i (ms_rank (RetireLoop v a old) s0) (retire_loop v a old) (s0, h0).
Proof.
  unfold retire_loop. simpl. set (r := if old =? retired_ s0 then 0 else 1).
  apply (pw_frozen i r s0 h0); [done|]. intros s1 h1 s2 [] Hf1 _ [= <-] _ _. simpl. rewrite app_nil_r.
  apply pw_choose. apply (pw_frozen i r s0 h0); [done|]. intros s h s2 x Hf HI.
  unfold cas_retired, cas_weak. simpl. replace (retired_ s) with (retired_ s0) by (symmetry; apply Hf).
  rewrite (Nat.eqb_sym (retired_ s0) old). unfold r.
  destruct (Nat.eqb_spec old (retired_ s0)) as [->|Hne]; intros [= <- <-] HI2 Hv; simpl.
  - by destruct (change_take s h i _ _ HI HI2).
  - rewrite app_nil_r. apply (pw_jump _ _ _ _ _ i 1 (frozen s0 h0)); [intros c c'; apply calm_frozen|by destruct Hf as (?&?&?&?&?)|].
    intros s' h' (_ & _ & _ & _ & Hr). simpl. rewrite Hr, Nat.eqb_refl. lia.
Qed.

Lemma pw_alloc i v s0 h0 : ms_pw i 1 (enqueue_alloc v) (s0, h0).
Proof.
  unfold enqueue_alloc. simpl. apply (pw_frozen i 1 s0 h0); [done|]. intros s1 h1 s2 a _ _ _ _ _.
  apply (pw_jump _ _ _ _ _ i 1 (fun _ _ => True)); [done|done|]. simpl. lia.
Qed.

(** Seven steps are the longest block. *)
Lemma ms_progress :
  progress_outline entry body Inv Gr ms_env LI ms_good ms_ver ms_rank 7 1.
Proof.
  split.
  - apply ms_outline.
  - intros i [s h]. apply ms_Gr_same.
  - apply ms_ver_mono.
  - intros [v|v a| |v a|v a old]; try (unfold body, retire_start); depth_solve.
  - intros [v|v a| |v a|v a old] s; simpl; try lia. case_match; lia.
  - intros i [v|v a| |v a|v a old] s h _ HI.
    + apply pw_alloc.
    + by apply pw_enqueue.
    + by apply pw_dequeue.
    + apply pw_retire_start.
    + apply pw_retire_loop.
Qed.

(** ** Lock-freedom *)

(** An operation links at most one node. *)
Lemma links_empties m : links (replicate m MEmpty) = [].
Proof. by induction m. Qed.

Lemma good_links o es r : ms_good o es r -> length (links es) <= 1.
Proof.
  destruct o as [v|].
  - intros (_ & a & ->). done.
  - intros (m & [[_ ->]|(a & v & _ & ->)]); [rewrite links_empties; simpl; lia|].
    rewrite links_app, links_empties. simpl. lia.
Qed.

(** The events of one access after events without a link. *)
Ltac link_step :=
  autorewrite with msq; repeat match goal with H : links _ = [] |- _ => rewrite H end; simpl; try done; try lia.

Lemma running_links threads cfg i o es :
  reach entry body ms_env MSQueue_new threads cfg ->
  opview i (hist cfg) = Some (o, es) -> length (links es) <= 1.
Proof.
  apply (reach_emits entry body (fun _ es => length (links es) <= 1) (fun _ _ es => links es = []));
    [simpl; lia|done|].
  clear. intros o l es Hl.
  destruct l as [v|v a| |v a|v a old]; unfold body, enqueue_alloc, enqueue_loop, dequeue_loop, retire_start, retire_loop; simpl;
    repeat first [exact I | progress simpl | intros ? | split; [by repeat case_match; link_step|]
                 | case_match | by link_step].
Qed.

Lemma ms_links_le threads cfg :
  reach entry body ms_env MSQueue_new threads cfg ->
  length (links (events (hist cfg))) <= length (completed (hist cfg)) + threads.
Proof.
  intros Hr. destruct (events_weigh entry body ms_env MSQueue_new threads cfg (fun es => length (links es)))
    as (_ & _ & ->); [intros fs es; by rewrite links_app, length_app|done|done|].
  etransitivity; [apply (weigh_le _ _ _ 1)|lia].
  - intros o es r Hin. destruct (ms_reach_inv threads cfg Hr) as (_ & _ & Hg).
    apply (good_links o es r). by apply (proj1 (list.Forall_forall _ _) Hg _ Hin).
  - intros i o es. by apply (running_links threads cfg i).
Qed.

(** Every other change follows a link. *)
Lemma ms_ver_le s h : Inv s h -> ms_ver s h <= 4 * length (links (events h)).
Proof.
  intros HI. pose proof (unlinks_lt s h HI) as Hu.
  assert (length (retires (events h)) <= length (unlinks (events h))) as Hr.
  { apply submseteq_length, NoDup_submseteq; [apply (mi_retires _ _ HI)|].
    intros a [i Hi]%elem_retires%elem_events. destruct (mi_retire _ _ HI i a Hi) as [v Hv].
    apply elem_unlinks. exists v. apply elem_events. eauto. }
  pose proof (lookup_lt_Some _ _ _ (tail_pos_lookup s h HI)) as Ht. rewrite length_chain in Ht.
  unfold ms_ver. lia.
Qed.

(** C6. [MSQueue<T>] is lock-free, with a bound: in an execution of any number
    of threads, whatever the interleaving, the threads take at most sixteen
    steps for each spurious failure of a weak exchange and [16 * (4n + 1)] steps
    for each operation that has completed or is running, where [n] is the number
    of threads.  Hence as long as threads take steps (and the failures are not
    for ever spurious) operations complete, although single operations may be
    overtaken. *)
Theorem ms_lock_free threads ms cfg :
  scheds entry body ms (start MSQueue_new threads) = Some cfg ->
  steps ms <= 16 * ((4 * threads + 1) * (length (completed (hist cfg)) + threads) + spurious ms).
Proof.
  intros Hs. pose proof (trace_scheds entry body ms_env ms _ _ (fun _ _ => I) Hs) as Ht.
  pose proof (trace_reach _ _ _ _ _ _ _ _ (reach_start entry body ms_env MSQueue_new threads) Ht) as Hr.
  pose proof (progress_bound _ _ _ _ _ _ _ _ _ _ _ ms_progress MSQueue_new threads ms cfg ms_Inv_new Ht) as Hb.
  destruct (ms_reach_inv threads cfg Hr) as (HI & _).
  pose proof (ms_ver_le _ _ HI) as Hv. pose proof (ms_links_le threads cfg Hr) as Hl.
  assert (ms_ver (shared cfg) (hist cfg) <= 4 * (length (completed (hist cfg)) + threads)) as Hvl by lia.
  apply (Nat.mul_le_mono_l _ _ threads) in Hvl. unfold cost in Hb. simpl in Hb. lia.
Qed.

(** Two threads; the second one moves [tail_] for the first one, then starts again. *)
Lemma ms_lock_free_witness :
  steps ms_demo_schedule = 40 /\ length (completed (hist ms_demo)) = 3 /\
  steps ms_demo_schedule <= 16 * ((4 * 2 + 1) * (length (completed (hist ms_demo)) + 2) + spurious ms_demo_schedule).
Proof.
  split_and!; [vm_compute; reflexivity|vm_compute; reflexivity|].
  apply (ms_lock_free 2 ms_demo_schedule ms_demo). vm_compute. reflexivity.
Defined.
