(* ===== verification/Ebr.v ===== *)
(** * Ebr: epoch-based reclamation

    Models [EBRManager] and [EpochGuard] ([include/lscq/ebr.hpp],
    [src/ebr.cpp]).  [tls_state_] and [tls_initialized_] are shared by all
    managers of a thread, so the state [sys] holds every manager, the heap of
    the [ThreadState] objects ([None] once deleted) and the thread-local
    variables of every thread.  An operation names the calling thread and the
    manager [this].

    A program node is one access: the [epoch] and [active] fields are plain
    fields that the epoch check reads while their owner writes them.  A critical
    section of [retired_mutex_] is one node; under [threads_mutex_] the list of
    states is read at once and the fields of the states one by one.

    [ENew], [EPin], [EEnter] and [EExit] annotate the creation of a state and the
    writes to its fields, [EAdvance] the advance of the epoch, [ERetire] the
    read of the epoch by [retire], [EPush], [EPop] and [EDelete] the insertion of a
    node, its removal and the call of its deleter. *)

From stdpp Require Import base list numbers option.
From Stdlib Require Import ZArith Lia.
From S2P Require Import Prelude Conc.

Local Open Scope Z_scope.

Record RetiredNode := mkNode {
  ptr : Z;
  deleter : bool;
  node_epoch : Z
}.

Record ThreadState := mkThreadState {
  epoch : Z;
  active : bool;
  owner : nat
}.

Record EBRManager := mkManager {
  global_epoch_ : Z;
  retired_ : list (list RetiredNode);
  thread_states_ : list nat
}.

Record Tls := mkTls {
  tls_state_ : option nat;
  tls_initialized_ : bool
}.

Record sys := mkSys {
  managers : list EBRManager;
  states : list (option ThreadState);
  tls : list Tls
}.

#[global] Instance EBRManager_inhabited : Inhabited EBRManager := populate (mkManager 0 [] []).
#[global] Instance Tls_inhabited : Inhabited Tls := populate (mkTls None false).

Definition kNumGenerations : nat := 3.

Definition EBRManager_new : EBRManager := mkManager 0 (replicate kNumGenerations []) [].

Definition sys_new (nmanagers nthreads : nat) : sys :=
  mkSys (replicate nmanagers EBRManager_new) [] (replicate nthreads (mkTls None false)).

Inductive eev : Type :=
| ENew (m a : nat)
| EPin (m a : nat)
| EEnter (m a : nat)
| EExit (m a : nat)
| EAdvance (m : nat)
| ERetire (m : nat) (p : Z) (e : Z)
| EPush (m : nat) (p : Z) (d : bool)
| EPop (m : nat) (p : Z) (d : bool)
| EDelete (m : nat) (p : Z).

#[global] Instance eev_eq_dec : EqDecision eev.
Proof. solve_decision. Defined.

Definition pop_ev (m : nat) (node : RetiredNode) : eev := EPop m (ptr node) (deleter node).

(** ** Accesses *)

Definition mgr (m : nat) (s : sys) : EBRManager := managers s !!! m.

Definition set_mgr (m : nat) (x : EBRManager) (s : sys) : sys :=
  mkSys (<[m := x]> (managers s)) (states s) (tls s).

Definition state_at (a : nat) (s : sys) : ThreadState :=
  default (mkThreadState 0 false 0) (default None (states s !! a)).

Definition set_state (a : nat) (x : option ThreadState) (s : sys) : sys :=
  mkSys (managers s) (<[a := x]> (states s)) (tls s).

Definition load_global_epoch (m : nat) (s : sys) : sys * Z := (s, global_epoch_ (mgr m s)).

Definition fetch_add_epoch (m : nat) (s : sys) : sys * Z :=
  let x := mgr m s in
  (set_mgr m (mkManager (add64 (global_epoch_ x) 1) (retired_ x) (thread_states_ x)) s, global_epoch_ x).

Definition load_tls (tid : nat) (s : sys) : sys * Tls := (s, tls s !!! tid).

(** [tls_state_->owner]; [None] when the object was deleted. *)
Definition load_owner (a : nat) (s : sys) : sys * option nat :=
  (s, owner <$> default None (states s !! a)).

Definition register_thread (m a : nat) (s : sys) : sys :=
  let x := mgr m s in
  set_mgr m (mkManager (global_epoch_ x) (retired_ x) (thread_states_ x ++ [a])) s.

(** [tls_state_ = new ThreadState(); tls_state_->owner = this;
    tls_initialized_ = true; register_thread(tls_state_)]: the thread-local
    variables and the new object are private to the thread until the object is
    registered, under the mutex. *)
Definition create_state (tid m : nat) (s : sys) : sys * nat :=
  let a := length (states s) in
  (register_thread m a
     (mkSys (managers s) (states s ++ [Some (mkThreadState 0 false m)])
        (<[tid := mkTls (Some a) true]> (tls s))), a).

Definition load_thread_states (m : nat) (s : sys) : sys * list nat := (s, thread_states_ (mgr m s)).

Definition load_active (a : nat) (s : sys) : sys * bool := (s, active (state_at a s)).

Definition load_epoch (a : nat) (s : sys) : sys * Z := (s, epoch (state_at a s)).

Definition store_epoch (a : nat) (e : Z) (s : sys) : sys * unit :=
  let x := state_at a s in (set_state a (Some (mkThreadState e (active x) (owner x))) s, tt).

Definition store_active (a : nat) (b : bool) (s : sys) : sys * unit :=
  let x := state_at a s in (set_state a (Some (mkThreadState (epoch x) b (owner x))) s, tt).

(** [retired_[gen_idx].push_back(node)] under the mutex. *)
Definition push_retired (m gen_idx : nat) (node : RetiredNode) (s : sys) : sys * unit :=
  let x := mgr m s in
  (set_mgr m (mkManager (global_epoch_ x) (<[gen_idx := (retired_ x !!! gen_idx) ++ [node]]> (retired_ x))
     (thread_states_ x)) s, tt).

(** The partition of one generation, under the mutex; gives [to_delete]. *)
Definition take_safe (m i : nat) (safe_epoch : Z) (s : sys) : sys * list RetiredNode :=
  let x := mgr m s in
  let gen := retired_ x !!! i in
  let to_delete := filter (fun node => node_epoch node <= safe_epoch) gen in
  let remaining := filter (fun node => ~ node_epoch node <= safe_epoch) gen in
  (set_mgr m (mkManager (global_epoch_ x) (<[i := remaining]> (retired_ x)) (thread_states_ x)) s,
   to_delete).

(** [std::swap(to_delete, retired_[gen_idx])] under the mutex. *)
Definition swap_generation (m gen_idx : nat) (s : sys) : sys * list RetiredNode :=
  let x := mgr m s in
  (set_mgr m (mkManager (global_epoch_ x) (<[gen_idx := []]> (retired_ x)) (thread_states_ x)) s,
   retired_ x !!! gen_idx).

(** ** Operations *)

Inductive ebr_op : Set :=
| OpEnter (tid m : nat)
| OpExit (tid m : nat)
| OpRetire (m : nat) (p : Z) (d : bool)
| OpReclaim (m : nat)
| OpCurrentEpoch (m : nat)
| OpHasPending (m : nat)
| OpPendingCount (m : nat)
| OpDestroy (tid m : nat).

(** [RUseAfterFree]: the call read a deleted [ThreadState]. *)
Inductive ebr_res : Set :=
| RUnit
| REpoch (e : Z)
| RCount (n : nat)
| RHas (b : bool)
| RUseAfterFree.

Abbreviation eprog := (prog sys eev).

(** The state of the calling thread for this manager; [None] when
    [tls_state_] is dangling. *)
Definition get_or_create_state (tid m : nat) : eprog (option nat) :=
  (let! t := atomic (load_tls tid) in
   let create :=
     (let! a := atomic_lin (create_state tid m) (fun a => [ENew m a]) in Ret (Some a)) in
   match tls_initialized_ t, tls_state_ t with
   | true, Some a =>
       let! o := atomic (load_owner a) in
       match o with
       | None => Ret None
       | Some o => if (o =? m)%nat then Ret (Some a) else create
       end
   | _, _ => create
   end)%prog.

Definition enter_critical (tid m : nat) : eprog ebr_res :=
  (let! state := get_or_create_state tid m in
   match state with
   | None => Ret RUseAfterFree
   | Some a =>
       let! e := atomic (load_global_epoch m) in
       do! atomic_lin (store_epoch a e) (fun _ => [EPin m a]);
       do! atomic_lin (store_active a true) (fun _ => [EEnter m a]);
       Ret RUnit
   end)%prog.

Definition exit_critical (tid m : nat) : eprog ebr_res :=
  (let! state := get_or_create_state tid m in
   match state with
   | None => Ret RUseAfterFree
   | Some a =>
       do! atomic_lin (store_active a false) (fun _ => [EExit m a]);
       Ret RUnit
   end)%prog.

Definition retire (m : nat) (p : Z) (d : bool) : eprog ebr_res :=
  (if p =? 0 then Ret RUnit
   else
     let! e := atomic_lin (load_global_epoch m) (fun e => [ERetire m p e]) in
     let gen_idx := Z.to_nat (e mod Z.of_nat kNumGenerations) in
     do! atomic_lin (push_retired m gen_idx (mkNode p d e)) (fun _ => [EPush m p d]);
     Ret RUnit)%prog.

Fixpoint can_advance_from (current : Z) (sts : list nat) : eprog bool :=
  match sts with
  | [] => Ret true
  | a :: sts =>
      (let! act := atomic (load_active a) in
       if (act : bool) then
         let! e := atomic (load_epoch a) in
         if e <? current then Ret false else can_advance_from current sts
       else can_advance_from current sts)%prog
  end.

Definition can_advance_epoch (m : nat) : eprog bool :=
  (let! sts := atomic (load_thread_states m) in
   let! current := atomic (load_global_epoch m) in
   can_advance_from current sts)%prog.

Fixpoint min_active_from (min_epoch : Z) (sts : list nat) : eprog Z :=
  match sts with
  | [] => Ret min_epoch
  | a :: sts =>
      (let! act := atomic (load_active a) in
       if (act : bool) then
         let! e := atomic (load_epoch a) in
         if e <? min_epoch then
           let! e := atomic (load_epoch a) in min_active_from e sts
         else min_active_from min_epoch sts
       else min_active_from min_epoch sts)%prog
  end.

Definition min_active_epoch (m : nat) : eprog Z :=
  (let! sts := atomic (load_thread_states m) in
   let! current := atomic (load_global_epoch m) in
   min_active_from current sts)%prog.

(** The deleters of a private list, one after the other; gives how many were
    called. *)
Fixpoint delete_nodes (m : nat) (nodes : list RetiredNode) : eprog nat :=
  match nodes with
  | [] => Ret 0%nat
  | node :: nodes =>
      if negb (ptr node =? 0) && deleter node then
        (do! atomic_lin (fun s => (s, tt)) (fun _ => [EDelete m (ptr node)]);
         let! c := delete_nodes m nodes in Ret (S c))%prog
      else delete_nodes m nodes
  end.

Definition reclaim_generation (m gen_idx : nat) : eprog unit :=
  (let! to_delete := atomic_lin (swap_generation m gen_idx) (fun l => pop_ev m <$> l) in
   do! delete_nodes m to_delete;
   Ret tt)%prog.

Fixpoint reclaim_gens (m : nat) (safe_epoch : Z) (gens : list nat) : eprog nat :=
  match gens with
  | [] => Ret 0%nat
  | i :: gens =>
      (let! to_delete := atomic_lin (take_safe m i safe_epoch) (fun l => pop_ev m <$> l) in
       let! c := delete_nodes m to_delete in
       let! c' := reclaim_gens m safe_epoch gens in
       Ret (c + c')%nat)%prog
  end.

Definition try_reclaim (m : nat) : eprog nat :=
  (let! adv := can_advance_epoch m in
   do! (if (adv : bool) then bind (atomic_lin (fetch_add_epoch m) (fun _ => [EAdvance m])) (fun _ => Ret tt)
        else Ret tt);
   let! current_epoch := atomic (load_global_epoch m) in
   if 2 <=? current_epoch then
     reclaim_gens m (sub64 current_epoch 2) (seq 0 kNumGenerations)
   else Ret 0%nat)%prog.

Definition current_epoch (m : nat) : eprog Z := atomic (load_global_epoch m).

Definition has_pending (m : nat) : eprog bool :=
  atomic (fun s => (s, existsb (fun g => negb (length g =? 0)%nat)
                         (take kNumGenerations (retired_ (mgr m s))))).

Definition pending_count (m : nat) : eprog nat :=
  atomic (fun s => (s, sum_list_with length (take kNumGenerations (retired_ (mgr m s))))).

(** The destructor, which no other thread may run concurrently with a use of
    the manager. *)
Fixpoint destroy_gens (m : nat) (gens : list nat) : eprog nat :=
  match gens with
  | [] => Ret 0%nat
  | i :: gens =>
      (let! nodes := atomic_lin (swap_generation m i) (fun l => pop_ev m <$> l) in
       let! c := delete_nodes m nodes in
       let! c' := destroy_gens m gens in
       Ret (c + c')%nat)%prog
  end.

Definition delete_states (m : nat) (s : sys) : sys * unit :=
  let x := mgr m s in
  (set_mgr m (mkManager (global_epoch_ x) (retired_ x) [])
     (foldr (fun a s => set_state a None s) s (thread_states_ x)), tt).

Definition reset_tls (tid : nat) (s : sys) : sys * unit :=
  (mkSys (managers s) (states s) (<[tid := mkTls None false]> (tls s)), tt).

Definition EBRManager_destroy (tid m : nat) : eprog ebr_res :=
  (do! destroy_gens m (seq 0 kNumGenerations);
   do! atomic (delete_states m);
   do! atomic (reset_tls tid);
   Ret RUnit)%prog.

(** [EpochGuard]: the constructor enters, the destructor exits. *)
Definition EpochGuard {A} (tid m : nat) (scope : eprog A) : eprog A :=
  (do! enter_critical tid m;
   let! r := scope in
   do! exit_critical tid m;
   Ret r)%prog.

Definition call (o : ebr_op) : eprog ebr_res :=
  match o with
  | OpEnter tid m => enter_critical tid m
  | OpExit tid m => exit_critical tid m
  | OpRetire m p d => retire m p d
  | OpReclaim m => bind (try_reclaim m) (fun c => Ret (RCount c))
  | OpCurrentEpoch m => bind (current_epoch m) (fun e => Ret (REpoch e))
  | OpHasPending m => bind (has_pending m) (fun b => Ret (RHas b))
  | OpPendingCount m => bind (pending_count m) (fun c => Ret (RCount c))
  | OpDestroy tid m => EBRManager_destroy tid m
  end.

Definition body (o : ebr_op) : eprog (ebr_op + ebr_res) := bind (call o) (fun r => Ret (inr r)).
