(* ===== verification/EbrProofs.v ===== *)
(** * EbrProofs: when epoch-based reclamation is safe

    With at most one [try_reclaim] at a time per manager, the epoch advances at
    most once while a thread stays in its critical section, so a node retired
    after the thread entered is not deleted before it leaves
    ([ebr_safe]).  Two concurrent calls of [try_reclaim] break this
    ([ebr_concurrent_reclaim_unsafe]). *)

From stdpp Require Import base list numbers option.
From Stdlib Require Import ZArith Lia.
From S2P Require Import Prelude Conc Ebr.

Local Open Scope Z_scope.

Abbreviation ebr_hist := (list (hev eev ebr_op ebr_res)).

(** ** What the history determines *)

(** The epoch of manager [m]: how often it was advanced. *)
Definition advances (m : nat) (es : list eev) : list unit :=
  omap (fun e => if decide (e = EAdvance m) then Some tt else None) es.

Definition epoch_of (m : nat) (h : ebr_hist) : Z := Z.of_nat (length (advances m (events h))).

Definition pushes (m : nat) (es : list eev) : list (Z * bool) :=
  omap (fun e => match e with EPush m' p d => if decide (m' = m) then Some (p, d) else None | _ => None end) es.

Definition pops (m : nat) (es : list eev) : list (Z * bool) :=
  omap (fun e => match e with EPop m' p d => if decide (m' = m) then Some (p, d) else None | _ => None end) es.

Definition deletes (m : nat) (es : list eev) : list Z :=
  omap (fun e => match e with EDelete m' p => if decide (m' = m) then Some p else None | _ => None end) es.

(** The pointers whose deleter is called when their nodes are popped. *)
Definition live (l : list (Z * bool)) : list Z :=
  omap (fun x => if negb (x.1 =? 0) && x.2 then Some x.1 else None) l.

Lemma pushes_app m es fs : pushes m (es ++ fs) = pushes m es ++ pushes m fs.
Proof. apply omap_app. Qed.

Lemma pops_app m es fs : pops m (es ++ fs) = pops m es ++ pops m fs.
Proof. apply omap_app. Qed.

Lemma deletes_app m es fs : deletes m (es ++ fs) = deletes m es ++ deletes m fs.
Proof. apply omap_app. Qed.

Lemma live_app l k : live (l ++ k) = live l ++ live k.
Proof. apply omap_app. Qed.

Lemma epoch_of_app m h l : epoch_of m (h ++ l) = epoch_of m h + epoch_of m l.
Proof. unfold epoch_of, advances. rewrite events_app, omap_app, length_app. lia. Qed.

Lemma epoch_of_nonneg m h : 0 <= epoch_of m h.
Proof. unfold epoch_of. lia. Qed.

Definition is_advance (m : nat) (x : hev eev ebr_op ebr_res) : Prop := exists i, x = HLin i (EAdvance m).

Lemma epoch_of_one m x : ~ is_advance m x -> epoch_of m [x] = 0.
Proof.
  intros Hx. destruct x as [i o|i e|i r]; try done. unfold epoch_of, advances. simpl.
  case_decide; [|done]. subst. destruct Hx. by exists i.
Qed.

Lemma epoch_of_advance m m' i : epoch_of m' [HLin i (EAdvance m)] = if decide (m' = m) then 1 else 0.
Proof. unfold epoch_of, advances. simpl. repeat case_decide; simplify_eq; done. Qed.

(** *** Critical sections *)

(** State [a] is not written by its owner in [h]. *)
Definition quiet (m a : nat) (h : ebr_hist) : Prop :=
  Forall (fun x => forall j, x <> HLin j (EPin m a) /\ x <> HLin j (EExit m a)) h.

(** Thread [i] entered with state [a] after [h1] and is still in the section. *)
Definition open (m a i : nat) (h1 h : ebr_hist) : Prop :=
  exists h2, h = h1 ++ HLin i (EEnter m a) :: h2 /\ quiet m a h2.

(** Pointer [p] was retired in epoch [e]. *)
Definition retired_at (m : nat) (p e : Z) (h : ebr_hist) : Prop :=
  exists hr j hr', h = hr ++ HLin j (ERetire m p e) :: hr' /\ e = epoch_of m hr.

Definition hist_ok (h : ebr_hist) : Prop :=
  (forall m a i h1 h2 h3, h = h2 ++ h3 -> open m a i h1 h2 -> epoch_of m h2 <= epoch_of m h1 + 1) /\
  (forall m p k h' h'', h = h' ++ HLin k (EDelete m p) :: h'' ->
     exists e, retired_at m p e h' /\ e + 2 <= epoch_of m h').

Lemma snoc_split {A} (h : list A) x h1 y h2 :
  h ++ [x] = h1 ++ y :: h2 ->
  (h2 = [] /\ h1 = h /\ y = x) \/ (exists h2', h2 = h2' ++ [x] /\ h = h1 ++ y :: h2').
Proof.
  destruct h2 as [|z h2' _] using rev_ind.
  - intros [-> [= ->]]%app_inj_tail. by left.
  - change (y :: h2' ++ [z]) with ((y :: h2') ++ [z]). rewrite app_assoc.
    intros [-> [= ->]]%app_inj_tail. right. by exists h2'.
Qed.

Lemma prefix_snoc {A} (h : list A) x h1 h2 :
  h ++ [x] = h1 ++ h2 -> (h2 = [] /\ h1 = h ++ [x]) \/ (exists h2', h = h1 ++ h2').
Proof.
  destruct h2 as [|z h2' _] using rev_ind.
  - rewrite app_nil_r. intros <-. by left.
  - rewrite app_assoc. intros [-> _]%app_inj_tail. right. by exists h2'.
Qed.

(** A section that is open after one more item was open before, or just began. *)
Lemma open_snoc m a i h1 h x :
  open m a i h1 (h ++ [x]) ->
  (h1 = h /\ x = HLin i (EEnter m a)) \/
  (open m a i h1 h /\ forall j, x <> HLin j (EPin m a) /\ x <> HLin j (EExit m a)).
Proof.
  intros (h2 & Heq & Hq). apply snoc_split in Heq as [(-> & -> & ->)|(h2' & -> & ->)]; [by left|right].
  apply Forall_app in Hq as [Hq Hx]. rewrite Forall_singleton in Hx. split; [by exists h2'|done].
Qed.

Lemma open_lin m a i h1 h : open m a i h1 h -> HLin i (EEnter m a) ∈ h.
Proof. intros (h2 & -> & _). apply elem_of_app. right. left. Qed.

Lemma open_epoch m a i h1 h : open m a i h1 h -> epoch_of m h1 <= epoch_of m h.
Proof. intros (h2 & -> & _). rewrite epoch_of_app. pose proof (epoch_of_nonneg m (HLin i (EEnter m a) :: h2)). lia. Qed.

Lemma retired_at_app m p e h l : retired_at m p e h -> retired_at m p e (h ++ l).
Proof. intros (hr & j & hr' & -> & He). exists hr, j, (hr' ++ l). by rewrite <- app_assoc. Qed.

(** One more item keeps the history sound, if an advance finds every open
    section in the present epoch and a deletion finds an old retirement. *)
Lemma hist_ok_snoc h x :
  hist_ok h ->
  (forall m, is_advance m x -> forall a i h1, open m a i h1 h -> epoch_of m h <= epoch_of m h1) ->
  (forall m p k, x = HLin k (EDelete m p) -> exists e, retired_at m p e h /\ e + 2 <= epoch_of m h) ->
  hist_ok (h ++ [x]).
Proof.
  intros [Ho Hd] Hadv Hdel. split.
  - intros m a i h1 h2 h3 Heq Hop. apply prefix_snoc in Heq as [[-> ->]|[h3' Heq]]; [|eauto].
    rewrite epoch_of_app. apply open_snoc in Hop as [[-> ->]|[Hop _]].
    { rewrite epoch_of_one; [lia|]. by intros [j [=]]. }
    pose proof (Ho m a i h1 h [] (eq_sym (app_nil_r h)) Hop) as Hle.
    destruct x as [j o|j e|j r]; [rewrite epoch_of_one; [lia|by intros [? [=]]]| |
      rewrite epoch_of_one; [lia|by intros [? [=]]]].
    destruct (decide (e = EAdvance m)) as [->|Hne].
    + pose proof (Hadv m ltac:(by exists j) a i h1 Hop). rewrite epoch_of_advance, decide_True by done. lia.
    + rewrite epoch_of_one; [lia|]. intros [j' [= -> ->]]. done.
  - intros m p k h' h'' Heq. apply snoc_split in Heq as [(-> & -> & Hx)|(h2' & -> & ->)]; eauto.
Qed.

(** ** The invariant *)

(** At most one [try_reclaim] per manager is in progress. *)
Definition reclaim_serial (h : ebr_hist) : Prop :=
  forall i j m es es', opview i h = Some (OpReclaim m, es) -> opview j h = Some (OpReclaim m, es') -> i = j.

Section safety.
Context (nm : nat).

Definition node_key (node : RetiredNode) : Z * bool := (ptr node, deleter node).

(** The writes of the fields of a state. *)
Definition writes (m a : nat) (e : eev) : Prop := e = EPin m a \/ e = EEnter m a \/ e = EExit m a.

Record Inv (s : sys) (h : ebr_hist) : Prop := {
  iv_len : length (managers s) = nm;
  iv_gens m : (m < nm)%nat -> length (retired_ (mgr m s)) = kNumGenerations;
  iv_epoch m : (m < nm)%nat -> global_epoch_ (mgr m s) = epoch_of m h;
  iv_fits m : epoch_of m h < two64;
  iv_serial : reclaim_serial h;
  iv_new i m a : HLin i (ENew m a) ∈ h ->
    (m < nm)%nat /\ a ∈ thread_states_ (mgr m s) /\ exists x, states s !! a = Some (Some x) /\ owner x = m;
  iv_own i j m m' a : HLin i (ENew m a) ∈ h -> HLin j (ENew m' a) ∈ h -> i = j /\ m = m';
  iv_write j m a e : writes m a e -> HLin j e ∈ h -> HLin j (ENew m a) ∈ h;
  iv_tls i a b : tls s !!! i = mkTls (Some a) b -> exists m, HLin i (ENew m a) ∈ h;
  iv_sec m a i h1 : open m a i h1 h ->
    HLin i (ENew m a) ∈ h /\ active (state_at a s) = true /\ epoch (state_at a s) <= epoch_of m h1;
  iv_nodes m k node : node ∈ retired_ (mgr m s) !!! k ->
    retired_at m (ptr node) (node_epoch node) h;
  iv_push m : (m < nm)%nat ->
    pushes m (events h) ≡ₚ pops m (events h) ++ (node_key <$> concat (retired_ (mgr m s)));
  iv_hist : hist_ok h
}.

(** Items that create or write no state and advance no epoch. *)
Definition neutral (x : hev eev ebr_op ebr_res) : Prop :=
  forall i m a, x <> HLin i (ENew m a) /\ x <> HLin i (EEnter m a) /\ x <> HLin i (EAdvance m) /\
    forall e, writes m a e -> x <> HLin i e.

Lemma neutral_ev i e :
  match e with ENew _ _ | EPin _ _ | EEnter _ _ | EExit _ _ | EAdvance _ => False | _ => True end ->
  neutral (HLin i e).
Proof.
  intros He j m a. split_and!; [by intros [= _ ->]..|]. by intros e' [->|[->| ->]] [= _ ->].
Qed.

Lemma neutral_call i o : neutral (HCall i o).
Proof. done. Qed.

Lemma neutral_ret i r : neutral (HRet i r).
Proof. done. Qed.

Lemma neutral_open m a i h1 h l : Forall neutral l -> open m a i h1 (h ++ l) -> open m a i h1 h.
Proof.
  induction l as [|x l IH] using rev_ind; intros Hl; [by rewrite app_nil_r|].
  apply Forall_app in Hl as [Hl Hx]. rewrite Forall_singleton in Hx.
  rewrite app_assoc. intros [[_ ->]|[Ho _]]%open_snoc; [|auto].
  by destruct (Hx i m a) as (_ & ? & _).
Qed.

Lemma neutral_epoch m l : Forall neutral l -> epoch_of m l = 0.
Proof.
  intros Hl. induction Hl as [|x l Hx _ IH]; [done|]. change (x :: l) with ([x] ++ l).
  rewrite epoch_of_app, IH, epoch_of_one; [done|]. intros [i ->]. by destruct (Hx i m 0%nat) as (_ & _ & ? & _).
Qed.

Lemma neutral_new i m a h l : Forall neutral l -> HLin i (ENew m a) ∈ h ++ l <-> HLin i (ENew m a) ∈ h.
Proof.
  intros Hl. rewrite elem_of_app. split; [|by left]. intros [?|Hin]; [done|].
  pose proof (proj1 (list.Forall_forall _ _) Hl _ Hin) as Hx. by destruct (Hx i m a) as (? & _).
Qed.

Lemma neutral_hist h l :
  Forall neutral l -> (forall m k p, HLin k (EDelete m p) ∉ l) -> hist_ok h -> hist_ok (h ++ l).
Proof.
  intros Hl Hd Hh. induction l as [|x l IH] using rev_ind; [by rewrite app_nil_r|].
  apply Forall_app in Hl as [Hl Hx]. rewrite Forall_singleton in Hx. rewrite app_assoc.
  apply hist_ok_snoc.
  - apply IH; [done|]. intros m k p Hin. apply (Hd m k p), elem_of_app. by left.
  - intros m [i ->]. by destruct (Hx i m 0%nat) as (_ & _ & ? & _).
  - intros m p k ->. destruct (Hd m k p). apply elem_of_app. right. by apply list_elem_of_singleton.
Qed.

(** A step that leaves the thread states and the epochs as they are. *)
Lemma Inv_frame s s' h l :
  Inv s h -> Forall neutral l -> states s' = states s -> tls s' = tls s ->
  length (managers s') = length (managers s) ->
  (forall m, (m < nm)%nat -> global_epoch_ (mgr m s') = global_epoch_ (mgr m s) /\
     length (retired_ (mgr m s')) = length (retired_ (mgr m s)) /\
     forall a, a ∈ thread_states_ (mgr m s) -> a ∈ thread_states_ (mgr m s')) ->
  (forall m k node, node ∈ retired_ (mgr m s') !!! k -> retired_at m (ptr node) (node_epoch node) (h ++ l)) ->
  (forall m, (m < nm)%nat ->
     pushes m (events (h ++ l)) ≡ₚ pops m (events (h ++ l)) ++ (node_key <$> concat (retired_ (mgr m s')))) ->
  reclaim_serial (h ++ l) -> hist_ok (h ++ l) -> Inv s' (h ++ l).
Proof.
  intros HI Hl Hst Htls Hlen Hm Hn Hp Hu Hh. pose proof HI as HI0. destruct HI.
  assert (forall m, epoch_of m (h ++ l) = epoch_of m h) as He.
  { intros m. rewrite epoch_of_app, (neutral_epoch m l Hl). lia. }
  split; rewrite ?Hst, ?Htls; try done.
  - by rewrite Hlen.
  - intros m Hlt. destruct (Hm m Hlt) as (_ & -> & _). auto.
  - intros m Hlt. rewrite He. destruct (Hm m Hlt) as (-> & _ & _). auto.
  - intros m. rewrite He. auto.
  - intros i m a. rewrite neutral_new by done. intros Hin. destruct (iv_new0 i m a Hin) as (Hlt & Ha & Hx).
    split_and!; [done|by apply (Hm m Hlt)|done].
  - intros i j m m' a. rewrite !neutral_new by done. eauto.
  - intros j m a e Hw [Hin|Hin]%elem_of_app; [rewrite neutral_new by done; eauto|].
    pose proof (proj1 (list.Forall_forall _ _) Hl _ Hin) as Hx.
    destruct (Hx j m a) as (_ & _ & _ & Hx'). by apply Hx' in Hw.
  - intros i a b Hi. destruct (iv_tls0 i a b Hi) as [m Hin]. exists m. by rewrite neutral_new.
  - intros m a i h1 Ho%neutral_open; [|done]. rewrite neutral_new by done.
    destruct (iv_sec0 m a i h1 Ho) as (Hnw & Hac & Hep). unfold state_at. by rewrite Hst.
Qed.

(** *** The steps *)

Lemma serial_lin h i es : reclaim_serial h -> reclaim_serial (h ++ (HLin i <$> es)).
Proof.
  intros Hs j j' m fs fs' [gs Hg]%opview_lin_op [gs' Hg']%opview_lin_op. by apply (Hs j j' m gs gs').
Qed.

Lemma serial_one h i e : reclaim_serial h -> reclaim_serial (h ++ [HLin i e]).
Proof. apply (serial_lin h i [e]). Qed.

Lemma serial_ret h i r : reclaim_serial h -> reclaim_serial (h ++ [HRet i r]).
Proof. intros Hs j j' m fs fs'. rewrite !opview_ret. repeat case_decide; try done. apply Hs. Qed.

Lemma state_at_set a b x s :
  (a < length (states s))%nat ->
  state_at b (set_state a (Some x) s) = if decide (b = a) then x else state_at b s.
Proof.
  intros Ha. unfold state_at, set_state. simpl. case_decide.
  - subst. by rewrite list_lookup_insert_eq.
  - by rewrite list_lookup_insert_ne.
Qed.

Lemma new_lt s h i m a : Inv s h -> HLin i (ENew m a) ∈ h -> (a < length (states s))%nat.
Proof. intros HI Hin. destruct (iv_new _ _ HI i m a Hin) as (_ & _ & x & Hx & _). by apply lookup_lt_Some in Hx. Qed.

(** The owner of a state writes it: outside a section, to end one, or to begin
    one in the epoch that is announced. *)
Lemma Inv_store s h i m a x e :
  Inv s h -> HLin i (ENew m a) ∈ h -> owner x = m ->
  (e = EPin m a \/ e = EExit m a \/
   (e = EEnter m a /\ active x = true /\ epoch x = epoch (state_at a s) /\
    epoch x <= epoch_of m h)) ->
  Inv (set_state a (Some x) s) (h ++ [HLin i e]).
Proof.
  intros HI Hnew Hox He. pose proof (new_lt s h i m a HI Hnew) as Ha. pose proof HI as HI0. destruct HI.
  assert (forall j m' a', HLin j (ENew m' a') ∈ h ++ [HLin i e] <-> HLin j (ENew m' a') ∈ h) as Hn.
  { intros j m' a'. rewrite elem_lin_snoc. naive_solver. }
  assert (forall m', epoch_of m' (h ++ [HLin i e]) = epoch_of m' h) as Hep.
  { intros m'. rewrite epoch_of_app, epoch_of_one; [lia|]. intros [j [= _ Heq]]. naive_solver. }
  assert (forall m', pushes m' (events (h ++ [HLin i e])) = pushes m' (events h) /\
     pops m' (events (h ++ [HLin i e])) = pops m' (events h)) as Hpp.
  { intros m'. rewrite events_snoc, pushes_app, pops_app. destruct He as [->|[->|[-> _]]]; by rewrite !app_nil_r. }
  split; try done.
  - intros m' Hlt. rewrite Hep. by apply iv_epoch0.
  - intros m'. rewrite Hep. auto.
  - by apply serial_one.
  - intros j m' a' Hin%Hn. destruct (iv_new0 j m' a' Hin) as (Hlt & Hts & y & Hy & Ho). split; [done|]. split; [done|]. simpl.
    destruct (decide (a' = a)) as [->|Hne].
    + exists x. rewrite list_lookup_insert_eq by done. split; [done|]. rewrite Hox.
      by destruct (iv_own0 i j m m' a Hnew Hin).
    + exists y. by rewrite list_lookup_insert_ne.
  - intros j j' m' m'' a'. rewrite !Hn. eauto.
  - intros j m' a' e' Hw. rewrite Hn, elem_lin_snoc. intros [Hin|[-> ->]]; [eauto|].
    destruct He as [->|[->|[-> _]]], Hw as [|[|]]; by simplify_eq.
  - intros j a' b Hj. destruct (iv_tls0 j a' b Hj) as [m' Hin]. exists m'. by apply Hn.
  - intros m' a' j h1 Ho. rewrite Hn, state_at_set by done.
    apply open_snoc in Ho as [[-> Heq]|[Ho Hq]].
    + destruct He as [->|[->|(-> & Hac & _ & Hle)]]; simplify_eq.
      rewrite decide_True by done. by split_and!.
    + destruct (iv_sec0 m' a' j h1 Ho) as (Hin & Hac & Hle). case_decide; [|by split_and!]. subst a'.
      destruct (iv_own0 i j m m' a Hnew Hin) as [<- <-].
      destruct He as [->|[->|(-> & Hac' & He' & _)]].
      * by destruct (Hq i).
      * by destruct (Hq i).
      * rewrite He'. by split_and!.
  - intros m' k node Hk. apply retired_at_app. eauto.
  - intros m' Hlt. destruct (Hpp m') as [-> ->]. auto.
  - apply hist_ok_snoc; [done| |].
    + intros m' [j [= _ ->]]. naive_solver.
    + intros m' p k [= _ ->]. naive_solver.
Qed.

Lemma mgr_set m m' x s :
  (m < length (managers s))%nat -> mgr m' (set_mgr m x s) = if decide (m' = m) then x else mgr m' s.
Proof.
  intros Hm. unfold mgr, set_mgr. simpl. case_decide.
  - subst. by rewrite list_lookup_total_insert_eq.
  - by rewrite list_lookup_total_insert_ne.
Qed.

(** A thread creates its state. *)
Lemma Inv_create s h i m :
  let a := length (states s) in
  Inv s h -> (m < nm)%nat -> Inv (create_state i m s).1 (h ++ [HLin i (ENew m a)]).
Proof.
  intros a HI Hm. pose proof (new_lt s h) as Hlt. pose proof HI as HI0. destruct HI.
  assert (a = length (states s)) as Ha by done.
  assert (forall j m', HLin j (ENew m' a) ∉ h) as Hfr.
  { intros j m' Hin. pose proof (Hlt j m' a HI0 Hin). unfold a in *. lia. }
  assert (forall m', epoch_of m' (h ++ [HLin i (ENew m a)]) = epoch_of m' h) as Hep.
  { intros m'. rewrite epoch_of_app, epoch_of_one; [lia|]. by intros [j [=]]. }
  assert (states (create_state i m s).1 = states s ++ [Some (mkThreadState 0 false m)] /\
    tls (create_state i m s).1 = <[i := mkTls (Some a) true]> (tls s) /\
    length (managers (create_state i m s).1) = length (managers s)) as (Hst & Htl & Hml).
  { simpl. by rewrite length_insert. }
  assert (forall m', global_epoch_ (mgr m' (create_state i m s).1) = global_epoch_ (mgr m' s) /\
    retired_ (mgr m' (create_state i m s).1) = retired_ (mgr m' s) /\
    thread_states_ (mgr m' (create_state i m s).1) =
      thread_states_ (mgr m' s) ++ if decide (m' = m) then [a] else []) as Hmg.
  { intros m'. unfold create_state, register_thread. cbn [fst]. rewrite mgr_set by (simpl; lia).
    case_decide; [by subst|]. by rewrite app_nil_r. }
  clearbody a. generalize dependent (create_state i m s).1. intros s' Hst Htl Hml Hmg.
  split; rewrite ?Htl; try done.
  - by rewrite Hml.
  - intros m' Hl. destruct (Hmg m') as (_ & -> & _). auto.
  - intros m' Hl. rewrite Hep. destruct (Hmg m') as (-> & _ & _). auto.
  - intros m'. rewrite Hep. auto.
  - by apply serial_one.
  - intros j m' a'. destruct (Hmg m') as (_ & _ & ->). rewrite elem_lin_snoc, elem_of_app, Hst.
    intros [Hin|[_ [= -> ->]]].
    + destruct (iv_new0 j m' a' Hin) as (? & ? & x & Hx & ?). split; [done|]. split; [by left|]. exists x.
      split; [by apply lookup_app_l_Some|done].
    + split; [done|]. rewrite decide_True by done. split; [right; by apply list_elem_of_singleton|].
      exists (mkThreadState 0 false m). split; [|done]. rewrite Ha. by rewrite lookup_app_r, Nat.sub_diag by done.
  - intros j j' m' m'' a'. rewrite !elem_lin_snoc. naive_solver.
  - intros j m' a' e' Hw. rewrite !elem_lin_snoc. intros [Hin|[-> ->]]; [left; eauto|].
    by destruct Hw as [|[|]].
  - intros j a' b. destruct (decide (j = i)) as [->|Hne].
    + destruct (decide (i < length (tls s))%nat) as [Hi|Hi].
      * rewrite list_lookup_total_insert_eq by done. intros [= <- <-]. exists m. rewrite elem_lin_snoc. by right.
      * rewrite list_insert_ge by lia. intros Hj. destruct (iv_tls0 i a' b Hj) as [m' Hin]. exists m'.
        rewrite elem_lin_snoc. by left.
    + rewrite list_lookup_total_insert_ne by done. intros Hj. destruct (iv_tls0 j a' b Hj) as [m' Hin].
      exists m'. rewrite elem_lin_snoc. by left.
  - intros m' a' j h1 [[_ [=]]|[Ho _]]%open_snoc. destruct (iv_sec0 m' a' j h1 Ho) as (Hin & Hac & Hle).
    rewrite elem_lin_snoc. unfold state_at in *. rewrite Hst.
    pose proof (Hlt j m' a' HI0 Hin). rewrite lookup_app_l by done. split_and!; [by left|done..].
  - intros m' k node. destruct (Hmg m') as (_ & -> & _). intros Hk. apply retired_at_app. eauto.
  - intros m' Hl. destruct (Hmg m') as (_ & -> & _).
    rewrite events_snoc, pushes_app, pops_app. simpl. rewrite !app_nil_r. auto.
  - apply hist_ok_snoc; [done| |]; [by intros m' [j [=]]|by intros m' p k [=]].
Qed.

(** The epoch advances when every open section announced the present one. *)
Lemma Inv_advance s h i m :
  Inv s h -> (m < nm)%nat -> epoch_of m h + 1 < two64 ->
  (forall a j h1, open m a j h1 h -> epoch_of m h <= epoch_of m h1) ->
  Inv (fetch_add_epoch m s).1 (h ++ [HLin i (EAdvance m)]).
Proof.
  intros HI Hm Hfit Hopen. pose proof HI as HI0. destruct HI.
  unfold fetch_add_epoch. simpl. rewrite iv_epoch0 by done.
  set (x := mkManager _ _ _). assert (forall m', mgr m' (set_mgr m x s) = if decide (m' = m) then x else mgr m' s)
    as Hset by (intros m'; apply mgr_set; lia).
  pose proof (epoch_of_nonneg m h).
  assert (forall m', epoch_of m' (h ++ [HLin i (EAdvance m)]) = epoch_of m' h + if decide (m' = m) then 1 else 0) as Hep.
  { intros m'. by rewrite epoch_of_app, epoch_of_advance. }
  assert (forall m', retired_ (mgr m' (set_mgr m x s)) = retired_ (mgr m' s) /\
    thread_states_ (mgr m' (set_mgr m x s)) = thread_states_ (mgr m' s)) as Hrt.
  { intros m'. rewrite Hset. case_decide; by subst. }
  assert (length (managers (set_mgr m x s)) = length (managers s) /\ states (set_mgr m x s) = states s /\
    tls (set_mgr m x s) = tls s) as (Hl & Hst & Htl) by (unfold set_mgr; simpl; by rewrite length_insert).
  split; rewrite ?Hst, ?Htl; try done.
  - by rewrite Hl.
  - intros m' Hlt. destruct (Hrt m') as [-> _]. auto.
  - intros m' Hlt. rewrite Hep, Hset. case_decide; subst; simpl; [|rewrite iv_epoch0 by done; lia].
    rewrite add64_small by (unfold is_u64; lia). done.
  - intros m'. rewrite Hep. pose proof (iv_fits0 m'). case_decide; subst; lia.
  - by apply serial_one.
  - intros j m' a. rewrite elem_lin_snoc. intros [Hin|[_ [=]]]. destruct (Hrt m') as [_ ->]. eauto.
  - intros j j' m' m'' a. rewrite !elem_lin_snoc. naive_solver.
  - intros j m' a' e' Hw. rewrite !elem_lin_snoc. intros [Hin|[-> ->]]; [left; eauto|].
    by destruct Hw as [|[|]].
  - intros j a b Hj. destruct (iv_tls0 j a b Hj) as [m' Hin]. exists m'. rewrite elem_lin_snoc. by left.
  - intros m' a j h1 [[_ [=]]|[Ho _]]%open_snoc. destruct (iv_sec0 m' a j h1 Ho) as (Hin & Hac & Hle).
    rewrite elem_lin_snoc. unfold state_at. rewrite Hst. split_and!; [by left|done..].
  - intros m' k node. destruct (Hrt m') as [-> _]. intros Hk. apply retired_at_app. eauto.
  - intros m' Hlt. destruct (Hrt m') as [-> _]. rewrite events_snoc, pushes_app, pops_app. simpl.
    rewrite !app_nil_r. auto.
  - apply hist_ok_snoc; [done| |by intros m' p k [=]].
    intros m' [j [= _ ->]] a j' h1 Ho. eauto.
Qed.

Lemma concat_insert {A} (l : list (list A)) i x :
  (i < length l)%nat -> concat (<[i := x]> l) ++ l !!! i ≡ₚ concat l ++ x.
Proof.
  revert i. induction l as [|y l IH]; intros [|i] Hi; simpl in *; try lia.
  - solve_Permutation.
  - rewrite <- !app_assoc. rewrite (IH i) by lia. done.
Qed.

(** Nodes move to and from one generation [k] of manager [m]. *)
Lemma Inv_gen s h i m k gen es :
  Inv s h -> (m < nm)%nat -> (k < kNumGenerations)%nat ->
  Forall neutral (HLin i <$> es) -> (forall m p, EDelete m p ∉ es) ->
  let x := mgr m s in
  (forall node, node ∈ gen -> retired_at m (ptr node) (node_epoch node) h) ->
  pushes m es ++ (node_key <$> (retired_ x !!! k)) ≡ₚ pops m es ++ (node_key <$> gen) ->
  (forall m', m' <> m -> pushes m' es = [] /\ pops m' es = []) ->
  Inv (set_mgr m (mkManager (global_epoch_ x) (<[k := gen]> (retired_ x)) (thread_states_ x)) s)
    (h ++ (HLin i <$> es)).
Proof.
  intros HI Hm Hk Hn Hd x Hg Hp Ho. set (x' := mkManager _ _ _).
  assert (forall m', mgr m' (set_mgr m x' s) = if decide (m' = m) then x' else mgr m' s)
    as Hset by (intros m'; apply mgr_set; rewrite (iv_len _ _ HI); done).
  pose proof (iv_gens _ _ HI m Hm) as Hlen. fold x in Hlen.
  apply (Inv_frame s); try done.
  - unfold set_mgr. simpl. by rewrite length_insert.
  - intros m' Hlt. rewrite Hset. case_decide; subst; simpl; rewrite ?length_insert; by split_and!.
  - intros m' k' node. rewrite Hset. intros Hin. apply retired_at_app. case_decide; [subst; simpl in Hin|by apply (iv_nodes _ _ HI) in Hin].
    destruct (decide (k' = k)) as [->|Hne].
    + rewrite list_lookup_total_insert_eq in Hin by lia. auto.
    + rewrite list_lookup_total_insert_ne in Hin by done. by apply (iv_nodes _ _ HI) in Hin.
  - intros m' Hlt. rewrite events_app, events_lin, pushes_app, pops_app, Hset. case_decide; [subst m'; simpl|].
    + pose proof (iv_push _ _ HI m Hm) as Hpush. fold x in Hpush.
      pose proof (concat_insert (retired_ x) k gen ltac:(lia)) as Hc.
      apply (Permutation_app_inv_r (node_key <$> (retired_ x !!! k))). rewrite <- !app_assoc, Hp, Hpush.
      rewrite <- (fmap_app node_key (concat (<[k:=gen]> (retired_ x)))), Hc, fmap_app. solve_Permutation.
    + destruct (Ho m' ltac:(done)) as [-> ->]. rewrite !app_nil_r. by apply (iv_push _ _ HI).
  - apply serial_lin, (iv_serial _ _ HI).
  - apply neutral_hist; [done| |apply (iv_hist _ _ HI)].
    intros m' k' p Hin.
    apply list_elem_of_fmap in Hin as (e & [= _ <-] & Hin). by apply (Hd m' p).
Qed.

(** An item of the history that comes with no change of the state. *)
Lemma Inv_item s h x :
  Inv s h -> neutral x ->
  (forall m i p d, x <> HLin i (EPush m p d) /\ x <> HLin i (EPop m p d)) ->
  (forall m p k, x = HLin k (EDelete m p) -> exists e, retired_at m p e h /\ e + 2 <= epoch_of m h) ->
  reclaim_serial (h ++ [x]) -> Inv s (h ++ [x]).
Proof.
  intros HI Hn Hpp Hd Hs. apply (Inv_frame s); try done.
  - by rewrite Forall_singleton.
  - intros m k node Hin. apply retired_at_app. by apply (iv_nodes _ _ HI) in Hin.
  - intros m Hlt. rewrite events_app, pushes_app, pops_app.
    assert (pushes m (events [x]) = [] /\ pops m (events [x]) = []) as [-> ->].
    { destruct x as [i o|i e|i r]; try done. destruct e; try done; by destruct (Hpp m0 i p d). }
    rewrite !app_nil_r. by apply (iv_push _ _ HI).
  - apply hist_ok_snoc; [apply (iv_hist _ _ HI)| |done].
    intros m [i ->]. by destruct (Hn i m 0%nat) as (_ & _ & ? & _).
Qed.

(** ** The proof outline *)

(** Clients call with their own thread, on existing managers, do not destroy a
    manager in use, and do not run two [try_reclaim] on a manager at a time; the
    epochs do not overflow. *)
Definition call_ok (i : nat) (o : ebr_op) : Prop :=
  match o with
  | OpEnter tid m | OpExit tid m => tid = i /\ (m < nm)%nat
  | OpRetire m _ _ | OpReclaim m | OpCurrentEpoch m | OpHasPending m | OpPendingCount m => (m < nm)%nat
  | OpDestroy _ _ => False
  end.

Definition ebr_env (s : sys) (h : ebr_hist) : Prop :=
  Forall (fun x => match x with HCall i o => call_ok i o | _ => True end) h /\
  reclaim_serial h /\ forall m, epoch_of m h < two64.

(** What thread [i] promises: only a reclaimer of [m] advances the epoch of [m],
    and states are written by their owner. *)
Definition Gr (i : nat) (c c' : sys * ebr_hist) : Prop :=
  (forall m, epoch_of m c'.2 = epoch_of m c.2 \/ exists es, opview i c.2 = Some (OpReclaim m, es)) /\
  (forall j m a, j <> i -> HLin j (ENew m a) ∈ c.2 -> state_at a c'.1 = state_at a c.1).

(** What a completed call has done. *)
Definition ebr_good (o : ebr_op) (es : list eev) (r : ebr_res) : Prop :=
  match o with
  | OpEnter _ m => r = RUnit /\ exists a, es = [EPin m a; EEnter m a] \/ es = [ENew m a; EPin m a; EEnter m a]
  | OpExit _ m => r = RUnit /\ exists a, es = [EExit m a] \/ es = [ENew m a; EExit m a]
  | OpRetire m p d => r = RUnit /\ if p =? 0 then es = [] else exists e, es = [ERetire m p e; EPush m p d]
  | OpReclaim m => r = RCount (length (deletes m es)) /\ deletes m es = live (pops m es) /\ pushes m es = []
  | OpCurrentEpoch m => es = [] /\ exists e, r = REpoch e
  | OpHasPending m => es = [] /\ exists b, r = RHas b
  | OpPendingCount m => es = [] /\ exists n, r = RCount n
  | OpDestroy _ _ => True
  end.

Definition LI (i : nat) (l : ebr_op) (s : sys) (h : ebr_hist) : Prop :=
  opview i h = Some (l, []) /\ call_ok i l.

Abbreviation stable := (stable Inv Gr).
Abbreviation wp := (wp Inv Gr ebr_env).
Abbreviation Q := (Qloop LI ebr_good).

Lemma Gr_refl i c : Gr i c c.
Proof. split_and!; auto. Qed.

(** A step without effect on epochs, states and registrations. *)
Lemma ebr_Gr_more i s h l : Forall neutral l -> Gr i (s, h) (s, h ++ l).
Proof.
  intros Hl. split_and!; simpl; simpl; auto. intros m. left. rewrite epoch_of_app, (neutral_epoch m l Hl). lia.
Qed.

(** *** Stable assertions *)

Lemma stable_new i m a : stable i (fun _ h => HLin i (ENew m a) ∈ h).
Proof. intros c c' (j & Hj & Hh & _) H. by apply (hist_step_own j i c.2). Qed.

Lemma stable_epoch_ge i m e : stable i (fun _ h => e <= epoch_of m h).
Proof.
  intros c c' (j & _ & (l & -> & _) & _) H. rewrite epoch_of_app. pose proof (epoch_of_nonneg m l). lia.
Qed.

(** The epoch a thread has written in its state. *)
Lemma stable_written i m a e :
  stable i (fun s h => HLin i (ENew m a) ∈ h /\ epoch (state_at a s) = e).
Proof.
  intros c c' (j & Hj & Hh & (_ & Hst) & _) [Hn <-]. split; [by apply (hist_step_own j i c.2)|].
  f_equal. by apply (Hst i m).
Qed.

(** While thread [i] runs [try_reclaim] on [m], nobody else advances [m]. *)
Lemma stable_reclaimer i m es e :
  stable i (fun _ h => opview i h = Some (OpReclaim m, es) /\ epoch_of m h = e).
Proof.
  intros c c' (j & Hj & Hh & (He & _) & HI & _) [Ho <-].
  split; [by rewrite (hist_step_view j i c.2 c'.2)|].
  destruct (He m) as [?|[es' Hj']]; [done|]. by destruct (Hj (iv_serial _ _ HI j i m _ _ Hj' Ho)).
Qed.

Lemma stable_retired i m p e : stable i (fun _ h => retired_at m p e h).
Proof. intros c c' (j & _ & (l & -> & _) & _). apply retired_at_app. Qed.

(** *** The operations *)

Lemma wp_load {A} i P (X : Set) f (g : sys -> X) (k : X -> eprog A) QQ s h :
  (forall s, f s = (s, g s)) -> stable i P -> P s h ->
  (forall s h, P s h -> Inv s h -> wp i (k (g s)) QQ (s, h)) ->
  wp i (Act X f (fun _ => []) k) QQ (s, h).
Proof.
  intros Hf HP Hs Hk. apply (wp_silent _ _ _ i P); [done|done|]. intros s1 h1 s2 x HP1 HI1 Hfx _.
  rewrite Hf in Hfx. injection Hfx as <- <-. split_and!; [apply Gr_refl|done|auto].
Qed.

Definition doing (i : nat) (o : ebr_op) (es : list eev) (h : ebr_hist) : Prop := opview i h = Some (o, es).

Lemma doing_more i o es e h : doing i o es h -> doing i o (es ++ [e]) (h ++ [HLin i e]).
Proof. unfold doing. intros Ho. by rewrite opview_snoc, decide_True, Ho. Qed.

Lemma doing_lin i o es fs h : doing i o es h -> doing i o (es ++ fs) (h ++ (HLin i <$> fs)).
Proof. unfold doing. intros Ho. by rewrite opview_lin, decide_True, Ho. Qed.

Lemma wp_result i o es r s h : doing i o es h -> ebr_good o es r -> wp i (Ret r) (Post ebr_good i) (s, h).
Proof. intros Ho Hg. apply (wp_ret _ _ _ i); [apply stable_post|]. by exists o, es. Qed.

Lemma Gr_create i m s h : Inv s h -> (m < nm)%nat ->
  Gr i (s, h) ((create_state i m s).1, h ++ [HLin i (ENew m (length (states s)))]).
Proof.
  intros HI Hm. split; simpl.
  - intros m'. left. rewrite epoch_of_app, epoch_of_one; [lia|]. by intros [j [=]].
  - intros j m' a _ Hin. pose proof (new_lt s h j m' a HI Hin). unfold state_at. simpl.
    by rewrite lookup_app_l.
Qed.

Definition got_state (i m : nat) (o : ebr_op) (r : option nat) (s : sys) (h : ebr_hist) : Prop :=
  exists a es, r = Some a /\ doing i o es h /\ (es = [] \/ es = [ENew m a]) /\ HLin i (ENew m a) ∈ h.

Lemma stable_got i m o r : stable i (got_state i m o r).
Proof.
  intros c c' Hr (a & es & Heq & Ho & Hes & Hn). exists a, es. split_and!; try done.
  - by apply (stable_op Inv Gr i o es c c').
  - by apply (stable_new i m a c c').
Qed.

Lemma wp_create i m o s h :
  doing i o [] h -> (m < nm)%nat ->
  wp i (Act nat (create_state i m) (fun a => [ENew m a]) (fun a => Ret (Some a))) (got_state i m o) (s, h).
Proof.
  intros Ho Hm. apply (wp_act _ _ _ i (fun _ h => doing i o [] h)); [apply stable_op|done|].
  clear s h Ho. intros s h s2 a Ho HI Ha _. pose proof (Inv_create s h i m HI Hm) as HI'.
  pose proof (Gr_create i m s h HI Hm) as HG. assert (a = length (states s)) as -> by by injection Ha.
  rewrite Ha in HI', HG. change (HLin i <$> [?e]) with [HLin (Op := ebr_op) (R := ebr_res) i e].
  split_and!; [done|done|]. apply (wp_ret _ _ _ i); [apply stable_got|].
  eexists _, [ENew m _]. split_and!; [done|by apply (doing_more i o [])|by right|]. rewrite elem_lin_snoc. by right.
Qed.

(** [get_or_create_state] gives a state of the calling thread for this manager. *)
Lemma wp_get_state i m o s h :
  doing i o [] h -> (m < nm)%nat -> wp i (get_or_create_state i m) (got_state i m o) (s, h).
Proof.
  intros Ho Hm. unfold get_or_create_state. simpl.
  apply (wp_load i (fun _ h => doing i o [] h) _ _ (fun s => tls s !!! i)); [done|apply stable_op|done|].
  clear s h Ho. intros s h Ho HI. destruct (tls s !!! i) as [[a|] [|]] eqn:Et; simpl; try by apply wp_create.
  destruct (iv_tls _ _ HI i a true Et) as [m' Hn].
  apply (wp_silent _ _ _ i (fun _ h => doing i o [] h /\ HLin i (ENew m' a) ∈ h)).
  { apply stable_and; [apply stable_op|apply stable_new]. } { done. }
  clear s h Ho HI Et Hn. intros s h s2 x [Ho Hn] HI [= <- <-] _. split_and!; [apply Gr_refl|done|].
  destruct (iv_new _ _ HI i m' a Hn) as (_ & _ & y & Hy & Hoy). rewrite Hy. simpl.
  destruct (Nat.eqb_spec (owner y) m) as [Hom|_]; simpl; [|by apply wp_create].
  apply (wp_ret _ _ _ i); [apply stable_got|]. exists a, []. subst. by split_and!; [| |left|].
Qed.

Lemma Gr_store i m a s h x e :
  Inv s h -> HLin i (ENew m a) ∈ h -> (forall m, e <> EAdvance m) ->
  Gr i (s, h) (set_state a (Some x) s, h ++ [HLin i e]).
Proof.
  intros HI Hn He. split; simpl.
  - intros m'. left. rewrite epoch_of_app, epoch_of_one; [lia|]. intros [j [= _ Heq]]. by apply (He m').
  - intros j m' a' Hj Hin. rewrite state_at_set by by apply (new_lt s h i m a).
    rewrite decide_False; [done|]. intros ->. by destruct (iv_own _ _ HI i j m m' a Hn Hin).
Qed.

Lemma owner_at s h i m a : Inv s h -> HLin i (ENew m a) ∈ h -> owner (state_at a s) = m.
Proof.
  intros HI Hn. destruct (iv_new _ _ HI i m a Hn) as (_ & _ & y & Hy & Hoy). unfold state_at. by rewrite Hy.
Qed.

Lemma wp_enter i m s h :
  LI i (OpEnter i m) s h -> Inv s h -> wp i (enter_critical i m) (Post ebr_good i) (s, h).
Proof.
  intros [Ho [_ Hm]] HI. unfold enter_critical. apply wp_bind; [done|].
  apply (wp_mono _ _ _ i _ (got_state i m (OpEnter i m))); [|by apply wp_get_state].
  clear s h Ho HI. intros r s h _ (a & es & -> & Ho & Hes & Hn). simpl.
  apply (wp_load i (fun _ h => doing i (OpEnter i m) es h /\ HLin i (ENew m a) ∈ h) _ _
    (fun s => global_epoch_ (mgr m s))); [done|apply stable_and; [apply stable_op|apply stable_new]|done|].
  clear s h Ho Hn. intros s h [Ho Hn] HI. rewrite (iv_epoch _ _ HI m Hm).
  set (e := epoch_of m h). assert (e <= epoch_of m h) as He by (unfold e; lia). clearbody e.
  apply (wp_act _ _ _ i (fun _ h => doing i (OpEnter i m) es h /\ HLin i (ENew m a) ∈ h /\ e <= epoch_of m h)).
  { apply stable_and; [apply stable_op|]. apply stable_and; [apply stable_new|apply stable_epoch_ge]. } { done. }
  clear s h Ho Hn He HI. intros s h s2 [] (Ho & Hn & He) HI [= <-] _.
  change (HLin i <$> [?e]) with [HLin (Op := ebr_op) (R := ebr_res) i e].
  pose proof (Inv_store s h i m a (mkThreadState e (active (state_at a s)) (owner (state_at a s)))
    (EPin m a) HI Hn (owner_at s h i m a HI Hn) ltac:(by left)) as HI'.
  split_and!; [by apply (Gr_store i m a)|done|].
  apply (wp_act _ _ _ i (fun s h => doing i (OpEnter i m) (es ++ [EPin m a]) h /\
    (HLin i (ENew m a) ∈ h /\ epoch (state_at a s) = e) /\ e <= epoch_of m h)).
  { apply stable_and; [apply stable_op|]. apply stable_and; [apply stable_written|apply stable_epoch_ge]. }
  { split_and!; [by apply doing_more|apply elem_lin_snoc; by left| |].
    - rewrite state_at_set, decide_True by (done || by apply (new_lt s h i m a)). done.
    - rewrite epoch_of_app. pose proof (epoch_of_nonneg m [HLin i (EPin m a)]). lia. }
  clear s h Ho Hn He HI HI'. intros s h s2 [] (Ho & [Hn Hw] & He) HI [= <-] _.
  change (HLin i <$> [?e]) with [HLin (Op := ebr_op) (R := ebr_res) i e].
  split_and!; [by apply (Gr_store i m a)| |].
  - apply (Inv_store s h i m a); [done|done|by apply (owner_at s h i m a)|].
    right; right. simpl. rewrite Hw. by split_and!.
  - apply (wp_result i (OpEnter i m) ((es ++ [EPin m a]) ++ [EEnter m a])); [by apply doing_more|].
    split; [done|]. exists a. destruct Hes as [->| ->]; auto.
Qed.

Lemma wp_exit i m s h :
  LI i (OpExit i m) s h -> Inv s h -> wp i (exit_critical i m) (Post ebr_good i) (s, h).
Proof.
  intros [Ho [_ Hm]] HI. unfold exit_critical. apply wp_bind; [done|].
  apply (wp_mono _ _ _ i _ (got_state i m (OpExit i m))); [|by apply wp_get_state].
  clear s h Ho HI. intros r s h _ (a & es & -> & Ho & Hes & Hn). simpl.
  apply (wp_act _ _ _ i (fun _ h => doing i (OpExit i m) es h /\ HLin i (ENew m a) ∈ h)).
  { apply stable_and; [apply stable_op|apply stable_new]. } { done. }
  clear s h Ho Hn. intros s h s2 [] (Ho & Hn) HI [= <-] _.
  change (HLin i <$> [?e]) with [HLin (Op := ebr_op) (R := ebr_res) i e].
  split_and!; [by apply (Gr_store i m a)| |].
  - apply (Inv_store s h i m a); [done|done|by apply (owner_at s h i m a)|]. right; by left.
  - apply (wp_result i (OpExit i m) (es ++ [EExit m a])); [by apply doing_more|].
    split; [done|]. exists a. destruct Hes as [->| ->]; auto.
Qed.

Lemma gen_idx_lt e : 0 <= e -> (Z.to_nat (e mod Z.of_nat kNumGenerations) < kNumGenerations)%nat.
Proof.
  intros He. unfold kNumGenerations. pose proof (Z.mod_pos_bound e (Z.of_nat 3) ltac:(lia)). lia.
Qed.

Lemma wp_retire i m p d s h :
  LI i (OpRetire m p d) s h -> wp i (retire m p d) (Post ebr_good i) (s, h).
Proof.
  intros [Ho Hm]. unfold retire. simpl in Hm. destruct (p =? 0) eqn:Ep.
  { apply (wp_result i (OpRetire m p d) []); [done|]. simpl. by rewrite Ep. }
  simpl. apply (wp_act _ _ _ i (fun _ h => doing i (OpRetire m p d) [] h)); [apply stable_op|done|].
  clear s h Ho. intros s h s2 e Ho HI Hl _. injection Hl as <- <-. rewrite (iv_epoch _ _ HI m Hm).
  change (HLin i <$> [?e]) with [HLin (Op := ebr_op) (R := ebr_res) i e].
  set (e := epoch_of m h). pose proof (epoch_of_nonneg m h : 0 <= e) as He.
  assert (retired_at m p e (h ++ [HLin i (ERetire m p e)])) as Hr by (by exists h, i, []).
  split_and!; [apply ebr_Gr_more; rewrite Forall_singleton; by apply neutral_ev| |].
  { apply Inv_item; [done|by apply neutral_ev|done|done|]. apply serial_one, (iv_serial _ _ HI). }
  clearbody e. pose proof (doing_more i (OpRetire m p d) [] (ERetire m p e) h Ho) as Ho'.
  apply (wp_act _ _ _ i (fun _ h => doing i (OpRetire m p d) [ERetire m p e] h /\ retired_at m p e h)).
  { apply stable_and; [apply stable_op|apply stable_retired]. } { done. }
  clear s h Ho HI Hr Ho'. intros s h s2 [] [Ho Hr] HI Hp _. injection Hp as <-. split_and!.
  - split; simpl; [|done]. intros m'. left. rewrite epoch_of_app, epoch_of_one; [lia|]. by intros [j [=]].
  - apply (Inv_gen s h i m _ _ [EPush m p d]); [done|done|by apply gen_idx_lt|repeat constructor; by apply neutral_ev| | | |].
    + intros m' p' Hin%list_elem_of_singleton. done.
    + intros node [Hin| ->%list_elem_of_singleton]%elem_of_app; [by apply (iv_nodes _ _ HI) in Hin|done].
    + simpl. rewrite decide_True by done. simpl. rewrite fmap_app. simpl. solve_Permutation.
    + intros m' Hne. simpl. by rewrite decide_False.
  - apply (wp_result i (OpRetire m p d) [ERetire m p e; EPush m p d]); [by apply (doing_more i _ [ERetire m p e])|].
    simpl. rewrite Ep. split; [done|]. by exists e.
Qed.

(** *** [try_reclaim] *)

(** The reclaimer of [m] knows the epoch [c], and that the sections that began
    in an earlier one are those of the states [sts] it still has to look at. *)
Definition checking (i m : nat) (c : Z) (sts : list nat) (h : ebr_hist) : Prop :=
  (doing i (OpReclaim m) [] h /\ epoch_of m h = c) /\
  forall a j h1, open m a j h1 h -> epoch_of m h1 < c -> a ∈ sts.

Lemma open_app m a i h1 h l :
  open m a i h1 (h ++ l) -> open m a i h1 h \/ exists l1, h1 = h ++ l1.
Proof.
  induction l as [|x l IH] using rev_ind; [rewrite app_nil_r; by left|].
  rewrite app_assoc. intros [[-> _]|[Ho _]]%open_snoc; [by right; exists l|auto].
Qed.

Lemma stable_checking i m c sts : stable i (fun _ h => checking i m c sts h).
Proof.
  intros c1 c2 Hr [H1 H2]. pose proof (stable_reclaimer i m [] c c1 c2 Hr H1) as H1'. split; [done|].
  intros a j h1 Ho Hlt. destruct Hr as (k & _ & (l & Hl & _) & _). rewrite Hl in Ho.
  apply open_app in Ho as [Ho|[l1 ->]]; [eauto|].
  rewrite epoch_of_app in Hlt. pose proof (epoch_of_nonneg m l1). destruct H1 as [_ H1]. lia.
Qed.

Lemma wp_check i m c sts s h :
  checking i m c sts h ->
  wp i (can_advance_from c sts)
    (fun b _ h => if (b : bool) then checking i m c [] h else doing i (OpReclaim m) [] h) (s, h).
Proof.
  revert s h. induction sts as [|a sts IH]; intros s h Hc; simpl.
  { apply (wp_ret _ _ _ i); [apply stable_checking|done]. }
  apply (wp_load i (fun _ h => checking i m c (a :: sts) h) _ _ (fun s => active (state_at a s)));
    [done|apply stable_checking|done|].
  clear s h Hc. intros s h Hc HI. destruct (active (state_at a s)) eqn:Ea; simpl.
  - apply (wp_load i (fun _ h => checking i m c (a :: sts) h) _ _ (fun s => epoch (state_at a s)));
      [done|apply stable_checking|done|].
    clear s h Hc HI Ea. intros s h [H1 H2] HI. destruct (Z.ltb_spec (epoch (state_at a s)) c) as [Hlt|Hge]; simpl.
    + apply (wp_ret _ _ _ i); [apply stable_op|apply H1].
    + apply IH. split; [done|]. intros b j h1 Ho Hlt. pose proof (H2 b j h1 Ho Hlt) as Hb.
      apply elem_of_cons in Hb as [->|?]; [|done]. destruct (iv_sec _ _ HI m a j h1 Ho) as (_ & _ & ?). lia.
  - apply IH. destruct Hc as [H1 H2]. split; [done|]. intros b j h1 Ho Hlt. pose proof (H2 b j h1 Ho Hlt) as Hb.
    apply elem_of_cons in Hb as [->|?]; [|done]. destruct (iv_sec _ _ HI m a j h1 Ho) as (_ & ? & _). congruence.
Qed.

Lemma wp_can_advance i m s h :
  doing i (OpReclaim m) [] h -> (m < nm)%nat -> Inv s h ->
  wp i (can_advance_epoch m)
    (fun b _ h => doing i (OpReclaim m) [] h /\ if (b : bool) then exists c, checking i m c [] h else True) (s, h).
Proof.
  intros Ho Hm HI. unfold can_advance_epoch. simpl.
  apply (wp_load i (fun _ h => doing i (OpReclaim m) [] h) _ _ (fun s => thread_states_ (mgr m s)));
    [done|apply stable_op|done|].
  clear s h Ho HI. intros s h Ho HI. set (sts := thread_states_ (mgr m s)).
  assert (checking i m (epoch_of m h) sts h) as Hc.
  { split; [done|]. intros a j h1 Hop _. destruct (iv_sec _ _ HI m a j h1 Hop) as (Hn & _).
    by destruct (iv_new _ _ HI j m a Hn) as (_ & ? & _). }
  set (c := epoch_of m h) in *. clearbody c sts.
  apply (wp_load i (fun _ h => checking i m c sts h) _ _ (fun s => global_epoch_ (mgr m s)));
    [done|apply stable_checking|done|].
  clear s h Ho HI Hc. intros s h Hc HI. rewrite (iv_epoch _ _ HI m Hm), (proj2 (proj1 Hc)).
  apply (wp_mono _ _ _ i _ (fun b _ h => if (b : bool) then checking i m c [] h else doing i (OpReclaim m) [] h)).
  { intros [|] s1 h1 _ H1; [|done]. split; [apply H1|by exists c]. }
  by apply wp_check.
Qed.

(** The nodes a reclaimer has removed were retired two epochs ago. *)
Definition old_node (m : nat) (node : RetiredNode) (h : ebr_hist) : Prop :=
  exists e, retired_at m (ptr node) e h /\ e + 2 <= epoch_of m h.

Lemma old_node_app m node h l : old_node m node h -> old_node m node (h ++ l).
Proof.
  intros (e & Hr & He). exists e. split; [by apply retired_at_app|].
  rewrite epoch_of_app. pose proof (epoch_of_nonneg m l). lia.
Qed.

Lemma stable_old i m nodes : stable i (fun _ h => Forall (fun node => old_node m node h) nodes).
Proof.
  intros c c' (j & _ & (l & -> & _) & _) Hf. eapply list.Forall_impl; [exact Hf|].
  intros node. apply old_node_app.
Qed.

Definition dead (nodes : list RetiredNode) : list Z := live (node_key <$> nodes).

Lemma wp_delete i m nodes o es s h :
  doing i o es h -> Forall (fun node => old_node m node h) nodes ->
  wp i (delete_nodes m nodes)
    (fun c _ h => c = length (dead nodes) /\ doing i o (es ++ (EDelete m <$> dead nodes)) h) (s, h).
Proof.
  revert es s h. induction nodes as [|node nodes IH]; intros es s h Ho Hf; simpl.
  { apply (wp_ret _ _ _ i); [apply stable_and; [apply stable_pure|apply stable_op]|].
    split; [done|]. by rewrite app_nil_r. }
  unfold dead, live. simpl. destruct (negb (ptr node =? 0) && deleter node) eqn:Ed; simpl; fold (live (node_key <$> nodes)).
  2:{ inversion Hf; subst. by apply IH. }
  apply (wp_act _ _ _ i (fun _ h => doing i o es h /\ Forall (fun node => old_node m node h) (node :: nodes))).
  { apply stable_and; [apply stable_op|apply stable_old]. } { done. }
  clear s h Ho Hf. intros s h s2 [] [Ho Hf] HI [= <-] _. inversion Hf as [|? ? Hn Hf']; subst.
  change (HLin i <$> [?e]) with [HLin (Op := ebr_op) (R := ebr_res) i e].
  assert (Inv s (h ++ [HLin i (EDelete m (ptr node))])) as HI'.
  { apply Inv_item; [done|by apply neutral_ev|done| |apply serial_one, (iv_serial _ _ HI)]. intros m' p k [= _ <- <-]. done. }
  split_and!; [apply ebr_Gr_more; rewrite Forall_singleton; by apply neutral_ev|done|]. apply wp_bind; [done|].
  eapply wp_mono; [|apply (IH (es ++ [EDelete m (ptr node)]));
    [by apply doing_more|eapply list.Forall_impl; [exact Hf'|]; intros; by apply old_node_app]].
  intros c s1 h1 HI1 [-> Ho1]. apply (wp_ret _ _ _ i); [apply stable_and; [apply stable_pure|apply stable_op]|].
  split; [done|]. by rewrite <- app_assoc in Ho1.
Qed.

(** The deleters called are those of the nodes removed. *)
Definition balanced (m : nat) (es : list eev) : Prop :=
  deletes m es = live (pops m es) /\ pushes m es = [].

Lemma balanced_app m es fs : balanced m es -> balanced m fs -> balanced m (es ++ fs).
Proof.
  intros [H1 H2] [H3 H4]. split.
  - by rewrite deletes_app, pops_app, live_app, H1, H3.
  - by rewrite pushes_app, H2, H4.
Qed.

Lemma events_pop m nodes :
  pops m (pop_ev m <$> nodes) = node_key <$> nodes /\ deletes m (pop_ev m <$> nodes) = [] /\
  pushes m (pop_ev m <$> nodes) = [] /\
  forall m', m' <> m -> pushes m' (pop_ev m <$> nodes) = [] /\ pops m' (pop_ev m <$> nodes) = [].
Proof.
  induction nodes as [|node nodes (H1 & H2 & H3 & H4)]; [done|]. unfold pops, deletes, pushes in *. csimpl.
  rewrite decide_True by done. csimpl. split_and!; [by f_equal|done|done|].
  intros m' Hne. rewrite decide_False by done. auto.
Qed.

Lemma events_delete m ps :
  pops m (EDelete m <$> ps) = [] /\ deletes m (EDelete m <$> ps) = ps /\ pushes m (EDelete m <$> ps) = [].
Proof.
  induction ps as [|p ps (H1 & H2 & H3)]; [done|]. unfold pops, deletes, pushes in *. csimpl.
  rewrite decide_True by done. split_and!; [done|by f_equal|done].
Qed.

Lemma balanced_batch m nodes : balanced m ((pop_ev m <$> nodes) ++ (EDelete m <$> dead nodes)) /\
  deletes m ((pop_ev m <$> nodes) ++ (EDelete m <$> dead nodes)) = dead nodes.
Proof.
  destruct (events_pop m nodes) as (P1 & P2 & P3 & _), (events_delete m (dead nodes)) as (D1 & D2 & D3).
  unfold balanced. rewrite deletes_app, pops_app, pushes_app, P1, P2, P3, D1, D2, D3. by rewrite app_nil_r.
Qed.

Lemma neutral_pops i m nodes : Forall neutral (HLin i <$> (pop_ev m <$> nodes)).
Proof.
  apply Forall_fmap, Forall_fmap, Forall_true. intros node. by apply neutral_ev.
Qed.

Lemma wp_gens i m cur gens es s h :
  doing i (OpReclaim m) es h -> (m < nm)%nat -> 2 <= cur <= epoch_of m h ->
  Forall (fun k => (k < kNumGenerations)%nat) gens -> Inv s h ->
  wp i (reclaim_gens m (cur - 2) gens)
    (fun c _ h => exists es', doing i (OpReclaim m) (es ++ es') h /\ c = length (deletes m es') /\ balanced m es')
    (s, h).
Proof.
  intros Ho Hm [Hc1 Hc2] Hg HI. revert es s h Ho Hc2 HI. induction Hg as [|k gens Hk Hg IH]; intros es s h Ho Hc2 HI; simpl.
  { apply (wp_ret _ _ _ i).
    - apply (stable_view _ _ i (fun v => exists es', v = Some (OpReclaim m, es ++ es') /\ 0%nat = length (deletes m es') /\ balanced m es')).
    - exists []. by rewrite app_nil_r. }
  apply (wp_act _ _ _ i (fun _ h => doing i (OpReclaim m) es h /\ cur <= epoch_of m h)).
  { apply stable_and; [apply stable_op|apply stable_epoch_ge]. } { done. }
  clear s h Ho Hc2 HI. intros s h s2 nodes [Ho Hc2] HI Ht _. injection Ht as <- Hn.
  set (gen := retired_ (mgr m s) !!! k) in *.
  assert (Forall (fun node => old_node m node (h ++ (HLin i <$> (pop_ev m <$> nodes)))) nodes) as Hold.
  { apply list.Forall_forall. intros node Hin. subst nodes. apply list_elem_of_filter in Hin as [Hle Hin].
    apply old_node_app. exists (node_epoch node). split; [by apply (iv_nodes _ _ HI) in Hin|lia]. }
  destruct (events_pop m nodes) as (P1 & P2 & P3 & P4).
  assert (Inv (set_mgr m (mkManager (global_epoch_ (mgr m s))
      (<[k := filter (fun node => ~ node_epoch node <= cur - 2) gen]> (retired_ (mgr m s))) (thread_states_ (mgr m s))) s)
    (h ++ (HLin i <$> (pop_ev m <$> nodes)))) as HI'.
  { apply Inv_gen; try done.
    - apply neutral_pops.
    - intros m' p Hin. apply list_elem_of_fmap in Hin as (node & [=] & _).
    - intros node Hin. apply list_elem_of_filter in Hin as [_ Hin]. by apply (iv_nodes _ _ HI) in Hin.
    - rewrite P1, P3, <- fmap_app. simpl. subst nodes. fold gen. by rewrite filter_app_complement. }
  split_and!; [|done|].
  { split; simpl; [|done]. intros m'. left. rewrite epoch_of_app, (neutral_epoch m' _ (neutral_pops i m nodes)). lia. }
  apply wp_bind; [done|]. pose proof (doing_lin i _ es (pop_ev m <$> nodes) h Ho) as Ho'.
  assert (cur <= epoch_of m (h ++ (HLin i <$> (pop_ev m <$> nodes)))) as Hc3.
  { rewrite epoch_of_app. pose proof (epoch_of_nonneg m (HLin i <$> (pop_ev m <$> nodes))). lia. }
  clear Hn P1 P2 P3 P4 Ho Hc2.
  apply (wp_mono _ _ _ i _ (fun c _ h => (c = length (dead nodes) /\
    doing i (OpReclaim m) ((es ++ (pop_ev m <$> nodes)) ++ (EDelete m <$> dead nodes)) h) /\ cur <= epoch_of m h));
    [|apply (wp_frame _ _ _ i _ _ (fun h => cur <= epoch_of m h)); [|exact Hc3|by apply wp_delete]].
  2:{ intros h1 l Hh. rewrite epoch_of_app. pose proof (epoch_of_nonneg m l). lia. }
  clear gen s h HI HI' Hold Hc3 Ho'. intros c s h HI [[-> Ho] Hc]. simpl. apply wp_bind; [done|].
  eapply wp_mono; [|by eapply IH]. clear s h HI Ho Hc. intros c s h HI (fs & Ho & -> & Hb).
  destruct (balanced_batch m nodes) as [Hb1 Hb2].
  set (es1 := (pop_ev m <$> nodes) ++ (EDelete m <$> dead nodes)) in *.
  apply (wp_ret _ _ _ i).
  { apply (stable_view _ _ i (fun v => exists es', v = Some (OpReclaim m, es ++ es') /\
      (length (dead nodes) + length (deletes m fs))%nat = length (deletes m es') /\ balanced m es')). }
  exists (es1 ++ fs). rewrite deletes_app, length_app, Hb2. split_and!; [|done|by apply balanced_app].
  unfold es1. by rewrite !app_assoc, <- !app_assoc in *.
Qed.

(** The advance of the epoch, when the check allows it. *)
Definition advanced (i m : nat) (h : ebr_hist) : Prop :=
  exists es, doing i (OpReclaim m) es h /\ balanced m es /\ deletes m es = [].

Lemma stable_advanced i m : stable i (fun _ h => advanced i m h).
Proof.
  apply (stable_view _ _ i (fun v => exists es, v = Some (OpReclaim m, es) /\ balanced m es /\ deletes m es = [])).
Qed.

Lemma wp_advance i m c s h :
  checking i m c [] h -> (m < nm)%nat ->
  wp i (bind (atomic_lin (fetch_add_epoch m) (fun _ => [EAdvance m])) (fun _ => Ret tt))
    (fun _ _ h => advanced i m h) (s, h).
Proof.
  intros Hc Hm. simpl.
  apply (wp_act _ _ _ i (fun _ h => checking i m c [] h)); [apply stable_checking|done|].
  clear s h Hc. intros s h s2 e [[Ho Hc] Hop] HI Hf (_ & _ & Hfit). injection Hf as Hf _. subst s2.
  change (HLin i <$> [?e]) with [HLin (Op := ebr_op) (R := ebr_res) i e] in *.
  assert (Inv (fetch_add_epoch m s).1 (h ++ [HLin i (EAdvance m)])) as HI'.
  { apply Inv_advance; [done|done| |].
    - specialize (Hfit m). rewrite epoch_of_app, epoch_of_advance, decide_True in Hfit by done. done.
    - intros a j h1 Ho1. destruct (Z.lt_ge_cases (epoch_of m h1) c) as [Hlt|]; [|lia].
      by apply (Hop a j h1 Ho1), elem_of_nil in Hlt. }
  split_and!; [|done|].
  - split; [|done]. simpl. intros m'. destruct (decide (m' = m)) as [->|Hne]; [right; eauto|left].
    rewrite epoch_of_app, epoch_of_advance, decide_False by done. lia.
  - apply (wp_ret _ _ _ i); [apply stable_advanced|]. exists [EAdvance m]. split; [|done].
    by apply (doing_more i (OpReclaim m) []).
Qed.

#[local] Arguments reclaim_gens : simpl never.

Lemma wp_reclaim i m s h :
  LI i (OpReclaim m) s h -> Inv s h ->
  wp i (bind (try_reclaim m) (fun c => Ret (RCount c))) (Post ebr_good i) (s, h).
Proof.
  intros [Ho Hm] HI. simpl in Hm. unfold try_reclaim. do 2 (apply wp_bind; [done|]).
  eapply wp_mono; [|by apply wp_can_advance]. clear s h Ho HI. intros b s h HI [Ho Hb]. simpl.
  apply wp_bind; [done|]. apply (wp_mono _ _ _ i _ (fun _ _ h => advanced i m h)).
  2:{ destruct b; [destruct Hb as [c Hc]; by apply (wp_advance i m c)|].
      apply (wp_ret _ _ _ i); [apply stable_advanced|]. by exists []. }
  clear s h HI Ho Hb b. intros _ s h _ (es & Ho & Hb & Hd). simpl.
  apply (wp_load i (fun _ h => doing i (OpReclaim m) es h) _ _ (fun s => global_epoch_ (mgr m s)));
    [done|apply stable_op|done|].
  clear s h Ho. intros s h Ho HI. rewrite (iv_epoch _ _ HI m Hm).
  assert (forall c es' s h, doing i (OpReclaim m) (es ++ es') h -> c = length (deletes m es') -> balanced m es' ->
    wp i (Ret (RCount c)) (Post ebr_good i) (s, h)) as Hret.
  { intros c es' s1 h1 Ho1 -> Hb1. apply (wp_result i (OpReclaim m) (es ++ es')); [done|].
    split; [by rewrite deletes_app, Hd|]. by apply balanced_app. }
  pose proof (iv_fits _ _ HI m) as Hfit. destruct (Z.leb_spec 2 (epoch_of m h)) as [H2|H2].
  - rewrite sub64_small by (unfold is_u64; lia).
    eapply wp_mono; [|apply (wp_gens i m (epoch_of m h) _ es); try done].
    + intros c s1 h1 _ (es' & Ho1 & Hc1 & Hb1). by apply (Hret c es').
    + unfold kNumGenerations. simpl. repeat (constructor; [lia|]). constructor.
  - apply (wp_ret _ _ _ i); [|apply (Hret 0%nat []); [by rewrite app_nil_r|done|done]].
    intros c c' Hr. apply (wp_rely _ _ _ i). by apply relations.rtc_once.
Qed.
Lemma wp_call i l s h : LI i l s h -> Inv s h -> wp i (call l) (Post ebr_good i) (s, h).
Proof.
  intros HL HI. pose proof HL as [Ho Hc]. destruct l as [tid m|tid m|m p d|m|m|m|m|tid m]; simpl in Hc.
  - destruct Hc as [-> Hm]. by apply wp_enter.
  - destruct Hc as [-> Hm]. by apply wp_exit.
  - by apply wp_retire.
  - by apply wp_reclaim.
  - simpl. apply (wp_load i (fun _ h => doing i (OpCurrentEpoch m) [] h) _ _ (fun s => global_epoch_ (mgr m s)));
      [done|apply stable_op|done|]. intros s1 h1 Ho1 _. apply (wp_result i (OpCurrentEpoch m) []); [done|]. simpl. eauto.
  - simpl. eapply (wp_load i (fun _ h => doing i (OpHasPending m) [] h)); [done|apply stable_op|done|].
    intros s1 h1 Ho1 _. apply (wp_result i (OpHasPending m) []); [done|]. simpl. eauto.
  - simpl. eapply (wp_load i (fun _ h => doing i (OpPendingCount m) [] h)); [done|apply stable_op|done|].
    intros s1 h1 Ho1 _. apply (wp_result i (OpPendingCount m) []); [done|]. simpl. eauto.
  - done.
Qed.

Lemma ebr_outline : proof_outline (fun o => o) body Inv Gr ebr_env LI ebr_good.
Proof.
  split.
  - intros i o s h HI _ (Hf & Hs & _). split_and!.
    + apply ebr_Gr_more. rewrite Forall_singleton. apply neutral_call.
    + by apply Inv_item.
    + apply Forall_app in Hf as [_ Hf]. rewrite Forall_singleton in Hf. split; [|done].
      by rewrite opview_call, decide_True.
  - intros i r s h HI _. split.
    + apply ebr_Gr_more. rewrite Forall_singleton. apply neutral_ret.
    + apply Inv_item; try done. apply serial_ret, (iv_serial _ _ HI).
  - intros i l s h HL HI. unfold body. apply wp_bind; [done|].
    eapply wp_mono; [|by apply wp_call]. intros r s1 h1 _ Hp. apply (wp_ret _ _ _ i); [apply stable_post|done].
Qed.

Lemma mgr_new m nthreads : mgr m (sys_new nm nthreads) = if decide (m < nm)%nat then EBRManager_new else inhabitant.
Proof.
  unfold mgr, sys_new. simpl. case_decide.
  - by rewrite lookup_total_replicate_2.
  - rewrite list_lookup_total_alt, lookup_ge_None_2; [done|]. rewrite length_replicate. lia.
Qed.

Lemma ebr_Inv_new nthreads : Inv (sys_new nm nthreads) [].
Proof.
  split; try (intros; by match goal with H : _ ∈ [] |- _ => apply elem_of_nil in H end).
  - simpl. apply length_replicate.
  - intros m Hm. by rewrite mgr_new, decide_True.
  - intros m Hm. by rewrite mgr_new, decide_True.
  - done.
  - done.
  - intros i a b. simpl. destruct (decide (i < nthreads)%nat) as [Hi|Hi].
    + by rewrite lookup_total_replicate_2.
    + rewrite list_lookup_total_alt, lookup_ge_None_2; [done|]. rewrite length_replicate. lia.
  - intros m a i h1 (h2 & Heq & _). by destruct h1.
  - intros m k node. rewrite mgr_new. case_decide.
    + destruct k as [|[|[|k]]]; intros Hin; by apply elem_of_nil in Hin.
    + intros Hin. by apply elem_of_nil in Hin.
  - intros m Hm. by rewrite mgr_new, decide_True.
  - split.
    + intros m a i h1 h2 h3 Heq (h4 & -> & _). by destruct h1.
    + intros m p k h' h'' Heq. by destruct h'.
Qed.

Lemma ebr_reach_inv nthreads threads cfg :
  reach (fun o => o) body ebr_env (sys_new nm nthreads) threads cfg ->
  Inv (shared cfg) (hist cfg) /\ Forall (fun '(o, es, r) => ebr_good o es r) (completed (hist cfg)).
Proof.
  intros Hr. by destruct (rg_adequacy _ _ _ _ _ _ _ ebr_outline (sys_new nm nthreads) threads cfg
    Gr_refl (ebr_Inv_new nthreads) Hr) as (HI & _ & Hg).
Qed.

Lemma quiet_or m a h : quiet m a h \/ exists j e, (e = EExit m a \/ e = EPin m a) /\ HLin j e ∈ h.
Proof.
  induction h as [|x h [IH|(j & e & He & Hin)]]; [left; constructor| |].
  - destruct x as [i o|i e|i r]; [left; by constructor| |left; by constructor].
    destruct (decide (e = EExit m a)) as [->|H1]; [right; exists i, (EExit m a); split; [by left|left]|].
    destruct (decide (e = EPin m a)) as [->|H2]; [right; exists i, (EPin m a); split; [by right|left]|].
    left. constructor; [|done]. intros j. split; congruence.
  - right. exists j, e. split; [done|by right].
Qed.

(** A section that began before the retirement and has not ended at the
    deletion would have let the epoch advance twice. *)
Lemma section_over s h m p k h0 h4 :
  Inv s h -> h = h0 ++ HLin k (EDelete m p) :: h4 ->
  exists hr j e hr', h0 = hr ++ HLin j (ERetire m p e) :: hr' /\
    forall i a h1 h2, hr = h1 ++ HLin i (EEnter m a) :: h2 ->
      exists e, (e = EExit m a \/ e = EPin m a) /\ HLin i e ∈ h2 ++ hr'.
Proof.
  intros HI ->. destruct (iv_hist _ _ HI) as [Hop Hdel].
  destruct (Hdel m p k h0 h4 eq_refl) as (e & (hr & j & hr' & -> & He) & Hge). exists hr, j, e, hr'. split; [done|].
  intros i a h1 h2 ->. set (h3 := h2 ++ HLin j (ERetire m p e) :: hr').
  destruct (quiet_or m a h3) as [Hq|(j' & e' & He' & Hin)].
  { assert (open m a i h1 ((h1 ++ HLin i (EEnter m a) :: h2) ++ HLin j (ERetire m p e) :: hr')) as Ho.
    { exists h3. split; [by rewrite <- app_assoc|done]. }
    pose proof (Hop m a i h1 _ _ eq_refl Ho) as Hle. pose proof (epoch_of_app m h1 (HLin i (EEnter m a) :: h2)).
    pose proof (epoch_of_nonneg m (HLin i (EEnter m a) :: h2)). lia. }
  assert (HLin i (ENew m a) ∈ ((h1 ++ HLin i (EEnter m a) :: h2) ++ HLin j (ERetire m p e) :: hr') ++
    HLin k (EDelete m p) :: h4) as Hi.
  { apply (iv_write _ _ HI i m a (EEnter m a)); [right; by left|]. rewrite !elem_of_app, elem_of_cons. tauto. }
  assert (HLin j' (ENew m a) ∈ ((h1 ++ HLin i (EEnter m a) :: h2) ++ HLin j (ERetire m p e) :: hr') ++
    HLin k (EDelete m p) :: h4) as Hj'.
  { apply (iv_write _ _ HI j' m a e'); [unfold writes; naive_solver|].
    unfold h3 in Hin. rewrite !elem_of_app, !elem_of_cons in *. tauto. }
  destruct (iv_own _ _ HI i j' m m a Hi Hj') as [<- _]. exists e'. split; [done|].
  unfold h3 in Hin. rewrite elem_of_app, elem_of_cons in Hin. rewrite elem_of_app.
  destruct Hin as [?|[[= _ ->]|?]]; [by left| |by right]. by destruct He'.
Qed.

End safety.

(** *** The conditions, as a test *)

Definition is_reclaim (o : ebr_op) : bool := match o with OpReclaim _ => true | _ => false end.

Definition call_okb (nm : nat) (i : nat) (o : ebr_op) : bool :=
  match o with
  | OpEnter tid m | OpExit tid m => (tid =? i)%nat && (m <? nm)%nat
  | OpRetire m _ _ | OpReclaim m | OpCurrentEpoch m | OpHasPending m | OpPendingCount m => (m <? nm)%nat
  | OpDestroy _ _ => false
  end.

Definition ebr_envb (nm n : nat) (s : sys) (h : ebr_hist) : bool :=
  forallb (fun x => match x with HCall i o => call_okb nm i o | _ => true end) h && aloneb is_reclaim n h &&
  (Z.of_nat (length h) <? two64).

Lemma epoch_of_le m h : epoch_of m h <= Z.of_nat (length h).
Proof.
  induction h as [|x h IH]; [done|]. change (x :: h) with ([x] ++ h). rewrite epoch_of_app, length_app.
  assert (epoch_of m [x] <= 1); [|simpl; lia]. destruct x; try done. unfold epoch_of, advances. simpl. by case_decide.
Qed.

Lemma ebr_envb_ok nm n s h : ebr_envb nm n s h = true -> ebr_env nm s h.
Proof.
  unfold ebr_envb. intros [[Hf Hl]%andb_true_iff Hz%Z.ltb_lt]%andb_true_iff. split_and!.
  - apply list.Forall_forall. intros x Hin%list_elem_of_In. apply (proj1 (forallb_forall _ _) Hf) in Hin.
    destruct x as [i o| |]; try done. destruct o; simpl in *; try done; try (by apply Nat.ltb_lt);
      apply andb_true_iff in Hin as [->%Nat.eqb_eq Hm%Nat.ltb_lt]; done.
  - intros i j m es es' Hi Hj. by apply (aloneb_ok is_reclaim n h i j _ _ es es' Hl Hi Hj).
  - intros m. pose proof (epoch_of_le m h). lia.
Qed.

(** ** Theorems *)



(** Thread 0 retires [42] while thread 1 is in a critical section; the node is
    deleted by the second [try_reclaim] after thread 1 has left. *)
Definition ebr_demo_schedule : list (nat * move ebr_op) :=
  [(1%nat, Call (OpEnter 1 0))] ++ go 1 6 ++ [(0%nat, Call (OpRetire 0 42 true))] ++ go 0 3 ++
  [(0%nat, Call (OpReclaim 0))] ++ go 0 7 ++ [(1%nat, Call (OpExit 1 0))] ++ go 1 4 ++
  [(0%nat, Call (OpReclaim 0))] ++ go 0 10.

Definition ebr_demo : config :=
  default (start (sys_new 1 2) 2) (scheds (fun o => o) body ebr_demo_schedule (start (sys_new 1 2) 2)).

Lemma ebr_demo_reach : reach (fun o => o) body (ebr_env 1) (sys_new 1 2) 2 ebr_demo.
Proof.
  apply (scheds_reach (fun o => o) body _ (ebr_envb 1 2) (sys_new 1 2) 2 ebr_demo_schedule (start (sys_new 1 2) 2)).
  - apply ebr_envb_ok.
  - constructor.
  - vm_compute. reflexivity.
  - vm_compute. reflexivity.
Qed.



(** C35. Two [try_reclaim] at a time break the safety of [EBRManager]: thread 0
    enters its critical section; thread 1 then retires [42]; threads 1 and 2
    both run the check of [try_reclaim] in epoch 0, which passes, and then both
    execute their [fetch_add]; the epoch is now 2, and [42] is deleted while
    thread 0 is still in the critical section that it entered before the node
    was retired (it has not even called [exit_critical]). *)
Theorem ebr_concurrent_reclaim_unsafe :
  let schedule := [(0%nat, Call (OpEnter 0 0))] ++ go 0 6 ++ [(1%nat, Call (OpRetire 0 42 true))] ++ go 1 3 ++
    [(1%nat, Call (OpReclaim 0))] ++ go 1 4 ++ [(2%nat, Call (OpReclaim 0))] ++ go 2 4 ++ go 1 1 ++ go 2 4 in
  let run := scheds (fun o => o) body schedule (start (sys_new 1 3) 3) in
  (hist <$> run) = Some
    [HCall 0 (OpEnter 0 0); HLin 0 (ENew 0 0); HLin 0 (EPin 0 0); HLin 0 (EEnter 0 0); HRet 0 RUnit;
     HCall 1 (OpRetire 0 42 true); HLin 1 (ERetire 0 42 0); HLin 1 (EPush 0 42 true); HRet 1 RUnit;
     HCall 1 (OpReclaim 0); HCall 2 (OpReclaim 0); HLin 1 (EAdvance 0); HLin 2 (EAdvance 0);
     HLin 2 (EPop 0 42 true); HLin 2 (EDelete 0 42)] /\
  ((fun c => active (state_at 0 (shared c))) <$> run) = Some true.
Proof. split; vm_compute; reflexivity. Qed.

(** Guards of two managers nested in one thread: [EpochGuard a(A); {
    EpochGuard b(B); }] followed by the end of the outer guard.  The
    thread-local state was replaced by that of [B], so [exit_critical] of [A]
    creates and clears a second state and the first one stays active.  From
    then on nothing retired in [A] is ever reclaimed: after one more advance,
    [try_reclaim] finds the stale state and leaves everything as it is, although
    no thread is in a critical section. *)
Theorem ebr_nested_managers_block :
  let s := (run (EpochGuard 0 0 (EpochGuard 0 1 (Ret tt))) [] (sys_new 2 1)).1.1 in
  let s1 := (run (bind (retire 0 42 true) (fun _ => try_reclaim 0)) [] s).1.1 in
  states s1 = [Some (mkThreadState 0 true 0); Some (mkThreadState 0 false 1); Some (mkThreadState 0 false 0)] /\
  concat (retired_ (mgr 0 s1)) = [mkNode 42 true 0] /\
  run (try_reclaim 0) [] s1 = (s1, [], 0%nat).
Proof. vm_compute. split_and!; reflexivity. Qed.

(** A thread that outlives a manager keeps a dangling [tls_state_]: the
    destructor deletes the states of all threads but resets the thread-local
    variables of the destroying thread only, so the next [enter_critical] of
    the other thread, on a manager that is alive, reads the owner of a deleted
    state. *)
Theorem ebr_dangling_tls :
  let schedule := [(1%nat, Call (OpEnter 1 0))] ++ go 1 6 ++ [(1%nat, Call (OpExit 1 0))] ++ go 1 4 ++
    [(0%nat, Call (OpDestroy 0 0))] ++ go 0 6 ++ [(1%nat, Call (OpEnter 1 1))] ++ go 1 3 in
  (completed ∘ hist <$> scheds (fun o => o) body schedule (start (sys_new 2 2) 2)) = Some
    [(OpEnter 1 0, [ENew 0 0; EPin 0 0; EEnter 0 0], RUnit); (OpExit 1 0, [EExit 0 0], RUnit);
     (OpDestroy 0 0, [], RUnit); (OpEnter 1 1, [], RUseAfterFree)].
Proof. vm_compute. reflexivity. Qed.

(** ** Progress *)

Section quiescent.
Context (m : nat).

Lemma run_check_quiet c sts w s :
  Forall (fun a => active (state_at a s) = false) sts -> run (can_advance_from c sts) w s = (s, w, true).
Proof. intros Hq. induction Hq as [|a sts Ha _ IH]; simpl; [done|]. by rewrite Ha. Qed.

Lemma run_delete nodes w s : run (delete_nodes m nodes) w s = (s, w, length (dead nodes)).
Proof.
  unfold dead, live. induction nodes as [|node nodes IH]; simpl; [done|].
  destruct (negb (ptr node =? 0) && deleter node); simpl; [|done]. by rewrite run_bind, IH.
Qed.

Lemma set_mgr_set x y s : set_mgr m x (set_mgr m y s) = set_mgr m x s.
Proof. unfold set_mgr. simpl. by rewrite list_insert_insert_eq. Qed.

Definition kept (safe : Z) (gen : list RetiredNode) := filter (fun node => ~ node_epoch node <= safe) gen.

Definition freed (safe : Z) (gen : list RetiredNode) := filter (fun node => node_epoch node <= safe) gen.

Lemma run_gens_cons safe i gens w s :
  run (reclaim_gens m safe (i :: gens)) w s =
  let '(s', nodes) := take_safe m i safe s in
  let '(s2, w2, c) := run (reclaim_gens m safe gens) w s' in (s2, w2, (length (dead nodes) + c)%nat).
Proof.
  change (reclaim_gens m safe (i :: gens)) with
    (bind (atomic_lin (take_safe m i safe) (fun l => pop_ev m <$> l)) (fun nodes =>
       bind (delete_nodes m nodes) (fun c => bind (reclaim_gens m safe gens) (fun c' => Ret (c + c')%nat)))).
  rewrite run_bind. simpl. destruct (take_safe m i safe s) as [s' nodes].
  rewrite run_bind, run_delete, run_bind. by destruct (run (reclaim_gens m safe gens) w s') as [[s2 w2] c].
Qed.

Lemma take_safe_eq g rs ts i safe s :
  mgr m s = mkManager g rs ts ->
  take_safe m i safe s = (set_mgr m (mkManager g (<[i := kept safe (rs !!! i)]> rs) ts) s, freed safe (rs !!! i)).
Proof. intros Hs. unfold take_safe. by rewrite Hs. Qed.

Lemma run_gens safe g ts g0 g1 g2 w s :
  (m < length (managers s))%nat -> mgr m s = mkManager g [g0; g1; g2] ts ->
  run (reclaim_gens m safe (seq 0 kNumGenerations)) w s =
  (set_mgr m (mkManager g [kept safe g0; kept safe g1; kept safe g2] ts) s, w,
   length (dead (freed safe g0 ++ freed safe g1 ++ freed safe g2))).
Proof.
  intros Hm Hs. change (seq 0 kNumGenerations) with [0; 1; 2]%nat.
  rewrite run_gens_cons, (take_safe_eq g [g0; g1; g2] ts) by done.
  rewrite run_gens_cons, (take_safe_eq g [kept safe g0; g1; g2] ts)
    by (rewrite mgr_set, decide_True by done; done).
  rewrite set_mgr_set, run_gens_cons, (take_safe_eq g [kept safe g0; kept safe g1; g2] ts)
    by (rewrite mgr_set, decide_True by done; done).
  rewrite set_mgr_set. change (run (reclaim_gens m safe []) w ?s) with (s, w, 0%nat). cbv zeta beta iota.
  f_equal. unfold dead. rewrite !fmap_app, !live_app, !length_app. simpl. lia.
Qed.

(** One call with nobody in a critical section. *)
Lemma run_reclaim_quiet g ts g0 g1 g2 w s :
  (m < length (managers s))%nat -> mgr m s = mkManager g [g0; g1; g2] ts -> 0 <= g -> g + 1 < two64 ->
  Forall (fun a => active (state_at a s) = false) ts ->
  let safe := g - 1 in
  run (try_reclaim m) w s =
  if 1 <=? g then
    (set_mgr m (mkManager (g + 1) [kept safe g0; kept safe g1; kept safe g2] ts) s, w,
     length (dead (freed safe g0 ++ freed safe g1 ++ freed safe g2)))
  else (set_mgr m (mkManager (g + 1) [g0; g1; g2] ts) s, w, 0%nat).
Proof.
  intros Hm Hs Hg Hfit Hq safe. unfold try_reclaim, can_advance_epoch. rewrite run_bind. simpl. rewrite Hs. simpl.
  rewrite run_check_quiet by done. simpl. rewrite Hs. simpl. rewrite add64_small by (unfold is_u64; lia).
  rewrite mgr_set, decide_True by done. simpl.
  destruct (Z.leb_spec 1 g), (Z.leb_spec 2 (g + 1)); try lia; [|done].
  rewrite sub64_small by (unfold is_u64; lia). replace (g + 1 - 2) with safe by (unfold safe; lia).
  rewrite (run_gens safe (g + 1) ts g0 g1 g2); [by rewrite set_mgr_set| |by rewrite mgr_set, decide_True].
  simpl. by rewrite length_insert.
Qed.

End quiescent.

Lemma kept_none safe gen : Forall (fun node => node_epoch node <= safe) gen -> kept safe gen = [] /\ freed safe gen = gen.
Proof.
  intros Hf. unfold kept, freed. induction Hf as [|node gen Hn _ [IH1 IH2]]; [done|].
  rewrite !filter_cons. rewrite decide_False by tauto. rewrite decide_True by done. by rewrite IH1, IH2.
Qed.

Lemma dead_app l k : length (dead (l ++ k)) = (length (dead l) + length (dead k))%nat.
Proof. unfold dead. by rewrite fmap_app, live_app, length_app. Qed.

Lemma dead_split safe gen :
  (length (dead (freed safe gen)) + length (dead (kept safe gen)))%nat = length (dead gen).
Proof.
  induction gen as [|node gen IH]; [done|]. change (node :: gen) with ([node] ++ gen) at 3. rewrite dead_app, <- IH.
  unfold freed, kept. rewrite !filter_cons. destruct (decide (node_epoch node <= safe)) as [Hle|Hgt].
  - rewrite (decide_False (P := ~ node_epoch node <= safe)) by tauto.
    change (node :: ?l) with ([node] ++ l) at 1. rewrite dead_app. lia.
  - rewrite (decide_True (P := ~ node_epoch node <= safe)) by done.
    change (node :: ?l) with ([node] ++ l) at 1. rewrite dead_app. lia.
Qed.

Lemma kept_forall (P : RetiredNode -> Prop) safe gen : Forall P gen -> Forall P (kept safe gen).
Proof. intros Hf. apply list.Forall_forall. intros node [_ Hin]%list_elem_of_filter. by apply (proj1 (list.Forall_forall _ _) Hf). Qed.

(** C34. Progress of [EBRManager]: when no registered thread is in a critical
    section, two calls of [try_reclaim] reclaim every pending node, whatever
    its epoch: all three generations are empty afterwards, and the two results
    add up to the number of pending nodes with a pointer and a deleter. *)
Theorem ebr_quiescent_reclaim m g ts g0 g1 g2 w s :
  (m < length (managers s))%nat -> mgr m s = mkManager g [g0; g1; g2] ts -> 0 <= g -> g + 2 < two64 ->
  Forall (fun a => active (state_at a s) = false) ts ->
  Forall (fun node => node_epoch node <= g) (g0 ++ g1 ++ g2) ->
  let '(s1, w1, c1) := run (try_reclaim m) w s in
  let '(s2, w2, c2) := run (try_reclaim m) w1 s1 in
  mgr m s2 = mkManager (g + 2) [[]; []; []] ts /\ (c1 + c2)%nat = length (dead (g0 ++ g1 ++ g2)).
Proof.
  intros Hm Hs Hg Hfit Hq Hold. rewrite (run_reclaim_quiet m g ts g0 g1 g2) by (done || lia).
  apply Forall_app in Hold as [H0 [H1 H2]%Forall_app].
  destruct (Z.leb_spec 1 g) as [Hg1|Hg1].
  - set (s1 := set_mgr _ _ s). set (safe := g - 1) in *.
    rewrite (run_reclaim_quiet m (g + 1) ts (kept safe g0) (kept safe g1) (kept safe g2));
      [|unfold s1; simpl; by rewrite length_insert|unfold s1; by rewrite mgr_set, decide_True|lia|lia|done].
    destruct (Z.leb_spec 1 (g + 1)); [|lia]. replace (g + 1 - 1) with g by lia.
    destruct (kept_none g _ (kept_forall _ safe _ H0)) as [-> ->], (kept_none g _ (kept_forall _ safe _ H1)) as [-> ->],
      (kept_none g _ (kept_forall _ safe _ H2)) as [-> ->].
    split; [unfold s1; rewrite set_mgr_set, mgr_set, decide_True by done; f_equal; lia|].
    rewrite !dead_app, <- (dead_split safe g0), <- (dead_split safe g1), <- (dead_split safe g2). lia.
  - set (s1 := set_mgr _ _ s).
    rewrite (run_reclaim_quiet m (g + 1) ts g0 g1 g2);
      [|unfold s1; simpl; by rewrite length_insert|unfold s1; by rewrite mgr_set, decide_True|lia|lia|done].
    destruct (Z.leb_spec 1 (g + 1)); [|lia]. replace (g + 1 - 1) with g by lia.
    destruct (kept_none g _ H0) as [-> ->], (kept_none g _ H1) as [-> ->], (kept_none g _ H2) as [-> ->].
    split; [unfold s1; rewrite set_mgr_set, mgr_set, decide_True by done; f_equal; lia|lia].
Qed.

Lemma ebr_quiescent_reclaim_witness :
  let s := (run (bind (enter_critical 0 0) (fun _ => bind (retire 0 7 true) (fun _ => exit_critical 0 0))) []
              (sys_new 1 1)).1.1 in
  mgr 0 s = mkManager 0 [[mkNode 7 true 0]; []; []] [0%nat] /\
  let '(s1, w1, c1) := run (try_reclaim 0) [] s in
  let '(s2, w2, c2) := run (try_reclaim 0) w1 s1 in
  mgr 0 s2 = mkManager (0 + 2) [[]; []; []] [0%nat] /\ (c1 + c2)%nat = 1%nat.
Proof.
  split; [vm_compute; reflexivity|].
  apply (ebr_quiescent_reclaim 0 0 [0%nat] [mkNode 7 true 0] [] []).
  - vm_compute. lia.
  - vm_compute. reflexivity.
  - lia.
  - vm_compute. reflexivity.
  - repeat constructor.
  - repeat constructor. simpl. lia.
Defined.
