(* ===== verification/PoolMap.v ===== *)
(** * PoolMap: the object pool with a map of per-thread caches

    Models [ObjectPoolMap<T>] ([include/lscq/object_pool_map.hpp]): the core of
    [Pool], a map from thread identifiers to one cached pointer each, and the
    closing gate ([closing_], [active_ops_]) that [Clear] uses to keep out the
    other operations.

    A critical section of the exclusive lock is one node.  Under the shared lock
    the map keeps its keys, so the look-up and the access to the slot are one
    node.  [active_ops_] is an [int] and wraps at its width.

    The store of [closing_] in [Clear] is a release store and the load of
    [active_ops_] after it an acquire load.  The parameter [ord] says what this
    means ([store_order]): with [RelAcq] the store may still be in the store
    buffer ([ClearBuffered]) while the loop reads [active_ops_], and takes effect
    at the latest when [cache_mutex_] is taken.

    [GAdd], [GBack], [GIn] and [GOut] annotate the accesses of [OpGuard]: the
    increment, the decrement after a failed recheck, the recheck that succeeds
    and the decrement of the destructor; [CIn] and [COut] enclose the clearing. *)

From stdpp Require Import base list numbers option gmap.
From Stdlib Require Import ZArith Lia.
From S2P Require Import Prelude Conc Pool.

Local Open Scope Z_scope.

Inductive mev : Type :=
| MCore (e : pev)
| GAdd
| GBack
| GIn
| GOut
| CIn
| COut.

Inductive map_op : Set :=
| OpGet (tid hash : nat)
| OpPut (tid hash : nat) (obj : Z)
| OpClear
| OpSize.

Section map.
Context {F : Type} (factory_ : option (F -> F * Z)) (destroy : Z -> F -> F) (nshards : nat) (ord : store_order).

Record mpool := mkMap {
  core : pool F;
  caches_ : gmap nat Z;
  active_ops_ : Z;
  closing_ : bool
}.

Definition ObjectPoolMap_new (shard_count : nat) (f : F) : mpool :=
  mkMap (ObjectPoolCore_new shard_count f) ∅ 0 false.

Definition set_core (p : pool F) (s : mpool) : mpool :=
  mkMap p (caches_ s) (active_ops_ s) (closing_ s).

Definition set_caches (m : gmap nat Z) (s : mpool) : mpool :=
  mkMap (core s) m (active_ops_ s) (closing_ s).

(** ** Accesses *)

Definition load_closing (s : mpool) : mpool * bool := (s, closing_ s).

Definition store_closing (b : bool) (s : mpool) : mpool * unit :=
  (mkMap (core s) (caches_ s) (active_ops_ s) b, tt).

Definition load_active (s : mpool) : mpool * Z := (s, active_ops_ s).

Definition add_active (d : Z) (s : mpool) : mpool * unit :=
  (mkMap (core s) (caches_ s) (i32 (active_ops_ s + d)) (closing_ s), tt).

(** [caches_.find(tid)] and, when found, [private_obj.exchange(nullptr)]. *)
Definition exchange_cache (tid : nat) (s : mpool) : mpool * Z :=
  match caches_ s !! tid with
  | Some x => (set_caches (<[tid := 0]> (caches_ s)) s, x)
  | None => (s, 0)
  end.

(** [caches_.find(tid)] and, when found, [compare_exchange_strong(nullptr, obj)]:
    [None] when there is no entry. *)
Definition cas_cache (tid : nat) (obj : Z) (s : mpool) : mpool * option bool :=
  match caches_ s !! tid with
  | Some x => if x =? 0 then (set_caches (<[tid := obj]> (caches_ s)) s, Some true) else (s, Some false)
  | None => (s, None)
  end.

(** [try_emplace(tid)], then the same exchange, under the exclusive lock. *)
Definition emplace_cache (tid : nat) (obj : Z) (s : mpool) : mpool * bool :=
  let m := match caches_ s !! tid with Some _ => caches_ s | None => <[tid := 0]> (caches_ s) end in
  if default 0 (m !! tid) =? 0 then (set_caches (<[tid := obj]> m) s, true) else (set_caches m s, false).

(** The objects in the caches. *)
Definition cached (m : gmap nat Z) : list Z := filter (fun x => x <> 0) ((map_to_list m).*2).

(** The loop of [Clear] over the map, under the exclusive lock. *)
Definition clear_caches (s : mpool) : mpool * list Z :=
  let xs := cached (caches_ s) in
  (mkMap (mkPool (shards_ (core s)) (foldl (fun f x => destroy x f) (client (core s)) xs))
     ((fun _ => 0) <$> caches_ s) (active_ops_ s) (closing_ s), xs).

Definition load_keys (s : mpool) : mpool * list nat := (s, (map_to_list (caches_ s)).*1).

Definition load_cache (tid : nat) (s : mpool) : mpool * Z := (s, default 0 (caches_ s !! tid)).

(** ** Operations *)

Inductive label : Set :=
| Entry (o : map_op)
| Guard (o : map_op)
| Run (o : map_op)
| ClearBuffered
| ClearWait.

Abbreviation mprog := (prog mpool mev).

Definition on_core {A} (p : prog (pool F) pev A) : mprog A := lift core set_core MCore p.

(** The constructor of [OpGuard]: one turn of its loop. *)
Definition guard_loop (o : map_op) : mprog (label + pool_res) :=
  (let! closing := atomic load_closing in
   if (closing : bool) then Ret (inl (Guard o))
   else
     do! atomic_lin (add_active 1) (fun _ => [GAdd]);
     let! closing := atomic_lin load_closing (fun closing : bool => if closing then [] else [GIn]) in
     if negb closing then Ret (inl (Run o))
     else
       do! atomic_lin (add_active (-1)) (fun _ => [GBack]);
       Ret (inl (Guard o)))%prog.

(** The destructor of [OpGuard]. *)
Definition guard_exit {A} (p : mprog A) : mprog A :=
  (let! r := p in do! atomic_lin (add_active (-1)) (fun _ => [GOut]); Ret r)%prog.

Definition Get_body (tid hash : nat) : mprog Z :=
  (let! cached := atomic_lin (exchange_cache tid) (fun x => MCore <$> took x) in
   if negb (cached =? 0) then Ret cached else on_core (GetShared factory_ nshards hash))%prog.

Definition Put_body (tid hash : nat) (obj : Z) : mprog unit :=
  (let! r := atomic_lin (cas_cache tid obj)
               (fun r => match r with Some true => [MCore (PStore obj)] | _ => [] end) in
   match r with
   | Some true => Ret tt
   | Some false => on_core (PutShared nshards hash obj)
   | None =>
       let! ok := atomic_lin (emplace_cache tid obj)
                    (fun ok : bool => if ok then [MCore (PStore obj)] else []) in
       if (ok : bool) then Ret tt else on_core (PutShared nshards hash obj)
   end)%prog.

Fixpoint count_caches (tids : list nat) (local : Z) : mprog Z :=
  match tids with
  | [] => Ret local
  | tid :: tids =>
      (let! x := atomic (load_cache tid) in
       count_caches tids (if negb (x =? 0) then local + 1 else local))%prog
  end.

Definition Size_body : mprog Z :=
  (let! tids := atomic load_keys in
   let! local := count_caches tids 0 in
   let! n := on_core (SizeApprox nshards) in
   Ret (add64 n local))%prog.

Definition run_op (o : map_op) : mprog pool_res :=
  match o with
  | OpGet tid hash => (let! x := Get_body tid hash in Ret (RPtr x))%prog
  | OpPut tid hash obj => (do! Put_body tid hash obj; Ret RUnit)%prog
  | OpSize => (let! n := Size_body in Ret (RSize n))%prog
  | OpClear => Ret RUnit
  end.

(** [Clear], after its waiting loop. *)
Definition clear_rest : mprog (label + pool_res) :=
  (do! atomic_lin clear_caches (fun xs => MCore <$> (PDrop <$> xs));
   do! on_core (ClearShared destroy nshards);
   do! atomic_lin (store_closing false) (fun _ => [COut]);
   Ret (inr RUnit))%prog.

(** One turn of the waiting loop, with the store of [closing_] done. *)
Definition clear_wait : mprog (label + pool_res) :=
  (let! n := atomic_lin load_active (fun n => if n =? 0 then [CIn] else []) in
   if negb (n =? 0) then Ret (inl ClearWait) else clear_rest)%prog.

(** One turn of the waiting loop, with the store of [closing_] in the store
    buffer: it takes effect now, or the turn is done first. *)
Definition clear_buffered : mprog (label + pool_res) :=
  (let! drains := choose in
   if (drains : bool) then do! atomic (store_closing true); Ret (inl ClearWait)
   else
     let! n := atomic_lin load_active (fun n => if n =? 0 then [CIn] else []) in
     if negb (n =? 0) then Ret (inl ClearBuffered)
     else do! atomic (store_closing true); clear_rest)%prog.

Definition Clear_start : mprog (label + pool_res) :=
  match ord with
  | SeqCst => (do! atomic (store_closing true); Ret (inl ClearWait))%prog
  | RelAcq => Ret (inl ClearBuffered)
  end.

Definition body (l : label) : mprog (label + pool_res) :=
  match l with
  | Entry (OpPut tid hash obj) =>
      if obj =? 0 then Ret (inr RUnit) else Ret (inl (Guard (OpPut tid hash obj)))
  | Entry OpClear => Clear_start
  | Entry o => Ret (inl (Guard o))
  | Guard o => guard_loop o
  | Run o => (let! r := guard_exit (run_op o) in Ret (inr r))%prog
  | ClearBuffered => clear_buffered
  | ClearWait => clear_wait
  end.

(** The destructor is [Clear]. *)
Definition ObjectPoolMap_destroy : label := Entry OpClear.

End map.

Arguments mpool F : clear implicits.
