(* ===== verification/PoolMapProofs.v ===== *)
(** * PoolMapProofs: ownership and the closing gate of [ObjectPoolMap]

    [map_pool_ownership]: no object is lost, invented or handed out twice,
    whatever the interleaving.  [map_clear_gate]: with one [Clear] at a time, no
    operation is between its guard's entry and exit while [Clear] clears. *)

From stdpp Require Import base list numbers option gmap.
From Stdlib Require Import ZArith Lia.
From S2P Require Import Prelude Conc Pool PoolProofs PoolMap.

Local Open Scope Z_scope.

Abbreviation map_hist := (list (hev mev map_op pool_res)).

(** ** What the history determines *)

Definition core_evs (es : list mev) : list pev :=
  omap (fun e => match e with MCore e => Some e | _ => None end) es.

Lemma map_core_evs_app es fs : core_evs (es ++ fs) = core_evs es ++ core_evs fs.
Proof. apply omap_app. Qed.

Lemma map_core_evs_core es : core_evs (MCore <$> es) = es.
Proof. unfold core_evs. induction es as [|e es IH]; [done|]. csimpl. by f_equal. Qed.

Definition holders (h : map_hist) : list nat :=
  region (fun e => match e with GAdd => true | _ => false end)
         (fun e => match e with GBack | GOut => true | _ => false end) h.

Definition insiders (h : map_hist) : list nat :=
  region (fun e => match e with GIn => true | _ => false end)
         (fun e => match e with GOut => true | _ => false end) h.

Definition clearers (h : map_hist) : list nat :=
  region (fun e => match e with CIn => true | _ => false end)
         (fun e => match e with COut => true | _ => false end) h.

Lemma gate_core h i es :
  holders (h ++ (HLin i <$> (MCore <$> es))) = holders h /\
  insiders (h ++ (HLin i <$> (MCore <$> es))) = insiders h /\
  clearers (h ++ (HLin i <$> (MCore <$> es))) = clearers h.
Proof. split_and!; apply region_quiet, list.Forall_fmap, list.Forall_true; by intros e. Qed.

(** Whether a thread that has emitted [es] is counted in [active_ops_]. *)
Definition gate_open (es : list mev) : bool :=
  foldl (fun b e => match e with GAdd => true | GBack | GOut => false | _ => b end) false es.

Lemma gate_open_core es fs : gate_open (es ++ (MCore <$> fs)) = gate_open es.
Proof. unfold gate_open. rewrite foldl_app. generalize (foldl (fun b e => match e with GAdd => true | GBack | GOut => false | _ => b end) false es). induction fs as [|f fs IH]; intros b; [done|]. apply IH. Qed.

Lemma gate_open_snoc es e :
  gate_open (es ++ [e]) = match e with GAdd => true | GBack | GOut => false | _ => gate_open es end.
Proof. unfold gate_open. by rewrite foldl_app. Qed.

(** ** The caches *)

Lemma cached_new m tid x : m !! tid = None -> cached (<[tid := x]> m) ≡ₚ one x ++ cached m.
Proof.
  intros Hm. unfold cached, one. rewrite map_to_list_insert by done. simpl. rewrite filter_cons.
  destruct (Z.eqb_spec x 0); [by rewrite decide_False by tauto|by rewrite decide_True].
Qed.

Lemma cached_update m tid x y :
  m !! tid = Some x -> one x ++ cached (<[tid := y]> m) ≡ₚ one y ++ cached m.
Proof.
  intros Hm. rewrite <- insert_delete_eq, cached_new by apply lookup_delete_eq.
  assert (cached m ≡ₚ one x ++ cached (delete tid m)) as ->.
  { rewrite <- cached_new by apply lookup_delete_eq. by rewrite insert_delete_id. }
  solve_Permutation.
Qed.

Lemma cached_zero (m : gmap nat Z) : cached ((fun _ => 0) <$> m) = [].
Proof.
  unfold cached. rewrite map_to_list_fmap. induction (map_to_list m) as [|[k x] l IH]; [done|]. csimpl.
  rewrite filter_cons, decide_False by tauto. done.
Qed.

(** ** The invariant *)

Section proofs.
Context {F : Type} (factory_ : option (F -> F * Z)) (destroy : Z -> F -> F) (nshards : nat).
Hypothesis (Hns : (0 < nshards)%nat).

(** Whether the gate is to hold: then the clients run at most one [Clear] at a
    time and the store of [closing_] is ordered before the load of [active_ops_]. *)
Context (strict : bool) (ord : store_order).
Hypothesis (Hord : strict = true -> ord = SeqCst).

Abbreviation mpool := (mpool F).

Definition clear_serial (h : map_hist) : Prop :=
  forall i j es es', opview i h = Some (OpClear, es) -> opview j h = Some (OpClear, es') -> i = j.

(** Fewer than [2^31] operations at a time, so that [active_ops_] does not
    overflow. *)
Definition map_env (s : mpool) (h : map_hist) : Prop :=
  Z.of_nat (length (holders h)) < 2147483648 /\ (strict = true -> clear_serial h).

Definition owned (s : mpool) : list Z := stored (shards_ (core s)) ++ cached (caches_ s).

Record Inv (s : mpool) (h : map_hist) : Prop := {
  pm_wf : pool_wf nshards (core s);
  pm_own : stores (core_evs (events h)) ≡ₚ
    takes (core_evs (events h)) ++ drops (core_evs (events h)) ++ owned s;
  pm_nodup : NoDup (holders h);
  pm_active : active_ops_ s = Z.of_nat (length (holders h));
  pm_bound : Z.of_nat (length (holders h)) < 2147483648;
  pm_holder i : i ∈ holders h -> exists o es, opview i h = Some (o, es) /\ gate_open es = true;
  pm_inside i : i ∈ insiders h -> i ∈ holders h;
  pm_clearer i : i ∈ clearers h -> exists es, opview i h = Some (OpClear, es) /\ COut ∉ es;
  pm_gate : strict = true -> clear_serial h /\ (clearers h <> [] -> closing_ s = true /\ insiders h = [])
}.

(** Only a thread in [Clear] writes [closing_]. *)
Definition Gr (i : nat) (c c' : mpool * map_hist) : Prop :=
  closing_ c'.1 = closing_ c.1 \/ exists es, opview i c.2 = Some (OpClear, es).

Definition map_good (o : map_op) (es : list mev) (r : pool_res) : Prop :=
  gate_open es = false /\
  match o with
  | OpGet _ _ => exists x, r = RPtr x /\ get_evs factory_ x (core_evs es)
  | OpPut _ _ x => r = RUnit /\ core_evs es = if x =? 0 then [] else [PStore x]
  | OpClear => r = RUnit /\ COut ∈ es /\ exists ds, core_evs es = PDrop <$> ds
  | OpSize => (exists n, r = RSize n) /\ core_evs es = []
  end.

(** What a thread knows: it runs [o], has moved the objects of [es], and its
    place with respect to the gate. *)
Definition at_gate (i : nat) (o : map_op) (held inside : bool) (es : list pev) (h : map_hist) : Prop :=
  (exists fs, opview i h = Some (o, fs) /\ core_evs fs = es /\ (COut ∉ fs) /\ gate_open fs = held) /\
  (i ∈ holders h <-> held = true) /\ (i ∈ insiders h <-> inside = true).

(** The operations that pass the gate. *)
Definition guarded (o : map_op) : Prop :=
  match o with OpClear => False | OpPut _ _ x => x <> 0 | _ => True end.

Definition LI (i : nat) (l : label) (s : mpool) (h : map_hist) : Prop :=
  match l with
  | Entry o => at_gate i o false false [] h
  | Guard o => at_gate i o false false [] h /\ guarded o
  | Run o => at_gate i o true true [] h /\ guarded o
  | ClearBuffered => at_gate i OpClear false false [] h /\ strict = false
  | ClearWait => at_gate i OpClear false false [] h /\ (strict = true -> closing_ s = true)
  end.

Abbreviation stable := (stable Inv Gr).
Abbreviation wp := (wp Inv Gr map_env).
Abbreviation Q := (Qloop LI map_good).

Lemma stable_at_gate i o held inside es : stable i (fun _ h => at_gate i o held inside es h).
Proof.
  intros c c' (j & Hj & Hh & _) ((fs & Ho & Hfs) & H1 & H2). split_and!.
  - exists fs. by rewrite (hist_step_view j i c.2 c'.2).
  - unfold holders. rewrite (hist_step_region _ _ j i c.2 c'.2) by done. done.
  - unfold insiders. rewrite (hist_step_region _ _ j i c.2 c'.2) by done. done.
Qed.

(** While thread [i] is in [Clear], nobody else writes [closing_]. *)
Lemma stable_closing i held inside es :
  stable i (fun s h => at_gate i OpClear held inside es h /\ (strict = true -> closing_ s = true)).
Proof.
  intros c c' Hr [Ha Hc]. split; [by apply (stable_at_gate i OpClear held inside es c c')|]. intros Hs.
  destruct Hr as (j & Hj & Hh & HG & HI & _). destruct Ha as ((fs & Ho & _) & _).
  destruct HG as [->|[fs' Hj']]; [auto|].
  destruct (pm_gate _ _ HI Hs) as [Hser _]. by destruct (Hj (Hser j i _ _ Hj' Ho)).
Qed.

Lemma map_stable_LI i l : stable i (LI i l).
Proof.
  destruct l as [o|o|o| |]; unfold LI.
  - apply stable_at_gate.
  - apply stable_and; [apply stable_at_gate|apply stable_pure].
  - apply stable_and; [apply stable_at_gate|apply stable_pure].
  - apply stable_and; [apply stable_at_gate|apply stable_pure].
  - apply stable_closing.
Qed.

Lemma map_wp_jump i l s h : LI i l s h -> wp i (Ret (inl l)) (Q i) (s, h).
Proof. intros HL. apply (wp_ret _ _ _ i); [apply map_stable_LI|done]. Qed.

Lemma map_wp_done i o held inside es r s h :
  at_gate i o held inside es h -> (forall fs, core_evs fs = es -> gate_open fs = held -> map_good o fs r) ->
  wp i (Ret (inr r)) (Q i) (s, h).
Proof.
  intros ((fs & Ho & Hfs & _ & Hc) & _) Hg. apply (wp_ret _ _ _ i); [apply stable_post|]. exists o, fs. auto.
Qed.

(** ** The steps *)

Lemma clear_serial_lin h i es : clear_serial h -> clear_serial (h ++ (HLin i <$> es)).
Proof.
  intros Hs j j' fs fs' [gs Hg]%opview_lin_op [gs' Hg']%opview_lin_op. by apply (Hs j j' gs gs').
Qed.

(** Objects move; the gate stays as it is. *)
Lemma map_Inv_move s s' h i es :
  Inv s h -> pool_wf nshards (core s') -> active_ops_ s' = active_ops_ s -> closing_ s' = closing_ s ->
  stores es ++ owned s ≡ₚ takes es ++ drops es ++ owned s' ->
  Inv s' (h ++ (HLin i <$> (MCore <$> es))).
Proof.
  intros HI Hw Ha Hc Hp. destruct (gate_core h i es) as (G1 & G2 & G3). destruct HI.
  split; rewrite ?G1, ?G2, ?G3, ?Ha, ?Hc; try done.
  - rewrite events_app, events_lin, map_core_evs_app, map_core_evs_core, stores_app, takes_app, drops_app, pm_own0.
    by apply perm_exchange.
  - intros j Hj. destruct (pm_holder0 j Hj) as (o & fs & Ho & Hn). rewrite opview_lin. case_decide; [|eauto].
    subst. rewrite Ho. eexists _, _. split; [done|]. by rewrite gate_open_core.
  - intros j Hj. destruct (pm_clearer0 j Hj) as (fs & Ho & Hn). rewrite opview_lin. case_decide; [|eauto].
    subst. rewrite Ho. eexists. split; [done|]. intros [?|Hin]%elem_of_app; [done|].
    by apply list_elem_of_fmap in Hin as (e & [=] & _).
  - intros Hs. destruct (pm_gate0 Hs) as [H1 H2]. split; [by apply clear_serial_lin|done].
Qed.

Lemma at_gate_core i o held inside es ev h :
  at_gate i o held inside es h -> at_gate i o held inside (es ++ ev) (h ++ (HLin i <$> (MCore <$> ev))).
Proof.
  intros ((fs & Ho & Hfs & Hn & Hg) & H1 & H2). destruct (gate_core h i ev) as (G1 & G2 & _).
  split; [|by rewrite G1, G2]. exists (fs ++ (MCore <$> ev)). rewrite opview_lin, decide_True, Ho by done.
  split; [done|]. rewrite map_core_evs_app, map_core_evs_core, Hfs, gate_open_core. split; [done|]. split; [|done].
  intros [?|Hin]%elem_of_app; [done|]. by apply list_elem_of_fmap in Hin as (e & [=] & _).
Qed.

#[local] Arguments on_core : simpl never.

(** A program of the core. *)
Lemma map_wp_on_core {A} i o held inside es (p : prog (pool F) pev A) R s h :
  at_gate i o held inside es h -> posts (pool_wf nshards) (core_step nshards) p R [] ->
  wp i (on_core p) (fun x s h => exists ev, R ev x /\ at_gate i o held inside (es ++ ev) h) (s, h).
Proof.
  intros Ha Hp. apply (wp_lift _ _ _ i core set_core MCore (pool_wf nshards) (core_step nshards)
    (fun ev _ h => at_gate i o held inside (es ++ ev) h) p R []).
  - intros s1 h1 HI. apply (pm_wf _ _ HI).
  - intros ev. apply stable_at_gate.
  - intros ev s1 h1 p' ev' Ha1 HI [Hst Hw] _. split_and!.
    + by left.
    + apply (map_Inv_move s1); try done. unfold owned. simpl. rewrite app_assoc, Hst. solve_Permutation.
    + rewrite app_assoc. by apply at_gate_core.
  - by rewrite app_nil_r.
  - done.
Qed.

(** An access to a cache slot that moves [ev x]. *)
Lemma map_wp_cache {A} i o held inside es (X : Set) f ev lin (k : X -> prog mpool mev A) QQ s h :
  (forall x, lin x = MCore <$> ev x) -> at_gate i o held inside es h ->
  (forall s s' x, f s = (s', x) -> exists m, s' = set_caches m s /\
     stores (ev x) ++ cached (caches_ s) ≡ₚ takes (ev x) ++ drops (ev x) ++ cached m) ->
  (forall s s' x s1 h1, f s = (s', x) -> at_gate i o held inside (es ++ ev x) h1 -> Inv s1 h1 ->
     wp i (k x) QQ (s1, h1)) ->
  wp i (Act X f lin k) QQ (s, h).
Proof.
  intros Hlin Ha Hf Hk. apply (wp_act _ _ _ i (fun _ h => at_gate i o held inside es h));
    [apply stable_at_gate|done|]. clear s h Ha. intros s h s2 x Ha HI Hfx _. rewrite Hlin.
  destruct (Hf s s2 x Hfx) as (m & -> & Hp).
  assert (Inv (set_caches m s) (h ++ (HLin i <$> (MCore <$> ev x)))) as HI'.
  { apply (map_Inv_move s); try done; [apply (pm_wf _ _ HI)|]. unfold owned. simpl.
    transitivity (stored (shards_ (core s)) ++ (stores (ev x) ++ cached (caches_ s))); [solve_Permutation|].
    rewrite Hp. solve_Permutation. }
  split_and!; [by left|done|]. apply (Hk s (set_caches m s)); [done|by apply at_gate_core|done].
Qed.

Lemma wp_get i tid hash s h :
  at_gate i (OpGet tid hash) true true [] h -> Inv s h ->
  wp i (Get_body factory_ nshards tid hash)
    (fun x _ h => exists es, get_evs factory_ x es /\ at_gate i (OpGet tid hash) true true es h) (s, h).
Proof.
  intros Ha _. unfold Get_body. simpl. apply (map_wp_cache i (OpGet tid hash) true true [] Z (exchange_cache tid) took);
    [done|done| |].
  - intros s1 s2 x. destruct (stores_one x) as (-> & -> & ->). unfold exchange_cache.
    destruct (caches_ s1 !! tid) as [y|] eqn:Ec; intros [= <- <-].
    + eexists. split; [done|]. by rewrite (cached_update _ _ _ 0 Ec).
    + exists (caches_ s1). split; [by destruct s1|done].
  - intros s1 s2 x s3 h3 _ Ha3 _. unfold took in Ha3. destruct (Z.eqb_spec x 0) as [->|Hx]; simpl.
    + eapply wp_mono; [|by apply map_wp_on_core; [|by apply posts_get]].
      intros x s4 h4 _ (ev & (ev' & -> & Hev) & Ha4). by exists ev'.
    + apply (wp_ret _ _ _ i); [|exists [PTake x]; split; [by left|done]].
      intros c c' Hr (es & He & Hc). exists es. split; [done|]. by apply (stable_at_gate i _ _ _ es c c').
Qed.

Lemma wp_put_shared i tid hash x s h :
  at_gate i (OpPut tid hash x) true true [] h -> x <> 0 ->
  wp i (on_core (PutShared nshards hash x)) (fun _ _ h => at_gate i (OpPut tid hash x) true true [PStore x] h) (s, h).
Proof.
  intros Ha Hx. eapply wp_mono; [|by apply map_wp_on_core; [|by apply posts_put]].
  intros _ s1 h1 _ (ev & -> & Ha1). by destruct (Z.eqb_spec x 0).
Qed.

Lemma map_wp_put i tid hash x s h :
  at_gate i (OpPut tid hash x) true true [] h -> x <> 0 ->
  wp i (Put_body nshards tid hash x) (fun _ _ h => at_gate i (OpPut tid hash x) true true [PStore x] h) (s, h).
Proof.
  intros Ha Hx. unfold Put_body. simpl. assert (one x = [x]) as H1 by (unfold one; by destruct (Z.eqb_spec x 0)).
  apply (map_wp_cache i (OpPut tid hash x) true true [] (option bool) (cas_cache tid x)
    (fun r => match r with Some true => [PStore x] | _ => [] end)); [by intros [[|]|]|done| |].
  - intros s1 s2 r. unfold cas_cache. destruct (caches_ s1 !! tid) as [y|] eqn:Ec; [|intros [= <- <-]; exists (caches_ s1); by destruct s1].
    destruct (Z.eqb_spec y 0) as [->|]; intros [= <- <-]; [|exists (caches_ s1); by destruct s1].
    eexists. split; [done|]. simpl. pose proof (cached_update _ _ _ x Ec) as Hu. rewrite H1 in Hu. by rewrite Hu.
  - intros s1 s2 r s3 h3 _ Ha3 _. destruct r as [[|]|]; simpl in Ha3.
    + apply (wp_ret _ _ _ i); [apply stable_at_gate|done].
    + by apply wp_put_shared.
    + apply (map_wp_cache i (OpPut tid hash x) true true [] bool (emplace_cache tid x)
        (fun ok : bool => if ok then [PStore x] else [])); [by intros [|]|done| |].
      * intros s4 s5 ok. unfold emplace_cache.
        set (m := match caches_ s4 !! tid with Some _ => caches_ s4 | None => <[tid := 0]> (caches_ s4) end).
        assert (exists y, m !! tid = Some y /\ cached m ≡ₚ cached (caches_ s4)) as (y & Hy & Hm).
        { unfold m. destruct (caches_ s4 !! tid) as [y|] eqn:Ec; [by exists y|].
          exists 0. split; [apply lookup_insert_eq|]. by rewrite cached_new. }
        clearbody m. rewrite Hy. simpl. destruct (Z.eqb_spec y 0) as [->|]; intros [= <- <-];
          (eexists; split; [done|]); simpl; [|by rewrite Hm].
        pose proof (cached_update _ _ _ x Hy) as Hu. rewrite H1 in Hu. simpl in Hu. by rewrite Hu, Hm.
      * intros s4 s5 ok s6 h6 _ Ha6 _. destruct ok; simpl in Ha6.
        -- apply (wp_ret _ _ _ i); [apply stable_at_gate|done].
        -- by apply wp_put_shared.
Qed.

Lemma wp_count i es tids n s h :
  at_gate i OpSize true true es h ->
  wp i (count_caches tids n) (fun _ _ h => at_gate i OpSize true true es h) (s, h).
Proof.
  revert n s h. induction tids as [|tid tids IH]; intros n s h Ha; simpl.
  - apply (wp_ret _ _ _ i); [apply stable_at_gate|done].
  - apply (wp_silent _ _ _ i (fun _ h => at_gate i OpSize true true es h)); [apply stable_at_gate|done|].
    clear s h Ha. intros s h s2 x Ha HI [= <- <-] _. split_and!; [by left|done|by apply IH].
Qed.

Lemma wp_size i s h :
  at_gate i OpSize true true [] h ->
  wp i (Size_body nshards) (fun _ _ h => at_gate i OpSize true true [] h) (s, h).
Proof.
  intros Ha. unfold Size_body. simpl.
  apply (wp_silent _ _ _ i (fun _ h => at_gate i OpSize true true [] h)); [apply stable_at_gate|done|].
  clear s h Ha. intros s h s2 x Ha HI [= <- <-] _. split_and!; [by left|done|].
  apply wp_bind; [done|]. eapply wp_mono; [|by apply wp_count]. clear s h Ha HI. intros n s h HI Ha. simpl.
  apply wp_bind; [done|]. eapply wp_mono; [|apply map_wp_on_core; [exact Ha|apply posts_size; exact Hns]].
  intros m s1 h1 _ (ev & -> & Ha1). apply (wp_ret _ _ _ i); [apply stable_at_gate|done].
Qed.

(** *** The gate *)

(** An event of the gate by thread [i], with the counter [n] and the flag [b]. *)
Lemma map_Inv_gate s h i e n b :
  Inv s h -> core_evs [e] = [] ->
  let s' := mkMap (core s) (caches_ s) n b in
  let h' := h ++ [HLin i e] in
  NoDup (holders h') -> n = Z.of_nat (length (holders h')) -> Z.of_nat (length (holders h')) < 2147483648 ->
  (forall j, j ∈ holders h' -> exists o es, opview j h' = Some (o, es) /\ gate_open es = true) ->
  (forall j, j ∈ insiders h' -> j ∈ holders h') ->
  (forall j, j ∈ clearers h' -> exists es, opview j h' = Some (OpClear, es) /\ COut ∉ es) ->
  (strict = true -> clearers h' <> [] -> b = true /\ insiders h' = []) ->
  Inv s' h'.
Proof.
  intros HI He s' h' H1 H2 H6 H7 H3 H4 H5. destruct HI. split; try done.
  - unfold h'. rewrite events_snoc, map_core_evs_app, He, app_nil_r. done.
  - intros Hs. destruct (pm_gate0 Hs) as [Hser _]. split; [apply (clear_serial_lin h i [e] Hser)|auto].
Qed.

Lemma clearer_snoc h i e j o :
  (forall k, k ∈ clearers h -> exists es, opview k h = Some (OpClear, es) /\ COut ∉ es) ->
  e <> COut -> (e = CIn -> o = OpClear) ->
  (exists es, opview i h = Some (o, es) /\ COut ∉ es) ->
  j ∈ clearers (h ++ [HLin i e]) -> exists es, opview j (h ++ [HLin i e]) = Some (OpClear, es) /\ COut ∉ es.
Proof.
  intros Hc He Ho (es & Hop & Hn) Hj. unfold clearers in Hj. rewrite region_snoc in Hj. fold (clearers h) in Hj.
  rewrite opview_snoc.
  assert (j ∈ clearers h \/ (j = i /\ e = CIn)) as [Hjc|[-> ->]].
  { destruct e; simpl in Hj; try (by left). rewrite elem_of_cons in Hj. naive_solver. }
  - destruct (Hc j Hjc) as (es' & Hj' & Hn'). case_decide; [|by exists es']. subst. rewrite Hj'.
    eexists. split; [done|]. intros [?|?%list_elem_of_singleton]%elem_of_app; congruence.
  - rewrite decide_True, Hop, (Ho eq_refl) by done. eexists. split; [done|].
    intros [?|?%list_elem_of_singleton]%elem_of_app; congruence.
Qed.

Lemma holder_snoc h i e j o es :
  (forall k, k ∈ holders h -> exists o es, opview k h = Some (o, es) /\ gate_open es = true) ->
  opview i h = Some (o, es) ->
  j ∈ holders (h ++ [HLin i e]) -> exists o es, opview j (h ++ [HLin i e]) = Some (o, es) /\ gate_open es = true.
Proof.
  intros Hc Ho Hj. unfold holders in Hj. rewrite region_snoc in Hj. fold (holders h) in Hj.
  rewrite opview_snoc. destruct (decide (j = i)) as [->|Hne].
  - rewrite Ho. eexists _, _. split; [done|]. rewrite gate_open_snoc.
    destruct e; simpl in Hj; try done; try (by apply filter_not_self in Hj);
      destruct (Hc i Hj) as (o' & es' & Ho' & Hg); congruence.
  - apply Hc. destruct e; simpl in Hj; try done; [rewrite elem_of_cons in Hj; naive_solver| |];
      by apply list_elem_of_filter in Hj as [_ Hj].
Qed.

Lemma at_gate_view i o held inside es h : at_gate i o held inside es h ->
  exists fs, opview i h = Some (o, fs) /\ COut ∉ fs.
Proof. intros ((fs & Ho & _ & Hn & _) & _). by exists fs. Qed.

(** The place of thread [i] after an event [e] of its own. *)
Lemma at_gate_event i o held inside held' inside' es e h :
  at_gate i o held inside es h -> core_evs [e] = [] -> e <> COut ->
  match e with GAdd => true | GBack | GOut => false | _ => held end = held' ->
  (i ∈ holders (h ++ [HLin i e]) <-> held' = true) ->
  (i ∈ insiders (h ++ [HLin i e]) <-> inside' = true) -> at_gate i o held' inside' es (h ++ [HLin i e]).
Proof.
  intros ((fs & Ho & Hfs & Hn & Hg) & _) He Hne Hh H1 H2. split; [|done]. exists (fs ++ [e]).
  rewrite opview_snoc, decide_True, Ho, map_core_evs_app, He, app_nil_r by done. split; [done|]. split; [done|]. split.
  - intros [?|?%list_elem_of_singleton]%elem_of_app; congruence.
  - rewrite gate_open_snoc, Hg. by destruct e.
Qed.


(** The increment of [OpGuard]. *)
Lemma gate_add s h i o :
  Inv s h -> at_gate i o false false [] h -> Z.of_nat (length (holders (h ++ [HLin i GAdd]))) < 2147483648 ->
  let h' := h ++ [HLin i GAdd] in
  Inv (add_active 1 s).1 h' /\ at_gate i o true false [] h'.
Proof.
  intros HI Ha Hlt h'. pose proof Ha as (Hv & H1 & H2).
  assert (holders h' = i :: holders h) as Hh by (unfold holders, h'; by rewrite region_snoc).
  assert (insiders h' = insiders h) as Hin by (unfold insiders, h'; by rewrite region_snoc).
  assert (clearers h' = clearers h) as Hcl by (unfold clearers, h'; by rewrite region_snoc).
  assert (i ∉ holders h) as Hi by naive_solver.
  fold h' in Hlt. rewrite Hh in Hlt. simpl in Hlt. split.
  - apply map_Inv_gate; fold h'; rewrite ?Hh, ?Hin; [done|done| | | | | | |].
    + constructor; [done|apply (pm_nodup _ _ HI)].
    + rewrite (pm_active _ _ HI), i32_small by lia. simpl. lia.
    + simpl. lia.
    + rewrite <- Hh. intros j. destruct Hv as (fs & Ho & _). by apply (holder_snoc h i GAdd j o fs (pm_holder _ _ HI)).
    + intros j Hj. right. by apply (pm_inside _ _ HI).
    + intros j. apply (clearer_snoc h i GAdd j o (pm_clearer _ _ HI)); [done|done|by apply (at_gate_view i o false false [])].
    + rewrite Hcl. intros Hs Hne. by apply (pm_gate _ _ HI).
  - apply (at_gate_event i o false false); [done|done|done|done| |]; fold h'; rewrite ?Hh, ?Hin.
    + split; [done|]. intros _. left.
    + done.
Qed.

(** A decrement: after a failed recheck, or by the destructor. *)
Lemma gate_sub s h i o inside es e :
  Inv s h -> at_gate i o true inside es h ->
  (e = GBack /\ inside = false) \/ (e = GOut /\ inside = true) ->
  let h' := h ++ [HLin i e] in
  Inv (add_active (-1) s).1 h' /\ at_gate i o false false es h'.
Proof.
  intros HI Ha He h'. pose proof Ha as (Hv & H1 & H2).
  assert (holders h' = filter (fun j => j <> i) (holders h)) as Hh.
  { unfold holders, h'. rewrite region_snoc. by destruct He as [[-> _]|[-> _]]. }
  assert (insiders h' = if inside then filter (fun j => j <> i) (insiders h) else insiders h) as Hin.
  { unfold insiders, h'. rewrite region_snoc. by destruct He as [[-> ->]|[-> ->]]. }
  assert (clearers h' = clearers h) as Hcl.
  { unfold clearers, h'. rewrite region_snoc. by destruct He as [[-> _]|[-> _]]. }
  assert (i ∈ holders h) as Hi by naive_solver.
  assert (core_evs [e] = [] /\ e <> COut /\ (e = CIn -> o = OpClear)) as (E1 & E2 & E3)
    by by destruct He as [[-> _]|[-> _]].
  pose proof (NoDup_remove_length i _ (pm_nodup _ _ HI) Hi) as Hlen. split.
  - apply map_Inv_gate; fold h'; rewrite ?Hh, ?Hin; [done|done| | | | | | |].
    + apply NoDup_filter, (pm_nodup _ _ HI).
    + rewrite (pm_active _ _ HI), Hlen. apply i32_small. pose proof (pm_bound _ _ HI). lia.
    + pose proof (pm_bound _ _ HI). lia.
    + rewrite <- Hh. intros j. destruct Hv as (fs & Ho & _). by apply (holder_snoc h i e j o fs (pm_holder _ _ HI)).
    + intros j Hj. apply list_elem_of_filter. destruct inside.
      * apply list_elem_of_filter in Hj as [? Hj]. split; [done|by apply (pm_inside _ _ HI)].
      * split; [|by apply (pm_inside _ _ HI)]. intros ->. naive_solver.
    + intros j. apply (clearer_snoc h i e j o (pm_clearer _ _ HI)); [done|done|by apply (at_gate_view i o true inside es)].
    + rewrite Hcl. intros Hs Hne. destruct (pm_gate _ _ HI Hs) as [_ Hg]. destruct (Hg Hne) as [? ->].
      split; [done|]. by destruct inside.
  - apply (at_gate_event i o true inside); [done|done|done|by destruct He as [[-> _]|[-> _]]| |]; fold h'; rewrite ?Hh, ?Hin.
    + split; [intros Hf; by apply filter_not_self in Hf|done].
    + destruct inside; [|done]. split; [intros Hf; by apply filter_not_self in Hf|done].
Qed.

(** The recheck that succeeds. *)
Lemma gate_in s h i o :
  Inv s h -> at_gate i o true false [] h -> closing_ s = false ->
  let h' := h ++ [HLin i GIn] in Inv s h' /\ at_gate i o true true [] h'.
Proof.
  intros HI Ha Hc h'. pose proof Ha as (Hv & H1 & H2).
  assert (holders h' = holders h) as Hh by (unfold holders, h'; by rewrite region_snoc).
  assert (insiders h' = i :: insiders h) as Hin by (unfold insiders, h'; by rewrite region_snoc).
  assert (clearers h' = clearers h) as Hcl by (unfold clearers, h'; by rewrite region_snoc).
  split.
  - replace s with (mkMap (core s) (caches_ s) (active_ops_ s) (closing_ s)) by by destruct s.
    apply map_Inv_gate; fold h'; rewrite ?Hh, ?Hin; [done|done| | | | | | |].
    + apply (pm_nodup _ _ HI).
    + apply (pm_active _ _ HI).
    + apply (pm_bound _ _ HI).
    + rewrite <- Hh. intros j. destruct Hv as (fs & Ho & _). by apply (holder_snoc h i GIn j o fs (pm_holder _ _ HI)).
    + intros j [->|Hj]%elem_of_cons; [naive_solver|by apply (pm_inside _ _ HI)].
    + intros j. apply (clearer_snoc h i GIn j o (pm_clearer _ _ HI)); [done|done|by apply (at_gate_view i o true false [])].
    + rewrite Hcl. intros Hs Hne. destruct (pm_gate _ _ HI Hs) as [_ Hg]. destruct (Hg Hne). congruence.
  - apply (at_gate_event i o true false); [done|done|done|done| |]; fold h'; rewrite ?Hh, ?Hin; [done|].
    split; [done|]. intros _. left.
Qed.

Lemma wp_guard i o s h : LI i (Guard o) s h -> wp i (guard_loop o) (Q i) (s, h).
Proof.
  intros [Ha Hno]. unfold guard_loop. simpl.
  apply (wp_silent _ _ _ i (fun _ h => at_gate i o false false [] h)); [apply stable_at_gate|done|].
  clear s h Ha. intros s h s2 b Ha HI [= <- <-] _. split_and!; [by left|done|].
  destruct (closing_ s); simpl; [by apply map_wp_jump|].
  apply (wp_act _ _ _ i (fun _ h => at_gate i o false false [] h)); [apply stable_at_gate|done|].
  clear s h Ha HI. intros s h s2 [] Ha HI [= <-] [Hb _].
  change (HLin i <$> [?e]) with [HLin (Op := map_op) (R := pool_res) i e] in *.
  destruct (gate_add s h i o HI Ha Hb) as [HI' Ha']. split_and!; [by left|done|].
  apply (wp_act _ _ _ i (fun _ h => at_gate i o true false [] h)); [apply stable_at_gate|done|].
  clear s h Ha HI Ha' HI' Hb. intros s h s2 b Ha HI [= <- <-] _. destruct (closing_ s) eqn:Ec; simpl.
  - rewrite app_nil_r. split_and!; [by left|done|].
    apply (wp_act _ _ _ i (fun _ h => at_gate i o true false [] h)); [apply stable_at_gate|done|].
    clear s h Ha HI Ec. intros s h s2 [] Ha HI [= <-] _.
    change (HLin i <$> [?e]) with [HLin (Op := map_op) (R := pool_res) i e] in *.
    destruct (gate_sub s h i o false [] GBack HI Ha ltac:(by left)) as [HI' Ha'].
    split_and!; [by left|done|by apply map_wp_jump].
  - destruct (gate_in s h i o HI Ha Ec) as [HI' Ha']. split_and!; [by left|done|by apply map_wp_jump].
Qed.

(** The decrement when the operation is left. *)
Lemma map_wp_leave i o es r s h :
  at_gate i o true true es h -> (forall fs, core_evs fs = es -> gate_open fs = false -> map_good o fs r) ->
  wp i (Act unit (add_active (-1)) (fun _ => [GOut]) (fun _ => Ret r)) (Post map_good i) (s, h).
Proof.
  intros Ha Hg. apply (wp_act _ _ _ i (fun _ h => at_gate i o true true es h)); [apply stable_at_gate|done|].
  clear s h Ha. intros s h s2 [] Ha HI [= <-] _.
  change (HLin i <$> [?e]) with [HLin (Op := map_op) (R := pool_res) i e] in *.
  destruct (gate_sub s h i o true es GOut HI Ha ltac:(by right)) as [HI' Ha'].
  split_and!; [by left|done|]. destruct Ha' as ((fs & Ho & Hfs & _ & Hgo) & _).
  apply (wp_ret _ _ _ i); [apply stable_post|]. exists o, fs. auto.
Qed.

(** The result [r] of the operation [o] matches the objects it moved. *)
Definition op_res (o : map_op) (es : list pev) (r : pool_res) : Prop :=
  forall fs, core_evs fs = es -> gate_open fs = false -> map_good o fs r.

Lemma wp_run_op i o s h :
  LI i (Run o) s h -> Inv s h ->
  wp i (run_op factory_ nshards o) (fun r _ h => exists es, op_res o es r /\ at_gate i o true true es h) (s, h).
Proof.
  intros [Ha Hno] HI.
  assert (forall es r s h, at_gate i o true true es h -> op_res o es r ->
    wp i (Ret r) (fun r _ h => exists es, op_res o es r /\ at_gate i o true true es h) (s, h)) as Hret.
  { intros es r s1 h1 Ha1 Hr1. apply (wp_ret _ _ _ i); [|by exists es].
    intros c c' Hrel (es' & He & Hc). exists es'. split; [done|]. by apply (stable_at_gate i o true true es' c c'). }
  destruct o as [tid hash|tid hash x| |]; [| |done|]; unfold run_op; apply wp_bind; try done.
  - eapply wp_mono; [|by apply wp_get]. intros x s1 h1 _ (es & Hev & Ha1).
    apply (Hret es); [done|]. intros fs Hfs Hgo. split; [done|]. exists x. by rewrite Hfs.
  - eapply wp_mono; [|by apply map_wp_put]. intros u s1 h1 HI1 Ha1.
    apply (Hret [PStore x]); [done|]. intros fs Hfs Hgo. split; [done|]. split; [done|]. rewrite Hfs. simpl in Hno. by destruct (Z.eqb_spec x 0).
  - eapply wp_mono; [|by apply wp_size]. intros n s1 h1 _ Ha1.
    apply (Hret []); [done|]. intros fs Hfs Hgo. split; [done|]. split; [by exists n|done].
Qed.

(** *** [Clear] *)

Lemma clear_begin s h i :
  Inv s h -> at_gate i OpClear false false [] h -> (strict = true -> closing_ s = true) -> active_ops_ s = 0 ->
  let h' := h ++ [HLin i CIn] in Inv s h' /\ at_gate i OpClear false false [] h'.
Proof.
  intros HI Ha Hc H0 h'. pose proof Ha as (Hv & H1 & H2).
  assert (holders h' = holders h) as Hh by (unfold holders, h'; by rewrite region_snoc).
  assert (insiders h' = insiders h) as Hin by (unfold insiders, h'; by rewrite region_snoc).
  assert (holders h = []) as Hnil.
  { pose proof (pm_active _ _ HI). destruct (holders h); [done|]. simpl in *. lia. }
  assert (insiders h = []) as Hnil2.
  { destruct (insiders h) as [|j l] eqn:E; [done|]. assert (j ∈ holders h) as Hj.
    { apply (pm_inside _ _ HI). rewrite E. left. }
    rewrite Hnil in Hj. by apply elem_of_nil in Hj. }
  split.
  - replace s with (mkMap (core s) (caches_ s) (active_ops_ s) (closing_ s)) by by destruct s.
    apply map_Inv_gate; fold h'; rewrite ?Hh, ?Hin; [done|done| | | | | | |].
    + apply (pm_nodup _ _ HI).
    + apply (pm_active _ _ HI).
    + apply (pm_bound _ _ HI).
    + rewrite <- Hh. intros j. destruct Hv as (fs & Ho & _). by apply (holder_snoc h i CIn j OpClear fs (pm_holder _ _ HI)).
    + apply (pm_inside _ _ HI).
    + intros j. apply (clearer_snoc h i CIn j OpClear (pm_clearer _ _ HI)); [done|done|by apply (at_gate_view i OpClear false false [])].
    + intros Hs _. auto.
  - apply (at_gate_event i OpClear false false); [done|done|done|done| |]; fold h'; by rewrite ?Hh, ?Hin.
Qed.

Lemma clear_end s h i es :
  Inv s h -> at_gate i OpClear false false es h ->
  Inv (store_closing false s).1 (h ++ [HLin i COut]).
Proof.
  intros HI Ha. pose proof Ha as ((fs & Ho & Hfs & Hn & _) & H1 & H2). set (h' := h ++ [HLin i COut]).
  assert (holders h' = holders h) as Hh by (unfold holders, h'; by rewrite region_snoc).
  assert (insiders h' = insiders h) as Hin by (unfold insiders, h'; by rewrite region_snoc).
  assert (clearers h' = filter (fun j => j <> i) (clearers h)) as Hcl by (unfold clearers, h'; by rewrite region_snoc).
  apply map_Inv_gate; fold h'; rewrite ?Hh, ?Hin, ?Hcl; [done|done| | | | | | |].
  - apply (pm_nodup _ _ HI).
  - apply (pm_active _ _ HI).
  - apply (pm_bound _ _ HI).
  - rewrite <- Hh. intros j. by apply (holder_snoc h i COut j OpClear fs (pm_holder _ _ HI)).
  - apply (pm_inside _ _ HI).
  - intros j [Hji Hj]%list_elem_of_filter. destruct (pm_clearer _ _ HI j Hj) as (es' & Hj' & Hn').
    exists es'. unfold h'. by rewrite opview_snoc, decide_False.
  - intros Hs Hne. destruct Hne. destruct (filter _ _) as [|j l] eqn:E; [done|].
    assert (j ∈ filter (fun j => j <> i) (clearers h)) as [Hji Hj]%list_elem_of_filter by (rewrite E; left).
    destruct (pm_clearer _ _ HI j Hj) as (es' & Hj' & _). destruct (pm_gate _ _ HI Hs) as [Hser _].
    by destruct (Hji (Hser j i es' fs Hj' Ho)).
Qed.

Lemma stores_drop ds : stores (PDrop <$> ds) = [] /\ takes (PDrop <$> ds) = [] /\ drops (PDrop <$> ds) = ds.
Proof. destruct (drops_drop ds) as (? & ? & ?). by split_and!. Qed.

Lemma wp_clear_rest i s h :
  at_gate i OpClear false false [] h -> wp i (clear_rest destroy nshards) (Q i) (s, h).
Proof.
  intros Ha. unfold clear_rest. simpl.
  apply (wp_act _ _ _ i (fun _ h => at_gate i OpClear false false [] h)); [apply stable_at_gate|done|].
  clear s h Ha. intros s h s2 xs Ha HI [= <- <-] _.
  set (xs := cached (caches_ s)). destruct (stores_drop xs) as (S1 & S2 & S3).
  assert (Inv (clear_caches destroy s).1 (h ++ (HLin i <$> (MCore <$> (PDrop <$> xs))))) as HI'.
  { apply (map_Inv_move s); try done; [apply (pm_wf _ _ HI)|]. rewrite S1, S2, S3. unfold owned. simpl.
    rewrite cached_zero. fold xs. rewrite app_nil_r. simpl. apply Permutation_app_comm. }
  split_and!; [by left|done|]. pose proof (at_gate_core i OpClear false false [] (PDrop <$> xs) h Ha) as Ha'.
  apply wp_bind; [done|]. eapply wp_mono; [|by apply map_wp_on_core; [|by apply posts_clear]].
  clearbody xs. clear Ha HI HI' Ha' S1 S2 S3 s h. intros x s h HI (ev & (ds & ->) & Ha). simpl in Ha.
  rewrite <- fmap_app in Ha. simpl.
  apply (wp_act _ _ _ i (fun _ h => at_gate i OpClear false false (PDrop <$> xs ++ ds) h)); [apply stable_at_gate|done|].
  clear s h Ha HI. intros s h s2 [] Ha HI [= <-] _. split_and!.
  - right. destruct Ha as ((fs & Ho & _) & _). by exists fs.
  - by apply (clear_end s h i (PDrop <$> xs ++ ds)).
  - apply (wp_ret _ _ _ i); [apply stable_post|]. destruct Ha as ((fs & Ho & Hfs & _ & Hgo) & _).
    exists OpClear, (fs ++ [COut]). simpl. rewrite opview_snoc, decide_True, Ho by done. split; [done|].
    split; [by rewrite gate_open_snoc|]. split; [done|]. split; [apply elem_of_app; right; by apply list_elem_of_singleton|].
    exists (xs ++ ds). by rewrite map_core_evs_app, Hfs, app_nil_r.
Qed.

Lemma wp_clear i s h : LI i ClearWait s h -> wp i (clear_wait destroy nshards) (Q i) (s, h).
Proof.
  intros HL. unfold clear_wait. cbn [bind atomic_lin].
  apply (wp_act _ _ _ i (LI i ClearWait)); [apply map_stable_LI|done|]. clear s h HL.
  intros s h s2 n HL HI [= <- <-] _. destruct (Z.eqb_spec (active_ops_ s) 0) as [H0|H0]; simpl.
  2:{ rewrite app_nil_r. split_and!; [by left|done|by apply map_wp_jump]. }
  destruct (clear_begin s h i HI (proj1 HL) (proj2 HL) H0) as [HI' Ha]. split_and!; [by left|done|].
  by apply wp_clear_rest.
Qed.

(** The store of [closing_] by a thread in [Clear]. *)
Lemma wp_map_close i (c : unit -> prog mpool mev (label + pool_res)) s h :
  at_gate i OpClear false false [] h ->
  (forall s h, at_gate i OpClear false false [] h -> closing_ s = true -> wp i (c tt) (Q i) (s, h)) ->
  wp i (Act unit (store_closing true) (fun _ => []) c) (Q i) (s, h).
Proof.
  intros Ha Hc. apply (wp_silent _ _ _ i (fun _ h => at_gate i OpClear false false [] h)); [apply stable_at_gate|done|].
  clear s h Ha. intros s h s2 [] Ha HI [= <-] _. split_and!.
  - right. destruct Ha as ((fs & Ho & _) & _). by exists fs.
  - destruct HI. split; try done. intros Hs. destruct (pm_gate0 Hs) as [H1 H2].
    split; [done|]. intros Hne. by destruct (H2 Hne).
  - by apply Hc.
Qed.

Lemma wp_clear_buffered i s h :
  LI i ClearBuffered s h -> wp i (clear_buffered destroy nshards) (Q i) (s, h).
Proof.
  intros [Ha Hns']. unfold clear_buffered. apply wp_choose. intros [|]; simpl.
  - apply wp_map_close; [done|]. clear s h Ha. intros s h Ha Hc. by apply map_wp_jump.
  - apply (wp_act _ _ _ i (LI i ClearBuffered)); [apply map_stable_LI|done|]. clear s h Ha.
    intros s h s2 n [Ha _] HI [= <- <-] _. destruct (Z.eqb_spec (active_ops_ s) 0) as [H0|H0]; simpl.
    2:{ rewrite app_nil_r. split_and!; [by left|done|by apply map_wp_jump]. }
    destruct (clear_begin s h i HI Ha ltac:(congruence) H0) as [HI' Ha']. split_and!; [by left|done|].
    apply wp_map_close; [done|]. intros s1 h1 Ha1 _. by apply wp_clear_rest.
Qed.

(** ** The proof outline *)

Lemma wp_entry i o s h : LI i (Entry o) s h -> wp i (body factory_ destroy nshards ord (Entry o)) (Q i) (s, h).
Proof.
  intros Ha. destruct o as [tid hash|tid hash x| |]; simpl.
  - apply map_wp_jump. by split.
  - destruct (Z.eqb_spec x 0) as [->|Hx].
    + apply (map_wp_done i (OpPut tid hash 0) false false []); [done|]. intros fs Hfs Hgo. split; [done|]. split; [done|]. by rewrite Hfs.
    + apply map_wp_jump. by split.
  - unfold Clear_start. destruct ord eqn:Eo; simpl.
    + apply wp_map_close; [done|]. clear s h Ha. intros s h Ha Hc. by apply map_wp_jump.
    + apply map_wp_jump. split; [done|]. destruct strict; [by discriminate Hord|done].
  - apply map_wp_jump. by split.
Qed.

Lemma wp_run i o s h :
  LI i (Run o) s h -> Inv s h -> wp i (body factory_ destroy nshards ord (Run o)) (Q i) (s, h).
Proof.
  intros HL HI. unfold body, guard_exit. do 2 (apply wp_bind; [done|]).
  eapply wp_mono; [|by apply wp_run_op]. clear s h HL HI. intros r s h HI (es & Hr & Ha).
  eapply wp_mono; [|by apply (map_wp_leave i o es)].
  intros x s1 h1 _ Hp. apply (wp_ret _ _ _ i); [apply stable_post|done].
Qed.

Lemma map_Inv_item s h x :
  Inv s h -> (forall i e, x <> HLin i e) ->
  (forall i, i ∈ holders h -> opview i (h ++ [x]) = opview i h) ->
  (forall i, i ∈ clearers h -> exists es, opview i (h ++ [x]) = Some (OpClear, es) /\ COut ∉ es) ->
  (strict = true -> clear_serial (h ++ [x])) -> Inv s (h ++ [x]).
Proof.
  intros HI Hx Hh Hc Hs. assert (events (h ++ [x]) = events h) as He.
  { rewrite events_app. destruct x; simpl; rewrite ?app_nil_r; try done. by destruct (Hx i e). }
  destruct HI. unfold holders, insiders, clearers in *.
  split; rewrite ?He; unfold holders, insiders, clearers; rewrite ?region_item by done; try done.
  - intros i Hi. rewrite (Hh i Hi). auto.
  - intros Ht. destruct (pm_gate0 Ht) as [_ ?]. auto.
Qed.

Lemma map_outline :
  proof_outline Entry (body factory_ destroy nshards ord) Inv Gr map_env LI map_good.
Proof.
  split.
  - intros i o s h HI Hv [_ Hs].
    assert (i ∉ holders h) as Hni by (intros Hi; destruct (pm_holder _ _ HI i Hi) as (? & ? & ? & _); congruence).
    assert (i ∉ insiders h) as Hnj by (intros Hi; by apply Hni, (pm_inside _ _ HI)).
    split_and!; [by left| |].
    + apply map_Inv_item; [done|done| | |done].
      * intros j Hj. rewrite opview_call, decide_False; [done|]. by intros ->.
      * intros j Hj. destruct (pm_clearer _ _ HI j Hj) as (es & Hj' & Hn).
        exists es. rewrite opview_call, decide_False; [done|]. intros ->. congruence.
    + split_and!.
      * exists []. rewrite opview_call, decide_True by done. split_and!; [done|done|by apply not_elem_of_nil|done].
      * unfold holders. rewrite region_item by done. done.
      * unfold insiders. rewrite region_item by done. done.
  - intros i r s h HI (o & es & Ho & Hgo & Hg). split; [by left|]. apply map_Inv_item; [done|done| | |].
    + intros j Hj. destruct (pm_holder _ _ HI j Hj) as (o' & es' & Hj' & Hn).
      rewrite opview_ret, decide_False; [done|]. intros ->. congruence.
    + intros j Hj. destruct (pm_clearer _ _ HI j Hj) as (es' & Hj' & Hn).
      exists es'. rewrite opview_ret, decide_False; [done|]. intros ->. rewrite Ho in Hj'. injection Hj' as -> ->.
      by destruct Hg as (_ & ? & _).
    + intros Hs. destruct (pm_gate _ _ HI Hs) as [Hser _]. intros j j' es1 es2. rewrite !opview_ret.
      repeat case_decide; try done. apply Hser.
  - intros i l s h HL HI. destruct l as [o|o|o| |].
    + by apply wp_entry.
    + by apply wp_guard.
    + by apply wp_run.
    + by apply wp_clear_buffered.
    + by apply wp_clear.
Qed.

End proofs.

(** ** Theorems *)

Lemma map_inv_new {F} strict shard_count (f : F) :
  Inv (Nat.max 1 shard_count) strict (ObjectPoolMap_new shard_count f) [].
Proof.
  split; simpl; try done; try lia.
  - apply pool_wf_new; [lia|done].
  - unfold owned. simpl. by rewrite stored_new.
  - constructor.
  - intros i Hi. by apply elem_of_nil in Hi.
  - intros i Hi. by apply elem_of_nil in Hi.
Qed.

Lemma map_adequacy {F} (factory_ : option (F -> F * Z)) destroy strict ord shard_count f threads cfg :
  let ns := Nat.max 1 shard_count in
  (strict = true -> ord = SeqCst) ->
  reach Entry (body factory_ destroy ns ord) (map_env strict) (ObjectPoolMap_new shard_count f) threads cfg ->
  Inv ns strict (shared cfg) (hist cfg) /\
  Forall (fun '(o, es, r) => map_good factory_ o es r) (completed (hist cfg)).
Proof.
  intros ns Hord Hreach.
  destruct (rg_adequacy _ _ _ _ _ _ _ (map_outline factory_ destroy ns ltac:(lia) strict ord Hord) _ _ _
    ltac:(intros; by left) (map_inv_new strict shard_count f) Hreach) as (HI & _ & Hg). done.
Qed.

(** C21. [ObjectPoolMap], any number of threads and every interleaving, two
    [Clear] at a time included, whether or not the store of [closing_] is ordered
    before the load of [active_ops_]: the objects that were put in are those that
    were taken out, those deleted, those in the shards and those in the caches,
    each exactly once; every completed operation moved exactly the objects that
    its result names; [Put] of a null pointer moves none; every operation has
    given back its count in [active_ops_]. *)
Theorem map_pool_ownership {F} (factory_ : option (F -> F * Z)) (destroy : Z -> F -> F)
    ord shard_count f threads cfg :
  let ns := Nat.max 1 shard_count in
  reach Entry (body factory_ destroy ns ord) (map_env false) (ObjectPoolMap_new shard_count f) threads cfg ->
  let es := core_evs (events (hist cfg)) in
  stores es ≡ₚ takes es ++ drops es ++ stored (shards_ (core (shared cfg))) ++ cached (caches_ (shared cfg)) /\
  active_ops_ (shared cfg) = Z.of_nat (length (holders (hist cfg))) /\
  Forall (fun '(o, es, r) => map_good factory_ o es r) (completed (hist cfg)).
Proof.
  intros ns [HI Hg]%map_adequacy; [|done]. split_and!; [apply (pm_own _ _ _ _ HI)|apply (pm_active _ _ _ _ HI)|done].
Qed.

(** C20. The closing gate of [ObjectPoolMap], for one [Clear] at a time: if the
    store of [closing_] is ordered before the load of [active_ops_] ([SeqCst]),
    then while a thread clears the caches and the shards, the gate is closed and
    no thread is between the entry and the exit of an [OpGuard]: no [Get], [Put]
    or [Size] touches the storage that is being emptied.  The release store and
    the acquire load of the code do not give this order: [map_gate_reordered]. *)
Theorem map_clear_gate {F} (factory_ : option (F -> F * Z)) (destroy : Z -> F -> F)
    shard_count f threads cfg :
  let ns := Nat.max 1 shard_count in
  reach Entry (body factory_ destroy ns SeqCst) (map_env true) (ObjectPoolMap_new shard_count f) threads cfg ->
  clearers (hist cfg) <> [] -> closing_ (shared cfg) = true /\ insiders (hist cfg) = [].
Proof.
  intros ns [HI _]%map_adequacy; [|done]. by apply (pm_gate _ _ _ _ HI).
Qed.

(** Thread 0 gets an object and puts it into its cache; thread 1 begins [Clear];
    thread 0 finds the gate closed and backs off. *)
Definition map_envb (n : nat) {F} (s : mpool F) (h : map_hist) : bool :=
  (Z.of_nat (length (holders h)) <? 2147483648) &&
  aloneb (fun o => match o with OpClear => true | _ => false end) n h.

Lemma map_envb_ok n {F} strict (s : mpool F) h : map_envb n s h = true -> map_env strict s h.
Proof.
  unfold map_envb. intros [Hl%Z.ltb_lt Ha]%andb_true_iff. split; [done|]. intros _ i j es es' Hi Hj.
  by apply (aloneb_ok _ n h i j _ _ es es' Ha Hi Hj).
Qed.

Definition map_demo_body := body (Some (fun f : Z => (f + 1, f))) (fun _ f => f) 1 SeqCst.

Definition map_demo_schedule : list (nat * move map_op) :=
  [(0%nat, Call (OpGet 0 0))] ++ go 0 10 ++ [(0%nat, Call (OpPut 0 0 1))] ++ go 0 9 ++
  [(0%nat, Call OpSize)] ++ go 0 2 ++ [(1%nat, Call OpClear)] ++ go 1 3 ++ go 0 2 ++ go 1 1.

Definition map_demo : config := outcome Entry map_demo_body (ObjectPoolMap_new 1 1) 2 map_demo_schedule.

Lemma map_demo_reach strict :
  reach Entry map_demo_body (map_env strict) (ObjectPoolMap_new 1 1) 2 map_demo.
Proof. apply (outcome_reach _ _ _ (map_envb 2)); [apply map_envb_ok|vm_compute; reflexivity]. Qed.

Lemma map_pool_ownership_witness :
  completed (hist map_demo) =
    [(OpGet 0 0, [GAdd; GIn; MCore (PMake 1); GOut], RPtr 1);
     (OpPut 0 0 1, [GAdd; GIn; MCore (PStore 1); GOut], RUnit)] /\
  let es := core_evs (events (hist map_demo)) in
  stores es ≡ₚ takes es ++ drops es ++ stored (shards_ (core (shared map_demo))) ++
    cached (caches_ (shared map_demo)).
Proof.
  split; [vm_compute; reflexivity|].
  apply (map_pool_ownership (Some (fun f : Z => (f + 1, f))) (fun _ f => f) SeqCst 1 1 2 map_demo (map_demo_reach false)).
Defined.

Lemma map_clear_gate_witness :
  clearers (hist map_demo) = [1%nat] /\ active_ops_ (shared map_demo) = 1 /\
  closing_ (shared map_demo) = true /\ insiders (hist map_demo) = [].
Proof.
  split; [vm_compute; reflexivity|]. split; [vm_compute; reflexivity|].
  apply (map_clear_gate (Some (fun f : Z => (f + 1, f))) (fun _ f => f) 1 1 2 map_demo (map_demo_reach true)).
  vm_compute. discriminate.
Defined.

(** C36. With the memory orders of the code the gate of [ObjectPoolMap] fails, with
    a single [Clear] and a single other operation: the store of [closing_] is
    still in the store buffer when [Clear] reads [active_ops_] as zero; a [Get]
    then passes its guard, reading [closing_] as open twice; the store takes
    effect, and [Clear] deletes the cached objects while the [Get] is past its
    guard. *)
Theorem map_gate_reordered :
  exists cfg,
    reach Entry (body (Some (fun f : Z => (f + 1, f))) (fun _ f => f) 1 RelAcq) (map_env true)
      (ObjectPoolMap_new 1 1) 2 cfg /\
    clearers (hist cfg) = [1%nat] /\ insiders (hist cfg) = [0%nat] /\
    closing_ (shared cfg) = true /\ drops (core_evs (events (hist cfg))) = [1].
Proof.
  set (b := body (Some (fun f : Z => (f + 1, f))) (fun _ f => f) 1 RelAcq).
  exists (outcome Entry b (ObjectPoolMap_new 1 1) 2
    ([(0%nat, Call (OpGet 0 0))] ++ go 0 10 ++ [(0%nat, Call (OpPut 0 0 1))] ++ go 0 9 ++
     [(1%nat, Call OpClear)] ++ go 1 3 ++ [(0%nat, Call (OpGet 0 0))] ++ go 0 5 ++ go 1 2)).
  split; [|split_and!; vm_compute; reflexivity].
  apply (outcome_reach _ _ _ (map_envb 2)); [apply map_envb_ok|vm_compute; reflexivity].
Qed.

(** The gate needs the clients to serialize [Clear]: with two [Clear] at a
    time, the first to finish opens the gate while the second still clears, and
    a third thread then enters an operation although a [Clear] is running. *)
Theorem map_two_clears_reopen :
  exists cfg, reach Entry map_demo_body (map_env false) (ObjectPoolMap_new 1 1) 3 cfg /\
    clearers (hist cfg) = [1%nat] /\ insiders (hist cfg) = [2%nat] /\ closing_ (shared cfg) = false.
Proof.
  exists (outcome Entry map_demo_body (ObjectPoolMap_new 1 1) 3
    ([(0%nat, Call OpClear); (1%nat, Call OpClear)] ++ go 0 3 ++ go 1 3 ++ go 0 3 ++
     [(2%nat, Call (OpGet 2 2))] ++ go 2 4)).
  split; [|vm_compute; auto].
  apply (outcome_reach _ _ _ (fun s h => Z.of_nat (length (holders h)) <? 2147483648)).
  - intros s h Hl%Z.ltb_lt. by split.
  - vm_compute. reflexivity.
Qed.
