(* ===== verification/Tls.v ===== *)
(** * Tls: the common part of the object pools with thread-local caches

    [ObjectPoolTLS] and [ObjectPoolTLSv2] ([include/lscq/object_pool_tls.hpp],
    [include/lscq/object_pool_tls_v2.hpp]) have the same text for the registry of
    the caches, the operation guard, the waiting loop and the skeletons of the
    operations; they differ in what a [LocalCache] holds.  This file models the
    common text once, over the operations on a cache that the class [CacheOps]
    names.

    A [LocalCache] is a [thread_local] variable that all pools of a type share,
    so the state holds every pool and the cache of every thread; a cache is named
    by its thread and a pool by its address.  A program node is one access.
    [registry_mutex_] is explicit: what it protects is read or written in the
    node that takes or releases it, and a thread that finds it taken retries.
    The clock that bounds the waiting loops is an open choice.

    The store of [closing_] in the destructor is a release store and the load of
    [active_ops_] after it an acquire load.  The parameter [ord] says what this
    means ([store_order]): with [RelAcq] the store may still be in the store
    buffer ([CloseBuffered]) while the waiting loop reads [active_ops_], and takes
    effect at the latest when [registry_mutex_] is taken.

    [TE q e] annotates the movement [e] of an object by a call on the pool [q];
    the other events annotate the accesses of the guard, of the registration and
    of the destructor. *)

From stdpp Require Import base list numbers option functions.
From Stdlib Require Import ZArith Lia.
From S2P Require Import Prelude Conc Pool.

Local Open Scope Z_scope.

(** How the wait of the destructor ended: at its deadline; because it read that no
    operation was active, after the store of [closing_] had taken effect; or
    because it read so while the store was still in the store buffer. *)
Inductive wait_end : Set := TimedOut | SeenZero | SeenEarly.

#[global] Instance wait_end_eq_dec : EqDecision wait_end.
Proof. solve_decision. Defined.

Inductive tev : Type :=
| TE (q : nat) (e : pev)
| GAdd (q : nat)
| GBack (q : nat)
| GIn (q : nat)
| GOut (q : nat)
| XAdd (q : nat)
| XLeave (q : nat)
| XSub (q : nat)
| Claim (q : nat)
| Unclaim (q : nat)
| Register (q : nat)
| Lock (q : nat) (reg : list nat)
| Unlock (q : nat)
| Closing (q : nat)
| Released (q c : nat)
| CZero (q : nat)
| CDone (q : nat) (seen : wait_end).

#[global] Instance pev_eq_dec : EqDecision pev.
Proof. solve_decision. Defined.

#[global] Instance tls_tev_eq_dec : EqDecision tev.
Proof. solve_decision. Defined.

Inductive tls_op : Set :=
| TGet (tid q hash : nat)
| TPut (tid q hash : nat) (obj : Z)
| TClear (q : nat)
| TSize (q : nat)
| TDestroy (q : nat)
| TExit (tid hash : nat).

Inductive tls_res : Set :=
| TUnit
| TPtr (x : Z)
| TCount (n : Z)
| TThrow.

(** ** State *)

Section state.
Context {C F : Type}.

Record LocalCache := mkCache {
  data : C;
  owner : option nat
}.

Record tpool := mkTls {
  core : pool F;
  registry_ : list nat;
  registry_mutex_ : bool;
  closing_ : bool;
  active_ops_ : Z
}.

Record sys := mkSys {
  pools : nat -> tpool;
  caches : nat -> LocalCache
}.

Definition tls_new (shard_count : nat) (f : F) : tpool :=
  mkTls (ObjectPoolCore_new shard_count f) [] false false 0.

Definition set_pool (q : nat) (p : tpool) (s : sys) : sys := mkSys (<[q := p]> (pools s)) (caches s).

Definition set_cache (tid : nat) (c : LocalCache) (s : sys) : sys :=
  mkSys (pools s) (<[tid := c]> (caches s)).

Definition core_of (q : nat) (s : sys) : pool F := core (pools s q).

Definition set_core (q : nat) (p : pool F) (s : sys) : sys :=
  let t := pools s q in
  set_pool q (mkTls p (registry_ t) (registry_mutex_ t) (closing_ t) (active_ops_ t)) s.

(** ** Accesses *)

Definition load_closing (q : nat) (s : sys) : sys * bool := (s, closing_ (pools s q)).

Definition store_closing (q : nat) (s : sys) : sys * unit :=
  let t := pools s q in
  (set_pool q (mkTls (core t) (registry_ t) (registry_mutex_ t) true (active_ops_ t)) s, tt).

Definition load_active (q : nat) (s : sys) : sys * Z := (s, active_ops_ (pools s q)).

Definition add_active (q : nat) (d : Z) (s : sys) : sys * unit :=
  let t := pools s q in
  (set_pool q (mkTls (core t) (registry_ t) (registry_mutex_ t) (closing_ t) (i32 (active_ops_ t + d))) s, tt).

Definition load_owner (tid : nat) (s : sys) : sys * option nat := (s, owner (caches s tid)).

Definition store_owner (tid : nat) (o : option nat) (s : sys) : sys * unit :=
  (set_cache tid (mkCache (data (caches s tid)) o) s, tt).

(** [owner.compare_exchange_strong(nullptr, q)]. *)
Definition cas_owner (tid q : nat) (s : sys) : sys * bool :=
  match owner (caches s tid) with
  | None => (set_cache tid (mkCache (data (caches s tid)) (Some q)) s, true)
  | Some _ => (s, false)
  end.

(** An access to the contents of a cache. *)
Definition on_cache {X : Set} (tid : nat) (f : C -> C * X) (s : sys) : sys * X :=
  let '(c, x) := f (data (caches s tid)) in
  (set_cache tid (mkCache c (owner (caches s tid))) s, x).

Definition set_registry (q : nat) (r : list nat) (locked : bool) (s : sys) : sys :=
  let t := pools s q in set_pool q (mkTls (core t) r locked (closing_ t) (active_ops_ t)) s.

(** [registry_mutex_] taken and [registry_] read; [None] when it is taken. *)
Definition lock_registry (q : nat) (s : sys) : sys * option (list nat) :=
  if registry_mutex_ (pools s q) then (s, None)
  else (set_registry q (registry_ (pools s q)) true s, Some (registry_ (pools s q))).

Definition unlock_registry (q : nat) (s : sys) : sys * unit :=
  (set_registry q (registry_ (pools s q)) false s, tt).

(** [registry_.clear()] and the end of the critical section. *)
Definition clear_registry (q : nat) (s : sys) : sys * unit := (set_registry q [] false s, tt).

(** The critical section of [EnsureRegistered]; [false] when the mutex is taken. *)
Definition push_registry (q tid : nat) (s : sys) : sys * bool :=
  if registry_mutex_ (pools s q) then (s, false)
  else (set_registry q (registry_ (pools s q) ++ [tid]) false s, true).

(** [std::find] and [erase]. *)
Fixpoint erase (tid : nat) (l : list nat) : list nat :=
  match l with
  | [] => []
  | x :: l => if decide (x = tid) then l else x :: erase tid l
  end.

(** The critical section of [Unregister]; [false] when the mutex is taken. *)
Definition erase_registry (q tid : nat) (s : sys) : sys * bool :=
  if registry_mutex_ (pools s q) then (s, false)
  else (set_registry q (erase tid (registry_ (pools s q))) false s, true).

End state.

Arguments LocalCache C : clear implicits.
Arguments tpool F : clear implicits.
Arguments sys C F : clear implicits.

(** ** What a pool does with the contents of a cache

    [get_cached] is the part of [Get] after the check of the owner, from the
    loop head it is given; [put_cached] that of [Put]; [clear_cache] empties a
    cache and deletes what it held; [count_cache] adds what it holds to a total;
    [drain_cache] takes out what it holds and [put_drained] puts it into the
    shards. *)
Class CacheOps (C F GL : Type) := {
  cache_new : C;
  get_first : GL;
  get_cached (q tid hash : nat) (l : GL) : prog (sys C F) tev (GL + Z);
  put_cached (q tid hash : nat) (obj : Z) : prog (sys C F) tev unit;
  clear_cache (q tid : nat) : prog (sys C F) tev unit;
  count_cache (tid : nat) (total : Z) : prog (sys C F) tev Z;
  drain_cache (q tid : nat) : prog (sys C F) tev (list Z);
  put_drained (q hash : nat) (items : list Z) : prog (sys C F) tev unit
}.

Section tls.
Context {C F GL : Type}.
(** Each pool has its factory and its number of shards. *)
Context (factory_ : nat -> option (F -> F * Z)) (destroy : Z -> F -> F) (nshards : nat -> nat) (ord : store_order).

Abbreviation tprog := (prog (sys C F) tev).

Definition on_core {A} (q : nat) (p : prog (pool F) pev A) : tprog A := lift (core_of q) (set_core q) (TE q) p.

(** [delete p]; the object was in the hands of the thread. *)
Definition delete_obj (q : nat) (x : Z) (s : sys C F) : sys C F * unit :=
  let p := core_of q s in (set_core q (mkPool (shards_ p) (destroy x (client p))) s, tt).

Definition delete_given (q : nat) (x : Z) : tprog unit :=
  atomic_lin (delete_obj q x) (fun _ => [TE q (PStore x); TE q (PDrop x)]).

Fixpoint delete_all (q : nat) (xs : list Z) : tprog unit :=
  match xs with
  | [] => Ret tt
  | x :: xs => (do! delete_given q x; delete_all q xs)%prog
  end.

(** [slot.exchange(nullptr)] on a slot of a cache, then [delete]. *)
Definition exchange_delete (q tid : nat) (f : C -> C * Z) : tprog unit :=
  (let! p := atomic_lin (on_cache tid f) (fun p => if p =? 0 then [] else [TE q (PDrop p)]) in
   if negb (p =? 0) then atomic (delete_obj q p) else Ret tt)%prog.

(** [slot.exchange(nullptr)] by a thread that keeps the object. *)
Definition exchange_take (q tid : nat) (f : C -> C * Z) : tprog Z :=
  atomic_lin (on_cache tid f) (fun p => TE q <$> took p).

(** ** [OpGuard] *)

Definition op_guard (q : nat) : tprog bool :=
  (let! closing := atomic (load_closing q) in
   if (closing : bool) then Ret false
   else
     do! atomic_lin (add_active q 1) (fun _ => [GAdd q]);
     let! closing := atomic_lin (load_closing q) (fun closing : bool => if closing then [] else [GIn q]) in
     if (closing : bool) then
       do! atomic_lin (add_active q (-1)) (fun _ => [GBack q]);
       Ret false
     else Ret true)%prog.

(** The destructor of an active guard. *)
Definition op_guard_exit {A} (q : nat) (r : A) : tprog A :=
  (do! atomic_lin (add_active q (-1)) (fun _ => [GOut q]); Ret r)%prog.

(** ** The operations *)

Inductive label : Type :=
| Entry (o : tls_op)
| EnsureRegistered (o : tls_op) (tid q : nat)
| RegistryPush (o : tls_op) (tid q : nat)
| Main (o : tls_op)
| GetCached (tid q hash : nat) (l : GL)
| ClearLock (q : nat)
| ClearWait (q : nat)
| SizeLock (q : nat) (total : Z)
| CloseBuffered (q : nat)
| CloseWait (q : nat)
| CloseLock (q : nat) (seen : wait_end)
| ExitUnregister (tid q : nat).

Context `{!CacheOps C F GL}.

Definition start_op (o : tls_op) : tprog (label + tls_res) :=
  match o with
  | TGet tid q hash =>
      (let! active := op_guard q in
       if (active : bool) then Ret (inl (EnsureRegistered o tid q)) else Ret (inr (TPtr 0)))%prog
  | TPut tid q hash obj =>
      if obj =? 0 then Ret (inr TUnit)
      else
        (let! active := op_guard q in
         if (active : bool) then Ret (inl (EnsureRegistered o tid q))
         else do! delete_given q obj; Ret (inr TUnit))%prog
  | TClear q =>
      (let! active := op_guard q in
       if (active : bool) then Ret (inl (ClearLock q)) else Ret (inr TUnit))%prog
  | TSize q => (let! total := on_core q (SizeApprox (nshards q)) in Ret (inl (SizeLock q total)))%prog
  | TDestroy q =>
      match ord with
      | SeqCst => (do! atomic_lin (store_closing q) (fun _ => [Closing q]); Ret (inl (CloseWait q)))%prog
      | RelAcq => Ret (inl (CloseBuffered q))
      end
  | TExit tid hash => Ret (inl (Main o))
  end.

(** [EnsureRegistered], up to the lock. *)
Definition ensure_registered (o : tls_op) (tid q : nat) : tprog (label + tls_res) :=
  (let! own := atomic (load_owner tid) in
   if decide (own = Some q) then Ret (inl (Main o))
   else
     let! ok := atomic_lin (cas_owner tid q) (fun ok : bool => if ok then [Claim q] else []) in
     if negb ok then Ret (inl (Main o)) else Ret (inl (RegistryPush o tid q)))%prog.

(** The rest of it; the lock or [push_back] may throw, then the owner is reset
    and the exception leaves the operation, whose guard is destroyed. *)
Definition registry_push (o : tls_op) (tid q : nat) : tprog (label + tls_res) :=
  (let! throws := choose in
   if (throws : bool) then
     do! atomic_lin (store_owner tid None) (fun _ => [Unclaim q]);
     op_guard_exit q (inr TThrow)
   else
     let! ok := atomic_lin (push_registry q tid) (fun ok : bool => if ok then [Register q] else []) in
     if (ok : bool) then Ret (inl (Main o)) else Ret (inl (RegistryPush o tid q)))%prog.

(** [ClearTlsSlotsLocked]. *)
Fixpoint ClearTlsSlotsLocked (q : nat) (reg : list nat) : tprog unit :=
  match reg with
  | [] => Ret tt
  | c :: reg =>
      (let! own := atomic (load_owner c) in
       if decide (own = Some q) then do! clear_cache q c; ClearTlsSlotsLocked q reg
       else ClearTlsSlotsLocked q reg)%prog
  end.

(** One turn of the loop of [WaitForActiveOpsAtMost], or its last check. *)
Definition WaitForActiveOpsAtMost (q : nat) (threshold : Z) (ev : Z -> list tev) : tprog (option bool) :=
  (let! before_deadline := choose in
   let! n := atomic_lin (load_active q) ev in
   if (before_deadline : bool) then if n <=? threshold then Ret (Some true) else Ret None
   else Ret (Some (n <=? threshold)))%prog.

Definition clear_lock (q : nat) : tprog (label + tls_res) :=
  (let! reg := atomic_lin (lock_registry q) (fun r => match r with Some reg => [Lock q reg] | None => [] end) in
   match reg with
   | None => Ret (inl (ClearLock q))
   | Some reg =>
       do! ClearTlsSlotsLocked q reg;
       do! atomic_lin (unlock_registry q) (fun _ => [Unlock q]);
       Ret (inl (ClearWait q))
   end)%prog.

Definition clear_wait (q : nat) : tprog (label + tls_res) :=
  (let! r := WaitForActiveOpsAtMost q 1 (fun _ => []) in
   match r with
   | None => Ret (inl (ClearWait q))
   | Some _ => do! on_core q (ClearShared destroy (nshards q)); op_guard_exit q (inr TUnit)
   end)%prog.

(** The loop of [Size]. *)
Fixpoint size_caches (q : nat) (reg : list nat) (total : Z) : tprog Z :=
  match reg with
  | [] => Ret total
  | c :: reg =>
      (let! own := atomic (load_owner c) in
       if decide (own = Some q) then let! total := count_cache c total in size_caches q reg total
       else size_caches q reg total)%prog
  end.

Definition size_lock (q : nat) (total : Z) : tprog (label + tls_res) :=
  (let! reg := atomic_lin (lock_registry q) (fun r => match r with Some reg => [Lock q reg] | None => [] end) in
   match reg with
   | None => Ret (inl (SizeLock q total))
   | Some reg =>
       let! total := size_caches q reg total in
       do! atomic_lin (unlock_registry q) (fun _ => [Unlock q]);
       Ret (inr (TCount total))
   end)%prog.

Definition close_wait (q : nat) : tprog (label + tls_res) :=
  (let! r := WaitForActiveOpsAtMost q 0 (fun n => if n <=? 0 then [CZero q] else []) in
   match r with
   | None => Ret (inl (CloseWait q))
   | Some seen => Ret (inl (CloseLock q (if seen : bool then SeenZero else TimedOut)))
   end)%prog.

(** A turn of the same loop with the store of [closing_] in the store buffer: it
    takes effect now, or the turn is done first. *)
Definition close_buffered (q : nat) : tprog (label + tls_res) :=
  (let! drains := choose in
   if (drains : bool) then
     do! atomic_lin (store_closing q) (fun _ => [Closing q]);
     Ret (inl (CloseWait q))
   else
     let! r := WaitForActiveOpsAtMost q 0 (fun _ => []) in
     match r with
     | None => Ret (inl (CloseBuffered q))
     | Some seen =>
         do! atomic_lin (store_closing q) (fun _ => [Closing q]);
         Ret (inl (CloseLock q (if seen : bool then SeenEarly else TimedOut)))
     end)%prog.

(** The loop of [CloseAndClear]. *)
Fixpoint close_caches (q : nat) (reg : list nat) : tprog unit :=
  match reg with
  | [] => Ret tt
  | c :: reg =>
      (let! own := atomic_lin (load_owner c)
                     (fun own => if decide (own = Some q) then [] else [Released q c]) in
       if decide (own = Some q) then
         do! atomic_lin (store_owner c None) (fun _ => [Released q c]);
         do! clear_cache q c;
         close_caches q reg
       else close_caches q reg)%prog
  end.

(** [seen], the result of the wait, is ignored by the code; it is kept for the
    event. *)
Definition close_lock (q : nat) (seen : wait_end) : tprog (label + tls_res) :=
  (let! reg := atomic_lin (lock_registry q) (fun r => match r with Some reg => [Lock q reg] | None => [] end) in
   match reg with
   | None => Ret (inl (CloseLock q seen))
   | Some reg =>
       do! close_caches q reg;
       do! atomic_lin (clear_registry q) (fun _ => [Unlock q; CDone q seen]);
       do! on_core q (ClearShared destroy (nshards q));
       Ret (inr TUnit)
   end)%prog.

(** [~LocalCache] and [OnThreadExit]. *)
Definition OnThreadExit (tid hash : nat) : tprog (label + tls_res) :=
  (let! own := atomic (load_owner tid) in
   match own with
   | None => Ret (inr TUnit)
   | Some q =>
       do! atomic_lin (add_active q 1) (fun _ => [XAdd q]);
       do! atomic_lin (store_owner tid None) (fun _ => [XLeave q]);
       let! items := drain_cache q tid in
       match items with
       | [] => Ret (inl (ExitUnregister tid q))
       | _ =>
           let! closing := atomic (load_closing q) in
           do! (if negb closing then put_drained q hash items else delete_all q items);
           Ret (inl (ExitUnregister tid q))
       end
   end)%prog.

(** [Unregister], and the end of [OnThreadExit]. *)
Definition exit_unregister (tid q : nat) : tprog (label + tls_res) :=
  (let! ok := atomic (erase_registry q tid) in
   if (ok : bool) then
     do! atomic_lin (add_active q (-1)) (fun _ => [XSub q]);
     Ret (inr TUnit)
   else Ret (inl (ExitUnregister tid q)))%prog.

(** [Get] and [Put] after the registration. *)
Definition main_op (o : tls_op) : tprog (label + tls_res) :=
  match o with
  | TGet tid q hash =>
      (let! own := atomic (load_owner tid) in
       if decide (own = Some q) then Ret (inl (GetCached tid q hash get_first))
       else let! x := on_core q (GetShared (factory_ q) (nshards q) hash) in op_guard_exit q (inr (TPtr x)))%prog
  | TPut tid q hash obj =>
      (let! own := atomic (load_owner tid) in
       do! (if decide (own = Some q) then put_cached q tid hash obj
            else on_core q (PutShared (nshards q) hash obj));
       op_guard_exit q (inr TUnit))%prog
  | TExit tid hash => OnThreadExit tid hash
  | _ => Ret (inr TUnit)
  end.

Definition body (l : label) : tprog (label + tls_res) :=
  match l with
  | Entry o => start_op o
  | EnsureRegistered o tid q => ensure_registered o tid q
  | RegistryPush o tid q => registry_push o tid q
  | Main o => main_op o
  | GetCached tid q hash l =>
      (let! r := get_cached q tid hash l in
       match r with
       | inl l => Ret (inl (GetCached tid q hash l))
       | inr x => op_guard_exit q (inr (TPtr x))
       end)%prog
  | ClearLock q => clear_lock q
  | ClearWait q => clear_wait q
  | SizeLock q total => size_lock q total
  | CloseBuffered q => close_buffered q
  | CloseWait q => close_wait q
  | CloseLock q seen => close_lock q seen
  | ExitUnregister tid q => exit_unregister tid q
  end.

(** All pools with their number of shards, all caches empty. *)
Definition sys_new (f : nat -> F) : sys C F :=
  mkSys (fun q => tls_new (nshards q) (f q)) (fun _ => mkCache cache_new None).

End tls.
