(* ===== verification/TlsProofs.v ===== *)
(** * TlsProofs: ownership, the gate and the registry of the thread-local pools

    The invariant of [Tls] and its proof outline, over the laws of the operations
    on a cache ([CacheLaws]).  A thread's place with respect to the guards, the
    registration and the registry lock is a function of the events of its running
    operation ([status]). *)

From stdpp Require Import base list numbers option functions.
From Stdlib Require Import ZArith Lia.
From S2P Require Import Prelude Conc Pool PoolProofs Tls.

Local Open Scope Z_scope.

Abbreviation tls_hist := (list (hev tev tls_op tls_res)).

(** ** Sums over an initial segment *)

Lemma concat_update {A} (f g : nat -> list A) n i :
  (i < n)%nat -> (forall j, j <> i -> f j = g j) ->
  f i ++ concat (g <$> seq 0 n) ≡ₚ g i ++ concat (f <$> seq 0 n).
Proof.
  intros Hi Hfg. assert (exists a b, seq 0 n = a ++ i :: b /\ (i ∉ a) /\ (i ∉ b)) as (a & b & -> & Ha & Hb).
  { assert (i ∈ seq 0 n) as (a & b & E)%list_elem_of_split by (apply elem_of_seq; lia).
    exists a, b. split; [done|]. pose proof (NoDup_seq 0 n) as Hnd. rewrite E in Hnd.
    apply list.NoDup_app in Hnd as (_ & Hx & Hnd). apply list.NoDup_cons in Hnd as [Hb _].
    split; [|done]. intros Ha. apply (Hx i Ha). left. }
  assert (forall l : list nat, i ∉ l -> f <$> l = g <$> l) as Hext.
  { intros l Hl. apply list_fmap_ext. intros k x Hx. apply Hfg. intros ->.
    by apply Hl, (list_elem_of_lookup_2 _ k). }
  rewrite !fmap_app, !fmap_cons, !concat_app. simpl. rewrite (Hext a Ha), (Hext b Hb). solve_Permutation.
Qed.

Lemma concat_empty {A} (f : nat -> list A) l : (forall i, f i = []) -> concat (f <$> l) = [].
Proof. intros Hf. induction l as [|x l IH]; [done|]. rewrite fmap_cons. simpl. rewrite Hf. apply IH. Qed.

Definition b2z (b : bool) : Z := if b then 1 else 0.

Definition count (P : nat -> bool) (n : nat) : Z := Z.of_nat (length (filter (fun i => P i = true) (seq 0 n))).

Lemma count_S P n : count P (S n) = count P n + b2z (P n).
Proof.
  unfold count. rewrite seq_S, list.filter_app, length_app, filter_cons, filter_nil. simpl.
  destruct (P n); [rewrite decide_True by done|rewrite decide_False by done]; simpl; lia.
Qed.

Lemma count_bound P n : 0 <= count P n <= Z.of_nat n.
Proof. induction n as [|n IH]; [done|]. rewrite count_S. unfold b2z. destruct (P n); lia. Qed.

Lemma count_none P n : (forall i, P i = false) -> count P n = 0.
Proof. intros HP. induction n as [|n IH]; [done|]. by rewrite count_S, HP, IH. Qed.

Lemma count_ext P P' n : (forall j, (j < n)%nat -> P j = P' j) -> count P n = count P' n.
Proof. induction n as [|n IH]; [done|]. intros HP. rewrite !count_S, (HP n), IH by auto. done. Qed.

Lemma count_update P P' n i :
  (i < n)%nat -> (forall j, j <> i -> P j = P' j) -> count P' n = count P n - b2z (P i) + b2z (P' i).
Proof.
  intros Hi HP. induction n as [|n IH]; [lia|]. rewrite !count_S. destruct (decide (i = n)) as [->|Hne].
  - rewrite (count_ext P P' n); [lia|]. intros j Hj. apply HP. lia.
  - rewrite IH, (HP n) by lia. lia.
Qed.

Lemma count_zero P n i : count P n <= 0 -> (i < n)%nat -> P i = false.
Proof.
  intros Hc Hi. induction n as [|n IH]; [lia|]. rewrite count_S in Hc. pose proof (count_bound P n).
  unfold b2z in Hc. destruct (P n) eqn:E; [lia|]. destruct (decide (i = n)) as [->|]; [done|]. apply IH; lia.
Qed.

(** ** The status of a thread *)

Inductive gate : Set :=
| Outside
| Counted (q : nat)
| Inside (q : nat)
| Leaving (q : nat).

Record status := mkStatus {
  gate_ : gate;
  claim_ : option nat;
  lock_ : option (nat * list nat);
  released_ : list nat
}.

Definition idle : status := mkStatus Outside None None [].

Definition status1 (st : status) (e : tev) : status :=
  let '(mkStatus g c l r) := st in
  match e with
  | TE _ _ | Closing _ | CZero _ | CDone _ _ => st
  | GAdd q | XAdd q => mkStatus (Counted q) c l r
  | GIn q => mkStatus (Inside q) c l r
  | XLeave q => mkStatus (Leaving q) c l r
  | GBack _ | GOut _ | XSub _ => mkStatus Outside c l r
  | Claim q => mkStatus g (Some q) l r
  | Unclaim _ | Register _ => mkStatus g None l r
  | Lock q reg => mkStatus g c (Some (q, reg)) []
  | Unlock _ => mkStatus g c None []
  | Released _ c' => mkStatus g c l (c' :: r)
  end.

Definition status_of (es : list tev) : status := foldl status1 idle es.

Definition view (i : nat) (h : tls_hist) : status :=
  match opview i h with Some (_, es) => status_of es | None => idle end.

Definition core_evs (es : list tev) : list pev :=
  omap (fun e => match e with TE _ e => Some e | _ => None end) es.

Lemma core_evs_app es fs : core_evs (es ++ fs) = core_evs es ++ core_evs fs.
Proof. apply omap_app. Qed.

Lemma core_evs_core q es : core_evs (TE q <$> es) = es.
Proof. unfold core_evs. induction es as [|e es IH]; [done|]. csimpl. by f_equal. Qed.

Lemma status_app es fs : status_of (es ++ fs) = foldl status1 (status_of es) fs.
Proof. apply foldl_app. Qed.

Lemma status_core st q es : foldl status1 st (TE q <$> es) = st.
Proof. induction es as [|e es IH]; [done|]. simpl. by destruct st. Qed.

Lemma view_call i o h j : opview i h = None -> view j (h ++ [HCall i o]) = view j h.
Proof. intros Hi. unfold view. rewrite opview_call. case_decide; [|done]. subst. by rewrite Hi. Qed.

Lemma view_ret i r h j : view i h = idle -> view j (h ++ [HRet i r]) = view j h.
Proof. intros Hi. unfold view in *. rewrite opview_ret. case_decide; [|done]. by subst. Qed.

Lemma view_lin i es h j o fs :
  opview i h = Some (o, fs) ->
  view j (h ++ (HLin i <$> es)) = if decide (j = i) then foldl status1 (view i h) es else view j h.
Proof.
  intros Hi. unfold view. rewrite opview_lin. case_decide; [|done]. subst. rewrite Hi. apply status_app.
Qed.

Definition counted (q : nat) (st : status) : bool :=
  match gate_ st with Outside => false | Counted q' | Inside q' | Leaving q' => bool_decide (q' = q) end.

(** ** The invariant *)

Section inv.
Context {C F : Type}.
(** The objects in a cache, its invariant, and what other threads may do to it. *)
Context (held : C -> list Z) (cache_wf : C -> Prop) (cache_env : C -> C -> Prop).
(** [np] pools, [nc] threads. *)
Context (nshards : nat -> nat) (np nc : nat).
Hypothesis (Hns : forall q, (0 < nshards q)%nat) (Hnc : Z.of_nat nc < 2147483648).
Context {Henv : PreOrder cache_env}.

Abbreviation sys := (sys C F).

(** A thread uses its own cache. *)
Definition op_ok (i : nat) (o : tls_op) : Prop :=
  (i < nc)%nat /\
  match o with
  | TGet tid q _ | TPut tid q _ _ => tid = i /\ (q < np)%nat
  | TClear q | TSize q | TDestroy q => (q < np)%nat
  | TExit tid _ => tid = i
  end.

Definition tls_env (s : sys) (h : tls_hist) : Prop := forall i o, HCall i o ∈ h -> op_ok i o.

Definition contents (s : sys) : list Z :=
  concat ((fun q => stored (shards_ (core_of q s))) <$> seq 0 np) ++
  concat ((fun c => held (data (caches s c))) <$> seq 0 nc).

(** The objects. *)
Record Obj (s : sys) (h : tls_hist) : Prop := {
  tv_ops i o es : opview i h = Some (o, es) -> op_ok i o;
  tv_core q : (q < np)%nat -> pool_wf (nshards q) (core_of q s);
  tv_cache c : cache_wf (data (caches s c));
  tv_own : stores (core_evs (events h)) ≡ₚ
    takes (core_evs (events h)) ++ drops (core_evs (events h)) ++ contents s
}.

(** The gate, the owners of the caches, the registries and their locks. *)
Record Ctl (s : sys) (h : tls_hist) : Prop := {
  tv_active q : active_ops_ (pools s q) = count (fun i => counted q (view i h)) nc;
  tv_closing q : Closing q ∈ events h -> closing_ (pools s q) = true;
  tv_zero q i : CZero q ∈ events h -> closing_ (pools s q) = true /\ gate_ (view i h) <> Inside q;
  tv_claim i q : claim_ (view i h) = Some q -> gate_ (view i h) = Inside q;
  tv_lock i q reg : lock_ (view i h) = Some (q, reg) ->
    registry_mutex_ (pools s q) = true /\ registry_ (pools s q) = reg /\
    forall j reg', lock_ (view j h) = Some (q, reg') -> j = i;
  tv_released i q reg c :
    lock_ (view i h) = Some (q, reg) -> c ∈ released_ (view i h) ->
    owner (caches s c) = Some q -> claim_ (view c h) = Some q;
  tv_owner c q : owner (caches s c) = Some q ->
    (q < np)%nat /\ (c ∈ registry_ (pools s q) \/ claim_ (view c h) = Some q);
  tv_leaving i q : gate_ (view i h) = Leaving q -> owner (caches s i) = None;
  tv_reg q c : c ∈ registry_ (pools s q) -> (c < nc)%nat;
  tv_done q c : CDone q SeenZero ∈ events h -> CZero q ∈ events h /\ owner (caches s c) <> Some q
}.

Definition Inv (s : sys) (h : tls_hist) : Prop := Obj s h /\ Ctl s h.

(** Other threads leave a cache to its thread, but for emptying it and for
    taking its owner away. *)
Definition Gr (i : nat) (c c' : sys * tls_hist) : Prop :=
  forall k, k <> i -> cache_env (data (caches c.1 k)) (data (caches c'.1 k)) /\
    (owner (caches c'.1 k) = owner (caches c.1 k) \/ owner (caches c'.1 k) = None).

(** What a thread knows: it runs [o], has moved the objects of [es], and its
    status. *)
Definition knows (i : nat) (o : tls_op) (es : list pev) (st : status) (h : tls_hist) : Prop :=
  exists fs, opview i h = Some (o, fs) /\ core_evs fs = es /\ status_of fs = st.

Abbreviation stable := (stable Inv Gr).
Abbreviation wp := (wp Inv Gr tls_env).

Lemma stable_knows i o es st : stable i (fun _ h => knows i o es st h).
Proof.
  apply (stable_view Inv Gr i (fun v => exists fs, v = Some (o, fs) /\ core_evs fs = es /\ status_of fs = st)).
Qed.

Lemma knows_view i o es st h : knows i o es st h -> view i h = st.
Proof. intros (fs & Ho & _ & Hs). unfold view. by rewrite Ho. Qed.

Lemma knows_lin i o es st h evs :
  knows i o es st h -> knows i o (es ++ core_evs evs) (foldl status1 st evs) (h ++ (HLin i <$> evs)).
Proof.
  intros (fs & Ho & <- & <-). exists (fs ++ evs). rewrite opview_lin, decide_True, Ho by done.
  by rewrite core_evs_app, status_app.
Qed.

Lemma knows_lin_view i o es st h evs j :
  knows i o es st h ->
  view j (h ++ (HLin i <$> evs)) = if decide (j = i) then foldl status1 st evs else view j h.
Proof. intros Hk. rewrite <- (knows_view _ _ _ _ _ Hk). destruct Hk as (fs & Ho & _). by apply (view_lin i evs h j o fs). Qed.

Lemma tls_Gr_refl i c : Gr i c c.
Proof. intros k _. split; [reflexivity|by left]. Qed.

Lemma Gr_caches i (s s' : sys) h h' : (forall c, c <> i -> caches s' c = caches s c) -> Gr i (s, h) (s', h').
Proof. intros Hd k Hk. simpl. rewrite Hd by done. split; [reflexivity|by left]. Qed.

(** *** Objects move *)

(** The parts of the state the control invariant depends on. *)
Definition same_ctl (s s' : sys) : Prop :=
  (forall c, owner (caches s' c) = owner (caches s c)) /\
  forall q, registry_ (pools s' q) = registry_ (pools s q) /\
    registry_mutex_ (pools s' q) = registry_mutex_ (pools s q) /\
    closing_ (pools s' q) = closing_ (pools s q) /\ active_ops_ (pools s' q) = active_ops_ (pools s q).

Lemma Ctl_same s s' h h' :
  Ctl s h -> same_ctl s s' -> (forall j, view j h' = view j h) ->
  (forall e, core_evs [e] = [] -> e ∈ events h' <-> e ∈ events h) -> Ctl s' h'.
Proof.
  intros HC [Hs1 Hs2] Hv He. destruct HC. split; intros *; rewrite ?Hv, ?He, ?Hs1 by done;
    try (destruct (Hs2 q) as (E1 & E2 & E3 & E4); rewrite ?E1, ?E2, ?E3, ?E4); eauto.
  - rewrite tv_active0. apply count_ext. intros j _. by rewrite Hv.
  - intros Hl. destruct (tv_lock0 i q reg Hl) as (? & ? & Hu). split_and!; try done.
    intros j reg'. rewrite Hv. apply Hu.
Qed.

Lemma Inv_move s s' h i o es st q evs :
  Inv s h -> knows i o es st h -> same_ctl s s' ->
  (forall q, (q < np)%nat -> pool_wf (nshards q) (core_of q s')) ->
  (forall c, cache_wf (data (caches s' c))) ->
  stores evs ++ contents s ≡ₚ takes evs ++ drops evs ++ contents s' ->
  Inv s' (h ++ (HLin i <$> (TE q <$> evs))) /\ knows i o (es ++ evs) st (h ++ (HLin i <$> (TE q <$> evs))).
Proof.
  intros [HO HC] Hk Hs Hp Hw Hc. split; [split|].
  - destruct HO. split; try done.
    + intros j o' fs Hj. apply opview_lin_op in Hj as [fs' Hj]. eauto.
    + rewrite events_app, events_lin, core_evs_app, core_evs_core, stores_app, takes_app, drops_app, tv_own0.
      by apply perm_exchange.
  - apply (Ctl_same s _ h); [done|done| |].
    + intros j. rewrite (knows_lin_view _ _ _ _ _ _ _ Hk), status_core. case_decide; [|done].
      subst. symmetry. by apply (knows_view _ o es).
    + intros e He. rewrite events_app, events_lin, elem_of_app. split; [|by left].
      intros [?|Hin]; [done|]. apply list_elem_of_fmap in Hin as (e' & -> & _). done.
  - pose proof (knows_lin i o es st h (TE q <$> evs) Hk) as H. by rewrite core_evs_core, status_core in H.
Qed.

(** *** Control steps *)

(** Thread [i] emits [evs] and its status becomes [st']. *)
Definition moves (i : nat) (st' : status) (evs : list tev) (h h' : tls_hist) : Prop :=
  (forall j, view j h' = if decide (j = i) then st' else view j h) /\
  (forall e, e ∈ events h' <-> e ∈ events h \/ e ∈ evs).

Lemma knows_moves i o es st h evs :
  knows i o es st h -> moves i (foldl status1 st evs) evs h (h ++ (HLin i <$> evs)).
Proof.
  intros Hk. split; [intros j; by apply (knows_lin_view _ o es)|].
  intros e. by rewrite events_app, events_lin, elem_of_app.
Qed.

Lemma moves_keep {A} (f : status -> A) i st' evs h h' :
  moves i st' evs h h' -> f st' = f (view i h) -> forall j, f (view j h') = f (view j h).
Proof. intros [Hv _] Hf j. rewrite Hv. case_decide; [|done]. by subst. Qed.

Lemma moves_event i st' evs h h' e : moves i st' evs h h' -> e ∉ evs -> e ∈ events h' <-> e ∈ events h.
Proof. intros [_ He] Hn. rewrite He. tauto. Qed.

(** Events that the clauses on the destructor do not mention. *)
Definition plain (evs : list tev) : Prop :=
  forall q b, (Closing q ∉ evs) /\ (CZero q ∉ evs) /\ (CDone q b ∉ evs).

Lemma plain_one e : (forall q b, e <> Closing q /\ e <> CZero q /\ e <> CDone q b) -> plain [e].
Proof. intros He q b. rewrite !list_elem_of_singleton. destruct (He q b) as (? & ? & ?). split_and!; congruence. Qed.

Lemma Inv_ctl s s' h i o es st evs :
  Inv s h -> knows i o es st h -> (forall q, core_of q s' = core_of q s) ->
  (forall c, data (caches s' c) = data (caches s c)) -> core_evs evs = [] ->
  (forall h', moves i (foldl status1 st evs) evs h h' -> Ctl s' h') ->
  Inv s' (h ++ (HLin i <$> evs)) /\ knows i o es (foldl status1 st evs) (h ++ (HLin i <$> evs)).
Proof.
  intros [HO HC] Hk Hp Hd He Hctl. split; [split|].
  - assert (contents s' = contents s) as Hc.
    { unfold contents. f_equal; f_equal; apply list_fmap_ext; intros; rewrite ?Hp, ?Hd; done. }
    destruct HO. split.
    + intros j o' fs Hj. apply opview_lin_op in Hj as [fs' Hj]. eauto.
    + intros q Hq. rewrite Hp. auto.
    + intros c. rewrite Hd. auto.
    + by rewrite events_app, events_lin, core_evs_app, He, app_nil_r, Hc.
  - apply Hctl. by apply (knows_moves _ o es).
  - pose proof (knows_lin i o es st h evs Hk) as H. by rewrite He, app_nil_r in H.
Qed.

(** The fields of an updated pool. *)
Lemma pools_set q q' p (s : sys) : pools (set_pool q p s) q' = if decide (q' = q) then p else pools s q'.
Proof.
  unfold set_pool. simpl. case_decide; [subst; apply fn_lookup_insert|by apply fn_lookup_insert_ne].
Qed.

Lemma caches_set c c' x (s : sys) : caches (set_cache c x s) c' = if decide (c' = c) then x else caches s c'.
Proof.
  unfold set_cache. simpl. case_decide; [subst; apply fn_lookup_insert|by apply fn_lookup_insert_ne].
Qed.

(** An access that counts the thread in or out. *)
Lemma Ctl_gate s h h' i q d st' evs :
  Ctl s h -> moves i st' evs h h' -> (i < nc)%nat ->
  (forall q', b2z (counted q' st') = b2z (counted q' (view i h)) + if decide (q' = q) then d else 0) ->
  (forall q', gate_ st' <> Inside q' /\ gate_ st' <> Leaving q') -> claim_ st' = None -> claim_ (view i h) = None ->
  lock_ st' = lock_ (view i h) -> released_ st' = released_ (view i h) -> plain evs ->
  Ctl (add_active q d s).1 h'.
Proof.
  intros HC Hm Hic Hd Hg Hc Hc0 Hl Hr Hpl. unfold add_active. simpl. pose proof (proj1 Hm) as Hv.
  assert (claim_ st' = claim_ (view i h)) as Hcc by congruence.
  pose proof (moves_keep lock_ _ _ _ _ _ Hm Hl) as Hlk.
  pose proof (moves_keep released_ _ _ _ _ _ Hm Hr) as Hrl.
  pose proof (moves_keep claim_ _ _ _ _ _ Hm Hcc) as Hcm.
  assert (forall q, count (fun j => counted q (view j h')) nc =
    count (fun j => counted q (view j h)) nc - b2z (counted q (view i h)) + b2z (counted q st')) as Hcnt.
  { intros q'. rewrite (count_update (fun j => counted q' (view j h)) _ nc i Hic), (Hv i), decide_True; [done|done|].
    intros j Hj. by rewrite Hv, decide_False. }
  destruct HC. split; intros *; rewrite ?pools_set, ?Hlk, ?Hrl, ?Hcm, ?(moves_event _ _ _ _ _ _ Hm) by apply (Hpl _ SeenZero); eauto.
  - pose proof (count_bound (fun j => counted q0 (view j h)) nc).
    pose proof (count_bound (fun j => counted q0 (view j h')) nc) as Hb. rewrite Hcnt in *. rewrite Hd in *.
    destruct (decide (q0 = q)) as [->|]; simpl; rewrite tv_active0; [|lia]. rewrite i32_small; lia.
  - case_decide; subst; simpl; auto.
  - intros Hin. rewrite Hv. destruct (tv_zero0 q0 i0 Hin) as [H1 H2]. split; case_decide; subst; simpl; auto.
    by destruct (Hg q0).
  - rewrite Hv. case_decide; [|auto]. subst. congruence.
  - intros H. destruct (tv_lock0 i0 q0 reg H) as (H1 & H2 & H3).
    split_and!; [by case_decide; subst|by case_decide; subst|]. intros j reg'. rewrite Hlk. apply H3.
  - intros Ho. destruct (tv_owner0 c q0 Ho) as [? Hor]. split; [done|].
    destruct Hor; [left; by case_decide; subst|by right].
  - rewrite Hv. case_decide; [|eauto]. intros Hlv. by destruct (Hg q0).
  - intros Hin. apply (tv_reg0 q0). by case_decide; subst.
Qed.

(** The count does not change when the thread stays counted as it was. *)
Lemma count_same h h' i st' evs q :
  moves i st' evs h h' -> counted q st' = counted q (view i h) ->
  count (fun j => counted q (view j h')) nc = count (fun j => counted q (view j h)) nc.
Proof. intros Hm Hc. apply count_ext. intros j _. by apply (moves_keep (counted q) i st' evs). Qed.

(** The check of the guard that succeeds. *)
Lemma Ctl_enter s h h' i q st' :
  Ctl s h -> moves i st' [GIn q] h h' -> gate_ (view i h) = Counted q -> gate_ st' = Inside q ->
  claim_ st' = claim_ (view i h) -> lock_ st' = lock_ (view i h) -> released_ st' = released_ (view i h) ->
  closing_ (pools s q) = false -> Ctl s h'.
Proof.
  intros HC Hm Hg Hg' Hc Hl Hr Hcl. pose proof (proj1 Hm) as Hv.
  assert (plain [GIn q]) as Hpl by by apply plain_one.
  pose proof (moves_keep lock_ _ _ _ _ _ Hm Hl) as Hlk.
  pose proof (moves_keep released_ _ _ _ _ _ Hm Hr) as Hrl.
  pose proof (moves_keep claim_ _ _ _ _ _ Hm Hc) as Hcm.
  destruct HC. split; intros *; rewrite ?Hlk, ?Hrl, ?Hcm, ?(moves_event _ _ _ _ _ _ Hm) by apply (Hpl _ SeenZero); eauto.
  - rewrite (count_same h h' i st' _ q0 Hm); [done|]. unfold counted. by rewrite Hg, Hg'.
  - intros Hz. destruct (tv_zero0 q0 i0 Hz) as [H1 H2]. split; [done|]. rewrite Hv.
    case_decide; [|done]. rewrite Hg'. intros [= ->]. congruence.
  - intros Hcq. apply tv_claim0 in Hcq as Hgq. rewrite Hv. case_decide; [|done]. subst. congruence.
  - intros H. destruct (tv_lock0 i0 q0 reg H) as (? & ? & Hu). split_and!; try done.
    intros j reg'. rewrite Hlk. apply Hu.
  - rewrite Hv. case_decide; [congruence|eauto].
Qed.

(** The thread claims its cache, which had no owner. *)
Lemma Ctl_claim s h h' i q st' :
  Ctl s h -> moves i st' [Claim q] h h' -> gate_ (view i h) = Inside q -> (q < np)%nat ->
  gate_ st' = gate_ (view i h) -> claim_ st' = Some q -> lock_ st' = lock_ (view i h) ->
  released_ st' = released_ (view i h) -> owner (caches s i) = None -> Ctl (cas_owner i q s).1 h'.
Proof.
  intros HC Hm Hg Hq Hg' Hc Hl Hr Ho. pose proof (proj1 Hm) as Hv.
  assert (plain [Claim q]) as Hpl by by apply plain_one.
  pose proof (moves_keep lock_ _ _ _ _ _ Hm Hl) as Hlk.
  pose proof (moves_keep released_ _ _ _ _ _ Hm Hr) as Hrl.
  pose proof (moves_keep gate_ _ _ _ _ _ Hm Hg') as Hgt.
  unfold cas_owner. rewrite Ho. simpl fst.
  destruct HC. split; intros *; rewrite ?Hlk, ?Hrl, ?Hgt, ?(moves_event _ _ _ _ _ _ Hm) by apply (Hpl _ SeenZero);
    rewrite ?caches_set; simpl; eauto.
  - rewrite (count_same h h' i st' _ q0 Hm); [done|]. unfold counted. by rewrite Hg'.
  - rewrite Hv. case_decide; [|auto]. subst. congruence.
  - intros H. destruct (tv_lock0 i0 q0 reg H) as (? & ? & Hu). split_and!; try done.
    intros j reg'. rewrite Hlk. apply Hu.
  - intros H1 H2 Hoc. rewrite Hv. case_decide; [|eauto]. simpl in *. congruence.
  - intros Hoc. rewrite Hv. case_decide; [|eauto]. simpl in *. injection Hoc as <-. auto.
  - intros Hlv. case_decide; [subst; congruence|eauto].
  - intros Hd. destruct (tv_done0 q0 c Hd) as [Hz ?]. split; [done|]. case_decide; [|done]. simpl.
    intros [= ->]. destruct (tv_zero0 q0 i Hz) as [_ Hn]. congruence.
Qed.

(** A cache loses its owner; its thread has no claim on it left, or the cache
    is released under the lock. *)
Lemma Ctl_disown s s' h h' i c st' evs :
  Ctl s h -> moves i st' evs h h' ->
  (gate_ st' = gate_ (view i h) \/ exists q, gate_ (view i h) = Counted q /\ gate_ st' = Leaving q /\ c = i /\
     owner (caches s' c) = None) ->
  lock_ st' = lock_ (view i h) ->
  (claim_ st' = claim_ (view i h) \/ claim_ st' = None /\ c = i) ->
  (forall c', c' ∈ released_ st' -> c' ∈ released_ (view i h) \/ c' = c) -> plain evs ->
  pools s' = pools s -> (forall c', c' <> c -> caches s' c' = caches s c') ->
  (owner (caches s' c) = None \/ owner (caches s' c) = owner (caches s c) /\ claim_ st' = claim_ (view i h) /\
     forall reg q, lock_ st' = Some (q, reg) -> owner (caches s' c) <> Some q) ->
  Ctl s' h'.
Proof.
  intros HC Hm Hg Hl Hc Hr Hpl Hs Hs' Ho. pose proof (proj1 Hm) as Hv.
  pose proof (moves_keep lock_ _ _ _ _ _ Hm Hl) as Hlk.
  assert (forall j q, gate_ (view j h') = Inside q <-> gate_ (view j h) = Inside q) as Hgt.
  { intros j q. rewrite Hv. case_decide; [|done]. subst. destruct Hg as [->|(? & -> & -> & _)]; [done|split; congruence]. }
  assert (forall c' q, owner (caches s' c') = Some q ->
    owner (caches s c') = Some q /\ claim_ (view c' h') = claim_ (view c' h)) as Hcm.
  { intros c' q Hq. destruct (decide (c' = c)) as [->|Hne].
    - destruct Ho as [?|(Ho & Hcl & _)]; [congruence|]. split; [congruence|]. by apply (moves_keep claim_ _ _ _ _ _ Hm).
    - rewrite Hs' in Hq by done. split; [done|]. rewrite Hv. case_decide; [|done]. subst c'.
      destruct Hc as [->|[_ ?]]; congruence. }
  destruct HC. split; intros *; rewrite ?Hs, ?Hlk, ?Hgt, ?(moves_event _ _ _ _ _ _ Hm) by apply (Hpl _ SeenZero); eauto.
  - rewrite (count_same h h' i st' _ q Hm); [done|]. unfold counted. by destruct Hg as [->|(? & -> & -> & _)].
  - rewrite Hv. case_decide; [|auto]. subst i0. intros Hcq. apply tv_claim0.
    destruct Hc as [<-|[Hn _]]; [done|congruence].
  - intros Hlo. destruct (tv_lock0 i0 q reg Hlo) as (? & ? & Hu). split_and!; try done.
    intros j reg'. rewrite Hlk. apply Hu.
  - intros Hlo Hre Hoc. destruct (Hcm c0 q Hoc) as [Hoc' ->]. apply (tv_released0 i0 q reg c0); try done.
    revert Hre. rewrite Hv. case_decide; [|done]. subst i0. intros [Hin| ->]%Hr; [done|].
    destruct Ho as [?|(_ & _ & Hn)]; [congruence|]. by destruct (Hn reg q ltac:(congruence)).
  - intros Hoc. destruct (Hcm c0 q Hoc) as [Hoc' ->]. auto.
  - intros Hlv. destruct (owner (caches s' i0)) as [q'|] eqn:Eq; [|done]. destruct (Hcm i0 q' Eq) as [Eq' _].
    rewrite <- Eq'. revert Hlv. rewrite Hv. case_decide; [|eauto]. subst i0.
    destruct Hg as [->|(? & _ & _ & -> & ?)]; [eauto|congruence].
  - intros Hd. destruct (tv_done0 q c0 Hd) as [Hz Hn]. split; [done|]. by intros [Hoc _]%Hcm.
Qed.

(** The critical sections that leave the lock free: the registry becomes [r]. *)
Lemma Ctl_unlocked s h h' i q r st' evs :
  Ctl s h -> moves i st' evs h h' -> gate_ st' = gate_ (view i h) -> lock_ st' = None -> released_ st' = [] ->
  (claim_ st' = claim_ (view i h) \/ claim_ st' = None /\ claim_ (view i h) = Some q) ->
  (forall j reg, lock_ (view j h) = Some (q, reg) -> j = i) ->
  (forall c, owner (caches s c) = Some q -> c ∈ r \/ claim_ (view c h') = Some q) ->
  (forall c, c ∈ r -> (c < nc)%nat) ->
  (forall q', Closing q' ∉ evs) -> (forall q', CZero q' ∉ evs) ->
  (forall q', CDone q' SeenZero ∈ evs -> CZero q' ∈ events h /\ forall c, owner (caches s c) <> Some q') ->
  Ctl (set_registry q r false s) h'.
Proof.
  intros HC Hm Hg Hl Hr Hc Hlq Ho Hrb Hcl Hz Hd. pose proof Hm as [Hv He]. unfold set_registry.
  pose proof (moves_keep gate_ _ _ _ _ _ Hm Hg) as Hgt.
  assert (forall j q' reg, lock_ (view j h') = Some (q', reg) ->
    j <> i /\ q' <> q /\ lock_ (view j h) = Some (q', reg)) as Hlk.
  { intros j q' reg. rewrite Hv. case_decide; [congruence|]. intros Hj. split_and!; [done| |done].
    intros ->. by apply Hlq in Hj. }
  assert (forall c q', q' <> q -> claim_ (view c h) = Some q' -> claim_ (view c h') = Some q') as Hcm.
  { intros c q' Hne Hcq. rewrite Hv. case_decide; [|done]. subst c. destruct Hc as [->|[_ ?]]; congruence. }
  destruct HC. split; intros *; rewrite ?Hgt, ?pools_set.
  - rewrite (count_same h h' i st' evs q0 Hm), <- tv_active0; [by case_decide; subst|]. unfold counted. by rewrite Hg.
  - rewrite (moves_event _ _ _ _ _ _ Hm) by done. case_decide; subst; simpl; auto.
  - rewrite (moves_event _ _ _ _ _ _ Hm) by done. case_decide; subst; simpl; auto.
  - rewrite Hv. case_decide; [|auto]. subst. destruct Hc as [->|[-> _]]; [auto|done].
  - intros (Hj & Hq & Hlo)%Hlk. rewrite decide_False by done. destruct (tv_lock0 i0 q0 reg Hlo) as (? & ? & Hu).
    split_and!; [done|done|]. intros j reg' (_ & _ & Hj')%Hlk. eauto.
  - intros (Hj & Hq & Hlo)%Hlk. rewrite Hv, decide_False by done. intros Hin Hoc.
    apply (Hcm c q0 Hq). by apply (tv_released0 i0 q0 reg).
  - intros Hoc. destruct (tv_owner0 c q0 Hoc) as [? Hor]. split; [done|]. case_decide as Eq; [subst; by apply Ho|].
    destruct Hor; [by left|right; by apply Hcm].
  - apply tv_leaving0.
  - case_decide; [simpl; auto|eauto].
  - rewrite !He. intros [Hin|Hin].
    + destruct (tv_done0 q0 c Hin). auto.
    + destruct (Hd q0 Hin) as [Hzq Hno]. split; [by left|apply Hno].
Qed.

(** Taking the lock. *)
Lemma Ctl_lock s h h' i q st' :
  Ctl s h -> moves i st' [Lock q (registry_ (pools s q))] h h' -> registry_mutex_ (pools s q) = false ->
  gate_ st' = gate_ (view i h) -> claim_ st' = claim_ (view i h) ->
  lock_ (view i h) = None -> lock_ st' = Some (q, registry_ (pools s q)) -> released_ st' = [] ->
  Ctl (set_registry q (registry_ (pools s q)) true s) h'.
Proof.
  intros HC Hm Hmu Hg Hc Hl Hl' Hr. pose proof Hm as [Hv He]. unfold set_registry.
  assert (plain [Lock q (registry_ (pools s q))]) as Hpl by by apply plain_one.
  pose proof (moves_keep gate_ _ _ _ _ _ Hm Hg) as Hgt. pose proof (moves_keep claim_ _ _ _ _ _ Hm Hc) as Hcm.
  destruct HC.
  assert (forall j reg, lock_ (view j h) <> Some (q, reg)) as Hno.
  { intros j reg Hj. destruct (tv_lock0 j q reg Hj) as [? _]. congruence. }
  split; intros *; rewrite ?Hgt, ?Hcm, ?pools_set, ?(moves_event _ _ _ _ _ _ Hm) by apply (Hpl _ SeenZero); eauto.
  - rewrite (count_same h h' i st' _ q0 Hm), <- tv_active0; [by case_decide; subst|]. unfold counted. by rewrite Hg.
  - case_decide; subst; simpl; auto.
  - case_decide; subst; simpl; auto.
  - rewrite Hv. destruct (decide (i0 = i)) as [->|Hne].
    + rewrite Hl'. intros [= <- <-]. rewrite decide_True by done. split_and!; [done|done|].
      intros j reg'. rewrite Hv. case_decide; [done|]. by intros ?%Hno.
    + intros Hlo. assert (q0 <> q) by (intros ->; by apply Hno in Hlo). rewrite decide_False by done.
      destruct (tv_lock0 i0 q0 reg Hlo) as (? & ? & Hu). split_and!; [done|done|].
      intros j reg'. rewrite Hv. case_decide; [rewrite Hl'; congruence|apply Hu].
  - rewrite Hv. case_decide; [rewrite Hr; by intros _ ?%elem_of_nil|apply tv_released0].
  - intros Hoc. destruct (tv_owner0 c q0 Hoc) as [? Hor]. split; [done|].
    destruct Hor; [left; by case_decide; subst|by right].
  - case_decide; subst; simpl; eauto.
Qed.

(** The destructor closes the gate. *)
Lemma Ctl_close s h h' i q st' :
  Ctl s h -> moves i st' [Closing q] h h' -> st' = view i h -> Ctl (store_closing q s).1 h'.
Proof.
  intros HC Hm ->. pose proof Hm as [_ He]. unfold store_closing. simpl.
  assert (forall j, view j h' = view j h) as Hv by by apply (moves_keep (fun st => st) _ _ _ _ _ Hm).
  destruct HC. split; intros *; rewrite ?Hv, ?pools_set, ?He, ?list_elem_of_singleton; eauto.
  - rewrite (count_same h h' i _ _ q0 Hm), <- tv_active0 by done. by case_decide; subst.
  - case_decide; [done|]. intros [?|[=]]; [auto|congruence].
  - intros [Hz|]; [|done]. destruct (tv_zero0 q0 i0 Hz). split; [by case_decide|done].
  - intros Hlo. destruct (tv_lock0 i0 q0 reg Hlo) as (? & ? & Hu).
    split_and!; [by case_decide; subst|by case_decide; subst|]. intros j reg'. rewrite Hv. apply Hu.
  - intros Hoc. destruct (tv_owner0 c q0 Hoc) as [? Hor]. split; [done|].
    destruct Hor; [left; by case_decide; subst|by right].
  - case_decide; subst; simpl; eauto.
  - intros [Hd|]; [|done]. destruct (tv_done0 q0 c Hd). auto.
Qed.

(** The destructor sees no active operation. *)
Lemma Ctl_zero s h h' i q st' :
  Ctl s h -> moves i st' [CZero q] h h' -> st' = view i h -> Closing q ∈ events h ->
  (forall i, (nc <= i)%nat -> view i h = idle) -> active_ops_ (pools s q) <= 0 -> Ctl s h'.
Proof.
  intros HC Hm -> Hcq Hout Hz. pose proof Hm as [_ He].
  assert (forall j, view j h' = view j h) as Hv by by apply (moves_keep (fun st => st) _ _ _ _ _ Hm).
  destruct HC. split; intros *; rewrite ?Hv, ?He, ?list_elem_of_singleton; eauto.
  - by rewrite (count_same h h' i _ _ q0 Hm).
  - intros [?|[=]]. auto.
  - intros [?|[= ->]]; [auto|]. split; [auto|]. rewrite tv_active0 in Hz. intros Hg.
    destruct (decide (i0 < nc)%nat) as [Hlt|Hge]; [|rewrite Hout in Hg by lia; done].
    apply (count_zero _ nc i0) in Hz; [|done]. unfold counted in Hz. rewrite Hg in Hz.
    by rewrite bool_decide_true in Hz.
  - intros Hlo. destruct (tv_lock0 i0 q0 reg Hlo) as (? & ? & Hu). split_and!; try done.
    intros j reg'. rewrite Hv. apply Hu.
  - intros [Hd|]; [|done]. destruct (tv_done0 q0 c Hd). auto.
Qed.

(** ** Rules *)

(** A thread also knows what only it can make false of its own cache. *)
Definition local (i : nat) (o : tls_op) (es : list pev) (st : status) (K : C -> Prop) (s : sys) (h : tls_hist) : Prop :=
  knows i o es st h /\ K (data (caches s i)).

Definition env_closed (K : C -> Prop) : Prop := forall c c', cache_env c c' -> K c -> K c'.

Lemma stable_local i o es st K : env_closed K -> stable i (local i o es st K).
Proof.
  intros HK. apply stable_and; [apply stable_knows|]. intros c c' (j & Hj & _ & HG & _) Hc.
  destruct (HG i ltac:(congruence)) as [He _]. by apply (HK _ _ He).
Qed.

Lemma knows_op i o es st s h : Inv s h -> knows i o es st h -> op_ok i o.
Proof. intros [HO _] (fs & Ho & _). by apply (tv_ops _ _ HO i o fs). Qed.

Lemma contents_core q p s :
  (q < np)%nat ->
  stored (shards_ (core_of q s)) ++ contents (set_core q p s) ≡ₚ stored (shards_ p) ++ contents s.
Proof.
  intros Hq. unfold contents.
  pose proof (concat_update (fun q' => stored (shards_ (core_of q' s)))
    (fun q' => stored (shards_ (core_of q' (set_core q p s)))) np q Hq) as H.
  assert (core_of q (set_core q p s) = p) as Hc.
  { unfold core_of, set_core. by rewrite pools_set, decide_True. }
  cbn beta in H. rewrite Hc in H. rewrite !app_assoc, H; [done|].
  intros j Hj. unfold core_of, set_core. by rewrite pools_set, decide_False.
Qed.

Lemma contents_cache k x s :
  (k < nc)%nat -> held (data (caches s k)) ++ contents (set_cache k x s) ≡ₚ held (data x) ++ contents s.
Proof.
  intros Hk. unfold contents.
  pose proof (concat_update (fun k' => held (data (caches s k')))
    (fun k' => held (data (caches (set_cache k x s) k'))) nc k Hk) as H.
  cbn beta in H. rewrite (caches_set k k), decide_True in H by done.
  assert (forall j, j <> k -> held (data (caches s j)) = held (data (caches (set_cache k x s) j))) as Hj.
  { intros j Hj. by rewrite caches_set, decide_False. }
  specialize (H Hj). rewrite (Permutation_app_comm (concat _) (concat ((fun c => held (data (caches (set_cache k x s) c))) <$> _))).
  rewrite (Permutation_app_comm (concat _) (concat ((fun c => held (data (caches s c))) <$> _))).
  by rewrite !app_assoc, H.
Qed.

Lemma same_ctl_core q p s : same_ctl s (set_core q p s).
Proof.
  split; [done|]. intros q'. unfold set_core. rewrite pools_set. by case_decide; subst.
Qed.

Lemma same_ctl_cache k x s : owner x = owner (caches s k) -> same_ctl s (set_cache k x s).
Proof. intros Hx. split; [|done]. intros c. rewrite caches_set. by case_decide; subst. Qed.

(** Moving objects in the shards of a pool. *)
Lemma Inv_core s h i o es st q p evs :
  Inv s h -> knows i o es st h -> (q < np)%nat -> core_step (nshards q) (core_of q s) p evs ->
  Inv (set_core q p s) (h ++ (HLin i <$> (TE q <$> evs))) /\
  knows i o (es ++ evs) st (h ++ (HLin i <$> (TE q <$> evs))).
Proof.
  intros HI Hk Hq [Hst Hw]. apply (Inv_move s); [done|done|apply same_ctl_core| | |].
  - intros q' Hq'. unfold core_of, set_core. rewrite pools_set. case_decide as E; [by subst|].
    by apply (tv_core _ _ (proj1 HI)).
  - intros c. apply (tv_cache _ _ (proj1 HI)).
  - apply (Permutation_app_inv_l (stored (shards_ (core_of q s)))).
    rewrite (Permutation_app_swap_app (stored _) (takes evs)), (Permutation_app_swap_app (stored _) (drops evs)).
    rewrite (contents_core q p s Hq), app_assoc, (Permutation_app_comm (stored _) (stores evs)), Hst.
    by rewrite <- !app_assoc.
Qed.

(** Moving objects in a cache. *)
Lemma Inv_cache s h i o es st q k c evs :
  Inv s h -> knows i o es st h -> (k < nc)%nat -> cache_wf c ->
  stores evs ++ held (data (caches s k)) ≡ₚ takes evs ++ drops evs ++ held c ->
  let s' := set_cache k (mkCache c (owner (caches s k))) s in
  Inv s' (h ++ (HLin i <$> (TE q <$> evs))) /\ knows i o (es ++ evs) st (h ++ (HLin i <$> (TE q <$> evs))).
Proof.
  intros HI Hk Hkc Hw Hst s'. apply (Inv_move s); [done|done|by apply same_ctl_cache| | |].
  - apply (tv_core _ _ (proj1 HI)).
  - intros k'. unfold s'. rewrite caches_set. case_decide; [done|]. apply (tv_cache _ _ (proj1 HI)).
  - apply (Permutation_app_inv_l (held (data (caches s k)))).
    rewrite (Permutation_app_swap_app (held _) (takes evs)), (Permutation_app_swap_app (held _) (drops evs)).
    unfold s'. rewrite (contents_cache k _ s Hkc), app_assoc, (Permutation_app_comm (held _) (stores evs)), Hst.
    by rewrite <- !app_assoc.
Qed.

(** A program of the shards. *)
Lemma wp_on_core {A} i o es st K q (p : prog (pool F) pev A) R s h :
  env_closed K -> (q < np)%nat -> local i o es st K s h ->
  posts (pool_wf (nshards q)) (core_step (nshards q)) p R [] ->
  wp i (on_core q p) (fun x s h => exists ev, R ev x /\ local i o (es ++ ev) st K s h) (s, h).
Proof.
  intros HK Hq Hl Hp. apply (wp_lift _ _ _ i (core_of q) (set_core q) (TE q) (pool_wf (nshards q))
    (core_step (nshards q)) (fun ev s h => local i o (es ++ ev) st K s h) p R []).
  - intros s1 h1 [HO _]. by apply (tv_core _ _ HO).
  - intros ev. by apply stable_local.
  - intros ev s1 h1 p' ev' [Hk1 HK1] HI Hst _.
    destruct (Inv_core s1 h1 i o _ st q p' ev' HI Hk1 Hq Hst) as [HI' Hk'].
    split_and!; [by apply Gr_caches|done|]. rewrite app_assoc. by split.
  - by rewrite app_nil_r.
  - done.
Qed.

(** An access to the thread's own cache. *)
Lemma wp_cache {A} i o es st K (X : Set) (K' : X -> C -> Prop) q f (ev : X -> list pev) lin (k : X -> prog sys tev A) Q s h :
  (forall x, lin x = TE q <$> ev x) -> env_closed K -> local i o es st K s h ->
  (forall c c' x, cache_wf c -> K c -> f c = (c', x) ->
     cache_wf c' /\ stores (ev x) ++ held c ≡ₚ takes (ev x) ++ drops (ev x) ++ held c' /\ K' x c') ->
  (forall x s h, local i o (es ++ ev x) st (K' x) s h -> Inv s h -> wp i (k x) Q (s, h)) ->
  wp i (Act X (on_cache i f) lin k) Q (s, h).
Proof.
  intros Hlin HK Hl Hf Hk. apply (wp_act _ _ _ i (local i o es st K)); [by apply stable_local|done|].
  clear s h Hl. intros s h s2 x [Hkn HKc] HI Hfx _. rewrite Hlin. unfold on_cache in Hfx.
  destruct (f (data (caches s i))) as [c' x'] eqn:E. injection Hfx as <- <-.
  destruct (Hf _ _ _ (tv_cache _ _ (proj1 HI) i) HKc E) as (Hw & Hst & HK').
  destruct (Inv_cache s h i o es st q i c' (ev x') HI Hkn (proj1 (knows_op _ _ _ _ _ _ HI Hkn)) Hw Hst) as [HI' Hk'].
  split_and!; [|done|].
  - apply Gr_caches. intros c Hc. by rewrite caches_set, decide_False.
  - apply Hk; [|done]. split; [done|]. by rewrite caches_set, decide_True.
Qed.

(** An access to any cache that leaves it as its thread may find it. *)
Lemma wp_cache_other {A} i o es st q c0 (X : Set) f (ev : X -> list pev) lin (k : X -> prog sys tev A) Q s h :
  (forall x, lin x = TE q <$> ev x) -> (c0 < nc)%nat -> knows i o es st h ->
  (forall c c' x, cache_wf c -> f c = (c', x) -> cache_wf c' /\ cache_env c c' /\
     stores (ev x) ++ held c ≡ₚ takes (ev x) ++ drops (ev x) ++ held c') ->
  (forall x s h, knows i o (es ++ ev x) st h -> Inv s h -> wp i (k x) Q (s, h)) ->
  wp i (Act X (on_cache c0 f) lin k) Q (s, h).
Proof.
  intros Hlin Hc0 Hkn Hf Hk. apply (wp_act _ _ _ i (fun _ h => knows i o es st h)); [apply stable_knows|done|].
  clear s h Hkn. intros s h s2 x Hkn HI Hfx _. rewrite Hlin. unfold on_cache in Hfx.
  destruct (f (data (caches s c0))) as [c' x'] eqn:E. injection Hfx as <- <-.
  destruct (Hf _ _ _ (tv_cache _ _ (proj1 HI) c0) E) as (Hw & Hen & Hst).
  destruct (Inv_cache s h i o es st q c0 c' (ev x') HI Hkn Hc0 Hw Hst) as [HI' Hk'].
  split_and!; [|done|by apply Hk]. intros c Hc. cbn [fst]. rewrite caches_set.
  case_decide; [subst|split; [reflexivity|by left]]. split; [done|by left].
Qed.

(** [delete], of an object that left its slot before or that was handed in. *)
Lemma wp_delete_obj destroy {A} i o es st q x evs (k : unit -> prog sys tev A) Q s h :
  (q < np)%nat -> knows i o es st h -> stores evs ≡ₚ takes evs ++ drops evs ->
  (forall s h, knows i o (es ++ evs) st h -> Inv s h -> wp i (k tt) Q (s, h)) ->
  wp i (Act unit (delete_obj destroy q x) (fun _ => TE q <$> evs) k) Q (s, h).
Proof.
  intros Hq Hkn Hev Hk. apply (wp_act _ _ _ i (fun _ h => knows i o es st h)); [apply stable_knows|done|].
  clear s h Hkn. intros s h s2 [] Hkn HI [= <-] _.
  destruct (Inv_core s h i o es st q (mkPool (shards_ (core_of q s)) (destroy x (client (core_of q s)))) evs HI Hkn Hq)
    as [HI' Hk'].
  - split; simpl; [by rewrite Hev, <- app_assoc|]. by apply (tv_core _ _ (proj1 HI)).
  - split_and!; [by apply Gr_caches|done|by apply Hk].
Qed.

(** A read of any cache. *)
Lemma wp_cache_load {A} i o es st c0 (X : Set) (f : C -> X) (k : X -> prog sys tev A) Q s h :
  (c0 < nc)%nat -> knows i o es st h ->
  (forall x s h, knows i o es st h -> Inv s h -> wp i (k x) Q (s, h)) ->
  wp i (Act X (on_cache c0 (fun c => (c, f c))) (fun _ => []) k) Q (s, h).
Proof.
  intros Hc Hk Hs. apply (wp_cache_other i o es st 0 c0 X _ (fun _ => [])); [done|done|done| |].
  - intros c c' x Hw [= <- <-]. split_and!; [done|reflexivity|done].
  - intros x s1 h1 Hk1 HI1. rewrite app_nil_r in Hk1. by apply Hs.
Qed.

(** The exchange of a slot of a cache with null. *)
Definition slot_exchange (f : C -> C * Z) : Prop :=
  forall c c' p, cache_wf c -> f c = (c', p) -> cache_wf c' /\ cache_env c c' /\ held c ≡ₚ one p ++ held c'.

Lemma wp_exchange_delete destroy i o es st q c0 f s h :
  slot_exchange f -> (q < np)%nat -> (c0 < nc)%nat -> knows i o es st h ->
  wp i (exchange_delete destroy q c0 f) (fun _ _ h => exists ds, knows i o (es ++ (PDrop <$> ds)) st h) (s, h).
Proof.
  intros Hf Hq Hc Hk. unfold exchange_delete. simpl.
  apply (wp_cache_other i o es st q c0 Z f (fun p => PDrop <$> one p)); [|done|done| |].
  - intros p. unfold one. by destruct (p =? 0).
  - intros c c' p Hw Hp. destruct (Hf c c' p Hw Hp) as (? & ? & Hh). split_and!; [done|done|].
    destruct (drops_drop (one p)) as (-> & -> & ->). by rewrite Hh.
  - clear s h Hk. intros p s h Hk HI.
    assert (forall s h, knows i o (es ++ (PDrop <$> one p)) st h ->
      wp i (Ret tt) (fun _ _ h => exists ds, knows i o (es ++ (PDrop <$> ds)) st h) (s, h)) as Hend.
    { intros s1 h1 Hk1. apply wp_ret; [|by exists (one p)]. intros c c' Hr (ds & Hds). exists ds.
      by apply (stable_knows i o _ st c c'). }
    destruct (p =? 0); simpl negb; [by apply Hend|].
    apply (wp_delete_obj destroy i o (es ++ (PDrop <$> one p)) st q p []); [done|done|done|].
    intros s1 h1 Hk1 _. rewrite app_nil_r in Hk1. by apply Hend.
Qed.

(** The same by a thread that keeps the object. *)
Lemma wp_exchange_take {A} i o es st (K : C -> Prop) q f (k : Z -> prog sys tev A) Q s h :
  slot_exchange f -> env_closed K -> local i o es st K s h ->
  (forall p s h, local i o (es ++ took p) st (fun c' => exists c, K c /\ cache_wf c /\ f c = (c', p)) s h -> Inv s h ->
     wp i (k p) Q (s, h)) ->
  wp i (bind (exchange_take q i f) k) Q (s, h).
Proof.
  intros Hf HK Hl Hk. unfold exchange_take. simpl.
  apply (wp_cache i o es st K Z (fun p c' => exists c, K c /\ cache_wf c /\ f c = (c', p)) q f took); [done|done|done| |done].
  intros c c' p Hw HKc Hp. destruct (Hf c c' p Hw Hp) as (? & _ & Hh). split_and!; [done| |eauto].
  destruct (stores_one p) as (-> & -> & ->). done.
Qed.

(** ** The guard *)

Definition inside (q : nat) : status := mkStatus (Inside q) None None [].

Lemma core_set_pool q q' p (s : sys) : core p = core_of q s -> core_of q' (set_pool q p s) = core_of q' s.
Proof. intros Hp. unfold core_of. rewrite pools_set. by case_decide; subst. Qed.

(** An access that counts the thread in or out. *)
Lemma Inv_gate s h i o es st q d e :
  Inv s h -> knows i o es st h -> core_evs [e] = [] -> plain [e] ->
  (forall q', b2z (counted q' (status1 st e)) = b2z (counted q' st) + if decide (q' = q) then d else 0) ->
  (forall q', gate_ (status1 st e) <> Inside q' /\ gate_ (status1 st e) <> Leaving q') -> claim_ st = None -> claim_ (status1 st e) = None ->
  lock_ (status1 st e) = lock_ st -> released_ (status1 st e) = released_ st ->
  Inv (add_active q d s).1 (h ++ (HLin i <$> [e])) /\ knows i o es (status1 st e) (h ++ (HLin i <$> [e])).
Proof.
  intros HI Hk He Hpl Hd Hg Hc Hc' Hl Hr. pose proof (knows_view _ _ _ _ _ Hk) as Hv.
  apply (Inv_ctl s (add_active q d s).1 h i o es st [e]); [done|done| |done|done|].
  - intros q'. by apply core_set_pool.
  - intros h' Hm. apply (Ctl_gate s h h' i q d (status1 st e) [e]); rewrite ?Hv; try done; [apply HI|].
    by apply (knows_op _ _ _ _ _ _ HI Hk).
Qed.

Lemma b2z_counted q q' (st st' : status) d :
  gate_ st = Outside /\ (gate_ st' = Counted q \/ gate_ st' = Inside q) /\ d = 1 \/
  (gate_ st = Counted q \/ gate_ st = Inside q \/ gate_ st = Leaving q) /\ gate_ st' = Outside /\ d = -1 ->
  b2z (counted q' st') = b2z (counted q' st) + if decide (q' = q) then d else 0.
Proof.
  intros H. unfold counted. destruct H as [(-> & [-> | ->] & ->)|([-> | [-> | ->]] & -> & ->)];
    (destruct (decide (q' = q)) as [->|]; [rewrite bool_decide_true by done|rewrite bool_decide_false by congruence]; done).
Qed.

Lemma wp_op_guard i o es q s h :
  knows i o es idle h -> wp i (op_guard q) (fun b _ h => knows i o es (if b : bool then inside q else idle) h) (s, h).
Proof.
  intros Hk. unfold op_guard. simpl.
  apply (wp_silent _ _ _ i (fun _ h => knows i o es idle h)); [apply stable_knows|done|].
  clear s h Hk. intros s h s2 b Hk HI [= <- <-] _. split_and!; [apply tls_Gr_refl|done|].
  destruct (closing_ (pools s q)); [by apply wp_ret; [apply stable_knows|]|].
  apply (wp_act _ _ _ i (fun _ h => knows i o es idle h)); [apply stable_knows|done|].
  clear s h Hk HI. intros s h s2 [] Hk HI [= <-] _.
  destruct (Inv_gate s h i o es idle q 1 (GAdd q) HI Hk) as [HI' Hk']; try done; [by apply plain_one| |].
  { intros q'. apply b2z_counted. left. auto. }
  split_and!; [by apply Gr_caches|done|].
  set (st := status1 idle (GAdd q)) in *.
  apply (wp_act _ _ _ i (fun _ h => knows i o es st h)); [apply stable_knows|done|].
  clear s h Hk HI Hk' HI'. intros s h s2 b Hk HI [= <- <-] _. destruct (closing_ (pools s q)) eqn:Ec.
  - rewrite app_nil_r. split_and!; [apply tls_Gr_refl|done|].
    apply (wp_act _ _ _ i (fun _ h => knows i o es st h)); [apply stable_knows|done|].
    clear s h Hk HI Ec. intros s h s2 [] Hk HI [= <-] _.
    destruct (Inv_gate s h i o es st q (-1) (GBack q) HI Hk) as [HI' Hk']; try done; [by apply plain_one| |].
    { intros q'. apply b2z_counted. right. auto. }
    split_and!; [by apply Gr_caches|done|]. by apply wp_ret; [apply stable_knows|].
  - destruct (Inv_ctl s s h i o es st [GIn q] HI Hk) as [HI' Hk']; try done.
    { intros h' Hm. pose proof (knows_view _ _ _ _ _ Hk) as Hv.
      apply (Ctl_enter s h h' i q (inside q)); rewrite ?Hv; try done. apply HI. }
    split_and!; [by apply Gr_caches|done|]. by apply wp_ret; [apply stable_knows|].
Qed.

Lemma wp_op_guard_exit {A} i o es q (r : A) s h :
  knows i o es (inside q) h -> wp i (op_guard_exit q r) (fun x _ h => x = r /\ knows i o es idle h) (s, h).
Proof.
  intros Hk. unfold op_guard_exit. simpl.
  apply (wp_act _ _ _ i (fun _ h => knows i o es (inside q) h)); [apply stable_knows|done|].
  clear s h Hk. intros s h s2 [] Hk HI [= <-] _.
  destruct (Inv_gate s h i o es (inside q) q (-1) (GOut q) HI Hk) as [HI' Hk']; try done; [by apply plain_one| |].
  { intros q'. apply b2z_counted. right. auto. }
  split_and!; [by apply Gr_caches|done|]. apply wp_ret; [|done].
  apply stable_and; [apply stable_pure|apply stable_knows].
Qed.

(** ** The laws of the operations on a cache *)

Definition makes (es : list pev) : list Z := omap (fun e => match e with PMake x => Some x | _ => None end) es.

(** What [Get] has done when it returns [x]: it keeps [x] of what it took out of
    the shards and the cache, or it is [GetShared]. *)
Definition net_get (fac : option (F -> F * Z)) (x : Z) (es : list pev) : Prop :=
  (x <> 0 /\ takes es ≡ₚ x :: stores es /\ drops es = [] /\ makes es = []) \/ get_evs fac x es.

(** What [Put] of [x] has done. *)
Definition net_put (x : Z) (es : list pev) : Prop := stores es ≡ₚ x :: takes es /\ drops es = [].

Context (factory_ : nat -> option (F -> F * Z)) (destroy : Z -> F -> F) (ord : store_order).
Context {GL : Type} `{!CacheOps C F GL}.
(** The assertion at a loop head of [get_cached]. *)
Context (GI : GL -> list pev -> C -> Prop).
(** What [drain_cache] may return. *)
Context (Dr : list Z -> Prop).

Class CacheLaws : Prop := {
  law_wf_new : cache_wf cache_new;
  law_held_new : held cache_new = [];
  law_get_env l es : env_closed (GI l es);
  law_get_first c : cache_wf c -> GI get_first [] c;
  law_get i q hash l es st s h :
    (q < np)%nat -> local i (TGet i q hash) es st (GI l es) s h -> Inv s h ->
    wp i (get_cached q i hash l)
      (fun r s h => exists es', match r with
         | inl l => local i (TGet i q hash) es' st (GI l es') s h
         | inr x => knows i (TGet i q hash) es' st h /\ net_get (factory_ q) x es' end) (s, h);
  law_put i q hash x st s h :
    (q < np)%nat -> x <> 0 -> knows i (TPut i q hash x) [] st h -> Inv s h ->
    wp i (put_cached q i hash x) (fun _ _ h => exists es, knows i (TPut i q hash x) es st h /\ net_put x es) (s, h);
  law_clear i o es st q c s h :
    (q < np)%nat -> (c < nc)%nat -> knows i o es st h -> Inv s h ->
    wp i (clear_cache q c) (fun _ _ h => exists ds, knows i o (es ++ (PDrop <$> ds)) st h) (s, h);
  law_count i o es st c total s h :
    (c < nc)%nat -> knows i o es st h -> Inv s h ->
    wp i (count_cache c total) (fun _ _ h => knows i o es st h) (s, h);
  law_drain i o st q s h :
    (q < np)%nat -> knows i o [] st h -> Inv s h ->
    wp i (drain_cache q i) (fun items _ h => (Forall (fun x => x <> 0) items /\ Dr items) /\ knows i o (PTake <$> items) st h) (s, h);
  law_put_drained i o es st q hash items s h :
    (q < np)%nat -> knows i o es st h -> Forall (fun x => x <> 0) items /\ Dr items -> Inv s h ->
    wp i (put_drained q hash items)
      (fun _ _ h => exists es', knows i o (es ++ es') st h /\ stores es' = items /\ takes es' = [] /\ drops es' = []) (s, h)
}.

Context {Hlaws : CacheLaws}.

Definition tls_good (o : tls_op) (es : list tev) (r : tls_res) : Prop :=
  status_of es = idle /\
  match o with
  | TGet _ q _ =>
      (exists x, r = TPtr x /\ net_get (factory_ q) x (core_evs es)) \/
      ((r = TPtr 0 \/ r = TThrow) /\ core_evs es = [])
  | TPut _ _ _ x =>
      x <> 0 /\ r = TUnit /\ (net_put x (core_evs es) \/ core_evs es = [PStore x; PDrop x]) \/
      (x = 0 /\ r = TUnit \/ r = TThrow) /\ core_evs es = []
  | TClear _ | TDestroy _ => r = TUnit /\ exists ds, core_evs es = PDrop <$> ds
  | TSize _ => core_evs es = [] /\ exists n, r = TCount n
  | TExit _ _ => r = TUnit /\ stores (core_evs es) ≡ₚ takes (core_evs es)
  end.

(** [Get] and [Put] of a pool [q] by thread [i]. *)
Definition guarded (i q : nat) (o : tls_op) : Prop :=
  match o with TGet tid q' _ => tid = i /\ q' = q | TPut tid q' _ x => tid = i /\ q' = q /\ x <> 0 | _ => False end.

Definition LI (i : nat) (l : label (GL := GL)) (s : sys) (h : tls_hist) : Prop :=
  match l with
  | Entry o => knows i o [] idle h
  | EnsureRegistered o tid q => (guarded i q o /\ tid = i) /\ knows i o [] (inside q) h
  | RegistryPush o tid q =>
      (guarded i q o /\ tid = i) /\ knows i o [] (mkStatus (Inside q) (Some q) None []) h
  | Main o => exists st, knows i o [] st h /\
      match o with TExit _ _ => st = idle | _ => exists q, guarded i q o /\ st = inside q end
  | GetCached tid q hash l => tid = i /\ exists es, local i (TGet i q hash) es (inside q) (GI l es) s h
  | ClearLock q => knows i (TClear q) [] (inside q) h
  | ClearWait q => exists ds, knows i (TClear q) (PDrop <$> ds) (inside q) h
  | SizeLock q _ => knows i (TSize q) [] idle h
  | CloseBuffered q => knows i (TDestroy q) [] idle h
  | CloseWait q => knows i (TDestroy q) [] idle h /\ Closing q ∈ events h
  | CloseLock q seen => knows i (TDestroy q) [] idle h /\ (seen = SeenZero -> CZero q ∈ events h)
  | ExitUnregister tid q =>
      exists hash es, tid = i /\ stores es ≡ₚ takes es /\
         knows i (TExit i hash) es (mkStatus (Leaving q) None None []) h
  end.

Abbreviation Q := (Qloop LI tls_good).
Abbreviation body := (body factory_ destroy nshards ord).

Lemma stable_exists {T} i (P : T -> sys -> tls_hist -> Prop) :
  (forall x, stable i (P x)) -> stable i (fun s h => exists x, P x s h).
Proof. intros HP c c' Hr [x Hx]. exists x. by apply (HP x c c'). Qed.

Lemma tls_stable_LI i l : stable i (LI i l).
Proof.
  destruct l; unfold LI.
  - apply stable_knows.
  - apply stable_and; [apply stable_pure|apply stable_knows].
  - apply stable_and; [apply stable_pure|apply stable_knows].
  - apply stable_exists. intros st. apply stable_and; [apply stable_knows|apply stable_pure].
  - apply stable_and; [apply stable_pure|]. apply stable_exists. intros es. apply stable_local, law_get_env.
  - apply stable_knows.
  - apply stable_exists. intros ds. apply stable_knows.
  - apply stable_knows.
  - apply stable_knows.
  - apply stable_and; [apply stable_knows|]. apply (stable_events _ _ i (fun es => Closing q ∈ es)).
    intros es k Hin. apply elem_of_app. by left.
  - apply stable_and; [apply stable_knows|]. apply (stable_events _ _ i (fun es => seen = SeenZero -> CZero q ∈ es)).
    intros es k Hin Hs. apply elem_of_app. left. auto.
  - apply stable_exists. intros hash. apply stable_exists. intros es.
    apply stable_and; [apply stable_pure|]. apply stable_and; [apply stable_pure|apply stable_knows].
Qed.

Lemma tls_wp_jump i l s h : LI i l s h -> wp i (Ret (inl l)) (Q i) (s, h).
Proof. intros HL. apply (wp_ret _ _ _ i); [apply tls_stable_LI|done]. Qed.

Lemma tls_wp_done i o es r s h :
  knows i o es idle h -> (forall fs, core_evs fs = es -> status_of fs = idle -> tls_good o fs r) ->
  wp i (Ret (inr r)) (Q i) (s, h).
Proof.
  intros (fs & Ho & Hes & Hst) Hg. apply (wp_ret _ _ _ i); [apply stable_post|]. exists o, fs. auto.
Qed.

(** Leave the guard and return. *)
Lemma wp_leave i o es q r s h :
  knows i o es (inside q) h -> (forall fs, core_evs fs = es -> status_of fs = idle -> tls_good o fs r) ->
  wp i (op_guard_exit q (inr r)) (Q i) (s, h).
Proof.
  intros Hk Hg. eapply wp_mono; [|by apply (wp_op_guard_exit i o es q (inr r))].
  intros x s1 h1 _ [-> (fs & Ho & Hes & Hst)]. exists o, fs. auto.
Qed.

#[local] Arguments on_core : simpl never.
#[local] Arguments op_guard : simpl never.
#[local] Arguments op_guard_exit : simpl never.

Lemma local_true i o es st s h : knows i o es st h -> local i o es st (fun _ => True) s h.
Proof. by split. Qed.

Lemma closed_true : env_closed (fun _ => True).
Proof. done. Qed.

(** ** The operations *)

(** The store of [closing_] by the destructor. *)
Lemma wp_close i q (c : unit -> prog sys tev (label + tls_res)) s h :
  knows i (TDestroy q) [] idle h ->
  (forall s h, knows i (TDestroy q) [] idle h -> Closing q ∈ events h -> wp i (c tt) (Q i) (s, h)) ->
  wp i (Act unit (store_closing q) (fun _ => [Closing q]) c) (Q i) (s, h).
Proof.
  intros Hk Hc. apply (wp_act _ _ _ i (fun _ h => knows i (TDestroy q) [] idle h)); [apply stable_knows|done|].
  clear s h Hk. intros s h s2 [] Hk HI [= <-] _.
  destruct (Inv_ctl s (store_closing q s).1 h i (TDestroy q) [] idle [Closing q] HI Hk) as [HI' Hk']; try done.
  { intros q'. by apply core_set_pool. }
  { intros h' Hm. apply (Ctl_close s h h' i q idle); [apply HI|done|]. symmetry. by apply (knows_view _ _ _ _ _ Hk). }
  split_and!; [by apply Gr_caches|done|]. apply Hc; [done|].
  rewrite events_app, events_lin. apply elem_of_app. right. by apply list_elem_of_singleton.
Qed.

Lemma wp_start i o s h : LI i (Entry o) s h -> Inv s h -> wp i (body (Entry o)) (Q i) (s, h).
Proof.
  intros Hk HI. simpl in Hk. pose proof (knows_op _ _ _ _ _ _ HI Hk) as [Hic Hop].
  destruct o as [tid q hash|tid q hash x|q|q|q|tid hash]; unfold Tls.body, start_op.
  - destruct Hop as [-> Hq]. apply wp_bind; [done|]. eapply wp_mono; [|by apply wp_op_guard].
    intros b s1 h1 _ Hk1. destruct b; simpl.
    + apply tls_wp_jump. simpl. auto.
    + apply (tls_wp_done i (TGet i q hash) []); [done|]. intros fs Hfs Hst. split; [done|]. right. auto.
  - destruct Hop as [-> Hq]. destruct (Z.eqb_spec x 0) as [->|Hx].
    { apply (tls_wp_done i (TPut i q hash 0) []); [done|]. intros fs Hfs Hst. split; [done|]. right. auto. }
    apply wp_bind; [done|]. eapply wp_mono; [|by apply wp_op_guard]. intros b s1 h1 _ Hk1. destruct b; simpl.
    + apply tls_wp_jump. simpl. auto.
    + apply (wp_delete_obj destroy i (TPut i q hash x) [] idle q x [PStore x; PDrop x]); [done|done|done|].
      intros s2 h2 Hk2 _. apply (tls_wp_done i (TPut i q hash x) [PStore x; PDrop x]); [done|].
      intros fs Hfs Hst. split; [done|]. left. auto.
  - apply wp_bind; [done|]. eapply wp_mono; [|by apply wp_op_guard]. intros b s1 h1 _ Hk1. destruct b; simpl.
    + by apply tls_wp_jump.
    + apply (tls_wp_done i (TClear q) []); [done|]. intros fs Hfs Hst. split; [done|]. split; [done|]. by exists [].
  - apply wp_bind; [done|]. eapply wp_mono; [|apply (wp_on_core i (TSize q) [] idle (fun _ => True) q); [done|done|by apply local_true|apply posts_size]].
    intros n s1 h1 _ (ev & -> & [Hk1 _]). by apply tls_wp_jump.
  - destruct ord; simpl; [|by apply tls_wp_jump]. apply wp_close; [done|]. intros s1 h1 Hk1 Hc1. by apply tls_wp_jump.
  - apply tls_wp_jump. exists idle. auto.
Qed.

Lemma wp_ensure i o tid q s h :
  LI i (EnsureRegistered o tid q) s h -> Inv s h -> wp i (body (EnsureRegistered o tid q)) (Q i) (s, h).
Proof.
  intros [[Hg ->] Hk] HI. unfold Tls.body, ensure_registered. simpl.
  assert (forall s h, knows i o [] (inside q) h -> LI i (Main o) s h) as Hmain.
  { intros s1 h1 Hk1. exists (inside q). split; [done|]. destruct o; try done; eauto. }
  apply (wp_silent _ _ _ i (fun _ h => knows i o [] (inside q) h)); [apply stable_knows|done|].
  clear s h Hk HI. intros s h s2 own Hk HI [= <- <-] _. split_and!; [apply tls_Gr_refl|done|].
  case_decide; [apply tls_wp_jump; auto|]. simpl.
  apply (wp_act _ _ _ i (fun _ h => knows i o [] (inside q) h)); [apply stable_knows|done|].
  clear s h Hk HI H. intros s h s2 b Hk HI Hc _. unfold cas_owner in Hc. destruct (owner (caches s i)) as [q'|] eqn:Eo.
  - injection Hc as <- <-. rewrite app_nil_r. split_and!; [apply tls_Gr_refl|done|]. apply tls_wp_jump. auto.
  - injection Hc as <- <-.
    destruct (Inv_ctl s (cas_owner i q s).1 h i o [] (inside q) [Claim q] HI Hk) as [HI' Hk']; try done.
    { unfold cas_owner. by rewrite Eo. }
    { intros c. unfold cas_owner. rewrite Eo. cbn [fst]. rewrite caches_set. by case_decide; subst. }
    { intros h' Hm. pose proof (knows_view _ _ _ _ _ Hk) as Hv.
      apply (Ctl_claim s h h' i q (mkStatus (Inside q) (Some q) None [])); rewrite ?Hv; try done; [apply HI|].
      pose proof (knows_op _ _ _ _ _ _ HI Hk) as [_ Hop]. destruct o; try done; simpl in Hg, Hop; naive_solver. }
    unfold cas_owner in HI'. rewrite Eo in HI'. split_and!; [|done|by apply tls_wp_jump].
    apply Gr_caches. intros c Hc. by rewrite caches_set, decide_False.
Qed.

Lemma guarded_throw i q o fs : guarded i q o -> core_evs fs = [] -> status_of fs = idle -> tls_good o fs TThrow.
Proof. intros Hg Hfs Hst. split; [done|]. destruct o; try done; right; auto. Qed.

Lemma wp_registry_push i o tid q s h :
  LI i (RegistryPush o tid q) s h -> Inv s h -> wp i (body (RegistryPush o tid q)) (Q i) (s, h).
Proof.
  intros [[Hg ->] Hk] HI. unfold Tls.body, registry_push. set (st := mkStatus (Inside q) (Some q) None []) in *.
  simpl. intros [|]; simpl.
  - apply (wp_act _ _ _ i (fun _ h => knows i o [] st h)); [apply stable_knows|done|].
    clear s h Hk HI. intros s h s2 [] Hk HI [= <-] _. pose proof (knows_view _ _ _ _ _ Hk) as Hv.
    destruct (Inv_ctl s (store_owner i None s).1 h i o [] st [Unclaim q] HI Hk) as [HI' Hk']; try done.
    { intros c. unfold store_owner. cbn [fst]. rewrite caches_set. by case_decide; subst. }
    { intros h' Hm. apply (Ctl_disown s _ h h' i i (inside q) [Unclaim q]); rewrite ?Hv; try done; [apply HI|by left| | | | |].
      - right. auto.
      - intros c' Hc'. by apply elem_of_nil in Hc'.
      - by apply plain_one.
      - intros c' Hc'. unfold store_owner. cbn [fst]. by rewrite caches_set, decide_False.
      - left. unfold store_owner. cbn [fst]. by rewrite caches_set, decide_True. }
    split_and!; [|done|].
    + apply Gr_caches. intros c Hc. by rewrite caches_set, decide_False.
    + apply (wp_leave i o [] q); [done|]. intros fs. by apply (guarded_throw i q).
  - apply (wp_act _ _ _ i (fun _ h => knows i o [] st h)); [apply stable_knows|done|].
    clear s h Hk HI. intros s h s2 b Hk HI Hc _. unfold push_registry in Hc. pose proof (knows_view _ _ _ _ _ Hk) as Hv.
    destruct (registry_mutex_ (pools s q)) eqn:Em; injection Hc as <- <-.
    { rewrite app_nil_r. split_and!; [apply tls_Gr_refl|done|]. apply tls_wp_jump. done. }
    set (s' := set_registry q (registry_ (pools s q) ++ [i]) false s).
    destruct (Inv_ctl s s' h i o [] st [Register q] HI Hk) as [HI' Hk']; try done.
    { intros q'. by apply core_set_pool. }
    { intros h' Hm. pose proof (proj2 HI) as HC. apply (Ctl_unlocked s h h' i q _ (inside q) [Register q]); rewrite ?Hv; try done.
      - right. auto.
      - intros j reg Hj. destruct (tv_lock _ _ HC j q reg Hj) as [? _]. congruence.
      - intros c Hc. destruct (tv_owner _ _ HC c q Hc) as [_ [Hin|Hcl]]; [left; apply elem_of_app; by left|].
        rewrite (proj1 Hm). case_decide; [|by right]. left. apply elem_of_app. right. by apply list_elem_of_singleton.
      - intros c [Hin|Hin]%elem_of_app; [by apply (tv_reg _ _ HC q)|]. apply list_elem_of_singleton in Hin as ->.
        by apply (knows_op _ _ _ _ _ _ HI Hk).
      - intros q' Hin. by apply list_elem_of_singleton in Hin.
      - intros q' Hin. by apply list_elem_of_singleton in Hin.
      - intros q' Hin. by apply list_elem_of_singleton in Hin. }
    split_and!; [by apply Gr_caches|done|]. apply tls_wp_jump. exists (inside q). split; [done|]. destruct o; try done; eauto.
Qed.

(** *** The lock of the registry *)

Lemma wp_lock {A} i o es g (P : tls_hist -> Prop) q (k : option (list nat) -> prog sys tev A) QQ s h :
  (forall h l, P h -> P (h ++ l)) -> knows i o es (mkStatus g None None []) h -> P h ->
  (forall s h, knows i o es (mkStatus g None None []) h -> P h -> Inv s h -> wp i (k None) QQ (s, h)) ->
  (forall reg s h, Forall (fun c => c < nc)%nat reg -> knows i o es (mkStatus g None (Some (q, reg)) []) h -> P h ->
     Inv s h -> wp i (k (Some reg)) QQ (s, h)) ->
  wp i (Act _ (lock_registry q) (fun r => match r with Some reg => [Lock q reg] | None => [] end) k) QQ (s, h).
Proof.
  intros Hmon Hk HP Hn Hs. set (st := mkStatus g None None []) in *.
  apply (wp_act _ _ _ i (fun _ h => knows i o es st h /\ P h)); [|done|].
  { apply stable_and; [apply stable_knows|]. intros c c' (j & _ & (l & -> & _) & _). apply Hmon. }
  clear s h Hk HP. intros s h s2 r [Hk HP] HI Hc _. unfold lock_registry in Hc. pose proof (knows_view _ _ _ _ _ Hk) as Hv.
  destruct (registry_mutex_ (pools s q)) eqn:Em; injection Hc as <- <-.
  { rewrite app_nil_r. split_and!; [apply tls_Gr_refl|done|by apply Hn]. }
  set (reg := registry_ (pools s q)). set (s' := set_registry q reg true s).
  destruct (Inv_ctl s s' h i o es st [Lock q reg] HI Hk) as [HI' Hk']; try done.
  { intros q'. by apply core_set_pool. }
  { intros h' Hm. apply (Ctl_lock s h h' i q (mkStatus g None (Some (q, reg)) [])); rewrite ?Hv; try done. apply HI. }
  split_and!; [by apply Gr_caches|done|]. apply Hs; [|done|by apply Hmon|done].
  apply list.Forall_forall. intros c. apply (tv_reg _ _ (proj2 HI) q).
Qed.

(** The lock is given back and the registry becomes [r]. *)
Lemma Inv_unlock s h i o es g q reg rel r evs :
  Inv s h -> knows i o es (mkStatus g None (Some (q, reg)) rel) h ->
  evs = [Unlock q] \/ (exists b, evs = [Unlock q; CDone q b] /\
    (b = SeenZero -> CZero q ∈ events h /\ forall c, owner (caches s c) <> Some q)) ->
  (forall c, owner (caches s c) = Some q -> c ∈ r \/ claim_ (view c h) = Some q) ->
  (forall c, c ∈ r -> (c < nc)%nat) ->
  Inv (set_registry q r false s) (h ++ (HLin i <$> evs)) /\
  knows i o es (mkStatus g None None []) (h ++ (HLin i <$> evs)).
Proof.
  intros HI Hk He Ho Hr. set (st := mkStatus g None (Some (q, reg)) rel) in *.
  pose proof (knows_view _ _ _ _ _ Hk) as Hv.
  assert (foldl status1 st evs = mkStatus g None None []) as Hst by (destruct He as [->|(b & -> & _)]; done).
  rewrite <- Hst. apply (Inv_ctl s); [done|done| |done| |].
  - intros q'. by apply core_set_pool.
  - by destruct He as [->|(b & -> & _)].
  - rewrite Hst. intros h' Hm. pose proof (proj2 HI) as HC.
    apply (Ctl_unlocked s h h' i q r (mkStatus g None None []) evs); rewrite ?Hv; try done.
    + by left.
    + intros j reg' Hj. destruct (tv_lock _ _ HC i q reg) as (_ & _ & Hu); [by rewrite Hv|]. by apply (Hu j reg').
    + intros c Hc. destruct (Ho c Hc) as [?|Hcl]; [by left|right]. rewrite (proj1 Hm). case_decide; [|done].
      subst c. rewrite Hv in Hcl. done.
    + intros q'. destruct He as [->|(b & -> & _)]; rewrite ?elem_of_cons, ?elem_of_nil; naive_solver.
    + intros q'. destruct He as [->|(b & -> & _)]; rewrite ?elem_of_cons, ?elem_of_nil; naive_solver.
    + intros q'. destruct He as [->|(b & -> & Hb)]; rewrite ?elem_of_cons, ?elem_of_nil; [naive_solver|].
      intros [?|[[= -> <-]|?]]; [done|by apply Hb|done].
Qed.

Lemma wp_unlock {A} i o es g q reg rel (k : unit -> prog sys tev A) QQ s h :
  knows i o es (mkStatus g None (Some (q, reg)) rel) h ->
  (forall s h, knows i o es (mkStatus g None None []) h -> Inv s h -> wp i (k tt) QQ (s, h)) ->
  wp i (Act unit (unlock_registry q) (fun _ => [Unlock q]) k) QQ (s, h).
Proof.
  intros Hk Hs. apply (wp_act _ _ _ i (fun _ h => knows i o es (mkStatus g None (Some (q, reg)) rel) h));
    [apply stable_knows|done|].
  clear s h Hk. intros s h s2 [] Hk HI [= <-] _. pose proof (proj2 HI) as HC.
  destruct (Inv_unlock s h i o es g q reg rel (registry_ (pools s q)) [Unlock q] HI Hk) as [HI' Hk'].
  - by left.
  - intros c Hc. by apply (tv_owner _ _ HC).
  - apply (tv_reg _ _ HC).
  - split_and!; [by apply Gr_caches|done|by apply Hs].
Qed.

(** A read of an owner. *)
Lemma wp_load_owner {A} i o es st c (k : option nat -> prog sys tev A) QQ s h :
  knows i o es st h ->
  (forall own s h, knows i o es st h -> Inv s h -> wp i (k own) QQ (s, h)) ->
  wp i (Act _ (load_owner c) (fun _ => []) k) QQ (s, h).
Proof.
  intros Hk Hs. apply (wp_silent _ _ _ i (fun _ h => knows i o es st h)); [apply stable_knows|done|].
  clear s h Hk. intros s h s2 own Hk HI [= <- <-] _. split_and!; [apply tls_Gr_refl|done|by apply Hs].
Qed.

Lemma stable_drops i o es st : stable i (fun _ h => exists ds, knows i o (es ++ (PDrop <$> ds)) st h).
Proof. apply stable_exists. intros ds. apply stable_knows. Qed.

Lemma wp_clear_slots i o es st q reg s h :
  (q < np)%nat -> Forall (fun c => c < nc)%nat reg -> knows i o es st h -> Inv s h ->
  wp i (ClearTlsSlotsLocked q reg) (fun _ _ h => exists ds, knows i o (es ++ (PDrop <$> ds)) st h) (s, h).
Proof.
  intros Hq Hr. revert es s h. induction Hr as [|c reg Hc _ IH]; intros es s h Hk HI; simpl.
  - apply wp_ret; [apply stable_drops|]. exists []. by rewrite app_nil_r.
  - apply (wp_load_owner i o es st); [done|]. clear s h Hk HI. intros own s h Hk HI. case_decide; [|by apply IH].
    apply wp_bind; [done|]. eapply wp_mono; [|by apply law_clear].
    clear s h Hk HI. intros [] s h HI [ds Hk]. eapply wp_mono; [|by apply (IH (es ++ (PDrop <$> ds)))].
    intros [] s1 h1 _ [ds' Hk']. exists (ds ++ ds'). by rewrite fmap_app, app_assoc.
Qed.

Lemma wp_size_caches i o es st q reg total s h :
  Forall (fun c => c < nc)%nat reg -> knows i o es st h -> Inv s h ->
  wp i (size_caches q reg total) (fun _ _ h => knows i o es st h) (s, h).
Proof.
  intros Hr. revert total s h. induction Hr as [|c reg Hc _ IH]; intros total s h Hk HI; simpl.
  - apply wp_ret; [apply stable_knows|done].
  - apply (wp_load_owner i o es st); [done|]. clear s h Hk HI. intros own s h Hk HI. case_decide; [|by apply IH].
    apply wp_bind; [done|]. eapply wp_mono; [|by apply law_count]. intros n s1 h1 HI1 Hk1. by apply IH.
Qed.

(** The destructor takes the caches from their owner, one by one. *)
Lemma wp_release {A} i o es g q reg0 rel c (X : Set) (f : sys -> sys * X) ev (k : X -> prog sys tev A) QQ s h :
  (forall s s' x, f s = (s', x) -> pools s' = pools s /\
     (forall c', c' <> c -> caches s' c' = caches s c') /\ data (caches s' c) = data (caches s c) /\
     (ev x = [Released q c] /\ (owner (caches s' c) = None \/ s' = s /\ owner (caches s c) <> Some q) \/
      ev x = [] /\ s' = s)) ->
  knows i o es (mkStatus g None (Some (q, reg0)) rel) h ->
  (forall x s h, knows i o es (mkStatus g None (Some (q, reg0)) (match ev x with [] => rel | _ => c :: rel end)) h ->
     Inv s h -> wp i (k x) QQ (s, h)) ->
  wp i (Act X f ev k) QQ (s, h).
Proof.
  intros Hf Hk Hs. set (st := mkStatus g None (Some (q, reg0)) rel) in *.
  apply (wp_act _ _ _ i (fun _ h => knows i o es st h)); [apply stable_knows|done|].
  clear s h Hk. intros s h s2 x Hk HI Hfx _. destruct (Hf s s2 x Hfx) as (Hp & Hc & Hd & He).
  destruct He as [[He Ho]|[He ->]]; specialize (Hs x); rewrite He in Hs |- *.
  2:{ rewrite app_nil_r. split_and!; [apply tls_Gr_refl|done|by apply Hs]. }
  pose proof (knows_view _ _ _ _ _ Hk) as Hv.
  assert (forall c', data (caches s2 c') = data (caches s c')) as Hd'.
  { intros c'. destruct (decide (c' = c)) as [->|]; [done|by rewrite Hc]. }
  destruct (Inv_ctl s s2 h i o es st [Released q c] HI Hk) as [HI' Hk']; try done.
  { intros q'. unfold core_of. by rewrite Hp. }
  { intros h' Hm. apply (Ctl_disown s s2 h h' i c (mkStatus g None (Some (q, reg0)) (c :: rel)) [Released q c]);
      rewrite ?Hv; try done; [apply HI|by left|by left| |by apply plain_one|].
    - intros c' [->|?]%elem_of_cons; auto.
    - destruct Ho as [Ho|[-> Ho]]; [by left|right]. split_and!; [done|done|]. intros reg q' [= <- <-]. done. }
  split_and!; [|done|by apply Hs]. intros k' Hk''. cbn [fst]. rewrite Hd'. split; [reflexivity|].
  destruct (decide (k' = c)) as [->|]; [|left; by rewrite Hc]. destruct Ho as [Ho|[-> _]]; [by right|by left].
Qed.

Definition closed_all (i : nat) (o : tls_op) (q : nat) (reg0 : list nat) (h : tls_hist) (cs : list nat) : Prop :=
  exists ds rel, knows i o (PDrop <$> ds) (mkStatus Outside None (Some (q, reg0)) rel) h /\
    forall c, c ∈ cs -> c ∈ rel.

Lemma wp_close_caches i o q reg0 cs reg s h :
  (q < np)%nat -> Forall (fun c => c < nc)%nat reg -> closed_all i o q reg0 h cs -> Inv s h ->
  wp i (close_caches q reg) (fun _ _ h => closed_all i o q reg0 h (cs ++ reg)) (s, h).
Proof.
  intros Hq Hr. revert cs s h. induction Hr as [|c reg Hc _ IH]; intros cs s h (ds & rel & Hk & Hcs) HI; simpl.
  - apply wp_ret; [|exists ds, rel; by rewrite app_nil_r].
    apply stable_exists. intros ds'. apply stable_exists. intros rel'.
    apply stable_and; [apply stable_knows|apply stable_pure].
  - assert (forall s h cs, closed_all i o q reg0 h (cs ++ [c]) -> Inv s h ->
      wp i (close_caches q reg) (fun _ _ h => closed_all i o q reg0 h (cs ++ c :: reg)) (s, h)) as Hrest.
    { intros s1 h1 cs1 Ha HI1. rewrite cons_middle, app_assoc. by apply IH. }
    apply (wp_release i o (PDrop <$> ds) Outside q reg0 rel c); [|done|].
    { intros s1 s2 own [= <- <-]. split_and!; try done. case_decide; [by right|left]. split; [done|]. by right. }
    clear s h Hk HI. intros own s h Hk HI. case_decide as Eo; cbn [bind].
    + apply (wp_release i o (PDrop <$> ds) Outside q reg0 rel c); [|done|].
      { intros s1 s2 x [= <- <-]. split_and!; [done| | |].
        - intros c' Hc'. by rewrite caches_set, decide_False.
        - by rewrite caches_set, decide_True.
        - left. split; [done|]. left. by rewrite caches_set, decide_True. }
      clear s h Hk HI. intros _ s h Hk HI. apply wp_bind; [done|].
      eapply wp_mono; [|by apply law_clear]. clear s h Hk HI. intros _ s h HI [ds' Hk]. apply Hrest; [|done].
      exists (ds ++ ds'), (c :: rel). rewrite fmap_app. split; [done|].
      intros c' [?| ->%list_elem_of_singleton]%elem_of_app; [right; auto|left].
    + apply Hrest; [|done]. exists ds, (c :: rel). split; [done|].
      intros c' [?| ->%list_elem_of_singleton]%elem_of_app; [right; auto|left].
Qed.

Lemma wp_main_get i q hash s h :
  (q < np)%nat -> knows i (TGet i q hash) [] (inside q) h ->
  wp i (main_op factory_ destroy nshards (TGet i q hash)) (Q i) (s, h).
Proof.
  intros Hq Hk. cbn [main_op bind atomic].
  apply (wp_silent _ _ _ i (fun _ h => knows i (TGet i q hash) [] (inside q) h)); [apply stable_knows|done|].
  clear s h Hk. intros s h s2 own Hk HI [= <- <-] _. split_and!; [apply tls_Gr_refl|done|]. case_decide.
  - apply tls_wp_jump. split; [done|]. exists []. split; [done|]. apply law_get_first, (tv_cache _ _ (proj1 HI)).
  - apply wp_bind; [done|]. eapply wp_mono; [|apply (wp_on_core i (TGet i q hash) [] (inside q) (fun _ => True) q);
      [done|done|by apply local_true|by apply posts_get]].
    intros x s1 h1 _ (ev & (ev' & -> & Hev) & [Hk1 _]). apply (wp_leave i (TGet i q hash) ev'); [done|].
    intros fs Hfs Hst. split; [done|]. left. exists x. split; [done|]. right. by rewrite Hfs.
Qed.

Lemma wp_main_put i q hash x s h :
  (q < np)%nat -> x <> 0 -> knows i (TPut i q hash x) [] (inside q) h ->
  wp i (main_op factory_ destroy nshards (TPut i q hash x)) (Q i) (s, h).
Proof.
  intros Hq Hx Hk. cbn [main_op bind atomic].
  apply (wp_load_owner i (TPut i q hash x) [] (inside q)); [done|]. clear s h Hk. intros own s h Hk HI.
  apply wp_bind; [done|].
  assert (forall s h es, knows i (TPut i q hash x) es (inside q) h -> net_put x es ->
    wp i (op_guard_exit q (inr TUnit)) (Q i) (s, h)) as Hend.
  { intros s1 h1 es Hk1 Hn. apply (wp_leave i (TPut i q hash x) es); [done|]. intros fs Hfs Hst.
    split; [done|]. left. rewrite Hfs. auto. }
  case_decide.
  - eapply wp_mono; [|by apply law_put]. intros [] s1 h1 _ (es & Hk1 & Hn). by apply (Hend s1 h1 es).
  - eapply wp_mono; [|apply (wp_on_core i (TPut i q hash x) [] (inside q) (fun _ => True) q);
      [done|done|by apply local_true|by apply posts_put]].
    intros [] s1 h1 _ (ev & -> & [Hk1 _]). apply (Hend s1 h1 [PStore x]); [|done].
    simpl in Hk1. destruct (Z.eqb_spec x 0); [done|]. done.
Qed.

(** Deleting what an exiting thread found in its cache. *)
Lemma wp_delete_all i o es st q items s h :
  (q < np)%nat -> knows i o es st h -> Inv s h ->
  wp i (delete_all destroy q items)
    (fun _ _ h => exists es', knows i o (es ++ es') st h /\ stores es' = items /\ takes es' = []) (s, h).
Proof.
  intros Hq. revert es s h. induction items as [|x items IH]; intros es s h Hk HI; simpl.
  - apply wp_ret; [|exists []; by rewrite app_nil_r].
    apply stable_exists. intros es'. apply stable_and; [apply stable_knows|apply stable_pure].
  - apply (wp_delete_obj destroy i o es st q x [PStore x; PDrop x]); [done|done|done|].
    clear s h Hk HI. intros s h Hk HI. eapply wp_mono; [|by apply (IH (es ++ [PStore x; PDrop x]))].
    intros [] s1 h1 _ (es' & Hk1 & Hs & Ht). exists ([PStore x; PDrop x] ++ es').
    rewrite app_assoc. split; [done|]. rewrite stores_app, takes_app, Hs, Ht. done.
Qed.

Definition leaving (q : nat) : status := mkStatus (Leaving q) None None [].

(** The last part of [OnThreadExit]: what was drained goes to the shards or is
    deleted. *)
Lemma wp_exit_items i hash q items s h :
  (q < np)%nat -> Forall (fun x => x <> 0) items /\ Dr items ->
  knows i (TExit i hash) (PTake <$> items) (leaving q) h ->
  Inv s h ->
  wp i (match items with
        | [] => Ret (inl (ExitUnregister i q))
        | _ => let! closing := atomic (load_closing q) in
               do! (if negb closing then put_drained q hash items else delete_all destroy q items);
               Ret (inl (ExitUnregister i q))
        end)%prog (Q i) (s, h).
Proof.
  intros Hq Hnz Hk HI. destruct (takes_take items) as (T1 & T2 & T3).
  assert (forall es' s h, stores es' = items -> takes es' = [] ->
    knows i (TExit i hash) ((PTake <$> items) ++ es') (leaving q) h ->
    wp i (Ret (inl (ExitUnregister i q))) (Q i) (s, h)) as Hend.
  { intros es' s1 h1 H1 H2 Hk1. apply tls_wp_jump. exists hash, ((PTake <$> items) ++ es').
    split; [done|]. split; [|done]. by rewrite stores_app, takes_app, T1, T2, H1, H2, app_nil_r. }
  destruct items as [|x items].
  - apply (Hend []); [done|done|by rewrite app_nil_r].
  - cbn [bind atomic].
    apply (wp_silent _ _ _ i (fun _ h => knows i (TExit i hash) (PTake <$> x :: items) (leaving q) h)); [apply stable_knows|done|].
    clear s h Hk HI. intros s h s2 b Hk HI [= <- <-] _. split_and!; [apply tls_Gr_refl|done|]. apply wp_bind; [done|].
    destruct (closing_ (pools s q)); simpl negb.
    + eapply wp_mono; [|by apply wp_delete_all]. intros [] s1 h1 _ (es' & Hk1 & Hs & Ht). by apply (Hend es').
    + eapply wp_mono; [|by apply law_put_drained]. intros [] s1 h1 _ (es' & Hk1 & Hs & Ht & _). by apply (Hend es').
Qed.

Lemma tls_wp_exit i hash s h :
  knows i (TExit i hash) [] idle h -> wp i (OnThreadExit destroy i hash) (Q i) (s, h).
Proof.
  intros Hk. unfold OnThreadExit. cbn [bind atomic].
  apply (wp_silent _ _ _ i (fun _ h => knows i (TExit i hash) [] idle h)); [apply stable_knows|done|].
  clear s h Hk. intros s h s2 own Hk HI [= <- <-] _. split_and!; [apply tls_Gr_refl|done|].
  destruct (owner (caches s i)) as [q|] eqn:Eo.
  2:{ apply (tls_wp_done i (TExit i hash) []); [done|]. intros fs Hfs Hst. split; [done|]. by rewrite Hfs. }
  assert (q < np)%nat as Hq by by apply (tv_owner _ _ (proj2 HI)) in Eo as [? _].
  clear Eo. cbn [bind atomic_lin].
  apply (wp_act _ _ _ i (fun _ h => knows i (TExit i hash) [] idle h)); [apply stable_knows|done|].
  clear s h Hk HI. intros s h s2 [] Hk HI [= <-] _.
  destruct (Inv_gate s h i (TExit i hash) [] idle q 1 (XAdd q) HI Hk) as [HI' Hk']; try done; [by apply plain_one| |].
  { intros q'. apply b2z_counted. left. auto. }
  split_and!; [by apply Gr_caches|done|]. set (st := status1 idle (XAdd q)) in *.
  apply (wp_act _ _ _ i (fun _ h => knows i (TExit i hash) [] st h)); [apply stable_knows|done|].
  clear s h Hk HI HI' Hk'. intros s h s2 [] Hk HI [= <-] _. pose proof (knows_view _ _ _ _ _ Hk) as Hv.
  destruct (Inv_ctl s (store_owner i None s).1 h i (TExit i hash) [] st [XLeave q] HI Hk) as [HI' Hk']; try done.
  { intros c. unfold store_owner. cbn [fst]. rewrite caches_set. by case_decide; subst. }
  { intros h' Hm. assert (owner (caches (store_owner i None s).1 i) = None) as Hn.
    { unfold store_owner. cbn [fst]. by rewrite caches_set, decide_True. }
    apply (Ctl_disown s _ h h' i i (leaving q) [XLeave q]); rewrite ?Hv; try done; [apply HI| | | | | |].
    - right. exists q. auto.
    - by left.
    - intros c' Hc'. by apply elem_of_nil in Hc'.
    - by apply plain_one.
    - intros c' Hc'. unfold store_owner. cbn [fst]. by rewrite caches_set, decide_False.
    - by left. }
  split_and!; [|done|].
  { apply Gr_caches. intros c Hc. by rewrite caches_set, decide_False. }
  apply wp_bind; [done|]. eapply wp_mono; [|by apply (law_drain i (TExit i hash) (leaving q))].
  clear s h Hk HI Hv HI' Hk'. intros items s h HI [Hnz Hk]. by apply wp_exit_items.
Qed.

Lemma wp_main i o s h : LI i (Main o) s h -> Inv s h -> wp i (body (Main o)) (Q i) (s, h).
Proof.
  intros (st & Hk & Ho) HI. unfold Tls.body. pose proof (knows_op _ _ _ _ _ _ HI Hk) as [Hic Hop].
  destruct o as [tid q hash|tid q hash x|q|q|q|tid hash]; [| |by destruct Ho as (? & ? & _)..|].
  - destruct Ho as (q' & [-> <-] & ->), Hop as [_ Hq]. by apply wp_main_get.
  - destruct Ho as (q' & (-> & <- & Hx) & ->), Hop as [_ Hq]. by apply wp_main_put.
  - subst st. simpl in Hop. subst tid. by apply tls_wp_exit.
Qed.

Lemma wp_get_cached i tid q hash l s h :
  LI i (GetCached tid q hash l) s h -> Inv s h -> wp i (body (GetCached tid q hash l)) (Q i) (s, h).
Proof.
  intros (-> & es & Hl) HI. unfold Tls.body. pose proof (knows_op _ _ _ _ _ _ HI (proj1 Hl)) as (_ & _ & Hq).
  apply wp_bind; [done|]. eapply wp_mono; [|by apply (law_get i q hash l es (inside q))].
  clear s h Hl HI. intros [l'|x] s h HI (es' & Hk).
  - apply tls_wp_jump. split; [done|]. by exists es'.
  - destruct Hk as [Hk Hn]. apply (wp_leave i (TGet i q hash) es'); [done|]. intros fs Hfs Hst.
    split; [done|]. left. exists x. by rewrite Hfs.
Qed.

Lemma wp_clear_lock i q s h : LI i (ClearLock q) s h -> Inv s h -> wp i (body (ClearLock q)) (Q i) (s, h).
Proof.
  intros Hk HI. unfold Tls.body, clear_lock. pose proof (knows_op _ _ _ _ _ _ HI Hk) as (_ & Hq). cbn [bind atomic_lin].
  apply (wp_lock i (TClear q) [] (Inside q) (fun _ => True)); [done|done|done| |]; clear s h Hk HI.
  - intros s h Hk _ HI. by apply tls_wp_jump.
  - intros reg s h Hr Hk _ HI. apply wp_bind; [done|]. eapply wp_mono; [|by apply wp_clear_slots].
    clear s h Hk HI. intros [] s h HI [ds Hk]. cbn [bind atomic_lin].
    apply (wp_unlock i (TClear q) (PDrop <$> ds) (Inside q) q reg []); [done|]. clear s h Hk HI. intros s h Hk HI.
    apply tls_wp_jump. by exists ds.
Qed.

(** One check of the number of active operations. *)
Lemma wp_wait {A} i o es st q thr ev (k : option bool -> prog sys tev A) QQ s h :
  knows i o es st h -> Inv s h ->
  (forall r s h s', knows i o es st h -> Inv s h ->
     let n := active_ops_ (pools s q) in
     (r = Some (n <=? thr) \/ r = None /\ (n <=? thr) = false) -> s' = s ->
     Inv s (h ++ (HLin i <$> ev n)) /\ wp i (k r) QQ (s, h ++ (HLin i <$> ev n))) ->
  wp i (bind (WaitForActiveOpsAtMost q thr ev) k) QQ (s, h).
Proof.
  intros Hk HI Hs. unfold WaitForActiveOpsAtMost. cbn [bind choose atomic_lin]. intros b.
  apply (wp_act _ _ _ i (fun _ h => knows i o es st h)); [apply stable_knows|done|].
  clear s h Hk HI. intros s h s2 n Hk HI [= <- <-] _. set (n := active_ops_ (pools s q)) in *.
  assert (forall r, (r = Some (n <=? thr) \/ r = None /\ (n <=? thr) = false) ->
    Gr i (s, h) (s, h ++ (HLin i <$> ev n)) /\ Inv s (h ++ (HLin i <$> ev n)) /\
    wp i (k r) QQ (s, h ++ (HLin i <$> ev n))) as Hr.
  { intros r Hr. destruct (Hs r s h s Hk HI Hr eq_refl). split_and!; [by apply Gr_caches|done|done]. }
  destruct b; [|apply Hr; by left]. destruct (n <=? thr) eqn:E; apply Hr; auto.
Qed.

Lemma wp_clear_wait i q s h : LI i (ClearWait q) s h -> Inv s h -> wp i (body (ClearWait q)) (Q i) (s, h).
Proof.
  intros [ds Hk] HI. unfold Tls.body, clear_wait. pose proof (knows_op _ _ _ _ _ _ HI Hk) as (_ & Hq).
  apply (wp_wait i (TClear q) (PDrop <$> ds) (inside q)); [done|done|]. clear s h Hk HI.
  intros r s h _ Hk HI n _ _. rewrite app_nil_r. split; [done|]. destruct r as [b|]; [|apply tls_wp_jump; by exists ds].
  apply wp_bind; [done|]. eapply wp_mono; [|apply (wp_on_core i (TClear q) (PDrop <$> ds) (inside q) (fun _ => True) q);
    [done|done|by apply local_true|by apply posts_clear]].
  intros [] s1 h1 _ (ev & (ds' & ->) & [Hk1 _]). apply (wp_leave i (TClear q) (PDrop <$> ds ++ ds')).
  - by rewrite fmap_app.
  - intros fs Hfs Hst. split; [done|]. split; [done|]. by exists (ds ++ ds').
Qed.

Lemma wp_size_lock i q total s h : LI i (SizeLock q total) s h -> Inv s h -> wp i (body (SizeLock q total)) (Q i) (s, h).
Proof.
  intros Hk HI. unfold Tls.body, size_lock. cbn [bind atomic_lin].
  apply (wp_lock i (TSize q) [] Outside (fun _ => True)); [done|done|done| |]; clear s h Hk HI.
  - intros s h Hk _ HI. by apply tls_wp_jump.
  - intros reg s h Hr Hk _ HI. apply wp_bind; [done|]. eapply wp_mono; [|by apply wp_size_caches].
    clear s h Hk HI. intros n s h HI Hk. cbn [bind atomic_lin].
    apply (wp_unlock i (TSize q) [] Outside q reg []); [done|]. clear s h Hk HI. intros s h Hk HI.
    apply (tls_wp_done i (TSize q) []); [done|]. intros fs Hfs Hst. split; [done|]. split; [done|]. by exists n.
Qed.

Lemma view_range s h i : Inv s h -> (nc <= i)%nat -> view i h = idle.
Proof.
  intros [HO _] Hi. unfold view. destruct (opview i h) as [[o es]|] eqn:E; [|done].
  destruct (tv_ops _ _ HO i o es E). lia.
Qed.

Lemma wp_close_wait i q s h : LI i (CloseWait q) s h -> Inv s h -> wp i (body (CloseWait q)) (Q i) (s, h).
Proof.
  intros HL HI. unfold Tls.body, close_wait, WaitForActiveOpsAtMost. cbn [bind choose atomic_lin]. intros b.
  apply (wp_act _ _ _ i (LI i (CloseWait q))); [apply tls_stable_LI|done|].
  clear s h HL HI. intros s h s2 n [Hk Hc] HI [= <- <-] _. set (n := active_ops_ (pools s q)).
  destruct (Z.leb_spec n 0) as [Hle|Hgt].
  - destruct (Inv_ctl s s h i (TDestroy q) [] idle [CZero q] HI Hk) as [HI' Hk']; try done.
    { intros h' Hm. apply (Ctl_zero s h h' i q idle); try done; [apply HI| |].
      - symmetry. by apply (knows_view _ _ _ _ _ Hk).
      - intros j Hj. by apply (view_range s). }
    split_and!; [by apply Gr_caches|done|].
    assert (LI i (CloseLock q SeenZero) s (h ++ (HLin i <$> [CZero q]))) as HL.
    { split; [done|]. intros _. rewrite events_app, events_lin. apply elem_of_app. right. by apply list_elem_of_singleton. }
    destruct b; simpl; by apply tls_wp_jump.
  - rewrite app_nil_r. split_and!; [apply tls_Gr_refl|done|]. destruct b; simpl; apply tls_wp_jump; by split.
Qed.

Lemma wp_close_buffered i q s h :
  LI i (CloseBuffered q) s h -> Inv s h -> wp i (body (CloseBuffered q)) (Q i) (s, h).
Proof.
  intros Hk HI. unfold Tls.body, close_buffered, WaitForActiveOpsAtMost. cbn [bind choose]. intros [|]; simpl.
  - apply wp_close; [done|]. intros s1 h1 Hk1 Hc1. by apply tls_wp_jump.
  - intros b. apply (wp_silent _ _ _ i (LI i (CloseBuffered q))); [apply tls_stable_LI|done|].
    clear s h Hk HI. intros s h s2 n Hk HI [= <- <-] _. split_and!; [apply tls_Gr_refl|done|].
    destruct b, (active_ops_ (pools s q) <=? 0); simpl;
      (apply wp_close; [done|]; intros s1 h1 Hk1 Hc1; by apply tls_wp_jump) || by apply tls_wp_jump.
Qed.

(** The end of the critical section of the destructor. *)
Lemma close_registry s h i q reg seen :
  Inv s h -> closed_all i (TDestroy q) q reg h reg -> (seen = SeenZero -> CZero q ∈ events h) ->
  exists ds, let h' := h ++ (HLin i <$> [Unlock q; CDone q seen]) in
  Inv (set_registry q [] false s) h' /\ knows i (TDestroy q) (PDrop <$> ds) idle h'.
Proof.
  intros HI (ds & rel & Hk & Hin) Hz. exists ds. pose proof (proj2 HI) as HC. pose proof (knows_view _ _ _ _ _ Hk) as Hv.
  destruct (tv_lock _ _ HC i q reg) as (_ & Hreg & _); [by rewrite Hv|].
  assert (forall c, owner (caches s c) = Some q -> claim_ (view c h) = Some q) as Hcl.
  { intros c Hc. destruct (tv_owner _ _ HC c q Hc) as [_ [Hr|?]]; [|done].
    apply (tv_released _ _ HC i q reg c); [by rewrite Hv| |done]. rewrite Hv. apply Hin. by rewrite <- Hreg. }
  apply (Inv_unlock s h i (TDestroy q) (PDrop <$> ds) Outside q reg rel [] [Unlock q; CDone q seen] HI Hk).
  - right. exists seen. split; [done|]. intros Hs. split; [auto|]. intros c Hc%Hcl%(tv_claim _ _ HC).
    by destruct (tv_zero _ _ HC q c (Hz Hs)).
  - intros c Hc. right. auto.
  - intros c Hc. by apply elem_of_nil in Hc.
Qed.

Lemma wp_close_lock i q seen s h : LI i (CloseLock q seen) s h -> Inv s h -> wp i (body (CloseLock q seen)) (Q i) (s, h).
Proof.
  intros [Hk Hz] HI. unfold Tls.body, close_lock. pose proof (knows_op _ _ _ _ _ _ HI Hk) as (_ & Hq). cbn [bind atomic_lin].
  set (P := fun h : tls_hist => seen = SeenZero -> CZero q ∈ events h).
  assert (forall h l, P h -> P (h ++ l)) as HP.
  { intros h1 l H1 Hs. rewrite events_app. apply elem_of_app. left. auto. }
  apply (wp_lock i (TDestroy q) [] Outside P); [done|done|done| |]; clear s h Hk HI Hz.
  - intros s h Hk Hz HI. apply tls_wp_jump. by split.
  - intros reg s h Hr Hk Hz HI. apply wp_bind; [done|].
    eapply wp_mono; [|apply (wp_frame _ _ _ i _ (fun _ _ h => closed_all i (TDestroy q) q reg h ([] ++ reg)) P); [done|exact Hz|];
      apply (wp_close_caches i (TDestroy q) q reg [] reg); [done|done| |done]].
    2:{ exists [], []. split; [done|]. intros c Hc. by apply elem_of_nil in Hc. }
    clear s h Hk Hz HI. intros [] s h HI [Hca Hz]. cbn [app bind atomic_lin] in *.
    apply (wp_act _ _ _ i (fun _ h => closed_all i (TDestroy q) q reg h reg /\ P h)); [|done|].
    { apply stable_and.
      - do 2 (apply stable_exists; intros ?). apply stable_and; [apply stable_knows|apply stable_pure].
      - intros c c' (j & _ & (l & -> & _) & _). apply HP. }
    clear s h Hca Hz HI. intros s h s2 [] [Hca Hz] HI [= <-] _.
    destruct (close_registry s h i q reg seen HI Hca Hz) as (ds & HI' & Hk').
    split_and!; [by apply Gr_caches|done|]. apply wp_bind; [done|].
    eapply wp_mono; [|apply (wp_on_core i (TDestroy q) (PDrop <$> ds) idle (fun _ => True) q);
      [done|done|by apply local_true|by apply posts_clear]].
    intros [] s1 h1 _ (ev & (ds' & ->) & [Hk1 _]). apply (tls_wp_done i (TDestroy q) (PDrop <$> ds ++ ds')).
    + by rewrite fmap_app.
    + intros fs Hfs Hst. split; [done|]. split; [done|]. by exists (ds ++ ds').
Qed.

Lemma elem_erase (c tid : nat) l : c <> tid -> c ∈ l -> c ∈ erase tid l.
Proof.
  intros Hne Hin. induction l as [|x l IH]; [done|]. simpl. apply elem_of_cons in Hin as [->|Hin].
  - rewrite decide_False by done. left.
  - case_decide; [done|]. right. auto.
Qed.

Lemma erase_elem (c tid : nat) l : c ∈ erase tid l -> c ∈ l.
Proof.
  induction l as [|x l IH]; [done|]. simpl. case_decide; [by right|]. rewrite !elem_of_cons. naive_solver.
Qed.

Lemma wp_exit_unregister i tid q s h :
  LI i (ExitUnregister tid q) s h -> Inv s h -> wp i (body (ExitUnregister tid q)) (Q i) (s, h).
Proof.
  intros (hash & es & -> & Hes & Hk) HI. unfold Tls.body, exit_unregister. cbn [bind atomic atomic_lin].
  apply (wp_silent _ _ _ i (fun _ h => knows i (TExit i hash) es (leaving q) h)); [apply stable_knows|done|].
  clear s h Hk HI. intros s h s2 b Hk HI Hc _. unfold erase_registry in Hc. pose proof (knows_view _ _ _ _ _ Hk) as Hv.
  destruct (registry_mutex_ (pools s q)) eqn:Em; injection Hc as <- <-.
  { split_and!; [apply tls_Gr_refl|done|]. apply tls_wp_jump. by exists hash, es. }
  set (s' := set_registry q (erase i (registry_ (pools s q))) false s).
  destruct (Inv_ctl s s' h i (TExit i hash) es (leaving q) [] HI Hk) as [HI' Hk']; try done.
  { intros q'. by apply core_set_pool. }
  { intros h' Hm. pose proof (proj2 HI) as HC. apply (Ctl_unlocked s h h' i q _ (leaving q) []); rewrite ?Hv; try done.
    - by left.
    - intros j reg Hj. destruct (tv_lock _ _ HC j q reg Hj) as [? _]. congruence.
    - intros c Hc. assert (c <> i) as Hci.
      { intros ->. rewrite (tv_leaving _ _ HC i q) in Hc; [done|by rewrite Hv]. }
      destruct (tv_owner _ _ HC c q Hc) as [_ [Hin|Hcl]]; [left; by apply elem_erase|right].
      by rewrite (proj1 Hm), decide_False.
    - intros c Hc%erase_elem. by apply (tv_reg _ _ HC q).
    - intros q' Hin. by apply elem_of_nil in Hin.
    - intros q' Hin. by apply elem_of_nil in Hin.
    - intros q' Hin. by apply elem_of_nil in Hin. }
  simpl in HI', Hk'. rewrite app_nil_r in HI', Hk'. split_and!; [by apply Gr_caches|done|].
  apply (wp_act _ _ _ i (fun _ h => knows i (TExit i hash) es (leaving q) h)); [apply stable_knows|done|].
  clear s h Hk HI Hv Em s' HI' Hk'. intros s h s2 [] Hk HI [= <-] _.
  destruct (Inv_gate s h i (TExit i hash) es (leaving q) q (-1) (XSub q) HI Hk) as [HI' Hk']; try done; [by apply plain_one| |].
  { intros q'. apply b2z_counted. right. auto. }
  split_and!; [by apply Gr_caches|done|]. apply (tls_wp_done i (TExit i hash) es); [done|].
  intros fs Hfs Hst. split; [done|]. by rewrite Hfs.
Qed.

(** ** The proof outline *)

Lemma tls_Inv_item s h x :
  Inv s h -> (forall i e, x <> HLin i e) -> (forall j, view j (h ++ [x]) = view j h) ->
  (forall i o es, opview i (h ++ [x]) = Some (o, es) -> op_ok i o) -> Inv s (h ++ [x]).
Proof.
  intros [HO HC] Hx Hv Hop. assert (events (h ++ [x]) = events h) as He.
  { rewrite events_app. destruct x; simpl; rewrite ?app_nil_r; try done. by destruct (Hx i e). }
  split.
  - destruct HO. split; rewrite ?He; done.
  - apply (Ctl_same s s h); [done|by split|done|]. intros e _. by rewrite He.
Qed.

Lemma tls_outline : proof_outline Entry body Inv Gr tls_env LI tls_good.
Proof.
  split.
  - intros i o s h HI Hv Henv'. split_and!; [by apply Gr_caches| |].
    + apply tls_Inv_item; [done|done| |].
      * intros j. by apply view_call.
      * intros j o' es. rewrite opview_call. case_decide as Ej; [|apply (tv_ops _ _ (proj1 HI))].
        intros [= <- _]. apply Henv'. apply elem_of_app. right. subst. by apply list_elem_of_singleton.
    + exists []. rewrite opview_call, decide_True by done. done.
  - intros i r s h HI (o & es & Ho & Hst & Hg). split; [by apply Gr_caches|]. apply tls_Inv_item; [done|done| |].
    + intros j. apply view_ret. unfold view. by rewrite Ho.
    + intros j o' es'. rewrite opview_ret. case_decide; [done|]. apply (tv_ops _ _ (proj1 HI)).
  - intros i l s h HL HI. destruct l.
    + by apply wp_start.
    + by apply wp_ensure.
    + by apply wp_registry_push.
    + by apply wp_main.
    + by apply wp_get_cached.
    + by apply wp_clear_lock.
    + by apply wp_clear_wait.
    + by apply wp_size_lock.
    + by apply wp_close_buffered.
    + by apply wp_close_wait.
    + by apply wp_close_lock.
    + by apply wp_exit_unregister.
Qed.

Lemma tls_inv_new f : Inv (sys_new nshards f) [].
Proof.
  split; split; simpl; try done.
  - intros q _. pose proof (Hns q). apply pool_wf_new; lia.
  - intros _. apply law_wf_new.
  - unfold contents. rewrite !concat_empty; [done| |].
    + intros c. apply law_held_new.
    + intros q. apply stored_new.
  - intros q. symmetry. by apply count_none.
  - intros q Hq. by apply elem_of_nil in Hq.
  - intros q i Hq. by apply elem_of_nil in Hq.
  - intros q c Hc. by apply elem_of_nil in Hc.
  - intros q c Hc. by apply elem_of_nil in Hc.
Qed.

Lemma tls_adequacy f threads cfg :
  reach Entry body tls_env (sys_new nshards f) threads cfg ->
  Inv (shared cfg) (hist cfg) /\ Forall (fun '(o, es, r) => tls_good o es r) (completed (hist cfg)).
Proof.
  intros Hreach. destruct (rg_adequacy _ _ _ _ _ _ _ tls_outline _ _ _
    (fun i c => tls_Gr_refl i c) (tls_inv_new f) Hreach) as (HI & _ & Hg). done.
Qed.

(** The destructor of [q] whose wait ended without an active operation leaves no
    cache to [q], and no operation of [q] runs any more. *)
Lemma tls_closed f threads cfg q :
  reach Entry body tls_env (sys_new nshards f) threads cfg -> CDone q SeenZero ∈ events (hist cfg) ->
  (forall c, owner (caches (shared cfg) c) <> Some q) /\ closing_ (pools (shared cfg) q) = true /\
  forall i, gate_ (view i (hist cfg)) <> Inside q.
Proof.
  intros [[_ HC] _]%tls_adequacy Hd. destruct (tv_done _ _ HC q 0%nat Hd) as [Hz _].
  split_and!; [|by apply (tv_zero _ _ HC q 0%nat)|].
  - intros c. by destruct (tv_done _ _ HC q c Hd).
  - intros i. by destruct (tv_zero _ _ HC q i Hz).
Qed.

End inv.

(** The client discipline, as a test. *)
Definition op_okb (np nc i : nat) (o : tls_op) : bool :=
  (i <? nc)%nat &&
  match o with
  | TGet tid q _ | TPut tid q _ _ => (tid =? i)%nat && (q <? np)%nat
  | TClear q | TSize q | TDestroy q => (q <? np)%nat
  | TExit tid _ => (tid =? i)%nat
  end.

Definition tls_envb (np nc : nat) {C F} (s : sys C F) (h : tls_hist) : bool :=
  forallb (fun x => match x with HCall i o => op_okb np nc i o | _ => true end) h.

Lemma tls_envb_ok np nc {C F} (s : sys C F) h : tls_envb np nc s h = true -> tls_env np nc s h.
Proof.
  intros Hb i o Hin%list_elem_of_In. apply (proj1 (forallb_forall _ _) Hb) in Hin.
  apply andb_true_iff in Hin as [Hi%Nat.ltb_lt Ho]. split; [done|].
  destruct o; rewrite ?andb_true_iff, ?Nat.eqb_eq, ?Nat.ltb_lt in Ho; done.
Qed.

Arguments wp_cache {C F held cache_wf cache_env nshards np nc Henv A}.
Arguments wp_cache_other {C F held cache_wf cache_env nshards np nc Henv A}.
Arguments wp_cache_load {C F held cache_wf cache_env nshards np nc Henv A}.
Arguments wp_on_core {C F held cache_wf cache_env nshards np nc Henv A}.
Arguments wp_exchange_delete {C F held cache_wf cache_env nshards np nc Henv}.
Arguments wp_exchange_take {C F held cache_wf cache_env nshards np nc Henv A}.
Arguments knows_op {C F held cache_wf nshards np nc}.
