(* ===== verification/TlsPool.v ===== *)
(** * TlsPool: the object pool with one thread-local slot

    Models [ObjectPoolTLS<T>] ([include/lscq/object_pool_tls.hpp]): the cache of a
    thread is the pointer [private_obj]; the rest is [Tls].

    [tls_ownership] and [tls_destructor] hold in every interleaving of any number
    of threads and pools; [tls_cross_pool], [tls_exit_after_destruction] and
    [tls_close_reordered] show three races of the destructor. *)

From stdpp Require Import base list numbers option functions.
From Stdlib Require Import ZArith Lia.
From S2P Require Import Prelude Conc Pool PoolProofs Tls TlsProofs.

Local Open Scope Z_scope.

Record TlsSlot := mkSlot { private_obj : Z }.

Definition load_private (c : TlsSlot) : TlsSlot * Z := (c, private_obj c).

(** [private_obj.exchange(nullptr)]. *)
Definition exchange_private (c : TlsSlot) : TlsSlot * Z := (mkSlot 0, private_obj c).

(** [private_obj.compare_exchange_strong(nullptr, obj)]. *)
Definition cas_private (obj : Z) (c : TlsSlot) : TlsSlot * bool :=
  if private_obj c =? 0 then (mkSlot obj, true) else (c, false).

Section tls_pool.
Context {F : Type} (factory_ : nat -> option (F -> F * Z)) (destroy : Z -> F -> F) (nshards : nat -> nat).

Abbreviation tprog := (prog (sys TlsSlot F) tev).

(** [Get], from the check of the owner on. *)
Definition tls_get (q tid hash : nat) : tprog (unit + Z) :=
  (let shared := let! x := on_core q (GetShared (factory_ q) (nshards q) hash) in Ret (inr x) in
   let! p := atomic (on_cache tid load_private) in
   if negb (p =? 0) then
     let! p := exchange_take q tid exchange_private in
     if negb (p =? 0) then Ret (inr p) else shared
   else shared)%prog.

(** [Put], from the check of the owner on. *)
Definition tls_put (q tid hash : nat) (obj : Z) : tprog unit :=
  (let! ok := atomic_lin (on_cache tid (cas_private obj))
                (fun ok : bool => if ok then [TE q (PStore obj)] else []) in
   if (ok : bool) then Ret tt else on_core q (PutShared (nshards q) hash obj))%prog.

Definition tls_count (tid : nat) (total : Z) : tprog Z :=
  (let! p := atomic (on_cache tid load_private) in
   Ret (if negb (p =? 0) then add64 total 1 else total))%prog.

(** The exchange of [OnThreadExit], and its [PutShared]. *)
Definition tls_drain (q tid : nat) : tprog (list Z) :=
  (let! p := exchange_take q tid exchange_private in Ret (one p))%prog.

Definition tls_put_drained (q hash : nat) (items : list Z) : tprog unit :=
  match items with
  | [] => Ret tt
  | p :: _ => on_core q (PutShared (nshards q) hash p)
  end.

#[local] Instance tls_ops : CacheOps TlsSlot F unit := {
  cache_new := mkSlot 0;
  get_first := tt;
  get_cached q tid hash _ := tls_get q tid hash;
  put_cached := tls_put;
  clear_cache q tid := exchange_delete destroy q tid exchange_private;
  count_cache := tls_count;
  drain_cache := tls_drain;
  put_drained := tls_put_drained
}.

Definition ObjectPoolTLS_body (ord : store_order) : label -> tprog (label + tls_res) :=
  body factory_ destroy nshards ord.

Definition ObjectPoolTLS_new (f : nat -> F) : sys TlsSlot F := sys_new nshards f.

(** ** The laws *)

Context (np nc : nat).
Hypothesis (Hns : forall q, (0 < nshards q)%nat) (Hnc : Z.of_nat nc < 2147483648).

Definition slot_held (c : TlsSlot) : list Z := one (private_obj c).

Definition slot_wf (c : TlsSlot) : Prop := True.

(** Other threads may take the object away. *)
Definition slot_env (c c' : TlsSlot) : Prop := private_obj c' = private_obj c \/ private_obj c' = 0.

#[global] Instance slot_env_preorder : PreOrder slot_env.
Proof. split; [by left|]. intros c1 c2 c3 [H1|H1] [H2|H2]; unfold slot_env; rewrite H2; auto. Qed.

Abbreviation Inv := (Inv slot_held slot_wf nshards np nc).
Abbreviation Gr := (Gr (F := F) slot_env).
Abbreviation wp := (wp Inv Gr (tls_env np nc)).

#[local] Arguments on_core : simpl never.

Lemma exchange_private_slot : slot_exchange slot_held slot_wf slot_env exchange_private.
Proof.
  intros c c' p _ [= <- <-]. split_and!; [done|by right|]. unfold slot_held. simpl. by rewrite app_nil_r.
Qed.

Lemma tls_law_get i q hash st s h :
  (q < np)%nat -> knows i (TGet i q hash) [] st h -> Inv s h ->
  wp i (tls_get q i hash)
    (fun r s h => exists es', match r with
       | inl _ => False
       | inr x => knows i (TGet i q hash) es' st h /\ net_get (factory_ q) x es' end) (s, h).
Proof.
  intros Hq Hk HI. unfold tls_get. pose proof (knows_op _ _ _ _ _ _ HI Hk) as [Hic _].
  set (QQ := fun (r : unit + Z) (s : sys TlsSlot F) h => exists es', match r with
       | inl _ => False
       | inr x => knows i (TGet i q hash) es' st h /\ net_get (factory_ q) x es' end).
  assert (forall x es s h, knows i (TGet i q hash) es st h -> net_get (factory_ q) x es -> wp i (Ret (inr x)) QQ (s, h)) as Hret.
  { intros x es s1 h1 Hk1 Hn. apply wp_ret; [|by exists es]. intros c c' Hr (es' & Hk' & Hn'). exists es'.
    split; [|done]. by apply (stable_knows slot_held slot_wf slot_env nshards np nc i _ _ _ c c'). }
  assert (forall s h, knows i (TGet i q hash) [] st h -> Inv s h ->
    wp i (let! x := on_core q (GetShared (factory_ q) (nshards q) hash) in Ret (inr x))%prog QQ (s, h)) as Hsh.
  { intros s1 h1 Hk1 HI1. apply wp_bind; [done|]. eapply wp_mono; [|apply (wp_on_core i (TGet i q hash) [] st (fun _ => True) q);
      [done|done|done|by apply posts_get]].
    intros x s2 h2 _ (ev & (ev' & -> & Hev) & [Hk2 _]). apply (Hret x ev'); [done|by right]. }
  cbn [bind atomic]. apply (wp_cache_load i (TGet i q hash) [] st i Z private_obj); [done|done|].
  clear s h Hk HI. intros p s h Hk HI. destruct (p =? 0); simpl negb; [by apply Hsh|].
  apply (wp_exchange_take i (TGet i q hash) [] st (fun _ => True)); [apply exchange_private_slot|done|done|].
  clear s h Hk HI. intros x s h [Hk _] HI. unfold took in Hk. destruct (Z.eqb_spec x 0) as [->|Hx]; simpl negb.
  - by apply Hsh.
  - apply (Hret x [PTake x]); [done|]. left. done.
Qed.

Lemma tls_law_put i q hash x st s h :
  (q < np)%nat -> x <> 0 -> knows i (TPut i q hash x) [] st h -> Inv s h ->
  wp i (tls_put q i hash x) (fun _ _ h => exists es, knows i (TPut i q hash x) es st h /\ net_put x es) (s, h).
Proof.
  intros Hq Hx Hk HI. unfold tls_put. simpl.
  apply (wp_cache i (TPut i q hash x) [] st (fun _ => True) bool (fun _ _ => True) q _
    (fun ok : bool => if ok then [PStore x] else [])); [by intros []|done|done| |].
  - intros c c' b _ _. unfold cas_private, slot_held. destruct (Z.eqb_spec (private_obj c) 0) as [E|E]; intros [= <- <-].
    + split_and!; [done| |done]. simpl. rewrite E. unfold one. by destruct (Z.eqb_spec x 0).
    + done.
  - clear s h Hk HI. intros b s h [Hk _] HI. destruct b.
    + apply wp_ret; [|by exists [PStore x]]. intros c c' Hr (es & Hk' & Hn). exists es. split; [|done].
      by apply (stable_knows slot_held slot_wf slot_env nshards np nc i _ _ _ c c').
    + eapply wp_mono; [|apply (wp_on_core i (TPut i q hash x) [] st (fun _ => True) q); [done|done|done|by apply posts_put]].
      intros [] s1 h1 _ (ev & -> & [Hk1 _]). simpl in Hk1. destruct (Z.eqb_spec x 0); [done|]. by exists [PStore x].
Qed.

#[local] Instance tls_laws :
  CacheLaws slot_held slot_wf slot_env nshards np nc factory_ (fun _ es _ => es = []) (fun items => length items <= 1)%nat.
Proof.
  split; try done.
  - by intros _ es c c' _.
  - intros i q hash [] es st s h Hq [Hk ->] HI. eapply wp_mono; [|by apply tls_law_get].
    intros [[]|x] s1 h1 _ (es & Hes); [done|]. by exists es.
  - intros i q hash x st s h. apply tls_law_put.
  - intros i o es st q c s h Hq Hc Hk HI. by apply wp_exchange_delete; [apply exchange_private_slot|..].
  - intros i o es st c total s h Hc Hk HI. simpl. apply (wp_cache_load i o es st c Z private_obj); [done|done|].
    intros x s1 h1 Hk1 _. apply wp_ret; [apply stable_knows|done].
  - intros i o st q s h Hq Hk HI. simpl. unfold tls_drain.
    apply (wp_exchange_take i o [] st (fun _ => True)); [apply exchange_private_slot|done|done|].
    intros x s1 h1 [Hk1 _] _. apply wp_ret.
    + apply stable_and; [apply stable_pure|apply stable_knows].
    + unfold took in Hk1. unfold one. destruct (Z.eqb_spec x 0); split; try done; split; simpl; try lia; by repeat constructor.
  - intros i o es st q hash items s h Hq Hk [Hnz Hl] HI. simpl. destruct items as [|p [|]]; simpl in Hl; [| |lia]; simpl.
    + apply wp_ret; [|exists []; by rewrite app_nil_r].
      intros c c' Hr (es' & Hk' & Hn). exists es'. split; [|done].
      by apply (stable_knows slot_held slot_wf slot_env nshards np nc i _ _ _ c c').
    + rewrite Forall_singleton in Hnz. eapply wp_mono;
        [|apply (wp_on_core i o es st (fun _ => True) q); [done|done|by split|by apply posts_put]].
      intros [] s1 h1 _ (ev & -> & [Hk1 _]). simpl in Hk1. destruct (Z.eqb_spec p 0); [done|]. by exists [PStore p].
Qed.

End tls_pool.

(** ** Theorems *)

(** C19. [ObjectPoolTLS], any number of pools that share the caches of the
    threads, any number of threads, every interleaving of [Get], [Put], [Clear],
    [Size], the destructors and the exits of threads: the objects handed to a
    pool are those taken out, those deleted, those in the shards and those in
    the thread-local slots, each exactly once.  A completed [Get] has kept
    exactly the object it returns; a completed [Put] has stored its object, or
    deleted it when the pool was closed; an exiting thread leaves nothing
    behind; an exception of the registration moves nothing. *)
Theorem tls_ownership {F} (factory_ : nat -> option (F -> F * Z)) (destroy : Z -> F -> F)
    (shard_count : nat -> nat) ord f np nc threads cfg :
  let ns q := Nat.max 1 (shard_count q) in
  Z.of_nat nc < 2147483648 ->
  reach Entry (ObjectPoolTLS_body factory_ destroy ns ord) (tls_env np nc)
    (ObjectPoolTLS_new factory_ destroy ns f) threads cfg ->
  let es := core_evs (events (hist cfg)) in
  stores es ≡ₚ takes es ++ drops es ++ contents slot_held np nc (shared cfg) /\
  Forall (fun '(o, es, r) => tls_good factory_ o es r) (completed (hist cfg)).
Proof.
  intros ns Hnc Hreach. assert (forall q, (0 < ns q)%nat) as Hns by (intros; unfold ns; lia).
  destruct (tls_adequacy slot_held slot_wf slot_env ns np nc Hns Hnc factory_ destroy ord _ _
    (Hlaws := tls_laws factory_ destroy ns np nc Hns) _ _ _ Hreach) as [[HO _] Hg].
  split; [apply (tv_own _ _ _ _ _ _ _ HO)|done].
Qed.

(** C18. The destructor of [ObjectPoolTLS]: when its bounded wait ended because it
    read that no operation was active, after its store of [closing_] had taken
    effect ([SeenZero]; with [SeqCst] every successful wait is of this kind, with
    [RelAcq] it need not be: [tls_close_reordered]), then once it has emptied the
    registry, and from then on, no cache names the destroyed pool as its owner, so
    no exiting thread that reads the owner of its cache from now on calls
    [OnThreadExit] on the pool; [closing_] is set; and no [Get], [Put] or [Clear]
    is between its guard and its end.  Not kept out are [Size], which has no
    guard, and an exiting thread that read the owner before
    ([tls_exit_after_destruction]). *)
Theorem tls_destructor {F} (factory_ : nat -> option (F -> F * Z)) (destroy : Z -> F -> F)
    (shard_count : nat -> nat) ord f np nc threads cfg q :
  let ns q := Nat.max 1 (shard_count q) in
  Z.of_nat nc < 2147483648 ->
  reach Entry (ObjectPoolTLS_body factory_ destroy ns ord) (tls_env np nc)
    (ObjectPoolTLS_new factory_ destroy ns f) threads cfg ->
  CDone q SeenZero ∈ events (hist cfg) ->
  (forall c, owner (caches (shared cfg) c) <> Some q) /\ closing_ (pools (shared cfg) q) = true /\
  forall i, gate_ (view i (hist cfg)) <> Inside q.
Proof.
  intros ns Hnc Hreach. assert (forall q, (0 < ns q)%nat) as Hns by (intros; unfold ns; lia). by apply (tls_closed slot_held slot_wf slot_env ns np nc Hns Hnc factory_ destroy ord _ _
    (Hlaws := tls_laws factory_ destroy ns np nc Hns) f threads).
Qed.

(** *** Concrete executions *)

(** Two pools with one shard each, whose factories number their objects from
    [100] and from [200]. *)
Definition demo_factory (q : nat) : option (Z -> Z * Z) := Some (fun f => (f + 1, f)).

Definition tls_demo_body := ObjectPoolTLS_body demo_factory (fun _ f => f) (fun _ => Nat.max 1 1) SeqCst.

Definition tls_demo_new : sys TlsSlot Z :=
  ObjectPoolTLS_new demo_factory (fun _ f => f) (fun _ => Nat.max 1 1) (fun q => if (q =? 0)%nat then 100 else 200).

(** Thread 0 gets an object of pool 0 and puts it into its slot. *)
Definition tls_demo_cached : list (nat * move tls_op) :=
  [(0%nat, Call (TGet 0 0 0))] ++ go 0 17 ++ [(0%nat, Call (TPut 0 0 0 100))] ++ go 0 10.

Definition tls_demo_run (ms : list (nat * move tls_op)) : config :=
  outcome Entry tls_demo_body tls_demo_new 2 (tls_demo_cached ++ ms).

(** Thread 0 starts to exit and reads the owner of its cache; then thread 1
    destroys pool 0; then thread 0 goes on. *)
Definition tls_demo_exit : config :=
  tls_demo_run ([(0%nat, Call (TExit 0 0))] ++ go 0 2 ++ [(1%nat, Call (TDestroy 0))] ++ go 1 13 ++ go 0 1).

Lemma tls_demo_exit_reach : reach Entry tls_demo_body (tls_env 2 2) tls_demo_new 2 tls_demo_exit.
Proof. apply (outcome_reach _ _ _ (tls_envb 2 2)); [apply tls_envb_ok|vm_compute; reflexivity]. Qed.

Lemma tls_ownership_witness :
  drops (core_evs (events (hist tls_demo_exit))) = [100] /\
  let es := core_evs (events (hist tls_demo_exit)) in
  stores es ≡ₚ takes es ++ drops es ++ contents slot_held 2 2 (shared tls_demo_exit).
Proof.
  split; [vm_compute; reflexivity|].
  apply (tls_ownership demo_factory (fun _ f => f) (fun _ => 1%nat) SeqCst (fun q => if (q =? 0)%nat then 100 else 200)
    2 2 2 tls_demo_exit); [lia|apply tls_demo_exit_reach].
Defined.

Lemma tls_destructor_witness :
  owner (caches (shared (tls_demo_run [])) 0) = Some 0%nat /\
  (forall c, owner (caches (shared tls_demo_exit) c) <> Some 0%nat) /\
  closing_ (pools (shared tls_demo_exit) 0) = true /\
  forall i, gate_ (view i (hist tls_demo_exit)) <> Inside 0.
Proof.
  split; [vm_compute; reflexivity|].
  apply (tls_destructor demo_factory (fun _ f => f) (fun _ => 1%nat) SeqCst (fun q => if (q =? 0)%nat then 100 else 200)
    2 2 2 tls_demo_exit); [lia|apply tls_demo_exit_reach|].
  apply (bool_decide_unpack _). vm_compute. exact I.
Defined.

(** C37. Objects cross pools: [CloseAndClear] takes the ownership of a cache away
    before it empties the slot.  In between, [Get] on another pool claims the
    cache and returns the object that the destroyed pool had cached there: pool
    1, whose factory has made nothing and which was given nothing, hands out the
    object [100] that the factory of pool 0 made. *)
Theorem tls_cross_pool :
  exists cfg es, reach Entry tls_demo_body (tls_env 2 2) tls_demo_new 2 cfg /\
    (TGet 0 1 0, es, TPtr 100) ∈ completed (hist cfg) /\ TE 1 (PTake 100) ∈ es /\
    TE 0 (PMake 100) ∈ events (hist cfg) /\
    Forall (fun e => match e with TE 1 (PMake _) | TE 1 (PStore _) => False | _ => True end) (events (hist cfg)).
Proof.
  exists (tls_demo_run ([(1%nat, Call (TDestroy 0))] ++ go 1 8 ++ [(0%nat, Call (TGet 0 1 0))] ++ go 0 16)).
  exists [GAdd 1; GIn 1; Claim 1; Register 1; TE 1 (PTake 100); GOut 1]. split.
  { apply (outcome_reach _ _ _ (tls_envb 2 2)); [apply tls_envb_ok|vm_compute; reflexivity]. }
  split; [vm_compute; do 2 right; left|]. split; [vm_compute; do 4 right; left|].
  split; [vm_compute; do 4 right; left|]. vm_compute. repeat constructor.
Qed.

(** An exiting thread uses a destroyed pool: [~LocalCache] reads the owner and
    then calls [OnThreadExit] on it; when the destructor of the pool runs in
    between, to its end and with a successful wait, the first access of
    [OnThreadExit], the increment of [active_ops_], is to a pool whose
    destructor has returned. *)
Theorem tls_exit_after_destruction :
  exists cfg h1 h2 es, reach Entry tls_demo_body (tls_env 2 2) tls_demo_new 2 cfg /\
    hist cfg = h1 ++ HRet 1%nat TUnit :: h2 /\ opview 1 h1 = Some (TDestroy 0, es) /\
    CDone 0 SeenZero ∈ es /\ HLin 0%nat (XAdd 0) ∈ h2.
Proof.
  exists tls_demo_exit, (take 23 (hist tls_demo_exit)), [HLin 0%nat (XAdd 0)],
    [Closing 0; CZero 0; Lock 0 [0%nat]; Released 0 0; TE 0 (PDrop 100); Unlock 0; CDone 0 SeenZero].
  split; [apply tls_demo_exit_reach|]. split; [vm_compute; reflexivity|]. split; [vm_compute; reflexivity|].
  split; [do 6 right; left|left].
Qed.

(** With the memory orders of the code the wait of the destructor need not see an
    operation: thread 1 destroys pool 0 and reads [active_ops_] as zero while its
    store of [closing_] is still in the store buffer; thread 0 then passes the
    guard of [Get]; the destructor runs to its end while the [Get] is inside. *)
Theorem tls_close_reordered :
  exists cfg es,
    reach Entry (ObjectPoolTLS_body demo_factory (fun _ f => f) (fun _ => Nat.max 1 1) RelAcq) (tls_env 2 2)
      tls_demo_new 2 cfg /\
    completed (hist cfg) = [(TDestroy 0, es, TUnit)] /\ CDone 0 SeenEarly ∈ es /\
    gate_ (view 0 (hist cfg)) = Inside 0.
Proof.
  exists (outcome Entry (ObjectPoolTLS_body demo_factory (fun _ f => f) (fun _ => Nat.max 1 1) RelAcq) tls_demo_new 2
    ([(1%nat, Call (TDestroy 0))] ++ go 1 4 ++ [(0%nat, Call (TGet 0 0 0))] ++ go 0 5 ++ go 1 6)).
  exists [Closing 0; Lock 0 []; Unlock 0; CDone 0 SeenEarly]. split.
  { apply (outcome_reach _ _ _ (tls_envb 2 2)); [apply tls_envb_ok|vm_compute; reflexivity]. }
  split; [vm_compute; reflexivity|]. split; [do 3 right; left|vm_compute; reflexivity].
Qed.
