(* ===== verification/TlsPoolV2.v ===== *)
(** * TlsPoolV2: the object pool with a thread-local slot and batch

    Models [ObjectPoolTLSv2<T, BatchSize>]
    ([include/lscq/object_pool_tls_v2.hpp]): the cache of a thread is a fast slot,
    an array of [2 * BatchSize] slots with a count, and the counters of the
    adaptive batch size; the rest is [Tls].

    [size_t] counters are 64-bit words.  The comparison of the hit ratio with
    [0.75] and [0.25] is done on integers: both thresholds are exact and the
    totals are far below [2^50], where the quotient of two doubles compares as
    the quotient of the integers does.  [PrefetchPointer] is a hint without
    effect and is left out.  [detail::numa::Allocate], which places the cache of a
    thread in memory, does not change what the cache holds. *)

From stdpp Require Import base list numbers option functions.
From Stdlib Require Import ZArith Lia.
From S2P Require Import Prelude Conc Pool Tls.

Local Open Scope Z_scope.

Record TlsBatch := mkBatch {
  fast_slot : Z;
  batch : list Z;
  batch_count : Z;
  effective_batch_size : Z;
  hit_count : Z;
  miss_count : Z;
  op_count : Z
}.

(** ** Accesses *)

Definition load_fast (c : TlsBatch) : Z := fast_slot c.

Definition set_fast (x : Z) (c : TlsBatch) : TlsBatch :=
  mkBatch x (batch c) (batch_count c) (effective_batch_size c) (hit_count c) (miss_count c) (op_count c).

Definition set_batch (l : list Z) (c : TlsBatch) : TlsBatch :=
  mkBatch (fast_slot c) l (batch_count c) (effective_batch_size c) (hit_count c) (miss_count c) (op_count c).

Definition set_count (n : Z) (c : TlsBatch) : TlsBatch :=
  mkBatch (fast_slot c) (batch c) n (effective_batch_size c) (hit_count c) (miss_count c) (op_count c).

Definition set_stats (eff hits misses ops : Z) (c : TlsBatch) : TlsBatch :=
  mkBatch (fast_slot c) (batch c) (batch_count c) eff hits misses ops.

Definition exchange_fast (c : TlsBatch) : TlsBatch * Z := (set_fast 0 c, fast_slot c).

Definition cas_fast (obj : Z) (c : TlsBatch) : TlsBatch * bool :=
  if fast_slot c =? 0 then (set_fast obj c, true) else (c, false).

Definition load_slot (i : nat) (c : TlsBatch) : Z := default 0 (batch c !! i).

Definition exchange_slot (i : nat) (c : TlsBatch) : TlsBatch * Z :=
  (set_batch (<[i := 0]> (batch c)) c, load_slot i c).

Definition cas_slot (i : nat) (obj : Z) (c : TlsBatch) : TlsBatch * bool :=
  if load_slot i c =? 0 then (set_batch (<[i := obj]> (batch c)) c, true) else (c, false).

Definition store_slot (i : nat) (x : Z) (c : TlsBatch) : TlsBatch * unit :=
  (set_batch (<[i := x]> (batch c)) c, tt).

Definition store_count (n : Z) (c : TlsBatch) : TlsBatch * unit := (set_count n c, tt).

(** [compare_exchange_weak(count, count - 1)], when it does not fail
    spuriously: whether it succeeded, and the value it read. *)
Definition cas_count (spurious : bool) (count : Z) (c : TlsBatch) : TlsBatch * (bool * Z) :=
  if negb spurious && (batch_count c =? count) then (set_count (count - 1) c, (true, count))
  else (c, (false, batch_count c)).

Definition fetch_add_count (c : TlsBatch) : TlsBatch * Z :=
  (set_count (add64 (batch_count c) 1) c, batch_count c).

Definition add_hit (c : TlsBatch) : TlsBatch * unit :=
  (set_stats (effective_batch_size c) (add64 (hit_count c) 1) (miss_count c) (op_count c) c, tt).

Definition add_miss (c : TlsBatch) : TlsBatch * unit :=
  (set_stats (effective_batch_size c) (hit_count c) (add64 (miss_count c) 1) (op_count c) c, tt).

Definition add_op (c : TlsBatch) : TlsBatch * Z :=
  (set_stats (effective_batch_size c) (hit_count c) (miss_count c) (add64 (op_count c) 1) c, op_count c).

Definition reset_op (c : TlsBatch) : TlsBatch * unit :=
  (set_stats (effective_batch_size c) (hit_count c) (miss_count c) 0 c, tt).

Definition exchange_hits (c : TlsBatch) : TlsBatch * Z :=
  (set_stats (effective_batch_size c) 0 (miss_count c) (op_count c) c, hit_count c).

Definition exchange_misses (c : TlsBatch) : TlsBatch * Z :=
  (set_stats (effective_batch_size c) (hit_count c) 0 (op_count c) c, miss_count c).

Definition store_effective (n : Z) (c : TlsBatch) : TlsBatch * unit :=
  (set_stats n (hit_count c) (miss_count c) (op_count c) c, tt).

Section tls_pool_v2.
Context {F : Type} (factory_ : nat -> option (F -> F * Z)) (destroy : Z -> F -> F) (nshards : nat -> nat).
Context (BatchSize : nat).

Definition kMinBatchSize : nat := if (BatchSize / 2 =? 0)%nat then 1 else (BatchSize / 2)%nat.
Definition kMaxBatchSize : nat := (BatchSize * 2)%nat.
Definition kAdaptiveCheckInterval : nat := if (BatchSize * 8 <? 16)%nat then 16 else (BatchSize * 8)%nat.

(** The constructor of [LocalCache]. *)
Definition LocalCache_new : TlsBatch :=
  mkBatch 0 (replicate kMaxBatchSize 0) 0 (Z.of_nat BatchSize) 0 0 0.

Abbreviation tprog := (prog (sys TlsBatch F) tev).

Definition on_load {X : Set} (tid : nat) (f : TlsBatch -> X) : tprog X :=
  atomic (on_cache tid (fun c => (c, f c))).

Definition on_own {X : Set} (tid : nat) (f : TlsBatch -> TlsBatch * X) : tprog X := atomic (on_cache tid f).

(** ** The adaptive batch size *)

Definition EffectiveBatchSize (tid : nat) : tprog nat :=
  (let! size := on_load tid effective_batch_size in
   Ret (if size <? Z.of_nat kMinBatchSize then kMinBatchSize
        else if size >? Z.of_nat kMaxBatchSize then kMaxBatchSize
        else Z.to_nat size))%prog.

(** [ratio >= 0.75 && current < kMaxBatchSize], [ratio <= 0.25 && current >
    kMinBatchSize]. *)
Definition adapt (hits total current : Z) : Z :=
  if (3 * total <=? 4 * hits) && (current <? Z.of_nat kMaxBatchSize) then current + 1
  else if (4 * hits <=? total) && (Z.of_nat kMinBatchSize <? current) then current - 1
  else current.

Definition UpdateAdaptiveBatchSize (tid : nat) (hit : bool) : tprog unit :=
  (do! on_own tid (if hit then add_hit else add_miss);
   let! ops := on_own tid add_op in
   if add64 ops 1 <? Z.of_nat kAdaptiveCheckInterval then Ret tt
   else
     do! on_own tid reset_op;
     let! hits := on_own tid exchange_hits in
     let! misses := on_own tid exchange_misses in
     let total := add64 hits misses in
     if total =? 0 then Ret tt
     else
       let! current := on_load tid effective_batch_size in
       on_own tid (store_effective (adapt hits total current)))%prog.

Definition RecordCacheHit (tid : nat) : tprog unit := UpdateAdaptiveBatchSize tid true.
Definition RecordCacheMiss (tid : nat) : tprog unit := UpdateAdaptiveBatchSize tid false.

(** ** The batch *)

(** The heads of the loops of [TryPopBatch]: [count] in the first one; the count
    of the second one and the object it will return. *)
Inductive get_label : Set :=
| GetStart
| PopLoop (count : Z)
| PopDec (current p : Z).

(** The scan of [TryPopBatch]: the first object found. *)
Fixpoint pop_scan (q tid : nat) (slots : list nat) : tprog (option Z) :=
  match slots with
  | [] => Ret None
  | i :: slots =>
      (let! p := exchange_take q tid (exchange_slot i) in
       if negb (p =? 0) then Ret (Some p) else pop_scan q tid slots)%prog
  end.

Definition hit (tid : nat) (p : Z) : tprog (get_label + Z) := (do! RecordCacheHit tid; Ret (inr p))%prog.

(** The start of [TryPopBatch]. *)
Definition pop_start (tid : nat) : tprog (get_label + Z) :=
  (let! count := on_load tid batch_count in
   Ret (inl (PopLoop (if count >? Z.of_nat kMaxBatchSize then Z.of_nat kMaxBatchSize else count))))%prog.

(** The stores of the refill: the objects from slot [i] on, then nulls. *)
Fixpoint refill (q tid i : nat) (xs : list Z) : tprog unit :=
  match xs with
  | [] => Ret tt
  | x :: xs => (do! atomic_lin (on_cache tid (store_slot i x)) (fun _ => [TE q (PStore x)]); refill q tid (S i) xs)%prog
  end.

Fixpoint refill_null (tid : nat) (slots : list nat) : tprog unit :=
  match slots with
  | [] => Ret tt
  | i :: slots => (do! on_own tid (store_slot i 0); refill_null tid slots)%prog
  end.

(** The third level of [Get]. *)
Definition get_l3 (q tid hash : nat) : tprog (get_label + Z) :=
  (let! target := EffectiveBatchSize tid in
   let! got := on_core q (GetSharedBatch (nshards q) hash false target) in
   do! RecordCacheMiss tid;
   match list.last got with
   | Some result =>
       let cached := (length got - 1)%nat in
       do! refill q tid 0 (removelast got);
       do! refill_null tid (seq cached (kMaxBatchSize - cached));
       do! on_own tid (store_count (Z.of_nat cached));
       Ret (inr result)
   | None => let! x := on_core q (GetShared (factory_ q) (nshards q) hash) in Ret (inr x)
   end)%prog.

Definition tls2_get (q tid hash : nat) (l : get_label) : tprog (get_label + Z) :=
  match l with
  | GetStart =>
      (let! p := on_load tid load_fast in
       if negb (p =? 0) then
         let! p := exchange_take q tid exchange_fast in
         if negb (p =? 0) then hit tid p else pop_start tid
       else pop_start tid)%prog
  | PopLoop count =>
      if 0 <? count then
        (let! spurious := choose in
         let! r := on_own tid (cas_count spurious count) in
         if (fst r : bool) then
           let! p := exchange_take q tid (exchange_slot (Z.to_nat (count - 1))) in
           if negb (p =? 0) then hit tid p else Ret (inl (PopLoop count))
         else Ret (inl (PopLoop (snd r))))%prog
      else
        (let! found := pop_scan q tid (seq 0 kMaxBatchSize) in
         match found with
         | Some p => let! current := on_load tid batch_count in Ret (inl (PopDec current p))
         | None => do! on_own tid (store_count 0); get_l3 q tid hash
         end)%prog
  | PopDec current p =>
      if 0 <? current then
        (let! spurious := choose in
         let! r := on_own tid (cas_count spurious current) in
         if (fst r : bool) then hit tid p else Ret (inl (PopDec (snd r) p)))%prog
      else hit tid p
  end.

Definition IncrementBatchCount (tid : nat) : tprog unit :=
  (let! prev := on_own tid fetch_add_count in
   if prev >=? Z.of_nat kMaxBatchSize then on_own tid (store_count (Z.of_nat kMaxBatchSize)) else Ret tt)%prog.

Definition push_slot (q tid i : nat) (obj : Z) : tprog bool :=
  atomic_lin (on_cache tid (cas_slot i obj)) (fun ok : bool => if ok then [TE q (PStore obj)] else []).

Fixpoint push_scan (q tid : nat) (slots : list nat) (obj : Z) : tprog bool :=
  match slots with
  | [] => Ret false
  | i :: slots =>
      (let! ok := push_slot q tid i obj in
       if (ok : bool) then do! IncrementBatchCount tid; Ret true else push_scan q tid slots obj)%prog
  end.

Definition TryPushBatch (q tid : nat) (obj : Z) : tprog bool :=
  (let! limit := EffectiveBatchSize tid in
   let! count := on_load tid batch_count in
   if count >=? Z.of_nat limit then Ret false
   else
     let! ok := (if count <? Z.of_nat kMaxBatchSize then push_slot q tid (Z.to_nat count) obj else Ret false) in
     if (ok : bool) then do! IncrementBatchCount tid; Ret true
     else push_scan q tid (seq 0 limit) obj)%prog.

(** The loop of [DrainBatch]; [out] holds what was found so far. *)
Fixpoint drain_slots (q tid max_count : nat) (slots : list nat) (out : list Z) : tprog (list Z) :=
  match slots with
  | [] => Ret out
  | i :: slots =>
      if (length out <? max_count)%nat then
        (let! p := exchange_take q tid (exchange_slot i) in
         drain_slots q tid max_count slots (out ++ one p))%prog
      else Ret out
  end.

Definition DrainBatch (q tid : nat) (out_null : bool) (max_count : nat) : tprog (list Z) :=
  if out_null || (max_count =? 0)%nat then Ret []
  else
    (let! out := drain_slots q tid max_count (seq 0 kMaxBatchSize) [] in
     do! on_own tid (store_count 0);
     Ret out)%prog.

(** [Put], from the check of the owner on. *)
Definition tls2_put (q tid hash : nat) (obj : Z) : tprog unit :=
  (let! ok := atomic_lin (on_cache tid (cas_fast obj)) (fun ok : bool => if ok then [TE q (PStore obj)] else []) in
   if (ok : bool) then RecordCacheHit tid
   else
     let! ok := TryPushBatch q tid obj in
     if (ok : bool) then RecordCacheHit tid
     else
       do! RecordCacheMiss tid;
       let! items := DrainBatch q tid false kMaxBatchSize in
       on_core q (PutSharedBatch (nshards q) hash false (items ++ [obj])))%prog.

(** ** Emptying a cache *)

Fixpoint clear_slots (q tid : nat) (slots : list nat) : tprog unit :=
  match slots with
  | [] => Ret tt
  | i :: slots => (do! exchange_delete destroy q tid (exchange_slot i); clear_slots q tid slots)%prog
  end.

Definition tls2_clear (q tid : nat) : tprog unit :=
  (do! exchange_delete destroy q tid exchange_fast;
   do! clear_slots q tid (seq 0 kMaxBatchSize);
   on_own tid (store_count 0))%prog.

Fixpoint count_slots (tid : nat) (slots : list nat) (total : Z) : tprog Z :=
  match slots with
  | [] => Ret total
  | i :: slots =>
      (let! p := on_load tid (load_slot i) in
       count_slots tid slots (if negb (p =? 0) then add64 total 1 else total))%prog
  end.

Definition tls2_count (tid : nat) (total : Z) : tprog Z :=
  (let! p := on_load tid load_fast in
   count_slots tid (seq 0 kMaxBatchSize) (if negb (p =? 0) then add64 total 1 else total))%prog.

(** What [OnThreadExit] collects. *)
Fixpoint exit_slots (q tid : nat) (slots : list nat) (items : list Z) : tprog (list Z) :=
  match slots with
  | [] => Ret items
  | i :: slots =>
      (let! p := exchange_take q tid (exchange_slot i) in exit_slots q tid slots (items ++ one p))%prog
  end.

Definition tls2_drain (q tid : nat) : tprog (list Z) :=
  (let! p := exchange_take q tid exchange_fast in
   let! items := exit_slots q tid (seq 0 kMaxBatchSize) (one p) in
   do! on_own tid (store_count 0);
   Ret items)%prog.

#[local] Instance tls2_ops : CacheOps TlsBatch F get_label := {
  cache_new := LocalCache_new;
  get_first := GetStart;
  get_cached := tls2_get;
  put_cached := tls2_put;
  clear_cache := tls2_clear;
  count_cache := tls2_count;
  drain_cache := tls2_drain;
  put_drained q hash items := on_core q (PutSharedBatch (nshards q) hash false items)
}.

(** ** The operations

    The text that [ObjectPoolTLSv2] has in common with [ObjectPoolTLS], at the
    batched cache. *)

Abbreviation block := (tprog (label (GL := get_label) + tls_res)).

Definition v2_OpGuard (q : nat) : tprog bool := op_guard q.

Definition v2_OpGuard_exit (q : nat) (r : label (GL := get_label) + tls_res) : block := op_guard_exit q r.

Definition v2_start (ord : store_order) (o : tls_op) : block := start_op destroy nshards ord o.

Definition v2_EnsureRegistered (o : tls_op) (tid q : nat) : block := ensure_registered o tid q.

Definition v2_registry_push (o : tls_op) (tid q : nat) : block := registry_push o tid q.

(** [Get] and [Put] after [EnsureRegistered], and [~LocalCache] with
    [OnThreadExit]. *)
Definition v2_main (o : tls_op) : block := main_op factory_ destroy nshards o.

Definition v2_Get (tid q hash : nat) (l : get_label) : block :=
  (let! r := tls2_get q tid hash l in
   match r with
   | inl l => Ret (inl (GetCached tid q hash l))
   | inr x => v2_OpGuard_exit q (inr (TPtr x))
   end)%prog.

Definition v2_Clear_lock (q : nat) : block := clear_lock q.

Definition v2_WaitForActiveOpsAtMost (q : nat) (threshold : Z) (ev : Z -> list tev) : tprog (option bool) :=
  WaitForActiveOpsAtMost q threshold ev.

Definition v2_Clear_wait (q : nat) : block := clear_wait destroy nshards q.

Definition v2_Size_lock (q : nat) (total : Z) : block := size_lock q total.

Definition v2_Close_wait (q : nat) : block :=
  (let! r := v2_WaitForActiveOpsAtMost q 0 (fun n => if n <=? 0 then [CZero q] else []) in
   match r with
   | None => Ret (inl (CloseWait q))
   | Some seen => Ret (inl (CloseLock q (if seen : bool then SeenZero else TimedOut)))
   end)%prog.

Definition v2_Close_buffered (q : nat) : block := close_buffered q.

Definition v2_Close_lock (q : nat) (seen : wait_end) : block := close_lock destroy nshards q seen.

Definition v2_Unregister (tid q : nat) : block := exit_unregister tid q.

Definition ObjectPoolTLSv2_body (ord : store_order) (l : label (GL := get_label)) : block :=
  match l with
  | Entry o => v2_start ord o
  | EnsureRegistered o tid q => v2_EnsureRegistered o tid q
  | RegistryPush o tid q => v2_registry_push o tid q
  | Main o => v2_main o
  | GetCached tid q hash l => v2_Get tid q hash l
  | ClearLock q => v2_Clear_lock q
  | ClearWait q => v2_Clear_wait q
  | SizeLock q total => v2_Size_lock q total
  | CloseBuffered q => v2_Close_buffered q
  | CloseWait q => v2_Close_wait q
  | CloseLock q seen => v2_Close_lock q seen
  | ExitUnregister tid q => v2_Unregister tid q
  end.

Definition ObjectPoolTLSv2_new (f : nat -> F) : sys TlsBatch F := sys_new nshards f.

End tls_pool_v2.
