(* ===== verification/TlsPoolV2Proofs.v ===== *)
(** * TlsPoolV2Proofs: ownership and bounds of [ObjectPoolTLSv2]

    The laws of the batched cache.  That a refill overwrites no object needs the
    local reasoning of the thread: after an unsuccessful scan its slots are
    empty, and only it could fill them. *)

From stdpp Require Import base list numbers option functions.
From Stdlib Require Import ZArith Lia.
From S2P Require Import Prelude Conc Pool PoolProofs Tls TlsProofs TlsPoolV2.

Local Open Scope Z_scope.

Create HintDb batch.

(** ** Slots *)

Definition nonnull (l : list Z) : list Z := filter (fun x => x <> 0) l.

Lemma nonnull_cons x l : nonnull (x :: l) = one x ++ nonnull l.
Proof.
  unfold nonnull, one. rewrite filter_cons. destruct (Z.eqb_spec x 0); [by rewrite decide_False by tauto|by rewrite decide_True].
Qed.

Lemma nonnull_insert l i x :
  (i < length l)%nat -> one (default 0 (l !! i)) ++ nonnull (<[i := x]> l) ≡ₚ one x ++ nonnull l.
Proof.
  revert i. induction l as [|y l IH]; intros [|i] Hi; simpl in *; try lia.
  - rewrite !nonnull_cons. solve_Permutation.
  - rewrite !nonnull_cons, (Permutation_app_swap_app _ (one y)), IH by lia. solve_Permutation.
Qed.

Lemma nonnull_out l i : (length l <= i)%nat -> default 0 (l !! i) = 0 /\ forall x, <[i := x]> l = l.
Proof. intros Hi. rewrite lookup_ge_None_2 by done. split; [done|]. intros x. by apply list_insert_ge. Qed.

Lemma nonnull_all l : Forall (fun x => x <> 0) l -> nonnull l = l.
Proof. induction 1 as [|x l Hx _ IH]; [done|]. rewrite nonnull_cons, IH. unfold one. by destruct (Z.eqb_spec x 0). Qed.

(** Slots that other threads may have emptied. *)
Definition nulled (l l' : list Z) : Prop := Forall2 (fun x x' => x' = x \/ x' = 0) l l'.

#[global] Instance nulled_preorder : PreOrder nulled.
Proof.
  split.
  - intros l. unfold nulled. induction l; constructor; auto.
  - intros l1 l2 l3 H1 H2. revert l3 H2. induction H1 as [|x y l1 l2 Hxy _ IH]; intros l3 H2.
    + inversion H2. constructor.
    + inversion H2 as [|y' z l2' l3' Hyz H2']; subst. constructor; [|by apply IH].
      destruct Hyz as [->|?]; auto.
Qed.

Lemma nulled_insert l i : nulled l (<[i := 0]> l).
Proof.
  revert i. induction l as [|x l IH]; intros [|i]; [constructor|constructor| |]; simpl; constructor; auto.
  - apply nulled_preorder.
  - apply IH.
Qed.

Lemma nulled_lookup l l' i x' : nulled l l' -> l' !! i = Some x' -> exists x, l !! i = Some x /\ (x' = x \/ x' = 0).
Proof.
  intros Hn Hi. destruct (Forall2_lookup_r _ _ _ _ _ Hn Hi) as (x & Hx & Hor). eauto.
Qed.

(** From slot [i] on, the slots are empty. *)
Definition empty_from (i : nat) (l : list Z) : Prop := forall j x, (i <= j)%nat -> l !! j = Some x -> x = 0.

(** Before slot [i], the slots are empty. *)
Definition empty_to (i : nat) (l : list Z) : Prop := forall j x, (j < i)%nat -> l !! j = Some x -> x = 0.

Definition null_closed (P : list Z -> Prop) : Prop := forall l l', nulled l l' -> P l -> P l'.

Lemma empty_from_closed i : null_closed (empty_from i).
Proof. intros l l' Hn He j x Hj Hx. destruct (nulled_lookup _ _ _ _ Hn Hx) as (y & Hy & [->|?]); [|done]. by apply (He j). Qed.

Lemma empty_to_closed i : null_closed (empty_to i).
Proof. intros l l' Hn He j x Hj Hx. destruct (nulled_lookup _ _ _ _ Hn Hx) as (y & Hy & [->|?]); [|done]. by apply (He j). Qed.

Lemma empty_from_store i l x : empty_from i l -> empty_from (S i) (<[i := x]> l).
Proof. intros He j y Hj. rewrite list_lookup_insert_ne by lia. apply He. lia. Qed.

Lemma empty_from_null i j l : empty_from i l -> empty_from i (<[j := 0]> l).
Proof. intros He. by apply (empty_from_closed i l); [apply nulled_insert|]. Qed.

Lemma empty_to_null i l : empty_to i l -> empty_to (S i) (<[i := 0]> l).
Proof.
  intros He j x Hj. destruct (decide (j = i)) as [->|].
  - intros [(_ & <- & _)|[? _]]%list_lookup_insert_Some; done.
  - rewrite list_lookup_insert_ne by done. apply He. lia.
Qed.

Lemma empty_from_insert k j l : empty_from k l -> (k <= j)%nat -> <[j := 0]> l = l.
Proof.
  intros He Hj. destruct (l !! j) as [x|] eqn:E.
  - apply list_insert_id. rewrite E. f_equal. by apply (He j).
  - by apply list_insert_ge, lookup_ge_None_1.
Qed.

Section laws.
Context {F : Type} (factory_ : nat -> option (F -> F * Z)) (destroy : Z -> F -> F) (nshards : nat -> nat).
Context (BatchSize np nc : nat).
Hypothesis (Hns : forall q, (0 < nshards q)%nat).
Hypothesis (Hbs : (0 < BatchSize)%nat) (Hbs2 : Z.of_nat BatchSize * 2 < two64).

Abbreviation kMin := (kMinBatchSize BatchSize).
Abbreviation kMax := (kMaxBatchSize BatchSize).

Definition batch_held (c : TlsBatch) : list Z := one (fast_slot c) ++ nonnull (batch c).

(** The invariant of a cache: its array has [kMaxBatchSize] slots, the count
    fits, and the adaptive size is in its range. *)
Record batch_wf (c : TlsBatch) : Prop := {
  bw_len : length (batch c) = kMax;
  bw_count : 0 <= batch_count c <= Z.of_nat kMax;
  bw_eff : Z.of_nat kMin <= effective_batch_size c <= Z.of_nat kMax
}.

(** Other threads may empty slots and reset the count. *)
Record batch_env (c c' : TlsBatch) : Prop := {
  be_fast : fast_slot c' = fast_slot c \/ fast_slot c' = 0;
  be_batch : nulled (batch c) (batch c');
  be_count : batch_count c' = batch_count c \/ batch_count c' = 0
}.

#[global] Instance batch_env_preorder : PreOrder batch_env.
Proof.
  split.
  - intros c. split; [by left|reflexivity|by left].
  - intros c1 c2 c3 [F1 B1 N1] [F2 B2 N2]. split; [|by etransitivity|].
    + destruct F2 as [->|?]; auto.
    + destruct N2 as [->|?]; auto.
Qed.

Lemma k_bounds : (0 < kMin)%nat /\ (kMin <= BatchSize <= kMax)%nat /\ Z.of_nat kMax < two64 /\ (0 < kMax)%nat.
Proof.
  unfold kMinBatchSize, kMaxBatchSize. destruct (Nat.eqb_spec (BatchSize / 2) 0) as [|Hne]; split_and!; try lia.
  pose proof (Nat.Div0.div_le_upper_bound BatchSize 2 BatchSize). lia.
Qed.

Abbreviation Inv := (Inv batch_held batch_wf nshards np nc).
Abbreviation Gr := (Gr (F := F) batch_env).
Abbreviation wp := (wp Inv Gr (tls_env np nc)).
Abbreviation local := (local (F := F)).

#[local] Arguments on_core : simpl never.

Definition on_slots (P : list Z -> Prop) (c : TlsBatch) : Prop := P (batch c).

Lemma on_slots_closed P : null_closed P -> env_closed batch_env (on_slots P).
Proof. intros HP c c' [_ Hb _]. by apply HP. Qed.

(** An access of the thread to its cache that moves no object. *)
Lemma wp_own {A} i o es st K (X : Set) (K' : X -> TlsBatch -> Prop) f (k : X -> prog (sys TlsBatch F) tev A) Q s h :
  env_closed batch_env K -> local i o es st K s h ->
  (forall c c' x, batch_wf c -> K c -> f c = (c', x) -> batch_wf c' /\ batch_held c' = batch_held c /\ K' x c') ->
  (forall x s h, local i o es st (K' x) s h -> Inv s h -> wp i (k x) Q (s, h)) ->
  wp i (Act X (on_cache i f) (fun _ => []) k) Q (s, h).
Proof.
  intros HK Hl Hf Hk. apply (wp_cache i o es st K X K' 0 f (fun _ => [])); [done|done|done| |].
  - intros c c' x Hw HKc Hx. destruct (Hf c c' x Hw HKc Hx) as (? & Hh & ?). by rewrite Hh.
  - intros x s1 h1 Hl1. rewrite app_nil_r in Hl1. by apply Hk.
Qed.

(** *** The adaptive size *)

(** Assertions that do not depend on the statistics. *)
Definition stats_free (K : TlsBatch -> Prop) : Prop :=
  forall c eff hits misses ops, K c -> K (set_stats eff hits misses ops c).

Lemma set_stats_wf c eff hits misses ops :
  batch_wf c -> Z.of_nat kMin <= eff <= Z.of_nat kMax -> batch_wf (set_stats eff hits misses ops c).
Proof. intros [Hl Hc He] Hn. by split. Qed.

Lemma adapt_bounds hits total current :
  Z.of_nat kMin <= current <= Z.of_nat kMax ->
  Z.of_nat kMin <= adapt BatchSize hits total current <= Z.of_nat kMax.
Proof.
  intros Hc. unfold adapt.
  destruct (3 * total <=? 4 * hits), (Z.ltb_spec current (Z.of_nat kMax)); simpl; try lia;
    destruct (4 * hits <=? total), (Z.ltb_spec (Z.of_nat kMin) current); simpl; lia.
Qed.

Lemma wp_stats {A} i o es st K (X : Set) (f : TlsBatch -> TlsBatch * X) (k : X -> prog (sys TlsBatch F) tev A) Q s h :
  env_closed batch_env K -> stats_free K -> local i o es st K s h ->
  (forall c, exists hits misses ops, (f c).1 = set_stats (effective_batch_size c) hits misses ops c) ->
  (forall x s h, local i o es st K s h -> Inv s h -> wp i (k x) Q (s, h)) ->
  wp i (Act X (on_cache i f) (fun _ => []) k) Q (s, h).
Proof.
  intros HK HS Hl Hf Hk. apply (wp_own i o es st K X (fun _ => K)); [done|done| |done].
  intros c c' x Hw HKc Hx. destruct (Hf c) as (hits & misses & ops & Hc). rewrite Hx in Hc. simpl in Hc. subst c'.
  split_and!; [by apply set_stats_wf; [|apply Hw]|done|by apply HS].
Qed.

Lemma wp_update {A} i o es st K hit_ (k : prog (sys TlsBatch F) tev A) Q s h :
  env_closed batch_env K -> stats_free K -> local i o es st K s h ->
  (forall s h, local i o es st K s h -> Inv s h -> wp i k Q (s, h)) ->
  wp i (bind (UpdateAdaptiveBatchSize BatchSize i hit_) (fun _ => k)) Q (s, h).
Proof.
  intros HK HS Hl Hk. unfold UpdateAdaptiveBatchSize. cbn [bind on_own atomic].
  apply (wp_stats i o es st K); [done|done|done|intros c; destruct hit_; simpl; eauto|].
  clear s h Hl. intros _ s h Hl _.
  apply (wp_stats i o es st K); [done|done|done|intros c; simpl; eauto|]. clear s h Hl. intros ops s h Hl HI.
  destruct (_ <? _); [by apply Hk|]. cbn [bind on_own atomic].
  apply (wp_stats i o es st K); [done|done|done|intros c; simpl; eauto|]. clear s h Hl HI. intros _ s h Hl _.
  apply (wp_stats i o es st K); [done|done|done|intros c; simpl; eauto|]. clear s h Hl. intros hits s h Hl _.
  apply (wp_stats i o es st K); [done|done|done|intros c; simpl; eauto|]. clear s h Hl. intros misses s h Hl HI.
  destruct (_ =? 0); [by apply Hk|]. cbn [bind on_load on_own atomic].
  apply (wp_own i o es st K Z (fun cur c => K c /\ Z.of_nat kMin <= cur <= Z.of_nat kMax)); [done|done| |].
  { intros c c' x Hw HKc [= <- <-]. split_and!; try done; apply Hw. }
  clear s h Hl HI. intros cur s h [Hl [HKc Hcur]] HI.
  apply (wp_own i o es st K unit (fun _ => K)); [done|by split| |].
  { intros c c' x Hw HKc' [= <- <-]. split_and!; [|done|by apply HS]. apply set_stats_wf; [done|]. by apply adapt_bounds. }
  intros [] s1 h1 Hl1 HI1. by apply Hk.
Qed.

Lemma wp_effective {A} i o es st K (k : nat -> prog (sys TlsBatch F) tev A) Q s h :
  env_closed batch_env K -> local i o es st K s h ->
  (forall n s h, (kMin <= n <= kMax)%nat -> local i o es st K s h -> Inv s h -> wp i (k n) Q (s, h)) ->
  wp i (bind (EffectiveBatchSize BatchSize i) k) Q (s, h).
Proof.
  intros HK Hl Hk. unfold EffectiveBatchSize. cbn [bind on_load atomic].
  apply (wp_own i o es st K Z (fun _ => K)); [done|done|by intros c c' x Hw HKc [= <- <-]|].
  intros size s1 h1 Hl1 HI1. apply Hk; [|done|done]. pose proof k_bounds.
  destruct (Z.ltb_spec size (Z.of_nat kMin)); [lia|]. rewrite Z.gtb_ltb.
  destruct (Z.ltb_spec (Z.of_nat kMax) size); lia.
Qed.

(** *** Slots *)

Lemma exchange_fast_slot : slot_exchange batch_held batch_wf batch_env exchange_fast.
Proof.
  intros c c' p [Hl Hc He] [= <- <-]. split_and!; [by split| |].
  - split; [by right|reflexivity|by left].
  - unfold batch_held. simpl. done.
Qed.

Lemma exchange_slot_slot i : slot_exchange batch_held batch_wf batch_env (exchange_slot i).
Proof.
  intros c c' p [Hl Hc He] [= <- <-]. split_and!.
  - split; simpl; [by rewrite length_insert|done|done].
  - split; simpl; [by left|apply nulled_insert|by left].
  - unfold batch_held, load_slot. simpl. rewrite (Permutation_app_swap_app _ (one (fast_slot c))).
    apply Permutation_app; [done|]. destruct (decide (i < length (batch c))%nat) as [Hi|Hi].
    + by rewrite (nonnull_insert (batch c) i 0 Hi).
    + destruct (nonnull_out (batch c) i ltac:(lia)) as [-> ->]. done.
Qed.

(** Storing into an empty slot. *)
Lemma store_slot_held i x c :
  (i < length (batch c))%nat -> load_slot i c = 0 ->
  batch_held (set_batch (<[i := x]> (batch c)) c) ≡ₚ one x ++ batch_held c.
Proof.
  intros Hi H0. unfold batch_held, load_slot in *. simpl.
  pose proof (nonnull_insert (batch c) i x Hi) as H. rewrite H0 in H. simpl in H. rewrite H. solve_Permutation.
Qed.

Lemma set_batch_wf c l : batch_wf c -> length l = length (batch c) -> batch_wf (set_batch l c).
Proof. intros [Hl Hc He] Hn. split; simpl; [by rewrite Hn|done|done]. Qed.

Lemma set_count_wf c n : batch_wf c -> 0 <= n <= Z.of_nat kMax -> batch_wf (set_count n c).
Proof. intros [Hl Hc He] Hn. by split. Qed.

(** Storing the count. *)
Lemma wp_store_count {A} i o es st n (k : unit -> prog (sys TlsBatch F) tev A) P Q s h :
  0 <= n <= Z.of_nat kMax -> null_closed P -> local i o es st (on_slots P) s h ->
  (forall s h, local i o es st (on_slots P) s h -> Inv s h -> wp i (k tt) Q (s, h)) ->
  wp i (Act unit (on_cache i (store_count n)) (fun _ => []) k) Q (s, h).
Proof.
  intros Hn HP Hl Hk. apply (wp_own i o es st (on_slots P) unit (fun _ => on_slots P)); [by apply on_slots_closed|done| |].
  - intros c c' x Hw HKc [= <- <-]. split_and!; [by apply set_count_wf|done|done].
  - intros [] s1 h1 Hl1 HI1. by apply Hk.
Qed.

(** *** [Get] *)

Definition get_inv (l : get_label) (es : list pev) (c : TlsBatch) : Prop :=
  match l with
  | GetStart => es = []
  | PopLoop count => es = [] /\ count <= Z.of_nat kMax
  | PopDec current p => es = [PTake p] /\ p <> 0 /\ current <= Z.of_nat kMax
  end.

Lemma get_inv_closed l es : env_closed batch_env (get_inv l es).
Proof. by destruct l; intros c c' _. Qed.

Lemma true_closed : null_closed (fun _ => True).
Proof. done. Qed.

#[local] Hint Resolve true_closed empty_from_closed empty_to_closed on_slots_closed get_inv_closed : batch.

Section get.
Context (i q hash : nat) (st : status).
Hypothesis (Hq : (q < np)%nat).

Abbreviation o := (TGet i q hash).

Definition get_post (r : get_label + Z) (s : sys TlsBatch F) (h : tls_hist) : Prop :=
  exists es, match r with
    | inl l => local i o es st (get_inv l es) s h
    | inr x => knows i o es st h /\ net_get (factory_ q) x es
    end.

Lemma get_jump l es s h :
  knows i o es st h -> (forall c, get_inv l es c) -> wp i (Ret (inl l)) get_post (s, h).
Proof.
  intros Hk Hl. apply wp_ret; [|exists es; split; [done|apply Hl]]. intros c c' Hr [es' Hes']. exists es'.
  by apply (stable_local batch_held batch_wf batch_env nshards np nc i o es' st _ (get_inv_closed l es') c c').
Qed.

Lemma get_return x es s h : knows i o es st h -> net_get (factory_ q) x es -> wp i (Ret (inr x)) get_post (s, h).
Proof.
  intros Hk Hn. apply wp_ret; [|by exists es]. intros c c' Hr (es' & Hk' & Hn'). exists es'. split; [|done].
  by apply (stable_knows batch_held batch_wf batch_env nshards np nc i _ _ _ c c').
Qed.

Lemma net_get_take p : p <> 0 -> net_get (factory_ q) p [PTake p].
Proof. intros Hp. by left. Qed.

Lemma wp_hit p s h : knows i o [PTake p] st h -> p <> 0 -> wp i (hit BatchSize i p) get_post (s, h).
Proof.
  intros Hk Hp. unfold hit, RecordCacheHit. apply (wp_update i o [PTake p] st (fun _ => True)); [done|done|done|].
  intros s1 h1 [Hk1 _] _. apply (get_return p [PTake p]); [done|by apply net_get_take].
Qed.

Lemma wp_pop_start s h : knows i o [] st h -> wp i (pop_start BatchSize i) get_post (s, h).
Proof.
  intros Hk. unfold pop_start. cbn [bind on_load atomic].
  apply (wp_own i o [] st (fun _ => True) Z (fun _ _ => True)); [done|done|by intros c c' x Hw _ [= <- <-]|].
  intros count s1 h1 [Hk1 _] _. apply (get_jump _ []); [done|]. intros c. split; [done|]. rewrite Z.gtb_ltb.
  destruct (Z.ltb_spec (Z.of_nat kMax) count); lia.
Qed.

Lemma wp_get_start s h : knows i o [] st h -> wp i (tls2_get factory_ nshards BatchSize q i hash GetStart) get_post (s, h).
Proof.
  intros Hk. cbn [tls2_get]. unfold on_load. cbn [bind atomic].
  apply (wp_own i o [] st (fun _ => True) Z (fun _ _ => True)); [done|done|by intros c c' x Hw _ [= <- <-]|].
  clear s h Hk. intros p s h [Hk _] _. destruct (p =? 0); simpl negb; [by apply wp_pop_start|].
  apply (wp_exchange_take i o [] st (fun _ => True)); [apply exchange_fast_slot|done|done|].
  clear s h Hk. intros x s h [Hk _] _. unfold took in Hk. destruct (Z.eqb_spec x 0) as [->|Hx]; simpl negb.
  - by apply wp_pop_start.
  - by apply wp_hit.
Qed.

(** A weak compare-and-exchange that decrements the count. *)
Lemma wp_cas_count {A} o' es b n (k : bool * Z -> prog (sys TlsBatch F) tev A) Q s h :
  0 < n -> n <= Z.of_nat kMax -> knows i o' es st h ->
  (forall r s h, snd r <= Z.of_nat kMax -> knows i o' es st h -> Inv s h -> wp i (k r) Q (s, h)) ->
  wp i (Act (bool * Z) (on_cache i (cas_count b n)) (fun _ => []) k) Q (s, h).
Proof.
  intros Hn Hn2 Hk Hs.
  apply (wp_own i o' es st (fun _ => True) (bool * Z) (fun r _ => snd r <= Z.of_nat kMax)); [done|done| |].
  - intros c c' x Hw _. unfold cas_count. destruct (negb b && _); intros [= <- <-].
    + split_and!; [apply set_count_wf; [done|lia]|done|done].
    + split_and!; [done|done|]. simpl. apply Hw.
  - intros r s1 h1 [Hk1 Hr] HI. by apply Hs.
Qed.

Lemma wp_pop_scan {A} k n (cont : option Z -> prog (sys TlsBatch F) tev A) Q s h :
  local i o [] st (on_slots (empty_to k)) s h ->
  (forall s h, local i o [] st (on_slots (empty_to (k + n))) s h -> Inv s h -> wp i (cont None) Q (s, h)) ->
  (forall p s h, p <> 0 -> knows i o [PTake p] st h -> Inv s h -> wp i (cont (Some p)) Q (s, h)) ->
  Inv s h -> wp i (bind (pop_scan q i (seq k n)) cont) Q (s, h).
Proof.
  intros Hl Hn Hs HI. revert k s h Hl Hn HI. induction n as [|n IH]; intros k s h Hl Hn HI; cbn [seq pop_scan bind].
  - apply Hn; [|done]. by rewrite Nat.add_0_r.
  - apply (wp_exchange_take i o [] st (on_slots (empty_to k))); [apply exchange_slot_slot|auto with batch|done|].
    clear s h Hl HI. intros x s h [Hk (c & HK & Hw & Hx)] HI. injection Hx as Hc Hx. unfold took in Hk.
    destruct (Z.eqb_spec x 0) as [->|Hne]; simpl negb.
    + apply IH; [|by rewrite Nat.add_succ_comm|done]. split; [done|]. rewrite <- Hc. by apply empty_to_null.
    + by apply Hs.
Qed.

(** The stores of the refill fill empty slots. *)
Lemma wp_refill {A} k xs es (cont : prog (sys TlsBatch F) tev A) Q s h :
  (k + length xs <= kMax)%nat -> Forall (fun x => x <> 0) xs -> local i o es st (on_slots (empty_from k)) s h ->
  (forall s h, local i o (es ++ (PStore <$> xs)) st (on_slots (empty_from (k + length xs))) s h -> Inv s h -> wp i cont Q (s, h)) ->
  Inv s h -> wp i (bind (refill q i k xs) (fun _ => cont)) Q (s, h).
Proof.
  intros Hle Hnz Hl Hc HI. revert k es s h Hle Hl Hc HI. induction Hnz as [|x xs Hx _ IH]; intros k es s h Hle Hl Hc HI;
    cbn [refill bind length] in *.
  - apply Hc; [|done]. by rewrite app_nil_r, Nat.add_0_r.
  - apply (wp_cache i o es st (on_slots (empty_from k)) unit (fun _ => on_slots (empty_from (S k))) q (store_slot k x) (fun _ => [PStore x]));
      [done|auto with batch|done| |].
    + intros c c' u Hw HK [= <- <-]. assert (k < length (batch c))%nat as Hk by (rewrite (bw_len _ Hw); lia).
      assert (load_slot k c = 0) as H0.
      { unfold load_slot. destruct (batch c !! k) as [y|] eqn:E; [|done]. simpl. by apply (HK k y). }
      split_and!; [apply set_batch_wf; [done|by rewrite length_insert]| |by apply empty_from_store].
      simpl. rewrite (store_slot_held k x c Hk H0). unfold one. by destruct (Z.eqb_spec x 0).
    + clear s h Hl HI. intros _ s h Hl HI. apply (IH (S k) (es ++ [PStore x])); [lia|done| |done].
      intros s1 h1 Hl1 HI1. apply Hc; [|done]. rewrite <- app_assoc in Hl1. by rewrite Nat.add_succ_r.
Qed.

Lemma wp_refill_null {A} es k slots (cont : prog (sys TlsBatch F) tev A) Q s h :
  Forall (fun j => (k <= j)%nat) slots ->
  local i o es st (on_slots (empty_from k)) s h ->
  (forall s h, local i o es st (on_slots (empty_from k)) s h -> Inv s h -> wp i cont Q (s, h)) ->
  Inv s h -> wp i (bind (refill_null i slots) (fun _ => cont)) Q (s, h).
Proof.
  intros Hf Hl Hc HI. revert s h Hl HI. induction Hf as [|j slots Hj _ IH]; intros s h Hl HI; cbn [refill_null bind on_own atomic]; [by apply Hc|].
  apply (wp_own i o es st (on_slots (empty_from k)) unit (fun _ => on_slots (empty_from k))); [auto with batch|done| |].
  - intros c c' u Hw HK [= <- <-]. rewrite (empty_from_insert k j (batch c) HK Hj). by destruct c.
  - intros _ s1 h1 Hl1 HI1. by apply IH.
Qed.

(** The refill keeps the object that [Get] returns. *)
Lemma net_get_refill got x :
  Forall (fun x => x <> 0) (got ++ [x]) -> net_get (factory_ q) x ((PTake <$> got ++ [x]) ++ (PStore <$> got)).
Proof.
  intros Hf. left. destruct (takes_take (got ++ [x])) as (T1 & T2 & T3), (stores_store got) as (S1 & S2 & S3).
  apply Forall_app in Hf as [_ Hx]. rewrite Forall_singleton in Hx. split; [done|].
  rewrite takes_app, stores_app, drops_app, T1, T2, T3, S1, S2, S3, app_nil_r. split_and!; [|done|].
  - by rewrite Permutation_app_comm.
  - unfold makes. rewrite omap_app. assert (forall (f : Z -> pev) l, (forall x, f x <> PMake x) ->
      (forall x y, f x = PMake y -> False) -> omap (fun e => match e with PMake x => Some x | _ => None end) (f <$> l) = []) as Hm.
    { intros f l _ Hne. induction l as [|y l IH]; [done|]. csimpl. rewrite IH. destruct (f y) eqn:E; try done. by apply Hne in E. }
    by rewrite !Hm.
Qed.

Lemma wp_get_l3 s h :
  local i o [] st (on_slots (empty_from 0)) s h -> Inv s h ->
  wp i (get_l3 factory_ nshards BatchSize q i hash) get_post (s, h).
Proof.
  intros Hl HI. unfold get_l3. set (K := on_slots (empty_from 0)) in *.
  assert (env_closed batch_env K) as HK by (unfold K; auto with batch).
  apply (wp_effective i o [] st K); [done|done|]. clear s h Hl HI. intros n s h Hn Hl HI. apply wp_bind; [done|].
  eapply wp_mono; [|apply (wp_on_core i o [] st K q); [done|done|done|by apply posts_get_batch]].
  clear s h Hl HI. intros got s h HI (ev & (-> & Hlen & Hnz) & Hl). simpl app in Hl. unfold RecordCacheMiss.
  apply (wp_update i o (PTake <$> got) st K); [done|by intros c|done|]. clear s h Hl HI. intros s h Hl HI.
  destruct (list.last got) as [x|] eqn:Elast.
  - apply last_Some in Elast as [xs ->]. rewrite removelast_snoc, length_app in *. cbn [length] in *.
    replace (length xs + 1 - 1)%nat with (length xs) by lia. pose proof Hnz as [Hnzx _]%Forall_app.
    apply (wp_refill 0 xs (PTake <$> xs ++ [x])); [simpl; lia|done|done| |done].
    clear s h Hl HI. intros s h Hl HI. simpl in Hl.
    apply (wp_refill_null ((PTake <$> xs ++ [x]) ++ (PStore <$> xs)) (length xs)); [|done| |done].
    { apply list.Forall_forall. intros j Hj%elem_of_seq. lia. }
    clear s h Hl HI. intros s h Hl HI. cbn [bind on_own atomic].
    apply (wp_store_count i o ((PTake <$> xs ++ [x]) ++ (PStore <$> xs)) st (Z.of_nat (length xs)) _
      (empty_from (length xs))); [lia|auto with batch|done|].
    intros s1 h1 [Hk1 _] _. by apply (get_return x ((PTake <$> xs ++ [x]) ++ (PStore <$> xs))); [|apply net_get_refill].
  - apply last_None in Elast as ->. apply wp_bind; [done|].
    eapply wp_mono; [|apply (wp_on_core i o [] st K q); [done|done|done|by apply posts_get]].
    intros x s1 h1 _ (ev & (ev' & -> & Hev) & [Hk1 _]). apply (get_return x ev'); [done|by right].
Qed.

Lemma wp_get_label l es s h :
  local i o es st (get_inv l es) s h -> Inv s h ->
  wp i (tls2_get factory_ nshards BatchSize q i hash l) get_post (s, h).
Proof.
  intros [Hk Hl] HI. destruct l as [|count|current p].
  - simpl in Hl. subst es. by apply wp_get_start.
  - destruct Hl as [-> Hle]. cbn [tls2_get]. destruct (Z.ltb_spec 0 count) as [Hc|Hc].
    + cbn [bind choose on_own atomic]. intros b. apply (wp_cas_count o [] b count); [done|done|done|].
      clear s h Hk HI. intros [ok cur] s h Hcur Hk HI. simpl in *. destruct ok.
      * apply (wp_exchange_take i o [] st (fun _ => True)); [apply exchange_slot_slot|done|done|].
        clear s h Hk HI. intros x s h [Hk _] HI. unfold took in Hk. destruct (Z.eqb_spec x 0) as [->|Hx]; simpl negb.
        -- by apply (get_jump (PopLoop count) []).
        -- by apply wp_hit.
      * by apply (get_jump (PopLoop cur) []).
    + apply (wp_pop_scan 0 kMax); [split; [done|intros j x Hj; lia]| | |done].
      * clear s h Hk HI. intros s h Hl HI. cbn [bind on_own atomic].
        apply (wp_store_count i o [] st 0 _ (empty_to kMax)); [lia|auto with batch|done|].
        clear s h Hl HI. intros s h [Hk Hl] HI. apply wp_get_l3; [|done]. split; [done|].
        intros j x Hj Hx. apply (Hl j x); [|done]. pose proof (bw_len _ (tv_cache _ _ _ _ _ _ _ (proj1 HI) i)) as Hlen.
        apply lookup_lt_Some in Hx. lia.
      * clear s h Hk HI. intros p s h Hp Hk HI. cbn [bind on_load atomic].
        apply (wp_own i o [PTake p] st (fun _ => True) Z (fun cur _ => cur <= Z.of_nat kMax)); [done|done| |].
        { intros c c' x Hw _ [= <- <-]. split_and!; [done|done|apply Hw]. }
        intros cur s1 h1 [Hk1 Hcur] _. by apply (get_jump (PopDec cur p) [PTake p]).
  - destruct Hl as (-> & Hp & Hle). cbn [tls2_get]. destruct (Z.ltb_spec 0 current) as [Hc|Hc]; [|by apply wp_hit].
    cbn [bind choose on_own atomic]. intros b. apply (wp_cas_count o [PTake p] b current); [done|done|done|].
    clear s h Hk HI. intros [ok cur] s h Hcur Hk HI. simpl in *. destruct ok; [by apply wp_hit|].
    by apply (get_jump (PopDec cur p) [PTake p]).
Qed.

End get.

(** *** [Put] *)

(** The count leaves room for one more; only the thread itself could use it. *)
Definition room (c : TlsBatch) : Prop := batch_count c < Z.of_nat kMax.

Lemma room_closed : env_closed batch_env room.
Proof. intros c c' [_ _ Hc] Hr. unfold room in *. pose proof k_bounds. destruct Hc as [->| ->]; lia. Qed.

Lemma wp_increment {A} i o es st (k : prog (sys TlsBatch F) tev A) Q s h :
  local i o es st room s h -> (forall s h, knows i o es st h -> Inv s h -> wp i k Q (s, h)) ->
  wp i (bind (IncrementBatchCount BatchSize i) (fun _ => k)) Q (s, h).
Proof.
  intros Hl Hk. unfold IncrementBatchCount. cbn [bind on_own atomic]. pose proof k_bounds.
  apply (wp_own i o es st room Z (fun _ _ => True)); [apply room_closed|done| |].
  - intros c c' x Hw Hr [= <- <-]. split_and!; [|done|done]. apply set_count_wf; [done|].
    pose proof (bw_count _ Hw). unfold room in Hr. unfold add64, u64. rewrite Z.mod_small; lia.
  - clear s h Hl. intros prev s h [Hkn _] HI. destruct (_ >=? _); [|by apply Hk].
    cbn [bind on_own atomic]. apply (wp_store_count i o es st (Z.of_nat kMax) _ (fun _ => True)); [lia|done|done|].
    intros s1 h1 [Hk1 _] HI1. by apply Hk.
Qed.

Lemma wp_push_slot {A} i o es st q j x (k : bool -> prog (sys TlsBatch F) tev A) Q s h :
  x <> 0 -> (j < kMax)%nat -> local i o es st room s h ->
  (forall ok s h, local i o (es ++ if ok : bool then [PStore x] else []) st room s h -> Inv s h -> wp i (k ok) Q (s, h)) ->
  wp i (bind (push_slot q i j x) k) Q (s, h).
Proof.
  intros Hx Hj Hl Hk. unfold push_slot. cbn [bind atomic_lin].
  apply (wp_cache i o es st room bool (fun _ => room) q (cas_slot j x) (fun ok : bool => if ok then [PStore x] else []));
    [by intros []|apply room_closed|done| |done].
  intros c c' ok Hw Hr. unfold cas_slot. destruct (Z.eqb_spec (load_slot j c) 0) as [H0|]; intros [= <- <-]; [|done].
  split_and!; [apply set_batch_wf; [done|by rewrite length_insert]| |done].
  simpl. rewrite store_slot_held; [|rewrite (bw_len _ Hw); lia|done]. unfold one. by destruct (Z.eqb_spec x 0).
Qed.

Lemma wp_push_scan i o st q x slots s h :
  x <> 0 -> Forall (fun j => (j < kMax)%nat) slots -> local i o [] st room s h -> Inv s h ->
  wp i (push_scan BatchSize q i slots x) (fun ok _ h => knows i o (if ok : bool then [PStore x] else []) st h) (s, h).
Proof.
  intros Hx Hf. revert s h. induction Hf as [|j slots Hj _ IH]; intros s h Hl HI; cbn [push_scan].
  - apply wp_ret; [apply stable_knows|apply Hl].
  - apply (wp_push_slot i o [] st); [done|done|done|].
    clear s h Hl HI. intros ok s h Hl HI. destruct ok; [|by apply IH].
    apply (wp_increment i o [PStore x] st); [done|]. clear s h Hl HI. intros s h Hkn HI.
    apply wp_ret; [apply stable_knows|done].
Qed.

Lemma wp_try_push i o st q x s h :
  x <> 0 -> knows i o [] st h -> Inv s h ->
  wp i (TryPushBatch BatchSize q i x) (fun ok _ h => knows i o (if ok : bool then [PStore x] else []) st h) (s, h).
Proof.
  intros Hx Hk HI. unfold TryPushBatch. apply (wp_effective i o [] st (fun _ => True)); [done|done|].
  clear s h Hk HI. intros limit s h Hlim [Hk _] HI. cbn [bind on_load atomic].
  apply (wp_own i o [] st (fun _ => True) Z (fun n c => 0 <= n /\ batch_count c <= n)); [done|done| |].
  { intros c c' n Hw _ [= <- <-]. pose proof (bw_count _ Hw). split_and!; [done|done|lia|lia]. }
  clear s h Hk HI. intros count s h [Hk [Hc0 Hc]] HI. rewrite Z.geb_leb.
  destruct (Z.leb_spec (Z.of_nat limit) count) as [|Hlt]; [by apply wp_ret; [apply stable_knows|]|].
  assert (local i o [] st room s h) as Hl by (split; [done|unfold room; lia]).
  destruct (Z.ltb_spec count (Z.of_nat kMax)); [|lia].
  apply (wp_push_slot i o [] st); [done|lia|done|]. clear s h Hk Hc HI Hl. intros ok s h Hl HI. destruct ok.
  - apply (wp_increment i o [PStore x] st); [done|]. intros s1 h1 Hk1 _. apply wp_ret; [apply stable_knows|done].
  - apply wp_push_scan; [done| |done|done]. apply list.Forall_forall. intros j Hj%elem_of_seq. lia.
Qed.

Lemma Forall_one x (l : list Z) : Forall (fun y => y <> 0) l -> Forall (fun y => y <> 0) (l ++ one x).
Proof.
  intros Hl. apply Forall_app. split; [done|]. unfold one. destruct (Z.eqb_spec x 0); [constructor|by repeat constructor].
Qed.

Lemma took_one x : took x = PTake <$> one x.
Proof. unfold took, one. by destruct (x =? 0). Qed.

Lemma one_length x : (length (one x) <= 1)%nat.
Proof. unfold one. destruct (x =? 0); simpl; lia. Qed.

(** The slots taken out one by one: what [DrainBatch] and [OnThreadExit] hold. *)
Definition drained (i : nat) (o : tls_op) (st : status) (n : nat) (items : list Z) (h : tls_hist) : Prop :=
  (Forall (fun x => x <> 0) items /\ (length items <= n)%nat) /\ knows i o (PTake <$> items) st h.

Lemma stable_drained i o st n items : stable Inv Gr i (fun _ h => drained i o st n items h).
Proof. apply stable_and; [apply stable_pure|apply stable_knows]. Qed.

Lemma drained_one i o st n items x h :
  Forall (fun x => x <> 0) items /\ (length items <= n)%nat ->
  knows i o ((PTake <$> items) ++ took x) st h -> drained i o st (S n) (items ++ one x) h.
Proof.
  intros [Hnz Hl] Hk. split.
  - split; [by apply Forall_one|]. rewrite length_app. pose proof (one_length x). lia.
  - by rewrite fmap_app, <- took_one.
Qed.

Lemma wp_exit_slots i o st q slots n items s h :
  drained i o st n items h -> Inv s h ->
  wp i (exit_slots q i slots items) (fun items _ h => drained i o st (n + length slots) items h) (s, h).
Proof.
  revert n items s h. induction slots as [|j slots IH]; intros n items s h [Hd Hk] HI; cbn [exit_slots length].
  - apply wp_ret; [apply stable_drained|]. by rewrite Nat.add_0_r.
  - apply (wp_exchange_take i o (PTake <$> items) st (fun _ => True)); [apply exchange_slot_slot|done|done|].
    clear s h Hk HI. intros x s h [Hk _] HI. rewrite <- Nat.add_succ_comm. apply IH; [|done]. by apply drained_one.
Qed.

Lemma wp_drain_slots i o st q m slots n items s h :
  drained i o st n items h -> Inv s h ->
  wp i (drain_slots q i m slots items) (fun items _ h => drained i o st (n + length slots) items h) (s, h).
Proof.
  revert n items s h. induction slots as [|j slots IH]; intros n items s h Hd HI; cbn [drain_slots length].
  - apply wp_ret; [apply stable_drained|]. by rewrite Nat.add_0_r.
  - destruct (_ <? _)%nat.
    + destruct Hd as [Hd Hk].
      apply (wp_exchange_take i o (PTake <$> items) st (fun _ => True)); [apply exchange_slot_slot|done|done|].
      clear s h Hk HI. intros x s h [Hk _] HI. rewrite <- Nat.add_succ_comm. apply IH; [|done]. by apply drained_one.
    + apply wp_ret; [apply stable_drained|]. destruct Hd as [[? ?] ?]. split; [split; [done|lia]|done].
Qed.

Lemma wp_drain_batch i o st q s h :
  knows i o [] st h -> Inv s h ->
  wp i (DrainBatch BatchSize q i false kMax) (fun items _ h => drained i o st kMax items h) (s, h).
Proof.
  intros Hk HI. unfold DrainBatch. pose proof k_bounds. simpl orb. destruct (Nat.eqb_spec kMax 0); [lia|].
  apply wp_bind; [done|]. eapply wp_mono; [|apply (wp_drain_slots i o st q kMax _ 0); [|done]].
  2:{ split; [split; [constructor|simpl; lia]|done]. }
  clear s h Hk HI. intros items s h HI [Hd Hk]. rewrite length_seq in Hd. cbn [bind on_own atomic].
  apply (wp_store_count i o (PTake <$> items) st 0 _ (fun _ => True)); [lia|done|done|].
  intros s1 h1 [Hk1 _] _. apply wp_ret; [apply stable_drained|done].
Qed.

Lemma wp_put_batch i o es st q hash items s h :
  (q < np)%nat -> Forall (fun x => x <> 0) items -> knows i o es st h ->
  wp i (on_core q (PutSharedBatch (nshards q) hash false items))
    (fun _ _ h => knows i o (es ++ (PStore <$> items)) st h) (s, h).
Proof.
  intros Hq Hnz Hk. eapply wp_mono; [|apply (wp_on_core i o es st (fun _ => True) q); [done|done|done|by apply posts_put_batch]].
  intros [] s1 h1 _ (ev & -> & [Hk1 _]). simpl in Hk1. change (filter _ items) with (nonnull items) in Hk1.
  by rewrite nonnull_all in Hk1.
Qed.

Lemma net_put_flush x items : net_put x ((PTake <$> items) ++ (PStore <$> items ++ [x])).
Proof.
  destruct (takes_take items) as (T1 & T2 & T3), (stores_store (items ++ [x])) as (S1 & S2 & S3).
  unfold net_put. rewrite stores_app, takes_app, drops_app, T1, T2, T3, S1, S2, S3, app_nil_r. split; [|done].
  simpl. by rewrite Permutation_app_comm.
Qed.

Lemma wp_put i q hash x st s h :
  (q < np)%nat -> x <> 0 -> knows i (TPut i q hash x) [] st h -> Inv s h ->
  wp i (tls2_put nshards BatchSize q i hash x)
    (fun _ _ h => exists es, knows i (TPut i q hash x) es st h /\ net_put x es) (s, h).
Proof.
  intros Hq Hx Hk HI. set (o := TPut i q hash x) in *. unfold tls2_put. cbn [bind atomic_lin].
  assert (forall s h, knows i o [PStore x] st h -> Inv s h ->
    wp i (RecordCacheHit BatchSize i) (fun _ _ h => exists es, knows i o es st h /\ net_put x es) (s, h)) as Hhit.
  { intros s1 h1 Hk1 HI1. apply (wp_bind_ret _ _ _ i _ (fun _ => Ret tt)); [by intros []|].
    apply (wp_update i o [PStore x] st (fun _ => True)); [done|done|done|].
    intros s2 h2 [Hk2 _] _. apply wp_ret; [|by exists [PStore x]].
    intros c c' Hr (es & Hk' & Hn). exists es. split; [|done].
    by apply (stable_knows batch_held batch_wf batch_env nshards np nc i _ _ _ c c'). }
  apply (wp_cache i o [] st (fun _ => True) bool (fun _ _ => True) q (cas_fast x)
    (fun ok : bool => if ok then [PStore x] else [])); [by intros []|done|done| |].
  { intros c c' ok Hw _. unfold cas_fast. destruct (Z.eqb_spec (fast_slot c) 0) as [E|]; intros [= <- <-]; [|done].
    split_and!; [by destruct Hw| |done]. unfold batch_held. simpl. rewrite E. unfold one.
    by destruct (Z.eqb_spec x 0). }
  clear s h Hk HI. intros ok s h [Hk _] HI. destruct ok; [by apply Hhit|]. apply wp_bind; [done|].
  eapply wp_mono; [|by apply wp_try_push]. clear s h Hk HI. intros ok s h HI Hk. destruct ok; [by apply Hhit|].
  apply (wp_update i o [] st (fun _ => True)); [done|done|done|]. clear s h Hk HI. intros s h [Hk _] HI.
  apply wp_bind; [done|]. eapply wp_mono; [|by apply wp_drain_batch].
  clear s h Hk HI. intros items s h HI [[Hnz _] Hk].
  eapply wp_mono; [|apply (wp_put_batch i o (PTake <$> items) st q hash (items ++ [x])); [done| |done]].
  - intros [] s1 h1 _ Hk1. exists ((PTake <$> items) ++ (PStore <$> items ++ [x])). split; [done|apply net_put_flush].
  - apply Forall_app. split; [done|by repeat constructor].
Qed.

(** *** The other operations *)

Lemma wp_clear_slots2 i o es st q c slots s h :
  (q < np)%nat -> (c < nc)%nat -> knows i o es st h -> Inv s h ->
  wp i (clear_slots destroy q c slots) (fun _ _ h => exists ds, knows i o (es ++ (PDrop <$> ds)) st h) (s, h).
Proof.
  intros Hq Hc. revert es s h. induction slots as [|j slots IH]; intros es s h Hk HI; cbn [clear_slots].
  - apply wp_ret; [apply stable_drops|]. exists []. by rewrite app_nil_r.
  - apply wp_bind; [done|]. eapply wp_mono; [|by apply wp_exchange_delete; [apply exchange_slot_slot|..]].
    clear s h Hk HI. intros [] s h HI [ds Hk]. eapply wp_mono; [|by apply (IH (es ++ (PDrop <$> ds)))].
    intros [] s1 h1 _ [ds' Hk']. exists (ds ++ ds'). by rewrite fmap_app, app_assoc.
Qed.

Lemma wp_clear2 i o es st q c s h :
  (q < np)%nat -> (c < nc)%nat -> knows i o es st h -> Inv s h ->
  wp i (tls2_clear destroy BatchSize q c) (fun _ _ h => exists ds, knows i o (es ++ (PDrop <$> ds)) st h) (s, h).
Proof.
  intros Hq Hc Hk HI. unfold tls2_clear. apply wp_bind; [done|].
  eapply wp_mono; [|by apply wp_exchange_delete; [apply exchange_fast_slot|..]].
  clear s h Hk HI. intros [] s h HI [ds Hk]. apply wp_bind; [done|].
  eapply wp_mono; [|by apply wp_clear_slots2]. clear s h Hk HI. intros [] s h HI [ds' Hk].
  rewrite <- app_assoc, <- fmap_app in Hk. unfold on_own, atomic.
  apply (wp_cache_other i o (es ++ (PDrop <$> ds ++ ds')) st 0 c unit (store_count 0) (fun _ => [])); [done|done|done| |].
  - intros c1 c2 [] Hw [= <-]. split_and!; [apply set_count_wf; [done|lia]| |done].
    split; [by left|reflexivity|by right].
  - intros [] s1 h1 Hk1 _. rewrite app_nil_r in Hk1. apply wp_ret; [apply stable_drops|]. by exists (ds ++ ds').
Qed.

Lemma wp_count_slots i o es st c slots total s h :
  (c < nc)%nat -> knows i o es st h ->
  wp i (count_slots c slots total) (fun _ _ h => knows i o es st h) (s, h).
Proof.
  intros Hc. revert total s h. induction slots as [|j slots IH]; intros total s h Hk; cbn [count_slots].
  - apply wp_ret; [apply stable_knows|done].
  - unfold on_load. cbn [bind atomic]. apply (wp_cache_load i o es st c Z (load_slot j)); [done|done|].
    intros p s1 h1 Hk1 _. by apply IH.
Qed.

#[local] Instance tls2_laws :
  CacheLaws (CacheOps0 := tls2_ops factory_ destroy nshards BatchSize) batch_held batch_wf batch_env nshards np nc factory_
    get_inv (fun items => length items <= S kMax)%nat.
Proof.
  pose proof k_bounds as (Hk1 & Hk2 & Hk3 & Hk4). split.
  - split; simpl; [by rewrite length_replicate|lia|lia].
  - unfold batch_held. simpl. unfold one. simpl. generalize kMax. intros n. induction n as [|n IH]; [done|].
    simpl. by rewrite nonnull_cons.
  - intros l es. apply get_inv_closed.
  - done.
  - intros i q hash l es st s h Hq Hl HI. by apply (wp_get_label i q hash st Hq l es).
  - intros i q hash x st s h. apply wp_put.
  - intros i o es st q c s h. apply wp_clear2.
  - intros i o es st c total s h Hc Hk HI. cbn [count_cache tls2_ops]. unfold tls2_count, on_load. cbn [bind atomic].
    apply (wp_cache_load i o es st c Z load_fast); [done|done|]. intros p s1 h1 Hk' _. by apply wp_count_slots.
  - intros i o st q s h Hq Hk HI. cbn [drain_cache tls2_ops]. unfold tls2_drain.
    apply (wp_exchange_take i o [] st (fun _ => True)); [apply exchange_fast_slot|done|done|].
    clear s h Hk HI. intros p s h [Hk _] HI. apply wp_bind; [done|].
    eapply wp_mono; [|apply (wp_exit_slots i o st q _ 1); [|done]].
    2:{ apply (drained_one i o st 0 []); [split; [constructor|simpl; lia]|done]. }
    clear s h Hk HI. intros items s h HI [Hd Hk]. rewrite length_seq in Hd. cbn [bind on_own atomic].
    apply (wp_store_count i o (PTake <$> items) st 0 _ (fun _ => True)); [lia|done|done|].
    intros s1 h1 [Hk' _] _. apply wp_ret; [apply stable_and; [apply stable_pure|apply stable_knows]|done].
  - intros i o es st q hash items s h Hq Hk [Hnz _] HI. cbn [put_drained tls2_ops].
    eapply wp_mono; [|by apply (wp_put_batch i o es st q hash items)]. intros [] s1 h1 _ Hk'.
    exists (PStore <$> items). destruct (stores_store items) as (? & ? & ?). done.
Qed.

End laws.

(** ** Theorems *)

(** C14. [ObjectPoolTLSv2], any number of pools and threads, every interleaving of
    [Get], [Put], [Clear], [Size], the destructors and the exits of threads: the
    objects handed to a pool are those taken out, those deleted, those in the
    shards and those in the fast slots and the batches of the threads, each
    exactly once; in particular the plain stores of a refill overwrite no
    object.  A completed [Get] has kept exactly the object it returns of the
    batch it took; a completed [Put] that flushed its batch has stored exactly
    what it drained and its own object. *)
Theorem tls2_ownership {F} (factory_ : nat -> option (F -> F * Z)) (destroy : Z -> F -> F)
    (shard_count : nat -> nat) BatchSize ord f np nc threads cfg :
  let ns q := Nat.max 1 (shard_count q) in
  (0 < BatchSize)%nat -> Z.of_nat BatchSize * 2 < two64 -> Z.of_nat nc < 2147483648 ->
  reach Entry (ObjectPoolTLSv2_body factory_ destroy ns BatchSize ord) (tls_env np nc)
    (ObjectPoolTLSv2_new factory_ destroy ns BatchSize f) threads cfg ->
  let es := core_evs (events (hist cfg)) in
  stores es ≡ₚ takes es ++ drops es ++ contents batch_held np nc (shared cfg) /\
  Forall (fun '(o, es, r) => tls_good factory_ o es r) (completed (hist cfg)).
Proof.
  intros ns Hb Hb2 Hnc Hreach. assert (forall q, (0 < ns q)%nat) as Hns by (intros; unfold ns; lia).
  destruct (tls_adequacy batch_held (batch_wf BatchSize) batch_env ns np nc Hns Hnc factory_ destroy ord _ _
    (Hlaws := tls2_laws factory_ destroy ns BatchSize np nc Hns Hb Hb2) _ _ _ Hreach) as [[HO _] Hg].
  split; [apply (tv_own _ _ _ _ _ _ _ HO)|done].
Qed.

(** C22. The cache of every thread of [ObjectPoolTLSv2] keeps its shape in every
    interleaving: the array has [kMaxBatchSize] slots, the count is between [0]
    and [kMaxBatchSize] (so every index [count - 1] and [count] that the code
    computes from it is inside the array), and the adaptive batch size stays
    between [kMinBatchSize] and [kMaxBatchSize]. *)
Theorem tls2_cache_type {F} (factory_ : nat -> option (F -> F * Z)) (destroy : Z -> F -> F)
    (shard_count : nat -> nat) BatchSize ord f np nc threads cfg c :
  let ns q := Nat.max 1 (shard_count q) in
  (0 < BatchSize)%nat -> Z.of_nat BatchSize * 2 < two64 -> Z.of_nat nc < 2147483648 ->
  reach Entry (ObjectPoolTLSv2_body factory_ destroy ns BatchSize ord) (tls_env np nc)
    (ObjectPoolTLSv2_new factory_ destroy ns BatchSize f) threads cfg ->
  let cache := data (caches (shared cfg) c) in
  length (batch cache) = kMaxBatchSize BatchSize /\
  0 <= batch_count cache <= Z.of_nat (kMaxBatchSize BatchSize) /\
  Z.of_nat (kMinBatchSize BatchSize) <= effective_batch_size cache <= Z.of_nat (kMaxBatchSize BatchSize).
Proof.
  intros ns Hb Hb2 Hnc Hreach cache. assert (forall q, (0 < ns q)%nat) as Hns by (intros; unfold ns; lia).
  destruct (tls_adequacy batch_held (batch_wf BatchSize) batch_env ns np nc Hns Hnc factory_ destroy ord _ _
    (Hlaws := tls2_laws factory_ destroy ns BatchSize np nc Hns Hb Hb2) _ _ _ Hreach) as [[HO _] _].
  by destruct (tv_cache _ _ _ _ _ _ _ HO c).
Qed.

(** The destructor of [ObjectPoolTLSv2]: when its bounded wait ended because it
    read that no operation was active, after its store of [closing_] had taken
    effect, then once it has emptied the registry, and from then on, no cache
    names the destroyed pool as its owner, [closing_] is set and no [Get], [Put]
    or [Clear] is between its guard and its end. *)
Theorem tls2_destructor {F} (factory_ : nat -> option (F -> F * Z)) (destroy : Z -> F -> F)
    (shard_count : nat -> nat) BatchSize ord f np nc threads cfg q :
  let ns q := Nat.max 1 (shard_count q) in
  (0 < BatchSize)%nat -> Z.of_nat BatchSize * 2 < two64 -> Z.of_nat nc < 2147483648 ->
  reach Entry (ObjectPoolTLSv2_body factory_ destroy ns BatchSize ord) (tls_env np nc)
    (ObjectPoolTLSv2_new factory_ destroy ns BatchSize f) threads cfg ->
  CDone q SeenZero ∈ events (hist cfg) ->
  (forall c, owner (caches (shared cfg) c) <> Some q) /\ closing_ (pools (shared cfg) q) = true /\
  forall i, gate_ (view i (hist cfg)) <> Inside q.
Proof.
  intros ns Hb Hb2 Hnc Hreach. assert (forall q, (0 < ns q)%nat) as Hns by (intros; unfold ns; lia).
  by apply (tls_closed batch_held (batch_wf BatchSize) batch_env ns np nc Hns Hnc factory_ destroy ord _ _
    (Hlaws := tls2_laws factory_ destroy ns BatchSize np nc Hns Hb Hb2) f threads).
Qed.

(** *** A concrete execution *)

Definition demo2_factory (q : nat) : option (Z -> Z * Z) := Some (fun f => (f + 1, f)).

Definition tls2_demo_body := ObjectPoolTLSv2_body demo2_factory (fun _ f => f) (fun _ => Nat.max 1 1) 2 SeqCst.

Definition tls2_demo_new : sys TlsBatch Z :=
  ObjectPoolTLSv2_new demo2_factory (fun _ f => f) (fun _ => Nat.max 1 1) 2 (fun _ => 100).

(** Thread 0 fills its slot and its batch, flushes the batch, and gets two
    objects back, the second one through a refill; thread 1 destroys the pool. *)
Definition tls2_demo_schedule : list (nat * move tls_op) :=
  concat ((fun '(x, k) => (0%nat, Call (TPut 0 0 0 x)) :: go 0 k) <$> [(10, 16%nat); (11, 16%nat); (12, 16%nat); (13, 20%nat)]) ++
  [(0%nat, Call (TGet 0 0 0))] ++ go 0 14 ++ [(0%nat, Call (TGet 0 0 0))] ++ go 0 27.

Definition tls2_demo : config := outcome Entry tls2_demo_body tls2_demo_new 2 tls2_demo_schedule.

Definition tls2_demo_destroyed : config :=
  outcome Entry tls2_demo_body tls2_demo_new 2 (tls2_demo_schedule ++ [(1%nat, Call (TDestroy 0))] ++ go 1 18).

Lemma tls2_demo_reach :
  reach Entry tls2_demo_body (tls_env 1 2) tls2_demo_new 2 tls2_demo /\
  reach Entry tls2_demo_body (tls_env 1 2) tls2_demo_new 2 tls2_demo_destroyed.
Proof. split; (apply (outcome_reach _ _ _ (tls_envb 1 2)); [apply tls_envb_ok|vm_compute; reflexivity]). Qed.

Lemma tls2_ownership_witness :
  contents batch_held 1 2 (shared tls2_demo) = [11; 13] /\
  (TGet 0 0 0, [GAdd 0; GIn 0; TE 0 (PTake 13); TE 0 (PTake 12); TE 0 (PStore 13); GOut 0], TPtr 12) ∈
    completed (hist tls2_demo) /\
  let es := core_evs (events (hist tls2_demo)) in
  stores es ≡ₚ takes es ++ drops es ++ contents batch_held 1 2 (shared tls2_demo).
Proof.
  split; [vm_compute; reflexivity|]. split; [vm_compute; do 5 right; left|].
  apply (tls2_ownership demo2_factory (fun _ f => f) (fun _ => 1%nat) 2 SeqCst (fun _ => 100) 1 2 2 tls2_demo);
    [lia|done|lia|apply tls2_demo_reach].
Defined.

Lemma tls2_cache_type_witness :
  batch (data (caches (shared tls2_demo) 0)) = [13; 0; 0; 0] /\
  0 <= batch_count (data (caches (shared tls2_demo) 0)) <= 4.
Proof.
  split; [vm_compute; reflexivity|].
  apply (tls2_cache_type demo2_factory (fun _ f => f) (fun _ => 1%nat) 2 SeqCst (fun _ => 100) 1 2 2 tls2_demo 0);
    [lia|done|lia|apply tls2_demo_reach].
Defined.

Lemma tls2_destructor_witness :
  owner (caches (shared tls2_demo) 0) = Some 0%nat /\
  (forall c, owner (caches (shared tls2_demo_destroyed) c) <> Some 0%nat) /\
  closing_ (pools (shared tls2_demo_destroyed) 0) = true /\
  forall i, gate_ (view i (hist tls2_demo_destroyed)) <> Inside 0.
Proof.
  split; [vm_compute; reflexivity|].
  apply (tls2_destructor demo2_factory (fun _ f => f) (fun _ => 1%nat) 2 SeqCst (fun _ => 100) 1 2 2 tls2_demo_destroyed);
    [lia|done|lia|apply tls2_demo_reach|].
  apply (bool_decide_unpack _). vm_compute. exact I.
Defined.
