(* ===== verification/Numa.v ===== *)
(** * Numa: the placement of the thread-local caches in memory

    Models [detail::numa] ([include/lscq/detail/numa_utils.hpp]) and the
    [LocalCacheHolder] of [ObjectPoolTLSv2], which allocates a cache with it and
    frees it when its thread exits.

    [libnuma], the scheduler and [operator new] are parameters: what they answer
    is arbitrary.  The memory is the list of the live blocks, each with the
    allocator that made it and its size; giving a block back to the wrong
    allocator, or to [numa_free] with the wrong size, is an error ([None]). *)

From stdpp Require Import base list numbers option.
From Stdlib Require Import ZArith Lia.
From S2P Require Import Prelude.

Local Open Scope Z_scope.

Inductive allocator : Set := FromNuma | FromNew.

#[global] Instance allocator_eq_dec : EqDecision allocator.
Proof. solve_decision. Defined.

Record block := mkBlock {
  block_ptr : Z;
  block_size : Z;
  block_from : allocator
}.

#[global] Instance block_eq_dec : EqDecision block.
Proof. solve_decision. Defined.

Record Allocation := mkAllocation {
  ptr : Z;
  on_numa : bool
}.

(** ** The operating system *)

(** [numa_free(p, bytes)] and [operator delete(p)]: the live block at [p]. *)
Fixpoint release (p : Z) (ok : block -> bool) (m : list block) : option (list block) :=
  match m with
  | [] => None
  | b :: m =>
      if block_ptr b =? p then if ok b then Some m else None
      else match release p ok m with Some m' => Some (b :: m') | None => None end
  end.

Definition numa_free (p bytes : Z) (m : list block) : option (list block) :=
  release p (fun b => bool_decide (block_from b = FromNuma) && (block_size b =? bytes)) m.

Definition op_delete (p : Z) (m : list block) : option (list block) :=
  release p (fun b => bool_decide (block_from b = FromNew)) m.

Section numa.
(** [LSCQ_HAS_NUMA], and the answers of the operating system; [op_new] answers
    [None] when it throws. *)
Context (has_numa : bool) (numa_available sched_getcpu : Z) (numa_node_of_cpu : Z -> Z).
Context (numa_alloc_onnode : Z -> Z -> list block -> Z) (op_new : Z -> list block -> option Z).

Definition Available : bool := if has_numa then negb (numa_available =? -1) else false.

Definition CurrentNode : Z :=
  if has_numa then
    if negb Available then -1
    else let cpu := if sched_getcpu <? 0 then 0 else sched_getcpu in numa_node_of_cpu cpu
  else -1.

(** [::operator new(bytes)]; the result [None] is the exception. *)
Definition allocate_new (bytes : Z) (m : list block) : option (list block * Allocation) :=
  match op_new bytes m with
  | Some p => Some (mkBlock p bytes FromNew :: m, mkAllocation p false)
  | None => None
  end.

Definition Allocate (bytes : Z) (m : list block) : option (list block * Allocation) :=
  if bytes =? 0 then Some (m, mkAllocation 0 false)
  else if has_numa && Available then
    let node := CurrentNode in
    if 0 <=? node then
      let p := numa_alloc_onnode bytes node m in
      if negb (p =? 0) then Some (mkBlock p bytes FromNuma :: m, mkAllocation p true)
      else allocate_new bytes m
    else allocate_new bytes m
  else allocate_new bytes m.

Definition Free (a : Allocation) (bytes : Z) (m : list block) : option (list block) :=
  if ptr a =? 0 then Some m
  else if has_numa && on_numa a then numa_free (ptr a) bytes m
  else op_delete (ptr a) m.

(** ** [LocalCacheHolder], for a cache of [size] bytes *)

(** The constructor: [None] when [Allocate] or the constructor throws. *)
Definition LocalCacheHolder_new (size : Z) (m : list block) : option (list block * Allocation) :=
  match Allocate size m with
  | Some (m', a) => if ptr a =? 0 then None else Some (m', a)
  | None => None
  end.

(** The destructor, after [~LocalCache]. *)
Definition LocalCacheHolder_destroy (cache : Allocation) (size : Z) (m : list block) : option (list block) :=
  if ptr cache =? 0 then Some m else Free cache size m.

Lemma allocate_new_free bytes m m' a :
  allocate_new bytes m = Some (m', a) -> Free a bytes m' = Some (if ptr a =? 0 then m' else m).
Proof.
  unfold allocate_new, Free, op_delete. destruct (op_new bytes m) as [p|]; [|done]. intros [= <- <-]. simpl.
  destruct (p =? 0); [done|]. rewrite andb_false_r. simpl. by rewrite Z.eqb_refl.
Qed.

(** The placement of a cache is undone exactly: whatever [libnuma], the
    scheduler and [operator new] answer, when the constructor of
    [LocalCacheHolder] succeeds with the block [a], the cache has memory of its
    own, and the destructor gives this block back to the allocator that made it
    with the size it was made with, which restores the memory.  [Allocate] falls
    back to [operator new] whenever the node is unknown or [libnuma] has no
    memory, and fails only when [operator new] throws. *)
Theorem numa_holder_roundtrip size m m' a :
  LocalCacheHolder_new size m = Some (m', a) ->
  ptr a <> 0 /\ LocalCacheHolder_destroy a size m' = Some m /\
  m' = mkBlock (ptr a) size (if on_numa a then FromNuma else FromNew) :: m /\
  (on_numa a = true -> has_numa = true /\ numa_available <> -1 /\ 0 <= CurrentNode).
Proof.
  unfold LocalCacheHolder_new, LocalCacheHolder_destroy. destruct (Allocate size m) as [[m1 a1]|] eqn:E; [|done].
  destruct (Z.eqb_spec (ptr a1) 0) as [|Hp]; [done|]. intros [= -> ->].
  destruct (Z.eqb_spec (ptr a) 0) as [|_]; [done|]. split; [done|]. unfold Allocate in E.
  assert (allocate_new size m = Some (m', a) -> Free a size m' = Some m /\
    m' = mkBlock (ptr a) size (if on_numa a then FromNuma else FromNew) :: m /\ on_numa a = false) as Hnew.
  { intros H. pose proof (allocate_new_free size m m' a H) as Hf. destruct (Z.eqb_spec (ptr a) 0); [done|].
    unfold allocate_new in H. destruct (op_new size m); [|done]. injection H as <- <-. done. }
  assert (allocate_new size m = Some (m', a) -> Free a size m' = Some m /\
    m' = mkBlock (ptr a) size (if on_numa a then FromNuma else FromNew) :: m /\
    (on_numa a = true -> has_numa = true /\ numa_available <> -1 /\ 0 <= CurrentNode)) as Hnew'.
  { intros H. destruct (Hnew H) as (? & ? & Hon). split_and!; [done|done|congruence]. }
  destruct (size =? 0); [by injection E as <- <-|]. destruct (has_numa && Available) eqn:Ea; [|by apply Hnew'].
  destruct (Z.leb_spec 0 CurrentNode) as [Hn|]; [|by apply Hnew'].
  destruct (Z.eqb_spec (numa_alloc_onnode size CurrentNode m) 0) as [|Hq]; [by apply Hnew'|]. injection E as <- <-.
  simpl in *. unfold Free, numa_free. simpl. destruct (Z.eqb_spec (numa_alloc_onnode size CurrentNode m) 0); [done|].
  apply andb_true_iff in Ea as [Hh Hav]. unfold Available in Hav. rewrite Hh in *. simpl. rewrite !Z.eqb_refl. simpl.
  split_and!; [done|done|]. intros _. split_and!; [done| |done]. by destruct (Z.eqb_spec numa_available (-1)).
Qed.

End numa.

(** Two nodes, the calling thread on the second one; a cache of 192 bytes. *)
Definition numa_demo : option (list block * Allocation) :=
  LocalCacheHolder_new true 0 5 (fun cpu => if cpu <? 4 then 0 else 1) (fun bytes node m => 4096 + node) (fun _ _ => None) 192 [].

Lemma numa_holder_roundtrip_witness :
  numa_demo = Some ([mkBlock 4097 192 FromNuma], mkAllocation 4097 true) /\
  LocalCacheHolder_destroy true (mkAllocation 4097 true) 192 [mkBlock 4097 192 FromNuma] = Some [].
Proof.
  split; [vm_compute; reflexivity|].
  apply (numa_holder_roundtrip true 0 5 (fun cpu => if cpu <? 4 then 0 else 1) (fun bytes node m => 4096 + node)
    (fun _ _ => None) 192 []). vm_compute. reflexivity.
Defined.
