(* ===== verification/Args.v ===== *)
(** * Args: the command lines of the example programs

    Models [parse_u64] and [parse_args] of [examples/task_queue.cpp],
    [examples/producer_consumer.cpp], [examples/benchmark_demo.cpp] and
    [examples/benchmark_custom.cpp].  [parse_u64] has the same text in the four
    files, and so has the loop of [parse_args] around the tests of the keys; what
    differs is the record of options, the tests of the keys ([..._key]) and the
    tests at the end ([..._check]).

    Output is a list of lines, each with its stream.  A function that changes its
    argument [opt] returns the new record.

    [args_roundtrip]: the arguments that spell a valid record of options are read
    back as this record; [parse_u64_spec]: what is accepted as a number. *)

From Stdlib Require Import ZArith Lia Ascii.
From stdpp Require Import base list numbers option strings pretty.
From S2P Require Import Prelude.

Local Open Scope Z_scope.

(** ** Output *)

Inductive output : Type :=
| Cout (s : string)
| Cerr (s : string).

#[global] Instance output_eq_dec : EqDecision output.
Proof. solve_decision. Defined.

(** ** [std::from_chars] for [unsigned long long] in base 10

    The longest prefix of digits is the pattern: no sign and no space.  The result
    has the error, the rest of the text after the pattern, and the value, which is
    stored only without error. *)
Inductive errc : Type := NoError | InvalidArgument | ResultOutOfRange.

#[global] Instance errc_eq_dec : EqDecision errc.
Proof. solve_decision. Defined.

Fixpoint scan_digits (s : string) : list nat * string :=
  match s with
  | EmptyString => ([], EmptyString)
  | String c s' =>
      match Ascii.is_nat c with
      | Some d => let '(ds, rest) := scan_digits s' in (d :: ds, rest)
      | None => ([], s)
      end
  end.

Definition digits_value (ds : list nat) : Z :=
  foldl (fun v d => v * 10 + Z.of_nat d) 0 ds.

Definition from_chars (s : string) : errc * string * option Z :=
  match scan_digits s with
  | ([], _) => (InvalidArgument, s, None)
  | (ds, rest) =>
      if digits_value ds <? two64 then (NoError, rest, Some (digits_value ds))
      else (ResultOutOfRange, rest, None)
  end.

(** [parse_u64]: the value for [out], or [None] for the result [false]. *)
Definition parse_u64 (s : string) : option Z :=
  let '(ec, ptr, v) := from_chars s in
  if negb (bool_decide (ec = NoError)) || negb (bool_decide (ptr = EmptyString)) then None
  else Some (u64 (default 0 v)).

(** ** The loop of [parse_args] *)

(** [a.find('=')] with the two [substr]. *)
Fixpoint split_eq (a : string) : option (string * string) :=
  match a with
  | EmptyString => None
  | String c a' =>
      if bool_decide (c = "="%char) then Some (EmptyString, a')
      else match split_eq a' with
           | Some (key, val) => Some (String c key, val)
           | None => None
           end
  end.

(** What the tests of the keys do with a pair: set an option, return [false], or
    fall through to the message at the end of the loop. *)
Inductive key_result (O : Type) : Type :=
| Assign (opt : O)
| Reject
| Unknown.

Arguments Assign {O} opt.
Arguments Reject {O}.
Arguments Unknown {O}.

(** [parse_u64(val, opt.<field>)], with the setter of the field. *)
Definition set_u64 {O} (set : Z -> O -> O) (val : string) (opt : O) : key_result O :=
  match parse_u64 val with
  | Some v => Assign (set v opt)
  | None => Reject
  end.

Section parse_args.
Context {O : Type} (print_help : string -> list output)
  (key_test : string -> string -> O -> key_result O)
  (check : O -> list output * bool).

Definition unknown_arg (a : string) : output := Cerr ("Unknown arg: " +:+ a).

(** The loop over [argv[1 ...]]: what was printed, the options and the result. *)
Fixpoint parse_args (argv0 : string) (args : list string) (opt : O) : list output * O * bool :=
  match args with
  | [] => let '(out, b) := check opt in (out, opt, b)
  | a :: args =>
      if bool_decide (a = "--help") || bool_decide (a = "-h") then (print_help argv0, opt, false)
      else
        match split_eq a with
        | None => ([unknown_arg a], opt, false)
        | Some (key, val) =>
            match key_test key val opt with
            | Assign opt => parse_args argv0 args opt
            | Reject => ([], opt, false)
            | Unknown => ([unknown_arg a], opt, false)
            end
        end
  end.

End parse_args.

(** ** [task_queue] *)

Record task_options := TaskOptions {
  t_producers : Z;
  t_consumers : Z;
  tasks_per_producer : Z;
  t_scqsize : Z
}.

Definition task_defaults : task_options := TaskOptions 4 4 20000 1024.

Definition task_print_help (argv0 : string) : list output :=
  Cout <$> ["Usage: " +:+ argv0 +:+ " [options]";
            "Options:";
            "  --producers=<N>           Producer threads (default: 4)";
            "  --consumers=<N>           Consumer threads (default: 4)";
            "  --tasks-per-producer=<N>  Tasks per producer (default: 20000)";
            "  --scqsize=<N>             Per-node ring size (default: 1024)";
            "  --help                    Show help"].

Definition task_key (key val : string) (opt : task_options) : key_result task_options :=
  let '(TaskOptions p c n z) := opt in
  if bool_decide (key = "--producers") then set_u64 (fun v _ => TaskOptions v c n z) val opt
  else if bool_decide (key = "--consumers") then set_u64 (fun v _ => TaskOptions p v n z) val opt
  else if bool_decide (key = "--tasks-per-producer") then set_u64 (fun v _ => TaskOptions p c v z) val opt
  else if bool_decide (key = "--scqsize") then set_u64 (fun v _ => TaskOptions p c n v) val opt
  else Unknown.

Definition task_check (opt : task_options) : list output * bool :=
  if (t_producers opt =? 0) || (t_consumers opt =? 0) || (tasks_per_producer opt =? 0)
  then ([Cerr "Invalid: producers/consumers/tasks-per-producer must be > 0"], false)
  else ([], true).

Definition task_parse_args := parse_args task_print_help task_key task_check.

(** ** [producer_consumer] *)

Record pc_options := PcOptions {
  pc_producers : Z;
  pc_consumers : Z;
  items_per_producer : Z;
  batch_size : Z;
  pc_scqsize : Z
}.

Definition pc_defaults : pc_options := PcOptions 4 4 200000 64 1024.

Definition pc_print_help (argv0 : string) : list output :=
  Cout <$> ["Usage: " +:+ argv0 +:+ " [options]";
            "Options:";
            "  --producers=<N>           Producer threads (default: 4)";
            "  --consumers=<N>           Consumer threads (default: 4)";
            "  --items-per-producer=<N>  Items per producer (default: 200000)";
            "  --batch-size=<N>          Batch size for produce/consume loops (default: 64)";
            "  --scqsize=<N>             Per-node ring size (default: 1024)";
            "  --help                    Show help"].

Definition pc_key (key val : string) (opt : pc_options) : key_result pc_options :=
  let '(PcOptions p c n b z) := opt in
  if bool_decide (key = "--producers") then set_u64 (fun v _ => PcOptions v c n b z) val opt
  else if bool_decide (key = "--consumers") then set_u64 (fun v _ => PcOptions p v n b z) val opt
  else if bool_decide (key = "--items-per-producer") then set_u64 (fun v _ => PcOptions p c v b z) val opt
  else if bool_decide (key = "--batch-size") then set_u64 (fun v _ => PcOptions p c n v z) val opt
  else if bool_decide (key = "--scqsize") then set_u64 (fun v _ => PcOptions p c n b v) val opt
  else Unknown.

Definition pc_check (opt : pc_options) : list output * bool :=
  if (pc_producers opt =? 0) || (pc_consumers opt =? 0) || (items_per_producer opt =? 0) ||
     (batch_size opt =? 0)
  then ([Cerr "Invalid: producers/consumers/items-per-producer/batch-size must be > 0"], false)
  else ([], true).

Definition pc_parse_args := parse_args pc_print_help pc_key pc_check.

(** ** [benchmark_demo] *)

Record demo_options := DemoOptions {
  d_scqsize : Z;
  d_producers : Z;
  d_consumers : Z;
  d_ops_per_producer : Z
}.

Definition demo_defaults : demo_options := DemoOptions 1024 4 4 200000.

Definition demo_print_help (argv0 : string) : list output :=
  Cout <$> ["Usage: " +:+ argv0 +:+ " [options]";
            "Options:";
            "  --scqsize=<N>                      LSCQ per-node ring size (default: 1024)";
            "  --producers=<N>                    Producer threads (default: 4)";
            "  --consumers=<N>                    Consumer threads (default: 4)";
            "  --ops-per-producer=<N>             Operations per producer (default: 200000)";
            "  --help                             Show help";
            "";
            "Notes:";
            "  - This is a *demo* of throughput measurement (ops/s) using a steady clock.";
            "  - For LSCQ we enqueue pointers into a pre-allocated vector to avoid measuring";
            "    allocation overhead. Real programs often transfer ownership (new/delete),";
            "    which will lower throughput."].

Definition demo_key (key val : string) (opt : demo_options) : key_result demo_options :=
  let '(DemoOptions z p c n) := opt in
  if bool_decide (key = "--scqsize") then set_u64 (fun v _ => DemoOptions v p c n) val opt
  else if bool_decide (key = "--producers") then set_u64 (fun v _ => DemoOptions z v c n) val opt
  else if bool_decide (key = "--consumers") then set_u64 (fun v _ => DemoOptions z p v n) val opt
  else if bool_decide (key = "--ops-per-producer") then set_u64 (fun v _ => DemoOptions z p c v) val opt
  else Unknown.

Definition demo_check (opt : demo_options) : list output * bool :=
  if (d_producers opt =? 0) || (d_consumers opt =? 0) || (d_ops_per_producer opt =? 0)
  then ([Cerr "Invalid: producers/consumers/ops-per-producer must be > 0"], false)
  else ([], true).

Definition demo_parse_args := parse_args demo_print_help demo_key demo_check.

(** ** [benchmark_custom] *)

Record custom_options := CustomOptions {
  c_queue : string;
  c_scqsize : Z;
  c_producers : Z;
  c_consumers : Z;
  c_ops_per_producer : Z
}.

Definition custom_defaults : custom_options := CustomOptions "lscq" 1024 4 4 200000.

Definition custom_print_help (argv0 : string) : list output :=
  Cout <$> ["Usage: " +:+ argv0 +:+ " [options]";
            "Options:";
            "  --queue=<lscq|scqp>        Queue type (default: lscq)";
            "  --scqsize=<N>              SCQ/SCQP ring size (default: 1024)";
            "  --producers=<N>            Producer threads (default: 4)";
            "  --consumers=<N>            Consumer threads (default: 4)";
            "  --ops-per-producer=<N>     Operations per producer (default: 200000)";
            "  --help                     Show help"].

Definition custom_key (key val : string) (opt : custom_options) : key_result custom_options :=
  let '(CustomOptions q z p c n) := opt in
  if bool_decide (key = "--queue") then Assign (CustomOptions val z p c n)
  else if bool_decide (key = "--scqsize") then set_u64 (fun v _ => CustomOptions q v p c n) val opt
  else if bool_decide (key = "--producers") then set_u64 (fun v _ => CustomOptions q z v c n) val opt
  else if bool_decide (key = "--consumers") then set_u64 (fun v _ => CustomOptions q z p v n) val opt
  else if bool_decide (key = "--ops-per-producer") then set_u64 (fun v _ => CustomOptions q z p c v) val opt
  else Unknown.

Definition custom_check (opt : custom_options) : list output * bool :=
  if (c_producers opt =? 0) || (c_consumers opt =? 0) || (c_ops_per_producer opt =? 0)
  then ([Cerr "Invalid: producers/consumers/ops-per-producer must be > 0"], false)
  else if negb (bool_decide (c_queue opt = "lscq")) && negb (bool_decide (c_queue opt = "scqp"))
  then ([Cerr "Invalid: --queue must be lscq or scqp"], false)
  else ([], true).

Definition custom_parse_args := parse_args custom_print_help custom_key custom_check.

(** ** Numbers *)

Definition digit_char (d : nat) : ascii := pretty_N_char (N.of_nat d).

Fixpoint digit_string (ds : list nat) : string :=
  match ds with
  | [] => EmptyString
  | d :: ds => String (digit_char d) (digit_string ds)
  end.

Lemma is_nat_digit_char d : (d < 10)%nat -> Ascii.is_nat (digit_char d) = Some d.
Proof. intros Hd. do 10 (destruct d as [|d]; [done|]). lia. Qed.

Lemma is_nat_Some c d : Ascii.is_nat c = Some d -> (d < 10)%nat /\ c = digit_char d.
Proof.
  destruct c as [[] [] [] [] [] [] [] []]; simpl; intros [= <-];
    (split; [lia|reflexivity]).
Qed.

Lemma scan_digits_spec s ds rest :
  scan_digits s = (ds, rest) ->
  s = digit_string ds +:+ rest /\ Forall (fun d => d < 10)%nat ds.
Proof.
  revert ds rest. induction s as [|c s IH]; intros ds rest; simpl.
  - intros [= <- <-]. done.
  - destruct (Ascii.is_nat c) as [d|] eqn:Ec; [|by intros [= <- <-]].
    destruct (scan_digits s) as [ds' rest'] eqn:Es. intros [= <- <-].
    destruct (IH _ _ eq_refl) as [-> Hds]. apply is_nat_Some in Ec as [Hd ->]. auto.
Qed.

Lemma string_app_nil (s : string) : s +:+ EmptyString = s.
Proof. induction s as [|c s IH]; [done|]. unfold String.app in *. simpl. by rewrite IH. Qed.

Lemma scan_digit_string ds :
  Forall (fun d => d < 10)%nat ds -> scan_digits (digit_string ds) = (ds, EmptyString).
Proof. induction 1 as [|d ds Hd _ IH]; simpl; [done|]. by rewrite is_nat_digit_char, IH. Qed.

Lemma digits_value_nonneg ds : 0 <= digits_value ds.
Proof.
  unfold digits_value. assert (forall v, 0 <= v -> 0 <= foldl (fun v d => v * 10 + Z.of_nat d) v ds) as H; [|by apply H].
  induction ds as [|d ds IH]; intros v Hv; simpl; [done|]. apply IH. lia.
Qed.

Lemma digits_value_snoc ds d : digits_value (ds ++ [d]) = digits_value ds * 10 + Z.of_nat d.
Proof. unfold digits_value. by rewrite foldl_app. Qed.

(** The texts that [parse_u64] accepts, and their values. *)
Lemma parse_u64_iff s v :
  parse_u64 s = Some v <->
  exists ds, ds <> [] /\ Forall (fun d => d < 10)%nat ds /\ s = digit_string ds /\
    v = digits_value ds /\ v < two64.
Proof.
  unfold parse_u64, from_chars. split.
  - destruct (scan_digits s) as [ds rest] eqn:Es. apply scan_digits_spec in Es as [-> Hds].
    destruct ds as [|d ds]; [done|]. set (l := d :: ds) in *.
    destruct (digits_value l <? two64) eqn:Ev; [|done]. apply Z.ltb_lt in Ev.
    destruct rest; [|done]. simpl. intros [= <-]. exists l. split_and!; [done|done| | |].
    + apply string_app_nil.
    + apply u64_small. split; [apply digits_value_nonneg|done].
    + rewrite u64_small; [done|]. split; [apply digits_value_nonneg|done].
  - intros (ds & Hne & Hds & -> & -> & Hv). rewrite scan_digit_string by done.
    destruct ds as [|d ds]; [done|]. rewrite (proj2 (Z.ltb_lt _ _) Hv). simpl. f_equal.
    apply u64_small. split; [apply digits_value_nonneg|done].
Qed.

Lemma pretty_N_go_digits x ds :
  Forall (fun d => d < 10)%nat ds ->
  exists ds0, pretty_N_go x (digit_string ds) = digit_string (ds0 ++ ds) /\
    Forall (fun d => d < 10)%nat ds0 /\ digits_value ds0 = Z.of_N x /\ (x <> 0%N -> ds0 <> []).
Proof.
  revert ds. induction (N.lt_wf_0 x) as [x _ IH]; intros ds Hds.
  destruct (decide (0 < x)%N) as [Hx|Hx].
  - rewrite pretty_N_go_step by done.
    pose proof (N.mod_lt x 10 ltac:(done)) as Hm. pose proof (N.Div0.div_mod x 10) as Hdm.
    destruct (IH (x `div` 10)%N ltac:(apply N.div_lt; lia) (N.to_nat (x `mod` 10) :: ds))
      as (ds0 & Heq & Hds0 & Hv & _).
    { constructor; [lia|done]. }
    exists (ds0 ++ [N.to_nat (x `mod` 10)]). split_and!.
    + rewrite <- app_assoc. etransitivity; [|exact Heq]. simpl. unfold digit_char. by rewrite N2Nat.id.
    + apply Forall_app. split; [done|]. constructor; [lia|constructor].
    + rewrite digits_value_snoc, Hv. lia.
    + intros _ H. by apply app_nil in H as [_ ?].
  - assert (x = 0%N) as -> by lia. rewrite pretty_N_go_0. exists []. by split_and!.
Qed.

Lemma parse_u64_pretty (x : N) : Z.of_N x < two64 -> parse_u64 (pretty x) = Some (Z.of_N x).
Proof.
  intros Hx. apply parse_u64_iff. unfold pretty, pretty_N. case_decide as Hz.
  - subst. exists [0%nat]. split_and!; [done| |done|done|done]. constructor; [lia|constructor].
  - destruct (pretty_N_go_digits x [] ltac:(constructor)) as (ds0 & Heq & Hds & Hv & Hne).
    rewrite app_nil_r in Heq. exists ds0. split_and!; auto.
Qed.

(** ** Options *)

(** [key=<decimal>]. *)
Definition number_arg (key : string) (v : Z) : string := key +:+ "=" +:+ pretty (Z.to_N v).

Lemma split_eq_key (key val : string) :
  split_eq key = None -> split_eq (key +:+ "=" +:+ val) = Some (key, val).
Proof.
  unfold String.app. induction key as [|c key IH]; simpl; [done|].
  case_bool_decide as Hc; [done|]. destruct (split_eq key) as [[]|]; [done|]. intros _.
  by rewrite IH.
Qed.

(** One argument of the loop. *)
Lemma parse_args_key {O} help (key_test : string -> string -> O -> key_result O) check argv0 key val args opt opt' :
  split_eq key = None -> key_test key val opt = Assign opt' ->
  parse_args help key_test check argv0 ((key +:+ "=" +:+ val) :: args) opt =
  parse_args help key_test check argv0 args opt'.
Proof.
  intros Hkey Hset. simpl. pose proof (split_eq_key key val Hkey) as Hs. rewrite Hs.
  rewrite !bool_decide_eq_false_2; [|intros Heq; rewrite Heq in Hs; by vm_compute in Hs..]. simpl.
  by rewrite Hset.
Qed.

Lemma parse_args_number {O} help (key_test : string -> string -> O -> key_result O) check argv0 key v args opt set :
  split_eq key = None -> is_u64 v ->
  (forall val, key_test key val opt = set_u64 set val opt) ->
  parse_args help key_test check argv0 (number_arg key v :: args) opt =
  parse_args help key_test check argv0 args (set v opt).
Proof.
  intros Hkey Hv Hset. unfold is_u64 in Hv. apply parse_args_key; [done|].
  rewrite Hset. unfold set_u64. rewrite parse_u64_pretty, Z2N.id by lia. done.
Qed.

Definition task_args (opt : task_options) : list string :=
  [number_arg "--producers" (t_producers opt); number_arg "--consumers" (t_consumers opt);
   number_arg "--tasks-per-producer" (tasks_per_producer opt); number_arg "--scqsize" (t_scqsize opt)].

Definition task_valid (opt : task_options) : Prop :=
  Forall is_u64 [t_producers opt; t_consumers opt; tasks_per_producer opt; t_scqsize opt] /\
  Forall (Z.lt 0) [t_producers opt; t_consumers opt; tasks_per_producer opt].

Definition pc_args (opt : pc_options) : list string :=
  [number_arg "--producers" (pc_producers opt); number_arg "--consumers" (pc_consumers opt);
   number_arg "--items-per-producer" (items_per_producer opt); number_arg "--batch-size" (batch_size opt);
   number_arg "--scqsize" (pc_scqsize opt)].

Definition pc_valid (opt : pc_options) : Prop :=
  Forall is_u64 [pc_producers opt; pc_consumers opt; items_per_producer opt; batch_size opt; pc_scqsize opt] /\
  Forall (Z.lt 0) [pc_producers opt; pc_consumers opt; items_per_producer opt; batch_size opt].

Definition demo_args (opt : demo_options) : list string :=
  [number_arg "--scqsize" (d_scqsize opt); number_arg "--producers" (d_producers opt);
   number_arg "--consumers" (d_consumers opt); number_arg "--ops-per-producer" (d_ops_per_producer opt)].

Definition demo_valid (opt : demo_options) : Prop :=
  Forall is_u64 [d_scqsize opt; d_producers opt; d_consumers opt; d_ops_per_producer opt] /\
  Forall (Z.lt 0) [d_producers opt; d_consumers opt; d_ops_per_producer opt].

Definition custom_args (opt : custom_options) : list string :=
  ("--queue" +:+ "=" +:+ c_queue opt) ::
  [number_arg "--scqsize" (c_scqsize opt); number_arg "--producers" (c_producers opt);
   number_arg "--consumers" (c_consumers opt); number_arg "--ops-per-producer" (c_ops_per_producer opt)].

Definition custom_valid (opt : custom_options) : Prop :=
  (Forall is_u64 [c_scqsize opt; c_producers opt; c_consumers opt; c_ops_per_producer opt] /\
   Forall (Z.lt 0) [c_producers opt; c_consumers opt; c_ops_per_producer opt]) /\
  (c_queue opt = "lscq" \/ c_queue opt = "scqp").

(** What an accepted command line leaves in the options: the values are words and
    every count is positive. *)
Lemma parse_args_accepts {O} help (key_test : string -> string -> O -> key_result O) check (good valid : O -> Prop)
    argv0 args opt out opt' :
  (forall key val o o', good o -> key_test key val o = Assign o' -> good o') ->
  (forall o out, good o -> check o = (out, true) -> out = [] /\ valid o) ->
  good opt -> parse_args help key_test check argv0 args opt = (out, opt', true) -> out = [] /\ valid opt'.
Proof.
  intros Hkey Hcheck. revert opt. induction args as [|a args IH]; intros opt Hg; simpl.
  - destruct (check opt) as [out0 b] eqn:Ec. intros [= <- <- ->]. eauto.
  - destruct (_ || _); [done|]. destruct (split_eq a) as [[key val]|]; [|done].
    destruct (key_test key val opt) as [o'| |] eqn:Ek; [|done..]. eauto.
Qed.

Lemma set_u64_Assign {O} (set : Z -> O -> O) val opt opt' :
  set_u64 set val opt = Assign opt' -> exists v, is_u64 v /\ opt' = set v opt.
Proof.
  unfold set_u64. destruct (parse_u64 val) as [v|] eqn:Ev; [|done]. intros [= <-].
  apply parse_u64_iff in Ev as (ds & _ & _ & _ & -> & Hv). exists (digits_value ds).
  split; [|done]. split; [apply digits_value_nonneg|done].
Qed.

(** The contract of a command line: the arguments [spell opt] give [opt] back for
    every valid [opt], without a message; and whatever is accepted is valid. *)
Definition reads_options {O} (parse : string -> list string -> O -> list output * O * bool)
    (defaults : O) (spell : O -> list string) (valid : O -> Prop) : Prop :=
  (forall argv0 opt, valid opt -> parse argv0 (spell opt) defaults = ([], opt, true)) /\
  (forall argv0 args out opt, parse argv0 args defaults = (out, opt, true) -> out = [] /\ valid opt).

Lemma check_count v : (0 < v)%Z -> (v =? 0) = false.
Proof. intros H. apply Z.eqb_neq. lia. Qed.

(** Read the next [key=<decimal>] of the goal. *)
Ltac read_number :=
  etransitivity; [eapply parse_args_number; [reflexivity|done|reflexivity]|]; cbn beta.

(** Split the tests of the keys of [H], and use what they assign. *)
Ltac split_keys H :=
  repeat (case_bool_decide;
    [apply set_u64_Assign in H as (? & ? & ->); cbn; by repeat apply Forall_cons_2; try apply Forall_nil_2|]); done.

Ltac forall_split :=
  repeat match goal with H : Forall _ (_ :: _) |- _ => inversion_clear H end.

(** The tests at the end give positive counts. *)
Ltac counts_valid :=
  simpl in *; bool_hyps; forall_split; repeat apply Forall_cons_2; try apply Forall_nil_2;
  unfold is_u64 in *; lia.

Lemma task_reads : reads_options task_parse_args task_defaults task_args task_valid.
Proof.
  split.
  - intros argv0 [p c n z] [Hu Hp]. simpl in Hu, Hp. forall_split. unfold task_parse_args, task_args.
    do 4 read_number. simpl. unfold task_check. simpl. by rewrite !check_count by done.
  - intros argv0 args out opt. apply (parse_args_accepts _ _ _ (fun o => Forall is_u64
      [t_producers o; t_consumers o; tasks_per_producer o; t_scqsize o])).
    + intros key val [p c n z] o' Hg Hk. unfold task_key in Hk. cbn in Hg. forall_split. split_keys Hk.
    + intros [p c n z] out' Hg. unfold task_check. destruct (_ || _) eqn:E1; [done|]. intros [= <-].
      split; [done|]. split; [done|]. counts_valid.
    + by repeat constructor.
Qed.

Lemma pc_reads : reads_options pc_parse_args pc_defaults pc_args pc_valid.
Proof.
  split.
  - intros argv0 [p c n b z] [Hu Hp]. simpl in Hu, Hp. forall_split. unfold pc_parse_args, pc_args.
    do 5 read_number. simpl. unfold pc_check. simpl. by rewrite !check_count by done.
  - intros argv0 args out opt. apply (parse_args_accepts _ _ _ (fun o => Forall is_u64
      [pc_producers o; pc_consumers o; items_per_producer o; batch_size o; pc_scqsize o])).
    + intros key val [p c n b z] o' Hg Hk. unfold pc_key in Hk. cbn in Hg. forall_split. split_keys Hk.
    + intros [p c n b z] out' Hg. unfold pc_check. destruct (_ || _) eqn:E1; [done|]. intros [= <-].
      split; [done|]. split; [done|]. counts_valid.
    + by repeat constructor.
Qed.

Lemma demo_reads : reads_options demo_parse_args demo_defaults demo_args demo_valid.
Proof.
  split.
  - intros argv0 [z p c n] [Hu Hp]. simpl in Hu, Hp. forall_split. unfold demo_parse_args, demo_args.
    do 4 read_number. simpl. unfold demo_check. simpl. by rewrite !check_count by done.
  - intros argv0 args out opt. apply (parse_args_accepts _ _ _ (fun o => Forall is_u64
      [d_scqsize o; d_producers o; d_consumers o; d_ops_per_producer o])).
    + intros key val [z p c n] o' Hg Hk. unfold demo_key in Hk. cbn in Hg. forall_split. split_keys Hk.
    + intros [z p c n] out' Hg. unfold demo_check. destruct (_ || _) eqn:E1; [done|]. intros [= <-].
      split; [done|]. split; [done|]. counts_valid.
    + by repeat constructor.
Qed.

Lemma custom_reads : reads_options custom_parse_args custom_defaults custom_args custom_valid.
Proof.
  split.
  - intros argv0 [q z p c n] [[Hu Hp] Hq]. simpl in Hu, Hp, Hq. forall_split.
    unfold custom_parse_args, custom_args.
    etransitivity; [by apply parse_args_key|]. do 4 read_number. simpl. unfold custom_check. simpl.
    rewrite !check_count by done. by destruct Hq as [-> | ->].
  - intros argv0 args out opt. apply (parse_args_accepts _ _ _ (fun o => Forall is_u64
      [c_scqsize o; c_producers o; c_consumers o; c_ops_per_producer o])).
    + intros key val [q z p c n] o' Hg Hk. unfold custom_key in Hk. cbn in Hg.
      case_bool_decide; [by injection Hk as <-|]. forall_split. split_keys Hk.
    + intros [q z p c n] out' Hg. unfold custom_check. destruct (_ || _) eqn:E1; [done|].
      destruct (_ && _) eqn:E2; [done|]. intros [= <-]. split; [done|]. split.
      * split; [done|]. counts_valid.
      * apply andb_false_iff in E2 as [E2|E2]; apply negb_false_iff, bool_decide_eq_true_1 in E2; auto.
    + by repeat constructor.
Qed.

(** ** Theorems *)

(** C40. The command lines of [task_queue], [producer_consumer], [benchmark_demo]
    and [benchmark_custom]: for every record of options whose numbers are 64-bit
    words, whose counts are positive and whose queue is [lscq] or [scqp], the
    arguments that spell it in decimal are read back as exactly this record and
    nothing is printed; and [parse_args] returns [true] for no other record. *)
Theorem args_roundtrip :
  reads_options task_parse_args task_defaults task_args task_valid /\
  reads_options pc_parse_args pc_defaults pc_args pc_valid /\
  reads_options demo_parse_args demo_defaults demo_args demo_valid /\
  reads_options custom_parse_args custom_defaults custom_args custom_valid.
Proof. eauto using task_reads, pc_reads, demo_reads, custom_reads. Qed.

(** [parse_u64] accepts exactly the nonempty texts of decimal digits (leading
    zeros allowed; no sign, no space, nothing after the digits) whose value is
    below [2^64], and returns this value; in particular it never returns a value
    that was reduced modulo [2^64]. *)
Theorem parse_u64_spec s v :
  parse_u64 s = Some v <->
  exists ds, ds <> [] /\ Forall (fun d => d < 10)%nat ds /\ s = digit_string ds /\
    v = digits_value ds /\ v < two64.
Proof. apply parse_u64_iff. Qed.

Example parse_u64_max : parse_u64 "18446744073709551615" = Some 18446744073709551615.
Proof. reflexivity. Qed.

Example parse_u64_overflow : parse_u64 "18446744073709551616" = None.
Proof. reflexivity. Qed.

Example parse_u64_sign : parse_u64 "+1" = None /\ parse_u64 "-1" = None /\ parse_u64 " 1" = None.
Proof. split_and!; reflexivity. Qed.

Example task_args_silent : task_parse_args "task_queue" ["--producers=x"] task_defaults = ([], task_defaults, false).
Proof. reflexivity. Qed.
