(* ===== verification/Client.v ===== *)
(** * Client: programs that use a queue

    A program whose threads share memory of their own and a queue of pointers.  The
    code of the program is written for any queue ([queue_impl]): a block of it ends
    with a jump, with the end of the thread, or with a call of [enqueue] or
    [dequeue] and the place where the thread goes on with the result.  [body] puts
    the code and the accesses of the queue together, so that the accesses of all
    threads, to the queue and to the other shared variables, interleave.

    [client_reach]: an execution of the program contains an execution of the
    queue alone, in which the threads call its operations.  What is proved about
    all executions of a queue therefore holds inside the program; [contract] is the
    form in which the proofs of the programs use it, with the logic at the end of the
    file ([client_adequacy]). *)

From stdpp Require Import base list numbers option relations.
From Stdlib Require Import ZArith Lia.
From S2P Require Import Prelude Conc.

Local Open Scope Z_scope.

(** ** Lists of entries with the thread they belong to *)

Definition by_ {A} (i : nat) (l : list (nat * A)) : list A := (filter (fun x => x.1 = i) l).*2.

Lemma by_app {A} i (l1 l2 : list (nat * A)) : by_ i (l1 ++ l2) = by_ i l1 ++ by_ i l2.
Proof. unfold by_. by rewrite list.filter_app, fmap_app. Qed.

Lemma by_own {A} i (x : A) : by_ i [(i, x)] = [x].
Proof. unfold by_. by rewrite filter_cons, decide_True. Qed.

Lemma by_other {A} i j (x : A) : i <> j -> by_ i [(j, x)] = [].
Proof. intros H. unfold by_. by rewrite filter_cons, decide_False by (simpl; congruence). Qed.

Lemma by_cons {A} i j (x : A) l : by_ i ((j, x) :: l) = if decide (j = i) then x :: by_ i l else by_ i l.
Proof. unfold by_. rewrite filter_cons. simpl. by case_decide. Qed.

Lemma concat_by_cons {A} j (x : A) l s :
  NoDup s ->
  concat ((fun i => by_ i ((j, x) :: l)) <$> s) ≡ₚ
  (if decide (j ∈ s) then [x] else []) ++ concat ((fun i => by_ i l) <$> s).
Proof.
  induction 1 as [|i s Hi _ IH]; [by rewrite decide_False by apply not_elem_of_nil|].
  csimpl. rewrite IH, by_cons. destruct (decide (j = i)) as [->|Hne].
  - rewrite (decide_False (P := i ∈ s)), decide_True by (done || by left). done.
  - destruct (decide (j ∈ s)).
    + rewrite decide_True by (by right). simpl. by rewrite <- Permutation_middle.
    + rewrite decide_False by (rewrite elem_of_cons; tauto). done.
Qed.

(** The entries of the threads of [s] are all entries. *)
Lemma by_all {A} s (l : list (nat * A)) :
  NoDup s -> Forall (fun x => x.1 ∈ s) l -> l.*2 ≡ₚ concat ((fun i => by_ i l) <$> s).
Proof.
  intros Hs. induction 1 as [|[j x] l Hj _ IH]; simpl.
  - clear Hs. induction s; done.
  - rewrite (concat_by_cons j x l s Hs), decide_True by done. simpl. by constructor.
Qed.

Lemma concat_prefix_submseteq {A} (f g : nat -> list A) l :
  (forall i, i ∈ l -> prefix (f i) (g i)) -> concat (f <$> l) ⊆+ concat (g <$> l).
Proof.
  induction l as [|i l IH]; intros Hf; [done|]. csimpl. apply submseteq_app.
  - destruct (Hf i ltac:(by left)) as [l' ->]. by apply submseteq_inserts_r.
  - apply IH. intros j Hj. apply Hf. by right.
Qed.

(** ** Queues *)

(** The model of a queue of pointers: its accesses ([q_body]), how thread [t] calls
    its operations, and what their results mean: whether [enqueue] accepted the
    pointer, and the pointer that [dequeue] returned, [0] for none. *)
Record queue_impl := QueueImpl {
  QS : Type; QE : Type; QO : Type; QL : Type; QR : Type;
  q_entry : QO -> QL;
  q_body : QL -> prog QS QE (QL + QR);
  q_enqueue : nat -> Z -> QO;
  q_dequeue : nat -> QO;
  q_accepted : QR -> bool;
  q_pointer : QR -> Z
}.

(** What happens to the pointers: the queue has taken [p] in, or given it out. *)
Inductive bev : Type :=
| Put (p : Z)
| Take (p : Z).

Definition puts (vs : list bev) : list Z :=
  omap (fun v => match v with Put p => Some p | _ => None end) vs.

Definition takes (vs : list bev) : list Z :=
  omap (fun v => match v with Take p => Some p | _ => None end) vs.

(** ** Programs of the client *)

(** How a block ends. *)
Inductive next (L R : Type) : Type :=
| Jump (l : L)
| Enqueue (t : nat) (p : Z) (k : bool -> L)
| Dequeue (t : nat) (k : Z -> L)
| Done (r : R).

Arguments Jump {L R} l.
Arguments Enqueue {L R} t p k.
Arguments Dequeue {L R} t k.
Arguments Done {L R} r.

(** A client: the labels of its loops, and the block at each label. *)
Section client.
Context (Q : queue_impl) {S E O L R : Type}.
Context (c_entry : O -> L) (c_body : L -> prog S E (next L R)).

Inductive label : Type :=
| Own (l : L)
| InEnqueue (k : bool -> L) (l : QL Q)
| InDequeue (k : Z -> L) (l : QL Q).

(** The history has the events of the client, those of the queue, and the calls
    and the returns of the operations of the queue. *)
Inductive event : Type :=
| Mine (e : E)
| QCall (o : QO Q)
| QEvent (e : QE Q)
| QRet (r : QR Q).

Abbreviation state := (S * QS Q)%type.

Definition own {A} : prog S E A -> prog state event A :=
  lift fst (fun s c => (s, c.2)) Mine.

Definition queue {A} : prog (QS Q) (QE Q) A -> prog state event A :=
  lift snd (fun q c => (c.1, q)) QEvent.

(** A step that only records [e]. *)
Definition mark {A} (e : event) (p : prog state event A) : prog state event A :=
  Act unit (fun s => (s, tt)) (fun _ => [e]) (fun _ => p).

Definition after_block (n : next L R) : prog state event (label + R) :=
  match n with
  | Jump l => Ret (inl (Own l))
  | Enqueue t p k =>
      mark (QCall (q_enqueue Q t p)) (Ret (inl (InEnqueue k (q_entry Q (q_enqueue Q t p)))))
  | Dequeue t k =>
      mark (QCall (q_dequeue Q t)) (Ret (inl (InDequeue k (q_entry Q (q_dequeue Q t)))))
  | Done r => Ret (inr r)
  end.

Definition after_enqueue (k : bool -> L) (x : QL Q + QR Q) : prog state event (label + R) :=
  match x with
  | inl l => Ret (inl (InEnqueue k l))
  | inr r => mark (QRet r) (Ret (inl (Own (k (q_accepted Q r)))))
  end.

Definition after_dequeue (k : Z -> L) (x : QL Q + QR Q) : prog state event (label + R) :=
  match x with
  | inl l => Ret (inl (InDequeue k l))
  | inr r => mark (QRet r) (Ret (inl (Own (k (q_pointer Q r)))))
  end.

Definition body (l : label) : prog state event (label + R) :=
  match l with
  | Own l => bind (own (c_body l)) after_block
  | InEnqueue k l => bind (queue (q_body Q l)) (after_enqueue k)
  | InDequeue k l => bind (queue (q_body Q l)) (after_dequeue k)
  end.

Definition entry (o : O) : label := Own (c_entry o).

(** ** The execution of the queue inside *)

Abbreviation chev := (hev event O R).
Abbreviation qhev := (hev (QE Q) (QO Q) (QR Q)).

Definition proj_item (x : chev) : option qhev :=
  match x with
  | HLin i (QCall o) => Some (HCall i o)
  | HLin i (QEvent e) => Some (HLin i e)
  | HLin i (QRet r) => Some (HRet i r)
  | _ => None
  end.

Definition proj (h : list chev) : list qhev := omap proj_item h.

Lemma proj_app h1 h2 : proj (h1 ++ h2) = proj h1 ++ proj h2.
Proof. apply omap_app. Qed.

Lemma proj_mine i es : proj (HLin i <$> (Mine <$> es)) = [].
Proof. induction es as [|e es IH]; [done|]. apply IH. Qed.

Lemma proj_queue i es : proj (HLin i <$> (QEvent <$> es)) = HLin i <$> es.
Proof. induction es as [|e es IH]; [done|]. csimpl. by f_equal. Qed.

(** A thread of the program and the same thread as one of the queue. *)
Inductive sim_thread : thread (S := state) (E := event) (L := label) (R := R) ->
    thread (S := QS Q) (E := QE Q) (L := QL Q) (R := QR Q) -> Prop :=
| sim_idle : sim_thread Idle Idle
| sim_own p : sim_thread (Busy (bind (own p) after_block)) Idle
| sim_called_enq k l : sim_thread (Busy (Ret (inl (InEnqueue k l)))) (Busy (q_body Q l))
| sim_called_deq k l : sim_thread (Busy (Ret (inl (InDequeue k l)))) (Busy (q_body Q l))
| sim_enq k p : sim_thread (Busy (bind (queue p) (after_enqueue k))) (Busy p)
| sim_deq k p : sim_thread (Busy (bind (queue p) (after_dequeue k))) (Busy p).

Definition sim_pool tp qtp := Forall2 sim_thread tp qtp.

Lemma sim_insert tp qtp i t qt :
  sim_pool tp qtp -> sim_thread t qt -> sim_pool (<[i := t]> tp) (<[i := qt]> qtp).
Proof. apply Forall2_insert. Qed.

Lemma sim_insert_same tp qtp i t qt :
  sim_pool tp qtp -> qtp !! i = Some qt -> sim_thread t qt -> sim_pool (<[i := t]> tp) qtp.
Proof.
  intros Hp Hi Ht. rewrite <- (list_insert_id qtp i qt Hi). by apply sim_insert.
Qed.

Section projection.
Context (ok : state -> list chev -> Prop) (okQ : QS Q -> list qhev -> Prop).
Hypothesis ok_queue : forall s h, ok s h -> okQ s.2 (proj h).

Abbreviation qreach := (reach (q_entry Q) (q_body Q) okQ).

(** A step of the program that is none of the queue, and one that is. *)
Lemma sim_stutter s0 n i qt t (s : state) h l tp qtp :
  qreach s0 n (Config s.2 (proj h) qtp) -> sim_pool tp qtp -> qtp !! i = Some qt ->
  sim_thread t qt -> proj l = [] ->
  exists qtp', qreach s0 n (Config s.2 (proj (h ++ l)) qtp') /\ sim_pool (<[i := t]> tp) qtp'.
Proof.
  intros Hr Hp Hi Ht Hl. exists qtp. rewrite proj_app, Hl, app_nil_r. split; [done|].
  by apply (sim_insert_same _ _ _ _ qt).
Qed.

Lemma sim_step s0 n i m qt t (s s' : state) h l tp qtp :
  qreach s0 n (Config s.2 (proj h) qtp) -> sim_pool tp qtp -> sim_thread t qt ->
  sched (q_entry Q) (q_body Q) i m (Config s.2 (proj h) qtp) =
    Some (Config s'.2 (proj h ++ proj l) (<[i := qt]> qtp)) ->
  ok s' (h ++ l) ->
  exists qtp', qreach s0 n (Config s'.2 (proj (h ++ l)) qtp') /\ sim_pool (<[i := t]> tp) qtp'.
Proof.
  intros Hr Hp Ht Hs Hok. exists (<[i := qt]> qtp). rewrite proj_app. split; [|by apply sim_insert].
  apply (reach_step _ _ okQ s0 n i m (Config s.2 (proj h) qtp)); [done|done|].
  simpl. rewrite <- proj_app. by apply ok_queue.
Qed.

Lemma sched_own s0 n i b (s : state) h tp qtp p c' :
  qreach s0 n (Config s.2 (proj h) qtp) -> sim_pool tp qtp -> qtp !! i = Some Idle ->
  tp !! i = Some (Busy (bind (own p) after_block)) ->
  sched entry body i (Go b) (Config s h tp) = Some c' -> ok (shared c') (hist c') ->
  exists qtp', qreach s0 n (Config (shared c').2 (proj (hist c')) qtp') /\ sim_pool (pool c') qtp'.
Proof.
  intros Hr Hp Hq Hi Hs Hok. simpl in Hs. rewrite Hi in Hs.
  destruct p as [[l|t p k|t k|r]|X f ev c|c]; simpl in Hs.
  - injection Hs as <-. simpl. rewrite <- (app_nil_r h). eapply (sim_stutter s0 n i _ _ s); [done|done|eassumption| |done].
    apply (sim_own (c_body l)).
  - injection Hs as <-. eapply (sim_step s0 n i (Call (q_enqueue Q t p)) _ _ s); [done|done|..|exact Hok].
    + apply sim_called_enq.
    + simpl. by rewrite Hq.
  - injection Hs as <-. eapply (sim_step s0 n i (Call (q_dequeue Q t)) _ _ s); [done|done|..|exact Hok].
    + apply sim_called_deq.
    + simpl. by rewrite Hq.
  - injection Hs as <-. eapply (sim_stutter s0 n i _ _ s); [done|done|exact Hq|constructor|done].
  - destruct (f s.1) as [s1 x]. injection Hs as <-. simpl.
    eapply (sim_stutter s0 n i Idle _ s); [done|done|done|apply (sim_own (c x))|apply proj_mine].
  - injection Hs as <-. simpl. rewrite <- (app_nil_r h). eapply (sim_stutter s0 n i _ _ s); [done|done|eassumption| |done].
    apply (sim_own (c b)).
Qed.

(** A step inside an operation; [w] says which one, [after] what follows it. *)
Lemma sched_in_queue s0 n i b (s : state) h tp qtp (p : prog (QS Q) (QE Q) (QL Q + QR Q)) c'
    (after : QL Q + QR Q -> prog state event (label + R)) (w : QL Q -> label) (z : QR Q -> L) :
  (forall p, sim_thread (Busy (bind (queue p) after)) (Busy p)) ->
  (forall l, after (inl l) = Ret (inl (w l))) -> (forall l, body (w l) = bind (queue (q_body Q l)) after) ->
  (forall r, after (inr r) = mark (QRet r) (Ret (inl (Own (z r))))) ->
  qreach s0 n (Config s.2 (proj h) qtp) -> sim_pool tp qtp -> qtp !! i = Some (Busy p) ->
  tp !! i = Some (Busy (bind (queue p) after)) ->
  sched entry body i (Go b) (Config s h tp) = Some c' -> ok (shared c') (hist c') ->
  exists qtp', qreach s0 n (Config (shared c').2 (proj (hist c')) qtp') /\ sim_pool (pool c') qtp'.
Proof.
  intros Hsim Hl Hw Hret Hr Hp Hq Hi Hs Hok. simpl in Hs. rewrite Hi in Hs.
  destruct p as [[l|r]|X f ev c|c]; simpl in Hs.
  - rewrite Hl in Hs. injection Hs as <-. simpl in *. rewrite <- (app_nil_r h) in Hok. rewrite <- (app_nil_r h).
    eapply (sim_step s0 n i (Go b) (Busy (q_body Q l)) _ s); [done|done|rewrite Hw; apply Hsim| |done].
    simpl. by rewrite Hq, app_nil_r.
  - rewrite Hret in Hs. injection Hs as <-. simpl in *.
    eapply (sim_step s0 n i (Go b) Idle _ s); [done|done|apply (sim_own (Ret (Jump (z r))))| |done].
    simpl. by rewrite Hq.
  - destruct (f s.2) as [q1 x] eqn:Ef. injection Hs as <-. simpl in *.
    eapply (sim_step s0 n i (Go b) (Busy (c x)) _ s (s.1, q1)); [done|done|apply Hsim| |done].
    simpl. by rewrite Hq, Ef, proj_queue.
  - injection Hs as <-. simpl in *. rewrite <- (app_nil_r h) in Hok. rewrite <- (app_nil_r h).
    eapply (sim_step s0 n i (Go b) (Busy (c b)) _ s); [done|done|apply Hsim| |done].
    simpl. by rewrite Hq, app_nil_r.
Qed.

(** The step of the queue for a step of the program: one step, or none. *)
Lemma sched_sim s0 n i m (s : state) h tp qtp c' :
  qreach s0 n (Config s.2 (proj h) qtp) -> sim_pool tp qtp ->
  sched entry body i m (Config s h tp) = Some c' -> ok (shared c') (hist c') ->
  exists qtp', qreach s0 n (Config (shared c').2 (proj (hist c')) qtp') /\ sim_pool (pool c') qtp'.
Proof.
  intros Hr Hp Hs Hok. destruct (tp !! i) as [t|] eqn:Ei; [|simpl in Hs; by rewrite Ei in Hs].
  destruct (Forall2_lookup_l _ _ _ _ _ Hp Ei) as (qt & Eqi & Ht).
  destruct m as [o|b].
  { simpl in Hs. rewrite Ei in Hs. destruct t as [|p]; [|by destruct p as [[]| |]].
    inversion Ht; subst. injection Hs as <-.
    eapply (sim_stutter s0 n i _ _ s); [done|done|eassumption| |done]. apply (sim_own (c_body (c_entry o))). }
  destruct Ht as [|p|k l|k l|k p|k p].
  - simpl in Hs. by rewrite Ei in Hs.
  - by apply (sched_own s0 n i b s h tp qtp p).
  - simpl in Hs. rewrite Ei in Hs. injection Hs as <-. simpl. rewrite <- (app_nil_r h).
    eapply (sim_stutter s0 n i _ _ s); [done|done|eassumption| |done]. apply sim_enq.
  - simpl in Hs. rewrite Ei in Hs. injection Hs as <-. simpl. rewrite <- (app_nil_r h).
    eapply (sim_stutter s0 n i _ _ s); [done|done|eassumption| |done]. apply sim_deq.
  - by apply (sched_in_queue s0 n i b s h tp qtp p c' (after_enqueue k) (InEnqueue k) (fun r => k (q_accepted Q r)));
      [constructor|..].
  - by apply (sched_in_queue s0 n i b s h tp qtp p c' (after_dequeue k) (InDequeue k) (fun r => k (q_pointer Q r)));
      [constructor|..].
Qed.

(** An execution of the program is, seen from the queue, one of the queue. *)
Lemma client_reach s n c :
  reach entry body ok s n c ->
  exists qtp, qreach s.2 n (Config (shared c).2 (proj (hist c)) qtp) /\ sim_pool (pool c) qtp.
Proof.
  induction 1 as [|i m c c' _ (qtp & Hr & Hp) Hs Hok].
  - exists (replicate n Idle). split; [constructor|]. apply Forall2_replicate. constructor.
  - destruct c as [s1 h tp]. by apply (sched_sim s.2 n i m s1 h tp qtp).
Qed.

End projection.

(** ** What a program may assume of its queue

    [q_view] finds the two events above among those of the queue. *)
Context (q_view : QE Q -> option bev).

(** [order] relates what was given out to what was taken in, each in the order in
    which it happened.  An [enqueue] takes its pointer in exactly when it returns
    [true], a [dequeue] gives out exactly the pointer it returns, and while it is
    running an operation has had no other effect. *)
Definition contract (order : list Z -> list Z -> Prop) (h : list qhev) : Prop :=
  order (takes (omap q_view (events h))) (puts (omap q_view (events h))) /\
  (forall i t p es, opview i h = Some (q_enqueue Q t p, es) ->
     omap q_view es = [] \/ omap q_view es = [Put p]) /\
  (forall i t es, opview i h = Some (q_dequeue Q t, es) ->
     omap q_view es = [] \/ exists p, omap q_view es = [Take p]) /\
  (forall t p es r, (q_enqueue Q t p, es, r) ∈ completed h ->
     omap q_view es = if q_accepted Q r then [Put p] else []) /\
  (forall t es r, (q_dequeue Q t, es, r) ∈ completed h ->
     (omap q_view es = [] /\ q_pointer Q r = 0) \/ omap q_view es = [Take (q_pointer Q r)]).

(** The history as the client sees it: its own events, and what the queue took in
    and gave out. *)
Definition gev : Type := E + bev.

Abbreviation ghev := (hev gev O R).

Definition ghost1 (x : chev) : option ghev :=
  match x with
  | HCall i o => Some (HCall i o)
  | HRet i r => Some (HRet i r)
  | HLin i (Mine e) => Some (HLin i (inl e))
  | HLin i (QEvent e) => match q_view e with Some v => Some (HLin i (inr v)) | None => None end
  | HLin _ _ => None
  end.

Definition ghost (h : list chev) : list ghev := omap ghost1 h.

Lemma ghost_app h1 h2 : ghost (h1 ++ h2) = ghost h1 ++ ghost h2.
Proof. apply omap_app. Qed.

Lemma ghost_mine i es : ghost (HLin i <$> (Mine <$> es)) = HLin i <$> (inl <$> es).
Proof. induction es as [|e es IH]; [done|]. csimpl. unfold ghost in *. csimpl. by rewrite IH. Qed.

Lemma ghost_queue i es : ghost (HLin i <$> (QEvent <$> es)) = HLin i <$> (inr <$> omap q_view es).
Proof.
  induction es as [|e es IH]; [done|]. unfold ghost in *. csimpl. destruct (q_view e); csimpl; by rewrite IH.
Qed.

(** The pointers that went in and out, in the history of the client. *)
Definition g_views (g : list ghev) : list bev :=
  omap (fun e => match e with inr v => Some v | inl _ => None end) (events g).

Lemma g_views_app g1 g2 : g_views (g1 ++ g2) = g_views g1 ++ g_views g2.
Proof. unfold g_views. by rewrite events_app, omap_app. Qed.

Lemma g_views_ghost h : g_views (ghost h) = omap q_view (events (proj h)).
Proof.
  induction h as [|x h IH]; [done|]. unfold g_views, ghost, proj in *. csimpl.
  destruct x as [i o|i [e|o|e|r]|i r]; csimpl; try done. destruct (q_view e); csimpl; by rewrite IH.
Qed.

(** ** A logic for clients

    The rules of [Conc] for the code of the client, with the history of the client;
    the steps inside the queue only appear as [Put] and [Take].  [LI i l] holds when
    thread [i] is at [l]; [Enq i p k b] while it is inside [enqueue(p)] and [b] tells
    whether the pointer is in; [Deq i k v] while it is inside [dequeue] and [v] is
    what it has got. *)
Section logic.
Context (Inv : S -> list ghev -> Prop) (G : nat -> S * list ghev -> S * list ghev -> Prop).
Context (gok : S -> list ghev -> Prop) (order : list Z -> list Z -> Prop).
Context (LI : nat -> L -> S -> list ghev -> Prop).
Context (Enq : nat -> Z -> (bool -> L) -> bool -> S -> list ghev -> Prop).
Context (Deq : nat -> (Z -> L) -> option Z -> S -> list ghev -> Prop).
Context (Good : O -> list gev -> R -> Prop).

(** The assumption on the environment, with the order that the queue keeps. *)
Definition lok (s : S) (g : list ghev) : Prop :=
  gok s g /\ order (takes (g_views g)) (puts (g_views g)).

Definition code {A} : prog S E A -> prog S gev A := lift id (fun s _ => s) inl.

Definition Qnext (i : nat) (n : next L R) : S -> list ghev -> Prop :=
  match n with
  | Jump l => LI i l
  | Enqueue _ p k => Enq i p k false
  | Dequeue _ k => Deq i k None
  | Done r => Post Good i r
  end.

Record client_outline : Prop := {
  co_stable_enq i p k b : stable Inv G i (Enq i p k b);
  co_stable_deq i k v : stable Inv G i (Deq i k v);
  co_refl i c : G i c c;
  co_call i o s g :
    Inv s g -> opview i g = None -> lok s (g ++ [HCall i o]) ->
    G i (s, g) (s, g ++ [HCall i o]) /\ Inv s (g ++ [HCall i o]) /\ LI i (c_entry o) s (g ++ [HCall i o]);
  co_ret i r s g :
    Inv s g -> Post Good i r s g ->
    G i (s, g) (s, g ++ [HRet i r]) /\ Inv s (g ++ [HRet i r]);
  co_code i l s g : LI i l s g -> Inv s g -> wp Inv G lok i (code (c_body l)) (Qnext i) (s, g);
  co_put i p k s g :
    let g' := g ++ [HLin i (inr (Put p))] in
    Enq i p k false s g -> Inv s g -> lok s g' -> G i (s, g) (s, g') /\ Inv s g' /\ Enq i p k true s g';
  co_take i p k s g :
    let g' := g ++ [HLin i (inr (Take p))] in
    Deq i k None s g -> Inv s g -> lok s g' ->
    G i (s, g) (s, g') /\ Inv s g' /\ Deq i k (Some p) s g';
  co_enqueued i p k b s g : Enq i p k b s g -> Inv s g -> LI i (k b) s g;
  co_dequeued i k v s g : Deq i k v s g -> Inv s g -> LI i (k (default 0 v)) s g
}.

(** *** The same in the logic of the whole program *)

Definition cInv (s : state) (h : list chev) : Prop := Inv s.1 (ghost h).

Definition cG (i : nat) (c c' : state * list chev) : Prop :=
  G i (c.1.1, ghost c.2) (c'.1.1, ghost c'.2).

Definition cok (s : state) (h : list chev) : Prop := lok s.1 (ghost h) /\ contract order (proj h).

(** What thread [i] knows inside an operation of the queue, from what the operation
    has done so far. *)
Definition enq_view (i : nat) (p : Z) (k : bool -> L) (vs : list bev) : S -> list ghev -> Prop :=
  match vs with
  | [] => Enq i p k false
  | [Put _] => Enq i p k true
  | _ => fun _ _ => False
  end.

Definition deq_view (i : nat) (k : Z -> L) (vs : list bev) : S -> list ghev -> Prop :=
  match vs with
  | [] => Deq i k None
  | [Take p] => Deq i k (Some p)
  | _ => fun _ _ => False
  end.

Definition in_op (i : nat) (o : QO Q) (P : list bev -> S -> list ghev -> Prop) (s : state) (h : list chev) : Prop :=
  exists es, opview i (proj h) = Some (o, es) /\ P (omap q_view es) s.1 (ghost h).

Definition in_enqueue (i : nat) (k : bool -> L) (s : state) (h : list chev) : Prop :=
  exists t p, in_op i (q_enqueue Q t p) (enq_view i p k) s h.

Definition in_dequeue (i : nat) (k : Z -> L) (s : state) (h : list chev) : Prop :=
  exists t, in_op i (q_dequeue Q t) (deq_view i k) s h.

Definition cLI (i : nat) (l : label) (s : state) (h : list chev) : Prop :=
  match l with
  | Own l => LI i l s.1 (ghost h)
  | InEnqueue k _ => in_enqueue i k s h
  | InDequeue k _ => in_dequeue i k s h
  end.

Definition cview (e : event) : option gev :=
  match e with
  | Mine e => Some (inl e)
  | QEvent e => match q_view e with Some v => Some (inr v) | None => None end
  | _ => None
  end.

Definition cGood (o : O) (es : list event) (r : R) : Prop := Good o (omap cview es) r.

Lemma opview_ghost i h :
  opview i (ghost h) = match opview i h with Some (o, es) => Some (o, omap cview es) | None => None end.
Proof.
  induction h as [|x h IH] using rev_ind; [done|]. rewrite ghost_app. destruct x as [j o|j e|j r].
  - unfold ghost at 2. csimpl. rewrite !opview_call. by case_decide.
  - rewrite opview_snoc. assert (ghost [HLin j e] = HLin j <$> omap cview [e]) as ->.
    { unfold ghost. csimpl. destruct e as [e| |e|]; csimpl; try done. by destruct (q_view e). }
    rewrite opview_lin. case_decide as Hj; [subst|done]. rewrite IH.
    destruct (opview j h) as [[o es]|]; [|done]. by rewrite omap_app.
  - unfold ghost at 2. csimpl. rewrite !opview_ret. by case_decide.
Qed.

Lemma hist_step_ghost i h h' : hist_step i h h' -> hist_step i (ghost h) (ghost h').
Proof.
  intros (l & -> & Hl). exists (ghost l). split; [apply ghost_app|].
  induction Hl as [|x l Hx _ IH]; [constructor|]. unfold ghost in *. csimpl.
  destruct x as [j o|j [e|o|e|r]|j r]; csimpl; try (by constructor); try done.
  destruct (q_view e); [by constructor|done].
Qed.

Lemma hist_step_proj i h h' : hist_step i h h' -> hist_step i (proj h) (proj h').
Proof.
  intros (l & -> & Hl). exists (proj l). split; [apply proj_app|].
  induction Hl as [|x l Hx _ IH]; [constructor|]. unfold proj in *. csimpl.
  destruct x as [j o|j [e|o|e|r]|j r]; csimpl; try (by constructor); done.
Qed.

Lemma rely_ghost i (c c' : state * list chev) :
  rely cInv cG i c c' -> rely Inv G i (c.1.1, ghost c.2) (c'.1.1, ghost c'.2).
Proof. intros (j & Hj & Hh & HG & HI & HI'). exists j. split_and!; try done. by apply hist_step_ghost. Qed.

Lemma rtc_rely_ghost i (c c' : state * list chev) :
  rtc (rely cInv cG i) c c' -> rtc (rely Inv G i) (c.1.1, ghost c.2) (c'.1.1, ghost c'.2).
Proof.
  induction 1 as [|c1 c2 c3 H12 _ IH]; [done|]. eapply rtc_l; [by apply rely_ghost|done].
Qed.

Lemma stable_ghost i P : stable Inv G i P -> stable cInv cG i (fun s h => P s.1 (ghost h)).
Proof. intros Hst c c' Hr. by apply (Hst _ _ (rely_ghost i c c' Hr)). Qed.

Lemma stable_proj i (P : option (QO Q * list (QE Q)) -> Prop) :
  stable cInv cG i (fun _ h => P (opview i (proj h))).
Proof.
  intros c c' (j & Hj & Hh & _) H. simpl in *. by rewrite (hist_step_view j i _ _ (hist_step_proj _ _ _ Hh)).
Qed.

Context (Hco : client_outline).

Abbreviation cwp := (wp cInv cG cok).

Lemma stable_in_op i o P : (forall vs, stable Inv G i (P vs)) -> stable cInv cG i (in_op i o P).
Proof.
  intros HP c c' Hr (es & Hv & HPe). exists es. split.
  - by apply (stable_proj i (fun v => v = Some (o, es)) c).
  - by apply (stable_ghost i _ (HP (omap q_view es)) c).
Qed.

Lemma stable_enq_view i p k vs : stable Inv G i (enq_view i p k vs).
Proof. destruct vs as [|[] []]; try apply (stable_pure _ _ i False); apply (co_stable_enq Hco). Qed.

Lemma stable_deq_view i k vs : stable Inv G i (deq_view i k vs).
Proof. destruct vs as [|[] []]; try apply (stable_pure _ _ i False); apply (co_stable_deq Hco). Qed.

(** The code of the client, with what follows it. *)
Lemma wp_own_code {A} i (p : prog S E A) (Qg : A -> S -> list ghev -> Prop) (q : A -> prog state event (label + R)) Qc s h :
  wp Inv G lok i (code p) Qg (s.1, ghost h) ->
  (forall x c, (forall c', rtc (rely cInv cG i) c c' -> cInv c'.1 c'.2 -> Qg x c'.1.1 (ghost c'.2)) ->
     cInv c.1 c.2 -> cwp i (q x) Qc c) ->
  cInv s h -> cwp i (bind (own p) q) Qc (s, h).
Proof.
  intros Hw Hq. revert s h Hw. induction p as [r|X f ev k IH|k IH]; intros s h Hw HI.
  - apply (Hq r (s, h)); [|done]. intros c' Hr HI'. exact (Hw _ (rtc_rely_ghost i _ _ Hr) HI').
  - intros [s1 h1] Hr HI1. simpl. specialize (Hw (s1.1, ghost h1) (rtc_rely_ghost i _ _ Hr) HI1). simpl in Hw.
    unfold id in Hw. destruct (f s1.1) as [s2 x] eqn:Ef. intros [Hok Hc]. simpl in Hok.
    rewrite ghost_app, ghost_mine in Hok. destruct (Hw Hok) as (HG & HI2 & Hk).
    unfold cG, cInv. simpl. rewrite ghost_app, ghost_mine. split_and!; [done|done|].
    apply IH; [|unfold cInv; simpl; by rewrite ghost_app, ghost_mine].
    simpl. by rewrite ghost_app, ghost_mine.
  - intros b. apply IH; [apply Hw|done].
Qed.

(** A step that only records the call or the return of an operation. *)
Lemma ghost_mark i e h : (forall e', e <> Mine e') -> (forall e', e <> QEvent e') -> ghost (h ++ [HLin i e]) = ghost h.
Proof.
  intros H1 H2. rewrite ghost_app. unfold ghost at 2. csimpl.
  destruct e; [by destruct (H1 e)|apply app_nil_r|by destruct (H2 e)|apply app_nil_r].
Qed.

Lemma proj_ret i r h : proj (h ++ [HLin i (QRet r)]) = proj h ++ [HRet i r].
Proof. by rewrite proj_app. Qed.

Lemma proj_call i o h : proj (h ++ [HLin i (QCall o)]) = proj h ++ [HCall i o].
Proof. by rewrite proj_app. Qed.

Lemma cwp_mark {A} i (P : state -> list chev -> Prop) e (p : prog state event A) Qc s h :
  (forall e', e <> Mine e') -> (forall e', e <> QEvent e') -> stable cInv cG i P -> P s h ->
  (forall s1 h1, P s1 h1 -> cInv s1 h1 -> cok s1 (h1 ++ [HLin i e]) -> cwp i p Qc (s1, h1 ++ [HLin i e])) ->
  cwp i (mark e p) Qc (s, h).
Proof.
  intros H1 H2 Hst HP Hk. apply (wp_act _ _ _ _ P); [done|done|].
  intros s1 h1 s2 [] HP1 HI [= <-] Hok. simpl in Hok. unfold cG, cInv. simpl. rewrite ghost_mark by done.
  split_and!; [apply (co_refl Hco)|done|]. by apply Hk.
Qed.

(** The accesses of an operation [o] up to its return: [after] is what follows,
    [w] the label of the loop and [z] the label where the client goes on. *)
Lemma wp_in_op i o P (after : QL Q + QR Q -> prog state event (label + R)) (w : QL Q -> label) (z : QR Q -> L) p s h :
  (forall vs, stable Inv G i (P vs)) ->
  (forall l, after (inl l) = Ret (inl (w l))) ->
  (forall r, after (inr r) = mark (QRet r) (Ret (inl (Own (z r))))) ->
  (forall l s h, in_op i o P s h -> cLI i (w l) s h) ->
  (forall es es' s g (hq : list qhev), opview i hq = Some (o, es ++ es') -> contract order hq ->
     P (omap q_view es) s g -> Inv s g ->
     let g' := g ++ (HLin i <$> (inr <$> omap q_view es')) in
     lok s g' -> G i (s, g) (s, g') /\ Inv s g' /\ P (omap q_view es ++ omap q_view es') s g') ->
  (forall es r s g (hq : list qhev), (o, es, r) ∈ completed hq -> contract order hq ->
     P (omap q_view es) s g -> Inv s g -> LI i (z r) s g) ->
  in_op i o P s h -> cInv s h -> cwp i (bind (queue p) after) (Qloop cLI cGood i) (s, h).
Proof.
  intros HP Hl Hr HLI Hstep Hret. pose proof (stable_in_op i o P HP) as Hst.
  revert s h. induction p as [[l|r]|X f ev c IH|c IH]; intros s h HE HI; simpl.
  - rewrite Hl. intros c' Hc HI'. apply HLI. by apply (stable_rtc _ _ i _ _ _ Hst Hc).
  - rewrite Hr. apply (cwp_mark i (in_op i o P)); [done|done|done|done|]. clear s h HE HI.
    intros s h (es & Hv & HPe) HI [_ Hc]. intros c' Hrc HI'. simpl.
    eapply (Hret es r); [|exact Hc| |exact HI'].
    + rewrite proj_ret, completed_ret, Hv. apply elem_of_app. right. by left.
    + apply (stable_rtc _ _ i _ _ _ (stable_ghost i _ (HP _)) Hrc). simpl. by rewrite ghost_mark.
  - apply (wp_act _ _ _ _ (in_op i o P)); [done|done|]. clear s h HE HI.
    intros s h s2 x (es & Hv & HPe) HI Hf [Hok Hc].
    destruct (f s.2) as [q1 y]. injection Hf as <- <-. simpl in Hok.
    rewrite ghost_app, ghost_queue in Hok.
    assert (opview i (proj (h ++ (HLin i <$> (QEvent <$> ev y)))) = Some (o, es ++ ev y)) as Hv'.
    { by rewrite proj_app, proj_queue, opview_lin, decide_True, Hv. }
    destruct (Hstep es (ev y) _ _ _ Hv' Hc HPe HI Hok) as (HG & HI2 & HP2).
    unfold cG, cInv. simpl. rewrite ghost_app, ghost_queue. split_and!; [done|done|].
    apply IH; [|unfold cInv; simpl; by rewrite ghost_app, ghost_queue].
    exists (es ++ ev y). split; [done|]. simpl. by rewrite omap_app, ghost_app, ghost_queue.
  - intros b. by apply IH.
Qed.

Lemma step_nil i (s : S) (g : list ghev) :
  Inv s g -> G i (s, g) (s, g ++ []) /\ Inv s (g ++ []).
Proof. rewrite app_nil_r. intros H. split; [apply (co_refl Hco)|done]. Qed.

Lemma wp_in_enqueue i k p s h :
  in_enqueue i k s h -> cInv s h -> cwp i (bind (queue p) (after_enqueue k)) (Qloop cLI cGood i) (s, h).
Proof.
  intros (t & v & HE). eapply (wp_in_op i (q_enqueue Q t v) (enq_view i v k) _ (InEnqueue k)
    (fun r => k (q_accepted Q r))); [apply stable_enq_view|done|done|by exists t, v| | |done].
  - intros es es' s1 g hq Hv (_ & Hpend & _) HP HI g'. unfold g'. specialize (Hpend i t v _ Hv).
    rewrite omap_app in Hpend. destruct (omap q_view es) as [|v0 vs]; simpl in Hpend.
    + destruct Hpend as [-> | ->]; csimpl; intros Hok.
      * destruct (step_nil i s1 g HI). split_and!; [done|done|]. by rewrite app_nil_r.
      * by apply (co_put Hco i v k).
    + assert (omap q_view es' = []) as ->. { destruct Hpend as [H|H]; [done|]. injection H as _ H. by apply app_nil in H as [_ ?]. }
      intros _. destruct (step_nil i s1 g HI). split_and!; [done|done|]. simpl. by rewrite !app_nil_r.
  - intros es r s1 g hq Hin (_ & _ & _ & Hdone & _) HP HI. specialize (Hdone t v es r Hin). rewrite Hdone in HP.
    apply (co_enqueued Hco i v k); [|done]. by destruct (q_accepted Q r).
Qed.

Lemma wp_in_dequeue i k p s h :
  in_dequeue i k s h -> cInv s h -> cwp i (bind (queue p) (after_dequeue k)) (Qloop cLI cGood i) (s, h).
Proof.
  intros (t & HD). eapply (wp_in_op i (q_dequeue Q t) (deq_view i k) _ (InDequeue k)
    (fun r => k (q_pointer Q r))); [apply stable_deq_view|done|done|by exists t| | |done].
  - intros es es' s1 g hq Hv (_ & _ & Hpend & _) HP HI g'. unfold g'. specialize (Hpend i t _ Hv).
    rewrite omap_app in Hpend. destruct (omap q_view es) as [|v0 vs]; simpl in Hpend.
    + destruct Hpend as [-> | (v & ->)]; csimpl; intros Hok.
      * destruct (step_nil i s1 g HI). split_and!; [done|done|]. by rewrite app_nil_r.
      * by apply (co_take Hco i v k).
    + assert (omap q_view es' = []) as ->.
      { destruct Hpend as [H|(v & H)]; [done|]. injection H as _ H. by apply app_nil in H as [_ ?]. }
      intros _. destruct (step_nil i s1 g HI). split_and!; [done|done|]. simpl. by rewrite !app_nil_r.
  - intros es r s1 g hq Hin (_ & _ & _ & _ & Hdone) HP HI. specialize (Hdone t es r Hin).
    destruct Hdone as [[Hes ->]|Hes]; rewrite Hes in HP.
    + by apply (co_dequeued Hco i k None).
    + by apply (co_dequeued Hco i k (Some (q_pointer Q r))).
Qed.

(** *** Adequacy *)

Lemma ghost_call i o h : ghost (h ++ [HCall i o]) = ghost h ++ [HCall i o].
Proof. by rewrite ghost_app. Qed.

Lemma ghost_ret i r h : ghost (h ++ [HRet i r]) = ghost h ++ [HRet i r].
Proof. by rewrite ghost_app. Qed.

(** The call of an operation of the queue. *)
Lemma wp_queue_call i o P (x : label) s h :
  (forall vs, stable Inv G i (P vs)) -> (forall s h, in_op i o P s h -> cLI i x s h) ->
  P [] s.1 (ghost h) -> cwp i (mark (QCall o) (Ret (inl x))) (Qloop cLI cGood i) (s, h).
Proof.
  intros HP Hx H0. apply (cwp_mark i (fun s h => P [] s.1 (ghost h))); [done|done|by apply stable_ghost|done|].
  clear s h H0. intros s h H0 HI _ c' Hr HI'. apply Hx.
  apply (stable_rtc _ _ i _ _ _ (stable_in_op i o P HP) Hr).
  exists []. simpl. rewrite proj_call, opview_call, decide_True, ghost_mark by done. done.
Qed.

Lemma client_proof_outline : proof_outline entry body cInv cG cok cLI cGood.
Proof.
  split.
  - intros i o s h HI Hv [Hok _]. unfold cG, cInv in *. simpl. rewrite ghost_call in *.
    apply (co_call Hco); [done| |done]. by rewrite opview_ghost, Hv.
  - intros i r s h HI (o & es & Hv & Hg). unfold cG, cInv in *. simpl. rewrite ghost_ret.
    apply (co_ret Hco); [done|]. exists o, (omap cview es). by rewrite opview_ghost, Hv.
  - intros i [l|k l|k l] s h HL HI; [|by apply wp_in_enqueue|by apply wp_in_dequeue].
    apply (wp_own_code i (c_body l) (Qnext i)); [by apply (co_code Hco)| |done].
    clear s h HL HI. intros [l'|t p k|t k|r] [s h] HQ HI.
    + intros c' Hr HI'. by apply HQ.
    + apply (wp_queue_call i _ (enq_view i p k)); [apply stable_enq_view|by exists t, p|].
      exact (HQ (s, h) (rtc_refl _ _) HI).
    + apply (wp_queue_call i _ (deq_view i k)); [apply stable_deq_view|by exists t|].
      exact (HQ (s, h) (rtc_refl _ _) HI).
    + intros c' Hr HI'. destruct (HQ c' Hr HI') as (o & es & Hv & Hg). rewrite opview_ghost in Hv.
      destruct (opview i c'.2) as [[o' es']|] eqn:Ev; [|done]. injection Hv as -> <-. by exists o, es'.
Qed.

(** Every reachable configuration of the program satisfies the invariant, when the
    executions of the queue satisfy the contract. *)
Theorem client_adequacy okQ s0 n c :
  Inv s0.1 [] -> (forall n q, reach (q_entry Q) (q_body Q) okQ s0.2 n q -> contract order (hist q)) ->
  reach entry body (fun s h => gok s.1 (ghost h) /\ okQ s.2 (proj h)) s0 n c ->
  Inv (shared c).1 (ghost (hist c)) /\
  Forall (fun '(o, es, r) => Good o (omap cview es) r) (completed (hist c)).
Proof.
  intros HI0 Hq Hreach.
  assert (reach entry body cok s0 n c) as Hr.
  { induction Hreach as [|i m c c' Hrc IH Hs Hok]; [constructor|].
    apply (reach_step _ _ cok s0 n i m c); [done|done|].
    destruct (client_reach (fun s h => gok s.1 (ghost h) /\ okQ s.2 (proj h)) okQ (fun s h H => proj2 H) s0 n c')
      as (qtp & Hqr & _); [by apply (reach_step _ _ _ s0 n i m c)|]. pose proof (Hq _ _ Hqr) as Hc. split; [|done].
    split; [apply Hok|]. rewrite g_views_ghost. apply Hc. }
  destruct (rg_adequacy _ _ _ _ _ _ _ client_proof_outline s0 n c (fun i c => co_refl Hco i _) HI0 Hr) as (HI & _ & Hg).
  done.
Qed.

End logic.
End client.

Arguments gev E : clear implicits.

(** ** Threads

    A program that starts each thread once, in its role. *)
Section started.
Context {E O R : Type} `{EqDecision O} (role : nat -> option O).

Definition started (h : list (hev E O R)) : Prop :=
  forall h1 h2 i o, h = h1 ++ HCall i o :: h2 -> role i = Some o /\ Forall (fun x => tid_of x <> i) h1.

(** The same as a test. *)
Fixpoint startedb (seen : list nat) (h : list (hev E O R)) : bool :=
  match h with
  | [] => true
  | HCall i o :: h => bool_decide (role i = Some o) && negb (bool_decide (i ∈ seen)) && startedb (i :: seen) h
  | x :: h => startedb (tid_of x :: seen) h
  end.

Lemma startedb_seen seen h h1 h2 i o :
  startedb seen h = true -> h = h1 ++ HCall i o :: h2 ->
  role i = Some o /\ (i ∉ seen) /\ Forall (fun x => tid_of x <> i) h1.
Proof.
  revert seen h. induction h1 as [|x h1 IH]; intros seen h Hb ->.
  - simpl in Hb. apply andb_prop in Hb as [[H1 H2]%andb_prop _]. apply bool_decide_eq_true in H1.
    apply negb_true_iff, bool_decide_eq_false in H2. done.
  - assert (startedb (tid_of x :: seen) (h1 ++ HCall i o :: h2) = true) as Hb'.
    { destruct x; [|exact Hb|exact Hb]. simpl in Hb. by apply andb_prop in Hb as [_ Hb]. }
    destruct (IH _ _ Hb' eq_refl) as (Hr & Hs & Hf). apply not_elem_of_cons in Hs as [Hx Hs].
    split_and!; [done|done|]. constructor; [congruence|done].
Qed.

Lemma startedb_started h : startedb [] h = true -> started h.
Proof. intros Hb h1 h2 i o Hh. by destruct (startedb_seen _ _ _ _ _ _ Hb Hh) as (? & _ & ?). Qed.

Lemma started_nil : started [].
Proof. intros h1 h2 i o Hh. by destruct h1. Qed.

End started.

(** A thread that has returned ran in its role, and its events are in the history. *)
Lemma started_completed (Q : queue_impl) {E O R : Type} (q_view : QE Q -> option bev) (role : nat -> option O)
    (h : list (hev (event Q (E := E)) O R)) o es r :
  started role (ghost Q q_view h) -> (o, es, r) ∈ completed h ->
  exists i, role i = Some o /\ forall e, e ∈ omap (cview Q q_view) es -> HLin i e ∈ ghost Q q_view h.
Proof.
  intros Hst Hin. destruct (completed_items _ _ _ _ Hin) as (i & Hc & Hes). exists i. split.
  - assert (HCall i o ∈ ghost Q q_view h) as (h1 & h2 & Hh)%list_elem_of_split by (apply list_elem_of_omap; by eexists).
    by destruct (Hst _ _ _ _ Hh).
  - intros g (e & He & Hv)%list_elem_of_omap. apply list_elem_of_omap. exists (HLin i e). split; [by apply Hes|].
    destruct e as [e| |e|]; simpl in *; [by injection Hv as <-|done| |done].
    destruct (q_view e) as [v|]; [by injection Hv as <-|done].
Qed.

(** The results of the operations that have returned. *)
Definition results {O E R : Type} (l : list (O * list E * R)) : list (O * R) := (fun '(o, _, r) => (o, r)) <$> l.

Lemma results_lookup {O E R : Type} (l : list (O * list E * R)) i o r :
  results l !! i = Some (o, r) -> exists es, (o, es, r) ∈ l.
Proof.
  intros H%list_elem_of_lookup_2. apply list_elem_of_fmap in H as ([[o' es] r'] & [= -> ->] & Hin). by exists es.
Qed.

(** What a queue promises to a program: in every execution from [q0] that satisfies
    [okQ] it keeps the contract, with [order]. *)
Class Serves (Q : queue_impl) (q_view : QE Q -> option bev)
    (okQ : QS Q -> list (hev (QE Q) (QO Q) (QR Q)) -> Prop) (q0 : QS Q)
    (order : list Z -> list Z -> Prop) : Prop :=
  serves n q : reach (q_entry Q) (q_body Q) okQ q0 n q -> contract Q q_view order (hist q).
