(* ===== verification/ClientQueues.v ===== *)
(** * ClientQueues: the contracts of the queues

    The queues of the library as queues of a program ([queue_impl] of [Client]), and
    the contracts that their theorems give: [MutexQueue] and [MSQueue] give out the
    pointers in the order in which they took them in ([prefix_of]); [SCQP] gives out
    each pointer at most as often as it took it in ([submseteq]).  [LSCQ] has neither
    contract ([LscqConcProofs.lscq_double_dequeue]). *)

From stdpp Require Import base list numbers option.
From Stdlib Require Import ZArith Lia.
From S2P Require Import Prelude Conc Fifo Cas2 Ring TicketRing ScqSeq Scqp ScqpSeq ScqpConc MsQueue MsLin BoundedQueue Pool Lscq LscqConc Client.

Local Open Scope Z_scope.

(** Walk through the text of a program and split on its tests. *)
Ltac walk :=
  simpl; repeat match goal with
  | |- forall _, _ => intro
  | |- _ /\ _ => split
  | |- emits (if ?b then _ else _) _ _ _ => destruct b; simpl
  | |- emits (bind (if ?b then _ else _) _) _ _ _ => destruct b; simpl
  | |- context [omap _ (_ ++ (if ?b then _ else _))] => is_var b; destruct b; simpl
  end.

(** ** [MutexQueue] *)

Definition mutex_impl : queue_impl := {|
  QS := list Z; QE := qev Z; QO := qop Z; QL := mutex_label; QR := mres;
  q_entry := mutex_entry; q_body := mutex_body;
  q_enqueue _ p := OpEnq p; q_dequeue _ := OpDeq;
  q_accepted r := match r with MTrue => true | MDeq _ => false end;
  q_pointer r := match r with MDeq (Some p) => p | _ => 0 end
|}.

Definition fifo_view (e : qev Z) : option bev :=
  match e with EvEnq p => Some (Put p) | EvDeq p => Some (Take p) | EvEmpty => None end.

Lemma puts_fifo_view es : puts (omap fifo_view es) = enqs es.
Proof. induction es as [|[] es IH]; csimpl; unfold puts, enqs in *; csimpl; congruence. Qed.

Lemma takes_fifo_view es : takes (omap fifo_view es) = deqs es.
Proof. induction es as [|[] es IH]; csimpl; unfold takes, deqs in *; csimpl; congruence. Qed.

Lemma fifo_run_prefix (es : list (qev Z)) q : fifo_run [] es = Some q -> prefix (deqs es) (enqs es).
Proof. intros H%fifo_run_fifo. by exists q. Qed.

Definition mutex_pending (o : qop Z) (es : list (qev Z)) : Prop :=
  omap fifo_view es = [] \/
  match o with OpEnq p => omap fifo_view es = [Put p] | OpDeq => exists p, omap fifo_view es = [Take p] end.

Lemma mutex_contract n c :
  reach mutex_entry mutex_body (fun _ _ => True) [] n c -> contract mutex_impl fifo_view prefix (hist c).
Proof.
  intros Hr. destruct (mutex_reach n c Hr) as [Hf Hg].
  assert (forall i o es, opview i (hist c) = Some (o, es) -> mutex_pending o es) as Hpend.
  { intros i o es. eapply (reach_emits mutex_entry mutex_body mutex_pending
      (fun o l es => l = mutex_entry o /\ es = [])); [by left|done| |exact Hr].
    intros [p|] l es' [-> ->]; unfold mutex_pending; walk; eauto. destruct x; simpl; eauto. }
  split_and!.
  - rewrite puts_fifo_view, takes_fifo_view. by apply (fifo_run_prefix _ _ Hf).
  - intros i t p es Hv. apply (Hpend i _ _ Hv).
  - intros i t es Hv. apply (Hpend i _ _ Hv).
  - intros t p es r Hin. by destruct (proj1 (list.Forall_forall _ _) Hg _ Hin) as [-> ->].
  - intros t es r Hin. destruct (proj1 (list.Forall_forall _ _) Hg _ Hin) as [(v & -> & ->)|[-> ->]]; simpl; auto.
Qed.

(** ** [MSQueue] *)

Definition ms_impl : queue_impl := {|
  QS := MsQueue.state; QE := mev; QO := qop Z; QL := MsQueue.label; QR := mres;
  q_entry := MsQueue.entry; q_body := MsQueue.body;
  q_enqueue _ p := OpEnq p; q_dequeue _ := OpDeq;
  q_accepted r := match r with MTrue => true | MDeq _ => false end;
  q_pointer r := match r with MDeq (Some p) => p | _ => 0 end
|}.

Definition ms_view (e : mev) : option bev :=
  match e with MLink _ p => Some (Put p) | MUnlink _ p => Some (Take p) | _ => None end.

Lemma ms_view_fifo es : puts (omap ms_view es) = enqs (qevs es) /\ takes (omap ms_view es) = deqs (qevs es).
Proof.
  induction es as [|[] es [IH1 IH2]]; csimpl; unfold puts, takes, enqs, deqs, qevs in *; csimpl; rewrite ?IH1, ?IH2; done.
Qed.

Definition ms_pending (o : qop Z) (es : list mev) : Prop :=
  omap ms_view es = [] \/
  match o with OpEnq p => omap ms_view es = [Put p] | OpDeq => exists p, omap ms_view es = [Take p] end.

(** What was emitted before a loop of an operation. *)
Definition ms_at (o : qop Z) (l : MsQueue.label) (es : list mev) : Prop :=
  match o, l with
  | OpEnq p, EnqAlloc v | OpEnq p, EnqLoop v _ => v = p /\ omap ms_view es = []
  | OpDeq, DeqLoop => omap ms_view es = []
  | OpDeq, RetireStart _ _ | OpDeq, RetireLoop _ _ _ => exists p, omap ms_view es = [Take p]
  | _, _ => False
  end.

(** The events of a running operation, after the walk. *)
Ltac pending_step :=
  repeat (rewrite ?omap_app, ?app_nil_r; simpl; match goal with
  | H : omap _ ?es = _ |- context [omap _ ?es] => rewrite H; simpl
  | |- context [if ?b then _ else _] => destruct b; simpl
  end); eauto.

Lemma ms_at_body o l es :
  ms_at o l es ->
  emits (MsQueue.body l) (ms_pending o)
    (fun es x => match x with inl l => ms_at o l es | inr _ => True end) es.
Proof.
  unfold ms_pending.
  destruct o as [p|], l as [v|v node| |v node|v node old]; simpl; try done.
  - intros [-> Hes]. walk; pending_step.
  - intros [-> Hes]. walk; pending_step.
  - intros Hes. walk; pending_step.
  - intros [p Hes]. unfold retire_start. walk; pending_step.
  - intros [p Hes]. walk; pending_step.
Qed.

Lemma ms_contract n c :
  reach MsQueue.entry MsQueue.body ms_env MSQueue_new n c -> contract ms_impl ms_view prefix (hist c).
Proof.
  intros Hr. destruct (ms_reach_inv n c Hr) as (HI & _ & Hg).
  assert (forall i o es, opview i (hist c) = Some (o, es) -> ms_pending o es) as Hpend.
  { intros i o es. eapply (reach_emits MsQueue.entry MsQueue.body ms_pending ms_at);
      [by left|by intros []|apply ms_at_body|exact Hr]. }
  split_and!.
  - rewrite (proj1 (ms_view_fifo _)), (proj2 (ms_view_fifo _)). apply (fifo_run_prefix _ _ (mi_fifo _ _ HI)).
  - intros i t p es Hv. apply (Hpend i _ _ Hv).
  - intros i t es Hv. apply (Hpend i _ _ Hv).
  - intros t p es r Hin. by destruct (proj1 (list.Forall_forall _ _) Hg _ Hin) as [-> (a & ->)].
  - intros t es r Hin.
    assert (forall m, omap ms_view (replicate m MEmpty) = []) as Hm by (intros m; induction m; [done|simpl; done]).
    destruct (proj1 (list.Forall_forall _ _) Hg _ Hin) as (m & [[-> ->]|(a & v & -> & ->)]).
    + left. split; [apply (Hm (S m))|done].
    + right. by rewrite omap_app, Hm.
Qed.

(** ** [SCQP] *)

Definition scqp_impl (k : Z) (fb : bool) : queue_impl := {|
  QS := Scqp.state; QE := tev; QO := qop Z; QL := Scqp.label; QR := qres Z;
  q_entry := Scqp.entry; q_body := Scqp.body (size k) (bot k) fb;
  q_enqueue _ p := OpEnq p; q_dequeue _ := OpDeq;
  q_accepted r := match r with RBool b => b | RVal _ => false end;
  q_pointer r := match r with RVal p => p | RBool _ => 0 end
|}.

Definition ring_view (e : tev) : option bev :=
  match e with PutAt _ p => Some (Put p) | GetAt _ p => Some (Take p) | _ => None end.

Definition scqp_pending (o : qop Z) (es : list tev) : Prop :=
  omap ring_view es = [] \/
  match o with OpEnq p => omap ring_view es = [Put p] | OpDeq => exists p, omap ring_view es = [Take p] end.

(** The labels of an operation; before each of them nothing was put or taken. *)
Definition scqp_at (o : qop Z) (l : Scqp.label) (es : list tev) : Prop :=
  omap ring_view es = [] /\
  match o, l with
  | OpEnq p, EnqEntry v | OpEnq p, EnqTicketP v | OpEnq p, EnqSlotP v _
  | OpEnq p, EnqTicketI v | OpEnq p, EnqSlotI v _ => v = p
  | OpDeq, (DeqEntry | DeqTicketP | DeqSlotP _ _ | DeqTicketI | DeqSlotI _ _ | FixLoop) => True
  | _, _ => False
  end.

Lemma scqp_at_body k fb o l es :
  scqp_at o l es ->
  emits (Scqp.body (size k) (bot k) fb l) (scqp_pending o)
    (fun es x => match x with inl l => scqp_at o l es | inr _ => True end) es.
Proof.
  unfold scqp_pending, scqp_at.
  destruct o as [p|], l; intros [Hes Hl]; try done; subst; simpl.
  - unfold enqueue_entry. walk; pending_step.
  - walk; pending_step.
  - unfold enqueue_ptr_slot. walk; pending_step.
  - walk; pending_step.
  - unfold enqueue_index_slot. walk; pending_step.
  - unfold dequeue_entry. walk; pending_step.
  - walk; pending_step.
  - unfold dequeue_ptr_slot, dequeue_after. walk; pending_step.
  - walk; pending_step.
  - unfold dequeue_index_slot, dequeue_after. walk; pending_step.
  - unfold fixState_loop. walk; pending_step.
Qed.

(** What is given out was taken in, with the same ticket. *)
Definition put_at (e : tev) : option (Z * Z) := match e with PutAt t p => Some (t, p) | _ => None end.

Definition get_at (e : tev) : option (Z * Z) := match e with GetAt t p => Some (t, p) | _ => None end.

Lemma ring_view_puts es : puts (omap ring_view es) = (omap put_at es).*2 /\ put_tickets es = (omap put_at es).*1.
Proof.
  unfold put_tickets. induction es as [|[] es [IH1 IH2]]; csimpl; unfold puts in *; csimpl; rewrite ?IH1, ?IH2; done.
Qed.

Lemma ring_view_takes es : takes (omap ring_view es) = (omap get_at es).*2 /\ get_tickets es = (omap get_at es).*1.
Proof.
  unfold get_tickets. induction es as [|[] es [IH1 IH2]]; csimpl; unfold takes in *; csimpl; rewrite ?IH1, ?IH2; done.
Qed.

Lemma tickets_submseteq es :
  NoDup (get_tickets es) -> (forall t p, GetAt t p ∈ es -> PutAt t p ∈ es) ->
  takes (omap ring_view es) ⊆+ puts (omap ring_view es).
Proof.
  intros Hnd Hsub. rewrite (proj1 (ring_view_puts es)), (proj1 (ring_view_takes es)).
  apply fmap_submseteq. rewrite (proj2 (ring_view_takes es)) in Hnd. apply NoDup_submseteq.
  - by apply NoDup_fmap_1 in Hnd.
  - intros [t p]. rewrite !list_elem_of_omap. intros ([] & Hin & [= -> ->]). exists (PutAt t p). eauto.
Qed.

Lemma omap_view_ticks es : omap ring_view (ticks es) = omap ring_view es.
Proof. unfold ticks. induction es as [|[] es IH]; csimpl; rewrite ?IH; done. Qed.

Lemma omap_view_tickets (f : Z -> tev) ts : (forall t, ring_view (f t) = None) -> omap ring_view (f <$> ts) = [].
Proof. intros Hf. induction ts as [|t ts IH]; csimpl; [done|]. by rewrite Hf. Qed.

Lemma scqp_contract k fb n c :
  2 <= k <= 60 -> reach Scqp.entry (Scqp.body (size k) (bot k) fb) scqp_ok (SCQP_new (size k) fb) n c ->
  contract (scqp_impl k fb) ring_view submseteq (hist c).
Proof.
  intros Hk Hr. destruct (scqp_reach_inv k fb n c Hk Hr) as (Hnd & Hsub & Hg).
  assert (forall i o es, opview i (hist c) = Some (o, es) -> scqp_pending o es) as Hpend.
  { intros i o es. eapply (reach_emits Scqp.entry (Scqp.body (size k) (bot k) fb) scqp_pending scqp_at);
      [by left|by intros []|apply scqp_at_body|exact Hr]. }
  split_and!.
  - by apply tickets_submseteq.
  - intros i t p es Hv. apply (Hpend i _ _ Hv).
  - intros i t es Hv. apply (Hpend i _ _ Hv).
  - intros t p es r Hin. pose proof (proj1 (list.Forall_forall _ _) Hg _ Hin) as H. simpl in H.
    change (omap ring_view es = if match r with RBool b => b | RVal _ => false end then [Put p] else []).
    rewrite <- omap_view_ticks. destruct H as [(_ & -> & ts & t' & ->)|(-> & ts & _ & ->)].
    + by rewrite omap_app, omap_view_tickets.
    + by rewrite omap_view_tickets.
  - intros t es r Hin. pose proof (proj1 (list.Forall_forall _ _) Hg _ Hin) as H. simpl in H.
    change ((omap ring_view es = [] /\ match r with RVal p => p | RBool _ => 0 end = 0) \/
      omap ring_view es = [Take match r with RVal p => p | RBool _ => 0 end]).
    rewrite <- omap_view_ticks. destruct H as [(hs & t' & v & _ & -> & ->)|(-> & hs & ->)].
    + right. by rewrite omap_app, omap_view_tickets.
    + left. by rewrite omap_view_tickets.
Qed.

(** ** What the queues promise *)

#[global] Instance mutex_serves : Serves mutex_impl fifo_view (fun _ _ => True) [] prefix.
Proof. exact mutex_contract. Qed.

#[global] Instance ms_serves : Serves ms_impl ms_view ms_env MSQueue_new prefix.
Proof. exact ms_contract. Qed.

#[global] Instance scqp_serves k fb :
  2 <= k <= 60 -> Serves (scqp_impl k fb) ring_view scqp_ok (SCQP_new (size k) fb) submseteq.
Proof. intros Hk n c. exact (scqp_contract k fb n c Hk). Qed.

(** ** [LSCQ] *)

(** Without a contract: the programs of the examples can be run on it.  The number
    of a thread stands for the hash of its id. *)
Definition lscq_impl (k : Z) (fb : bool) (nshards : nat) : queue_impl := {|
  QS := Lscq.state (SCQP_queue k fb); QE := lev; QO := lop; QL := LscqConc.label; QR := lres;
  q_entry := LscqConc.entry; q_body := LscqConc.body k fb nshards RelAcq;
  q_enqueue t p := LEnq t p; q_dequeue t := LDeq t;
  q_accepted r := match r with LBool b => b | _ => false end;
  q_pointer r := match r with LVal p => p | _ => 0 end
|}.

Definition lscq_view (e : lev) : option bev :=
  match e with LRing _ e => ring_view e | _ => None end.
