(* ===== verification/Workers.v ===== *)
(** * Workers: the producer/consumer programs of the examples

    Models [main] of [examples/task_queue.cpp] and of
    [examples/producer_consumer.cpp] after the options are read: the threads that
    [main] creates, the start gate, the loops of the producers and of the consumers,
    the objects they allocate and delete, the stop values and the report at the end.
    The queue is a parameter ([Client]).

    The shared variables of [main] are [wstate]; [heap] has the objects that were
    allocated and not deleted yet, with their values.  A [std::unique_ptr] is the
    address it owns, and the [delete] of its destructor is written where its scope
    ends.  [fresh] is the address that [operator new] gives for the objects that are
    alive.  Thread 0 is [main], the threads from 1 on are the consumers in the order
    of their creation, followed by the producers.  A thread runs once [main] has
    created it ([spawned]), and [join] waits for the last step of the thread
    ([finished]).

    The events are annotations: objects created and deleted, the value that a
    consumer processes, the additions to the counters, the end of a thread and of
    [main].  [Bad a] marks an access to an object that does not exist. *)

From stdpp Require Import base list numbers option gmap.
From Stdlib Require Import ZArith Lia.
From S2P Require Import Prelude Conc Client.

Local Open Scope Z_scope.

Record wstate := WState {
  ready : Z;
  start_ : bool;
  cancel : bool;
  produced : Z;
  consumed : Z;
  checksum : Z;
  heap : gmap Z Z;
  spawned : nat;
  finished : list nat
}.

(** [main] before it creates the first thread. *)
Definition wstate_new : wstate := WState 0 false false 0 0 0 ∅ 0 [].

Inductive wev : Type :=
| New (a v : Z)
| Delete (a : Z)
| Process (v : Z)
| Produced
| Consumed (n : Z)
| Checksum (x : Z)
| Finished
| End
| Bad (a : Z).

(** What [main] prints and returns; the result of another thread. *)
Inductive wres : Type :=
| Exit (code produced_n consumed_n checksum_n : Z)
| ThreadEnd.

Definition kStopValue : Z := two64 - 1.

(** ** Accesses *)

Definition load {X : Set} (f : wstate -> X) (s : wstate) : wstate * X := (s, f s).

Definition fetch_add_ready (s : wstate) : wstate * unit :=
  (WState (add64 (ready s) 1) (start_ s) (cancel s) (produced s) (consumed s) (checksum s) (heap s)
     (spawned s) (finished s), tt).

Definition store_start (s : wstate) : wstate * unit :=
  (WState (ready s) true (cancel s) (produced s) (consumed s) (checksum s) (heap s) (spawned s) (finished s), tt).

Definition fetch_add_produced (s : wstate) : wstate * unit :=
  (WState (ready s) (start_ s) (cancel s) (add64 (produced s) 1) (consumed s) (checksum s) (heap s)
     (spawned s) (finished s), tt).

Definition fetch_add_consumed (n : Z) (s : wstate) : wstate * unit :=
  (WState (ready s) (start_ s) (cancel s) (produced s) (add64 (consumed s) n) (checksum s) (heap s)
     (spawned s) (finished s), tt).

(** [checksum.fetch_xor] and [checksum.fetch_add]. *)
Definition fetch_op_checksum (op : Z -> Z -> Z) (x : Z) (s : wstate) : wstate * unit :=
  (WState (ready s) (start_ s) (cancel s) (produced s) (consumed s) (op (checksum s) x) (heap s)
     (spawned s) (finished s), tt).

Definition set_heap (h : gmap Z Z) (s : wstate) : wstate :=
  WState (ready s) (start_ s) (cancel s) (produced s) (consumed s) (checksum s) h (spawned s) (finished s).

(** The creation of the next thread, and the last step of thread [i]. *)
Definition spawn (s : wstate) : wstate * unit :=
  (WState (ready s) (start_ s) (cancel s) (produced s) (consumed s) (checksum s) (heap s)
     (S (spawned s)) (finished s), tt).

Definition finish (i : nat) (s : wstate) : wstate * unit :=
  (WState (ready s) (start_ s) (cancel s) (produced s) (consumed s) (checksum s) (heap s)
     (spawned s) (i :: finished s), tt).

Section workers.
Context (fresh : gmap Z Z -> Z).

(** [std::make_unique<std::uint64_t>(v)], [delete] and [*p]. *)
Definition new_u64 (v : Z) (s : wstate) : wstate * Z :=
  let a := fresh (heap s) in (set_heap (<[a := v]> (heap s)) s, a).

Definition delete_u64 (a : Z) (s : wstate) : wstate * bool :=
  match heap s !! a with
  | Some _ => (set_heap (delete a (heap s)) s, true)
  | None => (s, false)
  end.

Definition make_unique (v : Z) : prog wstate wev Z :=
  atomic_lin (new_u64 v) (fun a => [New a v]).

Definition free (a : Z) : prog wstate wev bool :=
  atomic_lin (delete_u64 a) (fun ok : bool => if ok then [Delete a] else [Bad a]).

(** [*p]; the value of an object that does not exist is arbitrary. *)
Definition deref (a : Z) (ev : Z -> list wev) : prog wstate wev Z :=
  Act (option Z) (load (fun s => heap s !! a))
    (fun v => match v with Some v => ev v | None => [Bad a] end) (fun v => Ret (default 0 v)).

(** ** What all threads do *)

(** The numbers of threads of [main]. *)
Context (producers consumers : nat).

Definition consumer_thread (c : nat) : nat := S c.

Definition producer_thread (p : nat) : nat := S (consumers + p).

(** The threads: what a thread is created for, and where it is.  The loops of the
    consumers and of the producers are those of the program ([CL], [PL]). *)
Inductive role : Type :=
| Main
| Consumer (c : nat)
| Producer (p : nat).

#[global] Instance role_eq_dec : EqDecision role.
Proof. solve_decision. Defined.

Context {CL PL : Type} (consumer_start : CL) (producer_start : nat -> PL).

Inductive wlabel : Type :=
| MSpawn
| MReady
| MJoinProducers (p : nat)
| MStop (i : nat)
| MStopSent (i : nat) (raw : Z)
| MJoinConsumers (c : nat)
| WStart (self : nat) (next : wlabel)
| WGate (self : nat) (next : wlabel)
| WEnd (self : nat)
| Spin (self : nat) (raw : Z) (after : wlabel)
| InConsumer (self : nat) (l : CL)
| InProducer (self : nat) (l : PL).

Definition block := prog wstate wev (next wlabel wres).

Definition jump (l : wlabel) : block := Ret (Jump l).

(** The beginning of a thread, up to the start gate. *)
Definition thread_start (self : nat) (l : wlabel) : block :=
  (let! n := atomic (load spawned) in
   if (self <=? n)%nat then do! atomic fetch_add_ready; jump (WGate self l)
   else jump (WStart self l))%prog.

Definition thread_gate (self : nat) (l : wlabel) : block :=
  (let! go_on := atomic (load start_) in
   if (go_on : bool) then jump l else jump (WGate self l))%prog.

Definition thread_end (self : nat) : block :=
  (do! atomic_lin (finish self) (fun _ => [Finished]); Ret (Done ThreadEnd))%prog.

(** [enqueue_spin(q, raw, cancel)], then [after]. *)
Definition enqueue_spin (self : nat) (raw : Z) (after : wlabel) : block :=
  (let! c := atomic (load cancel) in
   if (c : bool) then jump after
   else Ret (Enqueue self raw (fun ok => if ok then after else Spin self raw after)))%prog.

(** ** [main] *)

Definition main_spawn : block :=
  (let! n := atomic (load spawned) in
   if (n <? consumers + producers)%nat then do! atomic spawn; jump MSpawn
   else jump MReady)%prog.

Definition main_ready : block :=
  (let! r := atomic (load ready) in
   if negb (r =? u64 (Z.of_nat (producers + consumers))) then jump MReady
   else do! atomic store_start; jump (MJoinProducers 0))%prog.

(** [t.join()]. *)
Definition main_join (i : nat) (again after : wlabel) : block :=
  (let! f := atomic (load finished) in
   if bool_decide (i ∈ f) then jump after else jump again)%prog.

Definition main_join_producers (p : nat) : block :=
  if (p <? producers)%nat
  then main_join (producer_thread p) (MJoinProducers p) (MJoinProducers (S p))
  else jump (MStop 0).

Definition main_stop (i : nat) : block :=
  if (i <? consumers)%nat then
    (let! raw := make_unique kStopValue in jump (Spin 0 raw (MStopSent i raw)))%prog
  else jump (MJoinConsumers 0).

Definition main_stop_sent (i : nat) (raw : Z) : block :=
  (let! c := atomic (load cancel) in
   if (c : bool) then do! free raw; jump (MJoinConsumers 0)
   else jump (MStop (S i)))%prog.

Definition main_report (total : Z) : block :=
  (let! produced_n := atomic (load produced) in
   let! consumed_n := atomic (load consumed) in
   let! checksum_n := atomic_lin (load checksum) (fun _ => [End]) in
   Ret (Done (Exit (if negb (produced_n =? total) || negb (consumed_n =? total) then 1 else 0)
                produced_n consumed_n checksum_n)))%prog.

Definition main_join_consumers (total : Z) (c : nat) : block :=
  if (c <? consumers)%nat
  then main_join (consumer_thread c) (MJoinConsumers c) (MJoinConsumers (S c))
  else main_report total.

Context (total : Z) (consumer_body : nat -> CL -> block) (producer_body : nat -> PL -> block).

Definition worker_body (l : wlabel) : block :=
  match l with
  | MSpawn => main_spawn
  | MReady => main_ready
  | MJoinProducers p => main_join_producers p
  | MStop i => main_stop i
  | MStopSent i raw => main_stop_sent i raw
  | MJoinConsumers c => main_join_consumers total c
  | WStart self l => thread_start self l
  | WGate self l => thread_gate self l
  | WEnd self => thread_end self
  | Spin self raw after => enqueue_spin self raw after
  | InConsumer self l => consumer_body self l
  | InProducer self l => producer_body self l
  end.

Definition worker_entry (r : role) : wlabel :=
  match r with
  | Main => MSpawn
  | Consumer c =>
      WStart (consumer_thread c) (InConsumer (consumer_thread c) consumer_start)
  | Producer p =>
      WStart (producer_thread p) (InProducer (producer_thread p) (producer_start p))
  end.

(** Which role thread [i] has. *)
Definition role_of (i : nat) : option role :=
  if (i =? 0)%nat then Some Main
  else if (i <=? consumers)%nat then Some (Consumer (i - 1))
  else if (i <=? consumers + producers)%nat then Some (Producer (i - 1 - consumers))
  else None.

End workers.

Arguments wlabel CL PL : clear implicits.
Arguments MSpawn {CL PL}.
Arguments MReady {CL PL}.
Arguments MJoinProducers {CL PL} p.
Arguments MStop {CL PL} i.
Arguments MStopSent {CL PL} i raw.
Arguments MJoinConsumers {CL PL} c.
Arguments WStart {CL PL} self next.
Arguments WGate {CL PL} self next.
Arguments WEnd {CL PL} self.
Arguments Spin {CL PL} self raw after.
Arguments InConsumer {CL PL} self l.
Arguments InProducer {CL PL} self l.
Arguments block CL PL : clear implicits.
Arguments jump {CL PL} l.

(** ** [task_queue] *)

(** [do_work]. *)
Definition mix (x : Z) : Z :=
  let x := Z.lxor x (shl64 x 7) in
  let x := Z.lxor x (Z.shiftr x 9) in
  u64 (x * 11400714819323198485).

Definition do_work (task_id producer : Z) (work_units : nat) : Z :=
  Nat.iter work_units mix (Z.lxor task_id (shl64 producer 32)).

(** The work of a consumer on a task. *)
Definition task_work (task_id : Z) : Z :=
  let producer := Z.shiftr task_id 32 mod two32 in
  let work_units := Z.to_nat ((5 + task_id mod 8) mod two32) in
  do_work task_id producer work_units.

(** The id of the [i]-th task of producer [p]. *)
Definition task_id (p i : nat) : Z :=
  Z.lor (shl64 (u64 (Z.of_nat p)) 32) (u64 (Z.of_nat i)).

Section task_queue.
Context (fresh : gmap Z Z -> Z) (producers consumers tasks_per_producer : nat).

Inductive task_consumer : Type :=
| TLoop (local_checksum local_consumed : Z)
| TGot (local_checksum local_consumed raw : Z).

Inductive task_producer : Type :=
| TProduce (p i : nat)
| TSent (p i : nat) (raw : Z).

Abbreviation label := (wlabel task_consumer task_producer).
Abbreviation block := (block task_consumer task_producer).

(** The body of the loop of a consumer after [dequeue]. *)
Definition task_consume (self : nat) (local_checksum local_consumed raw : Z) : block :=
  if raw =? 0 then jump (InConsumer self (TLoop local_checksum local_consumed))
  else
    (let! v := deref raw (fun _ => []) in
     if v =? kStopValue then
       do! free raw;
       do! atomic_lin (fetch_add_consumed local_consumed) (fun _ => [Consumed local_consumed]);
       do! atomic_lin (fetch_op_checksum Z.lxor local_checksum) (fun _ => [Checksum local_checksum]);
       jump (WEnd self)
     else
       let! task_id := deref raw (fun v => [Process v]) in
       do! free raw;
       jump (InConsumer self (TLoop (Z.lxor local_checksum (task_work task_id))
                                    (add64 local_consumed 1))))%prog.

Definition task_consumer_body (self : nat) (l : task_consumer) : block :=
  match l with
  | TLoop chk cnt => Ret (Dequeue self (fun raw => InConsumer self (TGot chk cnt raw)))
  | TGot chk cnt raw => task_consume self chk cnt raw
  end.

Definition task_produce (self p i : nat) : block :=
  if (i <? tasks_per_producer)%nat then
    (let! raw := make_unique fresh (task_id p i) in
     jump (Spin self raw (InProducer self (TSent p i raw))))%prog
  else jump (WEnd self).

Definition task_sent (self p i : nat) (raw : Z) : block :=
  (let! c := atomic (load cancel) in
   if (c : bool) then do! free raw; jump (WEnd self)
   else
     do! atomic_lin fetch_add_produced (fun _ => [Produced]);
     jump (InProducer self (TProduce p (S i))))%prog.

Definition task_producer_body (self : nat) (l : task_producer) : block :=
  match l with
  | TProduce p i => task_produce self p i
  | TSent p i raw => task_sent self p i raw
  end.

Definition total_tasks : Z := u64 (Z.of_nat (producers * tasks_per_producer)).

Definition task_queue_body : label -> block :=
  worker_body fresh producers consumers total_tasks task_consumer_body task_producer_body.

Definition task_queue_entry : role -> label :=
  worker_entry consumers (TLoop 0 0) (fun p => TProduce p 0).

End task_queue.

(** ** [producer_consumer] *)

(** The payload of the item with number [id]. *)
Definition payload (id : Z) : Z := Z.lxor id 11936128518282651045.

Section producer_consumer.
Context (fresh : gmap Z Z -> Z) (producers consumers items_per_producer batch_size : nat).

Inductive pc_consumer : Type :=
| BLoop (batch : list Z) (local_checksum local_consumed : Z)
| BGot (batch : list Z) (local_checksum local_consumed raw : Z)
| BSum (batch rest : list Z) (local_checksum local_consumed : Z) (leftover : bool)
| BClear (rest : list Z) (local_checksum local_consumed : Z) (leftover : bool).

Inductive pc_producer : Type :=
| BOuter (remaining : nat) (next_id : Z)
| BInner (i n remaining : nat) (next_id : Z)
| BSent (i n remaining : nat) (next_id raw : Z).

Abbreviation label := (wlabel pc_consumer pc_producer).
Abbreviation block := (block pc_consumer pc_producer).

(** The body of the loop of a consumer after [dequeue], up to the test of the size
    of the batch. *)
Definition pc_consume (self : nat) (batch : list Z) (local_checksum local_consumed raw : Z) : block :=
  if raw =? 0 then jump (InConsumer self (BLoop batch local_checksum local_consumed))
  else
    (let! v := deref raw (fun _ => []) in
     if v =? kStopValue then
       do! free raw;
       jump (InConsumer self (BSum batch batch local_checksum local_consumed true))
     else
       let batch := batch ++ [raw] in
       let local_consumed := add64 local_consumed 1 in
       if (batch_size <=? length batch)%nat
       then jump (InConsumer self (BSum batch batch local_checksum local_consumed false))
       else jump (InConsumer self (BLoop batch local_checksum local_consumed)))%prog.

(** The sum over a batch, the full one or the one that is left over. *)
Definition pc_sum (self : nat) (batch rest : list Z) (local_checksum local_consumed : Z) (leftover : bool) : block :=
  match rest with
  | it :: rest =>
      (let! v := deref it (fun v => [Process v]) in
       jump (InConsumer self (BSum batch rest (add64 local_checksum v) local_consumed leftover)))%prog
  | [] =>
      if leftover then
        (do! atomic_lin (fetch_add_consumed local_consumed) (fun _ => [Consumed local_consumed]);
         do! atomic_lin (fetch_op_checksum add64 local_checksum) (fun _ => [Checksum local_checksum]);
         jump (InConsumer self (BClear batch local_checksum local_consumed true)))%prog
      else jump (InConsumer self (BClear batch local_checksum local_consumed false))
  end.

(** [batch.clear()], and the destruction of [batch] at the end of the thread. *)
Definition pc_clear (self : nat) (rest : list Z) (local_checksum local_consumed : Z) (leftover : bool) : block :=
  match rest with
  | it :: rest =>
      (do! free it; jump (InConsumer self (BClear rest local_checksum local_consumed leftover)))%prog
  | [] =>
      if leftover then jump (WEnd self) else jump (InConsumer self (BLoop [] local_checksum local_consumed))
  end.

Definition pc_consumer_body (self : nat) (l : pc_consumer) : block :=
  match l with
  | BLoop batch chk cnt => Ret (Dequeue self (fun raw => InConsumer self (BGot batch chk cnt raw)))
  | BGot batch chk cnt raw => pc_consume self batch chk cnt raw
  | BSum batch rest chk cnt leftover => pc_sum self batch rest chk cnt leftover
  | BClear rest chk cnt leftover => pc_clear self rest chk cnt leftover
  end.

Definition pc_outer (self remaining : nat) (next_id : Z) : block :=
  if (0 <? remaining)%nat then
    (let! c := atomic (load cancel) in
     if negb c then
       let n := if (remaining <? batch_size)%nat then remaining else batch_size in
       jump (InProducer self (BInner 0 n remaining next_id))
     else jump (WEnd self))%prog
  else jump (WEnd self).

Definition pc_inner (self i n remaining : nat) (next_id : Z) : block :=
  if (i <? n)%nat then
    let id := next_id in
    let next_id := add64 next_id 1 in
    (let! raw := make_unique fresh (payload id) in
     jump (Spin self raw (InProducer self (BSent i n remaining next_id raw))))%prog
  else jump (InProducer self (BOuter (remaining - n) next_id)).

Definition pc_sent (self i n remaining : nat) (next_id raw : Z) : block :=
  (let! c := atomic (load cancel) in
   if (c : bool) then do! free raw; jump (WEnd self)
   else
     do! atomic_lin fetch_add_produced (fun _ => [Produced]);
     jump (InProducer self (BInner (S i) n remaining next_id)))%prog.

Definition pc_producer_body (self : nat) (l : pc_producer) : block :=
  match l with
  | BOuter remaining next_id => pc_outer self remaining next_id
  | BInner i n remaining next_id => pc_inner self i n remaining next_id
  | BSent i n remaining next_id raw => pc_sent self i n remaining next_id raw
  end.

Definition total_items : Z := u64 (Z.of_nat (producers * items_per_producer)).

(** [base_id]. *)
Definition base_id (p : nat) : Z := u64 (Z.of_nat (p * items_per_producer)).

Definition pc_body : label -> block :=
  worker_body fresh producers consumers total_items pc_consumer_body pc_producer_body.

Definition pc_entry : role -> label :=
  worker_entry consumers (BLoop [] 0 0) (fun p => BOuter items_per_producer (base_id p)).

End producer_consumer.
