(* ===== verification/WorkersProofs.v ===== *)
(** * WorkersProofs: the producer/consumer programs are correct

    The programs of [Workers] on any queue that gives out the pointers in the order
    in which it took them in ([Client.contract] with [prefix]).  In every
    interleaving no object is used after its deletion or deleted twice, and when
    [main] returns every task was processed exactly once, the counters and the
    checksum are those of all tasks, the exit code is 0 and no object is left.

    [gstate] replays the history of the client: who owns which object, what each
    thread put in and took out.  [local] is the part of it that belongs to a thread,
    which no other thread changes; [Inv] relates the parts and the shared variables. *)

From stdpp Require Import base list numbers option gmap.
From Stdlib Require Import ZArith Lia.
From S2P Require Import Prelude Conc Client Workers.

Local Open Scope Z_scope.

(** ** What the history of the client determines *)

Record gst := Gst {
  g_heap : gmap Z Z;
  g_hold : list (nat * (Z * Z));
  g_q : list Z;
  g_in : list (nat * Z);
  g_out : list (nat * Z);
  g_run : list (nat * Z);
  g_rel : list (nat * unit);
  g_cons : list (nat * Z);
  g_chk : list (nat * Z);
  g_fin : list nat;
  g_bad : bool
}.

Definition g_start : gst := Gst ∅ [] [] [] [] [] [] [] [] [] false.

Definition drop_hold (i : nat) (a : Z) (l : list (nat * (Z * Z))) : list (nat * (Z * Z)) :=
  filter (fun x => ~ (x.1 = i /\ x.2.1 = a)) l.

Definition g_event (i : nat) (e : gev wev) (g : gst) : gst :=
  let '(Gst hp hold q ins os run rel cns chk fin bad) := g in
  match e with
  | inl (New a v) => Gst (<[a := v]> hp) (hold ++ [(i, (a, v))]) q ins os run rel cns chk fin bad
  | inl (Delete a) => Gst (delete a hp) (drop_hold i a hold) q ins os run rel cns chk fin bad
  | inl (Process v) => Gst hp hold q ins os (run ++ [(i, v)]) rel cns chk fin bad
  | inl Produced => Gst hp hold q ins os run (rel ++ [(i, tt)]) cns chk fin bad
  | inl (Consumed n) => Gst hp hold q ins os run rel (cns ++ [(i, n)]) chk fin bad
  | inl (Checksum x) => Gst hp hold q ins os run rel cns (chk ++ [(i, x)]) fin bad
  | inl Finished => Gst hp hold q ins os run rel cns chk (i :: fin) bad
  | inl End => Gst hp hold q ins os run rel cns chk (i :: fin) bad
  | inl (Bad _) => Gst hp hold q ins os run rel cns chk fin true
  | inr (Put a) => Gst hp (drop_hold i a hold) (q ++ [a]) (ins ++ [(i, hp !!! a)]) os run rel cns chk fin bad
  | inr (Take a) => Gst hp (hold ++ [(i, (a, hp !!! a))]) (tail q) ins (os ++ [(i, hp !!! a)]) run rel cns chk fin bad
  end.

Abbreviation whist := (list (hev (gev wev) role wres)).

Definition g_item (g : gst) (x : hev (gev wev) role wres) : gst :=
  match x with HLin i e => g_event i e g | _ => g end.

Definition gstate (h : whist) : gst := foldl g_item g_start h.

Lemma gstate_snoc h i e : gstate (h ++ [HLin i e]) = g_event i e (gstate h).
Proof. unfold gstate. by rewrite foldl_app. Qed.

Lemma gstate_lin h i es : gstate (h ++ (HLin i <$> es)) = foldl (fun g e => g_event i e g) (gstate h) es.
Proof.
  revert h. induction es as [|e es IH]; intros h; csimpl; [by rewrite app_nil_r|].
  rewrite (cons_middle (HLin i e)), app_assoc, IH. by rewrite gstate_snoc.
Qed.

Lemma gstate_item h x : (forall i e, x <> HLin i e) -> gstate (h ++ [x]) = gstate h.
Proof. intros Hx. unfold gstate. rewrite foldl_app. destruct x; simpl; try done. by destruct (Hx i e). Qed.

(** The part of a thread. *)
Record local := Local {
  l_hold : list (Z * Z);
  l_in : list Z;
  l_out : list Z;
  l_run : list Z;
  l_rel : nat;
  l_cons : list Z;
  l_chk : list Z;
  l_fin : bool
}.

Definition local_of (i : nat) (g : gst) : local :=
  Local (by_ i (g_hold g)) (by_ i (g_in g)) (by_ i (g_out g)) (by_ i (g_run g)) (length (by_ i (g_rel g)))
    (by_ i (g_cons g)) (by_ i (g_chk g)) (bool_decide (i ∈ g_fin g)).

Definition l_start : local := Local [] [] [] [] 0 [] [] false.

(** What an event of the thread does to its part. *)
Definition l_event (hp : gmap Z Z) (e : gev wev) (l : local) : local :=
  let '(Local hold ins os run rel cns chk fin) := l in
  match e with
  | inl (New a v) => Local (hold ++ [(a, v)]) ins os run rel cns chk fin
  | inl (Delete a) => Local (filter (fun x => x.1 <> a) hold) ins os run rel cns chk fin
  | inl (Process v) => Local hold ins os (run ++ [v]) rel cns chk fin
  | inl Produced => Local hold ins os run (S rel) cns chk fin
  | inl (Consumed n) => Local hold ins os run rel (cns ++ [n]) chk fin
  | inl (Checksum x) => Local hold ins os run rel cns (chk ++ [x]) fin
  | inl Finished | inl End => Local hold ins os run rel cns chk true
  | inl (Bad _) => l
  | inr (Put a) => Local (filter (fun x => x.1 <> a) hold) (ins ++ [hp !!! a]) os run rel cns chk fin
  | inr (Take a) => Local (hold ++ [(a, hp !!! a)]) ins (os ++ [hp !!! a]) run rel cns chk fin
  end.

Lemma by_drop_own i a l : by_ i (drop_hold i a l) = filter (fun x => x.1 <> a) (by_ i l).
Proof.
  unfold drop_hold. induction l as [|[j x] l IH]; [done|]. rewrite filter_cons, (by_cons i j). simpl.
  destruct (decide (j = i)) as [->|Hj].
  - rewrite filter_cons. destruct (decide (x.1 = a)) as [Hx|Hx].
    + rewrite (decide_False (P := ~ _)), (decide_False (P := x.1 <> a)) by tauto. done.
    + rewrite (decide_True (P := ~ _)), (decide_True (P := x.1 <> a)) by tauto. rewrite by_cons, decide_True by done.
      by rewrite IH.
  - rewrite decide_True by tauto. rewrite by_cons, decide_False by done. done.
Qed.

Lemma by_drop_other i j a l : i <> j -> by_ i (drop_hold j a l) = by_ i l.
Proof.
  intros Hij. unfold drop_hold. induction l as [|[j' x] l IH]; [done|]. rewrite filter_cons. simpl.
  destruct (decide (j' = j /\ x.1 = a)) as [[-> Hx]|Hx].
  - rewrite decide_False by tauto. rewrite by_cons, decide_False by done. done.
  - rewrite decide_True by tauto. rewrite !by_cons, IH. done.
Qed.

Lemma local_own i e g : local_of i (g_event i e g) = l_event (g_heap g) e (local_of i g).
Proof.
  destruct g as [hp hold q ins os run rel cns chk fin bad].
  destruct e as [[]|[]]; unfold local_of; simpl; rewrite ?by_app, ?by_own, ?by_drop_own; try done.
  - by rewrite length_app, Nat.add_comm.
  - f_equal. apply bool_decide_eq_true_2. by left.
  - f_equal. apply bool_decide_eq_true_2. by left.
Qed.

Lemma local_other i j e g : i <> j -> local_of i (g_event j e g) = local_of i g.
Proof.
  intros Hij. destruct g as [hp hold q ins os run rel cns chk fin bad].
  destruct e as [[]|[]]; unfold local_of; simpl;
    rewrite ?by_app, ?(by_other i j), ?app_nil_r, ?by_drop_other by done; try done.
  all: f_equal; apply bool_decide_ext; rewrite elem_of_cons; naive_solver.
Qed.

(** Other threads do not change it. *)
Lemma local_items i h l :
  Forall (fun x => tid_of x <> i) l -> local_of i (gstate (h ++ l)) = local_of i (gstate h).
Proof.
  intros Hl. induction l as [|x l IH] using rev_ind; [by rewrite app_nil_r|].
  apply Forall_app in Hl as [Hl Hx]. rewrite Forall_singleton in Hx. rewrite app_assoc, <- (IH Hl).
  destruct x as [j o|j e|j r]; [by rewrite gstate_item| |by rewrite gstate_item].
  rewrite gstate_snoc. apply local_other. simpl in Hx. congruence.
Qed.

Lemma local_step i j h h' : hist_step j h h' -> j <> i -> local_of i (gstate h') = local_of i (gstate h).
Proof.
  intros (l & -> & Hl) Hj. apply local_items. eapply list.Forall_impl; [exact Hl|]. intros x ->. done.
Qed.

Lemma g_fin_app i h l : i ∈ g_fin (gstate h) -> i ∈ g_fin (gstate (h ++ l)).
Proof.
  intros Hi. induction l as [|x l IH] using rev_ind; [by rewrite app_nil_r|]. rewrite app_assoc.
  destruct x as [j o|j e|j r]; [by rewrite gstate_item| |by rewrite gstate_item]. rewrite gstate_snoc.
  destruct (gstate (h ++ l)), e as [[]|[]]; simpl in *; try done; by right.
Qed.

(** The values processed in an execution of a program on [Q]. *)
Section executions.
Context (Q : queue_impl) (q_view : QE Q -> option bev).

Definition processed {O R} (h : list (hev (event Q (E := wev)) O R)) : list Z :=
  omap (fun e => match e with Mine _ (Process v) => Some v | _ => None end) (events h).

Lemma processed_snoc {O R} (h : list (hev (event Q (E := wev)) O R)) x :
  processed (h ++ [x]) = processed h ++ match x with HLin _ (Mine _ (Process v)) => [v] | _ => [] end.
Proof.
  unfold processed. rewrite events_app, omap_app. f_equal. destruct x as [|i [[]| | |]|]; done.
Qed.

Lemma ghost_snoc_event (h : list (hev (event Q (E := wev)) role wres)) x :
  gstate (ghost Q q_view (h ++ [x])) = foldl g_item (gstate (ghost Q q_view h)) (ghost Q q_view [x]).
Proof. unfold gstate. by rewrite ghost_app, foldl_app. Qed.

Lemma g_run_processed h : (g_run (gstate (ghost Q q_view h))).*2 = processed h.
Proof.
  induction h as [|x h IH] using rev_ind; [done|]. rewrite ghost_snoc_event, processed_snoc, <- IH.
  destruct (gstate (ghost Q q_view h)) as [hp hold q ins os run rel cns chk fin bad].
  destruct x as [i o|i [e|o|e|r]|i r]; unfold ghost; csimpl; rewrite ?app_nil_r; try done.
  - destruct e; simpl; rewrite ?app_nil_r; try done. by rewrite fmap_app.
  - destruct (q_view e) as [[]|]; csimpl; by rewrite ?app_nil_r.
Qed.

Lemma g_bad_mono e i g : g_bad g = true -> g_bad (g_event i e g) = true.
Proof. destruct g, e as [[]|[]]; simpl; congruence. Qed.

Lemma no_bad (h : list (hev (event Q (E := wev)) role wres)) a :
  g_bad (gstate (ghost Q q_view h)) = false -> Mine Q (Bad a) ∉ events h.
Proof.
  induction h as [|x h IH] using rev_ind; intros Hb; [apply not_elem_of_nil|].
  rewrite ghost_snoc_event in Hb. rewrite events_app, elem_of_app. intros [Hin|Hin].
  - apply IH; [|done]. destruct (g_bad (gstate (ghost Q q_view h))) eqn:Eb; [|done]. rewrite <- Hb. symmetry.
    destruct x as [i o|i [e|o|e|r]|i r]; unfold ghost; csimpl; try done; [by apply g_bad_mono|].
    destruct (q_view e); csimpl; [by apply g_bad_mono|done].
  - destruct x as [i o|i e|i r]; csimpl in Hin; try by apply elem_of_nil in Hin.
    apply list_elem_of_singleton in Hin as <-. unfold ghost in Hb. csimpl in Hb. by destruct (gstate _).
Qed.

End executions.

(** ** The invariant *)

Section proofs.
Context (producers consumers : nat).
Context (ids : nat -> list Z) (op : Z -> Z -> Z) (work : Z -> Z).

Definition prods : list nat := seq (S consumers) producers.

Definition conss : list nat := seq 1 consumers.

Definition sum (ws : list Z) : Z := foldl (fun a v => op a (work v)) 0 ws.

(** The part of a producer and of a consumer when it has nothing left to do, and
    that of [main] when it has sent the stop values. *)
Definition prod_end (i : nat) (fin : bool) : local :=
  let vs := ids (i - S consumers) in Local [] vs [] [] (length vs) [] [] fin.

Definition cons_end (ws : list Z) (fin : bool) : local :=
  Local [] [] (ws ++ [kStopValue]) ws 0 [u64 (Z.of_nat (length ws))] [sum ws] fin.

Definition main_end (fin : bool) : local := Local [] (replicate consumers kStopValue) [] [] 0 [] [] fin.

Definition final (i : nat) (fin : bool) (l : local) : Prop :=
  (i ∈ prods /\ l = prod_end i fin) \/
  (i ∈ conss /\ exists ws, (kStopValue ∉ ws) /\ l = cons_end ws fin) \/
  (i = 0%nat /\ l = main_end fin).

Record Inv (s : wstate) (h : whist) : Prop := {
  iv_heap : heap s = g_heap (gstate h);
  iv_cancel : cancel s = false;
  iv_produced : produced s = u64 (Z.of_nat (length (g_rel (gstate h))));
  iv_consumed : consumed s = foldl add64 0 (g_cons (gstate h)).*2;
  iv_checksum : checksum s = foldl op 0 (g_chk (gstate h)).*2;
  iv_finished i : i ∈ finished s -> i ∈ g_fin (gstate h);
  iv_bad : g_bad (gstate h) = false;
  iv_queue : puts (g_views h) = takes (g_views h) ++ g_q (gstate h);
  iv_values : (g_in (gstate h)).*2 =
    (g_out (gstate h)).*2 ++ ((fun a => g_heap (gstate h) !!! a) <$> g_q (gstate h));
  iv_owned : map_to_list (g_heap (gstate h)) ≡ₚ
    (g_hold (gstate h)).*2 ++ ((fun a => (a, g_heap (gstate h) !!! a)) <$> g_q (gstate h));
  iv_null : g_heap (gstate h) !! 0 = None;
  iv_in : exists ts j, g_in (gstate h) = ts ++ replicate j (0%nat, kStopValue) /\
    Forall (fun x => x.1 ∈ prods /\ x.2 <> kStopValue) ts /\
    (j <> 0%nat -> forall i, i ∈ prods -> i ∈ g_fin (gstate h));
  iv_rel : Forall (fun x => x.1 ∈ prods) (g_rel (gstate h));
  iv_out : Forall (fun x => x.1 ∈ conss) (g_out (gstate h));
  iv_run : Forall (fun x => x.1 ∈ conss) (g_run (gstate h));
  iv_cons : Forall (fun x => x.1 ∈ conss) (g_cons (gstate h));
  iv_chk : Forall (fun x => x.1 ∈ conss) (g_chk (gstate h));
  iv_hold : Forall (fun x => x.1 ∈ 0%nat :: (conss ++ prods)) (g_hold (gstate h));
  iv_made i : i ∈ prods -> prefix (by_ i (g_in (gstate h))) (ids (i - S consumers));
  iv_took i : prefix (by_ i (g_run (gstate h))) (by_ i (g_out (gstate h)));
  iv_real : Forall (fun x => x.2 <> kStopValue) (g_run (gstate h));
  iv_final i : i ∈ g_fin (gstate h) -> final i true (local_of i (gstate h));
  iv_end i : 0%nat ∈ g_fin (gstate h) -> i ∈ conss ++ prods -> i ∈ g_fin (gstate h)
}.

Lemma Inv_start : Inv wstate_new [].
Proof.
  split; try done; try (by intros i ?%not_elem_of_nil); try constructor.
  - exists [], 0%nat. done.
  - intros i _. apply prefix_nil.
Qed.

Lemma Inv_call_ret s h x : (forall i e, x <> HLin i e) -> Inv s h -> Inv s (h ++ [x]).
Proof.
  intros Hx []. assert (g_views (h ++ [x]) = g_views h) as Hv.
  { rewrite g_views_app. destruct x; [apply app_nil_r|by destruct (Hx i e)|apply app_nil_r]. }
  split; rewrite ?gstate_item, ?Hv by done; auto.
Qed.

(** The values of the objects that a thread owns. *)
Lemma held_value s h i a v :
  Inv s h -> (a, v) ∈ l_hold (local_of i (gstate h)) -> g_heap (gstate h) !! a = Some v.
Proof.
  intros [] Hin. apply elem_of_map_to_list. rewrite iv_owned0. apply elem_of_app. left.
  simpl in Hin. unfold by_ in Hin. apply list_elem_of_fmap in Hin as (x & -> & Hx).
  apply list_elem_of_filter in Hx as [_ Hx]. apply list_elem_of_fmap. eauto.
Qed.

Lemma held_nonnull s h i a v : Inv s h -> (a, v) ∈ l_hold (local_of i (gstate h)) -> a <> 0.
Proof.
  intros HI Hin ->. pose proof (held_value s h i 0 v HI Hin) as H. by rewrite (iv_null _ _ HI) in H.
Qed.

Lemma views_own (h : whist) i (e : wev) : g_views (h ++ [HLin i (inl e)]) = g_views h.
Proof. rewrite g_views_app. apply app_nil_r. Qed.

Lemma views_queue (h : whist) i v : g_views (h ++ [HLin i (inr v)]) = g_views h ++ [v].
Proof. by rewrite g_views_app. Qed.

Lemma puts_snoc vs v : puts (vs ++ [v]) = puts vs ++ match v with Put p => [p] | Take _ => [] end.
Proof. unfold puts. rewrite omap_app. by destruct v. Qed.

Lemma takes_snoc vs v : takes (vs ++ [v]) = takes vs ++ match v with Take p => [p] | Put _ => [] end.
Proof. unfold takes. rewrite omap_app. by destruct v. Qed.

(** The objects in the queue exist. *)
Lemma queued_value s h a :
  Inv s h -> a ∈ g_q (gstate h) -> g_heap (gstate h) !! a = Some (g_heap (gstate h) !!! a).
Proof.
  intros [] Ha. apply elem_of_map_to_list. rewrite iv_owned0. apply elem_of_app. right.
  apply list_elem_of_fmap. eauto.
Qed.

Lemma unfinished i g : l_fin (local_of i g) = false -> i ∉ g_fin g.
Proof. simpl. apply bool_decide_eq_false_1. Qed.

(** A thread that has not finished does not change the parts of those that have. *)
Lemma final_event s h i e :
  Inv s h -> i ∉ g_fin (gstate h) -> g_fin (g_event i e (gstate h)) = g_fin (gstate h) ->
  (forall j, j ∈ g_fin (g_event i e (gstate h)) -> final j true (local_of j (g_event i e (gstate h)))) /\
  (forall j, 0%nat ∈ g_fin (g_event i e (gstate h)) -> j ∈ conss ++ prods -> j ∈ g_fin (g_event i e (gstate h))).
Proof.
  intros [] Hi Hf. rewrite Hf. split; [|done]. intros j Hj. rewrite local_other; [auto|]. by intros ->.
Qed.

(** The invariant after an event of thread [i], from the parts that it concerns. *)
Ltac event_inv HI i e h :=
  let HF := fresh in
  let HE := fresh in
  pose proof HI as Hinv;
  destruct (final_event _ h i e HI) as [HF HE]; [done|by destruct (gstate h)|];
  destruct HI as [Hheap Hcancel Hprod Hcons Hchk Hfin Hbad Hqueue Hvalues Howned Hnull Hin Hrel Hout Hrun Hcns Hchks Hhold Hmade Htook Hreal _ _];
  split; rewrite ?gstate_snoc, ?views_own, ?views_queue; [..|exact HF|exact HE]; clear HF HE;
  destruct (gstate h) as [hp hold q ins os run rel cns chk fin bad] eqn:Eg; simpl in *; try done.

Lemma Inv_process s h i v :
  Inv s h -> i ∉ g_fin (gstate h) -> i ∈ conss -> v <> kStopValue ->
  prefix (l_run (local_of i (gstate h)) ++ [v]) (l_out (local_of i (gstate h))) ->
  Inv s (h ++ [HLin i (inl (Process v))]).
Proof.
  intros HI Hi Hc Hv Hpre. event_inv HI i (inl (Process v) : gev wev) h.
  - apply Forall_app_2; [done|]. by constructor.
  - intros j. rewrite by_app. destruct (decide (j = i)) as [->|Hj]; [by rewrite by_own|].
    by rewrite by_other, app_nil_r.
  - apply Forall_app_2; [done|]. by constructor.
Qed.

Lemma Inv_produced s h i :
  Inv s h -> i ∉ g_fin (gstate h) -> i ∈ prods ->
  Inv (fetch_add_produced s).1 (h ++ [HLin i (inl Produced)]).
Proof.
  intros HI Hi Hc. event_inv HI i (inl Produced : gev wev) h.
  - rewrite Hprod. unfold add64, u64. rewrite Zplus_mod_idemp_l. f_equal. rewrite length_app. simpl. lia.
  - apply Forall_app_2; [done|]. by constructor.
Qed.

Lemma Inv_consumed s h i n :
  Inv s h -> i ∉ g_fin (gstate h) -> i ∈ conss ->
  Inv (fetch_add_consumed n s).1 (h ++ [HLin i (inl (Consumed n))]).
Proof.
  intros HI Hi Hc. event_inv HI i (inl (Consumed n) : gev wev) h.
  - by rewrite Hcons, fmap_app, foldl_app.
  - apply Forall_app_2; [done|]. by constructor.
Qed.

Lemma Inv_checksum s h i x :
  Inv s h -> i ∉ g_fin (gstate h) -> i ∈ conss ->
  Inv (fetch_op_checksum op x s).1 (h ++ [HLin i (inl (Checksum x))]).
Proof.
  intros HI Hi Hc. event_inv HI i (inl (Checksum x) : gev wev) h.
  - by rewrite Hchk, fmap_app, foldl_app.
  - apply Forall_app_2; [done|]. by constructor.
Qed.

Lemma drop_hold_absent i a l : a ∉ l.*2.*1 -> drop_hold i a l = l.
Proof.
  unfold drop_hold. induction l as [|[j x] l IH]; [done|]. csimpl. rewrite not_elem_of_cons. intros [Hx Hl].
  rewrite filter_cons, decide_True by (simpl; intros [_ ?]; congruence). by rewrite IH.
Qed.

Lemma drop_hold_perm i a v l :
  NoDup l.*2.*1 -> (i, (a, v)) ∈ l -> l.*2 ≡ₚ (a, v) :: (drop_hold i a l).*2.
Proof.
  induction l as [|[j x] l IH]; intros Hnd Hin; [by apply elem_of_nil in Hin|].
  csimpl in Hnd. apply NoDup_cons in Hnd as [Hx Hnd]. apply elem_of_cons in Hin as [[= <- <-]|Hin].
  - unfold drop_hold. rewrite filter_cons, decide_False by (simpl; tauto).
    pose proof (drop_hold_absent i a l Hx) as Hd. unfold drop_hold in Hd. by rewrite Hd.
  - unfold drop_hold in *. rewrite filter_cons. simpl. destruct (decide (x.1 = a)) as [Ha|Ha].
    + exfalso. apply Hx. rewrite Ha. apply list_elem_of_fmap. exists (a, v). split; [done|].
      apply list_elem_of_fmap. by exists (i, (a, v)).
    + rewrite decide_True by tauto. simpl. rewrite (IH Hnd Hin). constructor.
Qed.

Lemma owned_NoDup s h : Inv s h -> NoDup ((g_hold (gstate h)).*2.*1 ++ g_q (gstate h)).
Proof.
  intros [].
  assert ((map_to_list (g_heap (gstate h))).*1 ≡ₚ (g_hold (gstate h)).*2.*1 ++ g_q (gstate h)) as Hp.
  { rewrite iv_owned0, fmap_app. apply reflexive_eq. f_equal. clear.
    induction (g_q (gstate h)) as [|a q IH]; csimpl; [done|]. by f_equal. }
  rewrite <- Hp. apply NoDup_fst_map_to_list.
Qed.

Lemma held_in i a v g : (a, v) ∈ l_hold (local_of i g) -> (i, (a, v)) ∈ g_hold g.
Proof.
  simpl. unfold by_. intros ([j x] & Hx & [Hj Hin]%list_elem_of_filter)%list_elem_of_fmap.
  simpl in *. by subst.
Qed.

(** A thread holds an object once. *)
Lemma held_NoDup s h i : Inv s h -> NoDup (l_hold (local_of i (gstate h))).*1.
Proof.
  intros HI. pose proof (owned_NoDup s h HI) as Hnd. apply list.NoDup_app in Hnd as (Hnd & _ & _).
  simpl. unfold by_. eapply sublist_NoDup; [exact Hnd|].
  do 2 apply fmap_sublist. apply sublist_filter.
Qed.

Lemma Forall_drop_hold (Q : nat * (Z * Z) -> Prop) i a l : Forall Q l -> Forall Q (drop_hold i a l).
Proof.
  intros Hl. apply list.Forall_forall. intros x [_ Hx]%list_elem_of_filter.
  by apply (proj1 (list.Forall_forall _ _) Hl).
Qed.

Lemma owned_hold s h i a v :
  Inv s h -> (a, v) ∈ l_hold (local_of i (gstate h)) ->
  (g_hold (gstate h)).*2 ≡ₚ (a, v) :: (drop_hold i a (g_hold (gstate h))).*2 /\
  (a ∉ g_q (gstate h)) /\ i ∈ 0%nat :: (conss ++ prods).
Proof.
  intros HI Hin. pose proof (owned_NoDup s h HI) as Hnd. apply held_in in Hin as Hin'.
  apply list.NoDup_app in Hnd as (Hnd & Hdis & _). split; [by apply drop_hold_perm|]. split.
  - apply Hdis. apply list_elem_of_fmap. exists (a, v). split; [done|]. apply list_elem_of_fmap. by exists (i, (a, v)).
  - exact (proj1 (list.Forall_forall _ _) (iv_hold _ _ HI) _ Hin').
Qed.

Lemma lookup_total_Some (m : gmap Z Z) a v : m !! a = Some v -> m !!! a = v.
Proof. apply lookup_total_correct. Qed.

Lemma Inv_new_object (fresh : gmap Z Z -> Z) s h i v :
  (forall m : gmap Z Z, m !! fresh m = None /\ fresh m <> 0) ->
  Inv s h -> i ∉ g_fin (gstate h) -> i ∈ 0%nat :: (conss ++ prods) ->
  Inv (new_u64 fresh v s).1 (h ++ [HLin i (inl (New (fresh (heap s)) v))]).
Proof.
  intros Hfresh HI Hi Hr. set (a := fresh (heap s)).
  assert (g_heap (gstate h) !! a = None) as Ha by (rewrite <- (iv_heap _ _ HI); apply Hfresh).
  assert (forall x, x ∈ g_q (gstate h) -> <[a := v]> (g_heap (gstate h)) !!! x = g_heap (gstate h) !!! x) as Hq.
  { intros x Hx. pose proof (queued_value s h x HI Hx) as Hv. rewrite lookup_total_insert_ne; [done|].
    intros <-. congruence. }
  assert (a <> 0) as Ha0 by apply Hfresh.
  event_inv HI i (inl (New a v) : gev wev) h.
  - unfold a. by rewrite Hheap.
  - rewrite Hvalues. f_equal. apply list_fmap_ext. intros k x Hx. symmetry. apply Hq. by apply list_elem_of_lookup_2 in Hx.
  - rewrite map_to_list_insert by done. rewrite fmap_app, Howned. simpl.
    rewrite <- app_assoc. simpl. rewrite <- Permutation_middle. constructor. apply reflexive_eq. f_equal.
    apply list_fmap_ext. intros k x Hx. f_equal. symmetry. apply Hq. by apply list_elem_of_lookup_2 in Hx.
  - by rewrite lookup_insert_ne.
  - apply Forall_app_2; [done|]. by constructor.
Qed.

Lemma Inv_delete s h i a v :
  Inv s h -> i ∉ g_fin (gstate h) -> (a, v) ∈ l_hold (local_of i (gstate h)) ->
  Inv (delete_u64 a s).1 (h ++ [HLin i (inl (Delete a))]).
Proof.
  intros HI Hi Hh. destruct (owned_hold s h i a v HI Hh) as (Hp & Hq & _).
  pose proof (held_value s h i a v HI Hh) as Hv.
  assert (delete_u64 a s = (set_heap (delete a (heap s)) s, true)) as ->.
  { unfold delete_u64. by rewrite (iv_heap _ _ HI), Hv. }
  assert (forall x, x ∈ g_q (gstate h) -> delete a (g_heap (gstate h)) !!! x = g_heap (gstate h) !!! x) as Hqv.
  { intros x Hx. rewrite lookup_total_delete_ne; [done|]. intros <-. done. }
  event_inv HI i (inl (Delete a) : gev wev) h.
  - by rewrite Hheap.
  - rewrite Hvalues. f_equal. apply list_fmap_ext. intros k x Hx. symmetry. apply Hqv. by apply list_elem_of_lookup_2 in Hx.
  - rewrite Hp in Howned. simpl in Howned. rewrite <- (insert_delete_id hp a v Hv) in Howned at 1.
    rewrite map_to_list_insert in Howned by apply lookup_delete_eq. apply Permutation_cons_inv in Howned.
    rewrite Howned. apply reflexive_eq. f_equal.
    apply list_fmap_ext. intros k x Hx. f_equal. symmetry. apply Hqv. by apply list_elem_of_lookup_2 in Hx.
  - by rewrite lookup_delete_None; right.
  - by apply Forall_drop_hold.
Qed.

(** A producer puts in a task, [main] a stop value. *)
Lemma Inv_put s h i a v :
  Inv s h -> i ∉ g_fin (gstate h) -> (a, v) ∈ l_hold (local_of i (gstate h)) ->
  (i ∈ prods /\ v <> kStopValue /\ prefix (l_in (local_of i (gstate h)) ++ [v]) (ids (i - S consumers))) \/
  (i = 0%nat /\ v = kStopValue /\ forall j, j ∈ prods -> j ∈ g_fin (gstate h)) ->
  Inv s (h ++ [HLin i (inr (Put a))]).
Proof.
  intros HI Hi Hh Hrole. destruct (owned_hold s h i a v HI Hh) as (Hp & Hq & _).
  pose proof (lookup_total_Some _ _ _ (held_value s h i a v HI Hh)) as Hv.
  event_inv HI i (inr (Put a) : gev wev) h.
  - rewrite puts_snoc, takes_snoc, Hqueue, app_nil_r. by rewrite app_assoc.
  - rewrite !fmap_app, Hvalues. simpl. by rewrite app_assoc.
  - rewrite Howned, Hp, fmap_app. simpl. rewrite Hv, app_assoc, <- Permutation_cons_append. done.
  - destruct Hin as (ts & j & -> & Hts & Hj). rewrite Hv. destruct Hrole as [(Hir & Hne & _)|(-> & -> & Hall)].
    + assert (j = 0%nat) as ->.
      { destruct (decide (j = 0%nat)); [done|]. by destruct Hi; apply Hj. }
      exists (ts ++ [(i, v)]), 0%nat. simpl. rewrite !app_nil_r. split_and!; [done| |done].
      apply Forall_app_2; [done|]. by repeat constructor.
    + exists ts, (S j). rewrite <- app_assoc. split_and!; [|done|done].
      by rewrite <- (replicate_cons_app j).
  - by apply Forall_drop_hold.
  - intros j Hj. rewrite by_app, Hv. destruct (decide (j = i)) as [->|Hji]; [|by rewrite by_other, app_nil_r; auto].
    rewrite by_own. destruct Hrole as [(_ & _ & Hpre)|(-> & _)]; [done|].
    unfold prods in Hj. apply elem_of_seq in Hj. lia.
Qed.

(** The queue gives out its oldest object. *)
Lemma take_front s h i a :
  Inv s h -> prefix (takes (g_views (h ++ [HLin i (inr (Take a))]))) (puts (g_views (h ++ [HLin i (inr (Take a))]))) ->
  g_q (gstate h) = a :: tail (g_q (gstate h)).
Proof.
  intros [] [l Hl]. rewrite views_queue, puts_snoc, takes_snoc, app_nil_r, iv_queue0, <- app_assoc in Hl.
  apply app_inv_head in Hl. rewrite Hl. done.
Qed.

Lemma Inv_take s h i a :
  Inv s h -> i ∉ g_fin (gstate h) -> i ∈ conss -> g_q (gstate h) = a :: tail (g_q (gstate h)) ->
  Inv s (h ++ [HLin i (inr (Take a))]) /\ a <> 0.
Proof.
  intros HI Hi Hc Hq. split.
  - event_inv HI i (inr (Take a) : gev wev) h.
    + rewrite puts_snoc, takes_snoc, Hqueue, app_nil_r, <- app_assoc. simpl. by rewrite <- Hq.
    + rewrite Hvalues, fmap_app, <- app_assoc. f_equal. rewrite Hq at 1. done.
    + rewrite Howned, fmap_app, <- app_assoc. rewrite Hq at 1. done.
    + apply Forall_app_2; [done|]. by constructor.
    + apply Forall_app_2; [done|]. constructor; [|done]. simpl. right. apply elem_of_app. by left.
    + intros j. rewrite by_app. by apply prefix_app_r.
  - intros ->. pose proof (queued_value s h 0 HI) as Hv. rewrite (iv_null _ _ HI) in Hv.
    rewrite Hq in Hv. specialize (Hv ltac:(by left)). done.
Qed.

(** The last step of a thread. *)
Lemma Inv_finished s h i :
  Inv s h -> final i false (local_of i (gstate h)) -> i <> 0%nat ->
  Inv (finish i s).1 (h ++ [HLin i (inl Finished)]).
Proof.
  intros HI Hfin Hi0.
  assert (forall j, j ∈ g_fin (g_event i (inl Finished) (gstate h)) ->
    final j true (local_of j (g_event i (inl Finished) (gstate h)))) as HF.
  { intros j Hj. destruct (decide (j = i)) as [->|Hji].
    - rewrite local_own. destruct Hfin as [[Hp ->]|[(Hc & ws & Hws & ->)|[-> _]]]; [left|right; left|done];
        (split; [done|]); [done|by exists ws].
    - rewrite local_other by done. apply (iv_final _ _ HI).
      destruct (gstate h); simpl in *. by apply elem_of_cons in Hj as [->|]. }
  pose proof (iv_end _ _ HI) as HE0.
  assert (forall j, 0%nat ∈ g_fin (g_event i (inl Finished) (gstate h)) -> j ∈ conss ++ prods ->
    j ∈ g_fin (g_event i (inl Finished) (gstate h))) as HE.
  { intros j H0 Hj. destruct (gstate h); simpl in *. right. apply HE0; [|done]. apply elem_of_cons in H0 as [?|?]; [congruence|done]. }
  destruct HI as [Hheap Hcancel Hprod Hcons Hchk Hfn Hbad Hqueue Hvalues Howned Hnull Hin Hrel Hout Hrun Hcns Hchks Hhold Hmade Htook Hreal _ _].
  split; rewrite ?gstate_snoc, ?views_own; [..|exact HF|exact HE]; clear HF HE HE0 Hfin; destruct (gstate h); simpl in *; try done.
  - intros j [->|Hj]%elem_of_cons; [by left|right; auto].
  - destruct Hin as (ts & j & -> & Hts & Hj). exists ts, j. split_and!; [done|done|]. intros Hj0 k Hk. right. auto.
Qed.

(** The end of [main]. *)
Lemma Inv_end s h :
  Inv s h -> local_of 0 (gstate h) = main_end false -> (forall i, i ∈ conss ++ prods -> i ∈ g_fin (gstate h)) ->
  Inv s (h ++ [HLin 0 (inl End)]).
Proof.
  intros HI Hl Hall.
  assert (forall j, j ∈ g_fin (g_event 0 (inl End) (gstate h)) ->
    final j true (local_of j (g_event 0 (inl End) (gstate h)))) as HF.
  { intros j Hj. destruct (decide (j = 0%nat)) as [->|Hji].
    - rewrite local_own, Hl. right; right. done.
    - rewrite local_other by done. apply (iv_final _ _ HI).
      destruct (gstate h); simpl in *. by apply elem_of_cons in Hj as [->|]. }
  assert (forall j, 0%nat ∈ g_fin (g_event 0 (inl End) (gstate h)) -> j ∈ conss ++ prods ->
    j ∈ g_fin (g_event 0 (inl End) (gstate h))) as HE.
  { intros j H0 Hj. destruct (gstate h); simpl in *. right. auto. }
  destruct HI as [Hheap Hcancel Hprod Hcons Hchk Hfn Hbad Hqueue Hvalues Howned Hnull Hin Hrel Hout Hrun Hcns Hchks Hhold Hmade Htook Hreal _ _].
  split; rewrite ?gstate_snoc, ?views_own; [..|exact HF|exact HE]; clear HF HE Hl Hall; destruct (gstate h); simpl in *; try done.
  - intros j Hj. right; auto.
  - destruct Hin as (ts & j & -> & Hts & Hj). exists ts, j. split_and!; [done|done|]. intros Hj0 k Hk. right. auto.
Qed.

(** ** The totals *)

(** The values of all tasks. *)
Definition all_ids : list Z := concat (ids <$> seq 0 producers).

Lemma concat_ext {A B} (f g : A -> list B) s :
  (forall x, x ∈ s -> f x = g x) -> concat (f <$> s) = concat (g <$> s).
Proof.
  induction s as [|x s IH]; intros H; csimpl; [done|]. rewrite (H x) by (by left).
  f_equal. apply IH. intros y Hy. apply H. by right.
Qed.

Lemma length_concat_ext {A B C} (f : A -> list B) (g : A -> list C) s :
  (forall x, x ∈ s -> length (f x) = length (g x)) -> length (concat (f <$> s)) = length (concat (g <$> s)).
Proof.
  induction s as [|x s IH]; intros H; csimpl; [done|]. rewrite !length_app, (H x) by (by left).
  f_equal. apply IH. intros y Hy. apply H. by right.
Qed.

Lemma all_ids_prods : concat ((fun i => ids (i - S consumers)) <$> prods) = all_ids.
Proof.
  unfold all_ids, prods.
  assert (seq (S consumers) producers = Nat.add (S consumers) <$> seq 0 producers) as ->.
  { rewrite fmap_add_seq. f_equal. lia. }
  rewrite <- list_fmap_compose. apply concat_ext. intros p _. simpl. f_equal. lia.
Qed.

Definition stops (l : list Z) : list Z := filter (fun v => v = kStopValue) l.

Definition tasks (l : list Z) : list Z := filter (fun v => v <> kStopValue) l.

Lemma stops_none l : (kStopValue ∉ l) -> stops l = [] /\ tasks l = l.
Proof.
  unfold stops, tasks. induction l as [|v l IH]; [done|]. rewrite not_elem_of_cons. intros [Hv Hl].
  destruct (IH Hl) as [H1 H2]. rewrite !filter_cons, decide_False, decide_True, H1, H2 by congruence. done.
Qed.

Lemma stops_replicate n : stops (replicate n kStopValue) = replicate n kStopValue /\ tasks (replicate n kStopValue) = [].
Proof.
  unfold stops, tasks. induction n as [|n [IH1 IH2]]; [done|]. csimpl.
  rewrite !filter_cons, decide_True, decide_False by tauto. by rewrite IH1, IH2.
Qed.

Lemma stops_app l1 l2 : stops (l1 ++ l2) = stops l1 ++ stops l2.
Proof. apply list.filter_app. Qed.

Lemma tasks_app l1 l2 : tasks (l1 ++ l2) = tasks l1 ++ tasks l2.
Proof. apply list.filter_app. Qed.

#[local] Instance stops_Permutation : Proper ((≡ₚ) ==> (≡ₚ)) stops.
Proof. intros l l' Hl. unfold stops. by rewrite Hl. Qed.

#[local] Instance tasks_Permutation : Proper ((≡ₚ) ==> (≡ₚ)) tasks.
Proof. intros l l' Hl. unfold tasks. by rewrite Hl. Qed.

(** ** What has been processed so far *)

Lemma tasks_submseteq l1 l2 : l1 ⊆+ l2 -> tasks l1 ⊆+ tasks l2.
Proof. intros (l & ->)%submseteq_Permutation. rewrite tasks_app. by apply submseteq_inserts_r. Qed.

Lemma stops_by_other i j : i <> 0%nat -> by_ i (replicate j (0%nat, kStopValue)) = [].
Proof. intros Hi. induction j as [|j IH]; [done|]. csimpl. by rewrite by_cons, decide_False. Qed.

(** At every moment each task was processed at most once, and nothing else was. *)
Lemma run_so_far s h : Inv s h -> (g_run (gstate h)).*2 ⊆+ all_ids.
Proof.
  intros HI. destruct (iv_in _ _ HI) as (ts & j & Hin & Hts & _).
  assert (Forall (fun x => x.1 ∈ prods) ts) as Hp by (eapply list.Forall_impl; [exact Hts|]; by intros x []).
  assert (kStopValue ∉ (g_run (gstate h)).*2) as Hr.
  { intros (x & Hx & Hxin)%list_elem_of_fmap. by apply (proj1 (list.Forall_forall _ _) (iv_real _ _ HI) x). }
  assert (kStopValue ∉ ts.*2) as Ht.
  { intros (x & Hx & Hxin)%list_elem_of_fmap. by destruct (proj1 (list.Forall_forall _ _) Hts x Hxin). }
  rewrite <- (proj2 (stops_none _ Hr)). trans (tasks (g_in (gstate h)).*2); [apply tasks_submseteq|].
  - rewrite (iv_values _ _ HI). apply submseteq_inserts_r.
    rewrite (by_all conss _ (NoDup_seq _ _) (iv_run _ _ HI)), (by_all conss _ (NoDup_seq _ _) (iv_out _ _ HI)).
    apply concat_prefix_submseteq. intros i _. apply (iv_took _ _ HI).
  - rewrite Hin, fmap_app, tasks_app, fmap_replicate. simpl. rewrite (proj2 (stops_replicate j)), app_nil_r, (proj2 (stops_none _ Ht)).
    rewrite (by_all prods ts (NoDup_seq _ _) Hp), <- all_ids_prods. apply concat_prefix_submseteq. intros i Hi.
    pose proof (iv_made _ _ HI i Hi) as Hm. rewrite Hin, by_app, stops_by_other, app_nil_r in Hm; [done|].
    intros ->. unfold prods in Hi. apply elem_of_seq in Hi. lia.
Qed.

(** All threads are done. *)
Definition all_done (fin : list nat) : Prop := forall i, i ∈ conss ++ prods -> i ∈ fin.

Section totals.
Context (consumers_pos : (0 < consumers)%nat).
Context (sum_app : forall l1 l2, sum (l1 ++ l2) = op (sum l1) (sum l2)).
Context (sum_perm : forall l1 l2, l1 ≡ₚ l2 -> sum l1 = sum l2).
Context (s : wstate) (h : whist) (fin : bool).
Context (HI : Inv s h) (Hdone : all_done (g_fin (gstate h))).
Context (Hmain : local_of 0 (gstate h) = main_end fin).

Abbreviation g := (gstate h).

Lemma prod_local i : i ∈ prods -> local_of i g = prod_end i true.
Proof.
  intros Hi.
  destruct (iv_final _ _ HI i (Hdone i ltac:(apply elem_of_app; by right))) as [[_ ->]|[[Hc _]|[-> _]]]; [done| |].
  - unfold prods, conss in *. apply elem_of_seq in Hi, Hc. lia.
  - unfold prods in Hi. apply elem_of_seq in Hi. lia.
Qed.

Lemma cons_local i : i ∈ conss -> (kStopValue ∉ by_ i (g_run g)) /\ local_of i g = cons_end (by_ i (g_run g)) true.
Proof.
  intros Hi.
  destruct (iv_final _ _ HI i (Hdone i ltac:(apply elem_of_app; by left))) as [[Hp _]|[(_ & ws & Hws & Hl)|[-> _]]].
  - unfold prods, conss in *. apply elem_of_seq in Hi, Hp. lia.
  - assert (by_ i (g_run g) = ws) as -> by exact (f_equal l_run Hl). done.
  - unfold conss in Hi. apply elem_of_seq in Hi. lia.
Qed.

Lemma rel_total : length (g_rel g) = length all_ids.
Proof.
  rewrite <- (length_fmap snd), (Permutation_length (by_all prods _ (NoDup_seq _ _) (iv_rel _ _ HI))).
  rewrite <- all_ids_prods. apply length_concat_ext. intros i Hi. exact (f_equal l_rel (prod_local i Hi)).
Qed.

(** What was put in: the tasks, then the stop values. *)
Lemma in_total : exists ts, (g_in g).*2 = ts ++ replicate consumers kStopValue /\ ts ≡ₚ all_ids /\ (kStopValue ∉ ts).
Proof.
  destruct (iv_in _ _ HI) as (ts & j & Hin & Hts & _).
  assert (Forall (fun x => x.1 ∈ prods) ts) as Hp by (eapply list.Forall_impl; [exact Hts|]; by intros x []).
  assert (forall i, i <> 0%nat -> by_ i (replicate j (0%nat, kStopValue)) = []) as Hi0.
  { intros i Hi. clear Hin. induction j as [|j IH]; [done|]. csimpl. by rewrite by_cons, decide_False. }
  assert (by_ 0 (replicate j (0%nat, kStopValue)) = replicate j kStopValue) as H0.
  { clear Hin Hi0. induction j as [|j IH]; [done|]. csimpl. by rewrite by_cons, decide_True, IH. }
  assert (by_ 0 ts = []) as Ht0.
  { clear Hin Hts. induction ts as [|[i x] ts IH]; [done|]. apply Forall_cons in Hp as [Hi Hp].
    rewrite by_cons, decide_False; [auto|]. intros ->. unfold prods in Hi. apply elem_of_seq in Hi. simpl in Hi. lia. }
  assert (j = consumers) as ->.
  { pose proof (f_equal l_in Hmain) as Hm. simpl in Hm. rewrite Hin, by_app, Ht0, H0 in Hm.
    apply (f_equal length) in Hm. simpl in Hm. by rewrite !length_replicate in Hm. }
  exists ts.*2. split_and!.
  - rewrite Hin, fmap_app. f_equal. by rewrite fmap_replicate.
  - rewrite (by_all prods ts (NoDup_seq _ _) Hp), <- all_ids_prods. apply reflexive_eq, concat_ext. intros i Hi.
    pose proof (f_equal l_in (prod_local i Hi)) as Hl. simpl in Hl. rewrite Hin, by_app, (Hi0 i), app_nil_r in Hl; [done|].
    intros ->. unfold prods in Hi. apply elem_of_seq in Hi. lia.
  - intros ([i v] & Hv & Hx)%list_elem_of_fmap. by destruct (proj1 (list.Forall_forall _ _) Hts _ Hx) as [_ []].
Qed.

(** What was taken out: everything. *)
Lemma out_perm : (g_out g).*2 ≡ₚ concat ((fun i => by_ i (g_run g) ++ [kStopValue]) <$> conss).
Proof.
  rewrite (by_all conss _ (NoDup_seq _ _) (iv_out _ _ HI)). apply reflexive_eq, concat_ext. intros i Hi.
  exact (f_equal l_out (proj2 (cons_local i Hi))).
Qed.

Lemma run_perm : (g_run g).*2 ≡ₚ concat ((fun i => by_ i (g_run g)) <$> conss).
Proof. apply (by_all conss _ (NoDup_seq _ _) (iv_run _ _ HI)). Qed.

Lemma concat_stops (f : nat -> list Z) l :
  (forall i, i ∈ l -> kStopValue ∉ f i) ->
  length (stops (concat ((fun i => f i ++ [kStopValue]) <$> l))) = length l /\
  tasks (concat ((fun i => f i ++ [kStopValue]) <$> l)) = concat (f <$> l).
Proof.
  induction l as [|i l IH]; intros Hf; [done|]. csimpl. rewrite !stops_app, !tasks_app.
  destruct (stops_none (f i)) as [-> ->]; [apply Hf; by left|].
  destruct IH as [IH1 ->]; [intros j Hj; apply Hf; by right|].
  destruct (stops_replicate 1) as [H1 H2]. simpl in H1, H2. rewrite H1, H2, app_nil_r.
  split; [by rewrite length_app, IH1|done].
Qed.

Lemma out_total : g_q g = [] /\ (g_run g).*2 ≡ₚ all_ids.
Proof.
  destruct in_total as (ts & Hin & Hts & Hns). pose proof (iv_values _ _ HI) as Hv. rewrite Hin in Hv.
  destruct (concat_stops (fun i => by_ i (g_run g)) conss) as [Hst Hta]; [intros i Hi; apply (cons_local i Hi)|].
  pose proof out_perm as Hout. destruct (stops_none ts Hns) as [Ht1 Ht2].
  destruct (stops_replicate consumers) as [Hr1 Hr2].
  set (rest := (fun a => g_heap g !!! a) <$> g_q g) in *.
  assert (kStopValue ∉ rest) as Hrest.
  { intros Hin'. apply (f_equal (length ∘ stops)) in Hv. simpl in Hv.
    rewrite !stops_app, !length_app, Ht1, Hr1, length_replicate, Hout, Hst in Hv. unfold conss in Hv.
    rewrite length_seq in Hv. simpl in Hv.
    assert (kStopValue ∈ stops rest) as Hf by (by apply list_elem_of_filter).
    destruct (stops rest); [by apply elem_of_nil in Hf|simpl in Hv; lia]. }
  assert (rest = []) as Hnil.
  { clearbody rest. destruct rest as [|x l _] using rev_ind; [done|]. exfalso. apply Hrest, elem_of_app. right.
    destruct consumers as [|n]; [lia|]. rewrite replicate_S_end, !app_assoc in Hv.
    apply app_inj_tail in Hv as [_ <-]. by left. }
  split; [by apply fmap_nil_inv in Hnil|].
  rewrite Hnil, app_nil_r in Hv. rewrite run_perm, <- Hta, <- Hout, <- Hv, tasks_app, Ht2, Hr2, app_nil_r. done.
Qed.

(** The shared counters. *)
Definition zsum (l : list Z) : Z := foldr Z.add 0 l.

Lemma foldl_add64 l a : foldl add64 (u64 a) l = u64 (a + zsum l).
Proof.
  revert a. induction l as [|x l IH]; intros a; simpl; [by rewrite Z.add_0_r|].
  assert (add64 (u64 a) x = u64 (a + x)) as -> by (unfold add64, u64; by rewrite Zplus_mod_idemp_l).
  rewrite IH. f_equal. lia.
Qed.

#[local] Instance zsum_Permutation : Proper ((≡ₚ) ==> (=)) zsum.
Proof. intros l l' Hl. unfold zsum. induction Hl; simpl; lia. Qed.

Lemma zsum_lengths (f : nat -> list Z) l :
  u64 (zsum (concat ((fun i => [u64 (Z.of_nat (length (f i)))]) <$> l))) = u64 (Z.of_nat (length (concat (f <$> l)))).
Proof.
  induction l as [|i l IH]; csimpl; [done|]. rewrite length_app, Nat2Z.inj_add. unfold u64 in *.
  rewrite Zplus_mod_idemp_l, <- Zplus_mod_idemp_r, IH, Zplus_mod_idemp_r. done.
Qed.

Lemma consumed_total : consumed s = u64 (Z.of_nat (length all_ids)).
Proof.
  rewrite (iv_consumed _ _ HI). change 0 with (u64 0). rewrite foldl_add64, Z.add_0_l.
  rewrite (by_all conss _ (NoDup_seq _ _) (iv_cons _ _ HI)).
  rewrite (concat_ext _ (fun i => [u64 (Z.of_nat (length (by_ i (g_run g))))])).
  - rewrite zsum_lengths, <- run_perm. do 2 f_equal. apply Permutation_length, out_total.
  - intros i Hi. exact (f_equal l_cons (proj2 (cons_local i Hi))).
Qed.

Lemma foldl_sums ls a : foldl op (sum a) (sum <$> ls) = sum (a ++ concat ls).
Proof.
  revert a. induction ls as [|l ls IH]; intros a; csimpl; [by rewrite app_nil_r|].
  by rewrite <- sum_app, IH, app_assoc.
Qed.

Lemma checksum_total : checksum s = sum all_ids.
Proof.
  rewrite (iv_checksum _ _ HI).
  assert ((g_chk g).*2 ≡ₚ sum <$> ((fun i => by_ i (g_run g)) <$> conss)) as Hp.
  { rewrite (by_all conss _ (NoDup_seq _ _) (iv_chk _ _ HI)). apply reflexive_eq.
    rewrite (concat_ext _ (fun i => [sum (by_ i (g_run g))])).
    - clear. induction conss as [|i l IH]; csimpl; [done|]. by rewrite IH.
    - intros i Hi. exact (f_equal l_chk (proj2 (cons_local i Hi))). }
  destruct (Permutation_map_inv _ _ Hp) as (ls & -> & Hls).
  change 0 with (sum []). etransitivity; [apply foldl_sums|]. apply sum_perm. simpl.
  rewrite <- Hls, <- run_perm. apply out_total.
Qed.

Lemma produced_total : produced s = u64 (Z.of_nat (length all_ids)).
Proof. by rewrite (iv_produced _ _ HI), rel_total. Qed.

Lemma threads_NoDup : NoDup (0%nat :: (conss ++ prods)).
Proof.
  assert (0%nat :: (conss ++ prods) = seq 0 (S (consumers + producers))) as ->; [|apply NoDup_seq].
  simpl. unfold conss, prods. by rewrite seq_app.
Qed.

Lemma heap_total : heap s = ∅.
Proof.
  rewrite (iv_heap _ _ HI). apply map_to_list_empty_iff, Permutation_nil_r.
  rewrite (iv_owned _ _ HI), (proj1 out_total), app_nil_r.
  rewrite (by_all _ _ threads_NoDup (iv_hold _ _ HI)). apply reflexive_eq.
  rewrite (concat_ext _ (fun _ => [])).
  - clear. induction (0%nat :: (conss ++ prods)); done.
  - intros i [->|[Hi|Hi]%elem_of_app]%elem_of_cons.
    + exact (f_equal l_hold Hmain).
    + exact (f_equal l_hold (proj2 (cons_local i Hi))).
    + exact (f_equal l_hold (prod_local i Hi)).
Qed.

End totals.

(** ** Rules for the accesses

    [know i lc M]: the part of thread [i] is [lc], and [M] holds of the threads that
    have finished; [M] stays true when more threads finish. *)

Definition mono (M : list nat -> Prop) : Prop :=
  forall f f', (forall x, x ∈ f -> x ∈ f') -> M f -> M f'.

Definition in_role (i : nat) (h : whist) : Prop :=
  exists o es, opview i h = Some (o, es) /\ role_of producers consumers i = Some o.

Definition know (i : nat) (lc : local) (M : list nat -> Prop) (s : wstate) (h : whist) : Prop :=
  in_role i h /\ local_of i (gstate h) = lc /\ M (g_fin (gstate h)).

Abbreviation G0 := (fun (_ : nat) (_ _ : wstate * whist) => True).
Abbreviation wok := (lok (fun _ h => started (role_of producers consumers) h) prefix).
Abbreviation W i p Q := (wp Inv G0 wok i (code p) Q).

Lemma stable_know i lc M : mono M -> stable Inv G0 i (know i lc M).
Proof.
  intros HM c c' (j & Hj & Hh & _) (Hr & Hl & HMf). split_and!.
  - unfold in_role. by rewrite (hist_step_view j i c.2 c'.2 Hh).
  - by rewrite (local_step i j c.2 c'.2 Hh Hj).
  - destruct Hh as (l & -> & _). eapply HM; [|exact HMf]. intros x. apply g_fin_app.
Qed.

Lemma know_unfinished i lc M s h : know i lc M s h -> l_fin lc = false -> i ∉ g_fin (gstate h).
Proof. intros (_ & Hl & _) Hf. apply unfinished. by rewrite Hl. Qed.

Lemma know_event i lc M s s' h e :
  mono M -> know i lc M s h -> know i (l_event (g_heap (gstate h)) e lc) M s' (h ++ [HLin i e]).
Proof.
  intros HM ((o & es & Hv & Hr) & <- & HMf). split; [|split; [by rewrite gstate_snoc, local_own|]].
  { exists o, (es ++ [e]). by rewrite opview_snoc, decide_True, Hv. }
  eapply HM; [|exact HMf]. intros x. apply g_fin_app.
Qed.

Lemma W_act {A} i lc M (X : Set) f ev (k : X -> prog wstate wev A) Q s h :
  mono M -> know i lc M s h ->
  (forall s h s2 x, know i lc M s h -> Inv s h -> f s = (s2, x) ->
     let h2 := h ++ (HLin i <$> (inl <$> ev x)) in Inv s2 h2 /\ W i (k x) Q (s2, h2)) ->
  W i (Act X f ev k) Q (s, h).
Proof.
  intros HM Hk Hnext. apply (wp_act _ _ _ _ (know i lc M)); [by apply stable_know|done|].
  intros s1 h1 s2 x Hk1 HI Hf _. unfold id in Hf. destruct (f s1) as [s1' y] eqn:Ef. injection Hf as -> ->.
  split; [done|]. by apply (Hnext s1 h1).
Qed.

Lemma W_load {A} i lc M (X : Set) (f : wstate -> X) (k : X -> prog wstate wev A) Q s h :
  mono M -> know i lc M s h ->
  (forall s h, know i lc M s h -> Inv s h -> W i (k (f s)) Q (s, h)) ->
  W i (bind (atomic (load f)) k) Q (s, h).
Proof.
  intros HM Hk Hnext. apply (W_act i lc M); [done|done|]. intros s1 h1 s2 x Hk1 HI [= <- <-]. simpl.
  rewrite app_nil_r. split; [done|]. by apply Hnext.
Qed.

(** A store that the invariant does not see. *)
Definition irrelevant (f : wstate -> wstate * unit) : Prop :=
  forall s h, Inv s h -> Inv (f s).1 h.

Lemma W_store {A} i lc M f (k : unit -> prog wstate wev A) Q s h :
  mono M -> irrelevant f -> know i lc M s h ->
  (forall s h, know i lc M s h -> Inv s h -> W i (k tt) Q (s, h)) ->
  W i (bind (atomic f) k) Q (s, h).
Proof.
  intros HM Hf Hk Hnext. apply (W_act i lc M); [done|done|]. intros s1 h1 s2 [] Hk1 HI Hf1. simpl.
  rewrite app_nil_r. pose proof (Hf s1 h1 HI) as HI2. rewrite Hf1 in HI2. split; [done|]. by apply Hnext.
Qed.

Lemma irrelevant_ready : irrelevant fetch_add_ready.
Proof. intros s h []. by split. Qed.

Lemma irrelevant_start : irrelevant store_start.
Proof. intros s h []. by split. Qed.

Lemma irrelevant_spawn : irrelevant spawn.
Proof. intros s h []. by split. Qed.

(** An access that emits one event of the thread. *)
Lemma W_event {A} i lc M (X : Set) f (e : wev) (x : X) (ev : X -> list wev) (k : X -> prog wstate wev A) Q s h :
  mono M -> know i lc M s h -> ev x = [e] ->
  (forall s h, know i lc M s h -> Inv s h -> (f s).2 = x /\ Inv (f s).1 (h ++ [HLin i (inl e)])) ->
  (forall s h hp, know i (l_event hp (inl e) lc) M s h -> Inv s h -> W i (k x) Q (s, h)) ->
  W i (bind (atomic_lin f ev) k) Q (s, h).
Proof.
  intros HM Hk Hev Hf Hnext. apply (W_act i lc M); [done|done|]. intros s1 h1 s2 y Hk1 HI Hf1.
  destruct (Hf s1 h1 Hk1 HI) as [Hx HI2]. rewrite Hf1 in Hx, HI2. simpl in Hx, HI2. subst y. rewrite Hev. csimpl.
  split; [done|]. eapply Hnext; [by apply (know_event i lc M s1)|done].
Qed.

Definition hold_local (lc : local) (l : list (Z * Z)) : local :=
  Local l (l_in lc) (l_out lc) (l_run lc) (l_rel lc) (l_cons lc) (l_chk lc) (l_fin lc).

Lemma W_new (fresh : gmap Z Z -> Z) (fresh_ok : forall m : gmap Z Z, m !! fresh m = None /\ fresh m <> 0)
    {A} i lc M v (k : Z -> prog wstate wev A) Q s h :
  mono M -> know i lc M s h -> l_fin lc = false -> i ∈ 0%nat :: (conss ++ prods) ->
  (forall a s h, a <> 0 -> know i (hold_local lc (l_hold lc ++ [(a, v)])) M s h -> Inv s h -> W i (k a) Q (s, h)) ->
  W i (bind (make_unique fresh v) k) Q (s, h).
Proof.
  intros HM Hk Hf Hr Hnext. apply (W_act i lc M); [done|done|]. intros s1 h1 s2 a Hk1 HI [= <- <-]. csimpl.
  pose proof (Inv_new_object fresh s1 h1 i v fresh_ok HI (know_unfinished _ _ _ _ _ Hk1 Hf) Hr) as HI2.
  split; [exact HI2|]. apply Hnext; [apply fresh_ok| |exact HI2].
  apply (know_event i lc M _ (set_heap (<[fresh (heap s1) := v]> (heap s1)) s1) _ (inl (New (fresh (heap s1)) v)) HM) in Hk1.
  by destruct lc.
Qed.

Lemma W_free {A} i lc M a v (k : bool -> prog wstate wev A) Q s h :
  mono M -> know i lc M s h -> l_fin lc = false -> (a, v) ∈ l_hold lc ->
  (forall s h, know i (hold_local lc (filter (fun x => x.1 <> a) (l_hold lc))) M s h -> Inv s h -> W i (k true) Q (s, h)) ->
  W i (bind (free a) k) Q (s, h).
Proof.
  intros HM Hk Hf Hh Hnext.
  apply (W_event i lc M bool (delete_u64 a) (Delete a) true); [done|done|done| |].
  - intros s1 h1 Hk1 HI. pose proof Hk1 as (_ & Hl & _). rewrite <- Hl in Hh. split.
    + unfold delete_u64. by rewrite (iv_heap _ _ HI), (held_value s1 h1 i a v HI Hh).
    + apply (Inv_delete s1 h1 i a v HI); [by apply (know_unfinished _ _ _ _ _ Hk1)|done].
  - intros s1 h1 hp Hk1 HI. apply Hnext; [|done]. by destruct lc.
Qed.

Lemma W_deref {A} i lc M a v (k : Z -> prog wstate wev A) Q s h :
  mono M -> know i lc M s h -> (a, v) ∈ l_hold lc ->
  (forall s h, know i lc M s h -> Inv s h -> W i (k v) Q (s, h)) ->
  W i (bind (deref a (fun _ => [])) k) Q (s, h).
Proof.
  intros HM Hk Hh Hnext. apply (W_act i lc M); [done|done|]. intros s1 h1 s2 x Hk1 HI [= <- <-].
  pose proof Hk1 as (_ & Hl & _). rewrite <- Hl in Hh.
  rewrite (iv_heap _ _ HI), (held_value s1 h1 i a v HI Hh). simpl. rewrite app_nil_r. split; [done|]. by apply Hnext.
Qed.

Definition run_local (lc : local) (v : Z) : local :=
  Local (l_hold lc) (l_in lc) (l_out lc) (l_run lc ++ [v]) (l_rel lc) (l_cons lc) (l_chk lc) (l_fin lc).

Lemma W_process {A} i lc M a v (k : Z -> prog wstate wev A) Q s h :
  mono M -> know i lc M s h -> l_fin lc = false -> i ∈ conss -> (a, v) ∈ l_hold lc ->
  v <> kStopValue -> prefix (l_run lc ++ [v]) (l_out lc) ->
  (forall s h, know i (run_local lc v) M s h -> Inv s h -> W i (k v) Q (s, h)) ->
  W i (bind (deref a (fun v => [Process v])) k) Q (s, h).
Proof.
  intros HM Hk Hf Hc Hh Hv Hpre Hnext. apply (W_act i lc M); [done|done|]. intros s1 h1 s2 x Hk1 HI [= <- <-].
  pose proof Hk1 as (_ & Hl & _). rewrite <- Hl in Hh, Hpre.
  rewrite (iv_heap _ _ HI), (held_value s1 h1 i a v HI Hh). csimpl.
  pose proof (Inv_process s1 h1 i v HI (know_unfinished _ _ _ _ _ Hk1 Hf) Hc Hv Hpre) as HI2. split; [done|].
  apply Hnext; [|done]. apply (know_event i lc M s1 s1 h1 (inl (Process v)) HM) in Hk1. by destruct lc.
Qed.

(** The additions to the shared counters. *)
Lemma W_produced {A} i lc M (k : unit -> prog wstate wev A) Q s h :
  mono M -> know i lc M s h -> l_fin lc = false -> i ∈ prods ->
  (forall s h, know i (Local (l_hold lc) (l_in lc) (l_out lc) (l_run lc) (S (l_rel lc)) (l_cons lc) (l_chk lc) (l_fin lc)) M s h ->
     Inv s h -> W i (k tt) Q (s, h)) ->
  W i (bind (atomic_lin fetch_add_produced (fun _ => [Produced])) k) Q (s, h).
Proof.
  intros HM Hk Hf Hi Hnext. apply (W_event i lc M unit fetch_add_produced Produced tt); [done|done|done| |].
  - intros s1 h1 Hk1 HI. split; [done|]. apply Inv_produced; [done|by apply (know_unfinished _ _ _ _ _ Hk1)|done].
  - intros s1 h1 hp Hk1 HI. apply Hnext; [|done]. by destruct lc.
Qed.

Lemma W_consumed {A} i lc M n (k : unit -> prog wstate wev A) Q s h :
  mono M -> know i lc M s h -> l_fin lc = false -> i ∈ conss ->
  (forall s h, know i (Local (l_hold lc) (l_in lc) (l_out lc) (l_run lc) (l_rel lc) (l_cons lc ++ [n]) (l_chk lc) (l_fin lc)) M s h ->
     Inv s h -> W i (k tt) Q (s, h)) ->
  W i (bind (atomic_lin (fetch_add_consumed n) (fun _ => [Consumed n])) k) Q (s, h).
Proof.
  intros HM Hk Hf Hi Hnext. apply (W_event i lc M unit (fetch_add_consumed n) (Consumed n) tt); [done|done|done| |].
  - intros s1 h1 Hk1 HI. split; [done|]. apply Inv_consumed; [done|by apply (know_unfinished _ _ _ _ _ Hk1)|done].
  - intros s1 h1 hp Hk1 HI. apply Hnext; [|done]. by destruct lc.
Qed.

Lemma W_checksum {A} i lc M x (k : unit -> prog wstate wev A) Q s h :
  mono M -> know i lc M s h -> l_fin lc = false -> i ∈ conss ->
  (forall s h, know i (Local (l_hold lc) (l_in lc) (l_out lc) (l_run lc) (l_rel lc) (l_cons lc) (l_chk lc ++ [x]) (l_fin lc)) M s h ->
     Inv s h -> W i (k tt) Q (s, h)) ->
  W i (bind (atomic_lin (fetch_op_checksum op x) (fun _ => [Checksum x])) k) Q (s, h).
Proof.
  intros HM Hk Hf Hi Hnext. apply (W_event i lc M unit (fetch_op_checksum op x) (Checksum x) tt); [done|done|done| |].
  - intros s1 h1 Hk1 HI. split; [done|]. apply Inv_checksum; [done|by apply (know_unfinished _ _ _ _ _ Hk1)|done].
  - intros s1 h1 hp Hk1 HI. apply Hnext; [|done]. by destruct lc.
Qed.

(** ** The threads *)

Context {CL PL : Type}.

(** What the part of a consumer and of a producer is at the labels of its loops. *)
Context (LC : CL -> local -> Prop) (LP : nat -> PL -> local -> Prop).

Definition put_local (v : Z) (lc : local) : local :=
  Local [] (l_in lc ++ [v]) (l_out lc) (l_run lc) (l_rel lc) (l_cons lc) (l_chk lc) (l_fin lc).

Definition take_local (a v : Z) (lc : local) : local :=
  Local (l_hold lc ++ [(a, v)]) (l_in lc) (l_out lc ++ [v]) (l_run lc) (l_rel lc) (l_cons lc) (l_chk lc) (l_fin lc).

(** [main] after [k] stop values. *)
Definition main_at (k : nat) : local := Local [] (replicate k kStopValue) [] [] 0 [] [] false.

Fixpoint LL (i : nat) (l : wlabel CL PL) (lc : local) : Prop :=
  match l with
  | MSpawn | MReady => i = 0%nat /\ lc = main_at 0
  | MJoinProducers p => i = 0%nat /\ (p <= producers)%nat /\ lc = main_at 0
  | MStop k => i = 0%nat /\ (k <= consumers)%nat /\ lc = main_at k
  | MStopSent k _ => i = 0%nat /\ (k < consumers)%nat /\ lc = main_at (S k)
  | MJoinConsumers c => i = 0%nat /\ (c <= consumers)%nat /\ lc = main_end false
  | WStart self l | WGate self l => i = self /\ LL i l lc
  | WEnd self => i = self /\ i <> 0%nat /\ final i false lc
  | Spin self raw after =>
      i = self /\ exists v, l_hold lc = [(raw, v)] /\
        ((i ∈ prods /\ v <> kStopValue /\ prefix (l_in lc ++ [v]) (ids (i - S consumers))) \/
         (i = 0%nat /\ v = kStopValue)) /\ LL i after (put_local v lc)
  | InConsumer self l => i = self /\ i ∈ conss /\ LC l lc
  | InProducer self l => i = self /\ i ∈ prods /\ LP i l lc
  end.

(** What is known of the threads that have finished. *)
Definition all_prods (fin : list nat) : Prop := forall i, i ∈ prods -> i ∈ fin.

Fixpoint MF (l : wlabel CL PL) (fin : list nat) : Prop :=
  match l with
  | MJoinProducers p => forall q, (q < p)%nat -> producer_thread consumers q ∈ fin
  | MStop _ | MStopSent _ _ => all_prods fin
  | MJoinConsumers c => all_prods fin /\ forall q, (q < c)%nat -> consumer_thread q ∈ fin
  | WStart _ l | WGate _ l => MF l fin
  | Spin self _ after => MF after fin /\ (self = 0%nat -> all_prods fin)
  | _ => True
  end.

Lemma mono_MF l : mono (MF l).
Proof.
  intros f f' Hf. induction l; simpl; unfold all_prods; naive_solver.
Qed.

Lemma mono_True : mono (fun _ => True).
Proof. done. Qed.

Definition LI (i : nat) (l : wlabel CL PL) (s : wstate) (h : whist) : Prop :=
  exists lc, know i lc (MF l) s h /\ l_fin lc = false /\ LL i l lc.

(** Inside [enqueue] and inside [dequeue]. *)
Definition Enq (i : nat) (p : Z) (k : bool -> wlabel CL PL) (b : bool) (s : wstate) (h : whist) : Prop :=
  exists after, k = (fun ok => if ok then after else Spin i p after) /\ LI i (k b) s h.

Definition Deq (i : nat) (k : Z -> wlabel CL PL) (r : option Z) (s : wstate) (h : whist) : Prop :=
  exists lc cl, k = (fun raw => InConsumer i (cl raw)) /\ l_fin lc = false /\ i ∈ conss /\
    LC (cl 0) lc /\ (forall p v, p <> 0 -> LC (cl p) (take_local p v lc)) /\
    match r with
    | None => know i lc (fun _ => True) s h
    | Some p => p <> 0 /\ exists v, know i (take_local p v lc) (fun _ => True) s h
    end.

(** The result of [main]. *)
Definition wgood (total : Z) (o : role) (es : list (gev wev)) (r : wres) : Prop :=
  match o with
  | Main => inl End ∈ es /\ r = Exit (if total =? u64 (Z.of_nat (length all_ids)) then 0 else 1)
      (u64 (Z.of_nat (length all_ids))) (u64 (Z.of_nat (length all_ids))) (sum all_ids)
  | _ => True
  end.

Lemma stable_label i l : stable Inv G0 i (LI i l).
Proof.
  intros c c' Hr (lc & Hk & Hf & HL). exists lc. split; [|done].
  by apply (stable_know i lc (MF l) (mono_MF l) c).
Qed.

Lemma stable_Enq i p k b : stable Inv G0 i (Enq i p k b).
Proof. intros c c' Hr (after & Hk & HL). exists after. split; [done|]. by apply (stable_label i (k b) c). Qed.

Lemma stable_Deq i k r : stable Inv G0 i (Deq i k r).
Proof.
  intros c c' Hr (lc & cl & Hk & Hf & Hi & H0 & Hp & H). exists lc, cl. split_and!; try done.
  destruct r as [p|].
  - destruct H as (Hp0 & v & H). split; [done|]. exists v.
    by apply (stable_know i _ _ mono_True c).
  - by apply (stable_know i _ _ mono_True c).
Qed.

(** The end of a block that jumps. *)
Lemma W_jump total i l lc M s h :
  (forall f, M f -> MF l f) -> mono M -> know i lc M s h -> l_fin lc = false -> LL i l lc ->
  W i (jump l) (Qnext LI Enq Deq (wgood total) i) (s, h).
Proof.
  intros HM _ (Hr & Hl & Hf) Hfin HL. apply (wp_ret _ _ _ i (Jump l)); [apply stable_label|].
  exists lc. split; [|done]. split_and!; auto.
Qed.

Lemma producer_in i : i ∈ prods -> i ∈ 0%nat :: (conss ++ prods).
Proof. intros Hi. right. apply elem_of_app. by right. Qed.

Lemma spin_MF i raw (l : wlabel CL PL) f :
  i ∈ prods -> MF l f -> MF (Spin i raw l) f.
Proof. intros Hi Hl. split; [done|]. intros ->. unfold prods in Hi. apply elem_of_seq in Hi. lia. Qed.

(** ** The code of the threads *)

Section outline.
Context (fresh : gmap Z Z -> Z) (total : Z) (consumer_start : CL) (producer_start : nat -> PL).
Context (consumer_body : nat -> CL -> block CL PL) (producer_body : nat -> PL -> block CL PL).
Context (fresh_ok : forall m : gmap Z Z, m !! fresh m = None /\ fresh m <> 0).
Context (consumers_pos : (0 < consumers)%nat).
Context (sum_app : forall l1 l2, sum (l1 ++ l2) = op (sum l1) (sum l2)).
Context (sum_perm : forall l1 l2, l1 ≡ₚ l2 -> sum l1 = sum l2).

Abbreviation Qn := (Qnext LI Enq Deq (wgood total)).

Context (consumer_ok : forall i l lc s h,
  know i lc (fun _ => True) s h -> l_fin lc = false -> i ∈ conss -> LC l lc -> Inv s h ->
  W i (consumer_body i l) (Qn i) (s, h)).
Context (producer_ok : forall i l lc s h,
  know i lc (fun _ => True) s h -> l_fin lc = false -> i ∈ prods -> LP i l lc -> Inv s h ->
  W i (producer_body i l) (Qn i) (s, h)).
Context (consumer_start_ok : LC consumer_start l_start).
Context (producer_start_ok : forall p, (p < producers)%nat -> LP (producer_thread consumers p) (producer_start p) l_start).

Lemma W_spin i raw after lc s h :
  know i lc (MF (Spin i raw after)) s h -> l_fin lc = false -> LL i (Spin i raw after) lc ->
  W i (enqueue_spin i raw after) (Qn i) (s, h).
Proof.
  intros Hk Hf HL. apply (W_load i lc _ _ _ _ _ _ _ (mono_MF (Spin i raw after)) Hk). clear s h Hk. intros s h Hk HI.
  rewrite (iv_cancel _ _ HI). apply (wp_ret _ _ _ i (Enqueue i raw _)); [apply stable_Enq|].
  exists after. split; [done|]. by exists lc.
Qed.

(** [t.join()]: the thread is among those that have finished. *)
Lemma W_join j (again after : wlabel CL PL) lc s h :
  know 0 lc (MF again) s h -> l_fin lc = false -> LL 0 again lc -> LL 0 after lc ->
  (forall f, MF again f -> j ∈ f -> MF after f) ->
  W 0 (main_join j again after) (Qn 0%nat) (s, h).
Proof.
  intros Hk Hf HL HL' Hj. apply (W_load 0 lc _ _ _ _ _ _ _ (mono_MF again) Hk). clear s h Hk. intros s h Hk HI.
  case_bool_decide as Hin.
  - apply (W_jump total 0 after lc (fun f => MF again f /\ j ∈ f)); [intros f [? ?]; auto| | |done|done].
    + intros f f' Hff' [HM Hjf]. split; [by apply (mono_MF again f)|auto].
    + destruct Hk as (Hr & Hl & HM). split_and!; [done|done|done|]. by apply (iv_finished _ _ HI).
  - by apply (W_jump total 0 again lc (MF again)); [|apply mono_MF|..].
Qed.

Lemma main_thread_in : 0%nat ∈ 0%nat :: (conss ++ prods).
Proof. by left. Qed.

Lemma W_stop k lc s h :
  know 0 lc (MF (MStop k)) s h -> LL 0 (MStop k) lc -> W 0 (main_stop fresh consumers k) (Qn 0%nat) (s, h).
Proof.
  intros Hk (_ & Hkc & ->). unfold main_stop. destruct (Nat.ltb_spec k consumers) as [Hlt|Hge].
  - apply (W_new fresh fresh_ok 0 (main_at k) _ _ _ _ _ _ (mono_MF (MStop k)) Hk); [done|apply main_thread_in|].
    clear s h Hk. intros a s h Ha Hk HI.
    eapply (W_jump total 0 _ _ (MF (MStop k))); [|apply mono_MF|exact Hk|done|].
    + intros f Hp. by split.
    + split; [done|]. exists kStopValue. split_and!; [done|by right|]. split_and!; [done|done|].
      unfold main_at, put_local. simpl. by rewrite <- replicate_S_end.
  - eapply (W_jump total 0 _ _ (MF (MStop k))); [|apply mono_MF|exact Hk|done|].
    + intros f Hp. split; [done|]. intros q Hq. lia.
    + assert (k = consumers) as -> by lia. split_and!; [done|lia|done].
Qed.

Lemma W_stop_sent k raw lc s h :
  know 0 lc (MF (MStopSent k raw)) s h -> LL 0 (MStopSent k raw) lc ->
  W 0 (main_stop_sent k raw) (Qn 0%nat) (s, h).
Proof.
  intros Hk (_ & Hkc & ->). apply (W_load 0 _ _ _ _ _ _ _ _ (mono_MF (MStopSent k raw)) Hk). clear s h Hk.
  intros s h Hk HI. rewrite (iv_cancel _ _ HI).
  apply (W_jump total 0 (MStop (S k)) (main_at (S k)) (MF (MStopSent k raw))); [done|apply mono_MF|exact Hk|done|].
  split_and!; [done|lia|done].
Qed.

(** The report: the three counters are final. *)
Lemma done_all f : MF (MJoinConsumers consumers) f -> all_done f.
Proof.
  intros [Hp Hc] i [Hi|Hi]%elem_of_app; [|auto]. unfold conss in Hi. apply elem_of_seq in Hi.
  destruct i as [|q]; [lia|]. apply Hc. lia.
Qed.

Lemma mono_done : mono all_done.
Proof. unfold mono, all_done. auto. Qed.

Lemma W_report s h :
  know 0 (main_end false) all_done s h -> W 0 (main_report total) (Qn 0%nat) (s, h).
Proof.
  intros Hk. apply (W_load 0 _ _ _ _ _ _ _ _ mono_done Hk). clear s h Hk. intros s h Hk HI.
  destruct Hk as (Hr & Hl & Hd). rewrite (produced_total consumers_pos s h HI Hd).
  assert (know 0 (main_end false) all_done s h) as Hk by done. clear HI Hr Hl Hd.
  apply (W_load 0 _ _ _ _ _ _ _ _ mono_done Hk). clear s h Hk. intros s h Hk HI.
  destruct Hk as (Hr & Hl & Hd). rewrite (consumed_total consumers_pos s h false HI Hd Hl).
  assert (know 0 (main_end false) all_done s h) as Hk by done. clear HI Hr Hl Hd.
  apply (W_act 0 _ _ _ _ _ _ _ _ _ mono_done Hk). clear s h Hk. intros s h s2 x (Hr & Hl & Hd) HI [= <- <-]. csimpl.
  split; [by apply Inv_end|]. rewrite (checksum_total consumers_pos sum_app sum_perm s h false HI Hd Hl).
  apply (wp_ret _ _ _ 0 (Done _)); [apply stable_post|]. destruct Hr as (o & es & Hv & Ho). injection Ho as <-.
  exists Main, (es ++ [inl End]). rewrite opview_snoc, decide_True, Hv by done. split; [done|]. split.
  - apply elem_of_app. right. by left.
  - f_equal. rewrite (Z.eqb_sym total). by destruct (_ =? _).
Qed.

Lemma W_thread_start i l lc s h :
  know i lc (MF l) s h -> l_fin lc = false -> LL i l lc -> W i (thread_start i l) (Qn i) (s, h).
Proof.
  intros Hk Hf HL. apply (W_load i lc _ _ _ _ _ _ _ (mono_MF l) Hk). clear s h Hk. intros s h Hk HI.
  destruct (_ <=? _)%nat.
  - apply (W_store i lc _ _ _ _ _ _ (mono_MF l) irrelevant_ready Hk). clear s h Hk HI. intros s h Hk HI.
    by apply (W_jump total i (WGate i l) lc (MF l)); [|apply mono_MF|..].
  - by apply (W_jump total i (WStart i l) lc (MF l)); [|apply mono_MF|..].
Qed.

Lemma W_thread_gate i l lc s h :
  know i lc (MF l) s h -> l_fin lc = false -> LL i l lc -> W i (thread_gate i l) (Qn i) (s, h).
Proof.
  intros Hk Hf HL. apply (W_load i lc _ _ _ _ _ _ _ (mono_MF l) Hk). clear s h Hk. intros s h Hk HI.
  destruct (start_ s).
  - by apply (W_jump total i l lc (MF l)); [|apply mono_MF|..].
  - by apply (W_jump total i (WGate i l) lc (MF l)); [|apply mono_MF|..].
Qed.

Lemma role_main o : role_of producers consumers 0 = Some o -> o = Main.
Proof. by intros [= <-]. Qed.

Lemma role_other i o : i <> 0%nat -> role_of producers consumers i = Some o -> o <> Main.
Proof.
  intros Hi. unfold role_of. destruct (Nat.eqb_spec i 0); [done|].
  destruct (_ <=? _)%nat; [by intros [= <-]|]. by destruct (_ <=? _)%nat; [intros [= <-]|].
Qed.

Lemma W_thread_end i lc s h :
  know i lc (fun _ => True) s h -> i <> 0%nat -> final i false lc -> W i (thread_end i) (Qn i) (s, h).
Proof.
  intros Hk Hi Hfin. apply (W_act i lc _ _ _ _ _ _ _ _ mono_True Hk). clear s h Hk.
  intros s h s2 x (Hr & Hl & _) HI [= <- <-]. csimpl.
  split; [apply (Inv_finished s h i HI); [by rewrite Hl|done]|].
  apply (wp_ret _ _ _ i (Done _)); [apply stable_post|]. destruct Hr as (o & es & Hv & Ho).
  exists o, (es ++ [inl Finished]). rewrite opview_snoc, decide_True, Hv by done. split; [done|].
  pose proof (role_other i o Hi Ho). by destruct o.
Qed.

Lemma W_main_spawn s h :
  know 0 (main_at 0) (fun _ => True) s h -> W 0 (main_spawn producers consumers) (Qn 0%nat) (s, h).
Proof.
  intros Hk. apply (W_load 0 _ _ _ _ _ _ _ _ mono_True Hk). clear s h Hk. intros s h Hk HI.
  destruct (_ <? _)%nat.
  - apply (W_store 0 _ _ _ _ _ _ _ mono_True irrelevant_spawn Hk). clear s h Hk HI. intros s h Hk HI.
    by apply (W_jump total 0 MSpawn (main_at 0) (fun _ => True)).
  - by apply (W_jump total 0 MReady (main_at 0) (fun _ => True)).
Qed.

Lemma W_main_ready s h :
  know 0 (main_at 0) (fun _ => True) s h -> W 0 (main_ready producers consumers) (Qn 0%nat) (s, h).
Proof.
  intros Hk. apply (W_load 0 _ _ _ _ _ _ _ _ mono_True Hk). clear s h Hk. intros s h Hk HI.
  destruct (negb _).
  - by apply (W_jump total 0 MReady (main_at 0) (fun _ => True)).
  - apply (W_store 0 _ _ _ _ _ _ _ mono_True irrelevant_start Hk). clear s h Hk HI. intros s h Hk HI.
    apply (W_jump total 0 (MJoinProducers 0) (main_at 0) (fun _ => True)); [|done|done|done|].
    + intros f _ q Hq. lia.
    + split_and!; [done|lia|done].
Qed.

Lemma W_join_producers p s h :
  know 0 (main_at 0) (MF (MJoinProducers p)) s h -> (p <= producers)%nat ->
  W 0 (main_join_producers producers consumers p) (Qn 0%nat) (s, h).
Proof.
  intros Hk Hp. unfold main_join_producers. destruct (Nat.ltb_spec p producers).
  - apply (W_join _ _ _ (main_at 0)); [done|done|split_and!; [done|lia|done]..|].
    intros f Hf Hj q Hq. destruct (decide (q = p)) as [->|]; [done|]. apply Hf. lia.
  - apply (W_jump total 0 (MStop 0) (main_at 0) (MF (MJoinProducers p))); [|apply mono_MF|done|done|].
    + intros f Hf i Hi. unfold prods in Hi. apply elem_of_seq in Hi.
      specialize (Hf (i - S consumers)%nat ltac:(lia)). unfold producer_thread in Hf.
      by replace (S (consumers + (i - S consumers))) with i in Hf by lia.
    + split_and!; [done|lia|done].
Qed.

Lemma W_join_consumers c s h :
  know 0 (main_end false) (MF (MJoinConsumers c)) s h -> (c <= consumers)%nat ->
  W 0 (main_join_consumers consumers total c) (Qn 0%nat) (s, h).
Proof.
  intros Hk Hc. unfold main_join_consumers. destruct (Nat.ltb_spec c consumers).
  - apply (W_join _ _ _ (main_end false)); [done|done|split_and!; [done|lia|done]..|].
    intros f [Hp Hf] Hj. split; [done|]. intros q Hq. destruct (decide (q = c)) as [->|]; [done|]. apply Hf. lia.
  - assert (c = consumers) as -> by lia. apply W_report. destruct Hk as (Hr & Hl & HM). split_and!; [done|done|].
    by apply done_all.
Qed.

Lemma worker_code i l s h :
  LI i l s h -> Inv s h ->
  W i (worker_body fresh producers consumers total consumer_body producer_body l) (Qn i) (s, h).
Proof.
  intros (lc & Hk & Hf & HL) HI. destruct l; simpl in HL |- *.
  - destruct HL as [-> ->]. by apply W_main_spawn.
  - destruct HL as [-> ->]. by apply W_main_ready.
  - destruct HL as (-> & Hp & ->). by apply W_join_producers.
  - pose proof HL as (-> & _). by apply (W_stop i0 lc).
  - pose proof HL as (-> & _). by apply (W_stop_sent i0 raw lc).
  - destruct HL as (-> & Hp & ->). by apply W_join_consumers.
  - destruct HL as [-> HL]. by apply (W_thread_start self l lc).
  - destruct HL as [-> HL]. by apply (W_thread_gate self l lc).
  - destruct HL as (-> & Hi & HL). by apply (W_thread_end self lc).
  - pose proof HL as (-> & _). by apply (W_spin self raw l lc).
  - destruct HL as (-> & Hi & HL). by apply (consumer_ok self l lc).
  - destruct HL as (-> & Hi & HL). by apply (producer_ok self l lc).
Qed.

(** [main] has reached its end. *)
Lemma main_ended (Q : queue_impl) q_view (h : list (hev (event Q (E := wev)) role wres)) es r :
  started (role_of producers consumers) (ghost Q q_view h) -> (Main, es, r) ∈ completed h ->
  inl End ∈ omap (cview Q q_view) es -> 0%nat ∈ g_fin (gstate (ghost Q q_view h)).
Proof.
  intros Hst Hin He. destruct (started_completed Q q_view _ _ _ _ _ Hst Hin) as (i & Hr & Hes).
  assert (i = 0%nat) as ->.
  { unfold role_of in Hr. destruct (Nat.eqb_spec i 0); [done|].
    destruct (_ <=? _)%nat; [done|]. by destruct (_ <=? _)%nat. }
  apply Hes in He as (h1 & h2 & Hh)%list_elem_of_split.
  rewrite Hh, (cons_middle (HLin 0 _)), app_assoc. apply g_fin_app. rewrite gstate_snoc.
  destruct (gstate h1). by left.
Qed.

(** ** The outline *)

Lemma started_last h i o : started (role_of producers consumers) (h ++ [HCall i o]) ->
  role_of producers consumers i = Some o /\ local_of i (gstate h) = l_start.
Proof.
  intros Hs. destruct (Hs h [] i o eq_refl) as [Hr Hf]. split; [done|].
  apply (local_items i [] h Hf).
Qed.

Lemma role_of_consumer i c :
  role_of producers consumers i = Some (Consumer c) -> i = consumer_thread c /\ i ∈ conss.
Proof.
  unfold role_of, consumer_thread, conss. destruct (Nat.eqb_spec i 0); [done|].
  destruct (Nat.leb_spec i consumers); [|by destruct (_ <=? _)%nat]. intros [= <-]. rewrite elem_of_seq. lia.
Qed.

Lemma role_of_producer i p :
  role_of producers consumers i = Some (Producer p) ->
  i = producer_thread consumers p /\ i ∈ prods /\ (p < producers)%nat.
Proof.
  unfold role_of, producer_thread, prods. destruct (Nat.eqb_spec i 0); [done|].
  destruct (Nat.leb_spec i consumers); [done|]. destruct (Nat.leb_spec i (consumers + producers)); [|done].
  intros [= <-]. rewrite elem_of_seq. lia.
Qed.

Lemma worker_call i o s h :
  Inv s h -> started (role_of producers consumers) (h ++ [HCall i o]) ->
  LI i (worker_entry consumers consumer_start producer_start o) s (h ++ [HCall i o]).
Proof.
  intros HI Hs. destruct (started_last h i o Hs) as [Hr Hl]. exists l_start.
  split; [|split; [done|]].
  - split_and!.
    + exists o, []. by rewrite opview_call, decide_True.
    + by rewrite gstate_item.
    + by destruct o.
  - destruct o as [|c|p]; simpl.
    + split; [|done]. unfold role_of in Hr. destruct (Nat.eqb_spec i 0); [done|].
      destruct (_ <=? _)%nat; [done|]. by destruct (_ <=? _)%nat.
    + apply role_of_consumer in Hr as [-> Hi]. done.
    + apply role_of_producer in Hr as (-> & Hi & Hp). auto.
Qed.

Lemma worker_put i p k s h :
  Enq i p k false s h -> Inv s h ->
  Inv s (h ++ [HLin i (inr (Put p))]) /\ Enq i p k true s (h ++ [HLin i (inr (Put p))]).
Proof.
  intros (after & -> & lc & Hk & Hf & HL) HI. simpl in HL. destruct HL as (_ & v & Hh & Hrole & HL).
  pose proof Hk as (_ & Hl & HM & Hall).
  assert ((p, v) ∈ l_hold (local_of i (gstate h))) as Hin by (rewrite Hl, Hh; by left).
  split.
  - apply (Inv_put s h i p v HI); [by apply (know_unfinished _ _ _ _ _ Hk)|done|].
    rewrite Hl. destruct Hrole as [?|[-> ->]]; [by left|right]. split_and!; [done|done|]. by apply Hall.
  - exists after. split; [done|]. exists (put_local v lc). split; [|by split; [destruct lc|]].
    apply (know_event i lc _ s s h (inr (Put p)) (mono_MF _)) in Hk.
    assert (l_event (g_heap (gstate h)) (inr (Put p)) lc = put_local v lc) as Heq.
    { destruct lc as [hold ins os run rel cns chk fin]. simpl in *. subst hold.
      rewrite filter_cons, decide_False by (simpl; tauto).
      by rewrite (lookup_total_Some _ _ _ (held_value s h i p v HI Hin)). }
    rewrite Heq in Hk. destruct Hk as (Hr & Hl' & HM' & _). by split_and!.
Qed.

Lemma worker_take i p k s h :
  Deq i k None s h -> Inv s h -> wok s (h ++ [HLin i (inr (Take p))]) ->
  Inv s (h ++ [HLin i (inr (Take p))]) /\ Deq i k (Some p) s (h ++ [HLin i (inr (Take p))]).
Proof.
  intros (lc & cl & -> & Hf & Hi & H0 & Hp & Hk) HI [_ Hord].
  pose proof (take_front s h i p HI Hord) as Hq.
  destruct (Inv_take s h i p HI (know_unfinished _ _ _ _ _ Hk Hf) Hi Hq) as [HI2 Hp0]. split; [done|].
  exists lc, cl. split_and!; try done. exists (g_heap (gstate h) !!! p).
  apply (know_event i lc _ s s h (inr (Take p)) mono_True) in Hk. by destruct lc.
Qed.

Lemma worker_outline :
  client_outline (worker_entry consumers consumer_start producer_start)
    (worker_body fresh producers consumers total consumer_body producer_body)
    Inv G0 (fun _ h => started (role_of producers consumers) h) prefix LI Enq Deq (wgood total).
Proof.
  split.
  - apply stable_Enq.
  - apply stable_Deq.
  - done.
  - intros i o s h HI _ [Hs _]. split_and!; [done|by apply Inv_call_ret|by apply worker_call].
  - intros i r s h HI _. split; [done|]. by apply Inv_call_ret.
  - apply worker_code.
  - intros i p k s h g' HE HI _. destruct (worker_put i p k s h HE HI). by split_and!.
  - intros i p k s h g' HD HI Hok. destruct (worker_take i p k s h HD HI Hok). by split_and!.
  - by intros i p k b s h (after & -> & HL) HI.
  - intros i k r s h (lc & cl & -> & Hf & Hi & H0 & Hp & Hk) HI. destruct r as [p|]; simpl.
    + destruct Hk as (Hp0 & v & Hk). exists (take_local p v lc). split; [exact Hk|]. split; [by destruct lc|]. simpl. auto.
    + exists lc. split; [exact Hk|]. done.
Qed.

(** *** On a queue

    [Q] gives out the pointers in the order in which it took them in, in the
    executions that satisfy [okQ]. *)
Context (Q : queue_impl) (q_view : QE Q -> option bev) (okQ : QS Q -> list (hev (QE Q) (QO Q) (QR Q)) -> Prop) (q0 : QS Q).
Context (Q_ok : forall n q, reach (q_entry Q) (q_body Q) okQ q0 n q -> contract Q q_view prefix (hist q)).

Lemma worker_correct n c :
  reach (entry Q (worker_entry consumers consumer_start producer_start))
    (body Q (worker_body fresh producers consumers total consumer_body producer_body))
    (fun s h => started (role_of producers consumers) (ghost Q q_view h) /\ okQ s.2 (proj Q h)) (wstate_new, q0) n c ->
  (forall a, Mine Q (Bad a) ∉ events (hist c)) /\
  processed Q (hist c) ⊆+ all_ids /\
  forall es r, (Main, es, r) ∈ completed (hist c) ->
    r = Exit (if total =? u64 (Z.of_nat (length all_ids)) then 0 else 1)
          (u64 (Z.of_nat (length all_ids))) (u64 (Z.of_nat (length all_ids))) (sum all_ids) /\
    processed Q (hist c) ≡ₚ all_ids /\ heap (shared c).1 = ∅.
Proof.
  intros Hreach.
  assert (started (role_of producers consumers) (ghost Q q_view (hist c))) as Hst.
  { destruct Hreach as [|i m c c' _ _ [Hst _]]; [|done]. intros h1 h2 i o Hh. by destruct h1. }
  destruct (client_adequacy Q _ _ q_view _ _ _ _ _ _ _ _ worker_outline okQ (wstate_new, q0) n c Inv_start Q_ok Hreach)
    as [HI Hg].
  split; [intros a; by apply (no_bad Q q_view _ _ (iv_bad _ _ HI))|].
  split; [rewrite <- (g_run_processed Q q_view); by apply (run_so_far _ _ HI)|].
  intros es r Hin. destruct (proj1 (list.Forall_forall _ _) Hg _ Hin) as [Hend ->]. split; [done|].
  apply (main_ended Q q_view _ es _ Hst Hin) in Hend.
  assert (all_done (g_fin (gstate (ghost Q q_view (hist c))))) as Hd by (intros i; by apply (iv_end _ _ HI)).
  assert (local_of 0 (gstate (ghost Q q_view (hist c))) = main_end true) as Hm.
  { destruct (iv_final _ _ HI 0%nat Hend) as [[Hi _]|[[Hi _]|[_ ?]]]; [| |done].
    all: unfold prods, conss in Hi; apply elem_of_seq in Hi; lia. }
  rewrite <- (g_run_processed Q q_view). split; [by apply (out_total consumers_pos _ _ _ HI Hd Hm)|].
  by apply (heap_total consumers_pos _ _ _ HI Hd Hm).
Qed.

End outline.
End proofs.

(** ** Checksums

    A checksum with an associative and commutative operation does not depend on the
    order, nor on how the values are split among the threads. *)
Section checksums.
Context (op : Z -> Z -> Z) (work : Z -> Z).
Context (op_assoc : forall a b c, op (op a b) c = op a (op b c)).
Context (op_comm : forall a b, op a b = op b a).
Context (op_0 : forall ws, op (sum op work ws) 0 = sum op work ws).

Lemma sum_snoc ws v : sum op work (ws ++ [v]) = op (sum op work ws) (work v).
Proof. unfold sum. by rewrite foldl_app. Qed.

Lemma sum_append l1 l2 : sum op work (l1 ++ l2) = op (sum op work l1) (sum op work l2).
Proof.
  induction l2 as [|v l2 IH] using rev_ind; [by rewrite app_nil_r, op_0|].
  by rewrite app_assoc, !sum_snoc, IH, op_assoc.
Qed.

Lemma sum_Permutation l1 l2 : l1 ≡ₚ l2 -> sum op work l1 = sum op work l2.
Proof.
  unfold sum. generalize 0. intros a Hp. revert a.
  induction Hp as [|v l1 l2 _ IH|v w l|l1 l2 l3 _ IH1 _ IH2]; intros a; simpl; [done|apply IH| |by rewrite IH1].
  f_equal. by rewrite !op_assoc, (op_comm (work w)).
Qed.

End checksums.

Lemma u64_length_snoc {A} (l : list A) x : add64 (u64 (Z.of_nat (length l))) 1 = u64 (Z.of_nat (length (l ++ [x]))).
Proof. unfold add64, u64. rewrite Zplus_mod_idemp_l, length_app. f_equal. simpl. lia. Qed.

(** ** Addresses *)

(** What the programs may assume of [operator new]: it gives the address of no
    object that is alive, and not the null pointer. *)
Definition fresh_address (fresh : gmap Z Z -> Z) : Prop :=
  forall m : gmap Z Z, m !! fresh m = None /\ fresh m <> 0.

(** An allocator: the address after the highest one. *)
Definition next_address (m : gmap Z Z) : Z := 1 + map_fold (fun k _ r => Z.max k r) 0 m.

Lemma next_address_fresh : fresh_address next_address.
Proof.
  intros m. unfold next_address.
  assert (0 <= map_fold (fun k _ r => Z.max k r) 0 m /\
    forall k v, m !! k = Some v -> k <= map_fold (fun k _ r => Z.max k r) 0 m) as [H0 Hm].
  { apply (map_fold_weak_ind (fun r m => 0 <= r /\ forall k v, m !! k = Some v -> k <= r)).
    - split; [lia|]. intros k v. by rewrite lookup_empty.
    - intros k v m' r _ [Hr Hle]. split; [lia|]. intros k' v'. destruct (decide (k' = k)) as [->|Hk]; [lia|].
      rewrite lookup_insert_ne by congruence. intros Hl. specialize (Hle _ _ Hl). lia. }
  split; [|lia]. destruct (m !! _) eqn:E; [|done]. apply Hm in E. lia.
Qed.

