(* ===== verification/TaskQueue.v ===== *)
(** * TaskQueue: [examples/task_queue.cpp] is correct on a FIFO queue

    The program of [Workers], with the proof of [WorkersProofs]: what the part of a
    consumer and of a producer is at each place of their loops. *)

From stdpp Require Import base list numbers option gmap.
From Stdlib Require Import ZArith Lia.
From S2P Require Import Prelude Fifo MsQueue MsLin Conc Client ClientQueues Workers WorkersProofs.

Local Open Scope Z_scope.

(** ** The values *)

Lemma task_id_low p i : Z.of_nat i < two32 -> task_id p i mod two32 = Z.of_nat i.
Proof.
  intros Hi. unfold task_id. rewrite (u64_small (Z.of_nat i)) by (unfold is_u64, two64, two32 in *; lia).
  unfold shl64, u64. change two32 with (2 ^ 32) in *. change two64 with (2 ^ 64).
  rewrite <- !Z.land_ones, Z.land_lor_distr_l by lia. apply Z.bits_inj'. intros n Hn.
  rewrite Z.lor_spec, !Z.land_spec, Z.shiftl_spec, !Z.testbit_ones by lia.
  destruct (Z.ltb_spec n 32).
  - rewrite (Z.testbit_neg_r _ (n - 32)) by lia. simpl. destruct (Z.leb_spec 0 n); [|lia].
    by rewrite andb_true_r.
  - rewrite !andb_false_r. symmetry.
    rewrite <- (Z.mod_small (Z.of_nat i) (2 ^ 32)) by lia. by apply Z.mod_pow2_bits_high.
Qed.

Lemma task_id_not_stop p i : Z.of_nat i < two32 - 1 -> task_id p i <> kStopValue.
Proof.
  intros Hi Heq. pose proof (task_id_low p i ltac:(lia)) as H. rewrite Heq in H.
  change (kStopValue mod two32) with (two32 - 1) in H. lia.
Qed.

Abbreviation xor_sum := (sum Z.lxor task_work).

Lemma xor_sum_0 ws : Z.lxor (xor_sum ws) 0 = xor_sum ws.
Proof. apply Z.lxor_0_r. Qed.

Lemma xor_sum_app l1 l2 : xor_sum (l1 ++ l2) = Z.lxor (xor_sum l1) (xor_sum l2).
Proof. apply (sum_append _ _ Z.lxor_assoc xor_sum_0). Qed.

Lemma xor_sum_perm l1 l2 : l1 ≡ₚ l2 -> xor_sum l1 = xor_sum l2.
Proof. apply (sum_Permutation _ _ Z.lxor_assoc Z.lxor_comm). Qed.

(** ** The loops *)

Section task_queue.
Context (fresh : gmap Z Z -> Z) (producers consumers tasks_per_producer : nat).
Context (fresh_ok : forall m : gmap Z Z, m !! fresh m = None /\ fresh m <> 0).
Context (few_tasks : Z.of_nat tasks_per_producer < two32).

(** The tasks of producer [p]. *)
Definition task_ids (p : nat) : list Z := task_id p <$> seq 0 tasks_per_producer.

Abbreviation Wt i p Q := (wp (Inv producers consumers task_ids Z.lxor task_work) (fun _ _ _ => True)
  (lok (fun _ h => started (role_of producers consumers) h) prefix) i (code p) Q).

(** A consumer that has processed [ws], without an object; and with one. *)
Definition consumer_idle (chk cnt : Z) (lc : local) (hold : list (Z * Z)) : Prop :=
  exists ws, (kStopValue ∉ ws) /\ chk = xor_sum ws /\ cnt = u64 (Z.of_nat (length ws)) /\
    lc = Local hold [] (ws ++ hold.*2) ws 0 [] [] false.

Definition task_LC (l : task_consumer) (lc : local) : Prop :=
  match l with
  | TLoop chk cnt => consumer_idle chk cnt lc []
  | TGot chk cnt raw => if decide (raw = 0) then consumer_idle chk cnt lc []
                        else exists v, consumer_idle chk cnt lc [(raw, v)]
  end.

Definition task_LP (i : nat) (l : task_producer) (lc : local) : Prop :=
  match l with
  | TProduce p j => i = producer_thread consumers p /\ (j <= tasks_per_producer)%nat /\
      lc = Local [] (task_id p <$> seq 0 j) [] [] j [] [] false
  | TSent p j _ => i = producer_thread consumers p /\ (j < tasks_per_producer)%nat /\
      lc = Local [] (task_id p <$> seq 0 (S j)) [] [] j [] [] false
  end.

Abbreviation Qt := (Qnext (LI producers consumers task_ids Z.lxor task_work task_LC task_LP)
  (Enq producers consumers task_ids Z.lxor task_work task_LC task_LP)
  (Deq producers consumers task_LC) (wgood producers task_ids Z.lxor task_work (total_tasks producers tasks_per_producer))).

Abbreviation knows i lc s h := (know producers consumers i lc (fun _ => True) s h).

(** A jump inside the loops, about which nothing more need be known. *)
Lemma Wt_jump i l lc s h :
  (forall f, MF producers consumers l f) -> knows i lc s h -> l_fin lc = false ->
  LL producers consumers task_ids Z.lxor task_work task_LC task_LP i l lc -> Wt i (jump l) (Qt i) (s, h).
Proof. intros HM Hk Hf HL. by apply (W_jump _ _ _ _ _ _ _ _ i l lc (fun _ => True)). Qed.

Lemma task_consume_ok i chk cnt raw lc s h :
  knows i lc s h -> i ∈ conss consumers -> task_LC (TGot chk cnt raw) lc ->
  Wt i (task_consume i chk cnt raw) (Qt i) (s, h).
Proof.
  intros Hk Hi HL. unfold task_consume. destruct (Z.eqb_spec raw 0) as [->|Hraw].
  { simpl in HL. apply (Wt_jump i _ lc); [done|done|by destruct HL as (? & _ & _ & _ & ->)|done]. }
  simpl in HL. rewrite decide_False in HL by done. destruct HL as (v & ws & Hws & -> & -> & ->).
  apply (W_deref _ _ _ _ _ i _ _ raw v _ _ _ _ mono_True Hk); [by left|]. clear s h Hk. intros s h Hk _.
  destruct (Z.eqb_spec v kStopValue) as [->|Hv].
  - apply (W_free _ _ _ _ _ i _ _ raw kStopValue _ _ _ _ mono_True Hk); [done|by left|]. clear s h Hk. intros s h Hk _.
    simpl in Hk. rewrite filter_cons, decide_False in Hk by tauto.
    apply (W_consumed _ _ _ _ _ i _ _ _ _ _ _ _ mono_True Hk); [done|done|]. clear s h Hk. intros s h Hk _.
    apply (W_checksum _ _ _ _ _ i _ _ _ _ _ _ _ mono_True Hk); [done|done|]. clear s h Hk. intros s h Hk _.
    eapply Wt_jump; [done|exact Hk|done|]. simpl.
    split; [done|]. split; [intros ->; unfold conss in Hi; apply elem_of_seq in Hi; lia|].
    right; left. split; [done|]. by exists ws.
  - apply (W_process _ _ _ _ _ i _ _ raw v _ _ _ _ mono_True Hk); [done|done|by left|done|done|]. clear s h Hk. intros s h Hk _.
    apply (W_free _ _ _ _ _ i _ _ raw v _ _ _ _ mono_True Hk); [done|by left|]. clear s h Hk. intros s h Hk _.
    simpl in Hk. rewrite filter_cons, decide_False in Hk by tauto.
    eapply Wt_jump; [done|exact Hk|done|]. simpl.
    split; [done|]. split; [done|]. exists (ws ++ [v]). rewrite app_nil_r.
    split; [rewrite elem_of_app, list_elem_of_singleton; intros [?|?]; congruence|].
    split; [by rewrite sum_snoc|]. split; [by apply u64_length_snoc|done].
Qed.

Lemma task_consumer_ok i l lc s h :
  knows i lc s h -> l_fin lc = false -> i ∈ conss consumers -> task_LC l lc ->
  Inv producers consumers task_ids Z.lxor task_work s h -> Wt i (task_consumer_body i l) (Qt i) (s, h).
Proof.
  intros Hk Hf Hi HL HI. destruct l as [chk cnt|chk cnt raw]; [|by apply (task_consume_ok i chk cnt raw lc)].
  apply (wp_ret _ _ _ i (Dequeue i _)); [apply stable_Deq|]. exists lc, (TGot chk cnt). split_and!; try done.
  intros p v Hp. simpl. rewrite decide_False by done. exists v. destruct HL as (ws & Hws & -> & -> & ->).
  exists ws. by rewrite app_nil_r.
Qed.

Lemma task_ids_next i p j :
  i = producer_thread consumers p -> (j < tasks_per_producer)%nat ->
  prefix ((task_id p <$> seq 0 j) ++ [task_id p j]) (task_ids (i - S consumers)).
Proof.
  intros -> Hj. unfold task_ids, producer_thread. replace (S (consumers + p) - S consumers)%nat with p by lia.
  exists (task_id p <$> seq (S j) (tasks_per_producer - S j)).
  replace tasks_per_producer with (S j + (tasks_per_producer - S j))%nat at 1 by lia.
  by rewrite seq_app, fmap_app, seq_S, fmap_app.
Qed.

Lemma task_producer_ok i l lc s h :
  knows i lc s h -> l_fin lc = false -> i ∈ prods producers consumers -> task_LP i l lc ->
  Inv producers consumers task_ids Z.lxor task_work s h ->
  Wt i (task_producer_body fresh tasks_per_producer i l) (Qt i) (s, h).
Proof.
  intros Hk Hf Hi HL HI. destruct l as [p j|p j raw]; simpl in HL; destruct HL as (Hip & Hj & ->).
  - simpl. unfold task_produce. destruct (Nat.ltb_spec j tasks_per_producer) as [Hlt|Hge].
    + apply (W_new _ _ _ _ _ fresh fresh_ok i _ _ _ _ _ _ _ mono_True Hk); [done|by apply producer_in|].
      clear s h Hk HI. intros a s h Ha Hk HI.
      eapply Wt_jump; [intros f; by apply spin_MF|exact Hk|done|]. simpl. split; [done|]. exists (task_id p j).
      split; [done|]. split; [left; split; [done|]; split; [apply task_id_not_stop; lia|by apply task_ids_next]|].
      split; [done|]. split; [done|]. split; [done|]. split; [done|].
      change (Local [] ((task_id p <$> seq 0 j) ++ [task_id p j]) [] [] j [] [] false =
        Local [] (task_id p <$> seq 0 (S j)) [] [] j [] [] false). by rewrite seq_S, fmap_app.
    + assert (j = tasks_per_producer) as -> by lia.
      eapply Wt_jump; [done|exact Hk|done|]. simpl.
      split; [done|]. unfold producer_thread in Hip. split; [lia|]. left. split; [done|].
      unfold prod_end, task_ids. subst i. replace (S (consumers + p) - S consumers)%nat with p by lia.
      by rewrite length_fmap, length_seq.
  - apply (W_load _ _ _ _ _ i _ _ _ _ _ _ _ _ mono_True Hk). clear s h Hk HI. intros s h Hk HI.
    rewrite (iv_cancel _ _ _ _ _ _ _ HI).
    apply (W_produced _ _ _ _ _ i _ _ _ _ _ _ mono_True Hk); [done|done|]. clear s h Hk HI. intros s h Hk HI.
    eapply Wt_jump; [done|exact Hk|done|]. split; [done|]. split; [done|]. split; [done|]. split; [lia|done].
Qed.

Lemma task_consumer_starts : task_LC (TLoop 0 0) l_start.
Proof. exists []. split; [apply not_elem_of_nil|done]. Qed.

Lemma task_producer_starts p : task_LP (producer_thread consumers p) (TProduce p 0) l_start.
Proof. simpl. split_and!; [done|lia|done]. Qed.

Lemma task_ids_length : length (all_ids producers task_ids) = (producers * tasks_per_producer)%nat.
Proof.
  unfold all_ids. generalize 0%nat. induction producers as [|n IH]; intros k; [done|]. csimpl.
  rewrite length_app, IH. unfold task_ids. by rewrite length_fmap, length_seq.
Qed.

End task_queue.

(** The ids of all tasks. *)
Definition all_task_ids (producers tasks_per_producer : nat) : list Z := all_ids producers (task_ids tasks_per_producer).

(** C7. [task_queue] is correct on every queue that gives out the pointers in the
    order in which it took them in, in every interleaving of its threads and of the
    accesses inside the queue: no thread ever uses an object that does not exist or
    deletes it twice; at every moment each task was processed at most once and nothing
    else was processed; and once [main] has returned, it has returned 0, the two
    counters are [total_tasks] and the checksum is the exclusive or of the work of all
    tasks, every task was processed exactly once, and every object was deleted.
    Assumed: [operator new] returns no address in use, there is a consumer, a producer
    has fewer than [2^32] tasks (so that no task looks like [kStopValue]), and each
    thread is started once in its role. *)
Theorem task_queue_correct fresh producers consumers tasks_per_producer Q q_view okQ q0 n c :
  fresh_address fresh -> (0 < consumers)%nat -> Z.of_nat tasks_per_producer < two32 ->
  Serves Q q_view okQ q0 prefix ->
  reach (entry Q (task_queue_entry consumers)) (body Q (task_queue_body fresh producers consumers tasks_per_producer))
    (fun s h => started (role_of producers consumers) (ghost Q q_view h) /\ okQ s.2 (proj Q h)) (wstate_new, q0) n c ->
  (forall a, Mine Q (Bad a) ∉ events (hist c)) /\
  processed Q (hist c) ⊆+ all_task_ids producers tasks_per_producer /\
  forall es r, (Main, es, r) ∈ completed (hist c) ->
    r = Exit 0 (total_tasks producers tasks_per_producer) (total_tasks producers tasks_per_producer)
          (xor_sum (all_task_ids producers tasks_per_producer)) /\
    processed Q (hist c) ≡ₚ all_task_ids producers tasks_per_producer /\
    heap (shared c).1 = ∅.
Proof.
  intros Hfresh Hc Hn HQ Hr.
  destruct (worker_correct producers consumers (task_ids tasks_per_producer) Z.lxor task_work _ _ _ _ _ _ _ _
    Hfresh Hc xor_sum_app xor_sum_perm
    (task_consumer_ok producers consumers tasks_per_producer)
    (task_producer_ok fresh producers consumers tasks_per_producer Hfresh Hn)
    task_consumer_starts (fun p _ => task_producer_starts consumers tasks_per_producer p) Q q_view okQ q0 HQ n c Hr) as (Hb & Hp & Hm).
  split; [exact Hb|]. split; [exact Hp|]. intros es r Hin. destruct (Hm es r Hin) as (-> & Hall & Hh). split_and!; [|done|done].
  by rewrite task_ids_length, Z.eqb_refl.
Qed.

(** A complete execution on [MutexQueue]: one consumer, one producer, two tasks. *)
Definition task_schedule : list (nat * move role) :=
  [(0, Call Main); (1, Call (Consumer 0)); (2, Call (Producer 0))]%nat ++
  go 0 30 ++ go 1 12 ++ go 2 12 ++ go 0 30 ++ go 1 20 ++ go 2 28 ++ go 0 30 ++ go 1 31 ++ go 0 7.

Definition task_run : config :=
  outcome (entry mutex_impl (task_queue_entry 1)) (body mutex_impl (task_queue_body next_address 1 1 2))
    (wstate_new, []) 3 task_schedule.

Lemma task_run_reach :
  reach (entry mutex_impl (task_queue_entry 1)) (body mutex_impl (task_queue_body next_address 1 1 2))
    (fun s h => started (role_of 1 1) (ghost mutex_impl fifo_view h) /\ True) (wstate_new, []) 3 task_run.
Proof.
  apply (outcome_reach _ _ _ (fun _ h => startedb (role_of 1 1) [] (ghost mutex_impl fifo_view h))).
  - intros s h Hb. split; [by apply startedb_started|done].
  - vm_compute. reflexivity.
Qed.

Lemma task_queue_correct_witness :
  (exists es, (Main, es, Exit 0 2 2 (xor_sum (all_task_ids 1 2))) ∈ completed (hist task_run)) /\
  processed mutex_impl (hist task_run) ≡ₚ [task_id 0 0; task_id 0 1] /\ heap (shared task_run).1 = ∅.
Proof.
  destruct (task_queue_correct next_address 1 1 2 mutex_impl fifo_view (fun _ _ => True) [] 3 task_run
    next_address_fresh ltac:(lia) ltac:(reflexivity) _ task_run_reach) as (_ & _ & Hm).
  destruct (results_lookup (completed (hist task_run)) 2 Main (Exit 0 2 2 (xor_sum (all_task_ids 1 2)))) as [es Hin];
    [vm_compute; reflexivity|].
  destruct (Hm es _ Hin) as (_ & Hp & Hh). split; [by exists es|]. by split.
Defined.
