(* ===== verification/ProducerConsumer.v ===== *)
(** * ProducerConsumer: [examples/producer_consumer.cpp] is correct on a FIFO queue

    The program of [Workers] whose consumers collect the objects in batches, with the
    proof of [WorkersProofs]: what the part of a consumer and of a producer is at each
    place of their loops. *)

From stdpp Require Import base list numbers option gmap.
From Stdlib Require Import ZArith Lia.
From S2P Require Import Prelude Fifo MsQueue MsLin Conc Client ClientQueues Workers WorkersProofs.

Local Open Scope Z_scope.

(** ** The values *)

(** The first number whose payload is the stop value. *)
Definition stop_id : Z := 6510615555426900570.

Lemma payload_not_stop x : 0 <= x < stop_id -> payload x <> kStopValue.
Proof.
  intros Hx Heq. unfold payload in Heq. apply (f_equal (fun y => Z.lxor y 11936128518282651045)) in Heq.
  rewrite Z.lxor_assoc, Z.lxor_nilpotent, Z.lxor_0_r in Heq.
  change (Z.lxor kStopValue 11936128518282651045) with stop_id in Heq. lia.
Qed.

Abbreviation add_sum := (sum add64 id).

Lemma add64_assoc a b c : add64 (add64 a b) c = add64 a (add64 b c).
Proof. unfold add64, u64. rewrite Zplus_mod_idemp_l, Zplus_mod_idemp_r. f_equal. lia. Qed.

Lemma add64_comm a b : add64 a b = add64 b a.
Proof. unfold add64. f_equal. lia. Qed.

Lemma add_sum_0 ws : add64 (add_sum ws) 0 = add_sum ws.
Proof.
  destruct ws as [|v ws _] using rev_ind; [done|]. rewrite sum_snoc. unfold add64 at 1. rewrite Z.add_0_r.
  apply u64_small, u64_range.
Qed.

Lemma add_sum_app l1 l2 : add_sum (l1 ++ l2) = add64 (add_sum l1) (add_sum l2).
Proof. apply (sum_append _ _ add64_assoc add_sum_0). Qed.

Lemma add_sum_perm l1 l2 : l1 ≡ₚ l2 -> add_sum l1 = add_sum l2.
Proof. apply (sum_Permutation _ _ add64_assoc add64_comm). Qed.

(** ** The loops *)

Section producer_consumer.
Context (fresh : gmap Z Z -> Z) (producers consumers items_per_producer batch_size : nat).
Context (fresh_ok : fresh_address fresh).
Context (few_items : Z.of_nat (producers * items_per_producer) <= stop_id).

(** The number and the payload of the [j]-th item of producer [p]. *)
Definition item_id (p j : nat) : Z := u64 (Z.of_nat (p * items_per_producer + j)).

Definition items (p k : nat) : list Z := (fun j => payload (item_id p j)) <$> seq 0 k.

Definition pc_ids (p : nat) : list Z := items p items_per_producer.

Lemma items_S p k : items p (S k) = items p k ++ [payload (item_id p k)].
Proof. unfold items. by rewrite seq_S, fmap_app. Qed.

Lemma item_id_S p j : add64 (item_id p j) 1 = item_id p (S j).
Proof. unfold item_id, add64, u64. rewrite Zplus_mod_idemp_l. f_equal. lia. Qed.

Lemma item_not_stop p j :
  (p < producers)%nat -> (j < items_per_producer)%nat -> payload (item_id p j) <> kStopValue.
Proof.
  intros Hp Hj. apply payload_not_stop.
  assert (p * items_per_producer + j < producers * items_per_producer)%nat as Hlt by nia.
  unfold item_id. rewrite u64_small; [lia|]. unfold is_u64, two64, stop_id in *. lia.
Qed.

Abbreviation Iv := (Inv producers consumers pc_ids add64 id).
Abbreviation Wp i p Q := (wp Iv (fun _ _ _ => True) (lok (fun _ h => started (role_of producers consumers) h) prefix) i (code p) Q).

(** A consumer that has summed up [ws] and holds [bs]; [out] is what it took out. *)
Definition batch_local (bs : list (Z * Z)) (ws out : list Z) : local := Local bs [] out ws 0 [] [] false.

Definition summed (chk cnt : Z) (ws rest : list Z) : Prop :=
  (kStopValue ∉ ws ++ rest) /\ chk = add_sum ws /\ cnt = u64 (Z.of_nat (length (ws ++ rest))).

Definition loop_local (batch : list Z) (chk cnt : Z) (lc : local) : Prop :=
  exists ws bs, batch = bs.*1 /\ summed chk cnt ws bs.*2 /\ lc = batch_local bs ws (ws ++ bs.*2).

Definition stop_of (leftover : bool) : list Z := if leftover then [kStopValue] else [].

Definition pc_LC (l : pc_consumer) (lc : local) : Prop :=
  match l with
  | BLoop batch chk cnt => loop_local batch chk cnt lc
  | BGot batch chk cnt raw =>
      if decide (raw = 0) then loop_local batch chk cnt lc
      else exists ws bs v, batch = bs.*1 /\ summed chk cnt ws bs.*2 /\
        lc = batch_local (bs ++ [(raw, v)]) ws (ws ++ bs.*2 ++ [v])
  | BSum batch rest chk cnt leftover =>
      exists ws ds rs, batch = (ds ++ rs).*1 /\ rest = rs.*1 /\ summed chk cnt ws rs.*2 /\
        lc = batch_local (ds ++ rs) ws (ws ++ rs.*2 ++ stop_of leftover)
  | BClear rest chk cnt leftover =>
      exists ws rs, rest = rs.*1 /\ summed chk cnt ws [] /\
        lc = if leftover then Local rs [] (ws ++ [kStopValue]) ws 0 [cnt] [chk] false else batch_local rs ws ws
  end.

(** A producer that has put [k] items in, and counted [r] of them. *)
Definition producer_local (p k r : nat) : local := Local [] (items p k) [] [] r [] [] false.

Definition pc_LP (i : nat) (l : pc_producer) (lc : local) : Prop :=
  exists p, i = producer_thread consumers p /\ (p < producers)%nat /\
  match l with
  | BOuter remaining next_id => (remaining <= items_per_producer)%nat /\
      let k := (items_per_producer - remaining)%nat in next_id = item_id p k /\ lc = producer_local p k k
  | BInner j n remaining next_id => (j <= n)%nat /\ (n <= remaining)%nat /\ (remaining <= items_per_producer)%nat /\
      let k := (items_per_producer - remaining + j)%nat in next_id = item_id p k /\ lc = producer_local p k k
  | BSent j n remaining next_id _ => (j < n)%nat /\ (n <= remaining)%nat /\ (remaining <= items_per_producer)%nat /\
      let k := (items_per_producer - remaining + j)%nat in next_id = item_id p (S k) /\ lc = producer_local p (S k) k
  end.

Abbreviation Qp := (Qnext (LI producers consumers pc_ids add64 id pc_LC pc_LP)
  (Enq producers consumers pc_ids add64 id pc_LC pc_LP)
  (Deq producers consumers pc_LC) (wgood producers pc_ids add64 id (total_items producers items_per_producer))).

Abbreviation knows i lc s h := (know producers consumers i lc (fun _ => True) s h).

(** A jump inside the loops, about which nothing more need be known. *)
Lemma Wp_jump i l lc s h :
  (forall f, MF producers consumers l f) -> knows i lc s h -> l_fin lc = false ->
  LL producers consumers pc_ids add64 id pc_LC pc_LP i l lc -> Wp i (jump l) (Qp i) (s, h).
Proof. intros HM Hk Hf HL. by apply (W_jump _ _ _ _ _ _ _ _ i l lc (fun _ => True)). Qed.

(** A thread holds an object once: the deletion of one leaves the others. *)
Lemma drop_absent (l : list (Z * Z)) a : (a ∉ l.*1) -> filter (fun x => x.1 <> a) l = l.
Proof.
  induction l as [|x l IH]; [done|]. csimpl. rewrite not_elem_of_cons. intros [Hx Hl].
  by rewrite filter_cons, decide_True, IH.
Qed.

Lemma drop_one (l1 l2 : list (Z * Z)) a v :
  NoDup (l1 ++ (a, v) :: l2).*1 -> filter (fun x => x.1 <> a) (l1 ++ (a, v) :: l2) = l1 ++ l2.
Proof.
  rewrite fmap_app. csimpl. intros (_ & Hd & [Ha _]%NoDup_cons)%list.NoDup_app.
  rewrite list.filter_app, filter_cons, decide_False, !drop_absent by (simpl; tauto || done || (intros H; by apply (Hd _ H); left)).
  done.
Qed.

Lemma Wp_drop {A} i lc l1 l2 a v (k : bool -> prog wstate wev A) Q s h :
  knows i lc s h -> Iv s h -> l_fin lc = false -> l_hold lc = l1 ++ (a, v) :: l2 ->
  (forall s h, knows i (hold_local lc (l1 ++ l2)) s h -> Iv s h -> Wp i (k true) Q (s, h)) ->
  Wp i (bind (free a) k) Q (s, h).
Proof.
  intros Hk HI Hf Hh Hnext. apply (W_free _ _ _ _ _ i lc _ a v _ _ _ _ mono_True Hk); [done| |].
  - rewrite Hh. apply elem_of_app. right. by left.
  - pose proof (held_NoDup _ _ _ _ _ s h i HI) as Hnd. destruct Hk as (_ & Hl & _). rewrite Hl, Hh in Hnd.
    rewrite Hh, drop_one by done. apply Hnext.
Qed.

(** *** The consumers *)

Lemma pc_consume_ok i batch chk cnt raw lc s h :
  knows i lc s h -> i ∈ conss consumers -> pc_LC (BGot batch chk cnt raw) lc -> Iv s h ->
  Wp i (pc_consume batch_size i batch chk cnt raw) (Qp i) (s, h).
Proof.
  intros Hk Hi HL HI. unfold pc_consume. destruct (Z.eqb_spec raw 0) as [->|Hraw].
  { simpl in HL. apply (Wp_jump i _ lc); [done|done|by destruct HL as (? & ? & _ & _ & ->)|done]. }
  simpl in HL. rewrite decide_False in HL by done. destruct HL as (ws & bs & v & -> & (Hns & -> & ->) & ->).
  apply (W_deref _ _ _ _ _ i _ _ raw v _ _ _ _ mono_True Hk); [apply elem_of_app; right; by left|].
  clear s h Hk HI. intros s h Hk HI. destruct (Z.eqb_spec v kStopValue) as [->|Hv].
  - apply (Wp_drop i _ bs [] raw kStopValue _ _ _ _ Hk HI); [done|done|]. clear s h Hk HI. intros s h Hk _.
    rewrite app_nil_r in Hk. eapply Wp_jump; [done|exact Hk|done|]. split; [done|]. split; [done|].
    by exists ws, [], bs.
  - assert (pc_LC (BLoop (bs ++ [(raw, v)]).*1 (add_sum ws) (add64 (u64 (Z.of_nat (length (ws ++ bs.*2)))) 1))
      (batch_local (bs ++ [(raw, v)]) ws (ws ++ bs.*2 ++ [v]))) as HB.
    { exists ws, (bs ++ [(raw, v)]). rewrite !fmap_app. split; [done|]. split; [|done]. simpl. split_and!; [|done|].
      - rewrite app_assoc, elem_of_app, list_elem_of_singleton. intros [?|?]; [done|congruence].
      - rewrite app_assoc. apply u64_length_snoc. }
    replace (bs.*1 ++ [raw]) with (bs ++ [(raw, v)]).*1 by (by rewrite fmap_app).
    destruct (_ <=? _)%nat; (eapply Wp_jump; [done|exact Hk|done|]); (split; [done|]); (split; [done|]); [|exact HB].
    destruct HB as (ws' & bs' & Hb & Hs & Hl). exists ws', [], bs'. unfold stop_of. by rewrite app_nil_r.
Qed.

Lemma pc_sum_ok i batch rest chk cnt leftover lc s h :
  knows i lc s h -> i ∈ conss consumers -> pc_LC (BSum batch rest chk cnt leftover) lc -> Iv s h ->
  Wp i (pc_sum i batch rest chk cnt leftover) (Qp i) (s, h).
Proof.
  intros Hk Hi (ws & ds & rs & -> & -> & (Hns & -> & ->) & ->) HI. unfold pc_sum.
  destruct rs as [|[a v] rs].
  - rewrite app_nil_r in *. csimpl. destruct leftover.
    + apply (W_consumed _ _ _ _ _ i _ _ _ _ _ _ _ mono_True Hk); [done|done|]. clear s h Hk HI. intros s h Hk _.
      apply (W_checksum _ _ _ _ _ i _ _ _ _ _ _ _ mono_True Hk); [done|done|]. clear s h Hk. intros s h Hk _.
      eapply Wp_jump; [done|exact Hk|done|]. split; [done|]. split; [done|]. exists ws, ds.
      unfold summed. by rewrite !app_nil_r.
    + eapply Wp_jump; [done|exact Hk|done|]. split; [done|]. split; [done|]. exists ws, ds.
      unfold summed. by rewrite !app_nil_r.
  - apply (W_process _ _ _ _ _ i _ _ a v _ _ _ _ mono_True Hk); [done|done|apply elem_of_app; right; by left| | |].
    { intros ->. apply Hns, elem_of_app. right. by left. }
    { exists (rs.*2 ++ stop_of leftover). simpl. by rewrite <- app_assoc. }
    clear s h Hk HI. intros s h Hk _. eapply Wp_jump; [done|exact Hk|done|]. split; [done|]. split; [done|].
    exists (ws ++ [v]), (ds ++ [(a, v)]), rs. rewrite <- (app_assoc ds). unfold summed.
    rewrite <- !(app_assoc ws). csimpl. split_and!; [done|done|done|by rewrite sum_snoc|done|done].
Qed.

Lemma pc_clear_ok i rest chk cnt leftover lc s h :
  knows i lc s h -> i ∈ conss consumers -> pc_LC (BClear rest chk cnt leftover) lc -> Iv s h ->
  Wp i (pc_clear i rest chk cnt leftover) (Qp i) (s, h).
Proof.
  intros Hk Hi (ws & rs & -> & Hs & ->) HI. unfold pc_clear. destruct rs as [|[a v] rs].
  - csimpl. destruct Hs as (Hns & -> & ->). rewrite app_nil_r in Hns. destruct leftover.
    + eapply Wp_jump; [done|exact Hk|done|]. split; [done|].
      split; [intros ->; unfold conss in Hi; apply elem_of_seq in Hi; lia|]. right; left. split; [done|].
      exists ws. split; [done|]. unfold cons_end. by rewrite app_nil_r.
    + eapply Wp_jump; [done|exact Hk|done|]. split; [done|]. split; [done|]. exists ws, []. unfold summed. csimpl.
      by rewrite app_nil_r.
  - apply (Wp_drop i _ [] rs a v _ _ _ _ Hk HI); [by destruct leftover|by destruct leftover|].
    clear s h Hk HI. intros s h Hk _. eapply Wp_jump; [done|exact Hk|by destruct leftover|].
    split; [done|]. split; [done|]. exists ws, rs. split; [done|]. split; [done|]. by destruct leftover.
Qed.

Lemma pc_consumer_ok i l lc s h :
  knows i lc s h -> l_fin lc = false -> i ∈ conss consumers -> pc_LC l lc -> Iv s h ->
  Wp i (pc_consumer_body batch_size i l) (Qp i) (s, h).
Proof.
  intros Hk Hf Hi HL HI. destruct l as [batch chk cnt|batch chk cnt raw|batch rest chk cnt lo|rest chk cnt lo].
  - apply (wp_ret _ _ _ i (Dequeue i _)); [apply stable_Deq|]. exists lc, (BGot batch chk cnt).
    split; [done|]. split; [done|]. split; [done|]. split; [done|]. split; [|exact Hk].
    intros p v Hp. simpl. rewrite decide_False by done. destruct HL as (ws & bs & -> & Hs & ->).
    exists ws, bs, v. split; [done|]. split; [done|]. unfold take_local, batch_local. simpl. by rewrite app_assoc.
  - by apply (pc_consume_ok i batch chk cnt raw lc).
  - by apply (pc_sum_ok i batch rest chk cnt lo lc).
  - by apply (pc_clear_ok i rest chk cnt lo lc).
Qed.

(** *** The producers *)

Lemma pc_producer_end i p lc :
  i = producer_thread consumers p -> i ∈ prods producers consumers ->
  lc = producer_local p items_per_producer items_per_producer ->
  LL producers consumers pc_ids add64 id pc_LC pc_LP i (WEnd i) lc.
Proof.
  intros -> Hi ->. split; [done|]. split; [done|]. left. split; [done|]. unfold prod_end, producer_thread, pc_ids, producer_local.
  replace (S (consumers + p) - S consumers)%nat with p by lia. unfold items. by rewrite length_fmap, length_seq.
Qed.

Lemma items_next i p k :
  i = producer_thread consumers p -> (k < items_per_producer)%nat ->
  prefix (items p k ++ [payload (item_id p k)]) (pc_ids (i - S consumers)).
Proof.
  intros -> Hk. rewrite <- items_S. unfold pc_ids, producer_thread, items.
  replace (S (consumers + p) - S consumers)%nat with p by lia.
  exists ((fun j => payload (item_id p j)) <$> seq (S k) (items_per_producer - S k)).
  rewrite <- fmap_app, <- (seq_app (S k) _ 0). by replace (S k + (items_per_producer - S k))%nat with items_per_producer by lia.
Qed.

Lemma pc_outer_ok i remaining next_id lc s h :
  knows i lc s h -> i ∈ prods producers consumers -> pc_LP i (BOuter remaining next_id) lc -> Iv s h ->
  Wp i (pc_outer batch_size i remaining next_id) (Qp i) (s, h).
Proof.
  intros Hk Hi (p & Hip & Hp & Hr & -> & ->) HI. unfold pc_outer. destruct (Nat.ltb_spec 0 remaining).
  - apply (W_load _ _ _ _ _ i _ _ _ _ _ _ _ _ mono_True Hk). clear s h Hk HI. intros s h Hk HI.
    rewrite (iv_cancel _ _ _ _ _ _ _ HI). simpl. eapply Wp_jump; [done|exact Hk|done|]. split; [done|]. split; [done|].
    exists p. split; [done|]. split; [done|]. rewrite Nat.add_0_r.
    destruct (Nat.ltb_spec remaining batch_size); (split; [lia|]); (split; [lia|]); done.
  - assert (remaining = 0%nat) as -> by lia. eapply Wp_jump; [done|exact Hk|done|].
    apply (pc_producer_end i p); [done|done|]. by rewrite Nat.sub_0_r.
Qed.

Lemma pc_inner_ok i j n remaining next_id lc s h :
  knows i lc s h -> i ∈ prods producers consumers -> pc_LP i (BInner j n remaining next_id) lc -> Iv s h ->
  Wp i (pc_inner fresh i j n remaining next_id) (Qp i) (s, h).
Proof.
  intros Hk Hi (p & Hip & Hp & Hj & Hn & Hr & -> & ->) HI. unfold pc_inner. destruct (Nat.ltb_spec j n).
  - apply (W_new _ _ _ _ _ fresh fresh_ok i _ _ _ _ _ _ _ mono_True Hk); [done|by apply producer_in|].
    clear s h Hk HI. intros a s h Ha Hk HI.
    eapply Wp_jump; [intros f; by apply spin_MF|exact Hk|done|]. split; [done|].
    exists (payload (item_id p (items_per_producer - remaining + j))). split; [done|].
    split; [left; split; [done|]; split; [apply item_not_stop; [done|lia]|by apply items_next; [|lia]]|].
    split; [done|]. split; [done|]. exists p. split; [done|]. split; [done|]. split; [done|]. split; [done|]. split; [done|].
    split; [by rewrite item_id_S|]. unfold producer_local. by rewrite items_S.
  - assert (j = n) as -> by lia. eapply Wp_jump; [done|exact Hk|done|]. split; [done|]. split; [done|]. exists p.
    split; [done|]. split; [done|]. split; [lia|].
    by replace (items_per_producer - (remaining - n))%nat with (items_per_producer - remaining + n)%nat by lia.
Qed.

Lemma pc_sent_ok i j n remaining next_id raw lc s h :
  knows i lc s h -> i ∈ prods producers consumers -> pc_LP i (BSent j n remaining next_id raw) lc -> Iv s h ->
  Wp i (pc_sent i j n remaining next_id raw) (Qp i) (s, h).
Proof.
  intros Hk Hi (p & Hip & Hp & Hj & Hn & Hr & -> & ->) HI. unfold pc_sent.
  apply (W_load _ _ _ _ _ i _ _ _ _ _ _ _ _ mono_True Hk). clear s h Hk HI. intros s h Hk HI.
  rewrite (iv_cancel _ _ _ _ _ _ _ HI).
  apply (W_produced _ _ _ _ _ i _ _ _ _ _ _ mono_True Hk); [done|done|]. clear s h Hk HI. intros s h Hk HI.
  eapply Wp_jump; [done|exact Hk|done|]. split; [done|]. split; [done|]. exists p. split; [done|]. split; [done|].
  split; [lia|]. split; [lia|]. split; [lia|]. by rewrite Nat.add_succ_r.
Qed.

Lemma pc_producer_ok i l lc s h :
  knows i lc s h -> l_fin lc = false -> i ∈ prods producers consumers -> pc_LP i l lc -> Iv s h ->
  Wp i (pc_producer_body fresh batch_size i l) (Qp i) (s, h).
Proof.
  intros Hk Hf Hi HL HI. destruct l.
  - by apply (pc_outer_ok i _ _ lc).
  - by apply (pc_inner_ok i _ _ _ _ lc).
  - by apply (pc_sent_ok i _ _ _ _ _ lc).
Qed.

Lemma pc_consumer_starts : pc_LC (BLoop [] 0 0) l_start.
Proof. exists [], []. split; [done|]. split; [|done]. split; [apply not_elem_of_nil|done]. Qed.

Lemma pc_producer_starts p :
  (p < producers)%nat ->
  pc_LP (producer_thread consumers p) (BOuter items_per_producer (base_id items_per_producer p)) l_start.
Proof.
  intros Hp. exists p. rewrite Nat.sub_diag. split; [done|]. split; [done|]. split; [done|]. split; [|done].
  unfold item_id. by rewrite Nat.add_0_r.
Qed.

Lemma pc_ids_length : length (all_ids producers pc_ids) = (producers * items_per_producer)%nat.
Proof.
  unfold all_ids. clear few_items. generalize 0%nat. induction producers as [|n IH]; intros k; [done|]. csimpl.
  rewrite length_app, IH. unfold pc_ids, items. by rewrite length_fmap, length_seq.
Qed.

End producer_consumer.

(** The payloads of all items. *)
Definition all_payloads (producers items_per_producer : nat) : list Z := all_ids producers (pc_ids items_per_producer).

(** C8. [producer_consumer] is correct on every queue that gives out the pointers in
    the order in which it took them in, for every size of the batches: no thread ever
    uses an object that does not exist or deletes it twice, also not the objects that
    wait in a batch; at every moment each payload was summed up at most once and
    nothing else was; and once [main] has returned, it has returned 0, the two
    counters are [total_items], the checksum is the sum of all payloads modulo [2^64],
    every payload was summed up exactly once, also those of the batches that were not
    full, and every object was deleted. Assumed, besides the assumptions on [operator
    new] and on the threads: there is a consumer, and there are at most [stop_id]
    items, so that no payload is [kStopValue]. *)
Theorem producer_consumer_correct fresh producers consumers items_per_producer batch_size Q q_view okQ q0 n c :
  fresh_address fresh -> (0 < consumers)%nat -> Z.of_nat (producers * items_per_producer) <= stop_id ->
  Serves Q q_view okQ q0 prefix ->
  reach (entry Q (pc_entry consumers items_per_producer))
    (body Q (pc_body fresh producers consumers items_per_producer batch_size))
    (fun s h => started (role_of producers consumers) (ghost Q q_view h) /\ okQ s.2 (proj Q h)) (wstate_new, q0) n c ->
  (forall a, Mine Q (Bad a) ∉ events (hist c)) /\
  processed Q (hist c) ⊆+ all_payloads producers items_per_producer /\
  forall es r, (Main, es, r) ∈ completed (hist c) ->
    r = Exit 0 (total_items producers items_per_producer) (total_items producers items_per_producer)
          (add_sum (all_payloads producers items_per_producer)) /\
    processed Q (hist c) ≡ₚ all_payloads producers items_per_producer /\
    heap (shared c).1 = ∅.
Proof.
  intros Hfresh Hc Hn HQ Hr.
  destruct (worker_correct producers consumers (pc_ids items_per_producer) add64 id _ _ _ _ _ _ _ _
    Hfresh Hc add_sum_app add_sum_perm
    (pc_consumer_ok producers consumers items_per_producer batch_size Hn)
    (pc_producer_ok fresh producers consumers items_per_producer batch_size Hfresh Hn)
    pc_consumer_starts (pc_producer_starts producers consumers items_per_producer) Q q_view okQ q0 HQ n c Hr) as (Hb & Hp & Hm).
  split; [exact Hb|]. split; [exact Hp|]. intros es r Hin. destruct (Hm es r Hin) as (-> & Hall & Hh). split_and!; [|done|done].
  by rewrite pc_ids_length, Z.eqb_refl.
Qed.

(** A complete execution on [MutexQueue]: one consumer, one producer, three items,
    of which the last does not fill a batch. *)
Definition pc_schedule : list (nat * move role) :=
  [(0, Call Main); (1, Call (Consumer 0)); (2, Call (Producer 0))]%nat ++
  go 0 30 ++ go 1 12 ++ go 2 12 ++ go 0 30 ++ go 1 20 ++ go 2 45 ++ go 0 30 ++ go 1 50 ++ go 0 7.

Definition pc_run : config :=
  outcome (entry mutex_impl (pc_entry 1 3)) (body mutex_impl (pc_body next_address 1 1 3 2))
    (wstate_new, []) 3 pc_schedule.

Lemma pc_run_reach :
  reach (entry mutex_impl (pc_entry 1 3)) (body mutex_impl (pc_body next_address 1 1 3 2))
    (fun s h => started (role_of 1 1) (ghost mutex_impl fifo_view h) /\ True) (wstate_new, []) 3 pc_run.
Proof.
  apply (outcome_reach _ _ _ (fun _ h => startedb (role_of 1 1) [] (ghost mutex_impl fifo_view h))).
  - intros s h Hb. split; [by apply startedb_started|done].
  - vm_compute. reflexivity.
Qed.

Lemma producer_consumer_correct_witness :
  (exists es, (Main, es, Exit 0 3 3 (add_sum (all_payloads 1 3))) ∈ completed (hist pc_run)) /\
  processed mutex_impl (hist pc_run) ≡ₚ payload <$> [0; 1; 2] /\ heap (shared pc_run).1 = ∅.
Proof.
  destruct (producer_consumer_correct next_address 1 1 3 2 mutex_impl fifo_view (fun _ _ => True) [] 3 pc_run
    next_address_fresh ltac:(lia) ltac:(done) _ pc_run_reach) as (_ & _ & Hm).
  destruct (results_lookup (completed (hist pc_run)) 2 Main (Exit 0 3 3 (add_sum (all_payloads 1 3)))) as [es Hin];
    [vm_compute; reflexivity|].
  destruct (Hm es _ Hin) as (_ & Hp & Hh). split; [by exists es|]. by split.
Defined.
