(* ===== verification/TaskQueueLscq.v ===== *)
(** * TaskQueueLscq: [examples/task_queue.cpp] on [LSCQ]

    The program of [Workers] on the queue it is written for.  [LSCQ] does not keep the
    contract under which [TaskQueue] proves the program correct
    ([LscqConcProofs.lscq_double_dequeue]); here is an execution of the whole program
    in which that makes two consumers delete the same task. *)

From stdpp Require Import base list numbers option gmap.
From Stdlib Require Import ZArith Lia.
From S2P Require Import Prelude Fifo Pool Lscq LscqConc LscqConcProofs Conc Client ClientQueues Workers WorkersProofs.

Local Open Scope Z_scope.

(** One producer with 14 tasks, two consumers, and the smallest ring.  Consumer 0
    (thread 1) draws a ticket of the first node and is delayed, as thread 0 in
    [lscq_twice_schedule]; consumer 1 (thread 2) does the work. *)
Definition double_free_schedule : list (nat * move role) :=
  let enq m := go 3 m in
  let deq m := go 2 m in
  [(0, Call Main); (1, Call (Consumer 0)); (2, Call (Consumer 1)); (3, Call (Producer 0))]%nat ++
  go 0 30 ++ go 1 3 ++ go 2 3 ++ go 3 3 ++ go 0 6 ++
  enq 24%nat ++ enq 26%nat ++ enq 26%nat ++ enq 26%nat ++ enq 55%nat ++
  deq 19%nat ++ deq 22%nat ++ deq 22%nat ++ deq 22%nat ++ go 1 14 ++ deq 66%nat ++
  enq 26%nat ++ enq 26%nat ++ enq 26%nat ++ enq 26%nat ++ enq 54%nat ++
  enq 26%nat ++ enq 26%nat ++ enq 26%nat ++
  deq 22%nat ++ deq 22%nat ++ deq 22%nat ++ deq 22%nat ++ deq 66%nat ++
  deq 22%nat ++ deq 22%nat ++ deq 22%nat ++ enq 26%nat ++
  deq 18%nat ++ go 1 5 ++ go 2 4 ++ go 1 4 ++ go 2 4.

Abbreviation task_lscq_entry := (entry (lscq_impl 2 false 1) (task_queue_entry 2)).
Abbreviation task_lscq_body := (body (lscq_impl 2 false 1) (task_queue_body next_address 1 2 14)).

Definition double_free : config :=
  outcome task_lscq_entry task_lscq_body (wstate_new, lscq_new 2 false 1 0) 4 double_free_schedule.

(** What the threads do with the object at address [a]. *)
Definition object_events (a : Z) (h : list (hev (event (lscq_impl 2 false 1) (E := wev)) role wres)) : list (nat * wev) :=
  omap (fun x => match x with
    | HLin i (Mine _ (New b v)) => if a =? b then Some (i, New b v) else None
    | HLin i (Mine _ (Delete b)) => if a =? b then Some (i, Delete b) else None
    | HLin i (Mine _ (Bad b)) => if a =? b then Some (i, Bad b) else None
    | _ => None
    end) h.

(** C38. [task_queue] on [LSCQ] can use a task after its deletion and delete it
    twice.  In the execution above each thread runs once in its role and the
    environment of [LSCQ] is respected; the producer allocates the task at address
    14, consumer 0 deletes it, and consumer 1, which dequeued the same pointer, reads
    it twice and deletes it again. *)
Theorem task_queue_lscq_double_free :
  reach task_lscq_entry task_lscq_body
    (fun s h => started (role_of 1 2) (ghost (lscq_impl 2 false 1) lscq_view h) /\ lscq_env 2 false s.2 (proj (lscq_impl 2 false 1) h))
    (wstate_new, lscq_new 2 false 1 0) 4 double_free /\
  object_events 14 (hist double_free) =
    [(3, New 14 (task_id 0 13)); (1, Delete 14); (2, Bad 14); (2, Bad 14); (2, Bad 14)]%nat.
Proof.
  split; [|vm_compute; reflexivity].
  apply (outcome_reach _ _ _ (fun s h => startedb (role_of 1 2) [] (ghost (lscq_impl 2 false 1) lscq_view h) &&
    lscq_envb s.2 (proj (lscq_impl 2 false 1) h))).
  - intros s h [H1 H2]%andb_prop. split; [by apply startedb_started|by apply lscq_envb_ok].
  - vm_compute. reflexivity.
Qed.
