(* ===== verification/Bench.v ===== *)
(** * Bench: the throughput measurements of the examples

    Models [run_mpmc_benchmark] of [examples/benchmark_custom.cpp] and [bench_lscq] of
    [examples/benchmark_demo.cpp]: the threads, the start gate ([StartGate] of the
    latter; the former has the same accesses in place), the loops of the producers
    over the elements of [storage] and the loops of the consumers, which end when all
    elements were counted.  The queue is a parameter ([Client]); the two functions
    differ in the queue.

    [storage] is the address of the vector, its elements have 8 bytes.  Thread 0 is the
    caller, the threads from 1 on are the producers followed by the consumers, in the
    order of their creation; a thread runs once it was created ([spawned]), and
    [join] waits for its last step ([finished]).  The time is not modelled: the result
    is the number that is divided by it.  [Index i] records an access [storage[i]]. *)

From stdpp Require Import base list numbers option.
From Stdlib Require Import ZArith Lia.
From S2P Require Import Prelude Conc Client.

Local Open Scope Z_scope.

Record bstate := BState {
  ready : Z;
  start_ : bool;
  consumed : Z;
  spawned : nat;
  finished : list nat
}.

Definition bstate_new : bstate := BState 0 false 0 0 [].

Inductive bevent : Type :=
| Index (i : Z)
| Counted
| Finished
| End.

(** [total_ops], which the caller divides by the time; the result of a thread. *)
Inductive bres : Type :=
| Ops (total_ops : Z)
| ThreadEnd.

Inductive brole : Type :=
| Caller
| Producer (p : nat)
| Consumer (c : nat).

#[global] Instance brole_eq_dec : EqDecision brole.
Proof. solve_decision. Defined.

(** ** Accesses *)

Definition load {X : Set} (f : bstate -> X) (s : bstate) : bstate * X := (s, f s).

Definition fetch_add_ready (s : bstate) : bstate * unit :=
  (BState (add64 (ready s) 1) (start_ s) (consumed s) (spawned s) (finished s), tt).

Definition store_start (s : bstate) : bstate * unit :=
  (BState (ready s) true (consumed s) (spawned s) (finished s), tt).

Definition fetch_add_consumed (s : bstate) : bstate * unit :=
  (BState (ready s) (start_ s) (add64 (consumed s) 1) (spawned s) (finished s), tt).

Definition spawn (s : bstate) : bstate * unit :=
  (BState (ready s) (start_ s) (consumed s) (S (spawned s)) (finished s), tt).

Definition finish (i : nat) (s : bstate) : bstate * unit :=
  (BState (ready s) (start_ s) (consumed s) (spawned s) (i :: finished s), tt).

Section bench.
Context (storage : Z) (producers consumers ops_per_producer : nat).

Definition total_ops : Z := u64 (Z.of_nat (producers * ops_per_producer)).

(** [&storage[i]]. *)
Definition element (i : Z) : Z := storage + 8 * i.

Inductive blabel : Type :=
| MSpawn
| MReady
| MJoin (t : nat)
| Arrive (self : nat) (next : blabel)
| Wait (self : nat) (next : blabel)
| ThreadDone (self : nat)
| Produce (self : nat) (i end_ : Z)
| Send (self : nat) (i end_ ptr : Z)
| Consume (self : nat)
| Got (self : nat) (ptr : Z).

Definition block := prog bstate bevent (next blabel bres).

Definition jump (l : blabel) : block := Ret (Jump l).

(** [StartGate]: [arrive_and_wait] is [arrive], then [wait]. *)
Definition arrive (self : nat) (l : blabel) : block :=
  (let! n := atomic (load spawned) in
   if (self <=? n)%nat then do! atomic fetch_add_ready; jump (Wait self l)
   else jump (Arrive self l))%prog.

Definition wait (self : nat) (l : blabel) : block :=
  (let! s := atomic (load start_) in
   if (s : bool) then jump l else jump (Wait self l))%prog.

Definition wait_until_ready (total_threads : Z) (again : blabel) (after : block) : block :=
  (let! r := atomic (load ready) in
   if negb (r =? total_threads) then jump again else after)%prog.

Definition gate_go (after : blabel) : block := (do! atomic store_start; jump after)%prog.

Definition thread_done (self : nat) : block :=
  (do! atomic_lin (finish self) (fun _ => [Finished]); Ret (Done ThreadEnd))%prog.

(** The loop of a producer over its part of [storage], and [while (!q.enqueue(ptr))]. *)
Definition produce (self : nat) (i end_ : Z) : block :=
  if i <? end_ then
    (do! atomic_lin (fun s => (s, tt)) (fun _ : unit => [Index i]);
     jump (Send self i end_ (element i)))%prog
  else jump (ThreadDone self).

Definition send (self : nat) (i end_ ptr : Z) : block :=
  Ret (Enqueue self ptr (fun ok => if ok then Produce self (add64 i 1) end_ else Send self i end_ ptr)).

(** The loop of a consumer. *)
Definition consume (self : nat) : block :=
  (let! n := atomic (load consumed) in
   if n <? total_ops then Ret (Dequeue self (fun ptr => Got self ptr)) else jump (ThreadDone self))%prog.

Definition got (self : nat) (ptr : Z) : block :=
  if ptr =? 0 then jump (Consume self)
  else (do! atomic_lin fetch_add_consumed (fun _ => [Counted]); jump (Consume self))%prog.

(** The caller. *)
Definition main_spawn : block :=
  (let! n := atomic (load spawned) in
   if (n <? producers + consumers)%nat then do! atomic spawn; jump MSpawn
   else jump MReady)%prog.

Definition main_ready : block :=
  wait_until_ready (u64 (Z.of_nat (producers + consumers))) MReady (gate_go (MJoin 1)).

Definition main_join (t : nat) : block :=
  if (t <=? producers + consumers)%nat then
    (let! f := atomic (load finished) in
     if bool_decide (t ∈ f) then jump (MJoin (S t)) else jump (MJoin t))%prog
  else
    (do! atomic_lin (fun s => (s, tt)) (fun _ : unit => [End]); Ret (Done (Ops total_ops)))%prog.

Definition bench_body (l : blabel) : block :=
  match l with
  | MSpawn => main_spawn
  | MReady => main_ready
  | MJoin t => main_join t
  | Arrive self l => arrive self l
  | Wait self l => wait self l
  | ThreadDone self => thread_done self
  | Produce self i end_ => produce self i end_
  | Send self i end_ ptr => send self i end_ ptr
  | Consume self => consume self
  | Got self ptr => got self ptr
  end.

Definition producer_thread (p : nat) : nat := S p.

Definition consumer_thread (c : nat) : nat := S (producers + c).

(** [begin] and [end] of producer [p]. *)
Definition begin_of (p : nat) : Z := u64 (Z.of_nat (p * ops_per_producer)).

Definition end_of (p : nat) : Z := add64 (begin_of p) (Z.of_nat ops_per_producer).

Definition bench_entry (r : brole) : blabel :=
  match r with
  | Caller => MSpawn
  | Producer p => Arrive (producer_thread p) (Produce (producer_thread p) (begin_of p) (end_of p))
  | Consumer c => Arrive (consumer_thread c) (Consume (consumer_thread c))
  end.

(** Which role thread [i] has. *)
Definition brole_of (i : nat) : option brole :=
  if (i =? 0)%nat then Some Caller
  else if (i <=? producers)%nat then Some (Producer (i - 1))
  else if (i <=? producers + consumers)%nat then Some (Consumer (i - 1 - producers))
  else None.

End bench.
