(* ===== verification/BenchProofs.v ===== *)
(** * BenchProofs: the measurements count what they claim

    The programs of [Bench] on any queue that gives out each pointer at most as often
    as it took it in ([Client.contract] with [submseteq]), which [SCQP] does.  When the
    function returns, every element of [storage] was dequeued exactly once, so that
    the number it divides by the time is the number of elements that went through the
    queue; no index is out of range, and the counter never passes [total_ops].

    The history of the client determines the events of each thread ([by_thread]);
    [Inv] says of each thread what it has put in, taken out and counted. *)

From stdpp Require Import base list numbers option.
From Stdlib Require Import ZArith Lia.
From S2P Require Import Prelude Conc Client Bench.

Local Open Scope Z_scope.

Abbreviation bhist := (list (hev (gev bevent) brole bres)).

(** ** The events of the threads *)

Definition evs (h : bhist) : list (nat * gev bevent) :=
  omap (fun x => match x with HLin i e => Some (i, e) | _ => None end) h.

Definition by_thread (i : nat) (h : bhist) : list (gev bevent) := by_ i (evs h).

Definition view_of (e : gev bevent) : option bev := match e with inr v => Some v | inl _ => None end.

Definition puts_of (es : list (gev bevent)) : list Z := puts (omap view_of es).

Definition takes_of (es : list (gev bevent)) : list Z := takes (omap view_of es).

Definition counts (es : list (gev bevent)) : nat :=
  length (omap (fun e => match e with inl Counted => Some tt | _ => None end) es).

Lemma puts_of_app l1 l2 : puts_of (l1 ++ l2) = puts_of l1 ++ puts_of l2.
Proof. unfold puts_of, puts. by rewrite !omap_app. Qed.

Lemma takes_of_app l1 l2 : takes_of (l1 ++ l2) = takes_of l1 ++ takes_of l2.
Proof. unfold takes_of, takes. by rewrite !omap_app. Qed.

Lemma counts_app l1 l2 : counts (l1 ++ l2) = (counts l1 + counts l2)%nat.
Proof. unfold counts. by rewrite omap_app, length_app. Qed.

#[local] Instance puts_of_Permutation : Proper ((≡ₚ) ==> (≡ₚ)) puts_of.
Proof. intros l l' Hl. unfold puts_of, puts. by rewrite Hl. Qed.

#[local] Instance counts_Permutation : Proper ((≡ₚ) ==> (=)) counts.
Proof. intros l l' Hl. unfold counts. by rewrite Hl. Qed.

#[local] Instance takes_of_Permutation : Proper ((≡ₚ) ==> (≡ₚ)) takes_of.
Proof. intros l l' Hl. unfold takes_of, takes. by rewrite Hl. Qed.

Lemma evs_app h1 h2 : evs (h1 ++ h2) = evs h1 ++ evs h2.
Proof. apply omap_app. Qed.

Lemma evs_events h : (evs h).*2 = events h.
Proof. induction h as [|[] h IH]; csimpl; unfold evs, events in *; csimpl; congruence. Qed.

Lemma views_puts h : puts (g_views h) = puts_of (evs h).*2.
Proof. by rewrite evs_events. Qed.

Lemma views_takes h : takes (g_views h) = takes_of (evs h).*2.
Proof. by rewrite evs_events. Qed.

Lemma by_thread_snoc i j e h :
  by_thread i (h ++ [HLin j e]) = if decide (i = j) then by_thread i h ++ [e] else by_thread i h.
Proof.
  unfold by_thread. rewrite evs_app, by_app. simpl. case_decide as Hij.
  - subst. unfold evs at 2. csimpl. by rewrite by_own.
  - unfold evs at 2. csimpl. by rewrite by_other, app_nil_r.
Qed.

Lemma evs_item h x : (forall i e, x <> HLin i e) -> evs (h ++ [x]) = evs h.
Proof. intros Hx. rewrite evs_app. destruct x; [apply app_nil_r|by destruct (Hx i e)|apply app_nil_r]. Qed.

Lemma by_thread_step i j h h' : hist_step j h h' -> j <> i -> by_thread i h' = by_thread i h.
Proof.
  intros (l & -> & Hl) Hj. induction l as [|x l IH] using rev_ind; [by rewrite app_nil_r|].
  apply Forall_app in Hl as [Hl Hx]. rewrite Forall_singleton in Hx. rewrite app_assoc, <- (IH Hl).
  destruct x as [k o|k e|k r]; [| |]; [unfold by_thread; by rewrite evs_item| |unfold by_thread; by rewrite evs_item].
  simpl in Hx. subst k. by rewrite by_thread_snoc, decide_False.
Qed.

Lemma by_thread_app i h l e : e ∈ by_thread i h -> e ∈ by_thread i (h ++ l).
Proof. intros He. unfold by_thread. rewrite evs_app, by_app. apply elem_of_app. by left. Qed.

(** ** The invariant *)

Section proofs.
Context (storage : Z) (producers consumers ops_per_producer : nat).
Context (storage_pos : 0 < storage) (few_ops : Z.of_nat (producers * ops_per_producer) < two64).

Abbreviation total := (producers * ops_per_producer)%nat.
Abbreviation role i := (brole_of producers consumers i).

(** The elements of producer [p], in order. *)
Definition part (p : nat) : list Z :=
  (fun j => element storage (Z.of_nat (p * ops_per_producer + j))) <$> seq 0 ops_per_producer.

(** All elements of [storage]. *)
Definition all_elements : list Z := (fun j => element storage (Z.of_nat j)) <$> seq 0 total.

Definition thread_ok (r : option brole) (es : list (gev bevent)) : Prop :=
  match r with
  | Some (Producer p) => prefix (puts_of es) (part p) /\ takes_of es = [] /\ counts es = 0%nat
  | Some (Consumer _) => puts_of es = [] /\ (counts es <= length (takes_of es))%nat
  | Some Caller => puts_of es = [] /\ takes_of es = [] /\ counts es = 0%nat
  | None => es = []
  end.

Definition fin_ok (n : nat) (r : option brole) (es : list (gev bevent)) : Prop :=
  inl Finished ∈ es ->
  match r with
  | Some (Producer p) => puts_of es = part p
  | Some (Consumer _) => (total <= n)%nat
  | _ => True
  end.

Definition all_finished (h : bhist) : Prop :=
  forall i, (1 <= i <= producers + consumers)%nat -> inl Finished ∈ by_thread i h.

Record Inv (s : bstate) (h : bhist) : Prop := {
  bi_consumed : consumed s = u64 (Z.of_nat (counts (evs h).*2));
  bi_ok i : thread_ok (role i) (by_thread i h);
  bi_fin i : fin_ok (counts (evs h).*2) (role i) (by_thread i h);
  bi_finished i : i ∈ finished s -> inl Finished ∈ by_thread i h;
  bi_end i : inl End ∈ by_thread i h -> all_finished h;
  bi_index i j : inl (Index j) ∈ by_thread i h -> 0 <= j < Z.of_nat total;
  bi_order : takes_of (evs h).*2 ⊆+ puts_of (evs h).*2
}.

Lemma BInv_start : Inv bstate_new [].
Proof.
  split; try done; try (by intros i ?%not_elem_of_nil); try (by intros i j ?%not_elem_of_nil).
  intros i. unfold by_thread. simpl. destruct (role i) as [[]|]; simpl; split_and?; try done. apply prefix_nil.
Qed.

Lemma BInv_item s h x : (forall i e, x <> HLin i e) -> Inv s h -> Inv s (h ++ [x]).
Proof.
  intros Hx []. split; unfold all_finished, by_thread in *; rewrite ?evs_item by done; done.
Qed.

(** The invariant after an event of thread [i]. *)
Lemma Inv_event s s' h i e :
  Inv s h -> let h' := h ++ [HLin i e] in
  consumed s' = u64 (Z.of_nat (counts (evs h).*2 + counts [e])) ->
  (forall j, j ∈ finished s' -> j ∈ finished s \/ (j = i /\ e = inl Finished)) ->
  thread_ok (role i) (by_thread i h ++ [e]) ->
  fin_ok (counts (evs h).*2) (role i) (by_thread i h ++ [e]) ->
  (e = inl End -> all_finished h) -> (forall j, e = inl (Index j) -> 0 <= j < Z.of_nat total) ->
  takes_of (evs h').*2 ⊆+ puts_of (evs h').*2 -> Inv s' h'.
Proof.
  intros [Hc Hok Hfin Hf Hend Hidx Hord] h' Hc' Hf' Hok' Hfin' Hend' Hidx' Hord'.
  assert ((evs h').*2 = (evs h).*2 ++ [e]) as Hev by (unfold h'; by rewrite !evs_events, events_snoc).
  split; try done.
  - by rewrite Hev, counts_app.
  - intros j. unfold h'. rewrite by_thread_snoc. case_decide; [by subst|done].
  - intros j. unfold h'. rewrite by_thread_snoc. fold h'. rewrite Hev, counts_app.
    assert (forall es, fin_ok (counts (evs h).*2) (role j) es -> fin_ok (counts (evs h).*2 + counts [e]) (role j) es) as Hmono.
    { intros es H HF. specialize (H HF). destruct (role j) as [[]|]; try done. lia. }
    case_decide; [subst|]; by apply Hmono.
  - intros j Hj. unfold h'. rewrite by_thread_snoc. destruct (Hf' j Hj) as [Hj'|[-> ->]].
    + case_decide; [apply elem_of_app; left|]; by apply Hf.
    + rewrite decide_True by done. apply elem_of_app. right. by left.
  - intros j Hj k Hk. apply by_thread_app. unfold h' in Hj. rewrite by_thread_snoc in Hj. case_decide; [|by apply (Hend j)].
    apply elem_of_app in Hj as [Hj|<-%list_elem_of_singleton]; [by apply (Hend j)|by apply Hend'].
  - intros j k. unfold h'. rewrite by_thread_snoc. case_decide; [|apply Hidx].
    intros [Hj|Hj%list_elem_of_singleton]%elem_of_app; [by apply (Hidx j)|by apply Hidx'].
Qed.

(** An event that is no access of the queue keeps the order. *)
Lemma order_same s h i e :
  Inv s h -> view_of e = None -> takes_of (evs (h ++ [HLin i e])).*2 ⊆+ puts_of (evs (h ++ [HLin i e])).*2.
Proof.
  intros HI He. rewrite evs_events, events_snoc, <- evs_events, takes_of_app, puts_of_app.
  assert (takes_of [e] = [] /\ puts_of [e] = []) as [-> ->] by (unfold takes_of, puts_of; csimpl; by rewrite He).
  rewrite !app_nil_r. apply (bi_order _ _ HI).
Qed.

(** ** The totals *)

Definition threads : list nat := seq 0 (S (producers + consumers)).

Lemma role_consumer i :
  (producers < i <= producers + consumers)%nat -> role i = Some (Consumer (i - 1 - producers)).
Proof.
  intros Hi. unfold brole_of. destruct (Nat.eqb_spec i 0); [lia|]. destruct (Nat.leb_spec i producers); [lia|].
  destruct (Nat.leb_spec i (producers + consumers)); [done|lia].
Qed.

Lemma role_range i r : role i = Some r -> i ∈ threads.
Proof.
  unfold brole_of, threads. rewrite elem_of_seq. destruct (Nat.eqb_spec i 0); [lia|].
  destruct (Nat.leb_spec i producers); [lia|]. destruct (Nat.leb_spec i (producers + consumers)); [lia|done].
Qed.

Lemma evs_threads s h : Inv s h -> (evs h).*2 ≡ₚ concat ((fun i => by_thread i h) <$> threads).
Proof.
  intros HI. apply by_all; [apply NoDup_seq|]. apply list.Forall_forall. intros [i e] Hin. simpl.
  destruct (role i) as [r|] eqn:Er; [by apply (role_range i r)|].
  pose proof (bi_ok _ _ HI i) as Hok. rewrite Er in Hok. simpl in Hok.
  assert (e ∈ by_thread i h) as He.
  { unfold by_thread, by_. apply list_elem_of_fmap. exists (i, e). split; [done|]. by apply list_elem_of_filter. }
  rewrite Hok in He. by apply elem_of_nil in He.
Qed.

Lemma concat_counts (f : nat -> list (gev bevent)) l :
  (forall i, i ∈ l -> (counts (f i) <= length (takes_of (f i)))%nat) ->
  (counts (concat (f <$> l)) <= length (takes_of (concat (f <$> l))))%nat.
Proof.
  induction l as [|i l IH]; intros Hf; [done|]. csimpl. rewrite counts_app, takes_of_app, length_app.
  pose proof (Hf i ltac:(by left)). pose proof (IH ltac:(intros j Hj; apply Hf; by right)). lia.
Qed.

Lemma counts_takes s h : Inv s h -> (counts (evs h).*2 <= length (takes_of (evs h).*2))%nat.
Proof.
  intros HI. rewrite (evs_threads s h HI). apply concat_counts. intros i _.
  pose proof (bi_ok _ _ HI i) as Hok. destruct (role i) as [[]|]; simpl in Hok.
  - destruct Hok as (_ & _ & ->). lia.
  - destruct Hok as (_ & _ & ->). lia.
  - apply Hok.
  - rewrite Hok. done.
Qed.

(** What a thread puts in is part of its elements. *)
Definition part_of (i : nat) : list Z := match role i with Some (Producer p) => part p | _ => [] end.

Lemma puts_prefix s h i : Inv s h -> prefix (puts_of (by_thread i h)) (part_of i).
Proof.
  intros HI. unfold part_of. pose proof (bi_ok _ _ HI i) as Hok. destruct (role i) as [[]|]; simpl in Hok.
  - destruct Hok as (-> & _). apply prefix_nil.
  - apply Hok.
  - destruct Hok as (-> & _). apply prefix_nil.
  - rewrite Hok. apply prefix_nil.
Qed.

Lemma puts_concat (f : nat -> list (gev bevent)) l : puts_of (concat (f <$> l)) = concat ((puts_of ∘ f) <$> l).
Proof. induction l as [|i l IH]; [done|]. csimpl. by rewrite puts_of_app, IH. Qed.

Lemma part_of_producer p : (p < producers)%nat -> part_of (S p) = part p.
Proof.
  intros Hp. unfold part_of, brole_of. destruct (Nat.eqb_spec (S p) 0); [done|].
  destruct (Nat.leb_spec (S p) producers); [|lia]. by replace (S p - 1)%nat with p by lia.
Qed.

Lemma parts_elements : concat (part_of <$> threads) = all_elements.
Proof.
  assert (threads = 0%nat :: seq 1 producers ++ seq (S producers) consumers) as ->.
  { unfold threads. simpl. by rewrite seq_app. }
  rewrite fmap_cons, fmap_app. assert (part_of 0 = []) as -> by done.
  simpl. rewrite concat_app.
  assert (concat (part_of <$> seq (S producers) consumers) = []) as ->.
  { assert (forall i, i ∈ seq (S producers) consumers -> part_of i = []) as H.
    { intros i Hi. apply elem_of_seq in Hi. unfold part_of, brole_of. destruct (Nat.eqb_spec i 0); [done|].
      destruct (Nat.leb_spec i producers); [lia|]. by destruct (_ <=? _)%nat. }
    revert H. generalize (seq (S producers) consumers). intros l. induction l as [|i l IH]; intros H; [done|].
    csimpl. rewrite H by (by left). apply IH. intros j Hj. apply H. by right. }
  rewrite app_nil_r. unfold all_elements.
  assert (forall n, (n <= producers)%nat -> concat (part_of <$> seq 1 n) =
    (fun j => element storage (Z.of_nat j)) <$> seq 0 (n * ops_per_producer)) as H; [|by apply H].
  induction n as [|n IH]; intros Hn; [done|]. rewrite seq_S, fmap_app, concat_app, IH by lia. simpl. rewrite app_nil_r.
  rewrite (Nat.add_comm ops_per_producer), seq_app, fmap_app. f_equal. rewrite part_of_producer by lia. unfold part.
  replace (seq (0 + n * ops_per_producer) ops_per_producer) with (Nat.add (n * ops_per_producer) <$> seq 0 ops_per_producer)
    by (rewrite fmap_add_seq; f_equal; lia).
  by rewrite <- list_fmap_compose.
Qed.

Lemma puts_elements s h : Inv s h -> puts_of (evs h).*2 ⊆+ all_elements.
Proof.
  intros HI. rewrite (evs_threads s h HI), puts_concat, <- parts_elements. apply concat_prefix_submseteq.
  intros i _. apply (puts_prefix s h i HI).
Qed.

Lemma all_elements_length : length all_elements = total.
Proof. unfold all_elements. by rewrite length_fmap, length_seq. Qed.

Lemma counts_bound s h : Inv s h -> (counts (evs h).*2 <= total)%nat.
Proof.
  intros HI. pose proof (counts_takes s h HI) as H1.
  pose proof (submseteq_length _ _ (bi_order _ _ HI)) as H2.
  pose proof (submseteq_length _ _ (puts_elements s h HI)) as H3. rewrite all_elements_length in H3. lia.
Qed.

(** The counter has not wrapped around. *)
Lemma consumed_exact s h : Inv s h -> consumed s = Z.of_nat (counts (evs h).*2).
Proof.
  intros HI. rewrite (bi_consumed _ _ HI). apply u64_small. pose proof (counts_bound s h HI). unfold is_u64. lia.
Qed.

Lemma total_exact : total_ops producers ops_per_producer = Z.of_nat total.
Proof. apply u64_small. unfold is_u64. lia. Qed.

(** When all threads have finished, everything was counted and taken out. *)
Lemma done_total s h :
  Inv s h -> (0 < consumers)%nat -> all_finished h ->
  consumed s = Z.of_nat total /\ takes_of (evs h).*2 ≡ₚ all_elements.
Proof.
  intros HI Hc Hall.
  assert (total <= counts (evs h).*2)%nat as Hle.
  { pose proof (bi_fin _ _ HI (S producers) (Hall (S producers) ltac:(lia))) as H.
    by rewrite role_consumer in H by lia. }
  pose proof (counts_bound s h HI). pose proof (counts_takes s h HI).
  rewrite (consumed_exact s h HI). split; [lia|].
  apply submseteq_length_Permutation; [|rewrite all_elements_length; lia].
  etrans; [apply (bi_order _ _ HI)|apply (puts_elements s h HI)].
Qed.

Lemma element_pos a : a ∈ all_elements -> a <> 0.
Proof. intros (j & -> & _)%list_elem_of_fmap. unfold element. lia. Qed.


(** ** Rules for the accesses

    [know i es M]: the events of thread [i] are [es], and [M] holds, which stays true
    when the history grows. *)

Definition mono (M : bhist -> Prop) : Prop := forall h l, M h -> M (h ++ l).

Definition in_role (i : nat) (h : bhist) : Prop :=
  exists o es, opview i h = Some (o, es) /\ role i = Some o.

Definition know (i : nat) (es : list (gev bevent)) (M : bhist -> Prop) (s : bstate) (h : bhist) : Prop :=
  in_role i h /\ by_thread i h = es /\ M h.

Abbreviation G0 := (fun (_ : nat) (_ _ : bstate * bhist) => True).
Abbreviation bok := (lok (fun _ h => started (brole_of producers consumers) h) submseteq).
Abbreviation W i p Q := (wp Inv G0 bok i (code p) Q).

Lemma bench_stable_know i es M : mono M -> stable Inv G0 i (know i es M).
Proof.
  intros HM c c' (j & Hj & Hh & _) (Hr & Hl & HMh). split_and!.
  - unfold in_role. by rewrite (hist_step_view j i c.2 c'.2 Hh).
  - by rewrite (by_thread_step i j c.2 c'.2 Hh Hj).
  - destruct Hh as (l & -> & _). by apply HM.
Qed.

Lemma bench_know_event i es M s s' h e :
  mono M -> know i es M s h -> know i (es ++ [e]) M s' (h ++ [HLin i e]).
Proof.
  intros HM ((o & es' & Hv & Hr) & <- & HMh). split_and!.
  - exists o, (es' ++ [e]). by rewrite opview_snoc, decide_True, Hv.
  - by rewrite by_thread_snoc, decide_True.
  - by apply HM.
Qed.

Lemma BW_act {A} i es M (X : Set) f ev (k : X -> prog bstate bevent A) Q s h :
  mono M -> know i es M s h ->
  (forall s h s2 x, know i es M s h -> Inv s h -> f s = (s2, x) ->
     let h2 := h ++ (HLin i <$> (inl <$> ev x)) in Inv s2 h2 /\ W i (k x) Q (s2, h2)) ->
  W i (Act X f ev k) Q (s, h).
Proof.
  intros HM Hk Hnext. apply (wp_act _ _ _ _ (know i es M)); [by apply bench_stable_know|done|].
  intros s1 h1 s2 x Hk1 HI Hf _. unfold id in Hf. destruct (f s1) as [s1' y] eqn:Ef. injection Hf as -> ->.
  split; [done|]. by apply (Hnext s1 h1).
Qed.

Lemma BW_load {A} i es M (X : Set) (f : bstate -> X) (k : X -> prog bstate bevent A) Q s h :
  mono M -> know i es M s h ->
  (forall s h, know i es M s h -> Inv s h -> W i (k (f s)) Q (s, h)) ->
  W i (bind (atomic (load f)) k) Q (s, h).
Proof.
  intros HM Hk Hnext. apply (BW_act i es M); [done|done|]. intros s1 h1 s2 x Hk1 HI [= <- <-]. simpl.
  rewrite app_nil_r. split; [done|]. by apply Hnext.
Qed.

(** A store that the invariant does not see. *)
Definition irrelevant (f : bstate -> bstate * unit) : Prop :=
  forall s, consumed (f s).1 = consumed s /\ finished (f s).1 = finished s.

Lemma BW_store {A} i es M f (k : unit -> prog bstate bevent A) Q s h :
  mono M -> irrelevant f -> know i es M s h ->
  (forall s h, know i es M s h -> Inv s h -> W i (k tt) Q (s, h)) ->
  W i (bind (atomic f) k) Q (s, h).
Proof.
  intros HM Hf Hk Hnext. apply (BW_act i es M); [done|done|]. intros s1 h1 s2 [] Hk1 HI Hf1. simpl. rewrite app_nil_r.
  destruct (Hf s1) as [Hc Hn]. rewrite Hf1 in Hc, Hn. simpl in Hc, Hn.
  assert (Inv s2 h1) as HI2 by (destruct HI; split; [by rewrite Hc|done|done|by rewrite Hn|done|done|done]).
  split; [done|]. by apply Hnext.
Qed.

Lemma bench_irrelevant_ready : irrelevant fetch_add_ready.
Proof. done. Qed.

Lemma bench_irrelevant_start : irrelevant store_start.
Proof. done. Qed.

Lemma bench_irrelevant_spawn : irrelevant spawn.
Proof. done. Qed.

(** An access with one event. *)
Lemma BW_event {A} i es M (X : Set) f (e : bevent) (k : X -> prog bstate bevent A) Q s h :
  mono M -> know i es M s h ->
  (forall s h, know i es M s h -> Inv s h -> Inv (f s).1 (h ++ [HLin i (inl e)])) ->
  (forall s h x, know i (es ++ [inl e]) M s h -> Inv s h -> W i (k x) Q (s, h)) ->
  W i (bind (atomic_lin f (fun _ => [e])) k) Q (s, h).
Proof.
  intros HM Hk Hf Hnext. apply (BW_act i es M); [done|done|]. intros s1 h1 s2 x Hk1 HI Hf1. csimpl.
  pose proof (Hf s1 h1 Hk1 HI) as HI2. rewrite Hf1 in HI2. split; [done|].
  apply Hnext; [by apply (bench_know_event i es M s1)|done].
Qed.

(** ** The labels *)

(** What thread [i] has done at a label. *)
Fixpoint LL (i : nat) (l : blabel) (es : list (gev bevent)) : Prop :=
  match l with
  | MSpawn | MReady => i = 0%nat
  | MJoin t => i = 0%nat /\ (1 <= t)%nat
  | Arrive self l | Wait self l => i = self /\ LL i l es
  | ThreadDone self => i = self /\
      ((exists p, role i = Some (Producer p) /\ puts_of es = part p) \/ exists c, role i = Some (Consumer c))
  | Produce self j end_ => i = self /\ exists p m, role i = Some (Producer p) /\ (p < producers)%nat /\
      (m <= ops_per_producer)%nat /\ end_ = end_of ops_per_producer p /\
      j = Z.of_nat (p * ops_per_producer + m) /\ puts_of es = take m (part p)
  | Send self j end_ ptr => i = self /\ exists p m, role i = Some (Producer p) /\ (p < producers)%nat /\
      (m < ops_per_producer)%nat /\ end_ = end_of ops_per_producer p /\
      j = Z.of_nat (p * ops_per_producer + m) /\ puts_of es = take m (part p) /\ ptr = element storage j
  | Consume self => i = self /\ (exists c, role i = Some (Consumer c)) /\ counts es = length (takes_of es)
  | Got self ptr => i = self /\ (exists c, role i = Some (Consumer c)) /\
      (if ptr =? 0 then counts es else S (counts es)) = length (takes_of es)
  end.

(** What is known of the other threads. *)
Fixpoint MM (l : blabel) (h : bhist) : Prop :=
  match l with
  | MJoin t => forall i, (1 <= i < t)%nat -> inl Finished ∈ by_thread i h
  | Arrive _ l | Wait _ l => MM l h
  | ThreadDone self => forall c, role self = Some (Consumer c) -> (total <= counts (evs h).*2)%nat
  | _ => True
  end.

Lemma mono_MM l : mono (MM l).
Proof.
  intros h l'. induction l; simpl; try done.
  - intros H i Hi. apply by_thread_app. auto.
  - intros H c Hc. specialize (H c Hc). rewrite evs_app, fmap_app, counts_app. lia.
Qed.

Lemma bench_mono_True : mono (fun _ => True).
Proof. done. Qed.

Definition LI (i : nat) (l : blabel) (s : bstate) (h : bhist) : Prop :=
  exists es, know i es (MM l) s h /\ LL i l es.

Definition Enq (i : nat) (p : Z) (k : bool -> blabel) (b : bool) (s : bstate) (h : bhist) : Prop :=
  exists j end_, k = (fun ok => if ok then Produce i (add64 j 1) end_ else Send i j end_ p) /\ LI i (k b) s h.

Definition Deq (i : nat) (k : Z -> blabel) (r : option Z) (s : bstate) (h : bhist) : Prop :=
  k = (fun ptr => Got i ptr) /\ LI i (Got i (default 0 r)) s h.

(** The result. *)
Definition bgood (o : brole) (es : list (gev bevent)) (r : bres) : Prop :=
  match o with
  | Caller => inl End ∈ es /\ r = Ops (total_ops producers ops_per_producer)
  | _ => True
  end.

Abbreviation Qn := (Qnext LI Enq Deq bgood).

Lemma bench_stable_LI i l : stable Inv G0 i (LI i l).
Proof. intros c c' Hr (es & Hk & HL). exists es. split; [|done]. by apply (bench_stable_know i es _ (mono_MM l) c). Qed.

Lemma bench_stable_Enq i p k b : stable Inv G0 i (Enq i p k b).
Proof. intros c c' Hr (j & e & Hk & HL). exists j, e. split; [done|]. by apply (bench_stable_LI i (k b) c). Qed.

Lemma bench_stable_Deq i k r : stable Inv G0 i (Deq i k r).
Proof. intros c c' Hr (Hk & HL). split; [done|]. by apply (bench_stable_LI i _ c). Qed.

Lemma BW_jump i l es M s h :
  (forall h, M h -> MM l h) -> know i es M s h -> LL i l es -> W i (jump l) (Qn i) (s, h).
Proof.
  intros HM (Hr & Hl & Hh) HL. apply (wp_ret _ _ _ i (Jump l)); [apply bench_stable_LI|].
  exists es. split; [|done]. split_and!; auto.
Qed.


(** ** The code of the threads *)

Lemma fin_ok_snoc n r es e : e <> inl Finished -> puts_of [e] = [] -> fin_ok n r es -> fin_ok n r (es ++ [e]).
Proof.
  intros He Hp Hf Hin. apply elem_of_app in Hin as [Hin|Hin%list_elem_of_singleton]; [|done].
  specialize (Hf Hin). destruct r as [[]|]; try done. by rewrite puts_of_app, Hp, app_nil_r.
Qed.

Lemma thread_ok_snoc r es e :
  puts_of [e] = [] -> takes_of [e] = [] -> counts [e] = 0%nat -> r <> None ->
  thread_ok r es -> thread_ok r (es ++ [e]).
Proof.
  intros Hp Ht Hc Hr. unfold thread_ok. rewrite puts_of_app, takes_of_app, counts_app, Hp, Ht, Hc, !app_nil_r, Nat.add_0_r.
  by destruct r as [[]|].
Qed.

(** An event that only leaves a mark. *)
Lemma Inv_mark s s' h i e :
  Inv s h -> consumed s' = consumed s -> finished s' = finished s -> role i <> None ->
  e <> Counted -> e <> Finished -> (e = End -> all_finished h) -> (forall j, e = Index j -> 0 <= j < Z.of_nat total) ->
  Inv s' (h ++ [HLin i (inl e)]).
Proof.
  intros HI Hc Hf Hr He1 He2 Hend Hidx. apply (Inv_event s); [done|..].
  - rewrite Hc, (bi_consumed _ _ HI). destruct e; try done; by rewrite Nat.add_0_r.
  - rewrite Hf. auto.
  - apply thread_ok_snoc; [done|done|by destruct e|done|apply (bi_ok _ _ HI)].
  - apply fin_ok_snoc; [congruence|done|apply (bi_fin _ _ HI)].
  - intros [= ->]. by apply Hend.
  - intros j [= ->]. by apply Hidx.
  - by apply (order_same s).
Qed.

Lemma in_role_some i h : in_role i h -> role i <> None.
Proof. by intros (o & es & _ & ->). Qed.

Lemma BInv_finished s h i es l :
  know i es (MM (ThreadDone i)) l h -> LL i (ThreadDone i) es -> Inv s h ->
  Inv (finish i s).1 (h ++ [HLin i (inl Finished)]).
Proof.
  intros (Hr & <- & HM) (_ & HL) HI. apply (Inv_event s); [done|..].
  - rewrite Nat.add_0_r. apply (bi_consumed _ _ HI).
  - intros j [->|?]%elem_of_cons; auto.
  - apply thread_ok_snoc; [done|done|done|by apply (in_role_some i h)|apply (bi_ok _ _ HI)].
  - intros _. destruct HL as [(p & Hp & Hpart)|(c & Hc)].
    + rewrite Hp, puts_of_app, Hpart. by rewrite app_nil_r.
    + rewrite Hc. by apply (HM c).
  - done.
  - done.
  - by apply (order_same s).
Qed.

Lemma Inv_counted s h i es c :
  by_thread i h = es -> role i = Some (Consumer c) -> S (counts es) = length (takes_of es) -> Inv s h ->
  Inv (fetch_add_consumed s).1 (h ++ [HLin i (inl Counted)]).
Proof.
  intros <- Hc Hn HI. apply (Inv_event s); [done|..].
  - simpl. rewrite (bi_consumed _ _ HI). unfold add64, u64. rewrite Zplus_mod_idemp_l. f_equal.
    change (counts [inl Counted]) with 1%nat. lia.
  - auto.
  - pose proof (bi_ok _ _ HI i) as Hok. rewrite Hc in Hok |- *. destruct Hok as [Hp _]. split.
    + by rewrite puts_of_app, Hp.
    + rewrite counts_app, takes_of_app, length_app. change (counts [inl Counted]) with 1%nat. lia.
  - apply fin_ok_snoc; [done|done|apply (bi_fin _ _ HI)].
  - done.
  - done.
  - by apply (order_same s).
Qed.

Lemma W_produce i j end_ es s h :
  know i es (fun _ => True) s h -> LL i (Produce i j end_) es ->
  W i (produce storage i j end_) (Qn i) (s, h).
Proof.
  intros Hk (_ & p & m & Hr & Hp & Hm & -> & -> & Hes). unfold produce.
  assert (p * ops_per_producer + ops_per_producer <= total)%nat as Htot by nia.
  assert (end_of ops_per_producer p = Z.of_nat (p * ops_per_producer + ops_per_producer)) as ->.
  { unfold end_of, begin_of, add64. rewrite (u64_small (Z.of_nat _)) by (unfold is_u64; lia).
    rewrite <- Nat2Z.inj_add. apply u64_small. unfold is_u64. lia. }
  destruct (Z.ltb_spec (Z.of_nat (p * ops_per_producer + m)) (Z.of_nat (p * ops_per_producer + ops_per_producer))).
  - apply (BW_event i es _ _ _ (Index _) _ _ _ _ bench_mono_True Hk); clear s h Hk.
    + intros s h (Hir & _ & _) HI. apply (Inv_mark s); try done; [by apply (in_role_some i h)|].
      intros j [= <-]. lia.
    + intros s h x Hk HI. eapply BW_jump; [done|exact Hk|]. split; [done|]. exists p, m. split_and!; try done; try lia.
      * unfold end_of, begin_of, add64. rewrite (u64_small (Z.of_nat _)) by (unfold is_u64; lia).
        rewrite <- Nat2Z.inj_add. symmetry. apply u64_small. unfold is_u64. lia.
      * by rewrite puts_of_app, Hes, app_nil_r.
  - assert (m = ops_per_producer) as -> by lia. eapply BW_jump; [|exact Hk|].
    + intros h' _ c. congruence.
    + split; [done|]. left. exists p. split; [done|]. rewrite Hes. apply firstn_all2.
      unfold part. by rewrite length_fmap, length_seq.
Qed.

Lemma W_consume i es s h :
  know i es (fun _ => True) s h -> LL i (Consume i) es ->
  W i (consume producers ops_per_producer i) (Qn i) (s, h).
Proof.
  intros Hk (_ & (c & Hr) & Hn). unfold consume. apply (BW_load i es _ _ _ _ _ _ _ bench_mono_True Hk). clear s h Hk.
  intros s h Hk HI. rewrite (consumed_exact s h HI), total_exact.
  destruct (Z.ltb_spec (Z.of_nat (counts (evs h).*2)) (Z.of_nat total)).
  - apply (wp_ret _ _ _ i (Dequeue i _)); [apply bench_stable_Deq|]. split; [done|]. exists es. split; [done|].
    split; [done|]. split; [by exists c|done].
  - apply (BW_jump i _ es (fun h => (total <= counts (evs h).*2)%nat)).
    + intros h' Hh c' _. done.
    + destruct Hk as (? & ? & _). split_and!; [done|done|lia].
    + split; [done|]. right. by exists c.
Qed.

Lemma W_got i ptr es s h :
  know i es (fun _ => True) s h -> LL i (Got i ptr) es -> W i (got i ptr) (Qn i) (s, h).
Proof.
  intros Hk (_ & (c & Hr) & Hn). unfold got. destruct (ptr =? 0).
  - eapply BW_jump; [done|exact Hk|]. split; [done|]. split; [by exists c|done].
  - apply (BW_event i es _ _ _ Counted _ _ _ _ bench_mono_True Hk); clear s h Hk.
    + intros s h (_ & Hes & _) HI. by apply (Inv_counted s h i es c).
    + intros s h x Hk HI. eapply BW_jump; [done|exact Hk|]. split; [done|]. split; [by exists c|].
      rewrite counts_app, takes_of_app, length_app. change (counts [inl Counted]) with 1%nat.
      change (takes_of [inl Counted]) with ([] : list Z). simpl. lia.
Qed.

Lemma BW_join t es s h :
  know 0 es (MM (MJoin t)) s h -> (1 <= t)%nat ->
  W 0 (main_join producers consumers ops_per_producer t) (Qn 0%nat) (s, h).
Proof.
  intros Hk Ht. unfold main_join. destruct (Nat.leb_spec t (producers + consumers)).
  - apply (BW_load 0 es _ _ _ _ _ _ _ (mono_MM (MJoin t)) Hk). clear s h Hk. intros s h Hk HI.
    case_bool_decide as Hin.
    + apply (BW_jump 0 _ es (fun h => MM (MJoin t) h /\ inl Finished ∈ by_thread t h)); [| |split; [done|lia]].
      * intros h' [HM Hf] i Hi. destruct (decide (i = t)) as [->|]; [done|]. apply HM. lia.
      * destruct Hk as (? & ? & HM). split_and!; [done|done|done|]. by apply (bi_finished _ _ HI).
    + by eapply BW_jump; [|exact Hk|].
  - apply (BW_act 0 es _ _ _ _ _ _ _ _ (mono_MM (MJoin t)) Hk). clear s h Hk.
    intros s h s2 [] (Hr & _ & HM) HI [= <-]. csimpl.
    split; [apply (Inv_mark s); try done; intros _ i Hi; apply HM; lia|].
    apply (wp_ret _ _ _ 0 (Done _)); [apply stable_post|]. destruct Hr as (o & es' & Hv & Ho). injection Ho as <-.
    exists Caller, (es' ++ [inl End]). rewrite opview_snoc, decide_True, Hv by done. split; [done|]. split; [|done].
    apply elem_of_app. right. by left.
Qed.



Lemma W_arrive i l es s h : know i es (MM l) s h -> LL i l es -> W i (arrive i l) (Qn i) (s, h).
Proof.
  intros Hk HL. apply (BW_load i es _ _ _ _ _ _ _ (mono_MM l) Hk). clear s h Hk. intros s h Hk HI.
  destruct (_ <=? _)%nat.
  - apply (BW_store i es _ _ _ _ _ _ (mono_MM l) bench_irrelevant_ready Hk). clear s h Hk HI. intros s h Hk HI.
    by apply (BW_jump i (Wait i l) es (MM l)).
  - by apply (BW_jump i (Arrive i l) es (MM l)).
Qed.

Lemma W_wait i l es s h : know i es (MM l) s h -> LL i l es -> W i (wait i l) (Qn i) (s, h).
Proof.
  intros Hk HL. apply (BW_load i es _ _ _ _ _ _ _ (mono_MM l) Hk). clear s h Hk. intros s h Hk HI.
  destruct (start_ s).
  - by apply (BW_jump i l es (MM l)).
  - by apply (BW_jump i (Wait i l) es (MM l)).
Qed.

Lemma BW_main_spawn es s h :
  know 0 es (fun _ => True) s h -> W 0 (main_spawn producers consumers) (Qn 0%nat) (s, h).
Proof.
  intros Hk. apply (BW_load 0 es _ _ _ _ _ _ _ bench_mono_True Hk). clear s h Hk. intros s h Hk HI.
  destruct (_ <? _)%nat; [|by eapply BW_jump; [|exact Hk|]].
  apply (BW_store 0 es _ _ _ _ _ _ bench_mono_True bench_irrelevant_spawn Hk). clear s h Hk HI. intros s h Hk HI.
  by eapply BW_jump; [|exact Hk|].
Qed.

Lemma BW_main_ready es s h :
  know 0 es (fun _ => True) s h -> W 0 (main_ready producers consumers) (Qn 0%nat) (s, h).
Proof.
  intros Hk. apply (BW_load 0 es _ _ _ _ _ _ _ bench_mono_True Hk). clear s h Hk. intros s h Hk HI.
  destruct (negb _); [by eapply BW_jump; [|exact Hk|]|].
  apply (BW_store 0 es _ _ _ _ _ _ bench_mono_True bench_irrelevant_start Hk). clear s h Hk HI. intros s h Hk HI.
  eapply BW_jump; [|exact Hk|split; [done|lia]]. intros h' _ i Hi. lia.
Qed.

Lemma W_thread_done i es s h :
  know i es (MM (ThreadDone i)) s h -> LL i (ThreadDone i) es -> W i (thread_done i) (Qn i) (s, h).
Proof.
  intros Hk HL. apply (BW_act i es _ _ _ _ _ _ _ _ (mono_MM (ThreadDone i)) Hk). clear s h Hk.
  intros s h s2 [] Hk HI [= <-]. csimpl. split; [by apply (BInv_finished s h i es s)|].
  apply (wp_ret _ _ _ i (Done _)); [apply stable_post|]. destruct Hk as ((o & es' & Hv & Ho) & _).
  exists o, (es' ++ [inl Finished]). rewrite opview_snoc, decide_True, Hv by done. split; [done|].
  destruct o; try done. destruct HL as (_ & [(p & Hp & _)|(c & Hc)]); congruence.
Qed.

Lemma bench_code i l s h :
  LI i l s h -> Inv s h -> W i (bench_body storage producers consumers ops_per_producer l) (Qn i) (s, h).
Proof.
  intros (es & Hk & HL) HI. destruct l; simpl in HL |- *.
  - subst i. by apply (BW_main_spawn es).
  - subst i. by apply (BW_main_ready es).
  - destruct HL as [-> Ht]. by apply (BW_join t es).
  - destruct HL as [-> HL]. by apply (W_arrive self l es).
  - destruct HL as [-> HL]. by apply (W_wait self l es).
  - pose proof HL as [-> _]. by apply (W_thread_done self es).
  - pose proof HL as [-> _]. by apply (W_produce self i0 end_ es).
  - pose proof HL as [-> _]. apply (wp_ret _ _ _ self (Enqueue self ptr _)); [apply bench_stable_Enq|].
    exists i0, end_. split; [done|]. by exists es.
  - pose proof HL as [-> _]. by apply (W_consume self es).
  - pose proof HL as [-> _]. by apply (W_got self ptr es).
Qed.

(** ** The accesses of the queue *)

Lemma part_lookup p m : (m < ops_per_producer)%nat ->
  take (S m) (part p) = take m (part p) ++ [element storage (Z.of_nat (p * ops_per_producer + m))].
Proof.
  intros Hm. apply take_S_r. unfold part. rewrite list_lookup_fmap, lookup_seq_lt by done. done.
Qed.

Lemma part_length p : length (part p) = ops_per_producer.
Proof. unfold part. by rewrite length_fmap, length_seq. Qed.

Lemma bench_put i p k s h :
  Enq i p k false s h -> Inv s h ->
  Inv s (h ++ [HLin i (inr (Put p))]) /\ Enq i p k true s (h ++ [HLin i (inr (Put p))]).
Proof.
  intros (j & end_ & -> & es & Hk & _ & q & m & Hr & Hq & Hm & -> & -> & Hes & ->) HI.
  pose proof Hk as (_ & Hb & _).
  assert (puts_of (es ++ [inr (Put (element storage (Z.of_nat (q * ops_per_producer + m))))]) = take (S m) (part q)) as Hput.
  { by rewrite puts_of_app, Hes, part_lookup. }
  split.
  - apply (Inv_event s); try done.
    + rewrite Nat.add_0_r. apply (bi_consumed _ _ HI).
    + auto.
    + pose proof (bi_ok _ _ HI i) as Hok. rewrite Hb, Hr in Hok. destruct Hok as (_ & Ht & Hc).
      rewrite Hb, Hr. split_and!.
      * exists (drop (S m) (part q)). rewrite puts_of_app, Hes. etrans; [symmetry; apply (take_drop (S m))|].
        by rewrite part_lookup.
      * by rewrite takes_of_app, Ht.
      * by rewrite counts_app, Hc.
    + rewrite Hb, Hr. intros [Hf|Hf%list_elem_of_singleton]%elem_of_app; [|done]. exfalso.
      pose proof (bi_fin _ _ HI i) as Hfin. rewrite Hb, Hr in Hfin. specialize (Hfin Hf). simpl in Hfin. rewrite Hes in Hfin.
      apply (f_equal length) in Hfin. rewrite length_take, part_length in Hfin. lia.
    + rewrite evs_events, events_snoc, <- evs_events, takes_of_app, puts_of_app, app_nil_r.
      apply submseteq_inserts_r, (bi_order _ _ HI).
  - exists (Z.of_nat (q * ops_per_producer + m)), (end_of ops_per_producer q). split; [done|].
    eexists. split; [by apply (bench_know_event i es _ s s h _ bench_mono_True)|].
    split; [done|]. exists q, (S m). split_and!; try done.
    unfold add64. rewrite u64_small; [lia|]. unfold is_u64. assert (q * ops_per_producer + m < total)%nat by nia. lia.
Qed.

Lemma bench_take i p k s h :
  Deq i k None s h -> Inv s h -> bok s (h ++ [HLin i (inr (Take p))]) ->
  Inv s (h ++ [HLin i (inr (Take p))]) /\ Deq i k (Some p) s (h ++ [HLin i (inr (Take p))]).
Proof.
  intros (-> & es & Hk & _ & (c & Hr) & Hn) HI [_ Hord]. pose proof Hk as (_ & Hb & _). simpl in Hn.
  rewrite views_takes, views_puts in Hord.
  assert (p <> 0) as Hp.
  { apply element_pos. eapply elem_of_submseteq; [|apply (puts_elements s h HI)].
    assert (puts_of (evs h).*2 = puts_of (evs (h ++ [HLin i (inr (Take p))])).*2) as ->.
    { by rewrite !evs_events, events_snoc, puts_of_app, app_nil_r. }
    eapply elem_of_submseteq; [|exact Hord]. rewrite evs_events, events_snoc, takes_of_app. apply elem_of_app. right. by left. }
  split.
  - apply (Inv_event s); try done.
    + rewrite Nat.add_0_r. apply (bi_consumed _ _ HI).
    + auto.
    + pose proof (bi_ok _ _ HI i) as Hok. rewrite Hb, Hr in Hok. destruct Hok as (Hpp & Hle). rewrite Hb, Hr. split.
      * by rewrite puts_of_app, Hpp.
      * rewrite counts_app, takes_of_app, length_app. unfold counts at 2, takes_of at 2. simpl. lia.
    + apply fin_ok_snoc; [done|done|apply (bi_fin _ _ HI)].
  - split; [done|]. eexists. split; [by apply (bench_know_event i es _ s s h _ bench_mono_True)|]. split; [done|]. split; [by exists c|].
    simpl. rewrite counts_app, takes_of_app, length_app. destruct (Z.eqb_spec p 0); [done|].
    unfold counts at 2, takes_of at 2. simpl. lia.
Qed.

(** ** The outline *)

Lemma bench_call i o s h :
  Inv s h -> started (brole_of producers consumers) (h ++ [HCall i o]) ->
  LI i (bench_entry producers ops_per_producer o) s (h ++ [HCall i o]).
Proof.
  intros HI Hs. destruct (Hs h [] i o eq_refl) as [Hr Hf].
  assert (by_thread i h = []) as Hb.
  { clear -Hf. unfold by_thread. induction Hf as [|x h Hx _ IH]; [done|]. unfold evs in *. csimpl.
    destruct x; csimpl; try done. by rewrite by_cons, decide_False. }
  exists []. split.
  - split_and!.
    + exists o, []. by rewrite opview_call, decide_True.
    + unfold by_thread. by rewrite evs_item.
    + by destruct o.
  - destruct o as [|p|c]; simpl.
    + unfold brole_of in Hr. destruct (Nat.eqb_spec i 0); [done|].
      destruct (_ <=? _)%nat; [done|]. by destruct (_ <=? _)%nat.
    + pose proof Hr as Hr'. unfold brole_of in Hr'. destruct (Nat.eqb_spec i 0); [done|].
      destruct (Nat.leb_spec i producers); [|by destruct (_ <=? _)%nat]. injection Hr' as <-.
      unfold producer_thread. split; [lia|]. split; [lia|]. exists (i - 1)%nat, 0%nat. split_and!; try done; try lia.
      unfold begin_of. rewrite Nat.add_0_r. apply u64_small. unfold is_u64.
      pose proof (Nat.mul_le_mono_r (i - 1) producers ops_per_producer ltac:(lia)) as Hle. apply Nat2Z.inj_le in Hle.
      split; [apply Nat2Z.is_nonneg|]. by eapply Z.le_lt_trans; [exact Hle|].
    + pose proof Hr as Hr'. unfold brole_of in Hr'. destruct (Nat.eqb_spec i 0); [done|].
      destruct (Nat.leb_spec i producers); [done|]. destruct (Nat.leb_spec i (producers + consumers)); [|done].
      injection Hr' as <-. unfold consumer_thread. split; [lia|]. split; [lia|]. split; [eauto|done].
Qed.

Lemma bench_outline :
  client_outline (bench_entry producers ops_per_producer) (bench_body storage producers consumers ops_per_producer)
    Inv G0 (fun _ h => started (brole_of producers consumers) h) submseteq LI Enq Deq bgood.
Proof.
  split.
  - apply bench_stable_Enq.
  - apply bench_stable_Deq.
  - done.
  - intros i o s h HI _ [Hs _]. split_and!; [done|by apply BInv_item|by apply bench_call].
  - intros i r s h HI _. split; [done|]. by apply BInv_item.
  - apply bench_code.
  - intros i p k s h g' HE HI _. destruct (bench_put i p k s h HE HI). by split_and!.
  - intros i p k s h g' HD HI Hok. destruct (bench_take i p k s h HD HI Hok). by split_and!.
  - by intros i p k b s h (j & end_ & -> & HL) HI.
  - by intros i k r s h (-> & HL) HI.
Qed.

End proofs.

(** The pointers that the queue has given out, in order. *)
Definition dequeued (Q : queue_impl) {E O R} (q_view : QE Q -> option bev) (h : list (hev (event Q (E := E)) O R)) : list Z :=
  takes (omap q_view (events (proj Q h))).

Lemma index_ghost (Q : queue_impl) q_view (h : list (hev (event Q (E := bevent)) brole bres)) j :
  Mine Q (Index j) ∈ events h -> exists i, inl (Index j) ∈ by_thread i (ghost Q q_view h).
Proof.
  intros (x & Hx & He)%list_elem_of_omap. destruct x as [i o|i e|i r]; try done. injection He as ->. exists i.
  unfold by_thread, by_. apply list_elem_of_fmap. exists (i, inl (Index j)). split; [done|]. apply list_elem_of_filter.
  split; [done|]. apply list_elem_of_omap. exists (HLin i (inl (Index j))). split; [|done].
  apply list_elem_of_omap. by exists (HLin i (Mine Q (Index j))).
Qed.

(** The caller has reached its end. *)
Lemma caller_ended producers consumers (Q : queue_impl) q_view (h : list (hev (event Q (E := bevent)) brole bres)) es r :
  started (brole_of producers consumers) (ghost Q q_view h) -> (Caller, es, r) ∈ completed h ->
  inl End ∈ omap (cview Q q_view) es -> exists i, inl End ∈ by_thread i (ghost Q q_view h).
Proof.
  intros Hst Hin He. destruct (started_completed Q q_view _ _ _ _ _ Hst Hin) as (i & _ & Hes). exists i.
  apply Hes in He. unfold by_thread, by_. apply list_elem_of_fmap. exists (i, inl End). split; [done|].
  apply list_elem_of_filter. split; [done|]. apply list_elem_of_omap. by exists (HLin i (inl End)).
Qed.
