(* ===== verification/BenchQueues.v ===== *)
(** * BenchQueues: the measurements on the queues of the library

    [bench_correct]: what [run_mpmc_benchmark] and [bench_lscq] return is right on any
    queue that gives out each pointer at most as often as it took it in, in particular
    on [SCQP].  On [LSCQ], which does not keep that contract, the measurement can end
    although an element is still in the queue ([bench_lscq_miscounts]). *)

From stdpp Require Import base list numbers option.
From Stdlib Require Import ZArith Lia.
From S2P Require Import Prelude Fifo Cas2 Ring TicketRing ScqSeq Scqp ScqpSeq ScqpConc Pool Lscq LscqConc LscqConcProofs Conc Client ClientQueues Bench BenchProofs.

Local Open Scope Z_scope.

(** The accesses of [run_mpmc_benchmark(q, ...)] for [SCQP], and of [bench_lscq]. *)
Definition run_mpmc_benchmark_scqp (k : Z) (fb : bool) (storage : Z) (producers consumers ops_per_producer : nat) :=
  body (scqp_impl k fb) (bench_body storage producers consumers ops_per_producer).

Definition bench_lscq (k : Z) (fb : bool) (nshards : nat) (storage : Z) (producers consumers ops_per_producer : nat) :=
  body (lscq_impl k fb nshards) (bench_body storage producers consumers ops_per_producer).

(** C9. [run_mpmc_benchmark] and [bench_lscq] measure what they report, on every queue
    that gives out each pointer at most as often as it took it in, in every
    interleaving: no index of [storage] is out of range, the counter never passes
    [total_ops], no element is dequeued twice and nothing else is dequeued; and when
    the caller returns, the number that it divides by the time is the number of
    elements, the counter has that value and every element was dequeued exactly once.
    [SCQP] is such a queue, of any size and in both modes. *)
Theorem bench_correct storage producers consumers ops_per_producer Q q_view okQ q0 n c :
  0 < storage -> Z.of_nat (producers * ops_per_producer) < two64 -> (0 < consumers)%nat ->
  Serves Q q_view okQ q0 submseteq ->
  reach (entry Q (bench_entry producers ops_per_producer))
    (body Q (bench_body storage producers consumers ops_per_producer))
    (fun s h => started (brole_of producers consumers) (ghost Q q_view h) /\ okQ s.2 (proj Q h)) (bstate_new, q0) n c ->
  let total := Z.of_nat (producers * ops_per_producer) in
  (forall i, Mine Q (Index i) ∈ events (hist c) -> 0 <= i < total) /\
  consumed (shared c).1 <= total /\
  dequeued Q q_view (hist c) ⊆+ all_elements storage producers ops_per_producer /\
  forall es r, (Caller, es, r) ∈ completed (hist c) ->
    r = Ops total /\ consumed (shared c).1 = total /\
    dequeued Q q_view (hist c) ≡ₚ all_elements storage producers ops_per_producer.
Proof.
  intros Hs Hn Hc HQ Hreach total.
  assert (started (brole_of producers consumers) (ghost Q q_view (hist c))) as Hst.
  { destruct Hreach as [|i m c c' _ _ [Hst _]]; [apply started_nil|done]. }
  destruct (client_adequacy Q _ _ q_view _ _ _ _ _ _ _ _ (bench_outline storage producers consumers ops_per_producer Hs Hn)
    okQ (bstate_new, q0) n c (BInv_start _ _ _ _) HQ Hreach) as [HI Hg].
  assert (dequeued Q q_view (hist c) = takes_of (evs (ghost Q q_view (hist c))).*2) as Hd.
  { unfold dequeued. by rewrite <- (g_views_ghost Q q_view), views_takes. }
  rewrite Hd. split_and!.
  - intros j [i Hj]%(index_ghost Q q_view). by apply (bi_index _ _ _ _ _ _ HI i).
  - erewrite consumed_exact by done. apply Nat2Z.inj_le. by eapply counts_bound.
  - etrans; [apply (bi_order _ _ _ _ _ _ HI)|by eapply puts_elements].
  - intros es r Hin. destruct (proj1 (list.Forall_forall _ _) Hg _ Hin) as [Hend ->].
    destruct (caller_ended _ _ Q q_view _ _ _ Hst Hin Hend) as [i Hi].
    destruct (done_total _ _ _ _ Hn _ _ HI Hc (bi_end _ _ _ _ _ _ HI i Hi)) as [Hco Hta].
    split_and!; [by rewrite total_exact|done|done].
Qed.

(** *** On [SCQP] *)

(** One producer with three elements and one consumer, to the end. *)
Definition bench_schedule : list (nat * move brole) :=
  [(0, Call Caller); (1, Call (Producer 0)); (2, Call (Consumer 0))]%nat ++
  go 0 30 ++ go 1 6 ++ go 2 30 ++ go 0 12 ++ go 2 40 ++ go 1 70 ++ go 2 44 ++ go 0 7.

Definition bench_run : config :=
  outcome (entry (scqp_impl 2 false) (bench_entry 1 3)) (run_mpmc_benchmark_scqp 2 false 1000 1 1 3)
    (bstate_new, SCQP_new 4 false) 3 bench_schedule.

Lemma bench_run_reach :
  reach (entry (scqp_impl 2 false) (bench_entry 1 3)) (run_mpmc_benchmark_scqp 2 false 1000 1 1 3)
    (fun s h => started (brole_of 1 1) (ghost (scqp_impl 2 false) ring_view h) /\ scqp_ok s.2 (proj (scqp_impl 2 false) h))
    (bstate_new, SCQP_new 4 false) 3 bench_run.
Proof.
  apply (outcome_reach _ _ _ (fun s h => startedb (brole_of 1 1) [] (ghost (scqp_impl 2 false) ring_view h) &&
    scqp_okb s.2 (proj (scqp_impl 2 false) h))).
  - intros s h [H1 H2]%andb_prop. split; [by apply startedb_started|by apply scqp_okb_ok].
  - vm_compute. reflexivity.
Qed.

Lemma bench_correct_witness :
  (exists es, (Caller, es, Ops 3) ∈ completed (hist bench_run)) /\ consumed (shared bench_run).1 = 3 /\
  dequeued (scqp_impl 2 false) ring_view (hist bench_run) ≡ₚ [1000; 1008; 1016].
Proof.
  destruct (bench_correct 1000 1 1 3 (scqp_impl 2 false) ring_view scqp_ok (SCQP_new 4 false) 3 bench_run
    ltac:(lia) ltac:(reflexivity) ltac:(lia) (scqp_serves 2 false ltac:(lia)) bench_run_reach) as (_ & _ & _ & Hm).
  destruct (results_lookup (completed (hist bench_run)) 2 Caller (Ops 3)) as [es Hin]; [vm_compute; reflexivity|].
  destruct (Hm es _ Hin) as (_ & Hc & Hd). split; [by exists es|]. by split.
Defined.

(** *** On [LSCQ] *)

(** One producer with 15 elements and two consumers on the smallest ring; consumer 0
    (thread 2) is delayed as in [lscq_twice_schedule]. *)
Definition miscount_schedule : list (nat * move brole) :=
  let enq m := go 1 m in
  let deq m := go 3 m in
  [(0, Call Caller); (1, Call (Producer 0)); (2, Call (Consumer 0)); (3, Call (Consumer 1))]%nat ++
  go 0 30 ++ go 1 3 ++ go 2 3 ++ go 3 3 ++ go 0 6 ++
  enq 23%nat ++ enq 22%nat ++ enq 22%nat ++ enq 22%nat ++ enq 51%nat ++
  deq 20%nat ++ deq 21%nat ++ deq 21%nat ++ deq 21%nat ++ go 2 15 ++ deq 65%nat ++
  enq 22%nat ++ enq 22%nat ++ enq 22%nat ++ enq 22%nat ++ enq 50%nat ++
  enq 22%nat ++ enq 22%nat ++ enq 22%nat ++
  deq 21%nat ++ deq 21%nat ++ deq 21%nat ++ deq 21%nat ++ deq 65%nat ++
  deq 21%nat ++ deq 21%nat ++ deq 21%nat ++ enq 22%nat ++
  deq 17%nat ++ go 2 5 ++ deq 4%nat ++ go 2 3 ++ deq 3%nat ++ go 2 4 ++ deq 4%nat ++ enq 26%nat ++ go 0 8.

Definition miscount : config :=
  outcome (entry (lscq_impl 2 false 1) (bench_entry 1 15)) (bench_lscq 2 false 1 1000 1 2 15)
    (bstate_new, lscq_new 2 false 1 0) 4 miscount_schedule.

(** [bench_lscq] can return although an element is still in the queue: in the
    execution above the caller returns [total_ops = 15] and the counter is 15, but the
    element at 1104 was dequeued twice and the one at 1112 never. *)
Theorem bench_lscq_miscounts :
  reach (entry (lscq_impl 2 false 1) (bench_entry 1 15)) (bench_lscq 2 false 1 1000 1 2 15)
    (fun s h => started (brole_of 1 2) (ghost (lscq_impl 2 false 1) lscq_view h) /\
       lscq_env 2 false s.2 (proj (lscq_impl 2 false 1) h))
    (bstate_new, lscq_new 2 false 1 0) 4 miscount /\
  (exists es, (Caller, es, Ops 15) ∈ completed (hist miscount)) /\ consumed (shared miscount).1 = 15 /\
  dequeued (lscq_impl 2 false 1) lscq_view (hist miscount) ++ [element 1000 14] ≡ₚ
    element 1000 13 :: all_elements 1000 1 15.
Proof.
  split; [|split; [|split]].
  - apply (outcome_reach _ _ _ (fun s h => startedb (brole_of 1 2) [] (ghost (lscq_impl 2 false 1) lscq_view h) &&
      lscq_envb s.2 (proj (lscq_impl 2 false 1) h))).
    + intros s h [H1 H2]%andb_prop. split; [by apply startedb_started|by apply lscq_envb_ok].
    + vm_compute. reflexivity.
  - apply (results_lookup _ 3). vm_compute. reflexivity.
  - vm_compute. reflexivity.
  - apply (bool_decide_unpack _). vm_compute. exact I.
Qed.
