(* ===== verification/Simple.v ===== *)
(** * Simple: the single-threaded examples

    Models [main] of [examples/simple_queue.cpp] and of [examples/simple_usage.cpp]:
    each fills the queues of the library with a few values and empties them again.
    The queues are the models of one thread alone ([Conc.exec], and [Lscq] for
    [LSCQ]), with the sizes the programs choose; the line that reports the support of
    [cas2] is an argument.  [None] is a loop that is out of fuel, or an access to an
    object that does not exist.

    The theorems run both programs to their end, without spurious failures of the
    weak compare-and-swaps: they print every value in order, return 0, and
    [simple_usage] has deleted every object. *)

From Stdlib Require Import ZArith Lia String.
From stdpp Require Import base list numbers option gmap strings pretty.
From S2P Require Import Prelude Conc Fifo Cas2 Ring Scq Scqp MsQueue BoundedQueue Pool Lscq LscqSeq ScqpSeq Args Workers WorkersProofs.

Local Open Scope Z_scope.

(** ** Filling and emptying a queue *)

Section fill.
Context {S : Type}.
Context (enq : Z -> list bool -> S -> option (S * list bool * bool)).
Context (deq : list bool -> S -> option (S * list bool * option Z)).

(** Enqueue the values in order, until one is refused. *)
Fixpoint enqueue_all (vs : list Z) (w : list bool) (s : S) : option (S * list bool * option Z) :=
  match vs with
  | [] => Some (s, w, None)
  | v :: vs =>
      match enq v w s with
      | Some (s, w, true) => enqueue_all vs w s
      | Some (s, w, false) => Some (s, w, Some v)
      | None => None
      end
  end.

(** Dequeue until the queue is empty. *)
Fixpoint dequeue_all (fuel : nat) (w : list bool) (s : S) : option (S * list bool * list Z) :=
  match fuel with
  | O => None
  | Datatypes.S fuel =>
      match deq w s with
      | Some (s, w, None) => Some (s, w, [])
      | Some (s, w, Some v) =>
          match dequeue_all fuel w s with Some (s, w, vs) => Some (s, w, v :: vs) | None => None end
      | None => None
      end
  end.

(** One block of the programs: the lines before, the values that are refused or
    printed, and the rest of the program. *)
Definition block (fuel : nat) (before between after : list output) (failed : Z -> list output)
    (show : Z -> option output) (vs : list Z) (w : list bool) (s : S)
    (rest : list bool -> option (Z * list output)) : option (Z * list output) :=
  match enqueue_all vs w s with
  | Some (_, _, Some v) => Some (1, before ++ failed v)
  | Some (s, w, None) =>
      match dequeue_all fuel w s with
      | Some (_, w, got) =>
          match mapM show got, rest w with
          | Some lines, Some (code, out) => Some (code, before ++ between ++ lines ++ after ++ out)
          | _, _ => None
          end
      | None => None
      end
  | None => None
  end.
End fill.

(** ** The queues *)

Definition as_bool {S} (x : option (S * list bool * qres Z)) : option (S * list bool * bool) :=
  match x with Some (s, w, RBool b) => Some (s, w, b) | _ => None end.

Definition as_value {S} (empty : Z) (x : option (S * list bool * qres Z)) : option (S * list bool * option Z) :=
  match x with Some (s, w, RVal v) => Some (s, w, if v =? empty then None else Some v) | _ => None end.

(** [SCQ<std::uint64_t>(1024)] *)
Definition kEmpty64 : Z := two64 - 1.

Definition scq_enq (fuel : nat) (v : Z) (w : list bool) (s : Scq.state) :=
  as_bool (Scq.enqueue 1024 (SCQ_bottom 1024) kEmpty64 fuel v w s).

Definition scq_deq (fuel : nat) (w : list bool) (s : Scq.state) :=
  as_value kEmpty64 (Scq.dequeue 1024 (SCQ_bottom 1024) kEmpty64 fuel w s).

(** [SCQP<std::uint64_t>(1024)] *)
Definition scqp_enq (fb : bool) (fuel : nat) (p : Z) (w : list bool) (s : Scqp.state) :=
  as_bool (Scqp.enqueue 1024 (SCQP_bottom 1024) fb fuel p w s).

Definition scqp_deq (fb : bool) (fuel : nat) (w : list bool) (s : Scqp.state) :=
  as_value 0 (Scqp.dequeue 1024 (SCQP_bottom 1024) fb fuel w s).

(** [MSQueue<std::uint64_t>] and [MutexQueue<std::uint64_t>] *)
Definition ms_enq (fuel : nat) (v : Z) (w : list bool) (s : MsQueue.state) : option (MsQueue.state * list bool * bool) :=
  match MsQueue.enqueue fuel v w s with Some (s, w, MTrue) => Some (s, w, true) | _ => None end.

Definition ms_deq (fuel : nat) (w : list bool) (s : MsQueue.state) : option (MsQueue.state * list bool * option Z) :=
  match MsQueue.dequeue fuel w s with Some (s, w, MDeq r) => Some (s, w, r) | _ => None end.

Definition mu_enq (v : Z) (w : list bool) (q : list Z) : option (list Z * list bool * bool) :=
  let '(q, b) := mutex_enqueue v q in Some (q, w, b).

Definition mu_deq (w : list bool) (q : list Z) : option (list Z * list bool * option Z) :=
  let '(q, r) := mutex_dequeue q in Some (q, w, r).

(** ** [simple_queue] *)

Definition line (prefix : string) (v : Z) : output := Cout (prefix +:+ pretty (Z.to_N v)).

(** [&values[i]] and [*p]: [values] is the address of the vector. *)
Definition values_ptrs (values : Z) (vs : list Z) : list Z := imap (fun i _ => values + 8 * Z.of_nat i) vs.

Definition values_at (values : Z) (vs : list Z) (p : Z) : option Z := vs !! Z.to_nat ((p - values) / 8).

Definition yes_no (b : bool) : string := if b then "yes" else "no".

Definition simple_queue_main (fuel : nat) (has_cas2 : bool) (fb : bool) (values : Z) (w : list bool) : option (Z * list output) :=
  let vs := [10; 20; 30; 40; 50] in
  block (scq_enq fuel) (scq_deq fuel) fuel
    [Cout ("CAS2 supported: " +:+ yes_no has_cas2); Cout "[SCQ] enqueue 1..5"]
    [Cout "[SCQ] dequeue until empty:"] []
    (fun v => [Cerr ("[SCQ] enqueue failed: " +:+ pretty (Z.to_N v))])
    (fun v => Some (line "  " v)) [1; 2; 3; 4; 5] w (SCQ_new 1024) (fun w =>
  block (scqp_enq fb fuel) (scqp_deq fb fuel) fuel
    [Cout ("[SCQP] using fallback: " +:+ yes_no fb); Cout "[SCQP] enqueue pointers to {10,20,30,40,50}"]
    [Cout "[SCQP] dequeue until empty:"] []
    (fun _ => [Cerr "[SCQP] enqueue failed"])
    (fun p => line "  " <$> values_at values vs p) (values_ptrs values vs) w (SCQP_new 1024 fb) (fun _ =>
  Some (0, []))).

(** ** [simple_usage] *)

(** The queue together with the objects of the program.  A refused object is
    deleted by its [unique_ptr]; a dequeued one is read and deleted. *)
Section usage.
Context (fb : bool) (fresh : gmap Z Z -> Z) (fuel : nat).

Abbreviation lstate := (Lscq.state (SCQP_queue 10 fb) * gmap Z Z)%type.

Definition lscq_enq_owned (v : Z) (w : list bool) (s : lstate) : option (lstate * list bool * bool) :=
  let raw := fresh s.2 in
  match Lscq.enqueue (B := SCQP_queue 10 fb) 1 0 raw w s.1 with
  | Some (q, w, true) => Some ((q, <[raw := v]> s.2), w, true)
  | Some (q, w, false) => Some ((q, s.2), w, false)
  | None => None
  end.

Definition lscq_deq_owned (w : list bool) (s : lstate) : option (lstate * list bool * option Z) :=
  match Lscq.dequeue (B := SCQP_queue 10 fb) 1 0 fuel w s.1 with
  | Some (q, w, raw) =>
      if raw =? 0 then Some ((q, s.2), w, None)
      else match s.2 !! raw with
           | Some v => Some ((q, delete raw s.2), w, Some v)
           | None => None
           end
  | None => None
  end.

(** The first part of [main], on [LSCQ]: the lines, the exit code when it ends early,
    and the objects that are left. *)
Definition usage_lscq (w : list bool) : option (list bool * list output * option Z * gmap Z Z) :=
  match LSCQ_init (B := SCQP_queue 10 fb) 1 0 w (LSCQ_new_members (B := SCQP_queue 10 fb) 1) with
  | Some (q, w, _) =>
      match Lscq.enqueue (B := SCQP_queue 10 fb) 1 0 0 w q with
      | Some (_, w, true) => Some (w, [Cerr "ERROR: enqueue(nullptr) unexpectedly succeeded"], Some 1, ∅)
      | Some (q, w, false) =>
          match enqueue_all lscq_enq_owned [1; 2; 3; 4; 5] w (q, ∅) with
          | Some (s, w, Some v) =>
              Some (w, [Cout "[LSCQ] enqueue 1..5 (pointers)";
                        Cerr ("ERROR: [LSCQ] enqueue failed for value " +:+ pretty (Z.to_N v))], Some 1, s.2)
          | Some (s, w, None) =>
              match dequeue_all lscq_deq_owned fuel w s with
              | Some (s, w, got) =>
                  Some (w, [Cout "[LSCQ] enqueue 1..5 (pointers)"; Cout "[LSCQ] dequeue until empty:"] ++
                           (line "  got " <$> got) ++ [Cout "[LSCQ] Queue operations completed successfully."], None, s.2)
              | None => None
              end
          | None => None
          end
      | None => None
      end
  | None => None
  end.

(** The other queues. *)
Definition usage_block {S} (name values how : string) (enq : Z -> list bool -> S -> option (S * list bool * bool))
    (deq : list bool -> S -> option (S * list bool * option Z)) (vs : list Z) (s : S) (w : list bool)
    (rest : list bool -> option (Z * list output)) : option (Z * list output) :=
  block enq deq fuel [Cout ("[" +:+ name +:+ "] enqueue " +:+ values)]
    [Cout ("[" +:+ name +:+ "] dequeue until empty (" +:+ how +:+ "):")] [Cout ""]
    (fun _ => [Cerr ("ERROR: [" +:+ name +:+ "] enqueue failed")]) (fun v => Some (line "  got " v)) vs w s rest.

Definition usage_others (w : list bool) : option (Z * list output) :=
  usage_block "SCQ" "10,20,30" "kEmpty" (scq_enq fuel) (scq_deq fuel) [10; 20; 30] (SCQ_new 1024) w (fun w =>
  usage_block "MSQueue" "100,200,300" "bool" (ms_enq fuel) (ms_deq fuel) [100; 200; 300] MSQueue_new w (fun w =>
  usage_block "MutexQueue" "7,8,9" "bool" mu_enq mu_deq [7; 8; 9] [] w (fun w =>
  Some (0, [Cout "Done."])))).

Definition simple_usage_main (w : list bool) : option (Z * list output * gmap Z Z) :=
  match usage_lscq w with
  | Some (_, out, Some code, hp) => Some (code, Cout "LSCQ examples - simple usage (single-thread)" :: out, hp)
  | Some (w, out, None, hp) =>
      match usage_others w with
      | Some (code, out') => Some (code, Cout "LSCQ examples - simple usage (single-thread)" :: out ++ out', hp)
      | None => None
      end
  | None => None
  end.

End usage.

(** ** The outputs *)

(** [simple_queue] prints the values of both queues in order and returns 0, with
    and without the native [cas2]. *)
Theorem simple_queue_output fb :
  simple_queue_main 50 (negb fb) fb 1000 [] =
  Some (0, [Cout ("CAS2 supported: " +:+ yes_no (negb fb)); Cout "[SCQ] enqueue 1..5"; Cout "[SCQ] dequeue until empty:"] ++
    (line "  " <$> [1; 2; 3; 4; 5]) ++
    [Cout ("[SCQP] using fallback: " +:+ yes_no fb); Cout "[SCQP] enqueue pointers to {10,20,30,40,50}"; Cout "[SCQP] dequeue until empty:"] ++
    (line "  " <$> [10; 20; 30; 40; 50])).
Proof. destruct fb; vm_compute; reflexivity. Qed.

(** [simple_usage] prints the values of the four queues in order, returns 0, and
    leaves no object behind. *)
Theorem simple_usage_output fb :
  simple_usage_main fb next_address 50 [] =
  Some (0, [Cout "LSCQ examples - simple usage (single-thread)"; Cout "[LSCQ] enqueue 1..5 (pointers)";
            Cout "[LSCQ] dequeue until empty:"] ++ (line "  got " <$> [1; 2; 3; 4; 5]) ++
    [Cout "[LSCQ] Queue operations completed successfully."; Cout "[SCQ] enqueue 10,20,30";
     Cout "[SCQ] dequeue until empty (kEmpty):"] ++ (line "  got " <$> [10; 20; 30]) ++
    [Cout ""; Cout "[MSQueue] enqueue 100,200,300"; Cout "[MSQueue] dequeue until empty (bool):"] ++
    (line "  got " <$> [100; 200; 300]) ++
    [Cout ""; Cout "[MutexQueue] enqueue 7,8,9"; Cout "[MutexQueue] dequeue until empty (bool):"] ++
    (line "  got " <$> [7; 8; 9]) ++ [Cout ""; Cout "Done."], ∅).
Proof. destruct fb; vm_compute; reflexivity. Qed.
